(* ===== verification/_CoqProject ===== *)
-Q . S2P
Prelude.v
GoStrings.v
Wildcard.v
Names.v
RootRegistry.v
MessageTracer.v
Tracing.v
TraceHelper.v
TraceReport.v
WorkerPool.v
MsgQ.v
QueueBounds.v
LANRegistry.v
LANLife.v
Lookup.v
Client.v
LANNet.v
Stream.v
TraceFlow.v
Recv.v
StreamIO.v
Listener.v
Acceptor.v
ReverseProxy.v
Relay.v
Pipe.v
ChanTransport.v
Sharing.v
Accept.v
StreamTransport.v
SendLock.v
Duplex.v
Rpc.v
Server.v
ServerLife.v
ServerScopes.v
MessageTypes.v
Shutdown.v
CloseWait.v
Node.v
Machine.v
