(* ===== verification/Prelude.v ===== *)
(** * adaptiveservice, verified

    This library models adaptiveservice, a message oriented micro service
    framework written in Go, and proves what its parts promise.  A server
    publishes services under a name "publisher_service" in some of four scopes:
    the process (Go channels), the machine (unix sockets), the local network and
    the wide area network (TCP).  A client discovers services by name patterns,
    connects to them and exchanges messages on streams multiplexed on a
    connection; messages that know how to handle themselves go through a
    priority queue to a pool of workers.  Registries remember who offers what;
    messages can be traced across services.

    ** The parts, and where they are

    Names.  [GoStrings] has the functions of Go's strings, strconv, filepath and
    fmt packages the program calls, on lists of bytes.  [Wildcard] is
    WildcardMatch (adaptiveservice.go) and matchProvider (registry.go).  [Names]
    is the shared vocabulary: Scope, error values, ServiceInfo, published names
    and socket addresses (adaptiveservice.go, registry.go, server.go).

    Registries.  [RootRegistry] is the second half of registry.go: the table
    serviceMap of the root registry, walkProviders, the Handle methods of
    regServiceInWAN, delServiceInWAN and queryServiceInWAN, registryCheckSaver
    and the reload of "services.record".  [LANRegistry] is registryLAN of
    registry.go with the handlers of lanregistry_svc.go: [registryLAN.run] is a
    function from a state and an event (command, packet, tick, stop) to a state
    and a list of effects; [LANLife] is the opening, the reading goroutine and the
    stopping around it, with the buffer of 512 bytes a datagram is read into and the
    class [PacketCodec] of the third-party encoding; [LANNet] is any number of such
    registries on a network that loses, repeats and reorders their datagrams.  [Lookup] is the lookup inside a node: the table
    chanRegistry, the abstract sockets of /proc/net/unix, the socket files; with
    the lister of servicelister_svc.go and ipobserver_svc.go.

    Client.  [Client] is client.go with its options: Discover round by round,
    the selection of providers by score and latency (float32 in [spec_float]).

    Transports.  [Stream] is the byte level of streamtransportclient.go and
    streamtransportserver.go: handshake, frames, reading a frame from a
    connection that delivers bytes in any pieces, and dispatching to streams.  [Pipe] is the specification of what a
    transport promises and the interface [Transport] of an implementation;
    [ChanTransport] (chantransportclient.go, chantransportserver.go) and
    [StreamTransport] are its two instances, the second over any [Codec] in the
    place of the third-party serialisation and for any [Reader], the receiver of
    either side.  [Sharing] is the memory that the two ends of a process connection
    have in common, with the options that copy messages deeply.  [Accept] is the accepting side of the process transport around
    the connections of [ChanTransport].  [SendLock] is the body of Send that
    [StreamTransport] takes as one step: the encoders, the flag that lends them
    out and the mutex.  [Duplex] puts the two directions of a connection behind
    the class [Duplex] of [Pipe], for both transports.  [Recv] is the end of all
    four Recv methods and context.go; [StreamIO] is streamIO of adaptiveservice.go
    on top of it.  [Listener] is which connections are
    accepted and what address is dialed, [Acceptor] the goroutines of a listening
    transport from its opening to its closing.  [ReverseProxy] is the joining of
    connections in reverseproxy_svc.go, [Relay] the copying between two of them, after
    the handshakes that are read off both, and the meeting of the two ends before.

    Server.  [Server] is server.go with server_options.go, service_options.go,
    options.go and the registration half of the other files, in a state monad
    [M] over the server and the tables of its process.  [ServerLife]
    has its closers run beside the workers of the queue and the receivers of
    connections to proxies that they wake; it and [ServerScopes] are theorems about
    it.  [MessageTypes] is what the init functions
    of all files register, and the message types the builtin services take and reply.  [Shutdown] is what goes on between the
    servers of a process when a signal comes: Serve, Close, and the goroutine of
    initSigCleaner (adaptiveservice.go), with the workers that the closing waits for;
    [CloseWait] adds the calls of CloseWait.  [MsgQ] is scalamsgq.go and [WorkerPool]
    is workerpool.go, as step relations whose steps are channel operations and
    critical sections; [QueueBounds] is how much a queue holds.  [Rpc] runs the
    connections of all clients, the queue and its workers together; [Node] follows a
    service from PublishIn to Discover within the process and across the wide area
    network, [Machine] on its machine.

    Tracing.  [Tracing] is the choice of traced messages in messagetracing.go,
    [TraceFlow] how a tracing ID spreads through goroutines and messages
    (routinelocal.go and the Send, Recv and worker of the other files), [TraceHelper]
    the delivery of records to the service, over connections that may be lost, [MessageTracer] the service itself, messagetracing_svc.go, and [TraceReport] the report that
    ReadTracedMsg draws of the records read back.

    ** How the parts interact

    A server's [publish] (Server) writes the tables that the lookups of a client
    read: chanRegistry (Lookup), sockets and files (Lookup), the LAN registry by
    the command cmdLANRegister (LANRegistry) and the root registry by the message
    regServiceInWAN (RootRegistry).  [Client.Discover] tries the scopes from near
    to far and gives connections, which are transports in the sense of [Pipe].
    A transport dispatches a message to the queue (MsgQ) when its service can
    handle it and to the stream's private channel otherwise, from which [Recv]
    takes it.  [Rpc] closes the circle: a worker of the queue handles the message
    and sends the reply on the stream it came from.

    ** Conventions

    Strings are lists of bytes.  A call that may panic returns an [outcome]; a
    server's calls also return errors ([result]).  Integers are [Z] with their
    width written out where they wrap or are compared to a limit (frames' sizes,
    tracing sequence numbers, the counters of the tracing configuration).  The
    order in which Go ranges over a map is a parameter: the class [GoRange] of
    Prelude gives, for each map, some permutation of its elements; every theorem
    holds for all of them, and witnesses use the canonical instance.  What the
    program gets from outside (clock, dialing, file system, kernel, third-party
    serialisation, scheduling) is an argument of the definitions or a choice of
    the step relation.

    Fuel appears in: the loop of Itoa, whose 33 digits exceed those of any 64-bit
    number; the replacement of braces in a report, bounded by the length of the
    string; [load_loop], bounded by the number of lines; [read_all], bounded by
    the number of bytes; Discover's rounds, where [discover_rounds] says how many
    there are and that a negative timeout has no last one.

    ** What the theorems show

    - Names: WildcardMatch decides the declarative meaning of patterns.
    - Root registry: any sequence of requests is answered as by an abstract map
      ([registry_implements_table]); a check round keeps exactly the live or
      recent providers; reloading the record gives the registry back.
    - LAN registry: any sequence of events is answered as by an abstract table
      with ages ([lan_registry_answers]); over a faulty network without datagrams too
      long for the buffer nothing is answered that no host registered, and whatever
      is registered can be found; the record
      survives a restart, if the registry was waiting when it was
      closed ([lan_stops_iff]); a malformed packet panics.
    - Lookup: the abstract sockets found are the matching ones, one per name.
    - Client: Discover gives only connections to dialable services of the client's
      scopes, whose name and provider match as its user asked, told apart from what
      the lookups do, by registries it was given or learned of, and never more than
      expected; the number of its rounds; what it gives within the process.
    - Transports: both refine a first-in first-out pipe per stream, under any
      interleaving and however the bytes are cut; a closed process connection
      drains and its goroutine ends, but for waiting at a full channel; concurrent calls of Send write whole frames,
      as the one-step Send does ([sends_are_atomic]); a call of newConnection
      returns exactly while its transport runs; a listening transport comes to
      rest when it is closed, and its receiver stops unless it was closed too early
      ([transport_closes]); with a client that copies messages deeply and a server that
      replies with data, neither end of a process connection sees what the other
      writes ([messages_not_shared]).
    - Byte streams: streamIO reads a prefix of what the peer wrote, and an error where
      the peer closed, which is io.EOF itself on a client's stream, or of a timeout or a
      closed connection, with the rest left to read.
    - Message types: whatever order the init functions run in, the messages of the builtin
      services and their replies are found by name ([messages_registered]).
    - Calls: each reply goes to the stream of its message, over any transport, and is
      the one its caller gets unless that stream has a timeout ([calls_get_their_replies]).
    - Reverse proxy: clients' and servers' connections are joined one to one; joined
      connections are one connection to both peers from the end of their handshakes on
      ([relay_is_a_connection]).
    - Server: whatever is published and whatever fails, the end of Serve leaves
      the node as it was, but for services that went through a proxy
      ([server_leaves_no_trace]); init keeps the scopes that have a registry; PublishIn
      registers exactly in the scopes of the server; at a signal the servers that
      serve come to their closing in a bounded number of steps, and to its end when
      their workers return ([signal_closes_all]); so CloseWait comes back, up to the
      second call at a time ([close_wait_returns]).
    - Services end to end: one published in the process, or on the machine, is found
      there until its Serve ends; one registered at the root registry is found across the network
      until it is withdrawn.
    - Queue and pool: no message is lost or duplicated, the classes keep their order and
      the queue holds no more than its bound ([queue_bounded]); an undisturbed turn
      sends high before normal before low; the pool's counters count its goroutines, and
      close can return exactly if each of them had read its channel ([close_returns_iff]);
      the scaler reaches its target.
    - Tracing: a count of n gives n consecutive IDs; the messages with an ID are
      those that follow from the one that was given it ([tracing_ids_spread]), and a
      tree of calls leaves the records a report draws, when each is made at once; what
      is sent to the service is a prefix of what was accepted, in order, and it gets a
      prefix of each connection ([trace_delivery_fifo]); the tracer is a bounded LRU list, and stays
      one when its handlers interleave; the report of a session draws its calls.

    Next to them stand lemmas and examples for what the code does otherwise than
    it means to: a published server that nobody serves blocks the signal's
    goroutine ([Shutdown.unserved_blocks_cleaner]), a handler that does not return blocks
    the closing ([CloseWait.blocked_handler_blocks_close]), no proxied connection is ever
    joined, as both its ends wait for a handshake ([Relay.never_met]), a Send on a closed process
    connection panics, a class of messages first used late is never read
    ([MsgQ.late_channel_starves]), the end of a streamIO is no io.EOF for a server over a
    connection ([StreamIO.server_end_is_no_EOF]), and others named in the files.

    Proofs share: the lemmas and tactics of Prelude; the calculus of [keeps] and
    the class [Stable] (Server), by which a property of the node kept by each
    primitive is kept by whole calls; the classes [Transport] and [Duplex], whose
    clients get first-in first-out delivery from the simulation alone; the class
    [Reader], which the two receivers of the byte transport instantiate.

    ** What is not modelled

    The encoding of messages (gotiny), deep copies and UUIDs are third-party code:
    [StreamTransport] takes any [Codec], [LANNet] any [PacketCodec], [Sharing] any [DeepCopy], and what the encoder's
    registry of types refuses is an assumption of [MessageTypes].  So is the package
    behind goroutine-local storage, of which [TraceFlow] has what the program keeps
    there.  Loggers print and change no state of the program.  Sockets, the file system
    and the clock are arguments.  The counts of workers are not cut to their 32 bits.
    [Sharing] and the pipes are apart: the messages of
    a pipe are values.  Which of the reports of the tracer's services belong
    together is not followed across the network: [TraceReport] starts from the
    records they answer with.  The programs under
    src/examples demonstrate the library and are not part of it. *)
From stdpp Require Export base tactics option list strings gmap fin_maps sorting relations.
From Stdlib Require Export Ascii ZArith Lia.

(** Go strings and byte slices are lists of 8-bit characters. *)
Abbreviation bytes := (list ascii).

(** A Go string literal. *)
Definition str : string → bytes := String.list_ascii_of_string.

Declare Scope go_scope.
Delimit Scope go_scope with go.

(** ** Outcomes: a Go call returns a value or panics *)

Inductive outcome (A : Type) : Type :=
| Return (a : A)
| Panics (why : bytes).
Arguments Return {A} a.
Arguments Panics {A} why.

#[export] Instance outcome_ret : MRet outcome := λ A, Return.
#[export] Instance outcome_bind : MBind outcome := λ A B f m,
  match m with Return a => f a | Panics w => Panics w end.
#[export] Instance outcome_fmap : FMap outcome := λ A B f m,
  match m with Return a => Return (f a) | Panics w => Panics w end.
#[export] Instance outcome_eq_dec `{EqDecision A} : EqDecision (outcome A).
Proof. solve_decision. Defined.

(** Run [f] on every element, left to right, stopping at the first panic. *)
Fixpoint mapOutcome {A B} (f : A → outcome B) (l : list A) : outcome (list B) :=
  match l with
  | [] => Return []
  | x :: l => y ← f x; ys ← mapOutcome f l; Return (y :: ys)
  end.

(** Fold with a body that may panic: a [for] loop over a list. *)
Fixpoint foldOutcome {A S} (f : S → A → outcome S) (s : S) (l : list A) : outcome S :=
  match l with
  | [] => Return s
  | x :: l => s' ← f s x; foldOutcome f s' l
  end.

(** ** Map iteration

    Go ranges over a map in an unspecified order.  A development that depends
    on the order of a [range] takes it from this interface, whose only law is
    that every entry is visited exactly once. *)
Class GoRange := {
  range : ∀ {A : Type}, gmap bytes A → list (bytes * A);
  range_perm : ∀ {A : Type} (m : gmap bytes A), range m ≡ₚ map_to_list m;
}.

(** One admissible order, used by the executable examples. *)
#[export] Instance range_canonical : GoRange :=
  {| range A m := map_to_list m; range_perm A m := Permutation_refl _ |}.

(** ** Prefixes of lists delimited by a test *)
Section while.
Context {A : Type} (f : A → bool).

Fixpoint take_while (l : list A) : list A :=
  match l with
  | [] => []
  | x :: l => if f x then x :: take_while l else []
  end.

Fixpoint drop_while (l : list A) : list A :=
  match l with
  | [] => []
  | x :: l => if f x then drop_while l else x :: l
  end.

Lemma take_drop_while l : take_while l ++ drop_while l = l.
Proof. induction l as [|x l IH]; simpl; [done|]. destruct (f x); simpl; congruence. Qed.

Lemma take_while_all l k : Forall f l → take_while (l ++ k) = l ++ take_while k.
Proof.
  induction 1 as [|x l Hx _ IH]; simpl; [done|].
  destruct (f x); [by rewrite IH|done].
Qed.

Lemma drop_while_all l k : Forall f l → drop_while (l ++ k) = drop_while k.
Proof.
  induction 1 as [|x l Hx _ IH]; simpl; [done|]. by destruct (f x).
Qed.

Lemma take_while_Forall l : Forall f (take_while l).
Proof.
  induction l as [|x l IH]; simpl; [constructor|].
  destruct (f x) eqn:E; constructor; [by rewrite E|done].
Qed.
End while.

(** ** Generic lemmas *)

Lemma mapOutcome_Return {A B} (f : A → outcome B) (g : A → B) l :
  (∀ x, x ∈ l → f x = Return (g x)) → mapOutcome f l = Return (g <$> l).
Proof.
  induction l as [|x l IH]; intros Hf; simpl; [done|].
  rewrite (Hf x) by set_solver; simpl.
  rewrite IH by (intros; apply Hf; set_solver). done.
Qed.

Lemma elem_of_mapOutcome {A B} (f : A → outcome B) l k y : mapOutcome f l = Return k → y ∈ k →
  ∃ x, x ∈ l ∧ f x = Return y.
Proof.
  revert k; induction l as [|x l IH]; intros k Hm Hy; simpl in Hm; [injection Hm as <-; by apply elem_of_nil in Hy|].
  destruct (f x) as [z|] eqn:Hx; [|done]. simpl in Hm. destruct (mapOutcome f l) as [ys|]; [|done]. injection Hm as <-.
  apply elem_of_cons in Hy as [->|Hy]; [exists x; split; [left|done]|].
  destruct (IH ys eq_refl Hy) as (x' & ? & ?). exists x'. split; [by right|done].
Qed.

Lemma foldOutcome_app {A S} (f : S → A → outcome S) s l1 l2 :
  foldOutcome f s (l1 ++ l2) = (s' ← foldOutcome f s l1; foldOutcome f s' l2).
Proof.
  revert s; induction l1 as [|x l1 IH]; intros s; simpl; [done|].
  destruct (f s x); simpl; [apply IH|done].
Qed.

(** Changing one element of a sum *)
Lemma sum_list_with_insert {A} (f : A → nat) (l : list A) i x y : l !! i = Some x →
  sum_list_with f (<[i := y]> l) + f x = sum_list_with f l + f y.
Proof.
  revert i. induction l as [|z l IH]; intros [|i] H; try done; simpl in *; [injection H as ->; lia|].
  specialize (IH i H). lia.
Qed.

(** A property kept by every step of a relation is kept along runs of it. *)
Lemma rtc_invariant {A} (R : relation A) (P : A → Prop) x y :
  (∀ x y, P x → R x y → P y) → P x → rtc R x y → P y.
Proof. intros HR HP Hxy; revert HP; induction Hxy; eauto. Qed.

(** The same with a second invariant available at each step. *)
Lemma rtc_invariant_with {A} (R : relation A) (Q P : A → Prop) x y :
  (∀ x y, Q x → R x y → Q y) →
  (∀ x y, Q x → P x → R x y → P y) → Q x → P x → rtc R x y → P y.
Proof. intros HQ HP Qx Px Hxy; revert Qx Px; induction Hxy; eauto. Qed.

Lemma elem_of_range {A} `{GoRange} (m : gmap bytes A) k v :
  (k, v) ∈ range m ↔ m !! k = Some v.
Proof. rewrite range_perm. apply elem_of_map_to_list. Qed.

Lemma NoDup_fst_range {A} `{GoRange} (m : gmap bytes A) : NoDup (range m).*1.
Proof. rewrite range_perm. apply NoDup_fst_map_to_list. Qed.

Lemma list_to_map_range {A} `{GoRange} (m : gmap bytes A) :
  list_to_map (range m) = m.
Proof.
  rewrite <- (list_to_map_to_list m) at 2.
  apply list_to_map_proper; [apply NoDup_fst_range|apply range_perm].
Qed.

Lemma reverse_inj {A} (l k : list A) : reverse l = reverse k → l = k.
Proof. intros H. by rewrite <- (reverse_involutive l), H, reverse_involutive. Qed.

Lemma length_rcons {A} (l : list A) x : length (l ++ [x]) = S (length l).
Proof. rewrite length_app; simpl; lia. Qed.

Create HintDb go.
Create Rewrite HintDb golen.
#[export] Hint Resolve NoDup_fst_range range_perm : go.
#[export] Hint Rewrite @length_rcons @length_app @length_reverse : golen.

(** Split the scrutinee of the first [match] or [if] found in the goal. *)
Ltac split_match :=
  match goal with
  | |- context [match ?x with _ => _ end] => destruct x eqn:?
  end.

(** Invert an equation between outcomes or options built by [mbind]. *)
Ltac bind_inv H :=
  match type of H with
  | mbind _ ?m = _ => destruct m eqn:?; simplify_eq/=
  end.

(** Decide a closed proposition by computation. *)
Ltac by_compute := vm_compute; done.
Ltac by_decide := apply (bool_decide_unpack _); by_compute.
