(* ===== verification/GoStrings.v ===== *)
(** The functions of Go's [strings], [strconv], [path/filepath] and [fmt]
    packages that the program calls, on byte strings.  White space is the ASCII
    white space of [unicode.IsSpace] (bytes 9 to 13 and the blank); the
    non-ASCII spaces of that function are outside the model. *)
From S2P Require Import Prelude.

Definition is_space (c : ascii) : bool := Ascii.is_space c.

(** ** package strings *)

(** [strings.HasPrefix] *)
Fixpoint HasPrefix (s p : bytes) {struct p} : bool :=
  match p, s with
  | [], _ => true
  | c :: p, d :: s => bool_decide (c = d) && HasPrefix s p
  | _ :: _, [] => false
  end.

(** [strings.HasSuffix] *)
Definition HasSuffix (s p : bytes) : bool :=
  bool_decide (length p ≤ length s) && bool_decide (drop (length s - length p) s = p).

(** [strings.Index]; [None] is the Go result -1. *)
Fixpoint Index (s sub : bytes) : option nat :=
  if HasPrefix s sub then Some 0
  else match s with
       | [] => None
       | _ :: s => S <$> Index s sub
       end.

(** [strings.Contains] *)
Definition Contains (s sub : bytes) : bool := bool_decide (is_Some (Index s sub)).

(** [strings.ContainsAny] *)
Definition ContainsAny (s chars : bytes) : bool :=
  existsb (λ c, bool_decide (c ∈ chars)) s.

(** [strings.Split] at a separator of one character: never empty. *)
Fixpoint Split (s : bytes) (c : ascii) : list bytes :=
  match s with
  | [] => [[]]
  | d :: s =>
      if decide (d = c) then [] :: Split s c
      else match Split s c with
           | [] => [[d]]
           | w :: ws => (d :: w) :: ws
           end
  end.

(** [strings.Join] *)
Fixpoint Join (l : list bytes) (sep : bytes) : bytes :=
  match l with
  | [] => []
  | [w] => w
  | w :: l => w ++ sep ++ Join l sep
  end.

(** [strings.TrimPrefix] and [strings.TrimSuffix] *)
Definition TrimPrefix (s p : bytes) : bytes :=
  if HasPrefix s p then drop (length p) s else s.

Definition TrimSuffix (s p : bytes) : bytes :=
  if HasSuffix s p then take (length s - length p) s else s.

(** [strings.Fields]: [cur] is the field being read, reversed. *)
Fixpoint fields_from (cur s : bytes) : list bytes :=
  match s with
  | [] => if decide (cur = []) then [] else [reverse cur]
  | c :: s =>
      if is_space c
      then (if decide (cur = []) then [] else [reverse cur]) ++ fields_from [] s
      else fields_from (c :: cur) s
  end.

Definition Fields (s : bytes) : list bytes := fields_from [] s.

(** [bytes.Buffer.ReadString('\n')] until it fails: the complete lines (without
    their newline); what follows the last newline is dropped by the caller. *)
Fixpoint lines_from (cur s : bytes) : list bytes :=
  match s with
  | [] => []
  | c :: s => if decide (c = "010"%char) then reverse cur :: lines_from [] s
              else lines_from (c :: cur) s
  end.

Definition complete_lines (s : bytes) : list bytes := lines_from [] s.

(** ** package path/filepath *)

(** [filepath.Base] *)
Definition Base (path : bytes) : bytes :=
  if decide (path = []) then str "."
  else
    let trimmed := drop_while (λ c, bool_decide (c = "/"%char)) (reverse path) in
    match trimmed with
    | [] => str "/"
    | _ => reverse (take_while (λ c, bool_decide (c ≠ "/"%char)) trimmed)
    end.

(** ** package fmt *)

(** One operand of [fmt.Fscanln] stored in a string: skip blanks (a newline is
    an error, as is the end of the input), then take the word. *)
Fixpoint scan_word (s : bytes) : option (bytes * bytes) :=
  match s with
  | [] => None
  | c :: s' =>
      if decide (c = "010"%char) then None
      else if is_space c then scan_word s'
      else Some (take_while (λ c, negb (is_space c)) s, drop_while (λ c, negb (is_space c)) s)
  end.

(** The check [Fscanln] makes after the last operand: blanks up to a newline or
    the end of the input. *)
Fixpoint scan_newline (s : bytes) : option bytes :=
  match s with
  | [] => Some []
  | c :: s => if decide (c = "010"%char) then Some s
              else if is_space c then scan_newline s else None
  end.

(** [fmt.Fscanln] into [n] strings: the words and the rest of the input. *)
Fixpoint scan_words (n : nat) (s : bytes) : option (list bytes * bytes) :=
  match n with
  | 0 => rest ← scan_newline s; Some ([], rest)
  | S n => '(w, s) ← scan_word s; '(ws, rest) ← scan_words n s; Some (w :: ws, rest)
  end.

Definition Fscanln (n : nat) (s : bytes) : option (list bytes * bytes) := scan_words n s.

(** ** package net *)

(** The position of the last ':' of an address, as what precedes and follows it *)
Definition split_last_colon (s : bytes) : option (bytes * bytes) :=
  match drop_while (λ c, bool_decide (c ≠ ":"%char)) (reverse s) with
  | [] => None
  | _ :: h => Some (reverse h, reverse (take_while (λ c, bool_decide (c ≠ ":"%char)) (reverse s)))
  end.

(** [net.SplitHostPort]; [None] is the error result. *)
Definition SplitHostPort (hostport : bytes) : option (bytes * bytes) :=
  '(host, port) ← split_last_colon hostport;
  if bool_decide (head host = Some "["%char) then
    let inside := take_while (λ c, bool_decide (c ≠ "]"%char)) (tail host) in
    if bool_decide (host = "["%char :: inside ++ str "]")
       && negb (bool_decide ("["%char ∈ inside ++ port)) && negb (bool_decide ("]"%char ∈ port))
    then Some (inside, port) else None
  else if bool_decide (":"%char ∈ host) || bool_decide ("["%char ∈ host ++ port)
          || bool_decide ("]"%char ∈ host ++ port) then None
  else Some (host, port).

(** [host, _, _ := net.SplitHostPort(addr)]: the empty string on an error *)
Definition host_of (addr : bytes) : bytes := default [] (fst <$> SplitHostPort addr).

(** ** package strconv *)

(** [fmt]'s %d on an unsigned 32-bit number *)
Definition digit_char (d : N) : ascii := ascii_of_N (48 + d).

Fixpoint utoa_from (fuel : nat) (n : N) : bytes :=
  match fuel with
  | 0 => []
  | S fuel => if (n <? 10)%N then [digit_char n]
              else utoa_from fuel (n / 10) ++ [digit_char (n mod 10)]
  end.

Definition utoa (n : N) : bytes := utoa_from 33 n.

Definition digit (c : ascii) : option N :=
  let n := N_of_ascii c in
  if ((48 <=? n) && (n <=? 57))%N then Some (n - 48)%N else None.

(** [strconv.ParseUint(s, 10, 32)]; [None] is the error result. *)
Fixpoint parse_digits (acc : N) (s : bytes) : option N :=
  match s with
  | [] => Some acc
  | c :: s =>
      d ← digit c;
      let n := (acc * 10 + d)%N in
      if (n <? 2 ^ 32)%N then parse_digits n s else None
  end.

Definition ParseUint32 (s : bytes) : option N :=
  if decide (s = []) then None else parse_digits 0 s.

(** ** Lemmas *)

Lemma HasPrefix_spec s p : HasPrefix s p ↔ ∃ k, s = p ++ k.
Proof.
  revert s; induction p as [|c p IH]; intros s; simpl.
  - split; [intros _; by exists s|done].
  - destruct s as [|d s]; [split; [by intros []|by intros [? [=]]]|].
    rewrite andb_True, IH, bool_decide_spec. split.
    + intros [-> [k ->]]; by exists k.
    + intros [k [= -> ->]]; eauto.
Qed.

Lemma HasPrefix_app p k : HasPrefix (p ++ k) p = true.
Proof. apply Is_true_true, HasPrefix_spec. eauto. Qed.

Lemma HasPrefix_false s p : HasPrefix s p = false ↔ ¬ ∃ k, s = p ++ k.
Proof. rewrite <- HasPrefix_spec, Is_true_false. done. Qed.

Lemma HasSuffix_spec s p : HasSuffix s p ↔ ∃ k, s = k ++ p.
Proof.
  unfold HasSuffix. rewrite andb_True, !bool_decide_spec. split.
  - intros [Hl Hd]. exists (take (length s - length p) s).
    rewrite <- Hd at 2. by rewrite take_drop.
  - intros [k ->]. rewrite length_app. split; [lia|].
    replace (length k + length p - length p) with (length k) by lia.
    by rewrite drop_app_length.
Qed.

Lemma HasSuffix_app k p : HasSuffix (k ++ p) p = true.
Proof. apply Is_true_true, HasSuffix_spec. eauto. Qed.

Lemma TrimPrefix_app p k : TrimPrefix (p ++ k) p = k.
Proof. unfold TrimPrefix. by rewrite HasPrefix_app, drop_app_length. Qed.

Lemma TrimSuffix_app k p : TrimSuffix (k ++ p) p = k.
Proof.
  unfold TrimSuffix. rewrite HasSuffix_app, length_app.
  replace (length k + length p - length p) with (length k) by lia.
  by rewrite take_app_length.
Qed.

(** [Index] finds the leftmost occurrence. *)
Lemma Index_Some s sub i :
  Index s sub = Some i → ∃ k, s = take i s ++ sub ++ k ∧ i ≤ length s.
Proof.
  revert i; induction s as [|c s IH]; intros i; simpl.
  - destruct (HasPrefix [] sub) eqn:E; [|done]. intros [= <-].
    apply Is_true_true, HasPrefix_spec in E as [k Hk]. exists k; simpl; auto with lia.
  - destruct (HasPrefix (c :: s) sub) eqn:E.
    + intros [= <-]. apply Is_true_true, HasPrefix_spec in E as [k Hk].
      exists k; simpl; auto with lia.
    + intros (j & Hj & ->)%fmap_Some. destruct (IH _ Hj) as (k & Hk & ?).
      exists k; simpl; split; [by f_equal|lia].
Qed.

Lemma Index_leftmost x sub k :
  ∃ i, Index (x ++ sub ++ k) sub = Some i ∧ i ≤ length x.
Proof.
  induction x as [|c x IH]; simpl.
  - exists 0. destruct (sub ++ k) eqn:E; simpl; rewrite <- E, HasPrefix_app; auto.
  - destruct (HasPrefix _ _); [exists 0; auto with lia|].
    destruct IH as (i & -> & ?). exists (S i); simpl; auto with lia.
Qed.

Lemma Index_None s sub : Index s sub = None ↔ ¬ ∃ x k, s = x ++ sub ++ k.
Proof.
  split.
  - intros H (x & k & ->). destruct (Index_leftmost x sub k) as (i & Hi & _). congruence.
  - intros H. destruct (Index s sub) eqn:E; [|done]. exfalso; apply H.
    apply Index_Some in E as (k & ? & _). eauto.
Qed.

Lemma Contains_spec s sub : Contains s sub ↔ ∃ x k, s = x ++ sub ++ k.
Proof.
  unfold Contains. rewrite bool_decide_spec. split.
  - intros [i Hi]. apply Index_Some in Hi as (k & ? & _). eauto.
  - intros (x & k & ->). destruct (Index_leftmost x sub k) as (i & -> & _). eauto.
Qed.

Lemma Contains_char s c : Contains s [c] ↔ c ∈ s.
Proof.
  rewrite Contains_spec. split.
  - intros (x & k & ->). set_solver.
  - intros (x & k & ->)%list_elem_of_split. by exists x, k.
Qed.

Lemma ContainsAny_false s chars :
  ContainsAny s chars = false ↔ ∀ c, c ∈ chars → c ∉ s.
Proof.
  unfold ContainsAny. induction s as [|d s IH]; simpl; [set_solver|].
  rewrite orb_false_iff, IH, bool_decide_eq_false. set_solver.
Qed.

Lemma Split_not_nil s c : Split s c ≠ [].
Proof. induction s; simpl; repeat case_match; done. Qed.

Lemma Split_fresh s c : c ∉ s → Split s c = [s].
Proof.
  induction s as [|d s IH]; intros Hc; simpl; [done|].
  rewrite decide_False by set_solver. rewrite IH by set_solver. done.
Qed.

Lemma Split_app s c k : c ∉ s → Split (s ++ c :: k) c = s :: Split k c.
Proof.
  induction s as [|d s IH]; intros Hc; simpl.
  - by rewrite decide_True.
  - rewrite decide_False by set_solver. rewrite IH by set_solver. done.
Qed.

Lemma Split_Join s c : Join (Split s c) [c] = s.
Proof.
  induction s as [|d s IH]; simpl; [done|].
  pose proof (Split_not_nil s c). case_decide; subst.
  - destruct (Split s c) eqn:E; [done|]. simpl in *. by rewrite IH.
  - destruct (Split s c) as [|w [|w' ws]] eqn:E; simpl in *; congruence.
Qed.

Lemma Split_parts s c : Forall (λ w, c ∉ w) (Split s c).
Proof.
  induction s as [|d s IH]; simpl; [constructor; [set_solver|done]|].
  case_decide; subst; [constructor; [set_solver|done]|].
  destruct (Split s c) as [|w ws]; inversion IH; subst; constructor; set_solver.
Qed.

Lemma Split_app_length s c k :
  length (Split (s ++ c :: k) c) = length (Split s c) + length (Split k c).
Proof.
  induction s as [|d s IH]; simpl; [by rewrite decide_True|].
  pose proof (Split_not_nil s c). pose proof (Split_not_nil (s ++ c :: k) c).
  case_decide; simpl; [by rewrite IH|].
  destruct (Split (s ++ c :: k) c), (Split s c); done.
Qed.

Lemma Split_one s c w : Split s c = [w] → s = w ∧ c ∉ s.
Proof.
  intros H. pose proof (Split_Join s c) as Hj. pose proof (Split_parts s c) as Hp.
  rewrite H in Hj, Hp; simpl in Hj. subst. by inversion Hp.
Qed.

(** [Base] of a path whose last component is not empty. *)
Lemma Base_app dir name :
  name ≠ [] → "/"%char ∉ name → Base (dir ++ "/"%char :: name) = name.
Proof.
  intros Hn Hs. unfold Base. rewrite decide_False by (destruct dir; done).
  rewrite reverse_app, reverse_cons, <- app_assoc; simpl.
  assert (∃ c r, reverse name = c :: r ∧ c ≠ "/"%char) as (c & r & Hr & Hc).
  { destruct (reverse name) as [|c r] eqn:E.
    - destruct Hn. apply reverse_inj. by rewrite E.
    - exists c, r; split; [done|]. intros ->. apply Hs, elem_of_reverse. rewrite E; set_solver. }
  rewrite Hr; simpl. rewrite bool_decide_eq_false_2 by done.
  change (c :: r ++ "/"%char :: reverse dir) with ((c :: r) ++ "/"%char :: reverse dir).
  rewrite <- Hr, take_while_all.
  - simpl. by rewrite app_nil_r, reverse_involutive.
  - apply Forall_forall. intros d Hd. rewrite elem_of_reverse in Hd.
    apply bool_decide_spec. set_solver.
Qed.

Lemma Base_name name : name ≠ [] → "/"%char ∉ name → Base name = name.
Proof.
  intros Hn Hs. unfold Base. rewrite decide_False by done.
  destruct (reverse name) as [|c r] eqn:E; simpl.
  { destruct Hn. apply reverse_inj. by rewrite E. }
  assert (Forall (λ c : ascii, bool_decide (c ≠ "/"%char)) (c :: r)) as Hall.
  { rewrite <- E. apply Forall_forall. intros d Hd. rewrite elem_of_reverse in Hd.
    apply bool_decide_spec. set_solver. }
  rewrite bool_decide_eq_false_2.
  2:{ apply Forall_inv in Hall. by apply bool_decide_spec in Hall. }
  rewrite <- (app_nil_r (c :: r)), take_while_all by done; simpl.
  by rewrite app_nil_r, <- E, reverse_involutive.
Qed.

(** *** Words without blanks go through [Fscanln] *)

Definition word (w : bytes) : Prop := w ≠ [] ∧ Forall (λ c, negb (is_space c)) w.

#[export] Instance word_dec w : Decision (word w) := _.

Lemma scan_word_blank w s : word w → scan_word (" "%char :: w ++ s) = scan_word (w ++ s).
Proof. done. Qed.

Lemma scan_word_app w s :
  word w → (∀ c s', s = c :: s' → is_space c) → scan_word (w ++ s) = Some (w, s).
Proof.
  intros [Hn Hw] Hs. destruct w as [|c w]; [done|]. inversion Hw; subst; simpl.
  rewrite decide_False by (intros ->; done).
  destruct (is_space c) eqn:E; [done|]; simpl.
  rewrite take_while_all, drop_while_all by done.
  destruct s as [|d s]; simpl; [by rewrite app_nil_r|].
  specialize (Hs d s eq_refl). destruct (is_space d); [|done]; simpl. by rewrite app_nil_r.
Qed.

Lemma scan_word_shorter s w r : scan_word s = Some (w, r) → length r < length s ∧ w ≠ [].
Proof.
  induction s as [|c s IH]; simpl; [done|].
  case_decide; [done|]. destruct (is_space c) eqn:Ec.
  { intros [? ?]%IH. split; [lia|done]. }
  intros [= <- <-]; simpl. split; [|done].
  pose proof (take_drop_while (λ c, negb (is_space c)) s) as H'.
  apply (f_equal length) in H'. rewrite length_app in H'. lia.
Qed.

Lemma scan_newline_length s r : scan_newline s = Some r → length r ≤ length s.
Proof.
  induction s as [|c s IH]; simpl; [by intros [= <-]|].
  case_decide; [intros [= <-]; lia|]. destruct (is_space c); [|done]. intros ?%IH. lia.
Qed.

Lemma Fscanln_shorter n s ws r :
  Fscanln (S n) s = Some (ws, r) → length r < length s.
Proof.
  assert (∀ n s ws r, scan_words n s = Some (ws, r) → length r ≤ length s) as Hle.
  { clear. induction n as [|n IH]; intros s ws r; simpl.
    - intros (r' & Hr & [= <- <-])%bind_Some. by apply scan_newline_length.
    - intros ([w s'] & Hw%scan_word_shorter & ([ws' r'] & Hr%IH & [= <- <-])%bind_Some)%bind_Some.
      lia. }
  unfold Fscanln; simpl.
  intros ([w s'] & Hw%scan_word_shorter & ([ws' r'] & Hr%Hle & [= <- <-])%bind_Some)%bind_Some.
  lia.
Qed.

(** *** Addresses *)

Lemma split_last_colon_app host port :
  ":"%char ∉ port → split_last_colon (host ++ ":"%char :: port) = Some (host, port).
Proof.
  intros Hp. unfold split_last_colon.
  assert (Forall (λ c : ascii, bool_decide (c ≠ ":"%char)) (reverse port)) as Hall.
  { apply Forall_forall. intros c Hc. rewrite elem_of_reverse in Hc.
    apply bool_decide_spec. intros ->. done. }
  rewrite reverse_app, reverse_cons, <- app_assoc, drop_while_all, take_while_all by done.
  simpl. by rewrite app_nil_r, !reverse_involutive.
Qed.

(** An IPv4 address or a host name: no colon and no bracket. *)
Definition plain_host (h : bytes) : Prop :=
  ":"%char ∉ h ∧ "["%char ∉ h ∧ "]"%char ∉ h.

Lemma SplitHostPort_plain host port :
  plain_host host → plain_host port → SplitHostPort (host ++ ":"%char :: port) = Some (host, port).
Proof.
  intros (Hh1 & Hh2 & Hh3) (Hp1 & Hp2 & Hp3). unfold SplitHostPort.
  rewrite split_last_colon_app by done. simpl.
  rewrite bool_decide_eq_false_2 by (destruct host; set_solver).
  rewrite !bool_decide_eq_false_2 by set_solver. done.
Qed.

Lemma host_of_plain host port :
  plain_host host → plain_host port → host_of (host ++ ":"%char :: port) = host.
Proof. intros. unfold host_of. by rewrite SplitHostPort_plain. Qed.

(** A host with a colon must be bracketed. *)
Lemma SplitHostPort_colon host port :
  ":"%char ∈ host → head host ≠ Some "["%char → ":"%char ∉ port →
  SplitHostPort (host ++ ":"%char :: port) = None.
Proof.
  intros Hh Hb Hp. unfold SplitHostPort. rewrite split_last_colon_app by done. simpl.
  rewrite bool_decide_eq_false_2 by done. by rewrite bool_decide_eq_true_2.
Qed.

(** *** Decimal numbers *)

Lemma digit_char_digit d : (d < 10)%N → digit (digit_char d) = Some d.
Proof.
  intros Hd. unfold digit, digit_char.
  rewrite N_ascii_embedding by lia. cbv zeta.
  rewrite (proj2 (N.leb_le _ _)), (proj2 (N.leb_le _ _)) by lia. simpl. f_equal; lia.
Qed.

Lemma parse_digits_app s1 s2 acc :
  parse_digits acc (s1 ++ s2) = (n ← parse_digits acc s1; parse_digits n s2).
Proof.
  revert acc; induction s1 as [|c s1 IH]; intros acc; simpl; [done|].
  destruct (digit c); simpl; [|done]. case_match; [apply IH|done].
Qed.

Lemma parse_utoa_from fuel n :
  (n < 2 ^ N.of_nat fuel)%N → (n < 2 ^ 32)%N →
  parse_digits 0 (utoa_from (S fuel) n) = Some n ∧
  Forall (λ c, is_Some (digit c)) (utoa_from (S fuel) n) ∧ utoa_from (S fuel) n ≠ [].
Proof.
  revert n; induction fuel as [|fuel IH]; intros n Hf Hn.
  - simpl in Hf. assert (n = 0%N) as -> by lia. split_and!; [done|by repeat constructor|done].
  - change (utoa_from (S (S fuel)) n) with
      (if (n <? 10)%N then [digit_char n]
       else utoa_from (S fuel) (n / 10) ++ [digit_char (n mod 10)]).
    destruct (N.ltb_spec n 10).
    + simpl. rewrite digit_char_digit by done; simpl.
      rewrite (proj2 (N.ltb_lt n _)) by lia.
      split_and!; [done|constructor; [by rewrite digit_char_digit|done]|done].
    + pose proof (N.mod_lt n 10 ltac:(done)) as Hm.
      assert (2 ^ N.of_nat (S fuel) = 2 * 2 ^ N.of_nat fuel)%N as Hp.
      { rewrite Nat2N.inj_succ. apply N.pow_succ_r'. }
      destruct (IH (n / 10)%N) as (Hd & Ha & _).
      { apply N.Div0.div_lt_upper_bound. lia. }
      { apply N.Div0.div_lt_upper_bound. lia. }
      rewrite parse_digits_app, Hd; simpl. rewrite digit_char_digit by done; simpl.
      rewrite (N.mul_comm (n / 10)), <- (N.div_mod n 10) by done.
      rewrite (proj2 (N.ltb_lt n _)) by lia. split_and!; [done| |by intros [_ ?]%app_eq_nil].
      apply Forall_app; split; [done|]. constructor; [|done]. by rewrite digit_char_digit.
Qed.

(** Printing an unsigned 32-bit number and parsing it back. *)
Lemma ParseUint32_utoa n : (n < 2 ^ 32)%N → ParseUint32 (utoa n) = Some n.
Proof.
  intros Hn. unfold ParseUint32, utoa.
  destruct (parse_utoa_from 32 n) as (-> & _ & ?); [done..|]. by rewrite decide_False.
Qed.

Lemma utoa_digits n : (n < 2 ^ 32)%N → Forall (λ c, is_Some (digit c)) (utoa n).
Proof. intros Hn. by destruct (parse_utoa_from 32 n) as (_ & ? & _). Qed.
