(* ===== verification/Wildcard.v ===== *)
(** Name patterns: [WildcardMatch] (adaptiveservice.go) and [matchProvider]
    (registry.go), with the declarative meaning of a pattern and the proof that
    the greedy matcher decides it. *)
From S2P Require Import Prelude GoStrings.

Definition star : ascii := "*".

(** The loop over the middle segments of the pattern. *)
Fixpoint match_middle (parts : list bytes) (s : bytes) : bool :=
  match parts with
  | [] => true
  | part :: parts =>
      if decide (part = []) then match_middle parts s
      else match Index s part with
           | None => false
           | Some index => match_middle parts (drop (index + length part) s)
           end
  end.

(** [WildcardMatch(pattern, str string) bool] *)
Definition WildcardMatch (pattern s : bytes) : bool :=
  if decide (pattern = str "*") then true
  else if decide (pattern = []) then bool_decide (s = [])
  else
    let parts := Split pattern star in
    if decide (length parts = 1) then bool_decide (pattern = s)
    else
      let begin := default [] (head parts) in
      if negb (bool_decide (begin = [])) && negb (HasPrefix s begin) then false
      else
        let s := drop (length begin) s in
        let stop := default [] (last parts) in
        if negb (bool_decide (stop = [])) && negb (HasSuffix s stop) then false
        else
          let s := take (length s - length stop) s in
          match_middle (removelast (tail parts)) s.

(** [matchProvider(providerIDs []string, target string) bool] *)
Definition matchProvider (providerIDs : list bytes) (target : bytes) : bool :=
  if decide (length providerIDs = 0) then true
  else existsb (λ pid, WildcardMatch pid target) providerIDs.

(** ** The meaning of a pattern: a star stands for any string *)

Inductive glob : bytes → bytes → Prop :=
| glob_nil : glob [] []
| glob_char c p s : c ≠ star → glob p s → glob (c :: p) (c :: s)
| glob_star x p s : glob p s → glob (star :: p) (x ++ s).

(** ** Segments: a pattern is its first segment, then stars and segments *)

(** [segs l s]: [s] is made of the segments [l] in order, the last one at the
    end, with arbitrary strings before each of them. *)
Fixpoint segs (l : list bytes) (s : bytes) : Prop :=
  match l with
  | [] => s = []
  | [w] => ∃ x, s = x ++ w
  | w :: l => ∃ x s', s = x ++ w ++ s' ∧ segs l s'
  end.

(** [inner l s]: the segments [l] occur in [s] in order, without overlap. *)
Fixpoint inner (l : list bytes) (s : bytes) : Prop :=
  match l with
  | [] => True
  | w :: l => ∃ x s', s = x ++ w ++ s' ∧ inner l s'
  end.

Lemma inner_prefix l x s : inner l s → inner l (x ++ s).
Proof.
  destruct l as [|w l]; simpl; [done|].
  intros (y & s' & -> & Hl). exists (x ++ y), s'. by rewrite app_assoc.
Qed.

(** Taking the leftmost occurrence leaves the most room for the rest. *)
Lemma match_middle_spec l s : match_middle l s ↔ inner l s.
Proof.
  revert s; induction l as [|w l IH]; intros s; simpl; [done|].
  case_decide as Hw; subst.
  - rewrite IH. split; [by exists [], s|]. intros (x & s' & -> & Hl). by apply inner_prefix.
  - destruct (Index s w) as [i|] eqn:Hi; rewrite ?IH.
    + split.
      * intros Hl. destruct (Index_Some _ _ _ Hi) as (k & Hk & _).
        exists (take i s), (drop (i + length w) s). split; [|done].
        rewrite <- drop_drop. rewrite <- (take_drop i s) at 1. f_equal.
        rewrite <- (take_drop i s) in Hk at 1. apply app_inv_head in Hk.
        by rewrite Hk, drop_app_length.
      * intros (x & s' & -> & Hl). destruct (Index_leftmost x w s') as (j & Hj & ?).
        rewrite Hi in Hj. injection Hj as <-.
        assert (drop (i + length w) (x ++ w ++ s') =
                drop (i + length w) (x ++ w) ++ s') as ->.
        { rewrite (app_assoc x w s'), drop_app_le; [done|rewrite length_app; lia]. }
        by apply inner_prefix.
    + split; [done|]. intros (x & s' & Hs & _). apply Index_None in Hi. naive_solver.
Qed.

Lemma segs_inner l w s : segs (l ++ [w]) s ↔ ∃ t, s = t ++ w ∧ inner l t.
Proof.
  revert s; induction l as [|v l IH]; intros s; simpl; [naive_solver|].
  transitivity (∃ x s', s = x ++ v ++ s' ∧ segs (l ++ [w]) s').
  { by destruct (l ++ [w]) eqn:E; [apply app_eq_nil in E as [_ ?]|]. }
  setoid_rewrite IH. split.
  - intros (x & s' & -> & t & -> & Ht). exists (x ++ v ++ t). rewrite <- !app_assoc. eauto.
  - intros (t & -> & x & s' & -> & Hs'). exists x, (s' ++ w). rewrite <- !app_assoc. eauto.
Qed.

(** The strings described by a non-empty list of segments. *)
Definition shape (ws : list bytes) (s : bytes) : Prop :=
  match ws with
  | [] => False
  | [w] => s = w
  | w :: l => ∃ s', s = w ++ s' ∧ segs l s'
  end.

Lemma shape_star ws s : ws ≠ [] → shape ([] :: ws) s ↔ ∃ x t, s = x ++ t ∧ shape ws t.
Proof.
  intros Hws. destruct ws as [|w [|w' ws]]; [done| |]; simpl; split.
  - intros (s' & -> & x & ->); eauto.
  - intros (x & t & -> & ->); eauto.
  - intros (s' & -> & x & t & -> & Ht). eauto 10.
  - intros (x & t & -> & t' & -> & Ht). eauto 10.
Qed.

Lemma shape_char c w ws s : shape ((c :: w) :: ws) s ↔ ∃ t, s = c :: t ∧ shape (w :: ws) t.
Proof. destruct ws; simpl; naive_solver. Qed.

(** A pattern describes the strings of the shape of its segments. *)
Lemma glob_Split p s : glob p s ↔ shape (Split p star) s.
Proof.
  revert s; induction p as [|c p IH]; intros s; simpl.
  - split; [by inversion 1|intros ->; constructor].
  - pose proof (Split_not_nil p star) as Hn. case_decide; subst.
    + rewrite shape_star by done. setoid_rewrite <- IH. split.
      * inversion 1; subst; [done|eauto].
      * intros (x & t & -> & ?). by constructor.
    + destruct (Split p star) as [|w ws]; [done|].
      rewrite shape_char. setoid_rewrite <- IH. split.
      * inversion 1; subst; [eauto|done].
      * intros (t & -> & ?). by constructor.
Qed.

Lemma drop_prefix_test w s :
  negb (bool_decide (w = [])) && negb (HasPrefix s w) = false ↔ s = w ++ drop (length w) s.
Proof.
  rewrite andb_false_iff, !negb_false_iff, bool_decide_eq_true. split.
  - intros [->|Hp]; [done|]. apply Is_true_true, HasPrefix_spec in Hp as [k ->].
    by rewrite drop_app_length.
  - intros Hs. right. apply Is_true_true, HasPrefix_spec. eauto.
Qed.

Lemma take_suffix_test w s :
  negb (bool_decide (w = [])) && negb (HasSuffix s w) = false ↔
  s = take (length s - length w) s ++ w.
Proof.
  rewrite andb_false_iff, !negb_false_iff, bool_decide_eq_true. split.
  - intros [->|Hp]; [by rewrite Nat.sub_0_r, app_nil_r, firstn_all|].
    apply Is_true_true, HasSuffix_spec in Hp as [k ->].
    rewrite length_app. replace (_ + _ - _) with (length k) by lia. by rewrite take_app_length.
  - intros Hs. right. apply Is_true_true, HasSuffix_spec. eauto.
Qed.

Lemma bool_iff (b : bool) (P : Prop) : (b = true ↔ P) → (b ↔ P).
Proof. by rewrite Is_true_true. Qed.

(** The body of the matcher on a pattern with at least one star. *)
Lemma match_parts_spec w mids stop s :
  Is_true
   (if negb (bool_decide (w = [])) && negb (HasPrefix s w) then false
   else if negb (bool_decide (stop = [])) && negb (HasSuffix (drop (length w) s) stop) then false
   else match_middle mids
          (take (length (drop (length w) s) - length stop) (drop (length w) s)))
  ↔ ∃ s', s = w ++ s' ∧ segs (mids ++ [stop]) s'.
Proof.
  destruct (negb (bool_decide (w = [])) && _) eqn:Hp.
  { split; [done|]. intros (s' & -> & _). apply not_false_iff_true in Hp.
    destruct Hp. apply drop_prefix_test. by rewrite drop_app_length. }
  apply drop_prefix_test in Hp. remember (drop (length w) s) as s1 eqn:E1; clear E1; subst s.
  transitivity (segs (mids ++ [stop]) s1).
  2:{ split; [eauto|]. by intros (s' & ->%app_inv_head & ?). }
  rewrite segs_inner. destruct (negb (bool_decide (stop = [])) && _) eqn:Hs.
  { split; [done|]. intros (t & -> & _). apply not_false_iff_true in Hs.
    destruct Hs. apply take_suffix_test. rewrite length_app.
    replace (_ + _ - _) with (length t) by lia. by rewrite take_app_length. }
  apply take_suffix_test in Hs. remember (take _ s1) as t eqn:E1; clear E1; subst s1.
  rewrite match_middle_spec. split; [eauto|].
  by intros (t' & ->%app_inv_tail & ?).
Qed.

Lemma WildcardMatch_glob p s : WildcardMatch p s ↔ glob p s.
Proof.
  rewrite glob_Split. unfold WildcardMatch. case_decide as Hstar; subst.
  { split; [intros _|done]. exists s; split; [done|]. exists s. by rewrite app_nil_r. }
  case_decide as Hnil; subst; simpl.
  { by rewrite bool_decide_spec. }
  destruct (Split p star) as [|w ws] eqn:Hp; [by destruct (Split_not_nil p star)|].
  case_decide as Hlen.
  - destruct ws; [|done]. apply Split_one in Hp as [-> _]. simpl. rewrite bool_decide_spec. naive_solver.
  - destruct (exists_last (l := ws)) as (mids & stop & ->); [by destruct ws|].
    simpl. rewrite app_comm_cons, last_snoc, removelast_last. simpl.
    rewrite match_parts_spec. by destruct (mids ++ [stop]) eqn:E; [apply app_eq_nil in E as [_ ?]|].
Qed.

Lemma matchProvider_spec ids target :
  matchProvider ids target ↔ ids = [] ∨ ∃ pid, pid ∈ ids ∧ glob pid target.
Proof.
  unfold matchProvider. case_decide as Hl.
  { apply nil_length_inv in Hl. naive_solver. }
  rewrite existb_True, Exists_exists. setoid_rewrite WildcardMatch_glob.
  split; [naive_solver|]. intros [->|?]; [done|naive_solver].
Qed.

(** A pattern without a star matches itself only. *)
Lemma WildcardMatch_plain p s : star ∉ p → WildcardMatch p s ↔ s = p.
Proof. intros Hp. rewrite WildcardMatch_glob, glob_Split, Split_fresh by done. done. Qed.

(** ** Properties *)

(** C25. [WildcardMatch] decides the meaning of patterns, in which a star stands
    for any string, the empty one included, and every other character for
    itself; and [matchProvider] selects a provider exactly when no provider is
    asked for or one of the patterns asked for matches it. *)
Theorem patterns_decided :
  (∀ p s, WildcardMatch p s = true ↔ glob p s) ∧
  (∀ ids target, matchProvider ids target = true ↔ ids = [] ∨ ∃ pid, pid ∈ ids ∧ glob pid target).
Proof.
  split; intros; rewrite <- Is_true_true; [apply WildcardMatch_glob|apply matchProvider_spec].
Qed.

Example pattern_inside : WildcardMatch (str "foo*abc*") (str "foobarabc123") = true.
Proof. reflexivity. Qed.

Example pattern_overlap : WildcardMatch (str "ab*ba") (str "aba") = false.
Proof. reflexivity. Qed.
