(* ===== verification/Names.v ===== *)
(** The vocabulary shared by every component: scopes, error values, service
    records, and the names and socket addresses of services (adaptiveservice.go,
    registry.go, server.go). *)
From S2P Require Import Prelude GoStrings Wildcard.

(** ** Scopes (adaptiveservice.go): a [uint16] used as a set of flags *)

Definition Scope := Z.
Definition ScopeProcess : Scope := 1%Z.
Definition ScopeOS : Scope := 2%Z.
Definition ScopeLAN : Scope := 4%Z.
Definition ScopeWAN : Scope := 8%Z.
Definition ScopeNetwork : Scope := Z.lor ScopeLAN ScopeWAN.
Definition ScopeAll : Scope :=
  Z.lor (Z.lor (Z.lor ScopeProcess ScopeOS) ScopeLAN) ScopeWAN.

(** [scope&flag == flag] *)
Definition has_scope (scope flag : Scope) : bool := bool_decide (Z.land scope flag = flag).

(** [scope &= ^flag] on 16 bits *)
Definition clear_scope (scope flag : Scope) : Scope :=
  Z.land scope (Z.lxor flag (2 ^ 16 - 1)%Z).

(** ** Errors *)

Inductive error : Type :=
| ErrServiceNotReachable
| ErrConnReset
| ErrServerClosed
| ErrRecvTimeout
| ErrMsgTooLarge
| ErrServiceNotFound (publisher service : bytes)
| EOF
| errorString (text : bytes).

#[export] Instance error_eq_dec : EqDecision error.
Proof. solve_decision. Defined.

(** ** Services *)

Definition BuiltinPublisher : bytes := str "builtin".
Definition asTmpDir : bytes := str "/tmp/adaptiveservice".

Record ServiceInfo := mkServiceInfo {
  Publisher : bytes;
  Service : bytes;
  ProviderID : bytes;
  Addr : bytes;
}.

#[export] Instance ServiceInfo_eq_dec : EqDecision ServiceInfo.
Proof. solve_decision. Defined.

Definition underscore : ascii := "_".

(** [toPublisherServiceName] *)
Definition toPublisherServiceName (publisherName serviceName : bytes) : bytes :=
  publisherName ++ [underscore] ++ serviceName.

(** [fromPublisherServiceName]: panics unless there is exactly one underscore *)
Definition fromPublisherServiceName (name : bytes) : outcome (bytes * bytes) :=
  match Split name underscore with
  | [p; s] => Return (p, s)
  | _ => Panics (str "Bad PublisherServiceName")
  end.

(** The characters of "_/ \n\r\t" *)
Definition refused_chars : bytes :=
  ["_"%char; "/"%char; " "%char; "010"%char; "013"%char; "009"%char].

(** [checkNameConvention]; [None] is the nil error. *)
Definition checkNameConvention (name : bytes) : option error :=
  if ContainsAny name refused_chars
  then Some (errorString (str "name should not contain _ or / or whitespace"))
  else None.

(** ** Unix domain socket addresses *)

Definition udsRegistryAnon : bytes := str "@adaptiveservice/".
Definition udsRegistryDir : bytes := asTmpDir ++ str "/sockets/".
Definition sock : bytes := str ".sock".

(** [toUDSAddr] *)
Definition toUDSAddr (publisherName serviceName : bytes) (useNamedUDS : bool) (id : bytes) : bytes :=
  let udsRegistry :=
    if useNamedUDS then
      if negb (bool_decide (length id = 0)) then udsRegistryDir ++ id ++ str "/"
      else udsRegistryDir
    else udsRegistryAnon in
  udsRegistry ++ toPublisherServiceName publisherName serviceName ++ sock.

(** [fromUDSAddr] *)
Definition fromUDSAddr (addr : bytes) : outcome (bytes * bytes) :=
  let baseName := Base addr in
  let name := TrimSuffix baseName sock in
  fromPublisherServiceName name.

(** ** Lemmas *)

Lemma checkNameConvention_ok name :
  checkNameConvention name = None → underscore ∉ name ∧ "/"%char ∉ name.
Proof.
  unfold checkNameConvention. destruct (ContainsAny _ _) eqn:E; [done|]. intros _.
  rewrite ContainsAny_false in E. split; apply E; unfold refused_chars; set_solver.
Qed.

Lemma from_toPublisherServiceName_iff p s :
  fromPublisherServiceName (toPublisherServiceName p s) = Return (p, s) ↔
  underscore ∉ p ∧ underscore ∉ s.
Proof.
  unfold fromPublisherServiceName, toPublisherServiceName. split.
  - intros H. destruct (Split _ _) as [|a [|b [|]]] eqn:E; try done. injection H as -> ->.
    pose proof (Split_parts (p ++ [underscore] ++ s) underscore) as Hp.
    rewrite E, !Forall_cons in Hp. tauto.
  - intros [Hp Hs]. simpl. by rewrite Split_app, Split_fresh.
Qed.

Lemma from_to_ok p s :
  underscore ∉ p → underscore ∉ s →
  fromPublisherServiceName (toPublisherServiceName p s) = Return (p, s).
Proof. intros. by apply from_toPublisherServiceName_iff. Qed.

Lemma fromPublisherServiceName_Return name p s :
  fromPublisherServiceName name = Return (p, s) →
  name = toPublisherServiceName p s ∧ underscore ∉ p ∧ underscore ∉ s.
Proof.
  unfold fromPublisherServiceName. intros H.
  destruct (Split _ _) as [|a [|b [|]]] eqn:E; try done. injection H as -> ->.
  pose proof (Split_parts name underscore) as Hp. pose proof (Split_Join name underscore) as Hj.
  rewrite E in Hp, Hj. simpl in Hj. rewrite !Forall_cons in Hp. by destruct Hp as (? & ? & _).
Qed.

Lemma toPublisherServiceName_inj p1 s1 p2 s2 :
  underscore ∉ p1 → underscore ∉ s1 → underscore ∉ p2 → underscore ∉ s2 →
  toPublisherServiceName p1 s1 = toPublisherServiceName p2 s2 → p1 = p2 ∧ s1 = s2.
Proof.
  intros H1 H2 H3 H4 Heq.
  pose proof (from_to_ok p1 s1 H1 H2) as E. rewrite Heq, from_to_ok in E by done. naive_solver.
Qed.

Lemma sock_no_slash : "/"%char ∉ sock.
Proof. by_decide. Qed.

(** An address is a directory, then the name of the service. *)
Lemma toUDSAddr_dir p s named id :
  ∃ dir, toUDSAddr p s named id = dir ++ "/"%char :: toPublisherServiceName p s ++ sock.
Proof.
  unfold toUDSAddr. destruct named; [case_match|].
  - exists (udsRegistryDir ++ id). by rewrite <- !app_assoc.
  - by exists (str "/tmp/adaptiveservice/sockets").
  - by exists (str "@adaptiveservice").
Qed.

Lemma service_file_no_slash p s :
  "/"%char ∉ p → "/"%char ∉ s → "/"%char ∉ toPublisherServiceName p s ++ sock.
Proof.
  intros Hp Hs. unfold toPublisherServiceName. rewrite !elem_of_app, list_elem_of_singleton.
  by intros [[?|[[=]|?]]|?%sock_no_slash].
Qed.

Lemma fromUDSAddr_file dir name :
  "/"%char ∉ name → fromUDSAddr (dir ++ "/"%char :: name ++ sock) = fromPublisherServiceName name.
Proof.
  intros Hn. unfold fromUDSAddr. rewrite Base_app, TrimSuffix_app; [done|by destruct name|].
  rewrite elem_of_app. by intros [?|?%sock_no_slash].
Qed.

Lemma has_scope_land a b flag :
  has_scope (Z.land a b) flag = has_scope a flag && has_scope b flag.
Proof.
  unfold has_scope. apply eq_bool_prop_intro. rewrite andb_True, !bool_decide_spec. split.
  - intros H. split; apply Z.bits_inj'; intros n Hn; rewrite Z.land_spec;
      apply (f_equal (λ z, Z.testbit z n)) in H; rewrite !Z.land_spec in H;
      destruct (Z.testbit a n), (Z.testbit b n), (Z.testbit flag n); done.
  - intros [Ha Hb]. by rewrite <- Z.land_assoc, Hb.
Qed.

Lemma has_scope_clear scope flag : flag ≠ 0%Z → (0 ≤ flag < 2 ^ 16)%Z →
  has_scope (clear_scope scope flag) flag = false.
Proof.
  intros Hf Hr. unfold has_scope, clear_scope. apply bool_decide_eq_false_2. intros H.
  apply Hf, Z.bits_inj'. intros n Hn. rewrite Z.bits_0.
  apply (f_equal (λ z, Z.testbit z n)) in H. rewrite !Z.land_spec, Z.lxor_spec in H.
  change (2 ^ 16 - 1)%Z with (Z.ones 16) in H.
  destruct (Z.ltb_spec n 16).
  - rewrite Z.ones_spec_low in H by lia. destruct (Z.testbit scope n), (Z.testbit flag n); done.
  - rewrite <- (Z.mod_small flag (2 ^ 16)) by lia. by rewrite Z.mod_pow2_bits_high by lia.
Qed.

Lemma from_to_name p s p' s' :
  fromPublisherServiceName (toPublisherServiceName p s) = Return (p', s') → p' = p ∧ s' = s.
Proof.
  intros H. destruct (fromPublisherServiceName_Return _ _ _ H) as (_ & Hp & Hs).
  unfold fromPublisherServiceName, toPublisherServiceName in H. simpl in H.
  destruct (Split _ _) as [|a [|b [|]]] eqn:E; try done.
  pose proof (Split_app_length p underscore s) as Hl. rewrite E in Hl; simpl in Hl.
  pose proof (Split_not_nil p underscore). pose proof (Split_not_nil s underscore).
  destruct (Split p underscore) as [|p0 [|]] eqn:Ep; [done| |
    destruct (Split s underscore); simpl in Hl; [done|lia]].
  destruct (Split s underscore) as [|s0 [|]] eqn:Es; [done| |simpl in Hl; lia].
  apply Split_one in Ep as [_ ?], Es as [_ ?].
  by rewrite Split_app, Split_fresh in E by done; simplify_eq.
Qed.

(** ** Properties *)

(** The socket address of a service determines the service: for names
    without a slash, [fromUDSAddr] recovers publisher and service from the
    address made by [toUDSAddr], for abstract and named sockets, when neither
    has an underscore (in particular when both pass [checkNameConvention]), and
    panics otherwise. *)
Theorem uds_address_roundtrip p s named id :
  "/"%char ∉ p → "/"%char ∉ s →
  (checkNameConvention p = None ∧ checkNameConvention s = None → underscore ∉ p ∧ underscore ∉ s) ∧
  (underscore ∉ p ∧ underscore ∉ s → fromUDSAddr (toUDSAddr p s named id) = Return (p, s)) ∧
  (¬ (underscore ∉ p ∧ underscore ∉ s) → ∃ e, fromUDSAddr (toUDSAddr p s named id) = Panics e).
Proof.
  intros Hp Hs. destruct (toUDSAddr_dir p s named id) as [dir ->].
  assert ("/"%char ∉ toPublisherServiceName p s) as Hn
    by (pose proof (service_file_no_slash p s Hp Hs) as H; rewrite elem_of_app in H; tauto).
  rewrite fromUDSAddr_file by done. split; [|split].
  - intros [?%checkNameConvention_ok ?%checkNameConvention_ok]. tauto.
  - intros [??]. by apply from_to_ok.
  - intros Hu. destruct (fromPublisherServiceName _) as [[p' s']|e] eqn:E; [|eauto].
    destruct (from_to_name _ _ _ _ E) as [-> ->]. by apply from_toPublisherServiceName_iff in E.
Qed.

Lemma uds_address_roundtrip_witness :
  fromUDSAddr (toUDSAddr (str "example") (str "hello") true (str "1f3a")) = Return (str "example", str "hello").
Proof. apply (uds_address_roundtrip (str "example") (str "hello")); by_decide. Defined.
