(* ===== verification/RootRegistry.v ===== *)
(** The root registry (registry.go): the table of services published in the
    public network, the handlers of the messages that change or query it, the
    periodic check that drops dead providers and saves the table to
    "services.record", and the reading of that file at start-up. *)
From S2P Require Import Prelude GoStrings Wildcard Names.

Record providerInfo := mkProviderInfo {
  timeStamp : Z;
  addr : bytes;
  proxied : bool;
}.

#[export] Instance providerInfo_eq_dec : EqDecision providerInfo.
Proof. solve_decision. Defined.

(** "publisher_service" to the providers of the service, by provider ID *)
Record rootRegistry := mkRootRegistry {
  serviceMap : gmap bytes (gmap bytes providerInfo);
}.

Definition emptyRegistry : rootRegistry := mkRootRegistry ∅.

(** The messages the registry handles *)
Record regServiceInWAN := mkReg {
  reg_publisher : bytes; reg_service : bytes; reg_providerID : bytes;
  reg_port : bytes; reg_proxied : bool;
}.
Record delServiceInWAN := mkDel {
  del_publisher : bytes; del_service : bytes; del_providerID : bytes;
}.
Record queryServiceInWAN := mkQuery { query_publisher : bytes; query_service : bytes }.

(** What a handler replies: [OK], an error, nothing, or service records *)
Inductive reply :=
| ReplyOK
| ReplyError (e : error)
| ReplyNil
| ReplyInfos (l : list ServiceInfo).

(** A TTL of five minutes, in nanoseconds *)
Definition fiveMinutes : Z := 5 * 60 * 10 ^ 9.

(** [pingService]: [dial] tells whether a TCP connection to the address can be
    made within a second. *)
Definition pingService (dial : bytes → bool) (addr : bytes) : option error :=
  if dial addr then None else Some ErrServiceNotReachable.

Section walk.
Context `{GoRange} {S : Type}.

(** The callback of [walkProviders]: it gets the service, the provider ID and
    the record (which it may update in place), and tells whether to remove the
    entry.  [S] is the state the closure captures. *)
Context (fn : S → bytes → bytes → providerInfo → outcome (S * providerInfo * bool)).

Definition walk_entry (service : bytes) (st : S * gmap bytes providerInfo)
    (entry : bytes * providerInfo) : outcome (S * gmap bytes providerInfo) :=
  let '(s, providers) := st in
  let '(pID, pInfo) := entry in
  '(s, pInfo, remove) ← fn s service pID pInfo;
  Return (s, if (remove : bool) then delete pID providers else <[pID := pInfo]> providers).

Definition walkProviderMap (service : bytes) (s : S) (pmap : gmap bytes providerInfo) :
    outcome (S * gmap bytes providerInfo) :=
  foldOutcome (walk_entry service) (s, pmap) (range pmap).

Definition walk_service (name : bytes) (st : S * rootRegistry)
    (entry : bytes * gmap bytes providerInfo) : outcome (S * rootRegistry) :=
  let '(s, rr) := st in
  let '(psName, pmap) := entry in
  if WildcardMatch name psName then
    '(s, pmap) ← walkProviderMap psName s pmap;
    Return (s, mkRootRegistry (<[psName := pmap]> (serviceMap rr)))
  else Return (s, rr).

(** [rootRegistry.walkProviders] *)
Definition walkProviders (name : bytes) (s : S) (rr : rootRegistry) : outcome (S * rootRegistry) :=
  if Contains name (str "*") then
    foldOutcome (walk_service name) (s, rr) (range (serviceMap rr))
  else match serviceMap rr !! name with
       | Some pmap =>
           '(s, pmap) ← walkProviderMap name s pmap;
           Return (s, mkRootRegistry (<[name := pmap]> (serviceMap rr)))
       | None => Return (s, rr)
       end.
End walk.

(** [regServiceInWAN.Handle]: [remote] is the address of the peer, [now] the clock *)
Definition regServiceInWAN_Handle (dial : bytes → bool) (now : Z) (remote : bytes)
    (msg : regServiceInWAN) (rr : rootRegistry) : rootRegistry * reply :=
  let rhost := host_of remote in
  let raddr := rhost ++ str ":" ++ reg_port msg in
  match pingService dial raddr with
  | Some err => (rr, ReplyError err)
  | None =>
      let name := toPublisherServiceName (reg_publisher msg) (reg_service msg) in
      let pmap := default ∅ (serviceMap rr !! name) in
      let pinfo := mkProviderInfo now raddr (reg_proxied msg) in
      (mkRootRegistry (<[name := <[reg_providerID msg := pinfo]> pmap]> (serviceMap rr)), ReplyOK)
  end.

(** [delServiceInWAN.Handle] *)
Definition delServiceInWAN_Handle (msg : delServiceInWAN) (rr : rootRegistry) : rootRegistry * reply :=
  let name := toPublisherServiceName (del_publisher msg) (del_service msg) in
  match serviceMap rr !! name with
  | None => (rr, ReplyNil)
  | Some pmap =>
      (mkRootRegistry (<[name := delete (del_providerID msg) pmap]> (serviceMap rr)), ReplyNil)
  end.

(** [testReverseProxy.Handle]: can the peer be reached at this port? *)
Definition testReverseProxy_Handle (dial : bytes → bool) (remote port : bytes) : reply :=
  let rhost := host_of remote in
  let raddr := rhost ++ str ":" ++ port in
  match pingService dial raddr with
  | Some err => ReplyError err
  | None => ReplyOK
  end.

(** [makeServiceInfo] *)
Definition makeServiceInfo (publisherServiceName pID : bytes) (pInfo : providerInfo) :
    outcome ServiceInfo :=
  let addr := if proxied pInfo then addr pInfo ++ str "P" else addr pInfo in
  if negb (bool_decide (length publisherServiceName = 0)) then
    '(pName, sName) ← fromPublisherServiceName publisherServiceName;
    Return (mkServiceInfo pName sName pID addr)
  else Return (mkServiceInfo [] [] pID addr).

(** The callback of [queryServiceInWAN.Handle]: collect every record *)
Definition query_callback (infos : list ServiceInfo) (name pID : bytes) (pInfo : providerInfo) :
    outcome (list ServiceInfo * providerInfo * bool) :=
  si ← makeServiceInfo name pID pInfo; Return (infos ++ [si], pInfo, false).

(** [queryServiceInWAN.Handle] *)
Definition queryServiceInWAN_Handle `{GoRange} (msg : queryServiceInWAN) (rr : rootRegistry) :
    outcome (rootRegistry * reply) :=
  let name := toPublisherServiceName (query_publisher msg) (query_service msg) in
  '(infos, rr) ← walkProviders query_callback name [] rr;
  Return (rr, ReplyInfos infos).

(** ** The periodic check *)

(** The callback of [registryCheckSaver]; [clock] gives the time read when the
    entry is visited. *)
Definition check_callback (dial : bytes → bool) (clock : bytes → bytes → Z)
    (infos : list ServiceInfo) (name pID : bytes) (pInfo : providerInfo) :
    outcome (list ServiceInfo * providerInfo * bool) :=
  let t := clock name pID in
  match pingService dial (addr pInfo) with
  | Some _ =>
      if bool_decide (t > timeStamp pInfo + fiveMinutes)%Z then Return (infos, pInfo, true)
      else si ← makeServiceInfo name pID pInfo; Return (infos ++ [si], pInfo, false)
  | None =>
      let pInfo := mkProviderInfo t (addr pInfo) (proxied pInfo) in
      si ← makeServiceInfo name pID pInfo; Return (infos ++ [si], pInfo, false)
  end.

(** [fmt.Fprintf(f, "%s %s %s %s\n", ...)] *)
Definition record_line (si : ServiceInfo) : bytes :=
  Publisher si ++ str " " ++ Service si ++ str " " ++ ProviderID si ++ str " " ++ Addr si
  ++ ["010"%char].

Definition record_file (infos : list ServiceInfo) : bytes := concat (record_line <$> infos).

(** One round of the loop of [registryCheckSaver]: the registry and the content
    of "services.record" before and after.  [created] tells whether [os.Create]
    succeeded, [renamed] whether [os.Rename] did. *)
Definition registryCheckSaver `{GoRange} (dial : bytes → bool) (clock : bytes → bytes → Z)
    (created renamed : bool) (rr : rootRegistry) (record : bytes) : outcome (rootRegistry * bytes) :=
  '(infos, rr) ← walkProviders (check_callback dial clock) (str "*") [] rr;
  Return (rr, if created && renamed then record_file infos else record).

(** ** Reading the record at start-up *)

(** The body of the reading loop of [startRootRegistry] *)
Definition load_record (now : Z) (rr : rootRegistry) (publisher service providerID addr : bytes) :
    rootRegistry :=
  let name := toPublisherServiceName publisher service in
  let pmap := default ∅ (serviceMap rr !! name) in
  let pinfo :=
    if bool_decide (last addr = Some "P"%char)
    then mkProviderInfo now (take (length addr - 1) addr) true
    else mkProviderInfo now addr false in
  mkRootRegistry (<[name := <[providerID := pinfo]> pmap]> (serviceMap rr)).

(** The loop: every round consumes a line, so the length of the file is fuel enough. *)
Fixpoint load_loop (fuel : nat) (now : Z) (file : bytes) (rr : rootRegistry) : rootRegistry :=
  match fuel with
  | 0 => rr
  | S fuel =>
      match Fscanln 4 file with
      | Some ([publisher; service; providerID; addr], file) =>
          load_loop fuel now file (load_record now rr publisher service providerID addr)
      | _ => rr
      end
  end.

(** The registry [startRootRegistry] starts with: [None] when the file cannot be opened *)
Definition startRegistry (now : Z) (file : option bytes) : rootRegistry :=
  match file with
  | None => emptyRegistry
  | Some file => load_loop (S (length file)) now file emptyRegistry
  end.

(** ** The registry as a table of entries *)

(** The record of a provider of a service, if there is one *)
Definition entry (rr : rootRegistry) (name pID : bytes) : option providerInfo :=
  pmap ← serviceMap rr !! name; pmap !! pID.

(** A registry without services that have no provider *)
Definition no_empty (rr : rootRegistry) : Prop :=
  ∀ name pmap, serviceMap rr !! name = Some pmap → pmap ≠ ∅.

Definition compact (rr : rootRegistry) : rootRegistry :=
  mkRootRegistry (filter (λ '(_, pmap), pmap ≠ ∅) (serviceMap rr)).

(** All the names are made of a publisher and a service without underscore. *)
Definition wf_names (rr : rootRegistry) : Prop :=
  ∀ name pmap, serviceMap rr !! name = Some pmap →
    ∃ p s, fromPublisherServiceName name = Return (p, s).

Definition selects (name psName : bytes) : bool :=
  if Contains name (str "*") then WildcardMatch name psName else bool_decide (psName = name).

Lemma selects_glob name psName : selects name psName ↔ glob name psName.
Proof.
  unfold selects. destruct (Contains name (str "*")) eqn:E.
  - apply WildcardMatch_glob.
  - rewrite <- WildcardMatch_glob, WildcardMatch_plain, bool_decide_spec; [done|].
    intros Hs. apply Contains_char in Hs. change [star] with (str "*") in Hs. by rewrite E in Hs.
Qed.

Lemma registry_eq rr1 rr2 :
  no_empty rr1 → no_empty rr2 →
  (∀ name pID, entry rr1 name pID = entry rr2 name pID) → rr1 = rr2.
Proof.
  destruct rr1 as [m1], rr2 as [m2]; unfold no_empty, entry; simpl. intros H1 H2 He.
  f_equal. apply map_eq. intros name. specialize (He name).
  destruct (m1 !! name) as [p1|] eqn:E1, (m2 !! name) as [p2|] eqn:E2; simpl in He.
  - f_equal. by apply map_eq.
  - destruct (H1 _ _ E1). by apply map_empty.
  - destruct (H2 _ _ E2). by apply map_empty.
  - done.
Qed.

Lemma entry_compact rr name pID : entry (compact rr) name pID = entry rr name pID.
Proof.
  unfold entry, compact; simpl. destruct (serviceMap rr !! name) as [pm|] eqn:E; simpl.
  - destruct (decide (pm = ∅)) as [->|Hne].
    + rewrite map_lookup_filter, E; simpl. by rewrite option_guard_False by naive_solver.
    + rewrite map_lookup_filter, E; simpl. by rewrite option_guard_True.
  - by rewrite map_lookup_filter, E.
Qed.

Lemma no_empty_compact rr : no_empty (compact rr).
Proof. intros name pm. simpl. by intros [? ?]%map_lookup_filter_Some. Qed.

(** ** Walking with a callback that does not depend on the state *)
Section walk_total.
Context `{GoRange} {S : Type}.
Context (fn : S → bytes → bytes → providerInfo → outcome (S * providerInfo * bool)).
Context (g : S → bytes → bytes → providerInfo → S)
        (keep : bytes → bytes → providerInfo → option providerInfo).

(** [fn] computes [g] on its state, and keeps the record [keep] gives. *)
Definition computes (name pID : bytes) (pInfo : providerInfo) : Prop :=
  ∀ s, ∃ pInfo' remove, fn s name pID pInfo = Return (g s name pID pInfo, pInfo', remove) ∧
    keep name pID pInfo = if (remove : bool) then None else Some pInfo'.

Definition keep_all (name : bytes) (pmap : gmap bytes providerInfo) : gmap bytes providerInfo :=
  map_imap (keep name) pmap.

Lemma walk_entries name l s pm :
  NoDup l.*1 → (∀ pID pInfo, (pID, pInfo) ∈ l → computes name pID pInfo) →
  ∃ pm', foldOutcome (walk_entry fn name) (s, pm) l =
         Return (foldl (λ s '(pID, pInfo), g s name pID pInfo) s l, pm') ∧
         ∀ k, pm' !! k = match (list_to_map l : gmap bytes providerInfo) !! k with
                         | Some pInfo => keep name k pInfo
                         | None => pm !! k
                         end.
Proof.
  revert s pm; induction l as [|[pID pInfo] l IH]; intros s pm Hnd Hf; simpl.
  { eexists; split; [done|]. intros k. by rewrite lookup_empty. }
  inversion Hnd as [|? ? Hin Hnd']; simplify_eq/=.
  destruct (Hf pID pInfo ltac:(set_solver) s) as (pInfo' & remove & -> & Hk); simpl.
  destruct (IH (g s name pID pInfo)
              (if remove then delete pID pm else <[pID := pInfo']> pm)) as (pm' & -> & Hl).
  { done. }
  { intros; apply Hf; set_solver. }
  eexists; split; [done|]. intros k. rewrite Hl.
  destruct (decide (k = pID)) as [->|Hne].
  - rewrite not_elem_of_list_to_map_1 by done. rewrite lookup_insert_eq, Hk.
    destruct remove; by simplify_map_eq.
  - rewrite lookup_insert_ne by done. repeat case_match; simplify_map_eq; done.
Qed.

Lemma walkProviderMap_total name s pm :
  (∀ pID pInfo, pm !! pID = Some pInfo → computes name pID pInfo) →
  walkProviderMap fn name s pm =
  Return (foldl (λ s '(pID, pInfo), g s name pID pInfo) s (range pm), keep_all name pm).
Proof.
  intros Hf. destruct (walk_entries name (range pm) s pm) as (pm' & Hw & Hl).
  { auto with go. }
  { intros pID pInfo Hin. apply Hf. by rewrite <- elem_of_range. }
  unfold walkProviderMap. rewrite Hw. do 2 f_equal. apply map_eq. intros k.
  rewrite Hl, list_to_map_range. unfold keep_all. rewrite map_lookup_imap.
  by destruct (pm !! k).
Qed.

(** The entries of some services, in order *)
Definition flat (l : list (bytes * gmap bytes providerInfo)) : list (bytes * bytes * providerInfo) :=
  l ≫= λ '(n, pm), (λ '(pID, pInfo), (n, pID, pInfo)) <$> range pm.

(** The entries a walk visits, in order *)
Definition visited (name : bytes) (rr : rootRegistry) : list (bytes * bytes * providerInfo) :=
  let all := if Contains name (str "*") then range (serviceMap rr)
             else match serviceMap rr !! name with Some pm => [(name, pm)] | None => [] end in
  flat (filter (λ '(n, _), selects name n) all).

Definition g_entry (s : S) (e : bytes * bytes * providerInfo) : S :=
  let '(n, pID, pInfo) := e in g s n pID pInfo.

Lemma foldl_flat_cons s n pm l :
  foldl g_entry s (flat ((n, pm) :: l)) =
  foldl g_entry (foldl (λ s '(pID, pInfo), g s n pID pInfo) s (range pm)) (flat l).
Proof.
  unfold flat; simpl. rewrite foldl_app. f_equal. generalize (range pm) as k. intros k.
  revert s; induction k as [|[pID pInfo] k IH]; intros s; simpl; [done|apply IH].
Qed.

Lemma walk_services name l s rr :
  NoDup l.*1 → Contains name (str "*") →
  (∀ n pm, (n, pm) ∈ l → selects name n → ∀ pID pInfo, pm !! pID = Some pInfo → computes n pID pInfo) →
  ∃ rr', foldOutcome (walk_service fn name) (s, rr) l =
         Return (foldl g_entry s (flat (filter (λ '(n, _), selects name n) l)), rr') ∧
         ∀ k, serviceMap rr' !! k =
              match (list_to_map l : gmap bytes (gmap bytes providerInfo)) !! k with
              | Some pm => if selects name k then Some (keep_all k pm) else serviceMap rr !! k
              | None => serviceMap rr !! k
              end.
Proof.
  intros Hnd Hw. revert s rr Hnd; induction l as [|[n pm] l IH]; intros s rr Hnd Hf; simpl.
  { eexists; split; [done|]. intros k. by rewrite lookup_empty. }
  inversion Hnd as [|? ? Hin Hnd']; simplify_eq/=.
  assert (WildcardMatch name n = selects name n) as -> by (unfold selects; by destruct (Contains _ _)).
  destruct (decide (selects name n)) as [Hs|Hs].
  - rewrite filter_cons_True, foldl_flat_cons by done.
    rewrite walkProviderMap_total by (eapply Hf; [set_solver|done]).
    apply Is_true_true in Hs. rewrite Hs. simpl.
    edestruct IH as (rr' & -> & Hl); [done|intros; eapply Hf; eauto; set_solver|].
    eexists; split; [done|]. intros k. rewrite Hl. simpl.
    destruct (decide (k = n)) as [->|Hne]; simplify_map_eq; [|done].
    by rewrite not_elem_of_list_to_map_1, Hs.
  - rewrite filter_cons_False by done. apply Is_true_false in Hs. rewrite Hs. simpl.
    edestruct IH as (rr' & -> & Hl); [done|intros; eapply Hf; eauto; set_solver|].
    eexists; split; [done|]. intros k. rewrite Hl.
    destruct (decide (k = n)) as [->|Hne]; simplify_map_eq; [|done].
    by rewrite not_elem_of_list_to_map_1, Hs.
Qed.

Lemma walkProviders_total name s rr :
  (∀ n pID pInfo, entry rr n pID = Some pInfo → selects name n → computes n pID pInfo) →
  ∃ rr', walkProviders fn name s rr = Return (foldl g_entry s (visited name rr), rr') ∧
         ∀ n, serviceMap rr' !! n =
              if selects name n then keep_all n <$> serviceMap rr !! n else serviceMap rr !! n.
Proof.
  intros Hf. unfold walkProviders, visited. destruct (Contains name (str "*")) eqn:Hc.
  - destruct (walk_services name (range (serviceMap rr)) s rr) as (rr' & -> & Hl).
    { auto with go. }
    { by rewrite Hc. }
    { intros n pm Hin Hs pID pInfo Hp. rewrite elem_of_range in Hin.
      apply Hf; [|done]. unfold entry. by rewrite Hin. }
    eexists; split; [done|]. intros n. rewrite Hl, list_to_map_range.
    by destruct (serviceMap rr !! n), (selects name n).
  - assert (∀ n, selects name n = bool_decide (n = name)) as Hsel
      by (intros; unfold selects; by rewrite Hc).
    destruct (serviceMap rr !! name) as [pm|] eqn:E; simpl.
    + rewrite walkProviderMap_total.
      2:{ intros. apply Hf; [unfold entry; by rewrite E|]. rewrite Hsel. by apply bool_decide_spec. }
      eexists; simpl. split.
      { rewrite filter_cons_True by (rewrite Hsel; by apply bool_decide_spec).
        rewrite foldl_flat_cons. done. }
      intros n. rewrite Hsel. simpl. case_bool_decide; subst; simplify_map_eq; done.
    + eexists; split; [done|]. intros n. rewrite Hsel. case_bool_decide; subst; [by rewrite E|done].
Qed.
End walk_total.

(** ** Callbacks that collect service records *)

Definition published_addr (pInfo : providerInfo) : bytes :=
  if proxied pInfo then addr pInfo ++ str "P" else addr pInfo.

(** The record [makeServiceInfo] makes of an entry with a proper name *)
Definition info_of (e : bytes * bytes * providerInfo) : ServiceInfo :=
  let '(n, pID, pInfo) := e in
  match fromPublisherServiceName n with
  | Return (p, s) => mkServiceInfo p s pID (published_addr pInfo)
  | Panics _ => mkServiceInfo [] [] pID (published_addr pInfo)
  end.

Lemma makeServiceInfo_ok n p s pID pInfo :
  fromPublisherServiceName n = Return (p, s) →
  makeServiceInfo n pID pInfo = Return (info_of (n, pID, pInfo)).
Proof.
  intros Hn. unfold makeServiceInfo, info_of. rewrite Hn, bool_decide_eq_false_2; [done|].
  intros ->%nil_length_inv. done.
Qed.

Lemma elem_of_visited `{GoRange} name rr n pID pInfo :
  (n, pID, pInfo) ∈ visited name rr ↔ selects name n ∧ entry rr n pID = Some pInfo.
Proof.
  unfold visited, flat. rewrite list_elem_of_bind.
  transitivity (∃ pm, selects name n ∧ serviceMap rr !! n = Some pm ∧ pm !! pID = Some pInfo).
  2:{ unfold entry. split.
      - intros (pm & ? & -> & ?); done.
      - intros [? (pm & ? & ?)%bind_Some]; eauto. }
  assert (∀ n pm, (n, pm) ∈ (if Contains name (str "*") then range (serviceMap rr)
             else match serviceMap rr !! name with Some pm => [(name, pm)] | None => [] end)
          ∧ selects name n ↔ selects name n ∧ serviceMap rr !! n = Some pm) as Hall.
  { intros n' pm. unfold selects. destruct (Contains _ _).
    - rewrite elem_of_range. naive_solver.
    - rewrite bool_decide_spec. destruct (serviceMap rr !! name) eqn:E; set_solver. }
  split.
  - intros ([n' pm] & (([pID' pInfo'] & [= -> -> ->] & Hin)%list_elem_of_fmap & [Hs Hn]%list_elem_of_filter)).
    rewrite elem_of_range in Hin. destruct (proj1 (Hall n' pm)); [done|]. eauto.
  - intros (pm & Hs & Hn & Hp). exists (n, pm). split.
    + apply list_elem_of_fmap. exists (pID, pInfo). by rewrite elem_of_range.
    + apply list_elem_of_filter. destruct (proj2 (Hall n pm)); done.
Qed.

Lemma NoDup_visited `{GoRange} name rr : NoDup (visited name rr).*1.
Proof.
  unfold visited.
  assert (NoDup (filter (λ '(n, _), selects name n)
    (if Contains name (str "*") then range (serviceMap rr)
     else match serviceMap rr !! name with Some pm => [(name, pm)] | None => [] end)).*1) as Hnd.
  { eapply sublist_NoDup; [|apply fmap_sublist, sublist_filter].
    destruct (Contains _ _); [auto with go|]. destruct (_ !! _); repeat constructor; set_solver. }
  induction (filter _ _) as [|[n pm] l IH]; simpl; [constructor|].
  inversion Hnd as [|? ? Hn Hnd']; simplify_eq/=.
  unfold flat; simpl. rewrite fmap_app. apply NoDup_app. split_and!.
  - assert (((λ '(pID, pInfo), (n, pID, pInfo)) <$> range pm).*1 = (λ k, (n, k)) <$> (range pm).*1) as ->.
    { generalize (range pm). intros k. induction k as [|[? ?] k IHk]; simpl; [done|f_equal; apply IHk]. }
    apply NoDup_fmap; [intros ?? [=]; done|auto with go].
  - intros x ([[n1 pID1] pi1] & -> & Hin1)%list_elem_of_fmap ([[n2 pID2] pi2] & Heq & Hin2)%list_elem_of_fmap.
    simplify_eq/=. apply list_elem_of_fmap in Hin1 as ([? ?] & ? & _).
    apply list_elem_of_bind in Hin2 as ([? ?] & ([? ?] & ? & _)%list_elem_of_fmap & Hin). simplify_eq/=.
    apply Hn. apply list_elem_of_fmap. by eexists (_, _).
  - by apply IH.
Qed.

(** The key of a record: the service it names and the provider *)
Definition info_key (si : ServiceInfo) : bytes * bytes :=
  (toPublisherServiceName (Publisher si) (Service si), ProviderID si).

(** [infos] describes exactly the entries of [rr] whose name [sel] selects. *)
Definition describes (sel : bytes → bool) (rr : rootRegistry) (infos : list ServiceInfo) : Prop :=
  NoDup (info_key <$> infos) ∧
  ∀ si, si ∈ infos ↔
    ∃ n pID pInfo, sel n ∧ entry rr n pID = Some pInfo ∧ si = info_of (n, pID, pInfo).

Lemma info_key_of n p s pID pInfo :
  fromPublisherServiceName n = Return (p, s) → info_key (info_of (n, pID, pInfo)) = (n, pID).
Proof.
  intros Hn. unfold info_of. rewrite Hn. unfold info_key; simpl.
  by destruct (fromPublisherServiceName_Return _ _ _ Hn) as (-> & _).
Qed.

Lemma wf_names_entry rr n pID pInfo :
  wf_names rr → entry rr n pID = Some pInfo → ∃ p s, fromPublisherServiceName n = Return (p, s).
Proof. intros Hwf (pm & Hn & _)%bind_Some. eauto. Qed.

(** A callback that collects the record of each entry it keeps *)
Section collect.
Context `{GoRange}.
Context (fn : list ServiceInfo → bytes → bytes → providerInfo →
              outcome (list ServiceInfo * providerInfo * bool)).
Context (keep : bytes → bytes → providerInfo → option providerInfo).

Definition collect_step (infos : list ServiceInfo) (n pID : bytes) (pInfo : providerInfo) :=
  match keep n pID pInfo with
  | Some pInfo' => infos ++ [info_of (n, pID, pInfo')]
  | None => infos
  end.

Definition kept (e : bytes * bytes * providerInfo) : option (bytes * bytes * providerInfo) :=
  let '(n, pID, pInfo) := e in (λ pInfo', (n, pID, pInfo')) <$> keep n pID pInfo.

Lemma foldl_collect infos l :
  foldl (g_entry collect_step) infos l = infos ++ (info_of <$> omap kept l).
Proof.
  revert infos; induction l as [|[[n pID] pInfo] l IH]; intros infos; simpl.
  { by rewrite app_nil_r. }
  rewrite IH. unfold collect_step. destruct (keep n pID pInfo); simpl; [|done].
  by rewrite <- app_assoc.
Qed.

Lemma NoDup_kept l : NoDup l.*1 → NoDup (omap kept l).*1.
Proof.
  induction l as [|[[n pID] pInfo] l IH]; intros Hnd; simpl in *; [constructor|].
  inversion Hnd as [|? ? Hn Hnd']; simplify_eq/=.
  destruct (keep n pID pInfo); simpl; [|by apply IH]. constructor; [|by apply IH].
  intros ([[n1 pID1] pi1] & ? & Hin)%list_elem_of_fmap. apply Hn.
  apply list_elem_of_omap in Hin as ([[? ?] ?] & Hin & (? & ? & ?)%fmap_Some). simplify_eq/=.
  apply list_elem_of_fmap. by eexists (_, _).
Qed.

Lemma collect_walk name rr :
  wf_names rr →
  (∀ n pID pInfo, entry rr n pID = Some pInfo → computes fn collect_step keep n pID pInfo) →
  ∃ infos rr', walkProviders fn name [] rr = Return (infos, rr') ∧
    (∀ n, serviceMap rr' !! n =
       if selects name n then keep_all keep n <$> serviceMap rr !! n else serviceMap rr !! n) ∧
    (∀ n pID, entry rr' n pID =
       if selects name n then pInfo ← entry rr n pID; keep n pID pInfo else entry rr n pID) ∧
    describes (selects name) rr' infos.
Proof.
  intros Hwf Hf. destruct (walkProviders_total fn collect_step keep name [] rr) as (rr' & -> & Hl).
  { intros; by apply Hf. }
  rewrite foldl_collect. simpl. set (es := omap kept (visited name rr)).
  assert (∀ n pID, entry rr' n pID =
    if selects name n then pInfo ← entry rr n pID; keep n pID pInfo else entry rr n pID) as He.
  { intros n pID. unfold entry. rewrite Hl. destruct (selects name n); [|done].
    destruct (serviceMap rr !! n); simpl; [|done]. unfold keep_all. apply map_lookup_imap. }
  assert (∀ n pID pInfo, (n, pID, pInfo) ∈ es ↔ selects name n ∧ entry rr' n pID = Some pInfo) as Hes.
  { intros n pID pInfo. unfold es. rewrite list_elem_of_omap, He. split.
    - intros ([[n1 pID1] pi1] & [Hs Hin]%elem_of_visited & (pi2 & ? & [= -> -> ->])%fmap_Some).
      apply Is_true_true in Hs. rewrite Hs, Hin. done.
    - intros [Hs Hin]. destruct (selects name n) eqn:Hsn; [|done].
      apply bind_Some in Hin as (pi1 & ? & Hk). exists (n, pID, pi1).
      rewrite elem_of_visited, Hsn. simpl. by rewrite Hk. }
  exists (info_of <$> es), rr'. split_and!; [done..|]. split.
  - rewrite <- list_fmap_compose.
    assert (info_key ∘ info_of <$> es = es.*1) as ->.
    { apply list_fmap_ext. intros i [[n pID] pInfo] Hi. simpl.
      assert ((n, pID, pInfo) ∈ es) as [_ Hin]%Hes by (apply list_elem_of_lookup; eauto).
      rewrite He in Hin.
      assert (∃ pi, entry rr n pID = Some pi) as (pi & Hpi)
        by (case_match; [apply bind_Some in Hin as (? & ? & _)|]; eauto).
      destruct (wf_names_entry _ _ _ _ Hwf Hpi) as (p & s & Hn). by apply (info_key_of n p s). }
    apply NoDup_kept, NoDup_visited.
  - intros si. rewrite list_elem_of_fmap. split.
    + intros ([[n pID] pInfo] & -> & [? ?]%Hes). eauto 10.
    + intros (n & pID & pInfo & ? & ? & ->). exists (n, pID, pInfo). by rewrite Hes.
Qed.
End collect.

(** ** Queries *)

Lemma query_computes `{GoRange} rr n pID pInfo :
  wf_names rr → entry rr n pID = Some pInfo →
  computes query_callback (collect_step (λ _ _ pInfo, Some pInfo)) (λ _ _ pInfo, Some pInfo) n pID pInfo.
Proof.
  intros Hwf He infos. destruct (wf_names_entry _ _ _ _ Hwf He) as (p & s & Hn).
  exists pInfo, false. unfold query_callback, collect_step.
  by rewrite (makeServiceInfo_ok n p s pID pInfo Hn).
Qed.

Lemma query_handle `{GoRange} msg rr :
  wf_names rr →
  ∃ infos, queryServiceInWAN_Handle msg rr = Return (rr, ReplyInfos infos) ∧
    describes (selects (toPublisherServiceName (query_publisher msg) (query_service msg))) rr infos.
Proof.
  intros Hwf. unfold queryServiceInWAN_Handle. set (name := toPublisherServiceName _ _).
  destruct (collect_walk query_callback (λ _ _ pInfo, Some pInfo) name rr Hwf)
    as (infos & rr' & -> & Hl & _ & Hd).
  { intros. by eapply query_computes. }
  assert (rr' = rr) as ->.
  { destruct rr as [m], rr' as [m']; simpl in *. f_equal. apply map_eq. intros n. rewrite Hl.
    destruct (selects name n); [|done]. destruct (m !! n) as [pm|]; simpl; [|done]. f_equal.
    apply map_eq. intros k. unfold keep_all. rewrite map_lookup_imap. by destruct (pm !! k). }
  exists infos. split; [done|]. apply Hd.
Qed.

(** ** The abstract registry: a table from (service, provider) to an address *)

Abbreviation table := (gmap (bytes * bytes) providerInfo).

Inductive request :=
| ReqReg (dial : bytes → bool) (now : Z) (remote : bytes) (msg : regServiceInWAN)
| ReqDel (msg : delServiceInWAN)
| ReqQuery (msg : queryServiceInWAN).

(** The dispatch of the service "rootRegistry" on the type of the message *)
Definition handle `{GoRange} (req : request) (rr : rootRegistry) : outcome (rootRegistry * reply) :=
  match req with
  | ReqReg dial now remote msg => Return (regServiceInWAN_Handle dial now remote msg rr)
  | ReqDel msg => Return (delServiceInWAN_Handle msg rr)
  | ReqQuery msg => queryServiceInWAN_Handle msg rr
  end.

(** Requests are handled one after the other; the replies are collected. *)
Definition handle_all `{GoRange} (reqs : list request) (rr : rootRegistry) :
    outcome (rootRegistry * list reply) :=
  foldOutcome (λ '(rr, reps) req, '(rr, rep) ← handle req rr; Return (rr, reps ++ [rep]))
    (rr, []) reqs.

Definition reg_key (msg : regServiceInWAN) : bytes * bytes :=
  (toPublisherServiceName (reg_publisher msg) (reg_service msg), reg_providerID msg).
Definition del_key (msg : delServiceInWAN) : bytes * bytes :=
  (toPublisherServiceName (del_publisher msg) (del_service msg), del_providerID msg).

(** The address at which a peer registers a port *)
Definition reg_addr (remote : bytes) (msg : regServiceInWAN) : bytes :=
  host_of remote ++ str ":" ++ reg_port msg.

(** What a request does to the abstract table, and the reply it may get *)
Definition spec_table (req : request) (t : table) : table :=
  match req with
  | ReqReg dial now remote msg =>
      if dial (reg_addr remote msg)
      then <[reg_key msg := mkProviderInfo now (reg_addr remote msg) (reg_proxied msg)]> t
      else t
  | ReqDel msg => delete (del_key msg) t
  | ReqQuery _ => t
  end.

Definition spec_reply (req : request) (t : table) (rep : reply) : Prop :=
  match req with
  | ReqReg dial _ remote msg =>
      rep = if dial (reg_addr remote msg) then ReplyOK else ReplyError ErrServiceNotReachable
  | ReqDel _ => rep = ReplyNil
  | ReqQuery msg =>
      ∃ infos, rep = ReplyInfos infos ∧ NoDup (info_key <$> infos) ∧
        ∀ si, si ∈ infos ↔
          ∃ n pID pInfo, t !! (n, pID) = Some pInfo ∧
            glob (toPublisherServiceName (query_publisher msg) (query_service msg)) n ∧
            si = info_of (n, pID, pInfo)
  end.

(** A run of the abstract table *)
Inductive spec_run : table → list request → list reply → table → Prop :=
| spec_run_nil t : spec_run t [] [] t
| spec_run_cons t req rep reqs reps t' :
    spec_reply req t rep → spec_run (spec_table req t) reqs reps t' →
    spec_run t (req :: reqs) (rep :: reps) t'.

(** Only well-named services are registered. *)
Definition well_named (req : request) : Prop :=
  match req with
  | ReqReg _ _ _ msg => underscore ∉ reg_publisher msg ∧ underscore ∉ reg_service msg
  | _ => True
  end.

Definition represents (rr : rootRegistry) (t : table) : Prop :=
  ∀ n pID, entry rr n pID = t !! (n, pID).

Lemma wf_names_insert m name pm :
  wf_names (mkRootRegistry m) → (∃ p s, fromPublisherServiceName name = Return (p, s)) →
  wf_names (mkRootRegistry (<[name := pm]> m)).
Proof.
  intros Hwf Hn n pm'. simpl. destruct (decide (n = name)) as [->|?]; simplify_map_eq; [done|].
  apply Hwf.
Qed.

Lemma entry_insert m name pm n pID :
  entry (mkRootRegistry (<[name := pm]> m)) n pID =
  if decide (n = name) then pm !! pID else entry (mkRootRegistry m) n pID.
Proof. unfold entry; simpl. case_decide; by simplify_map_eq. Qed.

(** Every handler implements the operation of the abstract table. *)
Lemma handle_refines `{GoRange} req rr t :
  well_named req → wf_names rr → represents rr t →
  ∃ rr' rep, handle req rr = Return (rr', rep) ∧ wf_names rr' ∧
    represents rr' (spec_table req t) ∧ spec_reply req t rep.
Proof.
  intros Hw Hwf Hr. destruct req as [dial now remote msg|msg|msg]; simpl in *.
  - unfold regServiceInWAN_Handle, pingService. fold (reg_addr remote msg).
    destruct (dial (reg_addr remote msg)); [|eauto 10]. do 2 eexists. split_and!; [done|..|done].
    + destruct rr. apply wf_names_insert; [done|]. destruct Hw. eexists _, _. by apply from_to_ok.
    + intros n pID. rewrite entry_insert. unfold reg_key. destruct rr as [m]; simpl.
      case_decide as Hn; subst.
      * destruct (decide (pID = reg_providerID msg)) as [->|Hp]; simplify_map_eq; [done|].
        rewrite lookup_insert_ne by congruence. rewrite <- Hr. unfold entry; simpl.
        by destruct (m !! _); simplify_map_eq.
      * rewrite lookup_insert_ne by congruence. apply Hr.
  - unfold delServiceInWAN_Handle, del_key. set (name := toPublisherServiceName _ _).
    destruct rr as [m]; simpl. destruct (m !! name) as [pm|] eqn:E.
    + do 2 eexists. split_and!; [done|apply wf_names_insert; [done|by eapply Hwf]|..|done].
      intros n pID. rewrite entry_insert. case_decide as Hn; subst.
      * destruct (decide (pID = del_providerID msg)) as [->|Hp]; simplify_map_eq; [done|].
        rewrite lookup_delete_ne by congruence. rewrite <- Hr. unfold entry; simpl. by rewrite E.
      * rewrite lookup_delete_ne by congruence. apply Hr.
    + do 2 eexists. split_and!; [done|done|..|done]. intros n pID. rewrite Hr.
      destruct (decide ((n, pID) = (name, del_providerID msg))) as [[= -> ->]|?]; simplify_map_eq; [|done].
      rewrite <- Hr. unfold entry; simpl. by rewrite E.
  - destruct (query_handle msg rr Hwf) as (infos & -> & Hnd & Hd).
    do 2 eexists. split_and!; [done..|]. exists infos. split_and!; [done..|].
    intros si. rewrite Hd. setoid_rewrite selects_glob. setoid_rewrite Hr. naive_solver.
Qed.

Lemma handle_all_refines `{GoRange} reqs rr t acc :
  Forall well_named reqs → wf_names rr → represents rr t →
  ∃ rr' reps t',
    foldOutcome (λ '(rr, reps) req, '(rr, rep) ← handle req rr; Return (rr, reps ++ [rep]))
      (rr, acc) reqs = Return (rr', acc ++ reps) ∧
    wf_names rr' ∧ represents rr' t' ∧ spec_run t reqs reps t'.
Proof.
  intros Hw. revert rr t acc; induction Hw as [|req reqs Hreq Hreqs IH]; intros rr t acc Hwf Hr; simpl.
  { exists rr, [], t. rewrite app_nil_r. split_and!; [done..|constructor]. }
  destruct (handle_refines req rr t Hreq Hwf Hr) as (rr1 & rep & -> & Hwf1 & Hr1 & Hrep); simpl.
  destruct (IH rr1 _ (acc ++ [rep]) Hwf1 Hr1) as (rr2 & reps & t2 & -> & Hwf2 & Hr2 & Hrun).
  exists rr2, (rep :: reps), t2. rewrite <- app_assoc. split_and!; [done..|]. by econstructor.
Qed.

Lemma emptyRegistry_represents : represents emptyRegistry ∅.
Proof. intros n pID. unfold entry; simpl. by rewrite !lookup_empty. Qed.

Lemma emptyRegistry_wf : wf_names emptyRegistry.
Proof. by intros n pm; simpl; rewrite lookup_empty. Qed.

(** ** The record file *)

(** The time stamps a reloaded registry has *)
Definition retime (now : Z) (rr : rootRegistry) : rootRegistry :=
  mkRootRegistry ((λ pmap : gmap bytes providerInfo,
    (λ pInfo, mkProviderInfo now (addr pInfo) (proxied pInfo)) <$> pmap) <$> serviceMap rr).

(** An entry that survives printing and scanning: all the columns are words, and
    a direct address does not end with the mark of a proxied one. *)
Definition recordable (n pID : bytes) (pInfo : providerInfo) : Prop :=
  (∃ p s, fromPublisherServiceName n = Return (p, s) ∧ word p ∧ word s) ∧
  word pID ∧ word (addr pInfo) ∧ (proxied pInfo = false → last (addr pInfo) ≠ Some "P"%char).

Definition recordable_registry (rr : rootRegistry) : Prop :=
  ∀ n pID pInfo, entry rr n pID = Some pInfo → recordable n pID pInfo.

Definition word_info (si : ServiceInfo) : Prop :=
  word (Publisher si) ∧ word (Service si) ∧ word (ProviderID si) ∧ word (Addr si).

Definition load_info (now : Z) (rr : rootRegistry) (si : ServiceInfo) : rootRegistry :=
  load_record now rr (Publisher si) (Service si) (ProviderID si) (Addr si).

Definition load_addr (now : Z) (addr : bytes) : providerInfo :=
  if bool_decide (last addr = Some "P"%char)
  then mkProviderInfo now (take (length addr - 1) addr) true
  else mkProviderInfo now addr false.

Lemma word_snoc w c : word w → negb (is_space c) → word (w ++ [c]).
Proof. intros [? ?] ?. split; [by destruct w|]. apply Forall_app; auto. Qed.

Lemma scan_word_cons w s : word w →
  scan_word (w ++ " "%char :: s) = Some (w, " "%char :: s).
Proof. intros Hw. apply scan_word_app; [done|]. by intros c s' [= <- _]. Qed.

Lemma Fscanln_record_line si rest :
  word_info si →
  Fscanln 4 (record_line si ++ rest) =
  Some ([Publisher si; Service si; ProviderID si; Addr si], rest).
Proof.
  intros (Hp & Hs & Hi & Ha). unfold Fscanln, record_line.
  change (str " ") with [" "%char]. rewrite <- !app_assoc. cbn [app].
  cbn [scan_words]. rewrite scan_word_cons by done. cbn [mbind option_bind].
  rewrite scan_word_blank, scan_word_cons by done. cbn [mbind option_bind].
  rewrite scan_word_blank, scan_word_cons by done. cbn [mbind option_bind].
  rewrite scan_word_blank, scan_word_app; [done|done|by intros c s' [= <- _]|done].
Qed.

Lemma load_loop_records now infos fuel rr :
  Forall word_info infos → length infos < fuel →
  load_loop fuel now (record_file infos) rr = foldl (load_info now) rr infos.
Proof.
  intros Hw. revert fuel rr; induction Hw as [|si infos Hsi _ IH]; intros [|fuel] rr Hf;
    [simpl in Hf; lia|done|simpl in Hf; lia|].
  change (record_file (si :: infos)) with (record_line si ++ record_file infos).
  cbn [load_loop foldl]. rewrite Fscanln_record_line by done. apply IH. simpl in Hf. lia.
Qed.

Lemma length_record_file infos : length infos ≤ length (record_file infos).
Proof.
  induction infos as [|si infos IH]; [simpl; lia|].
  change (record_file (si :: infos)) with (record_line si ++ record_file infos).
  assert (1 ≤ length (record_line si)) by (unfold record_line; rewrite !length_app; simpl; lia).
  rewrite length_app. simpl. lia.
Qed.

Lemma startRegistry_records now infos :
  Forall word_info infos →
  startRegistry now (Some (record_file infos)) = foldl (load_info now) emptyRegistry infos.
Proof.
  intros Hw. apply load_loop_records; [done|]. pose proof (length_record_file infos). lia.
Qed.

Lemma entry_load_info now rr si n pID :
  entry (load_info now rr si) n pID =
  if decide ((n, pID) = info_key si) then Some (load_addr now (Addr si)) else entry rr n pID.
Proof.
  unfold load_info, load_record. rewrite entry_insert. unfold info_key. destruct rr as [m]; simpl.
  case_decide as Hn; subst.
  - destruct (decide (pID = ProviderID si)) as [->|?].
    + rewrite lookup_insert_eq. by case_decide.
    + rewrite lookup_insert_ne by done. case_decide; [congruence|].
      unfold entry; simpl. by destruct (m !! _); simplify_map_eq.
  - case_decide; [congruence|done].
Qed.

Lemma no_empty_load now infos rr :
  no_empty rr → no_empty (foldl (load_info now) rr infos).
Proof.
  revert rr; induction infos as [|si infos IH]; intros rr Hn; simpl; [done|]. apply IH.
  intros n pm. unfold load_info, load_record; simpl.
  destruct (decide (n = toPublisherServiceName (Publisher si) (Service si))) as [->|?];
    simplify_map_eq; [intros [= <-]; apply insert_non_empty|apply Hn].
Qed.

Lemma entry_load_infos now infos rr n pID :
  NoDup (info_key <$> infos) →
  entry (foldl (load_info now) rr infos) n pID =
  match (list_to_map ((λ si, (info_key si, load_addr now (Addr si))) <$> infos) : table) !! (n, pID) with
  | Some pInfo => Some pInfo
  | None => entry rr n pID
  end.
Proof.
  revert rr; induction infos as [|si infos IH]; intros rr Hnd; simpl; [by rewrite lookup_empty|].
  inversion Hnd as [|? ? Hsi Hnd']; simplify_eq/=. rewrite IH, entry_load_info by done.
  destruct (decide ((n, pID) = info_key si)) as [->|?]; simplify_map_eq; [|done].
  rewrite not_elem_of_list_to_map_1; [done|]. by rewrite <- list_fmap_compose.
Qed.

Lemma load_addr_published now pInfo :
  (proxied pInfo = false → last (addr pInfo) ≠ Some "P"%char) →
  load_addr now (published_addr pInfo) = mkProviderInfo now (addr pInfo) (proxied pInfo).
Proof.
  intros Hp. unfold load_addr, published_addr. destruct (proxied pInfo).
  - change (str "P") with ["P"%char]. rewrite last_snoc, bool_decide_eq_true_2 by done.
    rewrite length_app, Nat.add_sub, take_app_length. done.
  - by rewrite bool_decide_eq_false_2 by auto.
Qed.

Lemma recordable_info n pID pInfo :
  recordable n pID pInfo → word_info (info_of (n, pID, pInfo)).
Proof.
  intros ((p & s & Hn & ? & ?) & ? & ? & _). unfold info_of. rewrite Hn.
  split_and!; simpl; [done..|]. unfold published_addr.
  destruct (proxied pInfo); [by apply word_snoc|done].
Qed.

Lemma entry_retime now rr n pID :
  entry (retime now rr) n pID =
  (λ pInfo, mkProviderInfo now (addr pInfo) (proxied pInfo)) <$> entry rr n pID.
Proof.
  unfold entry, retime; simpl. rewrite lookup_fmap. destruct (serviceMap rr !! n); simpl; [|done].
  apply lookup_fmap.
Qed.

(** A file that describes the whole registry is read back as the registry. *)
Lemma load_describes (sel : bytes → bool) (rr : rootRegistry) (infos : list ServiceInfo) (now : Z) :
  (∀ n, sel n) → recordable_registry rr → describes sel rr infos →
  startRegistry now (Some (record_file infos)) = compact (retime now rr).
Proof.
  intros Hsel Hrec [Hnd Hin].
  assert (Forall word_info infos) as Hwords.
  { apply Forall_forall. intros si (n & pID & pInfo & _ & He & ->)%Hin.
    by apply recordable_info, Hrec. }
  rewrite startRegistry_records by done. apply registry_eq.
  { apply no_empty_load. by intros n pm; simpl; rewrite lookup_empty. }
  { apply no_empty_compact. }
  intros n pID. rewrite entry_load_infos, entry_compact, entry_retime by done.
  set (kvs := (λ si, (info_key si, load_addr now (Addr si))) <$> infos).
  assert (NoDup kvs.*1) as Hk by (unfold kvs; by rewrite <- list_fmap_compose).
  destruct (entry rr n pID) as [pInfo|] eqn:He; simpl.
  - destruct (Hrec _ _ _ He) as ((p & s & Hn & _) & _ & _ & Hp).
    rewrite (elem_of_list_to_map_1 kvs (n, pID) (load_addr now (published_addr pInfo))).
    + by rewrite load_addr_published.
    + done.
    + apply list_elem_of_fmap. exists (info_of (n, pID, pInfo)). split.
      * rewrite (info_key_of n p s) by done. unfold info_of. by rewrite Hn.
      * apply Hin. by exists n, pID, pInfo.
  - rewrite not_elem_of_list_to_map_1.
    + unfold entry; simpl. by rewrite lookup_empty.
    + unfold kvs. rewrite <- list_fmap_compose.
      intros (si & Hsi & (n' & pID' & pInfo & _ & He' & ->)%Hin)%list_elem_of_fmap.
      change ((n, pID) = info_key (info_of (n', pID', pInfo))) in Hsi.
      destruct (Hrec _ _ _ He') as ((p & s & Hn & _) & _).
      rewrite (info_key_of n' p s) in Hsi by done. simplify_eq.
Qed.

(** ** The periodic check *)

(** What the check keeps of an entry *)
Definition check_keep (dial : bytes → bool) (clock : bytes → bytes → Z)
    (n pID : bytes) (pInfo : providerInfo) : option providerInfo :=
  if dial (addr pInfo) then Some (mkProviderInfo (clock n pID) (addr pInfo) (proxied pInfo))
  else if bool_decide (clock n pID > timeStamp pInfo + fiveMinutes)%Z then None
  else Some pInfo.

Lemma check_computes `{GoRange} dial clock rr n pID pInfo :
  wf_names rr → entry rr n pID = Some pInfo →
  computes (check_callback dial clock) (collect_step (check_keep dial clock))
           (check_keep dial clock) n pID pInfo.
Proof.
  intros Hwf He infos. destruct (wf_names_entry _ _ _ _ Hwf He) as (p & s & Hn).
  unfold check_callback, collect_step, check_keep, pingService. destruct (dial (addr pInfo)).
  - rewrite (makeServiceInfo_ok n p s) by done. do 2 eexists. by split.
  - case_bool_decide; [do 2 eexists; by split|].
    rewrite (makeServiceInfo_ok n p s) by done. do 2 eexists. by split.
Qed.

Lemma selects_all n : selects (str "*") n.
Proof. unfold selects. by assert (Contains (str "*") (str "*") = true) as -> by done. Qed.

Lemma registryCheckSaver_round `{GoRange} dial clock created renamed rr record :
  wf_names rr →
  ∃ rr' infos,
    registryCheckSaver dial clock created renamed rr record =
      Return (rr', if created && renamed then record_file infos else record) ∧
    (∀ n pID, entry rr' n pID = pInfo ← entry rr n pID; check_keep dial clock n pID pInfo) ∧
    describes (selects (str "*")) rr' infos.
Proof.
  intros Hwf. unfold registryCheckSaver.
  destruct (collect_walk (check_callback dial clock) (check_keep dial clock) (str "*") rr Hwf)
    as (infos & rr' & -> & _ & He & Hd).
  { intros. by eapply check_computes. }
  exists rr', infos. split_and!; [done| |done].
  intros n pID. rewrite He. by rewrite (Is_true_true_1 _ (selects_all n)).
Qed.

Lemma check_keep_addr dial clock n pID pInfo pInfo' :
  check_keep dial clock n pID pInfo = Some pInfo' →
  addr pInfo' = addr pInfo ∧ proxied pInfo' = proxied pInfo.
Proof. unfold check_keep. repeat case_match; naive_solver. Qed.

(** A line with a missing column ends the reading of the file. *)
Lemma Fscanln_missing_column p pID a rest :
  word p → word pID → word a →
  Fscanln 4 (record_line (mkServiceInfo p [] pID a) ++ rest) = None.
Proof.
  intros Hp Hi Ha. unfold Fscanln, record_line. simpl Publisher. simpl Service.
  change (str " ") with [" "%char]. rewrite <- !app_assoc. cbn [app ProviderID Addr].
  cbn [scan_words]. rewrite scan_word_cons by done. cbn [mbind option_bind].
  change (scan_word (" "%char :: " "%char :: pID ++ " "%char :: a ++ "010"%char :: rest))
    with (scan_word (" "%char :: pID ++ " "%char :: a ++ "010"%char :: rest)).
  rewrite scan_word_blank, scan_word_cons by done. cbn [mbind option_bind].
  rewrite scan_word_blank, scan_word_app; [done|done|by intros c s' [= <- _]|done].
Qed.

Lemma load_loop_stops now infos tail fuel rr :
  Forall word_info infos → Fscanln 4 tail = None → length infos < fuel →
  load_loop fuel now (record_file infos ++ tail) rr = foldl (load_info now) rr infos.
Proof.
  intros Hw Ht. revert fuel rr; induction Hw as [|si infos Hsi _ IH]; intros [|fuel] rr Hf;
    [simpl in Hf; lia| |simpl in Hf; lia|].
  - change (record_file [] ++ tail) with tail. cbn [load_loop foldl]. by rewrite Ht.
  - change (record_file (si :: infos)) with (record_line si ++ record_file infos).
    rewrite <- app_assoc. cbn [load_loop foldl]. rewrite Fscanln_record_line by done.
    apply IH. simpl in Hf. lia.
Qed.

(** ** Properties *)

(** C7. Refinement: from an empty registry, every sequence of well-named
    registrations, deletions and queries runs without a panic and answers as the
    abstract table from (service, provider) to an address does: a registration
    overwrites the entry of its provider when the address it derives from the
    peer can be dialed and is refused otherwise, a deletion removes exactly its
    entry, and a query replies with each matching entry once and nothing else. *)
Theorem registry_implements_table `{GoRange} (reqs : list request) :
  Forall well_named reqs →
  ∃ rr reps t, handle_all reqs emptyRegistry = Return (rr, reps) ∧
    represents rr t ∧ spec_run ∅ reqs reps t.
Proof.
  intros Hw. destruct (handle_all_refines reqs emptyRegistry ∅ [] Hw emptyRegistry_wf
    emptyRegistry_represents) as (rr & reps & t & Hrun & _ & Hr & Hs).
  exists rr, reps, t. auto.
Qed.

Definition demo_requests : list request :=
  [ReqReg (λ _, true) 7 (str "10.0.0.5:4242") (mkReg (str "org") (str "echo") (str "id1") (str "80") false);
   ReqReg (λ _, true) 8 (str "10.0.0.6:4242") (mkReg (str "org") (str "echo") (str "id2") (str "81") true);
   ReqDel (mkDel (str "org") (str "echo") (str "id1"));
   ReqQuery (mkQuery (str "org") (str "e*"))].

Example demo_requests_replies :
  (λ '(_, reps), reps) <$> handle_all demo_requests emptyRegistry =
  Return [ReplyOK; ReplyOK; ReplyNil;
          ReplyInfos [mkServiceInfo (str "org") (str "echo") (str "id2") (str "10.0.0.6:81P")]].
Proof. by_compute. Qed.

Lemma registry_implements_table_witness :
  Forall well_named demo_requests ∧
  ∃ rr reps t, handle_all demo_requests emptyRegistry = Return (rr, reps) ∧
    represents rr t ∧ spec_run ∅ demo_requests reps t.
Proof.
  assert (Forall well_named demo_requests) as Hw
    by (repeat constructor; by_decide).
  split; [exact Hw|]. apply (registry_implements_table demo_requests Hw).
Defined.

(** C17. The periodic check: a round of [registryCheckSaver] never panics on
    properly named services; a provider that answers the ping is kept with its
    time stamp renewed, one that does not answer is kept unchanged until more
    than five minutes after its time stamp and dropped from then on; the file
    lists exactly the providers kept, and an earlier file survives untouched
    when the new one cannot be created or renamed. *)
Theorem check_round_spec `{GoRange} dial clock created renamed rr record :
  wf_names rr →
  ∃ rr' infos,
    registryCheckSaver dial clock created renamed rr record =
      Return (rr', if created && renamed then record_file infos else record) ∧
    (∀ n pID, entry rr' n pID =
       match entry rr n pID with
       | None => None
       | Some pInfo =>
           if dial (addr pInfo) then Some (mkProviderInfo (clock n pID) (addr pInfo) (proxied pInfo))
           else if bool_decide (clock n pID > timeStamp pInfo + fiveMinutes)%Z then None
           else Some pInfo
       end) ∧
    NoDup (info_key <$> infos) ∧
    (∀ si, si ∈ infos ↔ ∃ n pID pInfo, entry rr' n pID = Some pInfo ∧ si = info_of (n, pID, pInfo)).
Proof.
  intros Hwf.
  destruct (registryCheckSaver_round dial clock created renamed rr record Hwf)
    as (rr' & infos & -> & He & Hnd & Hd).
  exists rr', infos. split_and!; [done| |done|].
  - intros n pID. rewrite He. by destruct (entry rr n pID).
  - intros si. rewrite Hd. pose proof selects_all. naive_solver.
Qed.

Definition demo_registry : rootRegistry :=
  mkRootRegistry {[ str "org_echo" := {[ str "id1" := mkProviderInfo 0 (str "10.0.0.5:80") false;
                                         str "id2" := mkProviderInfo 0 (str "10.0.0.6:81") true ]} ]}.

(** Only the second provider answers, six minutes later. *)
Definition demo_dial (addr : bytes) : bool := bool_decide (addr = str "10.0.0.6:81").
Definition demo_clock (_ _ : bytes) : Z := 6 * 60 * 10 ^ 9.

Lemma demo_registry_wf : wf_names demo_registry.
Proof.
  intros n pm. simpl. intros [<- _]%lookup_singleton_Some. exists (str "org"), (str "echo"). done.
Qed.

Example demo_check : registryCheckSaver demo_dial demo_clock true true demo_registry [] =
  Return (mkRootRegistry {[ str "org_echo" :=
            {[ str "id2" := mkProviderInfo (demo_clock [] []) (str "10.0.0.6:81") true ]} ]},
          str "org echo id2 10.0.0.6:81P" ++ ["010"%char]).
Proof. by_compute. Qed.

Lemma check_round_spec_witness :
  wf_names demo_registry ∧
  ∃ rr' infos,
    registryCheckSaver demo_dial demo_clock true false demo_registry (str "old") =
      Return (rr', if true && false then record_file infos else str "old") ∧
    (∀ n pID, entry rr' n pID =
       match entry demo_registry n pID with
       | None => None
       | Some pInfo =>
           if demo_dial (addr pInfo)
           then Some (mkProviderInfo (demo_clock n pID) (addr pInfo) (proxied pInfo))
           else if bool_decide (demo_clock n pID > timeStamp pInfo + fiveMinutes)%Z then None
           else Some pInfo
       end) ∧
    NoDup (info_key <$> infos) ∧
    (∀ si, si ∈ infos ↔ ∃ n pID pInfo, entry rr' n pID = Some pInfo ∧ si = info_of (n, pID, pInfo)).
Proof.
  split; [exact demo_registry_wf|].
  apply (check_round_spec demo_dial demo_clock true false demo_registry (str "old") demo_registry_wf).
Defined.

(** C13. Round trip: when all names, provider IDs and addresses are words (and no
    direct address ends with "P"), a root registry started from the file written
    by a check round holds exactly the providers that round kept, with fresh
    time stamps. *)
Theorem restart_recovers_survivors `{GoRange} dial clock rr old now :
  wf_names rr → recordable_registry rr →
  ∃ rr' file,
    registryCheckSaver dial clock true true rr old = Return (rr', file) ∧
    startRegistry now (Some file) = compact (retime now rr').
Proof.
  intros Hwf Hrec. destruct (registryCheckSaver_round dial clock true true rr old Hwf)
    as (rr' & infos & -> & He & Hd).
  exists rr', (record_file infos). split; [done|].
  eapply (load_describes (selects (str "*"))); [apply selects_all| |done].
  intros n pID pInfo'. rewrite He. intros (pInfo & Hp & Hk)%bind_Some.
  destruct (check_keep_addr _ _ _ _ _ _ Hk) as [Ha Hpr].
  unfold recordable. rewrite Ha, Hpr. by apply Hrec.
Qed.

Lemma demo_registry_recordable : recordable_registry demo_registry.
Proof.
  intros n pID pInfo (pm & Hn & Hp)%bind_Some. simpl in Hn.
  apply lookup_singleton_Some in Hn as [<- <-].
  split; [exists (str "org"), (str "echo"); split_and!; [done|by_decide..]|].
  apply lookup_insert_Some in Hp as [[<- <-]|[_ [<- <-]%lookup_singleton_Some]];
    split_and!; by_decide.
Qed.

Lemma restart_recovers_survivors_witness :
  wf_names demo_registry ∧ recordable_registry demo_registry ∧
  ∃ rr' file,
    registryCheckSaver demo_dial demo_clock true true demo_registry [] = Return (rr', file) ∧
    startRegistry 9 (Some file) = compact (retime 9 rr').
Proof.
  split; [exact demo_registry_wf|]. split; [exact demo_registry_recordable|].
  apply (restart_recovers_survivors demo_dial demo_clock demo_registry [] 9);
    [exact demo_registry_wf|exact demo_registry_recordable].
Defined.

(** A service whose name is empty passes [checkNameConvention], but its
    line of the record has only three columns: at the next start everything
    written after that line is lost. *)
Theorem empty_service_name_truncates_record now before p pID a after :
  Forall word_info before → word p → word pID → word a →
  checkNameConvention [] = None ∧
  startRegistry now (Some (record_file (before ++ mkServiceInfo p [] pID a :: after))) =
  startRegistry now (Some (record_file before)).
Proof.
  intros Hw Hp Hi Ha. split; [done|]. rewrite (startRegistry_records now before) by done.
  unfold startRegistry, record_file. rewrite fmap_app, concat_app.
  apply (load_loop_stops now before (concat (record_line <$> mkServiceInfo p [] pID a :: after)));
    [done|by apply Fscanln_missing_column|].
  rewrite length_app. pose proof (length_record_file before). unfold record_file in *. lia.
Qed.

Lemma empty_service_name_truncates_record_witness :
  let lost := mkServiceInfo (str "org") (str "echo") (str "id1") (str "10.0.0.5:80") in
  checkNameConvention [] = None ∧
  startRegistry 9 (Some (record_file ([] ++ mkServiceInfo (str "org") [] (str "id") (str "1:2") :: [lost]))) =
  startRegistry 9 (Some (record_file [])).
Proof.
  apply (empty_service_name_truncates_record 9 [] (str "org") (str "id") (str "1:2"));
    [constructor|by_decide..].
Defined.
