(* ===== verification/MessageTracer.v ===== *)
(** The message tracing service (messagetracing_svc.go): traced message records
    are grouped in sessions by tracing ID; at most [cap] sessions are kept, the
    least recently written one being evicted.

    The Go structure is a doubly linked list of elements ([lru], front first)
    and a map from tracing IDs to elements ([lut]); elements are pointers that
    handlers hold across critical sections.  Here an element is a number, its
    session is found in the store [sessions], and each critical section of a
    handler is one atomic operation. *)
From S2P Require Import Prelude.

(** [uuid.UUID] is a 128-bit number, [uuid.Nil] being zero. *)
Record uuidInfo := mkUuidInfo { id : Z; seqNum : Z }.

#[export] Instance uuidInfo_eq_dec : EqDecision uuidInfo.
Proof. solve_decision. Defined.
#[export] Program Instance uuidInfo_countable : Countable uuidInfo :=
  inj_countable' (λ u, (id u, seqNum u)) (λ '(i, s), mkUuidInfo i s) _.
Next Obligation. by intros []. Qed.

Record tracedMessageRecord := mkRecord {
  rcd_timeStamp : Z;
  rcd_msg : bytes;
  rcd_tracingID : uuidInfo;
  rcd_tag : bytes;
  rcd_connInfo : bytes;
}.

#[export] Instance tracedMessageRecord_eq_dec : EqDecision tracedMessageRecord.
Proof. solve_decision. Defined.

Record tracingSession := mkSession {
  ts_tracingID : uuidInfo;
  ts_records : list tracedMessageRecord;
}.

(** An element of the list, as a pointer *)
Abbreviation element := nat.

Record messageTracer := mkTracer {
  cap : nat;
  lru : list element;
  lut : gmap uuidInfo element;
  sessions : gmap element tracingSession;
  next : element;
}.

Definition MaxTracingSessions : nat := 4096.

(** [newMessageTracer] *)
Definition newMessageTracer (cap : nat) : messageTracer := mkTracer cap [] ∅ ∅ 0.

(** ** Critical sections of [tracedMessageRecord.Handle] *)

(** Under [mTracer.RLock]: is there a session? *)
Definition find_session (rcd : tracedMessageRecord) (t : messageTracer) : option element :=
  lut t !! rcd_tracingID rcd.

(** Under [tSession.Lock]: append the record to the session of an element *)
Definition append_record (rcd : tracedMessageRecord) (e : element) (t : messageTracer) : messageTracer :=
  mkTracer (cap t) (lru t) (lut t)
    (alter (λ s, mkSession (ts_tracingID s) (ts_records s ++ [rcd])) e (sessions t)) (next t).

(** [list.MoveToFront]: nothing happens to an element of another list *)
Definition MoveToFront (e : element) (l : list element) : list element :=
  if bool_decide (e ∈ l) then e :: filter (λ x, x ≠ e) l else l.

Definition move_to_front (e : element) (t : messageTracer) : messageTracer :=
  mkTracer (cap t) (MoveToFront e (lru t)) (lut t) (sessions t) (next t).

(** The eviction of the oldest session when the tracer is full *)
Definition evict (t : messageTracer) : outcome messageTracer :=
  if decide (cap t ≤ length (lru t)) then
    match last (lru t) with
    | None => Panics (str "nil pointer dereference")
    | Some oldest =>
        match sessions t !! oldest with
        | None => Panics (str "nil pointer dereference")
        | Some s =>
            Return (mkTracer (cap t) (filter (λ x, x ≠ oldest) (lru t))
                      (delete (ts_tracingID s) (lut t)) (sessions t) (next t))
        end
    end
  else Return t.

(** Under [mTracer.Lock]: evict when full, then push a new session *)
Definition push_session (rcd : tracedMessageRecord) (t : messageTracer) : outcome messageTracer :=
  t ← evict t;
  let elem := next t in
  Return (mkTracer (cap t) (elem :: lru t) (<[rcd_tracingID rcd := elem]> (lut t))
            (<[elem := mkSession (rcd_tracingID rcd) [rcd]]> (sessions t)) (S elem)).

(** [tracedMessageRecord.Handle] run without interference *)
Definition record_Handle (rcd : tracedMessageRecord) (t : messageTracer) : outcome messageTracer :=
  match find_session rcd t with
  | Some elem => Return (move_to_front elem (append_record rcd elem t))
  | None => push_session rcd t
  end.

(** ** [readTracedMsg.Handle] *)

(** The records of an element *)
Definition records_of (t : messageTracer) (e : element) : list tracedMessageRecord :=
  from_option ts_records [] (sessions t !! e).

(** Under [mTracer.Lock], for a tracing ID with the zero UUID: take everything *)
Definition take_all (t : messageTracer) : messageTracer * list element :=
  (mkTracer (cap t) [] ∅ (sessions t) (next t), lru t).

(** Under [mTracer.Lock]: take the session of a tracing ID out *)
Definition take_session (tracingID : uuidInfo) (t : messageTracer) : messageTracer * option element :=
  match lut t !! tracingID with
  | Some elem =>
      (mkTracer (cap t) (filter (λ x, x ≠ elem) (lru t)) (delete tracingID (lut t)) (sessions t) (next t),
       Some elem)
  | None => (t, None)
  end.

(** [readTracedMsg.Handle] run without interference *)
Definition read_Handle (tracingID : uuidInfo) (t : messageTracer) :
    messageTracer * list tracedMessageRecord :=
  if decide (id tracingID = 0%Z) then
    let '(t', elems) := take_all t in (t', elems ≫= records_of t')
  else
    let '(t', elem) := take_session tracingID t in
    (t', from_option (records_of t') [] elem).

(** ** The abstract tracer: sessions by recency *)

Abbreviation spec_tracer := (list (uuidInfo * list tracedMessageRecord)).

(** The session of a tracing ID, and the others *)
Definition spec_find (u : uuidInfo) (l : spec_tracer) : option (list tracedMessageRecord) :=
  (list_to_map l : gmap uuidInfo (list tracedMessageRecord)) !! u.
Definition spec_others (u : uuidInfo) (l : spec_tracer) : spec_tracer := filter (λ s, s.1 ≠ u) l.

(** A record goes to the front session, a new one pushing out the last *)
Definition spec_add (cap : nat) (rcd : tracedMessageRecord) (l : spec_tracer) : spec_tracer :=
  match spec_find (rcd_tracingID rcd) l with
  | Some rcds => (rcd_tracingID rcd, rcds ++ [rcd]) :: spec_others (rcd_tracingID rcd) l
  | None => (rcd_tracingID rcd, [rcd]) :: (if decide (cap ≤ length l) then removelast l else l)
  end.

Definition spec_read (u : uuidInfo) (l : spec_tracer) : spec_tracer * list tracedMessageRecord :=
  if decide (id u = 0%Z) then ([], l ≫= snd)
  else (spec_others u l, default [] (spec_find u l)).

Inductive tracer_op :=
| OpRecord (rcd : tracedMessageRecord)
| OpRead (tracingID : uuidInfo).

(** Handlers run one after the other; reads give their replies in order. *)
Fixpoint tracer_run (ops : list tracer_op) (t : messageTracer) :
    outcome (messageTracer * list (list tracedMessageRecord)) :=
  match ops with
  | [] => Return (t, [])
  | OpRecord rcd :: ops => t ← record_Handle rcd t; tracer_run ops t
  | OpRead u :: ops =>
      let '(t, rcds) := read_Handle u t in
      '(t, replies) ← tracer_run ops t; Return (t, rcds :: replies)
  end.

Fixpoint spec_tracer_run (cap : nat) (ops : list tracer_op) (l : spec_tracer) :
    spec_tracer * list (list tracedMessageRecord) :=
  match ops with
  | [] => (l, [])
  | OpRecord rcd :: ops => spec_tracer_run cap ops (spec_add cap rcd l)
  | OpRead u :: ops =>
      let '(l, rcds) := spec_read u l in
      let '(l, replies) := spec_tracer_run cap ops l in (l, rcds :: replies)
  end.

(** ** Interleaved handlers

    A handler of a record stops between its critical sections. *)
Inductive handler :=
| HStart (rcd : tracedMessageRecord)
| HFound (rcd : tracedMessageRecord) (e : element)
| HAppended (e : element)
| HMissing (rcd : tracedMessageRecord)
| HRead (u : uuidInfo)
| HDone.

Record world := mkWorld { tracer : messageTracer; handlers : list handler }.

(** One critical section of one handler *)
Definition handler_step (h : handler) (t : messageTracer) : outcome (handler * messageTracer) :=
  match h with
  | HStart rcd =>
      match find_session rcd t with
      | Some e => Return (HFound rcd e, t)
      | None => Return (HMissing rcd, t)
      end
  | HFound rcd e => Return (HAppended e, append_record rcd e t)
  | HAppended e => Return (HDone, move_to_front e t)
  | HMissing rcd => t ← push_session rcd t; Return (HDone, t)
  | HRead u => Return (HDone, (read_Handle u t).1)
  | HDone => Return (HDone, t)
  end.

Inductive world_step : world → world → Prop :=
| step_handler i w h h' t' :
    handlers w !! i = Some h →
    handler_step h (tracer w) = Return (h', t') →
    world_step w (mkWorld t' (<[i := h']> (handlers w)))
| step_arrival w h :
    (∃ rcd, h = HStart rcd) ∨ (∃ u, h = HRead u) →
    world_step w (mkWorld (tracer w) (handlers w ++ [h])).

(** ** Invariants *)

(** What holds under any interleaving *)
Record tracer_ok (t : messageTracer) : Prop := mkTracerOk {
  ok_NoDup : NoDup (lru t);
  ok_session : ∀ e, e ∈ lru t → is_Some (sessions t !! e);
  ok_fresh : ∀ e, is_Some (sessions t !! e) → e < next t;
  ok_lut : ∀ u e, lut t !! u = Some e →
    e ∈ lru t ∧ ts_tracingID <$> sessions t !! e = Some u;
  ok_bound : length (lru t) ≤ cap t;
  ok_cap : 0 < cap t;
}.

(** What holds when handlers do not interleave: every session can be found *)
Definition tracer_indexed (t : messageTracer) : Prop :=
  ∀ e s, e ∈ lru t → sessions t !! e = Some s → lut t !! ts_tracingID s = Some e.

Lemma newMessageTracer_ok n : 0 < n → tracer_ok (newMessageTracer n).
Proof.
  intros Hn. split; simpl; try done.
  - constructor.
  - intros e. set_solver.
  - intros e. rewrite lookup_empty. by intros [].
  - lia.
Qed.

Lemma NoDup_filter_ne (e : element) (l : list element) : NoDup l → NoDup (filter (λ x, x ≠ e) l).
Proof. apply NoDup_filter. Qed.

Lemma length_filter_ne (e : element) (l : list element) :
  NoDup l → e ∈ l → S (length (filter (λ x, x ≠ e) l)) = length l.
Proof.
  induction 1 as [|x l Hx Hl IH]; intros He; [set_solver|].
  destruct (decide (x = e)) as [->|Hne].
  - rewrite filter_cons_False by (intros ?; done). simpl. do 2 f_equal.
    clear -Hx. induction l as [|y l IH]; [done|].
    rewrite filter_cons_True by set_solver. f_equal. apply IH. set_solver.
  - rewrite filter_cons_True by done. simpl. rewrite <- IH; [done|set_solver].
Qed.

Lemma MoveToFront_perm e l : NoDup l → MoveToFront e l ≡ₚ l.
Proof.
  intros Hl. unfold MoveToFront. case_bool_decide as He; [|done].
  apply NoDup_Permutation; [constructor; [|by apply NoDup_filter]|done|].
  - rewrite list_elem_of_filter. tauto.
  - intros x. rewrite elem_of_cons, list_elem_of_filter.
    destruct (decide (x = e)) as [->|]; tauto.
Qed.

Lemma append_record_ok rcd e t : tracer_ok t → tracer_ok (append_record rcd e t).
Proof.
  intros [H1 H2 H3 H4 H5 H6]. split; simpl; try done.
  - intros x Hx. rewrite lookup_alter_is_Some. auto.
  - intros x. rewrite lookup_alter_is_Some. auto.
  - intros u x Hu. destruct (H4 u x Hu) as [? Hs]. split; [done|].
    rewrite lookup_alter. case_decide; subst; [|done].
    destruct (sessions t !! x); simplify_eq/=; done.
Qed.

Lemma move_to_front_ok e t : tracer_ok t → tracer_ok (move_to_front e t).
Proof.
  intros [H1 H2 H3 H4 H5 H6]. pose proof (MoveToFront_perm e (lru t) H1) as Hp.
  split; simpl; try done; rewrite ?Hp; try done.
  - intros x. rewrite Hp. apply H2.
  - intros u x. rewrite Hp. apply H4.
Qed.

Lemma last_elem_of {A} (l : list A) x : last l = Some x → x ∈ l.
Proof. intros (k & ->)%last_Some. set_solver. Qed.

Lemma evict_ok t :
  tracer_ok t →
  ∃ t', evict t = Return t' ∧ tracer_ok t' ∧ length (lru t') < cap t ∧
    cap t' = cap t ∧ sessions t' = sessions t ∧ next t' = next t ∧ lru t' ⊆ lru t.
Proof.
  intros Hok. pose proof Hok as [H1 H2 H3 H4 H5 H6]. unfold evict. case_decide as Hfull.
  2:{ exists t. split_and!; try done. lia. }
  destruct (last (lru t)) as [o|] eqn:Ho.
  2:{ apply last_None in Ho. rewrite Ho in Hfull. simpl in Hfull. lia. }
  apply last_elem_of in Ho as Hin. destruct (H2 o Hin) as [s Hs]. rewrite Hs.
  pose proof (length_filter_ne o (lru t) H1 Hin).
  eexists; split; [done|]. simpl. split_and!; try done; [|lia|].
  - split; simpl; try done.
    + by apply NoDup_filter.
    + intros e [_ ?]%list_elem_of_filter. auto.
    + intros u e [Hu Hl]%lookup_delete_Some. destruct (H4 u e Hl) as [? Hse]. split; [|done].
      apply list_elem_of_filter. split; [|done]. intros ->. rewrite Hs in Hse. by simplify_eq/=.
    + lia.
  - intros x [_ ?]%list_elem_of_filter. done.
Qed.

Lemma push_session_ok rcd t :
  tracer_ok t → ∃ t', push_session rcd t = Return t' ∧ tracer_ok t'.
Proof.
  intros Hok. destruct (evict_ok t Hok) as (t1 & Ht1 & [H1 H2 H3 H4 H5 H6] & Hlen & Hc & _ & _ & _).
  unfold push_session. rewrite Ht1. simpl. eexists; split; [done|].
  assert (next t1 ∉ lru t1) as Hfresh by (intros Hin; apply H2, H3 in Hin; lia).
  split; simpl.
  - by constructor.
  - intros e [->|He]%elem_of_cons; [by rewrite lookup_insert_eq|].
    rewrite lookup_insert_is_Some'. auto.
  - intros e [->|[s Hs]]%lookup_insert_is_Some'; [lia|]. pose proof (H3 e (ex_intro _ s Hs)). lia.
  - intros u e [[<- <-]|[Hu Hl]]%lookup_insert_Some.
    + split; [set_solver|by rewrite lookup_insert_eq].
    + destruct (H4 u e Hl) as [? ?]. split; [set_solver|].
      rewrite lookup_insert_ne; [done|]. intros <-. done.
  - lia.
  - lia.
Qed.

Lemma read_Handle_ok u t : tracer_ok t → tracer_ok (read_Handle u t).1.
Proof.
  intros Hok. pose proof Hok as [H1 H2 H3 H4 H5 H6]. unfold read_Handle. case_decide.
  { split; simpl; try done; [constructor|set_solver|lia]. }
  unfold take_session. destruct (lut t !! u) as [e|] eqn:Hu; [|done].
  destruct (H4 u e Hu) as [He Hs]. split; simpl; try done.
  - by apply NoDup_filter.
  - intros x [_ ?]%list_elem_of_filter. auto.
  - intros v x [Hv Hl]%lookup_delete_Some. destruct (H4 v x Hl) as [? Hx]. split; [|done].
    apply list_elem_of_filter. split; [|done]. intros ->. by simplify_eq.
  - pose proof (length_filter_ne e (lru t) H1 He). lia.
Qed.

Lemma handler_step_ok h t :
  tracer_ok t → ∃ h' t', handler_step h t = Return (h', t') ∧ tracer_ok t'.
Proof.
  intros Hok. destruct h as [rcd|rcd e|e|rcd|u|]; simpl.
  - destruct (find_session rcd t); eauto.
  - eauto using append_record_ok.
  - eauto using move_to_front_ok.
  - destruct (push_session_ok rcd t Hok) as (t' & -> & ?). simpl. eauto.
  - eauto using read_Handle_ok.
  - eauto.
Qed.

Lemma world_step_ok w w' : tracer_ok (tracer w) → world_step w w' → tracer_ok (tracer w').
Proof.
  intros Hok Hs. destruct Hs as [i w h h' t' _ Hh|w h _]; simpl; [|done].
  destruct (handler_step_ok h (tracer w) Hok) as (h2 & t2 & Hh2 & ?).
  rewrite Hh2 in Hh. by injection Hh as <- <-.
Qed.

(** ** Refinement of the abstract tracer *)

Definition session_of (t : messageTracer) (e : element) : tracingSession :=
  default (mkSession (mkUuidInfo 0 0) []) (sessions t !! e).

Definition abs_session (t : messageTracer) (e : element) : uuidInfo * list tracedMessageRecord :=
  (ts_tracingID (session_of t e), ts_records (session_of t e)).

Definition abstract (t : messageTracer) : spec_tracer := abs_session t <$> lru t.

Lemma lut_session_of t u e : tracer_ok t → lut t !! u = Some e → ts_tracingID (session_of t e) = u.
Proof.
  intros Hok He. destruct (ok_lut t Hok u e He) as [_ Hs]. unfold session_of.
  by apply fmap_Some in Hs as (s & -> & ->).
Qed.

Lemma indexed_iff t u e :
  tracer_ok t → tracer_indexed t → e ∈ lru t →
  ts_tracingID (session_of t e) = u ↔ lut t !! u = Some e.
Proof.
  intros Hok Hi He. split; [|by apply lut_session_of].
  destruct (ok_session t Hok e He) as [s Hs]. unfold session_of. rewrite Hs. intros <-. by apply Hi.
Qed.

Lemma abstract_NoDup t : tracer_ok t → tracer_indexed t → NoDup (abstract t).*1.
Proof.
  intros Hok Hi. unfold abstract. rewrite <- list_fmap_compose.
  pose proof (ok_NoDup t Hok) as Hnd.
  assert (∀ e, e ∈ lru t → e ∈ lru t) as Hsub by done. revert Hsub Hnd.
  generalize (lru t) at 1 3 4 as l. intros l Hsub.
  induction 1 as [|e l He Hl IH]; simpl; constructor; [|apply IH; set_solver].
  intros (x & Hx & Hin)%list_elem_of_fmap. simpl in Hx.
  assert (lut t !! ts_tracingID (session_of t e) = Some e) as H1 by (apply indexed_iff; set_solver).
  assert (lut t !! ts_tracingID (session_of t x) = Some x) as H2 by (apply indexed_iff; set_solver).
  rewrite Hx, H2 in H1. by injection H1 as ->.
Qed.

Lemma spec_find_abstract t u :
  tracer_ok t → tracer_indexed t →
  spec_find u (abstract t) = (λ e, ts_records (session_of t e)) <$> lut t !! u.
Proof.
  intros Hok Hi. unfold spec_find. destruct (lut t !! u) as [e|] eqn:Hu; simpl.
  - apply elem_of_list_to_map_1; [by apply abstract_NoDup|]. apply list_elem_of_fmap. exists e.
    split; [|by apply (ok_lut t Hok u e)]. unfold abs_session. by rewrite (lut_session_of t u e).
  - apply not_elem_of_list_to_map_1. intros (p & -> & Hp)%list_elem_of_fmap.
    apply list_elem_of_fmap in Hp as (e & -> & He). simpl in Hu.
    by rewrite (proj1 (indexed_iff t _ e Hok Hi He) eq_refl) in Hu.
Qed.

Lemma filter_map_ext {A B} (f : A → B) (P : B → Prop) (Q : A → Prop)
  `{!∀ x, Decision (P x), !∀ x, Decision (Q x)} (l : list A) :
  (∀ x, x ∈ l → P (f x) ↔ Q x) → filter P (f <$> l) = f <$> filter Q l.
Proof.
  induction l as [|x l IH]; intros Hf; [done|]. rewrite fmap_cons.
  destruct (decide (Q x)) as [HQ|HQ].
  - rewrite !filter_cons_True; [|done|apply Hf; [set_solver|done]]. rewrite fmap_cons. f_equal.
    apply IH. set_solver.
  - rewrite !filter_cons_False; [|done|rewrite Hf; [done|set_solver]]. apply IH. set_solver.
Qed.

(** Removing a session from the abstract tracer removes its element. *)
Lemma spec_others_abstract t u e :
  tracer_ok t → tracer_indexed t → lut t !! u = Some e →
  spec_others u (abstract t) = abs_session t <$> filter (λ x, x ≠ e) (lru t).
Proof.
  intros Hok Hi He. apply filter_map_ext. intros x Hx. simpl.
  rewrite (indexed_iff t u x Hok Hi Hx). rewrite He. naive_solver.
Qed.

Lemma spec_others_missing t u :
  tracer_ok t → tracer_indexed t → lut t !! u = None → spec_others u (abstract t) = abstract t.
Proof.
  intros Hok Hi He. unfold spec_others, abstract. rewrite (filter_map_ext _ _ (λ _, True)).
  - f_equal. induction (lru t) as [|x l IH]; [done|]. rewrite filter_cons_True; [by f_equal|done].
  - intros x Hx. simpl. rewrite (indexed_iff t u x Hok Hi Hx), He. naive_solver.
Qed.

Lemma abs_session_append rcd e t x :
  is_Some (sessions t !! e) →
  abs_session (append_record rcd e t) x =
  if decide (x = e) then (ts_tracingID (session_of t e), ts_records (session_of t e) ++ [rcd])
  else abs_session t x.
Proof.
  intros [s Hs]. unfold abs_session, session_of. simpl. rewrite lookup_alter.
  case_decide; subst; [rewrite decide_True, Hs by done|rewrite decide_False by done]; done.
Qed.

Lemma record_found_refines rcd e t :
  tracer_ok t → tracer_indexed t → lut t !! rcd_tracingID rcd = Some e →
  let t' := move_to_front e (append_record rcd e t) in
  tracer_indexed t' ∧ abstract t' = spec_add (cap t) rcd (abstract t).
Proof.
  intros Hok Hi He. destruct (ok_lut t Hok _ e He) as [Hin Hs].
  assert (is_Some (sessions t !! e)) as Hse by (by apply (ok_session t Hok)).
  split.
  - intros x s. simpl. rewrite (MoveToFront_perm e (lru t)) by apply Hok. intros Hx.
    rewrite lookup_alter. case_decide as Hxe; subst; [|by apply Hi].
    intros (s' & Hs' & ->)%fmap_Some. simpl. by apply Hi.
  - unfold spec_add. rewrite spec_find_abstract, He by done. simpl.
    rewrite (spec_others_abstract t _ e) by done.
    unfold abstract; simpl. unfold MoveToFront. rewrite bool_decide_eq_true_2 by done. simpl. f_equal.
    + change (abs_session (append_record rcd e t) e = (rcd_tracingID rcd, ts_records (session_of t e) ++ [rcd])).
      rewrite abs_session_append, decide_True by done. by rewrite (lut_session_of t (rcd_tracingID rcd) e).
    + apply list_fmap_ext. intros i x Hx.
      assert (x ∈ filter (λ x, x ≠ e) (lru t)) as [Hne _]%list_elem_of_filter
        by (apply list_elem_of_lookup; eauto).
      change (abs_session (append_record rcd e t) x = abs_session t x).
      by rewrite abs_session_append, decide_False.
Qed.

Lemma filter_last {A} `{EqDecision A} (l : list A) o :
  NoDup l → last l = Some o → filter (λ x, x ≠ o) l = removelast l.
Proof.
  intros Hl (k & ->)%last_Some. rewrite removelast_last.
  apply NoDup_app in Hl as (_ & Hko & _).
  rewrite filter_app, filter_cons_False, filter_nil, app_nil_r by naive_solver.
  assert (o ∉ k) as Ho by (intros Hin; apply (Hko o Hin); set_solver). clear Hko.
  induction k as [|y k IH]; [done|]. rewrite filter_cons_True by set_solver. f_equal. set_solver.
Qed.

Lemma removelast_fmap {A B} (f : A → B) l : removelast (f <$> l) = f <$> removelast l.
Proof. induction l as [|x [|y l] IH]; [done|done|]. simpl in *. by f_equal. Qed.

Lemma evict_refines t t' :
  tracer_ok t → tracer_indexed t → evict t = Return t' →
  tracer_indexed t' ∧
  abstract t' = (if decide (cap t ≤ length (abstract t)) then removelast (abstract t) else abstract t).
Proof.
  intros Hok Hi. unfold evict. assert (length (abstract t) = length (lru t)) as -> by apply length_fmap.
  case_decide as Hfull; [|by intros [= <-]].
  destruct (last (lru t)) as [o|] eqn:Ho; [|done].
  destruct (sessions t !! o) as [s|] eqn:Hs; [|done]. intros [= <-]. split.
  - intros e s' [Hne He]%list_elem_of_filter Hs'. simpl in *. rewrite lookup_delete_ne; [by apply Hi|].
    intros Heq. apply Hne. apply last_elem_of in Ho.
    pose proof (Hi e s' He Hs') as H1. rewrite <- Heq, (Hi o s Ho Hs) in H1. by injection H1.
  - unfold abstract; simpl. rewrite filter_last by (done || apply Hok). symmetry.
    apply (removelast_fmap (abs_session t)).
Qed.

Lemma evict_lut t t' u : evict t = Return t' → lut t !! u = None → lut t' !! u = None.
Proof.
  unfold evict. intros H Hu. repeat case_match; try done; injection H as <-; simpl;
    rewrite ?lookup_delete; try destruct (decide (_ = u)); done.
Qed.

Lemma record_missing_refines rcd t :
  tracer_ok t → tracer_indexed t → lut t !! rcd_tracingID rcd = None →
  ∃ t', push_session rcd t = Return t' ∧ tracer_ok t' ∧ tracer_indexed t' ∧ cap t' = cap t ∧
    abstract t' = spec_add (cap t) rcd (abstract t).
Proof.
  intros Hok Hi Hu. destruct (push_session_ok rcd t Hok) as (t' & Ht' & Hok').
  exists t'. split_and!; [done|done|..]; revert Ht'; unfold push_session;
    destruct (evict_ok t Hok) as (t1 & Ht1 & Hok1 & _ & Hc & _ & Hnext & Hsub); rewrite Ht1;
    destruct (evict_refines t t1 Hok Hi Ht1) as [Hi1 Ha]; intros [= <-].
  - intros e s. simpl. intros [->|He]%elem_of_cons.
    + rewrite lookup_insert_eq. intros [= <-]. by rewrite lookup_insert_eq.
    + assert (next t1 ≠ e) by (intros <-; apply (ok_session t1 Hok1), (ok_fresh t1 Hok1) in He; lia).
      rewrite lookup_insert_ne by done. intros Hs.
      pose proof (evict_lut t t1 _ Ht1 Hu) as Hu1.
      rewrite lookup_insert_ne; [by apply Hi1|]. intros Heq.
      pose proof (Hi1 e s He Hs) as He'. rewrite <- Heq in He'. congruence.
  - done.
  - unfold spec_add. rewrite spec_find_abstract, Hu by done. simpl. rewrite <- Ha.
    unfold abstract; simpl. f_equal.
    + unfold abs_session, session_of; simpl. by rewrite lookup_insert_eq.
    + apply list_fmap_ext. intros i x Hx%list_elem_of_lookup_2.
      assert (next t1 ≠ x) by (intros <-; apply (ok_session t1 Hok1), (ok_fresh t1 Hok1) in Hx; lia).
      unfold abs_session, session_of; simpl. by rewrite lookup_insert_ne.
Qed.

Lemma record_refines rcd t :
  tracer_ok t → tracer_indexed t →
  ∃ t', record_Handle rcd t = Return t' ∧ tracer_ok t' ∧ tracer_indexed t' ∧ cap t' = cap t ∧
    abstract t' = spec_add (cap t) rcd (abstract t).
Proof.
  intros Hok Hi. unfold record_Handle, find_session.
  destruct (lut t !! rcd_tracingID rcd) as [e|] eqn:Hu; [|by apply record_missing_refines].
  destruct (record_found_refines rcd e t Hok Hi Hu) as [? ?].
  eexists; split_and!; [done|by apply move_to_front_ok, append_record_ok|done..].
Qed.

Lemma records_of_session t e : records_of t e = ts_records (session_of t e).
Proof. unfold records_of, session_of. by destruct (sessions t !! e). Qed.

Lemma abs_session_records t l : (abs_session t <$> l) ≫= snd = l ≫= records_of t.
Proof.
  induction l as [|e l IH]; [done|]. rewrite fmap_cons, !bind_cons, IH. f_equal.
  symmetry. apply records_of_session.
Qed.

Lemma read_refines u t :
  tracer_ok t → tracer_indexed t →
  let '(t', rcds) := read_Handle u t in
  tracer_ok t' ∧ tracer_indexed t' ∧ cap t' = cap t ∧
  (abstract t', rcds) = spec_read u (abstract t).
Proof.
  intros Hok Hi. destruct (read_Handle u t) as [t' rcds] eqn:E.
  pose proof (read_Handle_ok u t Hok) as Hok'. rewrite E in Hok'. simpl in Hok'. split; [done|].
  revert E. unfold read_Handle, spec_read. case_decide as Hz.
  - intros [= <- <-]. split_and!; [intros e s; simpl; set_solver|done|].
    unfold abstract. by rewrite abs_session_records.
  - unfold take_session. rewrite spec_find_abstract by done.
    destruct (lut t !! u) as [e|] eqn:Hu; intros [= <- <-]; simpl.
    + split_and!; [|done|].
      * intros x s [Hne Hx]%list_elem_of_filter Hs. simpl in *.
        rewrite lookup_delete_ne; [by apply Hi|]. intros ->.
        rewrite (Hi x s Hx Hs) in Hu. by injection Hu.
      * rewrite (spec_others_abstract t u e) by done. unfold abstract; simpl. f_equal.
        unfold records_of, session_of; simpl. by destruct (sessions t !! e).
    + split_and!; [done|done|]. by rewrite spec_others_missing.
Qed.

Lemma tracer_run_refines ops t :
  tracer_ok t → tracer_indexed t →
  ∃ t', tracer_run ops t = Return (t', (spec_tracer_run (cap t) ops (abstract t)).2) ∧
    abstract t' = (spec_tracer_run (cap t) ops (abstract t)).1 ∧ tracer_ok t'.
Proof.
  revert t; induction ops as [|[rcd|u] ops IH]; intros t Hok Hi; simpl.
  - eauto.
  - destruct (record_refines rcd t Hok Hi) as (t1 & -> & Hok1 & Hi1 & Hc & Ha). simpl.
    destruct (IH t1 Hok1 Hi1) as (t2 & Ht2 & ? & ?). rewrite Hc, Ha in *. eauto.
  - pose proof (read_refines u t Hok Hi) as Hr. destruct (read_Handle u t) as [t1 rcds].
    destruct Hr as (Hok1 & Hi1 & Hc & Ha). destruct (IH t1 Hok1 Hi1) as (t2 & Ht2 & Ha2 & ?).
    rewrite <- Ha, Ht2. rewrite Hc in *. simpl. exists t2.
    destruct (spec_tracer_run (cap t) ops (abstract t1)); simpl in *. auto.
Qed.

Lemma handler_step_cap h t h' t' : handler_step h t = Return (h', t') → cap t' = cap t.
Proof.
  destruct h as [rcd|rcd e|e|rcd|u|]; simpl.
  - by case_match; intros [= <- <-].
  - by intros [= <- <-].
  - by intros [= <- <-].
  - unfold push_session, evict. repeat case_match; simpl; try done; by intros [= <- <-].
  - unfold read_Handle, take_all, take_session. repeat case_match; by intros [= <- <-]; simplify_eq/=.
  - by intros [= <- <-].
Qed.

Lemma reachable_ok n w :
  0 < n → rtc world_step (mkWorld (newMessageTracer n) []) w →
  tracer_ok (tracer w) ∧ cap (tracer w) = n.
Proof.
  intros Hn. apply (rtc_invariant world_step (λ w, tracer_ok (tracer w) ∧ cap (tracer w) = n)).
  - intros w1 w2 [Hok Hc] Hs. split; [by eapply world_step_ok|].
    destruct Hs as [i w0 h h' t' _ Hh|w0 h _]; simpl in *; [|done].
    by rewrite (handler_step_cap _ _ _ _ Hh).
  - split; [by apply newMessageTracer_ok|done].
Qed.

(** ** Properties *)

(** C26. Refinement: run one after the other from an empty tracer of positive
    capacity, the handlers never panic, and every read replies with what the
    abstract tracer replies: records are grouped by tracing ID in arrival order,
    a session moves to the front when written, the session written longest ago
    is the one dropped when a new one does not fit, a read takes the session
    out, and a read of the zero UUID takes everything, newest session first. *)
Theorem tracer_refines_lru (n : nat) (ops : list tracer_op) :
  0 < n →
  ∃ t, tracer_run ops (newMessageTracer n) = Return (t, (spec_tracer_run n ops []).2) ∧
       abstract t = (spec_tracer_run n ops []).1.
Proof.
  intros Hn. destruct (tracer_run_refines ops (newMessageTracer n)) as (t & Ht & Ha & _);
    [by apply newMessageTracer_ok|intros e s; simpl; set_solver|]. eauto.
Qed.

Definition demo_record (u : Z) (msg : string) : tracedMessageRecord :=
  mkRecord 0 (str msg) (mkUuidInfo u 0) (str "client send") [].

Definition demo_ops : list tracer_op :=
  [OpRecord (demo_record 1 "a"); OpRecord (demo_record 2 "b"); OpRecord (demo_record 1 "c");
   OpRecord (demo_record 3 "d"); OpRead (mkUuidInfo 2 0); OpRead (mkUuidInfo 1 0);
   OpRead (mkUuidInfo 0 0)].

(** With room for two sessions the third one pushes out session 2. *)
Example demo_replies :
  (λ '(_, replies), replies) <$> tracer_run demo_ops (newMessageTracer 2) =
  Return [[]; [demo_record 1 "a"; demo_record 1 "c"]; [demo_record 3 "d"]].
Proof. by_compute. Qed.

Lemma tracer_refines_lru_witness :
  0 < 2 ∧
  ∃ t, tracer_run demo_ops (newMessageTracer 2) = Return (t, (spec_tracer_run 2 demo_ops []).2) ∧
       abstract t = (spec_tracer_run 2 demo_ops []).1.
Proof. split; [lia|]. apply (tracer_refines_lru 2 demo_ops). lia. Defined.

(** Under any interleaving of the critical sections of any number of
    handlers, the tracer keeps at most [n] sessions, the list never holds an
    element twice, every entry of the index leads to a listed session of that
    tracing ID, and no critical section panics. *)
Theorem tracer_safe_under_interleaving (n : nat) (w : world) (h : handler) :
  0 < n → rtc world_step (mkWorld (newMessageTracer n) []) w →
  length (lru (tracer w)) ≤ n ∧ NoDup (lru (tracer w)) ∧
  (∀ u e, lut (tracer w) !! u = Some e →
     e ∈ lru (tracer w) ∧ ts_tracingID <$> sessions (tracer w) !! e = Some u) ∧
  (∃ h' t', handler_step h (tracer w) = Return (h', t')).
Proof.
  intros Hn Hw. destruct (reachable_ok n w Hn Hw) as [Hok Hc].
  destruct (handler_step_ok h _ Hok) as (h' & t' & Hs & _).
  split_and!; [rewrite <- Hc; apply Hok|apply Hok|apply Hok|eauto].
Qed.

Definition race_world (n : nat) (rcd1 rcd2 : tracedMessageRecord) : world :=
  mkWorld (mkTracer n [1; 0] (<[rcd_tracingID rcd2 := 1]> (<[rcd_tracingID rcd1 := 0]> ∅))
             (<[1 := mkSession (rcd_tracingID rcd2) [rcd2]]>
               (<[0 := mkSession (rcd_tracingID rcd1) [rcd1]]> ∅)) 2)
    [HDone; HDone].

(** Two handlers both find no session before either of them pushes one. *)
Lemma race_reachable n rcd1 rcd2 :
  2 ≤ n → rcd_tracingID rcd1 = rcd_tracingID rcd2 →
  rtc world_step (mkWorld (newMessageTracer n) []) (race_world n rcd1 rcd2).
Proof.
  intros Hn Hu. eapply rtc_l; [apply (step_arrival _ (HStart rcd1)); eauto|].
  eapply rtc_l; [apply (step_arrival _ (HStart rcd2)); eauto|].
  simpl. eapply rtc_l; [by eapply (step_handler 0)|]. eapply rtc_l; [by eapply (step_handler 1)|]. simpl.
  assert (∀ rcd t, length (lru t) < cap t → push_session rcd t =
    Return (mkTracer (cap t) (next t :: lru t) (<[rcd_tracingID rcd := next t]> (lut t))
            (<[next t := mkSession (rcd_tracingID rcd) [rcd]]> (sessions t)) (S (next t)))) as Hpush.
  { intros rcd t Ht. unfold push_session, evict. rewrite decide_False by lia. done. }
  eapply rtc_l; [eapply (step_handler 0); [done|]; simpl; rewrite Hpush by (simpl; lia); done|]. simpl.
  eapply rtc_l; [eapply (step_handler 1); [done|]; simpl; rewrite Hpush by (simpl; lia); done|]. done.
Qed.

(** The check for a session and its creation are separate critical
    sections: the first two records of a tracing ID, handled concurrently, can
    end up in two sessions.  The read of that ID then returns only one of the
    records, and a second read returns nothing although the other record is
    still stored. *)
Theorem concurrent_first_records_split (n : nat) (rcd1 rcd2 : tracedMessageRecord) :
  2 ≤ n → rcd_tracingID rcd1 = rcd_tracingID rcd2 → id (rcd_tracingID rcd1) ≠ 0%Z →
  ∃ w, rtc world_step (mkWorld (newMessageTracer n) []) w ∧ handlers w = [HDone; HDone] ∧
    let '(t1, reply1) := read_Handle (rcd_tracingID rcd1) (tracer w) in
    let '(t2, reply2) := read_Handle (rcd_tracingID rcd1) t1 in
    reply1 = [rcd2] ∧ reply2 = [] ∧ abstract t2 = [(rcd_tracingID rcd1, [rcd1])].
Proof.
  intros Hn Hu Hz. exists (race_world n rcd1 rcd2). split; [by apply race_reachable|]. split; [done|].
  rewrite Hu in *. unfold read_Handle, take_session. rewrite decide_False by done. simpl.
  rewrite Hu, lookup_insert_eq. rewrite decide_False by done. simpl.
  rewrite lookup_delete_eq. split_and!; done.
Qed.

Lemma concurrent_first_records_split_witness :
  let rcd1 := demo_record 1 "a" in
  let rcd2 := demo_record 1 "b" in
  ∃ w, rtc world_step (mkWorld (newMessageTracer MaxTracingSessions) []) w ∧
    handlers w = [HDone; HDone] ∧
    let '(t1, reply1) := read_Handle (rcd_tracingID rcd1) (tracer w) in
    let '(t2, reply2) := read_Handle (rcd_tracingID rcd1) t1 in
    reply1 = [rcd2] ∧ reply2 = [] ∧ abstract t2 = [(rcd_tracingID rcd1, [rcd1])].
Proof.
  apply (concurrent_first_records_split MaxTracingSessions (demo_record 1 "a") (demo_record 1 "b"));
    [unfold MaxTracingSessions; lia|done|done].
Defined.

Lemma tracer_safe_under_interleaving_witness :
  let w := race_world 2 (demo_record 1 "a") (demo_record 1 "b") in
  length (lru (tracer w)) ≤ 2 ∧ NoDup (lru (tracer w)) ∧
  (∀ u e, lut (tracer w) !! u = Some e →
     e ∈ lru (tracer w) ∧ ts_tracingID <$> sessions (tracer w) !! e = Some u) ∧
  (∃ h' t', handler_step (HMissing (demo_record 2 "c")) (tracer w) = Return (h', t')).
Proof.
  apply (tracer_safe_under_interleaving 2 (race_world 2 (demo_record 1 "a") (demo_record 1 "b"))
           (HMissing (demo_record 2 "c"))); [lia|by apply race_reachable; [lia|]].
Defined.
