(* ===== verification/Tracing.v ===== *)
(** Choosing the messages to trace (messagetracing.go): the table of traced
    types, the tokens given to the user, and the tracing ID a message gets when
    it is sent.  The type registry is that of adaptiveservice.go. *)
From S2P Require Import Prelude GoStrings Wildcard Names MessageTracer.

(** ** Types and values, as far as reflection looks at them *)

(** A [reflect.Type]: a number of pointers to a named type of some kind; the
    fields are the names [FieldByName] resolves when it is a struct. *)
Record gotype := mkType {
  ptr_depth : nat;
  base_name : bytes;
  base_kind : bytes;
  base_fields : list bytes;
}.

#[export] Instance gotype_eq_dec : EqDecision gotype.
Proof. solve_decision. Defined.
#[export] Program Instance gotype_countable : Countable gotype :=
  inj_countable' (λ t, (ptr_depth t, base_name t, base_kind t, base_fields t))
    (λ '(d, n, k, f), mkType d n k f) _.
Next Obligation. by intros []. Qed.

(** [rtype.String()] *)
Definition type_String (t : gotype) : bytes := replicate (ptr_depth t) "*"%char ++ base_name t.

(** [rt.Elem()] of a pointer type *)
Definition type_Elem (t : gotype) : gotype := mkType (ptr_depth t - 1) (base_name t) (base_kind t) (base_fields t).

(** [rt.Kind()], by its name *)
Definition Kind (t : gotype) : bytes :=
  if bool_decide (0 < ptr_depth t) then str "ptr" else base_kind t.

Definition is_pointer (t : gotype) : bool := bool_decide (Kind t = str "ptr").
Definition is_struct (t : gotype) : bool := bool_decide (Kind t = str "struct").

(** A message in an interface value: its dynamic type, whether it is a nil
    pointer, and its fields as "%v" prints them *)
Record message := mkMessage {
  mtype : gotype;
  mnil : bool;
  mfields : list (bytes * bytes);
}.

(** [fmt.Sprintf("%v", rv.FieldByName(field))] *)
Definition print_field (m : message) (field : bytes) : bytes :=
  default (str "<invalid reflect.Value>")
    ((list_to_map (mfields m) : gmap bytes bytes) !! field).

(** ** The type registry *)

Abbreviation registry := (gmap bytes gotype).

(** [RegisterType]; [refuses] tells whether the encoder's [RegisterName], which
    is not code of the program, panics. *)
Definition RegisterType (refuses : bytes → gotype → bool) (rt : gotype) (name2Type : registry) :
    outcome registry :=
  let name := type_String rt in
  if bool_decide (is_Some (name2Type !! name)) then Return name2Type
  else if refuses name rt then Panics (str "gotiny")
  else Return (<[name := rt]> name2Type).

(** [RegisterTypeNoPanic] *)
Definition RegisterTypeNoPanic (refuses : bytes → gotype → bool) (rt : gotype)
    (name2Type : registry) : registry * option error :=
  match RegisterType refuses rt name2Type with
  | Return r => (r, None)
  | Panics w => (name2Type, Some (errorString w))
  end.

(** [GetAllMessageTypes] *)
Definition GetAllMessageTypes `{GoRange} (name2Type : registry) : list bytes := (range name2Type).*1.

(** [GetRegisteredTypeByName] *)
Definition GetRegisteredTypeByName (name : bytes) (name2Type : registry) : option gotype :=
  name2Type !! name.

(** ** The table of traced types *)

Record traceFilter := mkFilter { field : bytes; pattern : bytes }.

Record traceConf := mkConf {
  tc_id : Z;
  tc_count : Z;
  tc_seqNum : Z;
  tc_filters : list traceFilter;
}.

(** [tracedMsgList.types] *)
Abbreviation traced := (gmap gotype traceConf).

(** Arithmetic on [uint32] *)
Definition u32 (z : Z) : Z := z mod 2 ^ 32.

(** "field=pattern" *)
Definition parse_filter (fields : list bytes) (filter : bytes) : traceFilter + error :=
  match Split filter "="%char with
  | [field; pattern] =>
      if bool_decide (field ∈ fields) then inl (mkFilter field pattern)
      else inr (errorString (str "no field " ++ field ++ str " found"))
  | _ => inr (errorString (filter ++ str " format error"))
  end.

Fixpoint parse_filters (fields : list bytes) (filters : list bytes) : list traceFilter + error :=
  match filters with
  | [] => inl []
  | f :: filters =>
      match parse_filter fields f with
      | inr e => inr e
      | inl tf =>
          match parse_filters fields filters with
          | inl tfs => inl (tf :: tfs)
          | inr e => inr e
          end
      end
  end.

(** The filters of a call, checked against the type *)
Definition check_filters (rtype : gotype) (filters : list bytes) : list traceFilter + error :=
  if bool_decide (length filters = 0) then inl []
  else
    let rt := if is_pointer rtype then type_Elem rtype else rtype in
    if negb (is_struct rt) then inr (errorString (str "type " ++ Kind rt ++ str " not supported"))
    else parse_filters (base_fields rt) filters.

Section trace.
(** [uuid.UUID.String], of a third-party package *)
Context (uuid_String : Z → bytes).

(** The token built by the deferred function *)
Definition make_token (id count : Z) : bytes :=
  let idstr := uuid_String id in
  if bool_decide (count < 1)%Z then str "NA"
  else if bool_decide (count > 1)%Z then
    idstr ++ str ".0.." ++ utoa (Z.to_N (count - 1))
  else idstr ++ str ".0".

(** [TraceMsgByNameWithFilters]: the table after the call, and the token or the
    error.  [fresh] is the result of [uuid.NewRandom]. *)
Definition TraceMsgByNameWithFilters (name2Type : registry) (fresh : Z + error)
    (name : bytes) (count : Z) (filters : list bytes) (types : traced) :
    traced * (bytes + error) :=
  let count := if bool_decide (count > Z.of_nat MaxTracingSessions)%Z
               then Z.of_nat MaxTracingSessions else count in
  match GetRegisteredTypeByName name name2Type with
  | None => (types, inr (errorString (name ++ str " not traceable")))
  | Some rtype =>
      match check_filters rtype filters with
      | inr e => (types, inr e)
      | inl traceFilters =>
          if bool_decide (count < 1)%Z then (delete rtype types, inl (make_token 0 count))
          else
            match types !! rtype with
            | Some tc =>
                let count := if bool_decide (count < tc_seqNum tc)%Z
                             then u32 (tc_seqNum tc + 1) else count in
                (<[rtype := mkConf (tc_id tc) count (tc_seqNum tc) traceFilters]> types,
                 inl (make_token (tc_id tc) count))
            | None =>
                match fresh with
                | inr e => (types, inr e)
                | inl id => (<[rtype := mkConf id count 0 traceFilters]> types,
                             inl (make_token id count))
                end
            end
      end
  end.

(** [TraceMsgByName], [TraceMsgByType] and [TraceMsgByTypeWithFilters] *)
Definition TraceMsgByName name2Type fresh name count types :=
  TraceMsgByNameWithFilters name2Type fresh name count [] types.
Definition TraceMsgByType name2Type fresh (msg : message) count types :=
  TraceMsgByName name2Type fresh (type_String (mtype msg)) count types.
Definition TraceMsgByTypeWithFilters name2Type fresh (msg : message) count filters types :=
  TraceMsgByNameWithFilters name2Type fresh (type_String (mtype msg)) count filters types.
End trace.

(** [UnTraceMsgAll] *)
Definition UnTraceMsgAll (types : traced) : traced := ∅.

(** ** The tracing ID of a message *)

(** The filters of a configuration on a message *)
Definition filters_match (msg : message) (filters : list traceFilter) : bool :=
  if bool_decide (length filters = 0) then true
  else
    (* the value behind a pointer; the one behind a nil pointer is invalid *)
    let rt := if is_pointer (mtype msg) then type_Elem (mtype msg) else mtype msg in
    if is_pointer (mtype msg) && mnil msg then false
    else if negb (is_struct rt) then false
    else forallb (λ f, WildcardMatch (pattern f) (print_field msg (field f))) filters.

(** [getTracingID]: [rLocal] is the record of the goroutine, when the platform
    has goroutine-local storage. *)
Definition getTracingID (rLocal : option (option uuidInfo)) (msg : message) (types : traced) :
    option uuidInfo * traced :=
  match rLocal with
  | Some (Some tracingID) => (Some tracingID, types)
  | _ =>
      if bool_decide (types = ∅) then (None, types)
      else
        match types !! mtype msg with
        | None => (None, types)
        | Some tc =>
            if bool_decide (tc_seqNum tc >= tc_count tc)%Z then (None, delete (mtype msg) types)
            else if filters_match msg (tc_filters tc) then
              (Some (mkUuidInfo (tc_id tc) (tc_seqNum tc)),
               <[mtype msg := mkConf (tc_id tc) (tc_count tc) (u32 (tc_seqNum tc + 1)) (tc_filters tc)]> types)
            else (None, types)
        end
  end.

#[global] Arguments getTracingID : simpl never.

(** A client sends messages one after the other, outside of any handler. *)
Fixpoint send_all (msgs : list message) (types : traced) : list (option uuidInfo) * traced :=
  match msgs with
  | [] => ([], types)
  | msg :: msgs =>
      let '(tid, types) := getTracingID (Some None) msg types in
      let '(tids, types) := send_all msgs types in (tid :: tids, types)
  end.

(** ** Reading: the token of [ReadTracedMsg] *)

Definition parse_token (uuid_Parse : bytes → option Z) (token : bytes) : uuidInfo + error :=
  match Split token "."%char with
  | [uuid; seq] =>
      match uuid_Parse uuid with
      | None => inr (errorString (str "parse UUID error"))
      | Some id =>
          match ParseUint32 seq with
          | None => inr (errorString (str "parse sequence number error"))
          | Some n => inl (mkUuidInfo id (Z.of_N n))
          end
      end
  | _ => inr (errorString (token ++ str " format error"))
  end.

(** ** Concurrent senders

    [getTracingID] reads the configuration under the lock, and reads and bumps
    its sequence number after releasing it.  [SCheck] has not taken the lock yet,
    [SChosen] holds the configuration, [SRead] has built its ID and not yet
    added one to the sequence number. *)
Inductive sender :=
| SCheck
| SChosen
| SRead (s : Z)
| SDone (s : option Z).

Record senders := mkSenders { conf_count : Z; conf_seqNum : Z; threads : list sender }.

Inductive sender_step : senders → senders → Prop :=
| sender_check i w :
    threads w !! i = Some SCheck →
    sender_step w (mkSenders (conf_count w) (conf_seqNum w)
      (<[i := if bool_decide (conf_seqNum w >= conf_count w)%Z then SDone None else SChosen]> (threads w)))
| sender_read i w :
    threads w !! i = Some SChosen →
    sender_step w (mkSenders (conf_count w) (conf_seqNum w) (<[i := SRead (conf_seqNum w)]> (threads w)))
| sender_add i s w :
    threads w !! i = Some (SRead s) →
    sender_step w (mkSenders (conf_count w) (u32 (conf_seqNum w + 1)) (<[i := SDone (Some s)]> (threads w))).

(** ** Lemmas *)

(** The IDs given to the messages of a type *)
Definition ids_of_type (t : gotype) (msgs : list message) (tids : list (option uuidInfo)) :
    list (option uuidInfo) :=
  (filter (λ p, mtype p.1 = t) (zip msgs tids)).*2.

(** After [i] traced messages of type [t] *)
Definition progress (t : gotype) (u count i : Z) (types : traced) : Prop :=
  (types !! t = Some (mkConf u count i []) ∧ (0 ≤ i ≤ count)%Z) ∨
  (types !! t = None ∧ (count ≤ i)%Z).

Definition expected_id (u count i : Z) : option uuidInfo :=
  if bool_decide (i < count)%Z then Some (mkUuidInfo u i) else None.

Lemma getTracingID_other t msg types :
  mtype msg ≠ t → (getTracingID (Some None) msg types).2 !! t = types !! t.
Proof. intros Hne. unfold getTracingID. repeat case_match; simpl; by simplify_map_eq. Qed.

Lemma getTracingID_same t u count i msg types :
  (count < 2 ^ 32)%Z → mtype msg = t → progress t u count i types →
  (getTracingID (Some None) msg types).1 = expected_id u count i ∧
  progress t u count (i + 1) (getTracingID (Some None) msg types).2.
Proof.
  intros Hc <- Hp. unfold getTracingID, expected_id. case_bool_decide as He.
  { subst. destruct Hp as [[Hl _]|[_ ?]]; [by rewrite lookup_empty in Hl|]. simpl.
    rewrite bool_decide_eq_false_2 by lia. split; [done|]. right. split; [done|lia]. }
  destruct Hp as [[Hl Hi]|[Hl Hi]]; rewrite Hl; simpl.
  - destruct (decide (i < count)%Z).
    + rewrite bool_decide_eq_false_2, bool_decide_eq_true_2 by lia. simpl. split; [done|].
      left. rewrite lookup_insert_eq. split; [|lia]. unfold u32. by rewrite Z.mod_small by lia.
    + rewrite bool_decide_eq_true_2, bool_decide_eq_false_2 by lia. simpl. split; [done|].
      right. rewrite lookup_delete_eq. split; [done|lia].
  - rewrite bool_decide_eq_false_2 by lia. split; [done|]. right. split; [done|lia].
Qed.

Lemma send_all_ids t u count i msgs types :
  (count < 2 ^ 32)%Z → progress t u count i types →
  let '(tids, types') := send_all msgs types in
  let n := Z.of_nat (length (filter (λ m, mtype m = t) msgs)) in
  ids_of_type t msgs tids = expected_id u count <$> seqZ i n ∧ progress t u count (i + n) types'.
Proof.
  intros Hc. revert i types; induction msgs as [|msg msgs IH]; intros i types Hp; simpl.
  { by rewrite Z.add_0_r. }
  destruct (getTracingID (Some None) msg types) as [tid types1] eqn:Hg.
  specialize (IH (if decide (mtype msg = t) then i + 1 else i)%Z types1).
  destruct (send_all msgs types1) as [tids types2]. unfold ids_of_type in *. simpl.
  destruct (decide (mtype msg = t)) as [Ht|Ht].
  - rewrite !filter_cons_True by done.
    destruct (getTracingID_same t u count i msg types Hc Ht Hp) as [H1 H2]. rewrite Hg in H1, H2.
    simpl in H1, H2. destruct (IH H2) as [IH1 IH2]. cbn [length].
    rewrite Nat2Z.inj_succ, seqZ_cons by lia. rewrite !fmap_cons, IH1. split.
    + by rewrite Z.pred_succ, <- H1, Z.add_1_r.
    + by replace (i + Z.succ _)%Z with (i + 1 + Z.of_nat (length (filter (λ m, mtype m = t) msgs)))%Z by lia.
  - rewrite !filter_cons_False by done. apply IH.
    pose proof (getTracingID_other t msg types Ht) as Hl. rewrite Hg in Hl. simpl in Hl.
    unfold progress. by rewrite Hl.
Qed.

(** A call on a registered type without filters, when the type is traced or not *)
Lemma trace_call (uuid_String : Z → bytes) name2Type fresh name t count types :
  GetRegisteredTypeByName name name2Type = Some t → (1 ≤ count ≤ Z.of_nat MaxTracingSessions)%Z →
  TraceMsgByName uuid_String name2Type fresh name count types =
  match types !! t with
  | Some tc =>
      let count := if bool_decide (count < tc_seqNum tc)%Z then u32 (tc_seqNum tc + 1) else count in
      (<[t := mkConf (tc_id tc) count (tc_seqNum tc) []]> types, inl (make_token uuid_String (tc_id tc) count))
  | None =>
      match fresh with
      | inr e => (types, inr e)
      | inl u => (<[t := mkConf u count 0 []]> types, inl (make_token uuid_String u count))
      end
  end.
Proof.
  intros Ht Hc. unfold TraceMsgByName, TraceMsgByNameWithFilters. rewrite Ht.
  rewrite (bool_decide_eq_false_2 (count > _)%Z) by lia. simpl.
  by rewrite bool_decide_eq_false_2 by lia.
Qed.

Lemma MaxTracingSessions_u32 : (Z.of_nat MaxTracingSessions < 2 ^ 32)%Z.
Proof. by_compute. Qed.

Lemma expected_none u count i n :
  (count ≤ i)%Z → Forall (λ x, x = None) (expected_id u count <$> seqZ i n).
Proof.
  intros Hi. apply Forall_fmap, Forall_seqZ. intros j Hj. unfold expected_id; simpl.
  by rewrite bool_decide_eq_false_2 by lia.
Qed.

Lemma Split_free_app s c k : c ∉ s → c ∉ k → Split (s ++ c :: k) c = [s; k].
Proof. intros. by rewrite Split_app, Split_fresh. Qed.

Lemma senders_race : rtc sender_step (mkSenders 1 0 [SCheck; SCheck]) (mkSenders 1 2 [SDone (Some 0%Z); SDone (Some 0%Z)]).
Proof.
  eapply rtc_l; [by apply (sender_check 0)|]. eapply rtc_l; [by apply (sender_check 1)|]. simpl.
  eapply rtc_l; [by apply (sender_read 0)|]. eapply rtc_l; [by apply (sender_read 1)|]. simpl.
  eapply rtc_l; [by apply (sender_add 0 0)|]. eapply rtc_l; [by apply (sender_add 1 0)|]. done.
Qed.

(** ** Properties *)

(** C32. After a call for [count] messages of a registered type that is not being
    traced, whatever messages of that and other types are sent next, the first
    [count] messages of the type get the IDs [count] distinct sequence numbers
    0, 1, ... under the new UUID, in order, and the later ones get none. *)
Theorem traces_exactly_count (uuid_String : Z → bytes) name2Type name t u count types msgs :
  GetRegisteredTypeByName name name2Type = Some t → types !! t = None →
  (1 ≤ count ≤ Z.of_nat MaxTracingSessions)%Z →
  let '(types1, result) := TraceMsgByName uuid_String name2Type (inl u) name count types in
  result = inl (make_token uuid_String u count) ∧
  ids_of_type t msgs (send_all msgs types1).1 =
    (λ i, if bool_decide (i < count)%Z then Some (mkUuidInfo u i) else None) <$>
      seqZ 0 (Z.of_nat (length (filter (λ m, mtype m = t) msgs))).
Proof.
  intros Ht Hn Hc. rewrite (trace_call _ _ _ _ t) by done. rewrite Hn. split; [done|].
  pose proof MaxTracingSessions_u32.
  pose proof (send_all_ids t u count 0 msgs (<[t := mkConf u count 0 []]> types)) as Hs.
  destruct (send_all msgs _) as [tids types']; simpl.
  apply Hs; [lia|]. left. rewrite lookup_insert_eq. split; [done|lia].
Qed.

Definition demo_type : gotype := mkType 1 (str "msg.Ping") (str "struct") [str "Who"].
Definition demo_msg (who : string) : message := mkMessage demo_type false [(str "Who", str who)].
Definition demo_types : registry := {[ str "*msg.Ping" := demo_type ]}.
Definition demo_uuid (u : Z) : bytes := str "30180061-1044-4b9e-a8ee-174806afe058".

Lemma traces_exactly_count_witness :
  let msgs := [demo_msg "a"; demo_msg "b"; demo_msg "c"] in
  let '(types1, result) := TraceMsgByName demo_uuid demo_types (inl 7%Z) (str "*msg.Ping") 2 ∅ in
  result = inl (make_token demo_uuid 7 2) ∧
  ids_of_type demo_type msgs (send_all msgs types1).1 =
    (λ i, if bool_decide (i < 2)%Z then Some (mkUuidInfo 7 i) else None) <$>
      seqZ 0 (Z.of_nat (length (filter (λ m, mtype m = demo_type) msgs))).
Proof.
  apply (traces_exactly_count demo_uuid demo_types (str "*msg.Ping") demo_type 7 2 ∅);
    [by_compute|done|unfold MaxTracingSessions; lia].
Defined.

(** Tracing the same type a second time for the same count, after the first
    [count] messages were sent, reports success and a token but traces nothing:
    the guard of the code re-arms a configuration only when the new count is
    below its sequence number, not when it is equal to it. *)
Theorem retrace_same_count_traces_nothing (uuid_String : Z → bytes) name2Type fresh name t u count types msgs :
  GetRegisteredTypeByName name name2Type = Some t →
  types !! t = Some (mkConf u count count []) → (1 ≤ count ≤ Z.of_nat MaxTracingSessions)%Z →
  let '(types1, result) := TraceMsgByName uuid_String name2Type fresh name count types in
  result = inl (make_token uuid_String u count) ∧
  Forall (λ tid, tid = None) (ids_of_type t msgs (send_all msgs types1).1).
Proof.
  intros Ht Hn Hc. rewrite (trace_call _ _ _ _ t) by done. rewrite Hn. simpl.
  rewrite bool_decide_eq_false_2 by lia. split; [done|]. pose proof MaxTracingSessions_u32.
  pose proof (send_all_ids t u count count msgs (<[t := mkConf u count count []]> types)) as Hs.
  destruct (send_all msgs _) as [tids types']; simpl. destruct Hs as [-> _]; [lia| |].
  - left. rewrite lookup_insert_eq. split; [done|lia].
  - by apply expected_none.
Qed.

(** One message traced, one sent, and the same call again *)
Lemma retrace_same_count_traces_nothing_witness :
  let types0 := (TraceMsgByName demo_uuid demo_types (inl 7%Z) (str "*msg.Ping") 1 ∅).1 in
  let types := (send_all [demo_msg "a"] types0).2 in
  let '(types1, result) := TraceMsgByName demo_uuid demo_types (inl 8%Z) (str "*msg.Ping") 1 types in
  result = inl (make_token demo_uuid 7 1) ∧
  Forall (λ tid, tid = None) (ids_of_type demo_type [demo_msg "b"] (send_all [demo_msg "b"] types1).1).
Proof.
  apply (retrace_same_count_traces_nothing demo_uuid demo_types (inl 8%Z) (str "*msg.Ping") demo_type 7 1
    _ [demo_msg "b"]); [by_compute|by_compute|unfold MaxTracingSessions; lia].
Defined.

(** While a configuration has sequence numbers left, a message of its type
    (a struct or a pointer to one) is traced exactly when each filter's pattern,
    read as a glob, describes the printed value of its field. *)
Theorem traced_iff_filters_match msg types tc :
  types !! mtype msg = Some tc → (tc_seqNum tc < tc_count tc)%Z →
  is_struct (if is_pointer (mtype msg) then type_Elem (mtype msg) else mtype msg) →
  (is_pointer (mtype msg) → mnil msg = false) →
  (getTracingID (Some None) msg types).1 = Some (mkUuidInfo (tc_id tc) (tc_seqNum tc)) ↔
  ∀ f, f ∈ tc_filters tc → glob (pattern f) (print_field msg (field f)).
Proof.
  intros Ht Hs Hstruct Hnil. unfold getTracingID.
  rewrite bool_decide_eq_false_2 by (intros ->; by rewrite lookup_empty in Ht).
  rewrite Ht, bool_decide_eq_false_2 by lia.
  assert (filters_match msg (tc_filters tc) ↔
    ∀ f, f ∈ tc_filters tc → glob (pattern f) (print_field msg (field f))) as <-.
  { unfold filters_match. case_bool_decide as Hl.
    { apply nil_length_inv in Hl. rewrite Hl. set_solver. }
    assert (is_pointer (mtype msg) && mnil msg = false) as ->.
    { destruct (is_pointer (mtype msg)); simpl; [by apply Hnil|done]. }
    apply Is_true_true in Hstruct. rewrite Hstruct. simpl.
    rewrite forallb_True, Forall_forall. by setoid_rewrite WildcardMatch_glob. }
  destruct (filters_match msg (tc_filters tc)); simpl; split; done.
Qed.

Lemma traced_iff_filters_match_witness :
  let tc := mkConf 7 2 0 [mkFilter (str "Who") (str "J*n")] in
  (getTracingID (Some None) (demo_msg "John") {[ demo_type := tc ]}).1 = Some (mkUuidInfo 7 0) ↔
  ∀ f, f ∈ tc_filters tc → glob (pattern f) (print_field (demo_msg "John") (field f)).
Proof.
  apply (traced_iff_filters_match (demo_msg "John") {[ demo_type := mkConf 7 2 0 [mkFilter (str "Who") (str "J*n")] ]}
    (mkConf 7 2 0 [mkFilter (str "Who") (str "J*n")])); [by_compute|done|done|done].
Defined.

(** Of the tokens the tracing calls return, [ReadTracedMsg] accepts those
    for a single message, and reads back the UUID and the sequence number 0; it
    rejects those for several messages and the one for none.  (The UUID package
    is assumed to parse what it prints, and to print no dot.) *)
Theorem tokens_read_back (uuid_String : Z → bytes) (uuid_Parse : bytes → option Z) u count :
  uuid_Parse (uuid_String u) = Some u → "."%char ∉ uuid_String u → (0 ≤ count < 2 ^ 32)%Z →
  if bool_decide (count = 1)%Z then
    parse_token uuid_Parse (make_token uuid_String u count) = inl (mkUuidInfo u 0)
  else ∃ e, parse_token uuid_Parse (make_token uuid_String u count) = inr e.
Proof.
  intros Hp Hd Hc. unfold parse_token, make_token. case_bool_decide as H1; subst.
  - simpl. change (str ".0") with ("."%char :: str "0").
    rewrite Split_free_app by (done || by_decide). by rewrite Hp.
  - case_bool_decide; [by eexists|]. rewrite bool_decide_eq_true_2 by lia.
    generalize (utoa (Z.to_N (count - 1))) as last. intros last.
    change (str ".0.." ++ last) with ("."%char :: str "0" ++ "."%char :: [] ++ "."%char :: last).
    rewrite Split_app, Split_app, Split_app by (done || by_decide).
    pose proof (Split_not_nil last "."%char). destruct (Split last "."%char); [done|by eexists].
Qed.

Lemma tokens_read_back_witness :
  if bool_decide (100 = 1)%Z then
    parse_token (λ _, Some 7%Z) (make_token demo_uuid 7 100) = inl (mkUuidInfo 7 0)
  else ∃ e, parse_token (λ _, Some 7%Z) (make_token demo_uuid 7 100) = inr e.
Proof. apply (tokens_read_back demo_uuid (λ _, Some 7%Z) 7 100); [done|by_decide|lia]. Defined.

(** The sequence number is read and bumped outside the lock: two senders
    of a type traced once can both be traced, under the same tracing ID. *)
Theorem concurrent_senders_share_id :
  ∃ w, rtc sender_step (mkSenders 1 0 [SCheck; SCheck]) w ∧
       threads w = [SDone (Some 0%Z); SDone (Some 0%Z)] ∧ conf_seqNum w = 2%Z.
Proof. eexists. split; [apply senders_race|done]. Qed.
