(* ===== verification/TraceHelper.v ===== *)
(** Delivery of traced messages to the tracing service (messagetracing.go): the
    bounded buffer filled by [traceMsg] and the goroutine that discovers the
    service, sends the records one by one, retries after an error and gives up
    after three errors in a row, with [close], which drains the buffer; and the
    connections the records are sent on, which may be lost with records on the way,
    since nothing is replied to a record. *)
From S2P Require Import Prelude Names MessageTracer.

(** [tracedMsgRaw]; the message is what "%#v" prints of it, together with
    whether it is itself a traced record; the connection is its network and its
    two addresses. *)
Record tracedMsgRaw := mkRaw {
  raw_timeStamp : Z;
  raw_msg : bytes;
  raw_is_record : bool;
  raw_tracingID : uuidInfo;
  raw_tag : bytes;
  raw_network : bytes;
  raw_local : bytes;
  raw_remote : bytes;
}.

(** The record built by [run] *)
Definition record_of (r : tracedMsgRaw) : tracedMessageRecord :=
  mkRecord (raw_timeStamp r) (raw_msg r) (raw_tracingID r) (raw_tag r)
    (raw_network r ++ str ": " ++ raw_local r ++ str " <--> " ++ raw_remote r).

(** Where the goroutine of [runOnce] is *)
Inductive phase :=
| NotStarted
| Discovering            (** in [run], waiting for the service *)
| Connected              (** in the loop of [run] *)
| Ending                 (** in its deferred function *)
| Told                   (** between [close(mth.done)] and [mth.closed = true] *)
| Stopped.

#[export] Instance phase_eq_dec : EqDecision phase.
Proof. solve_decision. Defined.

(** [chanClosed] tells that [tracedMsgChan] was closed. *)
Record msgTraceHelper := mkHelper {
  ph : phase;
  tracedMsgChan : list tracedMsgRaw;
  chanClosed : bool;
  undelivered : option tracedMessageRecord;
  failedCount : nat;
  closed : bool;
}.

Definition newHelper : msgTraceHelper := mkHelper NotStarted [] false None 0 false.

Definition chanSize : nat := 128.

Definition at_phase (x : phase) (h : msgTraceHelper) : msgTraceHelper :=
  mkHelper x (tracedMsgChan h) (chanClosed h) (undelivered h) (failedCount h) (closed h).

(** [runOnce]: the first call makes the channel and starts the goroutine *)
Definition runOnce (h : msgTraceHelper) : msgTraceHelper :=
  match ph h with
  | NotStarted => at_phase Discovering h
  | _ => h
  end.

(** [traceMsg]; a send on a closed channel panics, ready or not *)
Definition traceMsg (r : tracedMsgRaw) (h : msgTraceHelper) : outcome (msgTraceHelper * option error) :=
  if raw_is_record r then Return (h, None)
  else
    let h := runOnce h in
    if closed h then Return (h, Some (errorString (str "Message trace helper closed")))
    else if chanClosed h then Panics (str "send on closed channel")
    else if bool_decide (length (tracedMsgChan h) < chanSize) then
      Return (mkHelper (ph h) (tracedMsgChan h ++ [r]) (chanClosed h) (undelivered h) (failedCount h) (closed h), None)
    else Return (h, Some (errorString (str "Message trace helper buffer full"))).

(** [len] *)
Definition helper_len (h : msgTraceHelper) : nat :=
  length (tracedMsgChan h) + (if undelivered h is Some _ then 1 else 0).

(** [close], up to its wait for [done]: before the first traced message the channel
    is nil *)
Definition close (h : msgTraceHelper) : outcome msgTraceHelper :=
  match ph h with
  | NotStarted => Panics (str "close of nil channel")
  | _ =>
      if chanClosed h then Panics (str "close of closed channel")
      else Return (mkHelper (ph h) (tracedMsgChan h) true (undelivered h) (failedCount h) (closed h))
  end.

(** Whether [done] is closed, so that [close] returns *)
Definition is_done (h : msgTraceHelper) : bool :=
  match ph h with Told | Stopped => true | _ => false end.

(** The loop of [runOnce] was left *)
Definition has_ended (h : msgTraceHelper) : bool :=
  match ph h with Ending | Told | Stopped => true | _ => false end.

(** [run] returned an error: the loop of [runOnce] counts it *)
Definition run_failed (h : msgTraceHelper) : msgTraceHelper :=
  let failed := S (failedCount h) in
  mkHelper (if bool_decide (3 ≤ failed) then Ending else Discovering)
    (tracedMsgChan h) (chanClosed h) (undelivered h) failed (closed h).

(** [run]: the service was looked for *)
Definition run_discovered (found : bool) (h : msgTraceHelper) : msgTraceHelper :=
  if found then at_phase Connected h else run_failed h.

(** [deliver]: [Send] of the record waiting returns no error, or one.  No error does not
    tell that the service got it. *)
Definition deliver (sent : bool) (h : msgTraceHelper) : msgTraceHelper :=
  if sent then mkHelper (ph h) (tracedMsgChan h) (chanClosed h) None 0 (closed h) else run_failed h.

(** [run] takes the next message from the channel, or returns no error: the channel
    is closed and empty.  [None] while there is nothing to take. *)
Definition run_receive (h : msgTraceHelper) : option msgTraceHelper :=
  match tracedMsgChan h with
  | r :: rest => Some (mkHelper (ph h) rest (chanClosed h) (Some (record_of r)) (failedCount h) (closed h))
  | [] => if chanClosed h then Some (at_phase Ending h) else None
  end.

(** The deferred function of the goroutine: [done] is closed, then [closed] set. *)
Definition run_ends (h : msgTraceHelper) : option msgTraceHelper :=
  match ph h with
  | Ending => Some (at_phase Told h)
  | Told => Some (mkHelper Stopped (tracedMsgChan h) (chanClosed h) (undelivered h) (failedCount h) true)
  | _ => None
  end.

(** A connection to the service: what [Send] put on it, what the service received
    of that, and whether the connection is lost *)
Record link := mkLink { sent_on : list tracedMessageRecord; got : list tracedMessageRecord; lost : bool }.

(** A record is put on the connection of [run], which is the last made. *)
Fixpoint put_last (rcd : tracedMessageRecord) (l : list link) : list link :=
  match l with
  | [] => []
  | [k] => [mkLink (sent_on k ++ [rcd]) (got k) (lost k)]
  | k :: l => k :: put_last rcd l
  end.

(** What the service receives next of a connection *)
Definition receive (k : link) : option link :=
  if lost k then None
  else match drop (length (got k)) (sent_on k) with
       | rcd :: _ => Some (mkLink (sent_on k) (got k ++ [rcd]) false)
       | [] => None
       end.

(** The helper, what it accepted and the connections it made, step by step *)
Record system := mkSystem {
  helper : msgTraceHelper;
  accepted : list tracedMsgRaw;
  links : list link;
}.

Inductive system_step : system → system → Prop :=
| step_trace s r h' e :
    traceMsg r (helper s) = Return (h', e) →
    system_step s (mkSystem h'
      (if bool_decide (e = None) && negb (raw_is_record r) then accepted s ++ [r] else accepted s)
      (links s))
| step_close s h' :
    close (helper s) = Return h' →
    system_step s (mkSystem h' (accepted s) (links s))
| step_discover s found :
    ph (helper s) = Discovering →
    system_step s (mkSystem (run_discovered found (helper s)) (accepted s)
                     (if (found : bool) then links s ++ [mkLink [] [] false] else links s))
| step_receive s h' :
    ph (helper s) = Connected → undelivered (helper s) = None → run_receive (helper s) = Some h' →
    system_step s (mkSystem h' (accepted s) (links s))
| step_deliver s rcd sent :
    ph (helper s) = Connected → undelivered (helper s) = Some rcd →
    system_step s (mkSystem (deliver sent (helper s)) (accepted s)
                     (if (sent : bool) then put_last rcd (links s) else links s))
| step_ends s h' :
    run_ends (helper s) = Some h' →
    system_step s (mkSystem h' (accepted s) (links s))
| step_service s i k k' :
    links s !! i = Some k → receive k = Some k' →
    system_step s (mkSystem (helper s) (accepted s) (<[i := k']> (links s)))
| step_lost s i k :
    links s !! i = Some k →
    system_step s (mkSystem (helper s) (accepted s) (<[i := mkLink (sent_on k) (got k) true]> (links s))).

Definition initial : system := mkSystem newHelper [] [].

(** What was sent, connection after connection *)
Definition sent (l : list link) : list tracedMessageRecord := concat (sent_on <$> l).

Lemma sent_put_last rcd l : l ≠ [] → sent (put_last rcd l) = sent l ++ [rcd].
Proof.
  intros Hl. induction l as [|k [|k' l] IH]; [done|unfold sent; simpl; by rewrite !app_nil_r|].
  specialize (IH ltac:(done)). change (sent_on k ++ sent (put_last rcd (k' :: l)) = (sent_on k ++ sent (k' :: l)) ++ [rcd]).
  by rewrite IH, app_assoc.
Qed.

Lemma sent_insert i k k' l : l !! i = Some k → sent_on k' = sent_on k → sent (<[i := k']> l) = sent l.
Proof.
  intros Hk He. unfold sent. rewrite list_fmap_insert, list_insert_id; [done|]. by rewrite list_lookup_fmap, Hk, He.
Qed.

Definition link_ok (k : link) : Prop := got k `prefix_of` sent_on k.

Lemma put_last_ok rcd l : Forall link_ok l → Forall link_ok (put_last rcd l) ∧ (l ≠ [] → put_last rcd l ≠ []).
Proof.
  induction l as [|k [|k' l] IH]; intros Hl; [done| |].
  - apply Forall_cons in Hl as [Hl _]. split; [|done]. apply Forall_singleton. unfold link_ok in *; simpl. by apply prefix_app_r.
  - apply Forall_cons in Hl as [Hk Hl]. split; [|done]. apply Forall_cons. split; [done|]. exact (proj1 (IH Hl)).
Qed.

Lemma receive_ok k k' : link_ok k → receive k = Some k' → link_ok k' ∧ sent_on k' = sent_on k.
Proof.
  intros [rest Hk]. unfold receive. destruct (lost k); [done|]. destruct (drop _ _) as [|rcd l] eqn:Hd; [done|].
  intros [= <-]. split; [|done]. rewrite Hk, drop_app_length in Hd. subst rest. exists l. simpl. by rewrite <- app_assoc.
Qed.

(** ** Invariant *)

Record system_ok (s : system) : Prop := mkSystemOk {
  so_fifo : record_of <$> accepted s =
    sent (links s) ++ option_list (undelivered (helper s)) ++ (record_of <$> tracedMsgChan (helper s));
  so_links : Forall link_ok (links s);
  so_connected : ph (helper s) = Connected → links s ≠ [];
  so_bound : length (tracedMsgChan (helper s)) ≤ chanSize;
  so_closed : closed (helper s) = bool_decide (ph (helper s) = Stopped);
  so_failed : failedCount (helper s) < 3 ∨ failedCount (helper s) = 3 ∧ has_ended (helper s) = true;
  so_start : ph (helper s) = NotStarted →
    tracedMsgChan (helper s) = [] ∧ undelivered (helper s) = None ∧ chanClosed (helper s) = false;
  so_drained : has_ended (helper s) = true → failedCount (helper s) < 3 →
    chanClosed (helper s) = true ∧ tracedMsgChan (helper s) = [] ∧ undelivered (helper s) = None;
}.

Lemma initial_ok : system_ok initial.
Proof. split; simpl; try done; unfold chanSize; lia. Qed.

(** An error of [run], which counts to three *)
Lemma run_failed_ok s :
  system_ok s → has_ended (helper s) = false → ph (helper s) ≠ NotStarted →
  system_ok (mkSystem (run_failed (helper s)) (accepted s) (links s)).
Proof.
  intros [H1 L1 L2 H2 H3 H4 H5 H6] Hp Hn. destruct s as [[p q c u f d] acc del]. unfold has_ended, run_failed in *. simpl in *.
  assert (f < 3) as Hf by (destruct H4 as [?|[_ H4]]; [done|by rewrite H4 in Hp]).
  assert (d = false) as -> by (subst d; by destruct p).
  destruct (bool_decide_reflect (3 ≤ S f)); split; simpl; first [done|lia|right; split; [lia|done]].
Qed.

Lemma traceMsg_ok r h' e s :
  system_ok s → traceMsg r (helper s) = Return (h', e) →
  system_ok (mkSystem h'
    (if bool_decide (e = None) && negb (raw_is_record r) then accepted s ++ [r] else accepted s)
    (links s)).
Proof.
  intros Hok. unfold traceMsg. destruct (raw_is_record r) eqn:Hr; [intros [= <- <-]; by destruct s|].
  assert (system_ok (mkSystem (runOnce (helper s)) (accepted s) (links s))) as Hok'.
  { destruct Hok as [H1 L1 L2 H2 H3 H4 H5 H6]. destruct s as [[[] q c u f d] acc del]; by split. }
  assert (ph (runOnce (helper s)) ≠ NotStarted) as Hn by (unfold runOnce; by destruct (helper s) as [[] ? ? ? ? ?]).
  simpl. generalize dependent (runOnce (helper s)). intros h Hok' Hn.
  destruct (closed h) eqn:Hc; [by intros [= <- <-]|]. destruct (chanClosed h) eqn:Hq; [done|].
  case_bool_decide; intros [= <- <-]; [|done]. destruct Hok' as [G1 L1 L2 G2 G3 G4 G5 G6]. simpl in *. split; simpl; try done.
  - by rewrite !fmap_app, G1, <- !app_assoc.
  - rewrite length_app. simpl. lia.
  - by rewrite <- Hc.
  - intros He Hf. destruct (G6 He Hf). congruence.
Qed.

Lemma close_ok h' s : system_ok s → close (helper s) = Return h' → system_ok (mkSystem h' (accepted s) (links s)).
Proof.
  intros [H1 L1 L2 H2 H3 H4 H5 H6]. destruct s as [[p q c u f d] acc del]. unfold close, has_ended in *. simpl in *.
  destruct p; try done; (destruct c; [done|]; intros [= <-]; split; simpl; try done; intros He Hf; by destruct (H6 He Hf)).
Qed.

Lemma links_ok s l : system_ok s → sent l = sent (links s) → Forall link_ok l → (links s ≠ [] → l ≠ []) →
  system_ok (mkSystem (helper s) (accepted s) l).
Proof. intros [H1 L1 L2 H2 H3 H4 H5 H6] Hs Hl Hn. split; simpl; try done; [by rewrite Hs|auto]. Qed.

Lemma insert_not_nil {A} i (x : A) l : l ≠ [] → <[i := x]> l ≠ [].
Proof. intros Hl H. apply Hl. apply (f_equal length) in H. rewrite length_insert in H. by apply nil_length_inv. Qed.

Lemma system_step_ok s s' : system_ok s → system_step s s' → system_ok s'.
Proof.
  intros Hok Hs. destruct Hs as [s r h' e Ht|s h' Hc|s found Hp|s h' Hp Hu Hr|s rcd sent Hp Hu|s h' He|s i k k' Hk Hr|s i k Hk].
  - by eapply traceMsg_ok.
  - by eapply close_ok.
  - destruct found; simpl; [|apply run_failed_ok; [done|unfold has_ended|]; by rewrite Hp].
    destruct Hok as [H1 L1 L2 H2 H3 H4 H5 H6], s as [[p q c u f d] acc ls]. unfold has_ended in *. simpl in *. subst p.
    split; simpl; try done.
    + unfold TraceHelper.sent. by rewrite fmap_app, concat_app, app_nil_r.
    + apply Forall_app. split; [done|]. constructor; [by exists []|constructor].
    + intros _. by destruct ls.
  - destruct Hok as [H1 L1 L2 H2 H3 H4 H5 H6], s as [[p q c u f d] acc ls]. unfold run_receive, has_ended in *. simpl in *. subst p u.
    destruct q as [|r q]; [destruct c; [|done]|]; injection Hr as <-; split; simpl in *; (done || lia).
  - destruct sent; simpl; [|apply run_failed_ok; [done|unfold has_ended|]; by rewrite Hp].
    destruct Hok as [H1 L1 L2 H2 H3 H4 H5 H6], s as [[p q c u f d] acc ls]. unfold has_ended in *. simpl in *. subst p u.
    destruct (put_last_ok rcd ls L1) as [P1 P2].
    split; simpl in *; try done; [|by intros ?; apply P2, L2|left; lia]. by rewrite sent_put_last, <- app_assoc by auto.
  - destruct Hok as [H1 L1 L2 H2 H3 H4 H5 H6], s as [[p q c u f d] acc ls]. unfold run_ends, has_ended in *. simpl in *.
    destruct p; try done; injection He as <-; by split.
  - pose proof (Forall_lookup_1 _ _ _ _ (so_links s Hok) Hk) as Hl. destruct (receive_ok k k' Hl Hr) as [Hl' He].
    apply links_ok; [done|by eapply sent_insert|by apply Forall_insert, Hl'; apply so_links|apply insert_not_nil].
  - pose proof (Forall_lookup_1 _ _ _ _ (so_links s Hok) Hk) as Hl.
    apply links_ok; [done|by eapply sent_insert|apply Forall_insert; [by apply so_links|exact Hl]|apply insert_not_nil].
Qed.

Lemma reachable_system_ok s : rtc system_step initial s → system_ok s.
Proof. intros Hs. eapply rtc_invariant; [apply system_step_ok|apply initial_ok|done]. Qed.

(** A connection that is not lost brings what was sent on it. *)
Lemma link_brings s i k : link_ok k → links s !! i = Some k → lost k = false →
  rtc system_step s (mkSystem (helper s) (accepted s) (<[i := mkLink (sent_on k) (sent_on k) false]> (links s))).
Proof.
  intros [rest Hk] Hi Hl. revert s k Hk Hi Hl. induction rest as [|rcd rest IH]; intros s k Hk Hi Hl.
  - rewrite app_nil_r in Hk. destruct k as [se g lo], s; simpl in *. subst. by rewrite list_insert_id.
  - assert (Hr : receive k = Some (mkLink (sent_on k) (got k ++ [rcd]) false)) by (unfold receive; by rewrite Hl, Hk, drop_app_length).
    eapply rtc_l; [by eapply step_service|].
    pose proof (lookup_lt_Some _ _ _ Hi) as Hlt.
    specialize (IH (mkSystem (helper s) (accepted s) (<[i := mkLink (sent_on k) (got k ++ [rcd]) false]> (links s)))
      (mkLink (sent_on k) (got k ++ [rcd]) false)). simpl in IH. rewrite list_insert_insert_eq in IH.
    apply IH; [by rewrite Hk, <- app_assoc|by apply list_lookup_insert_eq|done].
Qed.

(** ** Properties *)

(** C37. Whatever the order of calls to [traceMsg] and [close], discoveries and sends,
    whatever fails and whatever connections are lost with records on the way: the
    records sent, connection after connection, are a prefix of the accepted
    messages in the order they were accepted, each sent on one connection and once,
    the rest of them being the one waiting to be sent and the buffer; the service gets
    of every connection a prefix of what was sent on it, and all of it unless the
    connection is lost; the buffer never exceeds 128 messages; when [done] is closed,
    so that [close] returns, there were three errors in a row or every accepted message
    was sent; once the helper stopped every later message is refused. *)
Theorem trace_delivery_fifo s r :
  rtc system_step initial s →
  record_of <$> accepted s =
    sent (links s) ++ option_list (undelivered (helper s)) ++ (record_of <$> tracedMsgChan (helper s)) ∧
  (∀ i k, links s !! i = Some k → got k `prefix_of` sent_on k ∧
     (lost k = false → ∃ s', rtc system_step s s' ∧ links s' !! i = Some (mkLink (sent_on k) (sent_on k) false))) ∧
  length (tracedMsgChan (helper s)) ≤ chanSize ∧
  (is_done (helper s) = true → failedCount (helper s) = 3 ∨
     chanClosed (helper s) = true ∧ record_of <$> accepted s = sent (links s)) ∧
  (ph (helper s) = Stopped → raw_is_record r = false →
     traceMsg r (helper s) = Return (helper s, Some (errorString (str "Message trace helper closed")))).
Proof.
  intros Hs. destruct (reachable_system_ok s Hs) as [H1 L1 L2 H2 H3 H4 H5 H6]. split; [done|]. split; [|split; [done|split]].
  - intros i k Hk. pose proof (Forall_lookup_1 _ _ _ _ L1 Hk) as Hl. split; [done|]. intros Hlost.
    eexists. split; [by apply link_brings|]. simpl. apply list_lookup_insert_eq. by eapply lookup_lt_Some.
  - intros Hd. assert (has_ended (helper s) = true) as He by (unfold is_done, has_ended in *; by destruct (ph (helper s))).
    destruct H4 as [Hf|[Hf _]]; [right|by left]. destruct (H6 He Hf) as (Hc & Hq & Hu). split; [done|].
    by rewrite H1, Hq, Hu, app_nil_r.
  - intros Hp Hr. unfold traceMsg. rewrite Hr.
    assert (runOnce (helper s) = helper s) as -> by (unfold runOnce; by rewrite Hp). by rewrite H3, Hp.
Qed.

Definition demo_raw (msg : bytes) : tracedMsgRaw :=
  mkRaw 0 msg false (mkUuidInfo 1 0) (str "client send") (str "tcp") (str "a:1") (str "b:2").

(** One message accepted, its sending failed once, then sent and received on a second
    connection, the helper closed *)
Definition demo_system : system :=
  mkSystem (mkHelper Stopped [] true None 0 true) [demo_raw (str "m")]
    [mkLink [] [] true; mkLink [record_of (demo_raw (str "m"))] [record_of (demo_raw (str "m"))] false].

(** A step of a run that is given by its steps *)
Ltac one_step c := eapply rtc_l; [eapply c; reflexivity|cbn -[record_of chanSize str]].

Lemma demo_reachable msg : rtc system_step initial
  (mkSystem (mkHelper Stopped [] true None 0 true) [demo_raw msg]
     [mkLink [] [] true; mkLink [record_of (demo_raw msg)] [record_of (demo_raw msg)] false]).
Proof.
  unfold demo_raw. generalize (str "client send") (str "tcp") (str "a:1") (str "b:2"). intros g n l d.
  one_step (step_trace initial (mkRaw 0 msg false (mkUuidInfo 1 0) g n l d)). one_step (λ s, step_discover s true).
  one_step step_receive. one_step (λ s, step_lost s 0). one_step (λ s r, step_deliver s r false).
  one_step (λ s, step_discover s true). one_step step_close. one_step (λ s r, step_deliver s r true).
  one_step step_receive. one_step (λ s, step_service s 1). do 2 one_step step_ends. apply rtc_refl.
Qed.

Lemma trace_delivery_fifo_witness :
  record_of <$> accepted demo_system =
    sent (links demo_system) ++ option_list (undelivered (helper demo_system)) ++
    (record_of <$> tracedMsgChan (helper demo_system)) ∧
  (is_done (helper demo_system) = true → failedCount (helper demo_system) = 3 ∨
     chanClosed (helper demo_system) = true ∧ record_of <$> accepted demo_system = sent (links demo_system)).
Proof.
  destruct (trace_delivery_fifo demo_system (demo_raw (str "n")) (demo_reachable (str "m"))) as (H1 & _ & _ & H2 & _).
  split; [exact H1|exact H2].
Defined.

(** A record sent is lost with its connection, and [close] returns as if all was well. *)
Lemma sent_and_lost m : rtc system_step initial
  (mkSystem (mkHelper Stopped [] true None 0 true) [demo_raw m] [mkLink [record_of (demo_raw m)] [] true]).
Proof.
  unfold demo_raw. generalize (str "client send") (str "tcp") (str "a:1") (str "b:2"). intros g n l d.
  one_step (step_trace initial (mkRaw 0 m false (mkUuidInfo 1 0) g n l d)). one_step (λ s, step_discover s true).
  one_step step_receive. one_step (λ s r, step_deliver s r true). one_step (λ s, step_lost s 0). one_step step_close.
  one_step step_receive. do 2 one_step step_ends. apply rtc_refl.
Qed.

(** A message traced while [close] waits panics; a message accepted after the third
    error, before [closed] is set, is never sent. *)
Lemma trace_while_closing_panics m r : raw_is_record r = false → ∃ s, rtc system_step initial s ∧
  tracedMsgChan (helper s) = [demo_raw m] ∧ traceMsg r (helper s) = Panics (str "send on closed channel").
Proof.
  intros Hr. exists (mkSystem (mkHelper Discovering [demo_raw m] true None 0 false) [demo_raw m] []). split; [|split; [done|]].
  - unfold demo_raw. generalize (str "client send") (str "tcp") (str "a:1") (str "b:2"). intros g n l d.
    one_step (step_trace initial (mkRaw 0 m false (mkUuidInfo 1 0) g n l d)). one_step step_close. apply rtc_refl.
  - unfold traceMsg. by rewrite Hr.
Qed.

Lemma accepted_and_lost m : rtc system_step initial
  (mkSystem (mkHelper Stopped [demo_raw m; demo_raw m] false None 3 true) [demo_raw m; demo_raw m] []).
Proof.
  unfold demo_raw. generalize (str "client send") (str "tcp") (str "a:1") (str "b:2"). intros g n l d.
  one_step (step_trace initial (mkRaw 0 m false (mkUuidInfo 1 0) g n l d)).
  do 3 one_step (λ s, step_discover s false). one_step step_ends.
  one_step (λ s, step_trace s (mkRaw 0 m false (mkUuidInfo 1 0) g n l d)). one_step step_ends. apply rtc_refl.
Qed.
