(* ===== verification/TraceReport.v ===== *)
(** The report of [ReadTracedMsg] (messagetracing.go): the records collected from
    the tracing services are sorted by time and printed twice, as indented lines and
    as arrows of a sequence diagram.  What it draws of a tree of calls. *)
From S2P Require Import Prelude GoStrings Names MessageTracer Tracing.

(** ** Pieces of text *)

Definition newline : ascii := "010"%char.
Definition tab : ascii := "009"%char.
Definition quoted (s : bytes) : bytes := "034"%char :: s ++ ["034"%char].

(** [strings.Repeat] *)
Definition Repeat (s : bytes) (count : Z) : outcome bytes :=
  if bool_decide (count < 0)%Z then Panics (str "strings: negative Repeat count")
  else Return (concat (replicate (Z.to_nat count) s)).

(** [Time.Format(timeMicro)] of a number of nanoseconds, with the fraction cut off *)
Definition pad (width : nat) (n : Z) : bytes :=
  let d := utoa (Z.to_N n) in replicate (width - length d) "0"%char ++ d.
Definition Format_timeMicro (t : Z) : bytes :=
  let s := (t / 10 ^ 9)%Z in
  pad 2 ((s / 3600) mod 24) ++ ":"%char :: pad 2 ((s / 60) mod 60) ++ ":"%char :: pad 2 (s mod 60) ++
  "."%char :: pad 6 ((t / 1000) mod 10 ^ 6).

(** What follows the last brace that closes before the end of the line *)
Fixpoint last_close (s : bytes) : option bytes :=
  match s with
  | [] => None
  | c :: s =>
      if bool_decide (c = newline) then None
      else match last_close s with
           | Some r => Some r
           | None => if bool_decide (c = "}"%char) then Some s else None
           end
  end.

(** [ReplaceAllLiteralString] of "\{.*\}" by "{}": leftmost, and as long as it can be *)
Fixpoint replace_braces (fuel : nat) (s : bytes) : bytes :=
  match fuel, s with
  | S fuel, c :: s =>
      if bool_decide (c = "{"%char) then
        match last_close s with
        | Some r => str "{}" ++ replace_braces fuel r
        | None => c :: replace_braces fuel s
        end
      else c :: replace_braces fuel s
  | _, _ => []
  end.
Definition shortenMsg (s : bytes) : bytes := replace_braces (length s) s.

(** ** Sorting *)

Definition no_later (a b : tracedMessageRecord) : Prop := (rcd_timeStamp a ≤ rcd_timeStamp b)%Z.
#[export] Instance no_later_dec : RelDecision no_later := λ a b, Z_le_dec _ _.

(** [sort.Slice] by time: records of the same time come in any order. *)
Class SortByTime := {
  by_time : list tracedMessageRecord → list tracedMessageRecord;
  by_time_perm l : by_time l ≡ₚ l;
  by_time_sorted l : StronglySorted no_later (by_time l);
}.

(** ** The lines *)

Definition report_line (indent : bytes) (rcd : tracedMessageRecord) : bytes :=
  Format_timeMicro (rcd_timeStamp rcd) ++ str " " ++ indent ++ str "[" ++ rcd_tag rcd ++ str "] |" ++
  rcd_connInfo rcd ++ str "| <" ++ rcd_msg rcd ++ str ">" ++ [newline].

(** The first loop: what it prints, with the indentation it ends with *)
Fixpoint indented (indent : Z) (l : list tracedMessageRecord) : outcome (bytes * Z) :=
  match l with
  | [] => Return ([], indent)
  | rcd :: l =>
      let indent := if bool_decide (rcd_tag rcd = str "client recv") then (indent - 1)%Z else indent in
      let indent := if bool_decide (indent < 0)%Z then 0%Z else indent in
      tabs ← Repeat [tab] indent;
      let indent' := if bool_decide (rcd_tag rcd = str "client send") then (indent + 1)%Z else indent in
      '(out, last) ← indented indent' l;
      Return (report_line tabs rcd ++ out, last)
  end.

(** ** The summary *)

(** [svcs[len(svcs)-1]] and [svcs[:len(svcs)-1]] *)
Definition top (svcs : list bytes) : outcome bytes :=
  match svcs !! (length svcs - 1) with Some w => Return w | None => Panics (str "index out of range") end.
Definition pop (svcs : list bytes) : list bytes := take (length svcs - 1) svcs.

Definition arrival (who : bytes) (rcd : tracedMessageRecord) : bytes :=
  quoted who ++ str ": " ++ Format_timeMicro (rcd_timeStamp rcd) ++ str " " ++ shortenMsg (rcd_msg rcd) ++ [newline].

(** A round of the second loop *)
Definition summary_round (svcs : list bytes) (rcd : tracedMessageRecord) : outcome (list bytes * bytes) :=
  match Fields (rcd_tag rcd) with
  | [who; action] =>
      if bool_decide (action = str "send") then
        '(who, svcs) ← (if bool_decide (length svcs ≠ 0) then
                          if bool_decide (who = str "client") then w ← top svcs; Return (w, svcs)
                          else Return (who, pop svcs)
                        else Return (who, svcs));
        Return (svcs, quoted who ++ str " -> ")
      else if bool_decide (action = str "handler") then Return (svcs ++ [who], arrival who rcd)
      else if bool_decide (action = str "recv") then
        who ← (if bool_decide (length svcs ≠ 0) then
                 if bool_decide (who = str "client") then top svcs else Return who
               else Return who);
        Return (svcs, arrival who rcd)
      else Return (svcs, [])
  | _ => Return (svcs, [])
  end.

Fixpoint summary (svcs : list bytes) (l : list tracedMessageRecord) : outcome (bytes * list bytes) :=
  match l with
  | [] => Return ([], svcs)
  | rcd :: l => '(svcs, out) ← summary_round svcs rcd; '(more, svcs) ← summary svcs l; Return (out ++ more, svcs)
  end.

Definition heading : bytes :=
  newline :: str "Summary(paste below content to http://www.plantuml.com/plantuml):" ++ [newline].

(** Both loops, on the sorted records *)
Definition report (l : list tracedMessageRecord) : outcome bytes :=
  '(lines, _) ← indented 0 l;
  if bool_decide (length lines = 0) then Return []
  else '(drawing, _) ← summary [] l; Return (lines ++ heading ++ drawing).

(** [ReadTracedMsg]; [answers] are the records each tracing service answered with *)
Definition ReadTracedMsg `{SortByTime} (uuid_Parse : bytes → option Z) (token : bytes)
    (answers : uuidInfo → list (list tracedMessageRecord)) : outcome (bytes + error) :=
  match parse_token uuid_Parse token with
  | inr err => Return (inr err)
  | inl tid => text ← report (by_time (concat (answers tid))); Return (inl text)
  end.

Definition ReadAllTracedMsg `{SortByTime} uuid_Parse answers : outcome (bytes + error) :=
  ReadTracedMsg uuid_Parse (str "00000000-0000-0000-0000-000000000000.0") answers.

(** ** Trees of calls *)

(** The tag of a service: publisher, service and provider *)
Definition svc_tag (publisher service provider : bytes) : bytes :=
  publisher ++ "/"%char :: service ++ "@"%char :: provider.

(** A call: the service's tag; the records, their tags apart, of the request where
    it is sent and handled and of the reply where it is sent and received; and the
    calls the handler made before replying *)
#[warnings="-register-all"] Inductive call :=
| Call (svc : bytes) (sent handled : tracedMessageRecord) (subs : list call) (replied received : tracedMessageRecord).

Definition with_tag (tag : bytes) (r : tracedMessageRecord) : tracedMessageRecord :=
  mkRecord (rcd_timeStamp r) (rcd_msg r) (rcd_tracingID r) tag (rcd_connInfo r).

(** The records it leaves *)
Fixpoint trace_of (c : call) : list tracedMessageRecord :=
  let '(Call svc r1 r2 subs r3 r4) := c in
  with_tag (str "client send") r1 :: with_tag (svc ++ str " handler") r2 :: flat_map trace_of subs ++
  [with_tag (svc ++ str " send") r3; with_tag (str "client recv") r4].

(** Its lines, and its arrows *)
Fixpoint lines_of (depth : nat) (c : call) : bytes :=
  let '(Call svc r1 r2 subs r3 r4) := c in
  report_line (replicate depth tab) (with_tag (str "client send") r1) ++
  report_line (replicate (S depth) tab) (with_tag (svc ++ str " handler") r2) ++
  flat_map (lines_of (S depth)) subs ++
  report_line (replicate (S depth) tab) (with_tag (svc ++ str " send") r3) ++
  report_line (replicate depth tab) (with_tag (str "client recv") r4).

Definition arrow (from to : bytes) (r : tracedMessageRecord) : bytes := quoted from ++ str " -> " ++ arrival to r.

Fixpoint drawing_of (caller : bytes) (c : call) : bytes :=
  let '(Call svc r1 r2 subs r3 r4) := c in
  arrow caller svc r2 ++ flat_map (drawing_of svc) subs ++ arrow svc caller r4.

(** The services' tags have no blanks, and none is that of a client. *)
Fixpoint tagged (c : call) : Prop :=
  let '(Call svc _ _ subs _ _) := c in
  word svc ∧ svc ≠ str "client" ∧ (fix all l := match l with [] => True | c :: l => tagged c ∧ all l end) subs.

(** ** No index is out of range, no indentation negative. *)

Lemma top_last svcs w : top (svcs ++ [w]) = Return w.
Proof. unfold top. rewrite length_app, lookup_app_r by (simpl; lia). simpl. by replace (_ - _ - _) with 0 by lia. Qed.
Lemma pop_last svcs w : pop (svcs ++ [w]) = svcs.
Proof. unfold pop. rewrite length_app. simpl. replace (_ - 1) with (length svcs) by lia. apply take_app_length. Qed.

Lemma top_total svcs : length svcs ≠ 0 → ∃ w, top svcs = Return w.
Proof.
  intros Hl. destruct (exists_last (l := svcs)) as (l & w & ->); [by intros ->|]. exists w. apply top_last.
Qed.

Lemma summary_round_total svcs rcd : ∃ r, summary_round svcs rcd = Return r.
Proof.
  unfold summary_round. destruct (Fields (rcd_tag rcd)) as [|who [|action [|]]]; eauto.
  repeat case_bool_decide; eauto; destruct (top_total svcs) as [w ->]; eauto.
Qed.

Lemma summary_total svcs l : ∃ r, summary svcs l = Return r.
Proof.
  revert svcs; induction l as [|rcd l IH]; intros svcs; simpl; [eauto|].
  destruct (summary_round_total svcs rcd) as [[svcs' out] ->]. simpl.
  destruct (IH svcs') as [[more svcs''] ->]. simpl. eauto.
Qed.

Lemma indented_total i l : (0 ≤ i)%Z → ∃ r, indented i l = Return r.
Proof.
  revert i; induction l as [|rcd l IH]; intros i Hi; simpl; [eauto|].
  set (i1 := if bool_decide (rcd_tag rcd = _) then (i - 1)%Z else i). set (i2 := if bool_decide (i1 < 0)%Z then 0%Z else i1).
  assert (0 ≤ i2)%Z by (unfold i2; destruct (bool_decide_reflect (i1 < 0)%Z); lia). clearbody i2. unfold Repeat. rewrite (bool_decide_eq_false_2 (i2 < 0)%Z) by lia. simpl.
  edestruct IH as [[out last] ->]; [|simpl; eauto]. case_bool_decide; lia.
Qed.

Lemma report_total l : ∃ text, report l = Return text.
Proof.
  unfold report. destruct (indented_total 0 l) as [[lines i] ->]; [lia|]. simpl. case_bool_decide; [eauto|].
  destruct (summary_total [] l) as [[d s] ->]. simpl. eauto.
Qed.

(** ** The two loops on a tree *)

Lemma indented_app i l k : indented i (l ++ k) =
  ('(o1, j) ← indented i l; '(o2, last) ← indented j k; Return (o1 ++ o2, last)).
Proof.
  revert i; induction l as [|rcd l IH]; intros i; simpl.
  - by destruct (indented i k) as [[]|].
  - destruct (Repeat [tab] _) as [tabs|]; [|done]. simpl. rewrite IH.
    destruct (indented _ l) as [[o1 j]|]; [|done]. simpl. destruct (indented j k) as [[o2 last]|]; [|done]. simpl.
    by rewrite app_assoc.
Qed.

Lemma summary_app svcs l k : summary svcs (l ++ k) =
  ('(o1, s1) ← summary svcs l; '(o2, s2) ← summary s1 k; Return (o1 ++ o2, s2)).
Proof.
  revert svcs; induction l as [|rcd l IH]; intros svcs; simpl.
  - by destruct (summary svcs k) as [[]|].
  - destruct (summary_round svcs rcd) as [[s0 o0]|]; [|done]. simpl. rewrite IH.
    destruct (summary s0 l) as [[o1 s1]|]; [|done]. simpl. destruct (summary s1 k) as [[o2 s2]|]; [|done]. simpl.
    by rewrite app_assoc.
Qed.

(** Induction on trees *)
Lemma call_tree_ind (P : call → Prop) :
  (∀ svc r1 r2 subs r3 r4, Forall P subs → P (Call svc r1 r2 subs r3 r4)) → ∀ c, P c.
Proof.
  intros HP. fix go 1. intros [svc r1 r2 subs r3 r4]. apply HP.
  induction subs as [|c subs IH]; constructor; [apply go|exact IH].
Qed.

Lemma tagged_subs svc r1 r2 subs r3 r4 :
  tagged (Call svc r1 r2 subs r3 r4) ↔ word svc ∧ svc ≠ str "client" ∧ Forall tagged subs.
Proof.
  simpl. do 2 f_equiv. induction subs as [|c subs IH]; [by split|]. rewrite Forall_cons. by f_equiv.
Qed.

(** A property of the pieces of a forest, put together *)
Lemma Forall_tagged (P : call → Prop) cs :
  Forall (λ c, tagged c → P c) cs → Forall tagged cs → Forall P cs.
Proof. induction 1; [done|]. intros [? ?]%Forall_cons. constructor; auto. Qed.

Lemma fields_from_app cur w s : Forall (λ c, negb (is_space c)) w → fields_from cur (w ++ s) = fields_from (reverse w ++ cur) s.
Proof.
  revert cur; induction w as [|c w IH]; intros cur Hw; [done|].
  apply Forall_cons in Hw as [Hc Hw]. simpl. destruct (is_space c); [done|].
  rewrite IH by done. by rewrite reverse_cons, <- app_assoc.
Qed.

Lemma Fields_two w1 w2 : word w1 → word w2 → Fields (w1 ++ " "%char :: w2) = [w1; w2].
Proof.
  intros [Hn1 H1] [Hn2 H2]. unfold Fields. rewrite fields_from_app by done. simpl.
  rewrite <- (app_nil_r w2), fields_from_app by done. rewrite !app_nil_r. simpl.
  rewrite !decide_False by (intros E%(f_equal reverse); by rewrite reverse_involutive in E).
  by rewrite !reverse_involutive.
Qed.

(** A tag ends in its action. *)
Lemma tag_ne (svc a b : bytes) : length a = length b → a ≠ b → ∀ x, svc ++ a ≠ x ++ b.
Proof. intros Hl Hab x E. by apply app_inj_2 in E as [_ E]. Qed.

#[local] Arguments str : simpl never.

Lemma Repeat_tabs d : Repeat [tab] (Z.of_nat d) = Return (replicate d tab).
Proof.
  unfold Repeat. rewrite bool_decide_eq_false_2 by lia. rewrite Nat2Z.id. f_equal.
  induction d as [|d IH]; [done|]. simpl. by rewrite IH.
Qed.

(** A record printed at depth [d], by what its tag does to the depth *)
Lemma indented_line d (rcd : tracedMessageRecord) l i j :
  (i, j) = (if bool_decide (rcd_tag rcd = str "client recv") then (S d, d)
            else if bool_decide (rcd_tag rcd = str "client send") then (d, S d) else (d, d)) →
  indented (Z.of_nat i) (rcd :: l) =
    ('(out, last) ← indented (Z.of_nat j) l; Return (report_line (replicate d tab) rcd ++ out, last)).
Proof.
  intros Hij. simpl.
  assert (∀ x : Z, x = Z.of_nat d → (if bool_decide (x < 0)%Z then 0%Z else x) = Z.of_nat d) as Hx.
  { intros x ->. by rewrite bool_decide_eq_false_2 by lia. }
  rewrite Hx.
  2:{ repeat case_bool_decide; simplify_eq; lia. }
  rewrite Repeat_tabs. simpl. enough ((if bool_decide (rcd_tag rcd = str "client send") then (Z.of_nat d + 1)%Z else Z.of_nat d) = Z.of_nat j) as -> by done.
  destruct (bool_decide_reflect (rcd_tag rcd = str "client recv")) as [E|]; [|case_bool_decide; simplify_eq; lia].
  rewrite bool_decide_eq_false_2 by (rewrite E; by vm_compute). by simplify_eq.
Qed.

Definition lines_ok (c : call) : Prop := ∀ d l, indented (Z.of_nat d) (trace_of c ++ l) =
  ('(out, last) ← indented (Z.of_nat d) l; Return (lines_of d c ++ out, last)).

Lemma lines_forest cs d l : Forall lines_ok cs → indented (Z.of_nat d) (flat_map trace_of cs ++ l) =
  ('(out, last) ← indented (Z.of_nat d) l; Return (flat_map (lines_of d) cs ++ out, last)).
Proof.
  induction 1 as [|c cs Hc _ IH]; simpl; [by destruct (indented _ l) as [[]|]|].
  rewrite <- app_assoc, Hc, IH. destruct (indented _ l) as [[out last]|]; [|done]. simpl. by rewrite app_assoc.
Qed.

(** The tag of a handler or of a reply is not that of a client. *)
Lemma service_tags svc : svc ≠ str "client" →
  svc ++ str " handler" ≠ str "client recv" ∧ svc ++ str " handler" ≠ str "client send" ∧
  svc ++ str " send" ≠ str "client recv" ∧ svc ++ str " send" ≠ str "client send".
Proof.
  intros Hs. split_and!; intros E.
  - apply (f_equal last) in E. rewrite last_app in E. by vm_compute in E.
  - apply (f_equal last) in E. rewrite last_app in E. by vm_compute in E.
  - apply (f_equal last) in E. rewrite last_app in E. by vm_compute in E.
  - change (str "client send") with (str "client" ++ str " send") in E. by apply app_inv_tail in E.
Qed.

Lemma lines_of_trace c : tagged c → lines_ok c.
Proof.
  induction c as [svc r1 r2 subs r3 r4 IH] using call_tree_ind. intros (Hw & Hs & Hsubs)%tagged_subs d l.
  apply Forall_tagged in IH; [|done]. destruct (service_tags svc Hs) as (N1 & N2 & N3 & N4).
  cbn [trace_of lines_of app]. rewrite (indented_line d (with_tag (str "client send") r1) _ d (S d)) by done.
  rewrite (indented_line (S d) (with_tag (svc ++ _) r2) _ (S d) (S d)) by (simpl; by rewrite !bool_decide_eq_false_2 by done).
  rewrite <- app_assoc, lines_forest by done. cbn [app].
  rewrite (indented_line (S d) (with_tag (svc ++ _) r3) _ (S d) (S d)) by (simpl; by rewrite !bool_decide_eq_false_2 by done).
  rewrite (indented_line d (with_tag (str "client recv") r4) _ (S d) d) by done.
  destruct (indented (Z.of_nat d) l) as [[out last]|]; [|done]. cbn [mbind outcome_bind]. by rewrite <- !app_assoc.
Qed.

(** Who sends and receives as a client: the service whose handler runs, or nobody's *)
Definition caller_of (svcs : list bytes) : bytes := default (str "client") (last svcs).

Definition drawing_ok (c : call) : Prop := ∀ svcs l, summary svcs (trace_of c ++ l) =
  ('(out, s) ← summary svcs l; Return (drawing_of (caller_of svcs) c ++ out, s)).

Lemma drawing_forest cs svcs l : Forall drawing_ok cs → summary svcs (flat_map trace_of cs ++ l) =
  ('(out, s) ← summary svcs l; Return (flat_map (drawing_of (caller_of svcs)) cs ++ out, s)).
Proof.
  induction 1 as [|c cs Hc _ IH]; simpl; [by destruct (summary _ l) as [[]|]|].
  rewrite <- app_assoc, Hc, IH. destruct (summary _ l) as [[out s]|]; [|done]. simpl. by rewrite app_assoc.
Qed.

(** The four records of a call *)
Lemma round_client_send svcs r :
  summary_round svcs (with_tag (str "client send") r) = Return (svcs, quoted (caller_of svcs) ++ str " -> ").
Proof.
  unfold summary_round. change (Fields (rcd_tag (with_tag (str "client send") r))) with [str "client"; str "send"]. cbv iota.
  rewrite bool_decide_eq_true_2 by done. case_bool_decide as Hl.
  - rewrite bool_decide_eq_true_2 by done. destruct (exists_last (l := svcs)) as (l & w & ->); [by intros ->|].
    rewrite top_last. unfold caller_of. by rewrite last_snoc.
  - destruct svcs; [done|]. simpl in Hl. lia.
Qed.

Lemma round_handler svcs svc r : word svc →
  summary_round svcs (with_tag (svc ++ str " handler") r) = Return (svcs ++ [svc], arrival svc r).
Proof.
  intros Hw. unfold summary_round. change (str " handler") with (" "%char :: str "handler"). cbn [rcd_tag with_tag].
  rewrite Fields_two by (done || by_decide).
  rewrite bool_decide_eq_false_2 by (by vm_compute). by rewrite bool_decide_eq_true_2 by done.
Qed.

Lemma round_send svcs svc r : word svc → svc ≠ str "client" →
  summary_round (svcs ++ [svc]) (with_tag (svc ++ str " send") r) = Return (svcs, quoted svc ++ str " -> ").
Proof.
  intros Hw Hs. unfold summary_round. change (str " send") with (" "%char :: str "send"). cbn [rcd_tag with_tag].
  rewrite Fields_two by (done || by_decide).
  rewrite bool_decide_eq_true_2 by done. rewrite bool_decide_eq_true_2 by (rewrite length_app; simpl; lia).
  rewrite bool_decide_eq_false_2 by done. simpl. by rewrite pop_last.
Qed.

Lemma round_client_recv svcs r :
  summary_round svcs (with_tag (str "client recv") r) = Return (svcs, arrival (caller_of svcs) r).
Proof.
  unfold summary_round. change (Fields (rcd_tag (with_tag (str "client recv") r))) with [str "client"; str "recv"]. cbv iota.
  rewrite bool_decide_eq_false_2 by (by vm_compute). rewrite bool_decide_eq_false_2 by (by vm_compute).
  rewrite bool_decide_eq_true_2 by done. case_bool_decide as Hl.
  - rewrite bool_decide_eq_true_2 by done. destruct (exists_last (l := svcs)) as (l & w & ->); [by intros ->|].
    rewrite top_last. unfold caller_of. by rewrite last_snoc.
  - destruct svcs; [done|]. simpl in Hl. lia.
Qed.

Lemma drawing_of_trace c : tagged c → drawing_ok c.
Proof.
  induction c as [svc r1 r2 subs r3 r4 IH] using call_tree_ind. intros (Hw & Hs & Hsubs)%tagged_subs svcs l.
  apply Forall_tagged in IH; [|done]. cbn [trace_of drawing_of app summary].
  rewrite round_client_send. cbn [mbind outcome_bind]. rewrite round_handler by done. cbn [mbind outcome_bind].
  rewrite <- app_assoc, drawing_forest by done. cbn [app summary].
  rewrite round_send by done. cbn [mbind outcome_bind]. rewrite round_client_recv. cbn [mbind outcome_bind].
  destruct (summary svcs l) as [[out s]|]; [|done]. cbn [mbind outcome_bind]. 
  replace (caller_of (svcs ++ [svc])) with svc by (unfold caller_of; by rewrite last_snoc).
  unfold arrow. rewrite <- !app_assoc. done.
Qed.

(** ** The text between braces *)

Lemma last_close_length s r : last_close s = Some r → length r < length s.
Proof.
  induction s as [|c s IH]; simpl; [done|]. case_bool_decide; [done|].
  destruct (last_close s) as [r'|]; [intros [= <-]; specialize (IH eq_refl); lia|].
  case_bool_decide; [|done]. intros [= <-]. lia.
Qed.

(** The fuel is enough. *)
Lemma replace_braces_fuel f s : length s ≤ f → replace_braces f s = shortenMsg s.
Proof.
  unfold shortenMsg. assert (∀ g f s, length s ≤ g → length s ≤ f → replace_braces f s = replace_braces g s) as H;
    [|by intros; apply H].
  clear. induction g as [|g IH]; intros [|f] [|c s] Hg Hf; simpl in *; try done; try lia.
  case_bool_decide; [|f_equal; apply IH; lia].
  destruct (last_close s) as [r|] eqn:Hr; [|f_equal; apply IH; lia].
  apply last_close_length in Hr. do 2 f_equal. apply IH; lia.
Qed.

(** On a line, all from the first brace that opens to the last that closes goes. *)
Lemma last_close_app m q : newline ∉ m → "}"%char ∉ q → last_close (m ++ "}"%char :: q) = Some q.
Proof.
  assert (∀ q, "}"%char ∉ q → last_close q = None) as Hq.
  { clear. induction q as [|c q IH]; [done|]. intros [Hc Hq]%not_elem_of_cons. simpl.
    case_bool_decide; [done|]. rewrite IH by done. by rewrite bool_decide_eq_false_2 by congruence. }
  intros Hm Hq'. induction m as [|c m IH]; simpl.
  - by rewrite (Hq q Hq').
  - apply not_elem_of_cons in Hm as [Hc Hm]. rewrite bool_decide_eq_false_2 by congruence. by rewrite IH.
Qed.

Lemma shortenMsg_braces p m q : "{"%char ∉ p → newline ∉ m → "{"%char ∉ q → "}"%char ∉ q →
  shortenMsg (p ++ "{"%char :: m ++ "}"%char :: q) = p ++ str "{}" ++ q.
Proof.
  assert (∀ f q, "{"%char ∉ q → length q ≤ f → replace_braces f q = q) as Hplain.
  { clear. induction f as [|f IH]; intros [|c q] Hq Hf; simpl in *; try done; try lia.
    apply not_elem_of_cons in Hq as [Hc Hq]. rewrite bool_decide_eq_false_2 by congruence. f_equal. apply IH; [done|lia]. }
  intros Hp Hm Hq1 Hq2. unfold shortenMsg. generalize (Nat.le_refl (length (p ++ "{"%char :: m ++ "}"%char :: q))).
  generalize (length (p ++ "{"%char :: m ++ "}"%char :: q)) at 2 3. intros f. revert f.
  induction p as [|c p IH]; intros [|f] Hf; simpl in *; try lia.
  - rewrite last_close_app by done. f_equal. f_equal. apply Hplain; [done|].
    rewrite length_app in Hf. simpl in Hf. lia.
  - apply not_elem_of_cons in Hp as [Hc Hp]. rewrite bool_decide_eq_false_2 by congruence. f_equal. apply IH; [done|lia].
Qed.

(** ** The records of distinct times have one order. *)

Lemma distinct_times l x y : StronglySorted (λ a b, rcd_timeStamp a < rcd_timeStamp b)%Z l →
  x ∈ l → y ∈ l → rcd_timeStamp x = rcd_timeStamp y → x = y.
Proof.
  induction 1 as [|z l _ IH Hz]; [by intros ?%not_elem_of_nil|]. rewrite Forall_forall in Hz.
  intros [->|Hx]%elem_of_cons [->|Hy]%elem_of_cons Ht; auto.
  - specialize (Hz y Hy). lia.
  - specialize (Hz x Hx). lia.
Qed.

Lemma by_time_unique `{SortByTime} l k : StronglySorted (λ a b, rcd_timeStamp a < rcd_timeStamp b)%Z k →
  l ≡ₚ k → by_time l = k.
Proof.
  intros Hk Hp. apply (StronglySorted_unique_strong no_later).
  - intros x y Hx Hy H1 H2. apply (distinct_times k); [done| |done|unfold no_later in *; lia]. by rewrite <- Hp, <- by_time_perm.
  - apply by_time_sorted.
  - clear Hp. induction Hk as [|x k Hk IH Hx]; constructor; [done|]. eapply Forall_impl; [exact Hx|]. intros y Hy. unfold no_later. simpl in *. lia.
  - by rewrite by_time_perm.
Qed.

#[export] Program Instance merge_by_time : SortByTime := {|
  by_time := merge_sort no_later;
|}.
Next Obligation. intros l. apply merge_sort_Permutation. Qed.
Next Obligation.
  intros l. apply StronglySorted_merge_sort; [intros a b c|intros a b]; unfold no_later; lia.
Qed.

(** A report is given whatever the records are. *)
Lemma ReadTracedMsg_total `{SortByTime} uuid_Parse token answers :
  ∃ r, ReadTracedMsg uuid_Parse token answers = Return r.
Proof.
  unfold ReadTracedMsg. destruct (parse_token uuid_Parse token) as [tid|err]; [|eauto].
  destruct (report_total (by_time (concat (answers tid)))) as [text ->]. simpl. eauto.
Qed.

Lemma report_nonempty c cs k : flat_map (lines_of 0) (c :: cs) ++ k ≠ [].
Proof. destruct c. simpl. unfold report_line. simpl. by destruct (Format_timeMicro _). Qed.

(** C34. The report draws the calls.  When the tracing services answer, all
    together and in any order, with the records left by a forest of calls made one
    after the other, each record at a time of its own, the report has a line for
    each record, indented by the depth of the call, and the diagram has for each
    call an arrow from its caller, the service that was handling or else the
    client, to the service, with the request, the arrows of the calls made
    meanwhile, and an arrow back with the reply.  And no records make it panic. *)
Theorem report_draws_calls `{SortByTime} uuid_Parse token tid answers cs :
  parse_token uuid_Parse token = inl tid →
  concat (answers tid) ≡ₚ flat_map trace_of cs →
  StronglySorted (λ a b, rcd_timeStamp a < rcd_timeStamp b)%Z (flat_map trace_of cs) →
  Forall tagged cs →
  ReadTracedMsg uuid_Parse token answers = Return (inl (
    if bool_decide (cs = []) then []
    else flat_map (lines_of 0) cs ++ heading ++ flat_map (drawing_of (str "client")) cs)) ∧
  ∀ token answers, ∃ r, ReadTracedMsg uuid_Parse token answers = Return r.
Proof.
  intros Ht Hp Hs Htag. split; [|intros; apply ReadTracedMsg_total].
  unfold ReadTracedMsg. rewrite Ht, (by_time_unique _ _ Hs Hp).
  assert (Hl : Forall lines_ok cs) by (eapply Forall_impl; [exact Htag|apply lines_of_trace]).
  assert (Hd : Forall drawing_ok cs) by (eapply Forall_impl; [exact Htag|apply drawing_of_trace]).
  unfold report. change 0%Z with (Z.of_nat 0). rewrite <- (app_nil_r (flat_map trace_of cs)).
  rewrite lines_forest, drawing_forest by done. cbn [indented summary mbind outcome_bind].
  rewrite app_nil_r. destruct cs as [|c cs]; [done|].
  rewrite bool_decide_eq_false_2, bool_decide_eq_false_2; [by rewrite !app_nil_r|done|].
  intros Hlen%length_zero_iff_nil. by apply (report_nonempty c cs []); rewrite app_nil_r.
Qed.

(** A client calls A, whose handler calls B; two tracing services hold parts of it. *)
Definition demo_svc (name : string) : bytes := svc_tag (str "org.example") (str name) (str "id1").
Definition demo_rcd (t : Z) (msg : string) : tracedMessageRecord := mkRecord t (str msg) (mkUuidInfo 7 0) [] (str "tcp: a <--> b").
Definition demo_call : call :=
  Call (demo_svc "a") (demo_rcd 1000 "req{1}") (demo_rcd 2000 "req{1}")
    [Call (demo_svc "b") (demo_rcd 3000 "ask{}") (demo_rcd 4000 "ask{}") [] (demo_rcd 5000 "say{3, {4}}") (demo_rcd 6000 "say{3, {4}}")]
    (demo_rcd 7000 "rep{2}") (demo_rcd 8000 "rep{2}").
Definition demo_answers (_ : uuidInfo) : list (list tracedMessageRecord) :=
  [drop 3 (trace_of demo_call); []; take 3 (trace_of demo_call)].

Lemma report_draws_calls_witness :
  let report := ReadTracedMsg (λ _, Some 7%Z) (str "x.0") demo_answers in
  report = Return (inl (flat_map (lines_of 0) [demo_call] ++ heading ++ flat_map (drawing_of (str "client")) [demo_call])) ∧
  flat_map (drawing_of (str "client")) [demo_call] =
    arrow (str "client") (demo_svc "a") (demo_rcd 2000 "req{}") ++
    arrow (demo_svc "a") (demo_svc "b") (demo_rcd 4000 "ask{}") ++
    arrow (demo_svc "b") (demo_svc "a") (demo_rcd 6000 "say{}") ++
    arrow (demo_svc "a") (str "client") (demo_rcd 8000 "rep{}").
Proof.
  split; [|vm_compute; reflexivity].
  apply (report_draws_calls (λ _, Some 7%Z) (str "x.0") (mkUuidInfo 7 0) demo_answers [demo_call]).
  - vm_compute. reflexivity.
  - change (concat (demo_answers (mkUuidInfo 7 0))) with (drop 3 (trace_of demo_call) ++ take 3 (trace_of demo_call) ++ []).
    change (flat_map trace_of [demo_call]) with (trace_of demo_call ++ []).
    rewrite !app_nil_r, Permutation_app_comm, take_drop. reflexivity.
  - simpl. repeat constructor; simpl; lia.
  - repeat constructor; simpl; try (by_decide || lia || discriminate).
Defined.

(** A handler that returns nil leaves its service on the list: after a one-way call
    made by a handler, the reply to the handler's own caller is drawn as one to the
    handler's service itself. *)
Theorem one_way_call_misdrawn a b r1 r2 r3 r4 r5 r6 :
  word a → word b → a ≠ str "client" → b ≠ str "client" →
  summary [] [with_tag (str "client send") r1; with_tag (a ++ str " handler") r2;
              with_tag (str "client send") r3; with_tag (b ++ str " handler") r4;
              with_tag (a ++ str " send") r5; with_tag (str "client recv") r6] =
  Return (arrow (str "client") a r2 ++ arrow a b r4 ++ arrow a a r6, [a]).
Proof.
  intros Ha Hb Na Nb. cbn [summary].
  rewrite round_client_send. cbn [mbind outcome_bind]. rewrite (round_handler [] a) by done. cbn [mbind outcome_bind app].
  rewrite round_client_send. cbn [mbind outcome_bind]. rewrite (round_handler [a] b) by done. cbn [mbind outcome_bind app].
  assert (summary_round [a; b] (with_tag (a ++ str " send") r5) = Return ([a], quoted a ++ str " -> ")) as ->.
  { unfold summary_round. change (str " send") with (" "%char :: str "send"). cbn [rcd_tag with_tag].
    rewrite Fields_two by (done || by_decide). rewrite bool_decide_eq_true_2 by done.
    rewrite bool_decide_eq_true_2 by done. by rewrite bool_decide_eq_false_2 by done. }
  cbn [mbind outcome_bind]. rewrite round_client_recv. cbn [mbind outcome_bind].
  unfold arrow. change (caller_of []) with (str "client"). change (caller_of [a]) with a. by rewrite !app_nil_r, <- !app_assoc.
Qed.
