(* ===== verification/WorkerPool.v ===== *)
(** The worker pool (workerpool.go) as a step relation.

    A worker is a goroutine with a variable [done] that the pool also reaches
    through a pointer kept in a slot.  The critical sections of [addWorker],
    [rmWorker] and [close] are atomic; the goroutine itself is not under the
    lock: it reads its variable [done] when it starts, then runs the worker
    function (here the one of the message queue: it alternates between idle and
    working and returns when it is idle and its channel is closed), then runs
    the deferred function.  Workers are numbered in the order of creation. *)
From S2P Require Import Prelude.

(** What the goroutine passed to the worker function as its channel *)
Inductive chan_arg :=
| NotYet       (** the goroutine has not run yet *)
| RealChan     (** the channel made by [addWorker] *)
| NilChan.     (** the variable had already been set to nil *)

Record worker := mkWorker {
  done_var : bool;       (** the variable [done] is not nil *)
  chan_closed : bool;    (** the channel made by [addWorker] is closed *)
  arg : chan_arg;
  busy : bool;           (** between [working] and [idle] *)
  exited : bool;         (** the deferred function has run *)
}.

Record workerPool := mkPool {
  workers : list nat;    (** the slots, as worker numbers *)
  all : list worker;
  count : Z;
  idleCount : Z;
  wg : Z;
}.

(** [newWorkerPool] *)
Definition newWorkerPool : workerPool := mkPool [] [] 0 0 0.

(** Does the variable of worker [i] hold a channel? *)
Definition live (l : list worker) (i : nat) : bool := from_option done_var false (l !! i).

(** The loop of [addWorker]: reuse the first slot whose variable is nil *)
Fixpoint put_slot (l : list worker) (new : nat) (slots : list nat) : list nat :=
  match slots with
  | [] => [new]
  | i :: slots => if live l i then i :: put_slot l new slots else new :: slots
  end.

(** [addWorker], under the lock *)
Definition addWorker (p : workerPool) : workerPool :=
  mkPool (put_slot (all p) (length (all p)) (workers p))
    (all p ++ [mkWorker true false NotYet false false])
    (count p + 1) (idleCount p + 1) (wg p + 1).

(** [done := *pc; *pc = nil; close(done)] *)
Definition cancel (i : nat) (l : list worker) : list worker :=
  alter (λ w, mkWorker false true (arg w) (busy w) (exited w)) i l.

(** The loop of [rmWorker]: the first slot whose variable is not nil *)
Fixpoint first_live (l : list worker) (slots : list nat) : option nat :=
  match slots with
  | [] => None
  | i :: slots => if live l i then Some i else first_live l slots
  end.

(** [rmWorker] *)
Definition rmWorker (p : workerPool) : workerPool :=
  match first_live (all p) (workers p) with
  | None => p
  | Some i => mkPool (workers p) (cancel i (all p)) (count p) (idleCount p) (wg p)
  end.

(** [close], up to the wait *)
Definition close_all (p : workerPool) : workerPool :=
  mkPool (workers p)
    (foldl (λ l i, if live l i then cancel i l else l) (all p) (workers p))
    (count p) (idleCount p) (wg p).

(** [close] returns when [wg.Wait] does *)
Definition wait_returns (p : workerPool) : bool := bool_decide (wg p = 0%Z).

(** [getIdleCount] and [getCount] *)
Definition getIdleCount (p : workerPool) : Z := idleCount p.
Definition getCount (p : workerPool) : Z := count p.

Definition set_worker (p : workerPool) (i : nat) (w : worker) : list worker := <[i := w]> (all p).

(** The goroutine evaluates [w(done, wp)] *)
Definition start (w : worker) : worker :=
  mkWorker (done_var w) (chan_closed w) (if done_var w then RealChan else NilChan) (busy w) (exited w).

(** The deferred function: it closes the channel itself only if the variable
    still holds it *)
Definition finish (w : worker) : worker :=
  mkWorker false (chan_closed w || done_var w) (arg w) (busy w) true.

Inductive pool_step : workerPool → workerPool → Prop :=
| step_add p : pool_step p (addWorker p)
| step_rm p : pool_step p (rmWorker p)
| step_close p : pool_step p (close_all p)
| step_start p i w :
    all p !! i = Some w → arg w = NotYet →
    pool_step p (mkPool (workers p) (set_worker p i (start w)) (count p) (idleCount p) (wg p))
| step_working p i w :
    all p !! i = Some w → arg w ≠ NotYet → busy w = false → exited w = false →
    pool_step p (mkPool (workers p)
      (set_worker p i (mkWorker (done_var w) (chan_closed w) (arg w) true (exited w)))
      (count p) (idleCount p - 1) (wg p))
| step_idle p i w :
    all p !! i = Some w → busy w = true →
    pool_step p (mkPool (workers p)
      (set_worker p i (mkWorker (done_var w) (chan_closed w) (arg w) false (exited w)))
      (count p) (idleCount p + 1) (wg p))
| step_exit p i w :
    all p !! i = Some w → arg w = RealChan → chan_closed w = true → busy w = false → exited w = false →
    pool_step p (mkPool (workers p) (set_worker p i (finish w))
      (count p - 1) (idleCount p - 1) (wg p - 1)).

(** ** Counting workers *)

Definition number (P : worker → bool) (l : list worker) : Z := Z.of_nat (length (filter P l)).

Definition alive (w : worker) : bool := negb (exited w).

(** What holds of every worker *)
Definition worker_ok (w : worker) : Prop :=
  (done_var w = negb (chan_closed w)) ∧
  (arg w = NotYet → busy w = false ∧ exited w = false) ∧
  (arg w = NilChan → done_var w = false ∧ exited w = false) ∧
  (busy w = true → exited w = false) ∧
  (exited w = true → chan_closed w = true ∧ arg w = RealChan).

(** What holds of every reachable pool *)
Record pool_ok (p : workerPool) : Prop := mkPoolOk {
  po_count : count p = number alive (all p);
  po_wg : wg p = number alive (all p);
  po_idle : (idleCount p + number busy (all p))%Z = number alive (all p);
  po_workers : Forall worker_ok (all p);
  po_slots : ∀ i, live (all p) i → i ∈ workers p;
  po_range : ∀ i, i ∈ workers p → i < length (all p);
  po_NoDup : NoDup (workers p);
}.

Lemma number_app P l1 l2 : number P (l1 ++ l2) = (number P l1 + number P l2)%Z.
Proof. unfold number. rewrite filter_app, length_app. lia. Qed.

Lemma number_nil P : number P [] = 0%Z.
Proof. done. Qed.

Lemma number_cons P w l : number P (w :: l) = ((if P w then 1 else 0) + number P l)%Z.
Proof.
  unfold number. rewrite filter_cons. case_decide as Hd.
  - apply Is_true_true in Hd. rewrite Hd. simpl. lia.
  - apply Is_true_false in Hd. by rewrite Hd.
Qed.

Lemma number_insert P l i w w' :
  l !! i = Some w →
  number P (<[i := w']> l) = (number P l + (if P w' then 1 else 0) - (if P w then 1 else 0))%Z.
Proof.
  revert i; induction l as [|x l IH]; intros [|i] Hi; simplify_eq/=; rewrite !number_cons; [lia|].
  rewrite (IH i) by done. lia.
Qed.

Lemma number_nonneg P l : (0 ≤ number P l)%Z.
Proof. unfold number. lia. Qed.

Lemma live_insert l i w w' j :
  l !! i = Some w → done_var w' = done_var w → live (<[i := w']> l) j = live l j.
Proof.
  intros Hi Hd. unfold live. destruct (decide (i = j)) as [<-|Hne].
  - rewrite list_lookup_insert_eq by (by eapply lookup_lt_Some). rewrite Hi. simpl. done.
  - by rewrite list_lookup_insert_ne.
Qed.

(** Cancelling is replacing one worker. *)
Definition cancelled (w : worker) : worker := mkWorker false true (arg w) (busy w) (exited w).

Lemma cancel_insert i l w : l !! i = Some w → cancel i l = <[i := cancelled w]> l.
Proof.
  revert i; induction l as [|x l IH]; intros [|i] Hi; simplify_eq/=; [done|].
  f_equal. by apply IH.
Qed.

Lemma live_cancel i l j : live (cancel i l) j = live l j && negb (bool_decide (i = j)).
Proof.
  unfold live, cancel. destruct (decide (i = j)) as [<-|Hne].
  - rewrite list_lookup_alter_eq, (bool_decide_eq_true_2 (i = i)) by done.
    rewrite andb_false_r. by destruct (l !! i).
  - rewrite list_lookup_alter_ne, (bool_decide_eq_false_2 (i = j)) by done.
    by rewrite andb_true_r.
Qed.

(** A live worker is one of the list. *)
Lemma live_Some l i : live l i → ∃ w, l !! i = Some w ∧ done_var w = true.
Proof. unfold live. destruct (l !! i) as [w|]; simpl; [|done]. intros. exists w. by split; [|apply Is_true_true]. Qed.

Lemma live_app l w i : live l i → live (l ++ [w]) i.
Proof.
  intros (w' & Hi & Hd)%live_Some. unfold live.
  by rewrite (lookup_app_l_Some _ _ _ _ Hi); simpl; rewrite Hd.
Qed.

Lemma live_app_inv l w i : live (l ++ [w]) i → live l i ∨ i = length l.
Proof.
  unfold live. destruct (decide (i < length l)) as [Hlt|Hge].
  - rewrite lookup_app_l by done. by left.
  - intros (w' & Hi & _)%(live_Some (l ++ [w])). right.
    apply lookup_lt_Some in Hi. rewrite length_app in Hi. simpl in Hi. lia.
Qed.

(** ** The slots *)

Lemma elem_of_put_slot l new s i : i ∈ put_slot l new s → i = new ∨ i ∈ s.
Proof.
  induction s as [|j s IH]; simpl; [rewrite list_elem_of_singleton; tauto|].
  destruct (live l j); rewrite !elem_of_cons; tauto.
Qed.

Lemma put_slot_new l new s : new ∈ put_slot l new s.
Proof. induction s as [|j s IH]; simpl; [left|]. destruct (live l j); [right; done|left]. Qed.

Lemma put_slot_live l new s i : live l i → i ∈ s → i ∈ put_slot l new s.
Proof.
  intros Hl. induction s as [|j s IH]; simpl; [by intros ?%elem_of_nil|].
  destruct (live l j) eqn:Hj; rewrite !elem_of_cons; [tauto|].
  intros [->|?]; [by rewrite Hj in Hl|by right].
Qed.

Lemma put_slot_NoDup l new s : NoDup s → new ∉ s → NoDup (put_slot l new s).
Proof.
  induction s as [|j s IH]; simpl; intros Hs Hn; [apply NoDup_singleton|].
  apply NoDup_cons in Hs as [Hj Hs]. apply not_elem_of_cons in Hn as [Hne Hn].
  destruct (live l j); apply NoDup_cons; split; [|by apply IH|done|done].
  intros [->|?]%elem_of_put_slot; done.
Qed.

(** A slot is reused when one is free: the table grows only when it is full of
    live workers. *)
Lemma put_slot_length l new s :
  length (put_slot l new s) = if forallb (live l) s then S (length s) else length s.
Proof.
  induction s as [|j s IH]; simpl; [done|]. destruct (live l j); simpl; [|done].
  rewrite IH. by destruct (forallb _ s).
Qed.

Lemma first_live_Some l s i : first_live l s = Some i → i ∈ s ∧ live l i.
Proof.
  induction s as [|j s IH]; simpl; [done|].
  destruct (live l j) eqn:Hj; intros Hi; simplify_eq; [by split; [left|rewrite Hj]|].
  destruct (IH Hi). by split; [right|].
Qed.

Lemma first_live_None l s : first_live l s = None → ∀ i, i ∈ s → live l i = false.
Proof.
  induction s as [|j s IH]; simpl; intros Hn i; [by intros ?%elem_of_nil|].
  destruct (live l j) eqn:Hj; [done|]. intros [->|?]%elem_of_cons; eauto.
Qed.

(** ** The invariant *)

(** Replacing the worker [i] by one with the same variable, adjusting the
    counters by what changes. *)
Lemma pool_ok_insert p i w w' c n g :
  pool_ok p → all p !! i = Some w → worker_ok w' → (done_var w' = true → done_var w = true) →
  let d (P : worker → bool) := ((if P w' then 1 else 0) - (if P w then 1 else 0) : Z)%Z in
  c = (count p + d alive)%Z → g = (wg p + d alive)%Z → n = (idleCount p + d alive - d busy)%Z →
  pool_ok (mkPool (workers p) (<[i := w']> (all p)) c n g).
Proof.
  intros [Hc Hg Hn Hw Hs Hr Hd] Hi Hw' Hv d -> -> ->. unfold d.
  split; cbn [all workers count idleCount wg]; try done.
  - rewrite (number_insert alive _ _ w) by done. lia.
  - rewrite (number_insert alive _ _ w) by done. lia.
  - rewrite (number_insert alive _ _ w), (number_insert busy _ _ w) by done. lia.
  - by apply Forall_insert.
  - intros j Hj. apply Hs. unfold live in *. destruct (decide (i = j)) as [<-|Hne].
    + rewrite list_lookup_insert_eq in Hj by (by eapply lookup_lt_Some). rewrite Hi. simpl in *.
      apply Is_true_true, Hv. by apply Is_true_true.
    + by rewrite list_lookup_insert_ne in Hj.
  - intros j Hj. rewrite length_insert. by apply Hr.
Qed.

Lemma pool_ok_cancel p i :
  pool_ok p → live (all p) i →
  pool_ok (mkPool (workers p) (cancel i (all p)) (count p) (idleCount p) (wg p)).
Proof.
  intros Hp (w & Hi & Hv)%live_Some. rewrite (cancel_insert i _ w) by done.
  pose proof (proj1 (Forall_lookup _ _) (po_workers _ Hp) _ _ Hi) as Hw. unfold worker_ok in Hw.
  eapply pool_ok_insert; [done|done| |done|..]; unfold alive, cancelled, worker_ok; simpl; try lia.
  naive_solver.
Qed.

Lemma pool_ok_close_loop ws l c n g slots :
  pool_ok (mkPool ws l c n g) →
  pool_ok (mkPool ws (foldl (λ l i, if live l i then cancel i l else l) l slots) c n g).
Proof.
  revert l; induction slots as [|i slots IH]; intros l Hp; simpl; [done|].
  apply IH. destruct (live l i) eqn:Hl; [|done].
  apply (pool_ok_cancel _ i Hp). simpl. by rewrite Hl.
Qed.

Lemma pool_ok_add p : pool_ok p → pool_ok (addWorker p).
Proof.
  intros [Hc Hg Hn Hw Hs Hr Hd].
  assert (length (all p) ∉ workers p) by (intros Hin; specialize (Hr _ Hin); lia).
  split; unfold addWorker; cbn [all workers count idleCount wg].
  1-3: rewrite !number_app, !number_cons, !number_nil; simpl; lia.
  - apply Forall_app; split; [done|]. repeat constructor; naive_solver.
  - intros i [Hl| ->]%live_app_inv; [by apply put_slot_live; [|apply Hs]|apply put_slot_new].
  - intros i [->|Hi]%elem_of_put_slot; rewrite length_app; simpl; [lia|]. specialize (Hr _ Hi). lia.
  - by apply put_slot_NoDup.
Qed.

(** The counters of the pool where one worker is replaced *)
Ltac replaced := unfold alive; simpl; repeat match goal with H : busy _ = _ |- _ => rewrite ?H; clear H | H : exited _ = _ |- _ => rewrite ?H; clear H end; simpl; lia.

(** [worker_ok] of the replaced worker, by cases on its fields *)
Ltac worker_cases w :=
  unfold worker_ok in *; destruct w as [[] [] [] [] []]; simpl in *; intuition congruence.

Lemma pool_ok_step p p' : pool_ok p → pool_step p p' → pool_ok p'.
Proof.
  intros Hp Hstep.
  assert (∀ i w, all p !! i = Some w → worker_ok w) as Hw
    by exact (proj1 (Forall_lookup _ _) (po_workers _ Hp)).
  destruct Hstep as [p|p|p|p i w Hi Ha|p i w Hi Ha Hb He|p i w Hi Hb|p i w Hi Ha Hc Hb He].
  4-7: specialize (Hw _ _ Hi);
    eapply pool_ok_insert; [done|exact Hi|worker_cases w|done|replaced|replaced|replaced].
  - by apply pool_ok_add.
  - unfold rmWorker. destruct (first_live _ _) as [i|] eqn:Hi; [|done].
    apply first_live_Some in Hi as [_ Hi]. by apply pool_ok_cancel.
  - unfold close_all. destruct p. by apply pool_ok_close_loop.
Qed.

Lemma pool_ok_new : pool_ok newWorkerPool.
Proof.
  split; simpl; try done; try constructor; try (intros i Hi; by apply elem_of_nil in Hi).
Qed.

Lemma pool_ok_reachable p : rtc pool_step newWorkerPool p → pool_ok p.
Proof. intros H. eapply (rtc_invariant _ pool_ok); eauto using pool_ok_step, pool_ok_new. Qed.

(** ** Does [close] return? *)

(** A worker that can no longer see that it was cancelled *)
Definition stuck (w : worker) : Prop :=
  exited w = false ∧ (arg w = NilChan ∨ (arg w = NotYet ∧ done_var w = false)).

Definition has_stuck (i : nat) (p : workerPool) : Prop := ∃ w, all p !! i = Some w ∧ stuck w.

(** A step touches one worker, or cancels some, or adds one; in the last two
    cases a stuck worker stays stuck. *)
Lemma stuck_insert (l : list worker) (i j : nat) w w' v :
  l !! i = Some v → stuck v → l !! j = Some w → (stuck w → stuck w') →
  ∃ v', <[j := w']> l !! i = Some v' ∧ stuck v'.
Proof.
  intros Hi Hv Hj Hw. destruct (decide (j = i)) as [->|Hne].
  - rewrite list_lookup_insert_eq by (by eapply lookup_lt_Some). simplify_eq. eauto.
  - rewrite list_lookup_insert_ne by done. eauto.
Qed.

Lemma stuck_cancel (l : list worker) (i j : nat) v :
  l !! i = Some v → stuck v → ∃ v', cancel j l !! i = Some v' ∧ stuck v'.
Proof.
  intros Hi Hv. destruct (l !! j) as [w|] eqn:Hj.
  - rewrite (cancel_insert _ _ w) by done. eapply stuck_insert; [done..|].
    unfold stuck, cancelled. simpl. naive_solver.
  - unfold cancel. exists v. by rewrite list_lookup_alter_ne by congruence.
Qed.

Lemma stuck_close_loop slots (l : list worker) (i : nat) v :
  l !! i = Some v → stuck v →
  ∃ v', foldl (λ l i, if live l i then cancel i l else l) l slots !! i = Some v' ∧ stuck v'.
Proof.
  revert l v; induction slots as [|j slots IH]; intros l v Hi Hv; simpl; [eauto|].
  destruct (live l j); [|eauto].
  destruct (stuck_cancel l i j v Hi Hv) as (v' & Hi' & Hv'). eauto.
Qed.

Lemma stuck_step i p p' : has_stuck i p → pool_step p p' → has_stuck i p'.
Proof.
  intros (v & Hi & Hv) Hstep. unfold has_stuck.
  destruct Hstep as [p|p|p|p j w Hj Ha|p j w Hj Ha Hb He|p j w Hj Hb|p j w Hj Ha Hc Hb He];
    cbn [all].
  4-7: eapply stuck_insert; [done..|]; unfold stuck; destruct w as [[] [] [] [] []];
    simpl in *; intuition congruence.
  - exists v. split; [|done]. by apply lookup_app_l_Some.
  - unfold rmWorker. destruct (first_live _ _); cbn [all]; [by eapply stuck_cancel|eauto].
  - by eapply stuck_close_loop.
Qed.

Lemma number_pos P l i w : l !! i = Some w → P w = true → (0 < number P l)%Z.
Proof.
  intros Hi Hw. revert i Hi. induction l as [|x l IH]; intros [|k] Hk; simplify_eq/=; rewrite number_cons.
  - pose proof (number_nonneg P l). rewrite Hw. lia.
  - specialize (IH _ Hk). destruct (P x); lia.
Qed.

Lemma stuck_alive i p : pool_ok p → has_stuck i p → wait_returns p = false.
Proof.
  intros Hp (w & Hi & He & _). unfold wait_returns. rewrite (po_wg _ Hp).
  apply bool_decide_eq_false_2. pose proof (number_pos alive _ i w Hi) as Hpos.
  unfold alive at 1 in Hpos. rewrite He in Hpos. specialize (Hpos eq_refl). lia.
Qed.

(** ** Draining a closed pool *)

Definition drainable (w : worker) : Prop :=
  exited w = false → arg w = RealChan ∧ chan_closed w = true.

(** One worker is brought to its end. *)
Lemma drain_one p i w :
  all p !! i = Some w → worker_ok w → drainable w →
  ∃ p', rtc pool_step p p' ∧ ∃ w', all p' = <[i := w']> (all p) ∧ exited w' = true.
Proof.
  intros Hi Hw Hdr. destruct (exited w) eqn:He.
  { exists p. split; [done|]. exists w. by rewrite list_insert_id. }
  destruct (Hdr He) as [Ha Hc]. destruct (busy w) eqn:Hb.
  - eexists. split.
    + eapply rtc_l; [by apply (step_idle p i w)|]. eapply rtc_once.
      eapply (step_exit _ i); cbn [all]; unfold set_worker;
        [by apply list_lookup_insert_eq; eapply lookup_lt_Some|done..].
    + unfold set_worker. cbn [all]. eexists. rewrite list_insert_insert_eq. by split.
  - eexists. split; [eapply rtc_once; by apply (step_exit p i w)|]. eexists. by split.
Qed.

Lemma drain_upto k p :
  pool_ok p → Forall drainable (all p) → k ≤ length (all p) →
  ∃ p', rtc pool_step p p' ∧ length (all p') = length (all p) ∧ Forall drainable (all p') ∧
        ∀ i w, i < k → all p' !! i = Some w → exited w = true.
Proof.
  intros Hp Hd. induction k as [|k IH]; intros Hk.
  { exists p. split; [done|]. repeat split; try done. intros; lia. }
  destruct IH as (q & Hpq & Hlen & Hdq & Hq); [lia|].
  assert (pool_ok q) as Hqok by (eapply (rtc_invariant _ pool_ok); eauto using pool_ok_step).
  destruct (lookup_lt_is_Some_2 (all q) k) as [w Hw]; [lia|].
  pose proof (proj1 (Forall_lookup _ _) (po_workers _ Hqok) _ _ Hw).
  destruct (drain_one q k w) as (q' & Hqq & w' & Hall & He); [done..|by eapply Forall_lookup|].
  exists q'. repeat split.
  - by etrans.
  - by rewrite Hall, length_insert.
  - rewrite Hall. apply Forall_insert; [done|]. unfold drainable. by rewrite He.
  - intros i v Hi. rewrite Hall. destruct (decide (i = k)) as [->|Hne].
    + rewrite list_lookup_insert_eq by lia. by intros [= <-].
    + rewrite list_lookup_insert_ne by done. apply Hq. lia.
Qed.

Lemma number_zero P l : Forall (λ w, P w = false) l → number P l = 0%Z.
Proof. induction 1 as [|w l Hw _ IH]; [done|]. by rewrite number_cons, Hw, IH. Qed.

Lemma all_exited_returns p :
  pool_ok p → (∀ i w, all p !! i = Some w → exited w = true) → wait_returns p = true.
Proof.
  intros Hp Hall. apply bool_decide_eq_true_2. rewrite (po_wg _ Hp).
  apply number_zero, Forall_lookup. intros i w Hi. unfold alive. by rewrite (Hall _ _ Hi).
Qed.

#[local] Arguments bool_decide : simpl never.

(** What the loop of [close] does to one worker: it is cancelled if its
    variable is live, in any case its fields but the two channels are kept. *)
Lemma close_loop_lookup slots (l : list worker) (i : nat) :
  foldl (λ l i, if live l i then cancel i l else l) l slots !! i =
  (λ w, if done_var w && bool_decide (i ∈ slots) then cancelled w else w) <$> l !! i.
Proof.
  revert l; induction slots as [|j slots IH]; intros l; simpl.
  { destruct (l !! i) as [w|]; simpl; [|done].
    rewrite bool_decide_eq_false_2 by (by intros ?%elem_of_nil). by rewrite andb_false_r. }
  rewrite IH. destruct (live l j) eqn:Hl.
  - destruct (live_Some l j) as (v & Hj & Hv); [by rewrite Hl|].
    rewrite (cancel_insert _ _ v) by done. destruct (decide (j = i)) as [->|Hne].
    + rewrite list_lookup_insert_eq by (by eapply lookup_lt_Some). rewrite Hj. simpl. rewrite Hv.
      by rewrite (bool_decide_eq_true_2 (i ∈ i :: slots)) by left.
    + rewrite list_lookup_insert_ne by done. destruct (l !! i) as [w|]; [|done]. simpl.
      by rewrite (bool_decide_ext (i ∈ slots) (i ∈ j :: slots)) by (rewrite elem_of_cons; naive_solver).
  - destruct (decide (j = i)) as [->|Hne].
    + unfold live in Hl. destruct (l !! i) as [w|]; [|done]. simpl in *. by rewrite Hl.
    + destruct (l !! i) as [w|]; [|done]. simpl.
      by rewrite (bool_decide_ext (i ∈ slots) (i ∈ j :: slots)) by (rewrite elem_of_cons; naive_solver).
Qed.

Lemma close_all_lookup p i :
  pool_ok p →
  all (close_all p) !! i = (λ w, if done_var w then cancelled w else w) <$> all p !! i.
Proof.
  intros Hp. unfold close_all. cbn [all]. rewrite close_loop_lookup.
  destruct (all p !! i) as [w|] eqn:Hi; simpl; [|done]. destruct (done_var w) eqn:Hv; [|done].
  rewrite bool_decide_eq_true_2; [done|]. apply (po_slots _ Hp).
  unfold live. rewrite Hi. simpl. by rewrite Hv.
Qed.

(** ** Properties *)

Definition idling (w : worker) : bool := alive w && negb (busy w).

Lemma number_idling l :
  Forall worker_ok l → number idling l = (number alive l - number busy l)%Z.
Proof.
  induction 1 as [|w l (_ & _ & _ & Hb & _) _ IH]; [done|]. rewrite !number_cons, IH.
  unfold idling, alive. destruct (busy w); [rewrite Hb by done|destruct (exited w)]; simpl; lia.
Qed.

(** C29. In every state the worker pool reaches, under any interleaving of its
    operations with the steps of its goroutines: [getCount] and the wait group
    count the goroutines that have not ended, [getIdleCount] those of them that
    are not handling a message; every worker's channel is closed exactly when
    its variable is nil, so no channel is closed twice; and a worker that is
    not cancelled is reachable through exactly one slot. *)
Theorem pool_counts_workers p :
  rtc pool_step newWorkerPool p →
  getCount p = number alive (all p) ∧ wg p = number alive (all p) ∧
  getIdleCount p = number idling (all p) ∧
  (∀ i w, all p !! i = Some w →
     done_var w = negb (chan_closed w) ∧ (done_var w = true → i ∈ workers p)) ∧
  NoDup (workers p).
Proof.
  intros Hp%pool_ok_reachable. unfold getCount, getIdleCount. repeat split.
  - apply (po_count _ Hp).
  - apply (po_wg _ Hp).
  - rewrite number_idling by apply (po_workers _ Hp). pose proof (po_idle _ Hp). lia.
  - by apply (proj1 (Forall_lookup _ _) (po_workers _ Hp) _ _ H).
  - intros Hv. apply (po_slots _ Hp). unfold live. rewrite H. simpl. by rewrite Hv.
  - apply (po_NoDup _ Hp).
Qed.

(** Two workers, one of them busy, the other cancelled and gone *)
Lemma pool_counts_workers_witness :
  ∃ p, rtc pool_step newWorkerPool p ∧ getCount p = 1%Z ∧ getIdleCount p = 0%Z ∧
       getCount p = number alive (all p) ∧ getIdleCount p = number idling (all p).
Proof.
  assert (∃ p, rtc pool_step newWorkerPool p ∧ getCount p = 1%Z ∧ getIdleCount p = 0%Z) as (p & Hp & H1 & H2).
  { eexists. split.
    - eapply rtc_l; [by apply step_add|]. eapply rtc_l; [by apply step_add|].
      eapply rtc_l; [by apply (step_start _ 0)|]. eapply rtc_l; [by apply (step_start _ 1)|].
      eapply rtc_l; [by apply (step_working _ 1)|]. eapply rtc_l; [by apply step_rm|].
      eapply rtc_l; [by apply (step_exit _ 0)|]. apply rtc_refl.
    - by split. }
  exists p. destruct (pool_counts_workers p Hp) as (? & _ & ? & _). by repeat split.
Defined.

(** C30. [close] can return exactly when every goroutine that is still alive had
    already read its channel: a worker that was cancelled ([rmWorker], or
    [close] itself) between [addWorker] and the first instruction of its
    goroutine is given a nil channel, never sees that it was cancelled, and
    [close] waits for it forever.  Otherwise the workers can always be brought
    to their end, whatever they are doing. *)
Theorem close_returns_iff p :
  rtc pool_step newWorkerPool p →
  (∃ p', rtc pool_step (close_all p) p' ∧ wait_returns p' = true) ↔
  (∀ i w, all p !! i = Some w → exited w = false → arg w = RealChan).
Proof.
  intros Hp%pool_ok_reachable.
  assert (pool_ok (close_all p)) as Hc by (eapply pool_ok_step; [done|apply step_close]).
  assert (∀ i w, all p !! i = Some w → worker_ok w) as Hw
    by exact (proj1 (Forall_lookup _ _) (po_workers _ Hp)).
  split.
  - intros (p' & Hreach & Hret) i w Hi He. destruct (arg w) eqn:Ha; [exfalso| done |exfalso].
    all: assert (has_stuck i p') as Hs; [|rewrite (stuck_alive i p') in Hret by
      (try done; eapply (rtc_invariant _ pool_ok); eauto using pool_ok_step); done].
    all: eapply (rtc_invariant _ (has_stuck i)); [apply stuck_step| |exact Hreach].
    all: unfold has_stuck; rewrite close_all_lookup, Hi by done; simpl; eexists; split; [done|].
    all: specialize (Hw _ _ Hi); unfold stuck; worker_cases w.
  - intros Hall.
    destruct (drain_upto (length (all (close_all p))) (close_all p)) as (p' & Hreach & Hlen & _ & Hex);
      [done| |done|].
    + apply Forall_lookup. intros i w'. rewrite close_all_lookup by done.
      destruct (all p !! i) as [w|] eqn:Hi; [|done]. simpl. intros [= <-] He.
      specialize (Hw _ _ Hi). specialize (Hall _ _ Hi). worker_cases w.
    + exists p'. split; [done|]. apply all_exited_returns.
      * eapply (rtc_invariant _ pool_ok); eauto using pool_ok_step.
      * intros i w Hi. apply (Hex i w); [|done]. rewrite <- Hlen. by eapply lookup_lt_Some.
Qed.

(** A pool with one worker, closed before its goroutine runs: from then on
    [close] does not return, whatever happens. *)
Lemma close_returns_iff_witness :
  ¬ ∃ p', rtc pool_step (close_all (addWorker newWorkerPool)) p' ∧ wait_returns p' = true.
Proof.
  intros H. assert (NotYet = RealChan) as Hne; [|discriminate Hne].
  apply (proj1 (close_returns_iff (addWorker newWorkerPool) (rtc_once _ _ (step_add _))) H
    0 (mkWorker true false NotYet false false)); done.
Defined.
