(* ===== verification/MsgQ.v ===== *)
(** The message queue of a server (scalamsgq.go): three ingress channels by
    priority, the goroutine that moves messages from them to the egress channel,
    and the workers that take messages from it, as a step relation in which
    every channel operation is a step.  The size of the queue is positive, as
    [SetScaleFactors] keeps it. *)
From S2P Require Import Prelude WorkerPool.

(** The type switch of [putMetaMsg] *)
Inductive priority := High | Normal | Low.

#[export] Instance priority_eq_dec : EqDecision priority.
Proof. solve_decision. Defined.

(** [metaKnownMsg], with what the queue looks at: its priority, and which
    message it is *)
Record metaKnownMsg := mkMsg { class : priority; payload : nat }.

#[export] Instance metaKnownMsg_eq_dec : EqDecision metaKnownMsg.
Proof. solve_decision. Defined.

(** What [reorder] has left to do in one turn of its loop: send a message it
    holds, or move [k] messages of a class *)
Inductive task :=
| Put (m : metaKnownMsg)
| Drain (c : priority) (k : nat).

(** Where the goroutine of [reorder] is.  In its select it waits on the channels
    it evaluated when it got there: the flags tell whether [mq.done] and the
    channels of high and low priority were there. *)
Inductive reorder_at :=
| RNone
| RLoop
| RSelect (done high low : bool)
| RTurn (todo : list task)
| RStopped.

(** Where a worker is.  In its select it waits on the channel [getEgressChan]
    gave, which is the egress channel or else the normal ingress channel. *)
Inductive worker_at :=
| WLoop
| WSelect (egress : bool)
| WBusy (m : metaKnownMsg)
| WGone.

Record msgQ := mkMsgQ {
  qSize : nat;
  ingressHighChan : option (list metaKnownMsg);
  ingressNormalChan : list metaKnownMsg;
  ingressLowChan : option (list metaKnownMsg);
  egressChan : option (list metaKnownMsg);
  mq_done : bool;                    (** [mq.done] is not nil *)
  done_closed : bool;
  reo : reorder_at;
  crew : list worker_at;
  (* what happened so far *)
  puts : list metaKnownMsg;          (** sent to an ingress channel *)
  sent : list metaKnownMsg;          (** sent to the egress channel *)
  taken : list metaKnownMsg;         (** received from the egress channel *)
  direct : list metaKnownMsg;        (** received from the normal channel by a worker *)
}.

(** [newMsgQ], with the workers it starts *)
Definition newMsgQ (residentWorkers qSize : nat) : msgQ :=
  mkMsgQ qSize None [] None None true false RNone (replicate residentWorkers WLoop) [] [] [] [].

Definition set_ingress (c : priority) (q : list metaKnownMsg) (mq : msgQ) : msgQ :=
  let '(mkMsgQ sz h n l e d dc r w p s t di) := mq in
  match c with
  | High => mkMsgQ sz (Some q) n l e d dc r w p s t di
  | Normal => mkMsgQ sz h q l e d dc r w p s t di
  | Low => mkMsgQ sz h n (Some q) e d dc r w p s t di
  end.
Definition set_reo (r : reorder_at) (mq : msgQ) : msgQ :=
  let '(mkMsgQ sz h n l e d dc _ w p s t di) := mq in mkMsgQ sz h n l e d dc r w p s t di.
Definition set_crew (w : list worker_at) (mq : msgQ) : msgQ :=
  let '(mkMsgQ sz h n l e d dc r _ p s t di) := mq in mkMsgQ sz h n l e d dc r w p s t di.
Definition set_egress (e : option (list metaKnownMsg)) (mq : msgQ) : msgQ :=
  let '(mkMsgQ sz h n l _ d dc r w p s t di) := mq in mkMsgQ sz h n l e d dc r w p s t di.
Definition log_put (m : metaKnownMsg) (mq : msgQ) : msgQ :=
  let '(mkMsgQ sz h n l e d dc r w p s t di) := mq in mkMsgQ sz h n l e d dc r w (p ++ [m]) s t di.
Definition log_sent (m : metaKnownMsg) (mq : msgQ) : msgQ :=
  let '(mkMsgQ sz h n l e d dc r w p s t di) := mq in mkMsgQ sz h n l e d dc r w p (s ++ [m]) t di.
Definition log_taken (m : metaKnownMsg) (mq : msgQ) : msgQ :=
  let '(mkMsgQ sz h n l e d dc r w p s t di) := mq in mkMsgQ sz h n l e d dc r w p s (t ++ [m]) di.
Definition log_direct (m : metaKnownMsg) (mq : msgQ) : msgQ :=
  let '(mkMsgQ sz h n l e d dc r w p s t di) := mq in mkMsgQ sz h n l e d dc r w p s t (di ++ [m]).

(** The ingress channel of a class, when it has been made *)
Definition ingress (c : priority) (mq : msgQ) : option (list metaKnownMsg) :=
  match c with
  | High => ingressHighChan mq
  | Normal => Some (ingressNormalChan mq)
  | Low => ingressLowChan mq
  end.

(** What is buffered in it: [len] of a nil channel is zero *)
Definition queued (c : priority) (mq : msgQ) : list metaKnownMsg := default [] (ingress c mq).

(** [initChan], for a channel that has not been made: under the lock, make it,
    and make the egress channel and start [reorder] the first time *)
Definition initChan (c : priority) (mq : msgQ) : msgQ :=
  match ingress c mq with
  | Some _ => mq
  | None =>
      let mq := set_ingress c [] mq in
      match egressChan mq with
      | Some _ => mq
      | None => set_reo RLoop (set_egress (Some []) mq)
      end
  end.

(** [putMetaMsg]: the send to the ingress channel blocks while it is full *)
Definition putMetaMsg (m : metaKnownMsg) (mq : msgQ) : option msgQ :=
  let mq := initChan (class m) mq in
  let q := queued (class m) mq in
  if bool_decide (length q < qSize mq)
  then Some (log_put m (set_ingress (class m) (q ++ [m]) mq))
  else None.

(** [getEgressChan]: is it the egress channel? *)
Definition getEgressChan (mq : msgQ) : bool := bool_decide (is_Some (egressChan mq)).

(** [close], once; a second call panics *)
Definition mq_close (mq : msgQ) : outcome msgQ :=
  let '(mkMsgQ sz h n l e d dc r w p s t di) := mq in
  if d then Return (mkMsgQ sz h n l e false true r w p s t di)
  else Panics (str "close of nil channel").

(** ** [reorder] *)

(** The turn that starts with a message received by the select *)
Definition turn_of (m : metaKnownMsg) (lenH lenN lenL : nat) : list task :=
  (if decide (class m = High) then [Put m] else []) ++ [Drain High lenH] ++
  (if decide (class m = Normal) then [Put m] else []) ++ [Drain Normal lenN] ++
  (if decide (class m = Low) then [Put m] else []) ++ [Drain Low lenL].

(** The select waits on a class *)
Definition selects (c : priority) (high low : bool) : bool :=
  match c with High => high | Normal => true | Low => low end.

(** The select receives from the channel of a class *)
Definition reorder_select (c : priority) (mq : msgQ) : option msgQ :=
  match reo mq with
  | RSelect _ high low =>
      if selects c high low then
        match queued c mq with
        | [] => None
        | m :: rest =>
            let mq := set_ingress c rest mq in
            Some (set_reo (RTurn (turn_of m (length (queued High mq)) (length (queued Normal mq))
                                    (length (queued Low mq)))) mq)
        end
      else None
  | _ => None
  end.

(** One operation of a turn, [None] while it blocks *)
Definition reorder_turn (mq : msgQ) : option msgQ :=
  match reo mq with
  | RTurn [] => Some (set_reo RLoop mq)
  | RTurn (Put m :: todo) =>
      match egressChan mq with
      | None => None
      | Some e =>
          if bool_decide (length e < qSize mq)
          then Some (log_sent m (set_egress (Some (e ++ [m])) (set_reo (RTurn todo) mq)))
          else None
      end
  | RTurn (Drain c 0 :: todo) => Some (set_reo (RTurn todo) mq)
  | RTurn (Drain c (S k) :: todo) =>
      match queued c mq with
      | [] => None
      | m :: rest => Some (set_reo (RTurn (Put m :: Drain c k :: todo)) (set_ingress c rest mq))
      end
  | _ => None
  end.

(** ** Steps; [mayPut] are the messages that may arrive *)

Inductive mq_step (mayPut : metaKnownMsg → Prop) : msgQ → msgQ → Prop :=
| mq_init m mq : mayPut m → mq_step mayPut mq (initChan (class m) mq)
| mq_put m mq mq' : mayPut m → putMetaMsg m mq = Some mq' → mq_step mayPut mq mq'
| mq_stop mq mq' : mq_close mq = Return mq' → mq_step mayPut mq mq'
| reorder_loops mq :
    reo mq = RLoop →
    mq_step mayPut mq (set_reo (RSelect (mq_done mq) (bool_decide (is_Some (ingressHighChan mq)))
                                  (bool_decide (is_Some (ingressLowChan mq)))) mq)
| reorder_stops high low mq :
    reo mq = RSelect true high low → done_closed mq = true → mq_step mayPut mq (set_reo RStopped mq)
| reorder_selects c mq mq' : reorder_select c mq = Some mq' → mq_step mayPut mq mq'
| reorder_turns mq mq' : reorder_turn mq = Some mq' → mq_step mayPut mq mq'
| worker_loops i mq :
    crew mq !! i = Some WLoop →
    mq_step mayPut mq (set_crew (<[i := WSelect (getEgressChan mq)]> (crew mq)) mq)
| worker_takes i m rest mq :
    crew mq !! i = Some (WSelect true) → egressChan mq = Some (m :: rest) →
    mq_step mayPut mq (log_taken m (set_egress (Some rest) (set_crew (<[i := WBusy m]> (crew mq)) mq)))
| worker_takes_direct i m rest mq :
    crew mq !! i = Some (WSelect false) → ingressNormalChan mq = m :: rest →
    mq_step mayPut mq (log_direct m (set_ingress Normal rest (set_crew (<[i := WBusy m]> (crew mq)) mq)))
| worker_replies i m mq :
    crew mq !! i = Some (WBusy m) → mq_step mayPut mq (set_crew (<[i := WLoop]> (crew mq)) mq)
| worker_exits i e mq :
    crew mq !! i = Some (WSelect e) → mq_step mayPut mq (set_crew (<[i := WGone]> (crew mq)) mq)
| worker_added mq : mq_step mayPut mq (set_crew (crew mq ++ [WLoop]) mq).

Definition anything : metaKnownMsg → Prop := λ _, True.

(** ** Lists of messages *)

Definition copies (x : metaKnownMsg) (l : list metaKnownMsg) : nat := length (filter (λ y, y = x) l).
Definition of_class (c : priority) (l : list metaKnownMsg) : list metaKnownMsg :=
  filter (λ m, class m = c) l.

Lemma copies_app x l k : copies x (l ++ k) = copies x l + copies x k.
Proof. unfold copies. by rewrite filter_app, length_app. Qed.

Lemma copies_nil x : copies x [] = 0.
Proof. done. Qed.

Lemma copies_cons x y l : copies x (y :: l) = (if decide (y = x) then 1 else 0) + copies x l.
Proof. unfold copies. rewrite filter_cons. by destruct (decide (y = x)). Qed.

Lemma copies_Permutation l k : (∀ x, copies x l = copies x k) → l ≡ₚ k.
Proof.
  revert k; induction l as [|y l IH]; intros k Hc.
  - destruct k as [|y k]; [done|]. specialize (Hc y). rewrite copies_cons, decide_True in Hc by done. done.
  - assert (y ∈ k) as (k1 & k2 & ->)%list_elem_of_split.
    { specialize (Hc y). rewrite copies_cons, decide_True in Hc by done.
      unfold copies in Hc at 2. destruct (filter (λ z, z = y) k) as [|z zs] eqn:Hk; [done|].
      assert (z ∈ filter (λ z, z = y) k) as [-> ?]%list_elem_of_filter by (rewrite Hk; left). done. }
    rewrite <- Permutation_middle. f_equiv. apply IH. intros x. specialize (Hc x).
    rewrite copies_cons, !copies_app, copies_cons in Hc. rewrite copies_app. lia.
Qed.

Lemma of_class_app c l k : of_class c (l ++ k) = of_class c l ++ of_class c k.
Proof. apply filter_app. Qed.

Lemma of_class_cons c m l :
  of_class c (m :: l) = (if decide (class m = c) then [m] else []) ++ of_class c l.
Proof. unfold of_class. rewrite filter_cons. by destruct (decide (class m = c)). Qed.

Lemma sublist_same_length {A} (l k : list A) : l `sublist_of` k → length k ≤ length l → l = k.
Proof.
  induction 1 as [|x l k Hs IH|x l k Hs IH]; simpl; intros Hl; [done| |].
  - f_equal. apply IH. lia.
  - apply sublist_length in Hs. lia.
Qed.

(** ** The invariant *)

Definition todo (mq : msgQ) : list task := match reo mq with RTurn todo => todo | _ => [] end.

(** The messages held by [reorder] *)
Definition held_by (t : task) : list metaKnownMsg := match t with Put m => [m] | Drain _ _ => [] end.
Definition held (l : list task) : list metaKnownMsg := l ≫= held_by.

(** The order of the tasks of a turn *)
Definition level (c : priority) : nat := match c with High => 0 | Normal => 1 | Low => 2 end.
Definition rank (t : task) : nat :=
  match t with Put m => 2 * level (class m) | Drain c _ => S (2 * level c) end.
Definition in_order (l : list task) : Prop := StronglySorted (λ t1 t2, rank t1 < rank t2) l.

(** What relates the places a message can be in: [q c] is queued in the ingress
    channel of class [c], [e] in the egress channel, [td] is the turn of [reorder]. *)
Record flow (q : priority → list metaKnownMsg) (td : list task)
    (e snt tkn dir pts : list metaKnownMsg) : Prop := mkFlow {
  fl_class : ∀ c, Forall (λ m, class m = c) (q c);
  fl_todo : in_order td;
  fl_egress : snt = tkn ++ e;
  fl_direct : Forall (λ m, class m = Normal) dir;
  fl_copies : ∀ x, copies x pts =
    copies x dir + copies x snt + copies x (held td) +
    copies x (q High) + copies x (q Normal) + copies x (q Low);
  fl_order : ∀ c, of_class c snt ++ of_class c (held td) ++ q c `sublist_of` of_class c pts;
}.

Definition mq_ok (mq : msgQ) : Prop :=
  flow (λ c, queued c mq) (todo mq) (default [] (egressChan mq)) (sent mq) (taken mq) (direct mq) (puts mq)
  ∧ (egressChan mq = None → reo mq = RNone).

Lemma held_cons t l : held (t :: l) = held_by t ++ held l.
Proof. done. Qed.

Lemma in_order_turn m h n l : in_order (turn_of m h n l).
Proof.
  unfold in_order, turn_of. destruct m as [[] p]; simpl;
    repeat (constructor; simpl; try lia).
Qed.

Lemma in_order_tail t l : in_order (t :: l) → in_order l.
Proof. by intros [_ ?]%StronglySorted_cons. Qed.

(** While a class is drained no message of the class is held. *)
Lemma in_order_drain c k l : in_order (Drain c k :: l) → of_class c (held l) = [].
Proof.
  intros [Hl _]%StronglySorted_cons. induction Hl as [|t l Ht _ IH]; [done|].
  rewrite held_cons, of_class_app, IH, app_nil_r. destruct t as [m|]; [|done].
  simpl in *. rewrite of_class_cons. destruct (decide (class m = c)) as [<-|]; [lia|done].
Qed.

Lemma in_order_put m c k l :
  class m = c → in_order (Drain c (S k) :: l) → in_order (Put m :: Drain c k :: l).
Proof.
  intros <- [Hl Hs]%StronglySorted_cons. unfold in_order.
  apply StronglySorted_cons. split; [|apply StronglySorted_cons; by split].
  constructor; simpl; [lia|]. eapply Forall_impl; [exact Hl|]. simpl. lia.
Qed.

(** Changing one queue *)
Definition upd (c : priority) (l : list metaKnownMsg) (q : priority → list metaKnownMsg) :=
  λ c', if decide (c' = c) then l else q c'.

Section flow.
Context {q : priority → list metaKnownMsg} {td : list task} {e snt tkn dir pts : list metaKnownMsg}.
Hypothesis Hflow : flow q td e snt tkn dir pts.

Lemma flow_ext q' : (∀ c, q' c = q c) → flow q' td e snt tkn dir pts.
Proof. intros Hq. destruct Hflow. split; intros; rewrite ?Hq; eauto. Qed.

(** The copies of a message in the queues where one of them changes *)
Lemma copies_upd x c l :
  copies x (upd c l q High) + copies x (upd c l q Normal) + copies x (upd c l q Low) + copies x (q c) =
  copies x (q High) + copies x (q Normal) + copies x (q Low) + copies x l.
Proof. destruct c; unfold upd; simpl; lia. Qed.

Lemma flow_put m :
  flow (upd (class m) (q (class m) ++ [m]) q) td e snt tkn dir (pts ++ [m]).
Proof.
  destruct Hflow as [H1 H2 H3 H4 H5 H6]. split; try done.
  - intros c. unfold upd. destruct (decide (c = class m)) as [->|]; [|done].
    apply Forall_app. by repeat constructor.
  - intros x. pose proof (copies_upd x (class m) (q (class m) ++ [m])) as Hc. specialize (H5 x).
    rewrite copies_app in Hc. rewrite copies_app. lia.
  - intros c. rewrite of_class_app. unfold upd. rewrite of_class_cons.
    destruct (decide (c = class m)) as [->|Hne].
    + rewrite decide_True by done. simpl. rewrite !app_assoc. apply sublist_app; [|done].
      rewrite <- app_assoc. apply H6.
    + rewrite decide_False by congruence. simpl. rewrite app_nil_r. apply H6.
Qed.

Lemma flow_select c m rest h n l :
  td = [] → q c = m :: rest → flow (upd c rest q) (turn_of m h n l) e snt tkn dir pts.
Proof.
  intros -> Hc. destruct Hflow as [H1 H2 H3 H4 H5 H6].
  assert (class m = c) as Hm by (specialize (H1 c); rewrite Hc in H1; by apply Forall_cons in H1 as [-> _]).
  assert (held (turn_of m h n l) = [m]) as Hheld by (by unfold turn_of; destruct (class m)).
  split; try done; rewrite ?Hheld.
  - intros c'. unfold upd. destruct (decide (c' = c)) as [->|]; [|done].
    specialize (H1 c). rewrite Hc in H1. by apply Forall_cons in H1 as [_ ?].
  - apply in_order_turn.
  - intros x. pose proof (copies_upd x c rest) as Hu. specialize (H5 x).
    rewrite Hc, copies_cons in Hu. rewrite copies_cons. simpl in *. lia.
  - intros c'. specialize (H6 c'). unfold upd. rewrite of_class_cons.
    destruct (decide (c' = c)) as [->|Hne].
    + rewrite decide_True by done. by rewrite Hc in H6.
    + by rewrite decide_False by congruence.
Qed.

Lemma flow_drain c k rest m q' :
  td = Drain c (S k) :: rest → q c = m :: q' →
  flow (upd c q' q) (Put m :: Drain c k :: rest) e snt tkn dir pts.
Proof.
  intros -> Hc. destruct Hflow as [H1 H2 H3 H4 H5 H6].
  assert (class m = c) as Hm by (specialize (H1 c); rewrite Hc in H1; by apply Forall_cons in H1 as [-> _]).
  split; try done.
  - intros c'. unfold upd. destruct (decide (c' = c)) as [->|]; [|done].
    specialize (H1 c). rewrite Hc in H1. by apply Forall_cons in H1 as [_ ?].
  - by apply in_order_put.
  - intros x. pose proof (copies_upd x c q') as Hu. specialize (H5 x).
    rewrite Hc, copies_cons in Hu. rewrite held_cons in H5. rewrite !held_cons. simpl in *.
    rewrite copies_cons. lia.
  - intros c'. specialize (H6 c'). unfold upd. rewrite !held_cons in *. simpl in *. rewrite of_class_cons.
    destruct (decide (c' = c)) as [->|Hne].
    + rewrite decide_True by done. rewrite Hc in H6.
      by rewrite (in_order_drain c (S k) rest) in * by done.
    + by rewrite decide_False by congruence.
Qed.

Lemma flow_skip t rest : td = t :: rest → held_by t = [] → flow q rest e snt tkn dir pts.
Proof.
  intros -> Ht. destruct Hflow as [H1 H2 H3 H4 H5 H6]. rewrite held_cons, Ht in *. simpl in *.
  split; try done. by eapply in_order_tail.
Qed.

Lemma flow_send m rest : td = Put m :: rest → flow q rest (e ++ [m]) (snt ++ [m]) tkn dir pts.
Proof.
  intros ->. destruct Hflow as [H1 H2 H3 H4 H5 H6]. rewrite held_cons in *. simpl in *. split; try done.
  - by eapply in_order_tail.
  - by rewrite H3, app_assoc.
  - intros x. specialize (H5 x). rewrite copies_cons in H5. rewrite copies_app, copies_cons, copies_nil. lia.
  - intros c. specialize (H6 c). rewrite of_class_app.
    rewrite of_class_cons in H6. rewrite of_class_cons. simpl. by rewrite app_nil_r, <- !app_assoc in *.
Qed.

Lemma flow_take m rest : e = m :: rest → flow q td rest snt (tkn ++ [m]) dir pts.
Proof.
  intros ->. destruct Hflow as [H1 H2 H3 H4 H5 H6]. split; try done. by rewrite H3, <- app_assoc.
Qed.

Lemma flow_direct m rest : q Normal = m :: rest → flow (upd Normal rest q) td e snt tkn (dir ++ [m]) pts.
Proof.
  intros Hc. destruct Hflow as [H1 H2 H3 H4 H5 H6].
  pose proof (H1 Normal) as Hn. rewrite Hc in Hn. apply Forall_cons in Hn as [Hm Hn].
  split; try done.
  - intros c'. unfold upd. by destruct (decide (c' = Normal)) as [->|].
  - apply Forall_app. by repeat constructor.
  - intros x. pose proof (copies_upd x Normal rest) as Hu. specialize (H5 x).
    rewrite Hc in H5, Hu. rewrite copies_cons in H5, Hu.
    rewrite copies_app, copies_cons, copies_nil. lia.
  - intros c'. specialize (H6 c'). unfold upd. destruct (decide (c' = Normal)) as [->|]; [|done].
    etrans; [|exact H6]. rewrite Hc. repeat (apply sublist_app; [done|]). by constructor.
Qed.
End flow.

Lemma queued_set_ingress c c' q mq :
  queued c (set_ingress c' q mq) = if decide (c = c') then q else queued c mq.
Proof. by destruct mq, c, c'. Qed.

(** ** Every step keeps it *)

Lemma mq_ok_new n sz : mq_ok (newMsgQ n sz).
Proof. split; [|done]. split; simpl; try done; try (intros []; constructor); constructor. Qed.

Ltac apply_flow H :=
  eapply flow_ext; [eapply H|]; try done; try (intros []; done).

Lemma mq_ok_init c mq : mq_ok mq → mq_ok (initChan c mq).
Proof.
  intros [Hf Hr]. unfold initChan. destruct (ingress c mq) eqn:Hi; [done|].
  destruct mq as [sz h n l [e|] d dc r w p s t di], c; simpl in *; simplify_eq.
  all: try rewrite (Hr eq_refl) in Hf; split; try done; simpl in *.
  all: eapply flow_ext; [exact Hf|intros []; done].
Qed.

Lemma mq_ok_put m mq mq' : mq_ok mq → putMetaMsg m mq = Some mq' → mq_ok mq'.
Proof.
  unfold putMetaMsg. intros Hok%(mq_ok_init (class m)). destruct (bool_decide _); [|done].
  intros [= <-]. revert Hok. generalize (initChan (class m) mq). clear mq. intros mq [Hf Hr].
  pose proof (flow_put Hf m) as Hp. destruct mq, m as [[] pl]; split; try done; simpl in *;
    (eapply flow_ext; [exact Hp|intros []; done]).
Qed.

Lemma mq_ok_select c mq mq' : mq_ok mq → reorder_select c mq = Some mq' → mq_ok mq'.
Proof.
  intros [Hf Hr]. unfold reorder_select. destruct (reo mq) as [| |d h l|td|] eqn:Hreo; try done.
  destruct (selects c h l); [|done]. destruct (queued c mq) as [|m rest] eqn:Hq; [done|].
  intros [= <-]. assert (todo mq = []) as Ht by (unfold todo; by rewrite Hreo).
  match goal with |- context [turn_of m ?a ?b ?c] => pose proof (flow_select Hf _ _ _ a b c Ht Hq) as Hs end.
  assert (egressChan mq ≠ None) as He by (intros He; specialize (Hr He); congruence).
  destruct mq, c; split; try done; simpl in *; (eapply flow_ext; [exact Hs|intros []; done]).
Qed.

Lemma mq_ok_turn mq mq' : mq_ok mq → reorder_turn mq = Some mq' → mq_ok mq'.
Proof.
  intros [Hf Hr]. unfold reorder_turn.
  assert (reo mq ≠ RNone → egressChan mq ≠ None) as He by tauto.
  destruct (reo mq) as [| | |[|[m|c [|k]] td]|] eqn:Hreo; try done.
  1-4: specialize (He ltac:(done)).
  1-4: assert (todo mq = match reo mq with RTurn todo => todo | _ => [] end) as Ht by done; rewrite Hreo in Ht.
  - intros [= <-]. rewrite Ht in Hf. by destruct mq.
  - destruct (egressChan mq) as [e|] eqn:Heg; [|done]. destruct (bool_decide _); [|done].
    intros [= <-]. pose proof (flow_send Hf m td Ht) as Hs. by destruct mq; simplify_eq/=.
  - intros [= <-]. pose proof (flow_skip Hf _ td Ht eq_refl) as Hs. by destruct mq.
  - destruct (queued c mq) as [|m rest] eqn:Hq; [done|]. intros [= <-].
    pose proof (flow_drain Hf c k td m rest Ht Hq) as Hs.
    destruct mq, c; split; try done; simpl in *; (eapply flow_ext; [exact Hs|intros []; done]).
Qed.

Lemma mq_ok_step P mq mq' : mq_ok mq → mq_step P mq mq' → mq_ok mq'.
Proof.
  intros Hok Hstep.
  destruct Hstep as [m mq _|m mq mq' _ Hp|mq mq' Hc|mq Hr|h l mq Hr _|c mq mq' Hs|mq mq' Ht|i mq _
    |i m rest mq _ He|i m rest mq _ Hn|i m mq _|i e mq _|mq].
  - by apply mq_ok_init.
  - by eapply mq_ok_put.
  - destruct mq as [sz h n l e [] dc r w p s t di]; simplify_eq/=. exact Hok.
  - destruct Hok as [Hf Ho]. destruct mq as [sz h n l [e|] d dc r w p s t di]; simplify_eq/=; [by split|].
    discriminate (Ho eq_refl).
  - destruct Hok as [Hf Ho]. destruct mq as [sz hi n lo [e|] d dc r w p s t di]; simplify_eq/=; [by split|].
    discriminate (Ho eq_refl).
  - by eapply mq_ok_select.
  - by eapply mq_ok_turn.
  - by destruct mq.
  - destruct Hok as [Hf Ho]. rewrite He in Hf. pose proof (flow_take Hf m rest eq_refl). by destruct mq.
  - destruct Hok as [Hf Ho]. assert (queued Normal mq = m :: rest) as Hq by (by destruct mq).
    pose proof (flow_direct Hf m rest Hq) as Hd.
    destruct mq; split; try done; simpl in *; (eapply flow_ext; [exact Hd|intros []; done]).
  - by destruct mq.
  - by destruct mq.
  - by destruct mq.
Qed.

Lemma mq_ok_reachable n sz mq : rtc (mq_step anything) (newMsgQ n sz) mq → mq_ok mq.
Proof. intros H. eapply (rtc_invariant _ mq_ok); eauto using mq_ok_step, mq_ok_new. Qed.

(** ** A turn of [reorder] without interference *)

Definition turns : relation msgQ := rtc (λ a b, reorder_turn a = Some b).

#[export] Instance turns_preorder : PreOrder turns.
Proof. unfold turns. apply _. Qed.

(** From [mq] to [mq'], [reorder] sends [l] and is left with [td]; [q] is what
    is then queued. *)
Definition turn_sends (mq mq' : msgQ) (l : list metaKnownMsg) (td : list task)
    (q : priority → list metaKnownMsg) : Prop :=
  turns mq mq' ∧ reo mq' = RTurn td ∧ egressChan mq' = ((λ e, e ++ l) <$> egressChan mq) ∧
  (∀ c, queued c mq' = q c) ∧ qSize mq' = qSize mq.

Lemma turn_sends_trans mq1 mq2 mq3 l1 l2 td1 td2 q1 q2 :
  turn_sends mq1 mq2 l1 td1 q1 → turn_sends mq2 mq3 l2 td2 q2 →
  turn_sends mq1 mq3 (l1 ++ l2) td2 q2.
Proof.
  intros (T1 & R1 & E1 & Q1 & S1) (T2 & R2 & E2 & Q2 & S2).
  split; [by etrans|]. split; [done|]. split; [|split; [done|congruence]].
  rewrite E2, E1. destruct (egressChan mq1); simpl; by rewrite ?app_assoc.
Qed.

Definition has_room (n : nat) (mq : msgQ) : Prop := ∃ e, egressChan mq = Some e ∧ length e + n ≤ qSize mq.

Lemma has_room_sends mq mq' l td q n :
  turn_sends mq mq' l td q → has_room (length l + n) mq → has_room n mq'.
Proof.
  intros (_ & _ & E & _ & S) (e & He & Hl). rewrite He in E. exists (e ++ l).
  split; [done|]. rewrite length_app, S. lia.
Qed.

Lemma has_room_le n k mq : has_room (n + k) mq → has_room n mq.
Proof. intros (e & ? & ?). exists e. split; [done|lia]. Qed.

Lemma turn_put mq m td :
  reo mq = RTurn (Put m :: td) → has_room 1 mq →
  ∃ mq', turn_sends mq mq' [m] td (λ c, queued c mq).
Proof.
  intros Hr (e & He & Hl).
  exists (log_sent m (set_egress (Some (e ++ [m])) (set_reo (RTurn td) mq))).
  split; [|destruct mq; simplify_eq/=; repeat split; by intros []].
  apply rtc_once. unfold reorder_turn. rewrite Hr, He. by rewrite bool_decide_eq_true_2 by lia.
Qed.

Lemma turn_drain c k mq td l rest :
  reo mq = RTurn (Drain c k :: td) → queued c mq = l ++ rest → length l = k → has_room k mq →
  ∃ mq', turn_sends mq mq' l td (upd c rest (λ c, queued c mq)).
Proof.
  intros Hr Hq Hl Hroom. revert l mq Hr Hq Hl Hroom.
  induction k as [|k IH]; intros [|m l] mq Hr Hq Hl Hroom; try done.
  - exists (set_reo (RTurn td) mq). split; [apply rtc_once; unfold reorder_turn; by rewrite Hr|].
    destruct Hroom as (e & He & _). destruct mq; simplify_eq/=. repeat split.
    + by rewrite app_nil_r.
    + intros c'. unfold upd. destruct (decide (c' = c)) as [->|]; [by destruct c|by destruct c'].
  - set (mq1 := set_reo (RTurn (Put m :: Drain c k :: td)) (set_ingress c (l ++ rest) mq)).
    assert (turns mq mq1) as T1.
    { apply rtc_once. unfold reorder_turn. by rewrite Hr, Hq. }
    assert (egressChan mq1 = egressChan mq ∧ qSize mq1 = qSize mq) as [E1 S1]
      by (subst mq1; by destruct mq, c).
    assert (∀ c', queued c' mq1 = upd c (l ++ rest) (λ c, queued c mq) c') as Q1
      by (intros c'; subst mq1; by destruct mq, c, c').
    assert (has_room (1 + k) mq1) as R1 by (unfold has_room; rewrite E1, S1; exact Hroom).
    destruct (turn_put mq1 m (Drain c k :: td)) as (mq2 & H2); [by subst mq1; destruct mq, c|
      unfold has_room in *; destruct R1 as (e & ? & ?); exists e; split; [done|lia]|].
    pose proof (has_room_sends _ _ _ _ _ k H2 R1) as R2.
    destruct H2 as (T2 & Hr2 & E2 & Q2 & S2).
    destruct (IH l mq2) as (mq3 & T3 & Hr3 & E3 & Q3 & S3); [done| |by injection Hl|done|].
    { rewrite Q2, Q1. unfold upd. by rewrite decide_True by done. }
    exists mq3. split; [by etrans; [exact T1|etrans]|]. split; [done|]. split; [|split; [|congruence]].
    + rewrite E3, E2, E1. destruct (egressChan mq); simpl; [|done]. by rewrite <- app_assoc.
    + intros c'. rewrite Q3. unfold upd in *. destruct (decide (c' = c)) as [->|]; [done|].
      rewrite Q2, Q1. by rewrite decide_False by done.
Qed.

(** The part of a turn for one class: the message selected, if it is of the
    class, then everything counted in its queue *)
Definition class_part (m : metaKnownMsg) (c : priority) (l : list metaKnownMsg) : list metaKnownMsg :=
  (if decide (class m = c) then [m] else []) ++ l.

Lemma turn_class mq m c k td :
  reo mq = RTurn ((if decide (class m = c) then [Put m] else []) ++ [Drain c k] ++ td) →
  k = length (queued c mq) → has_room (length (class_part m c (queued c mq))) mq →
  ∃ mq', turn_sends mq mq' (class_part m c (queued c mq)) td (upd c [] (λ c, queued c mq)).
Proof.
  intros Hr -> Hroom. unfold class_part in *. destruct (decide (class m = c)) as [Hc|Hc]; simpl in *.
  - destruct (turn_put mq m (Drain c (length (queued c mq)) :: td)) as (mq1 & H1); [done| |].
    { destruct Hroom as (e & ? & ?). exists e. split; [done|lia]. }
    destruct (turn_drain c (length (queued c mq)) mq1 td (queued c mq) []) as (mq2 & H2).
    + apply H1.
    + destruct H1 as (_ & _ & _ & Q & _). by rewrite Q, app_nil_r.
    + done.
    + by eapply (has_room_sends mq mq1).
    + exists mq2. destruct H1 as (T1 & R1 & E1 & Q1 & S1), H2 as (T2 & R2 & E2 & Q2 & S2).
      split; [by etrans|]. split; [done|]. split; [|split; [|congruence]].
      * rewrite E2, E1. destruct (egressChan mq); simpl; [|done]. by rewrite <- app_assoc.
      * intros c'. rewrite Q2. unfold upd. destruct (decide _); [done|apply Q1].
  - by apply (turn_drain c (length (queued c mq)) mq td (queued c mq) []); rewrite ?app_nil_r.
Qed.

(** The tasks of several classes, and what they send *)
Definition tasks (m : metaKnownMsg) (k : priority → nat) (cs : list priority) : list task :=
  cs ≫= λ c, (if decide (class m = c) then [Put m] else []) ++ [Drain c (k c)].
Definition parts (m : metaKnownMsg) (q : priority → list metaKnownMsg) (cs : list priority) :=
  cs ≫= λ c, class_part m c (q c).

Lemma tasks_cons m k c cs :
  tasks m k (c :: cs) = (if decide (class m = c) then [Put m] else []) ++ [Drain c (k c)] ++ tasks m k cs.
Proof. unfold tasks. simpl. by rewrite <- app_assoc. Qed.

Lemma parts_cons m q c cs : parts m q (c :: cs) = class_part m c (q c) ++ parts m q cs.
Proof. done. Qed.

Lemma parts_ext m q q' cs : (∀ c, c ∈ cs → q c = q' c) → parts m q cs = parts m q' cs.
Proof.
  induction cs as [|c cs IH]; intros Hq; [done|]. rewrite !parts_cons, (Hq c) by left. f_equal. apply IH. intros c' Hc'. apply Hq. by right.
Qed.

Lemma turn_classes m k cs : ∀ mq td,
  NoDup cs → reo mq = RTurn (tasks m k cs ++ td) → (∀ c, c ∈ cs → k c = length (queued c mq)) →
  has_room (length (parts m (λ c, queued c mq) cs)) mq →
  ∃ mq', turn_sends mq mq' (parts m (λ c, queued c mq) cs) td
           (λ c, if decide (c ∈ cs) then [] else queued c mq).
Proof.
  induction cs as [|c cs IH]; intros mq td Hnd Hr Hk Hroom.
  - exists mq. split; [done|]. split; [done|]. split; [|done].
    destruct (egressChan mq); simpl; by rewrite ?app_nil_r.
  - apply NoDup_cons in Hnd as [Hc Hnd]. rewrite parts_cons in *. rewrite tasks_cons in Hr.
    rewrite length_app in Hroom. rewrite <- !app_assoc in Hr.
    destruct (turn_class mq m c (k c) _ Hr) as (mq1 & H1); [by apply Hk; left|by eapply has_room_le|].
    pose proof (has_room_sends _ _ _ _ _ _ H1 Hroom) as Hroom1.
    assert (∀ c', c' ∈ cs → queued c' mq1 = queued c' mq) as Hq1.
    { intros c' Hc'. destruct H1 as (_ & _ & _ & -> & _). unfold upd. rewrite decide_False; [done|].
      by intros ->. }
    rewrite <- (parts_ext m (λ c, queued c mq1) (λ c, queued c mq) cs Hq1) in *.
    destruct (IH mq1 td) as (mq2 & H2); [done|apply H1| |done|].
    { intros c' Hc'. rewrite Hq1 by done. apply Hk. by right. }
    exists mq2. destruct (turn_sends_trans _ _ _ _ _ _ _ _ _ H1 H2) as (T & R & E & Q & S).
    split; [done|]. split; [done|]. split; [done|]. split; [|done]. intros c'. rewrite Q.
    destruct H1 as (_ & _ & _ & Q1 & _). rewrite Q1. unfold upd. clear.
    destruct (decide (c' ∈ cs)), (decide (c' = c)), (decide (c' ∈ c :: cs)); set_solver.
Qed.

Lemma of_class_Forall c c' l :
  Forall (λ m, class m = c') l → of_class c l = if decide (c = c') then l else [].
Proof.
  intros Hl. destruct (decide (c = c')) as [->|Hne].
  - induction Hl as [|m l Hm Hl IH]; [done|]. by rewrite of_class_cons, IH, decide_True.
  - induction Hl as [|m l Hm Hl IH]; [done|]. by rewrite of_class_cons, IH, decide_False by congruence.
Qed.

#[export] Instance of_class_perm c : Proper ((≡ₚ) ==> (≡ₚ)) (of_class c).
Proof. intros l k Hl. by apply filter_Permutation. Qed.

(** Conservation and order, under every interleaving of arrivals, of
    [reorder], of workers and of their creation and removal: every message put in
    the queue is in exactly one place (a worker took it, or it is in the egress
    channel, held by [reorder] or in an ingress channel), messages of high and of
    low priority keep their order among themselves, and normal messages do too
    but for those a worker took directly from the normal channel. *)
Theorem messages_conserved n sz mq :
  rtc (mq_step anything) (newMsgQ n sz) mq →
  let out := taken mq ++ default [] (egressChan mq) in
  puts mq ≡ₚ direct mq ++ out ++ held (todo mq) ++ queued High mq ++ queued Normal mq ++ queued Low mq ∧
  (∀ c, c ≠ Normal → of_class c (puts mq) = of_class c out ++ of_class c (held (todo mq)) ++ queued c mq) ∧
  (of_class Normal out ++ of_class Normal (held (todo mq)) ++ queued Normal mq
     `sublist_of` of_class Normal (puts mq)).
Proof.
  intros [[H1 H2 H3 H4 H5 H6] _]%mq_ok_reachable out. subst out. rewrite <- H3.
  assert (puts mq ≡ₚ direct mq ++ sent mq ++ held (todo mq) ++
    queued High mq ++ queued Normal mq ++ queued Low mq) as Hp.
  { apply copies_Permutation. intros x. rewrite H5, !copies_app. lia. }
  split; [done|]. split; [|apply H6]. intros c Hc.
  symmetry. apply sublist_same_length; [apply H6|].
  pose proof (of_class_perm c _ _ Hp) as Hc'. apply Permutation_length in Hc'. rewrite Hc'.
  rewrite !of_class_app, !length_app.
  rewrite (of_class_Forall c Normal (direct mq)), (of_class_Forall c High (queued High mq)),
    (of_class_Forall c Normal (queued Normal mq)), (of_class_Forall c Low (queued Low mq)) by done.
  destruct c; simpl; lia || done.
Qed.

(** C28. Priority and completeness: when [reorder] receives a message while the
    egress channel has room for all that is queued, and nothing interferes, its
    turn ends with every queued message in the egress channel, the high ones
    first, then the normal ones, then the low ones, each class in order. *)
Theorem turn_by_priority n sz mq c mq1 :
  rtc (mq_step anything) (newMsgQ n sz) mq →
  reorder_select c mq = Some mq1 →
  has_room (length (queued High mq) + length (queued Normal mq) + length (queued Low mq)) mq →
  ∃ mq2, turns mq1 mq2 ∧ reo mq2 = RLoop ∧ (∀ c', queued c' mq2 = []) ∧
    egressChan mq2 = (λ e, e ++ queued High mq ++ queued Normal mq ++ queued Low mq) <$> egressChan mq.
Proof.
  intros [[Hcl _ _ _ _ _] _]%mq_ok_reachable Hsel Hroom. unfold reorder_select in Hsel.
  destruct (reo mq) as [| |d h l|td|] eqn:Hreo; try done. destruct (selects c h l); [|done].
  destruct (queued c mq) as [|m rest] eqn:Hq; [done|]. injection Hsel as <-. set (mq1 := set_reo _ _).
  assert (class m = c) as Hm by (specialize (Hcl c); simpl in Hcl; rewrite Hq in Hcl; by apply Forall_cons in Hcl as [? _]).
  assert (∀ c', class_part m c' (queued c' mq1) = queued c' mq) as Hpart.
  { intros c'. assert (queued c' mq1 = if decide (c' = c) then rest else queued c' mq) as ->
      by (subst mq1; by destruct mq, c, c').
    unfold class_part. rewrite Hm. destruct (decide (c' = c)) as [->|]; [by rewrite decide_True by done|].
    by rewrite decide_False by congruence. }
  destruct (turn_classes m (λ c, length (queued c mq1)) [High; Normal; Low] mq1 []) as (mq2 & T & R & E & Q & S).
  - by_decide.
  - subst mq1. by destruct mq, m as [[] ?], c.
  - done.
  - unfold parts, has_room. simpl. rewrite !Hpart, !length_app, Nat.add_0_r, Nat.add_assoc.
    subst mq1. by destruct mq, c.
  - exists (set_reo RLoop mq2). split; [|split; [|split]].
    + etrans; [exact T|]. apply rtc_once. unfold reorder_turn. by rewrite R.
    + by destruct mq2.
    + intros c'. assert (queued c' (set_reo RLoop mq2) = queued c' mq2) as -> by (by destruct mq2, c').
      rewrite Q. by destruct c'.
    + assert (egressChan (set_reo RLoop mq2) = egressChan mq2) as -> by (by destruct mq2). rewrite E. unfold parts. simpl.
      rewrite !Hpart, app_nil_r. subst mq1. by destruct mq, c.
Qed.

(** ** Scenarios *)

(** What the workers and the goroutine do, one operation at a time *)
Inductive action :=
| APut (m : metaKnownMsg) | AClose | ALoop | ASelect (c : priority) | ATurn
| AWorkerLoop (i : nat) | AWorkerTake (i : nat).

Definition act (a : action) (mq : msgQ) : option msgQ :=
  match a with
  | APut m => putMetaMsg m mq
  | AClose => match mq_close mq with Return mq' => Some mq' | Panics _ => None end
  | ALoop =>
      match reo mq with
      | RLoop => Some (set_reo (RSelect (mq_done mq) (bool_decide (is_Some (ingressHighChan mq)))
                                  (bool_decide (is_Some (ingressLowChan mq)))) mq)
      | _ => None
      end
  | ASelect c => reorder_select c mq
  | ATurn => reorder_turn mq
  | AWorkerLoop i =>
      match crew mq !! i with
      | Some WLoop => Some (set_crew (<[i := WSelect (getEgressChan mq)]> (crew mq)) mq)
      | _ => None
      end
  | AWorkerTake i =>
      match crew mq !! i with
      | Some (WSelect true) =>
          match egressChan mq with
          | Some (m :: rest) =>
              Some (log_taken m (set_egress (Some rest) (set_crew (<[i := WBusy m]> (crew mq)) mq)))
          | _ => None
          end
      | Some (WSelect false) =>
          match ingressNormalChan mq with
          | m :: rest =>
              Some (log_direct m (set_ingress Normal rest (set_crew (<[i := WBusy m]> (crew mq)) mq)))
          | _ => None
          end
      | _ => None
      end
  end.

Fixpoint acts (l : list action) (mq : msgQ) : option msgQ :=
  match l with [] => Some mq | a :: l => mq' ← act a mq; acts l mq' end.

Lemma act_step a mq mq' : act a mq = Some mq' → mq_step anything mq mq'.
Proof.
  destruct a; simpl; intros H.
  - by apply (mq_put _ m).
  - destruct (mq_close mq) eqn:E; simplify_eq. by apply mq_stop.
  - destruct (reo mq) eqn:E; simplify_eq. by apply reorder_loops.
  - by eapply reorder_selects.
  - by apply reorder_turns.
  - destruct (crew mq !! i) as [[]|] eqn:E; simplify_eq. by apply worker_loops.
  - destruct (crew mq !! i) as [[|[]| |]|] eqn:E; simplify_eq.
    + destruct (egressChan mq) as [[|m rest]|] eqn:Eg; simplify_eq. by apply worker_takes.
    + destruct (ingressNormalChan mq) as [|m rest] eqn:En; simplify_eq. by apply worker_takes_direct.
Qed.

Lemma acts_steps l mq mq' : acts l mq = Some mq' → rtc (mq_step anything) mq mq'.
Proof.
  revert mq; induction l as [|a l IH]; intros mq H; simplify_eq/=; [done|].
  destruct (act a mq) as [mq1|] eqn:E; [|done]. simpl in H.
  eapply rtc_l; [by eapply act_step|by apply IH].
Qed.

(** The state a scenario ends in, from a queue of size 4 with one worker *)
Definition scene (l : list action) : msgQ := default (newMsgQ 0 0) (acts l (newMsgQ 1 4)).

Lemma scene_reachable l : is_Some (acts l (newMsgQ 1 4)) → rtc (mq_step anything) (newMsgQ 1 4) (scene l).
Proof. intros [mq H]. unfold scene. rewrite H. by eapply acts_steps. Qed.

(** A mix of priorities *)
Definition mixed : list action :=
  [APut (mkMsg Low 0); APut (mkMsg Normal 1); APut (mkMsg High 2); APut (mkMsg Normal 3); ALoop].

Lemma messages_conserved_witness :
  let mq := scene (mixed ++ [ASelect Normal; ATurn; ATurn; ATurn]) in
  puts mq = [mkMsg Low 0; mkMsg Normal 1; mkMsg High 2; mkMsg Normal 3] ∧
  egressChan mq = Some [mkMsg High 2] ∧
  of_class High (puts mq) = of_class High ([] ++ [mkMsg High 2]) ++ of_class High (held (todo mq)) ++ queued High mq.
Proof.
  intros mq. split; [reflexivity|]. split; [reflexivity|].
  assert (rtc (mq_step anything) (newMsgQ 1 4) mq) as H by (apply scene_reachable; eexists; reflexivity).
  apply (proj1 (proj2 (messages_conserved 1 4 mq H)) High). done.
Defined.

Lemma turn_by_priority_witness :
  ∃ mq1 mq2, reorder_select Normal (scene mixed) = Some mq1 ∧ turns mq1 mq2 ∧
    egressChan mq2 = Some [mkMsg High 2; mkMsg Normal 1; mkMsg Normal 3; mkMsg Low 0].
Proof.
  destruct (reorder_select Normal (scene mixed)) as [mq1|] eqn:E; [|discriminate E].
  destruct (turn_by_priority 1 4 (scene mixed) Normal mq1) as (mq2 & T & _ & _ & He).
  - apply scene_reachable. eexists. reflexivity.
  - exact E.
  - exists []. split; [reflexivity|]. apply (bool_decide_unpack _). reflexivity.
  - exists mq1, mq2. split; [done|]. split; [done|]. rewrite He. reflexivity.
Defined.

(** ** Where the queue stops *)

(** The select of [reorder] has not received from the classes it does not see. *)
Definition asleep (high low : bool) (q : priority → list metaKnownMsg) (s : list metaKnownMsg) (mq : msgQ) : Prop :=
  ((∃ d, reo mq = RSelect d high low) ∨ reo mq = RStopped) ∧ egressChan mq ≠ None ∧ sent mq = s ∧
  (∀ c, selects c high low = true → queued c mq = []) ∧
  (∀ c, selects c high low = false → q c `prefix_of` queued c mq).

Lemma queued_init c c' mq : queued c' (initChan c mq) = queued c' mq.
Proof.
  unfold initChan. destruct (ingress c mq) eqn:Hi; [done|].
  destruct mq as [sz h n l [e|] d dc r w p s t di], c; simplify_eq/=; by destruct c'.
Qed.

Lemma reo_init c mq : egressChan mq ≠ None →
  reo (initChan c mq) = reo mq ∧ egressChan (initChan c mq) = egressChan mq.
Proof.
  unfold initChan. destruct (ingress c mq) eqn:Hi; [done|].
  by destruct mq as [sz h n l [e|] d dc r w p s t di], c; simplify_eq/=.
Qed.

Lemma sent_init c mq : sent (initChan c mq) = sent mq.
Proof.
  unfold initChan. destruct (ingress c mq) eqn:Hi; [done|].
  by destruct mq as [sz h n l [e|] d dc r w p s t di], c; simplify_eq/=.
Qed.

Lemma put_fields m mq mq' :
  putMetaMsg m mq = Some mq' → egressChan mq ≠ None →
  reo mq' = reo mq ∧ egressChan mq' = egressChan mq ∧ sent mq' = sent mq ∧
  ∀ c, queued c mq' = if decide (c = class m) then queued c mq ++ [m] else queued c mq.
Proof.
  unfold putMetaMsg. intros H He. destruct (bool_decide _); [|done]. injection H as <-.
  destruct (reo_init (class m) mq He) as [<- <-]. rewrite <- (sent_init (class m) mq).
  assert (∀ c, queued c (initChan (class m) mq) = queued c mq) as Hq by (intros; apply queued_init).
  revert Hq. generalize (initChan (class m) mq). clear. intros mq1 Hq.
  do 3 (split; [by destruct mq1, m as [[] p]|]). intros c. rewrite <- (Hq c).
  by destruct mq1, m as [[] p], c.
Qed.

Lemma asleep_step high low q s mq mq' :
  asleep high low q s mq → mq_step (λ m, selects (class m) high low = false) mq mq' →
  asleep high low q s mq'.
Proof.
  intros (Hr & He & Hs & Hin & Hout) Hstep.
  destruct Hstep as [m mq Hm|m mq mq' Hm Hp|mq mq' Hc|mq Hl|h l mq Hl _|c mq mq' Hsel|mq mq' Ht|i mq _
    |i m rest mq _ Heg|i m rest mq _ Hn|i m mq _|i e mq _|mq].
  - destruct (reo_init (class m) mq He) as [H1 H2]. unfold asleep. rewrite H1, H2, sent_init.
    repeat split; try done; intros c; rewrite queued_init; auto.
  - destruct (put_fields m mq mq' Hp He) as (H1 & H2 & H3 & H4). unfold asleep. rewrite H1, H2, H3.
    repeat split; try done; intros c Hc; rewrite H4; destruct (decide (c = class m)) as [->|]; auto.
    + congruence.
    + by apply prefix_app_r, Hout.
  - destruct mq as [sz hi n lo e [] dc r w p st t di]; simplify_eq/=. by repeat split.
  - destruct Hr as [[d Hr]|Hr]; congruence.
  - unfold asleep. destruct mq; repeat split; try done; simpl in *; eauto.
  - unfold reorder_select in Hsel. destruct Hr as [[d Hr]|Hr]; rewrite Hr in Hsel; [|done].
    destruct (selects c high low) eqn:Hc; [|done]. by rewrite (Hin c Hc) in Hsel.
  - unfold reorder_turn in Ht. by destruct Hr as [[d Hr]|Hr]; rewrite Hr in Ht.
  - by destruct mq.
  - destruct mq; simpl in *; unfold asleep; repeat split; try done; auto.
  - specialize (Hin Normal eq_refl). unfold queued, ingress in Hin. simpl in Hin. congruence.
  - by destruct mq.
  - by destruct mq.
  - by destruct mq.
Qed.

(** A channel of priority made while [reorder] waits is not in the select it
    waits in: as long as only messages of the classes it does not see arrive,
    nothing is sent to the egress channel, and what was queued stays there. *)
Theorem late_channel_starves mq mq' d high low :
  reo mq = RSelect d high low → egressChan mq ≠ None →
  (∀ c, selects c high low = true → queued c mq = []) →
  rtc (mq_step (λ m, selects (class m) high low = false)) mq mq' →
  sent mq' = sent mq ∧ ∀ c, selects c high low = false → queued c mq `prefix_of` queued c mq'.
Proof.
  intros Hr He Hin Hsteps.
  assert (asleep high low (λ c, queued c mq) (sent mq) mq') as (_ & _ & Hs & _ & Hq).
  { eapply (rtc_invariant _ (asleep high low (λ c, queued c mq) (sent mq)));
      [apply asleep_step| |done]. repeat split; eauto. }
  by split.
Qed.

(** A queue that has handled one high message, and then gets a low one: the low
    message is stuck until a message of another class comes. *)
Definition late_low : list action :=
  [APut (mkMsg High 0); ALoop; ASelect High; ATurn; ATurn; ATurn; ATurn; ATurn; ALoop; APut (mkMsg Low 1)].

Lemma late_channel_starves_witness :
  rtc (mq_step anything) (newMsgQ 1 4) (scene late_low) ∧ queued Low (scene late_low) = [mkMsg Low 1] ∧
  ∀ mq', rtc (mq_step (λ m, selects (class m) true false = false)) (scene late_low) mq' →
    sent mq' = [mkMsg High 0] ∧ [mkMsg Low 1] `prefix_of` queued Low mq'.
Proof.
  split; [apply scene_reachable; eexists; reflexivity|]. split; [reflexivity|]. intros mq' H.
  destruct (late_channel_starves (scene late_low) mq' true true false) as [Hs Hq].
  - reflexivity.
  - by intros Hn; vm_compute in Hn.
  - by intros [] Hc; vm_compute in Hc |- *.
  - exact H.
  - split; [exact Hs|]. apply (Hq Low). reflexivity.
Defined.

(** [reorder] waits in its turn for a normal message that is not there. *)
Definition stalled (t : list task) (s : list metaKnownMsg) (mq : msgQ) : Prop :=
  (∃ k td, t = Drain Normal (S k) :: td) ∧ reo mq = RTurn t ∧ egressChan mq ≠ None ∧ sent mq = s ∧
  queued Normal mq = [].

Lemma stalled_step t s mq mq' :
  stalled t s mq → mq_step (λ m, class m ≠ Normal) mq mq' → stalled t s mq'.
Proof.
  intros (Ht & Hr & He & Hs & Hq) Hstep.
  destruct Hstep as [m mq Hm|m mq mq' Hm Hp|mq mq' Hc|mq Hl|h l mq Hl _|c mq mq' Hsel|mq mq' Htu|i mq _
    |i m rest mq _ Heg|i m rest mq _ Hn|i m mq _|i e mq _|mq].
  - destruct (reo_init (class m) mq He) as [H1 H2]. unfold stalled.
    by rewrite H1, H2, sent_init, queued_init.
  - destruct (put_fields m mq mq' Hp He) as (H1 & H2 & H3 & H4). unfold stalled.
    rewrite H1, H2, H3, H4, decide_False by congruence. done.
  - destruct mq as [sz hi n lo e [] dc r w p st t' di]; simplify_eq/=. by repeat split.
  - congruence.
  - congruence.
  - unfold reorder_select in Hsel. by rewrite Hr in Hsel.
  - unfold reorder_turn in Htu. destruct Ht as (k & td & ->). rewrite Hr, Hq in Htu. done.
  - by destruct mq.
  - destruct mq; simpl in *. by repeat split.
  - unfold queued, ingress in Hq. simpl in Hq. congruence.
  - by destruct mq.
  - by destruct mq.
  - by destruct mq.
Qed.

(** [reorder] counts the normal messages before it moves them, and a worker
    that asked for the egress channel before it existed takes one of them: then
    [reorder] waits for a normal message inside its turn, and until one arrives
    no message is sent to the workers, whatever is queued. *)
Theorem stale_worker_stalls mq mq' k td :
  reo mq = RTurn (Drain Normal (S k) :: td) → egressChan mq ≠ None → queued Normal mq = [] →
  rtc (mq_step (λ m, class m ≠ Normal)) mq mq' →
  sent mq' = sent mq ∧ reo mq' = reo mq.
Proof.
  intros Hr He Hq Hsteps.
  assert (stalled (Drain Normal (S k) :: td) (sent mq) mq') as (_ & Hr' & _ & Hs & _).
  { eapply (rtc_invariant _ (stalled _ _)); [apply stalled_step| |done]. repeat split; eauto. }
  by rewrite Hr, Hr'.
Qed.

(** The worker chose the normal channel, then a normal and a high message came;
    the worker takes the normal one that [reorder] has counted. *)
Definition stale_take : list action :=
  [AWorkerLoop 0; APut (mkMsg Normal 0); APut (mkMsg High 1); ALoop; ASelect High; ATurn; ATurn;
   AWorkerTake 0; APut (mkMsg High 2)].

Lemma stale_worker_stalls_witness :
  rtc (mq_step anything) (newMsgQ 1 4) (scene stale_take) ∧ queued High (scene stale_take) = [mkMsg High 2] ∧
  ∀ mq', rtc (mq_step (λ m, class m ≠ Normal)) (scene stale_take) mq' → sent mq' = [mkMsg High 1].
Proof.
  split; [apply scene_reachable; eexists; reflexivity|]. split; [reflexivity|]. intros mq' H.
  apply (stale_worker_stalls (scene stale_take) mq' 0 [Drain Low 0]); [reflexivity| |reflexivity|exact H].
  by intros Hn; vm_compute in Hn.
Defined.

(** ** Stopping *)

(** [reorder] no longer waits for the stop. *)
Definition deaf (mq : msgQ) : Prop :=
  mq_done mq = false ∧ reo mq ≠ RStopped ∧ ∀ h l, reo mq ≠ RSelect true h l.

Lemma deaf_init c mq : deaf mq → deaf (initChan c mq).
Proof.
  unfold deaf, initChan. intros (Hd & Hs & Hn). destruct (ingress c mq); [done|].
  destruct mq as [sz h n l [e|] d dc r w p s t di], c; repeat split; done.
Qed.

Lemma deaf_step mq mq' : deaf mq → mq_step anything mq mq' → deaf mq'.
Proof.
  intros Hd Hstep.
  destruct Hstep as [m mq Hm|m mq mq' Hm Hp|mq mq' Hc|mq Hl|h l mq Hl _|c mq mq' Hsel|mq mq' Htu|i mq _
    |i m rest mq _ Heg|i m rest mq _ Hn|i m mq _|i e mq _|mq].
  - by apply deaf_init.
  - unfold putMetaMsg in Hp. apply (deaf_init (class m)) in Hd. destruct (bool_decide _); [|done].
    injection Hp as <-. revert Hd. generalize (initChan (class m) mq). clear. intros mq.
    by destruct mq, m as [[] p].
  - destruct Hd as [Hd _]. by destruct mq; simplify_eq/=.
  - destruct Hd as [Hd _]. destruct mq; simplify_eq/=. by repeat split.
  - destruct Hd as (_ & _ & Hn). by apply Hn in Hl.
  - unfold reorder_select in Hsel. destruct (reo mq); try done. destruct (selects _ _ _); [|done].
    destruct (queued c mq); [done|]. injection Hsel as <-. destruct Hd as (Hd & _ & _).
    by destruct mq, c.
  - unfold reorder_turn in Htu. destruct Hd as (Hd & _ & _).
    destruct (reo mq) as [| | |[|[m|c [|k]] td]|]; try done; repeat case_match; simplify_eq; destruct mq; try done.
    by destruct c.
  - by destruct mq.
  - by destruct mq.
  - by destruct mq.
  - by destruct mq.
  - by destruct mq.
  - by destruct mq.
Qed.

(** [close] closes the channel and then sets the field to nil: [reorder] can
    stop exactly when it was already waiting in its select; in a turn, it comes
    back to a select on a nil channel and never stops. *)
Theorem reorder_stops_iff mq mq1 :
  reo mq ≠ RStopped → mq_close mq = Return mq1 →
  (∃ mq', rtc (mq_step anything) mq1 mq' ∧ reo mq' = RStopped) ↔ ∃ high low, reo mq = RSelect true high low.
Proof.
  intros Hns Hc. split.
  - intros (mq' & Hsteps & Hstop).
    assert (mq_done mq1 = false ∧ reo mq1 = reo mq) as [Hd Hr]
      by (destruct mq as [sz h n l e [] dc r w p s t di]; by simplify_eq/=).
    destruct (reo mq) as [| |[] h l|td|] eqn:Hreo; try (by eauto); exfalso.
    all: assert (deaf mq') as (_ & Hs & _); [|done].
    all: eapply (rtc_invariant _ deaf); [apply deaf_step| |exact Hsteps].
    all: unfold deaf; rewrite Hr; repeat split; done.
  - intros (h & l & Hr). exists (set_reo RStopped mq1). split; [|by destruct mq1].
    apply rtc_once. eapply (reorder_stops _ h l);
      destruct mq as [sz hi n lo e [] dc r w p s t di]; by simplify_eq/=.
Qed.

(** Closed while [reorder] sends a message *)
Lemma reorder_stops_iff_witness :
  ∃ mq1, mq_close (scene [APut (mkMsg High 0); ALoop; ASelect High]) = Return mq1 ∧
    ¬ ∃ mq', rtc (mq_step anything) mq1 mq' ∧ reo mq' = RStopped.
Proof.
  eexists. split; [reflexivity|]. intros H.
  destruct (proj1 (reorder_stops_iff (scene [APut (mkMsg High 0); ALoop; ASelect High]) _ ltac:(done) eq_refl) H)
    as (h & l & Hr). discriminate Hr.
Defined.

(** ** The size of the pool *)

(** [autoScaler], one round: the pool and the divisor of the pause, from the
    number of messages in the egress channel; [/] truncates *)
Definition autoScaler (qWeight residentWorkers lenEgress : Z) (p : workerPool) : workerPool * Z :=
  let should := (Z.quot lenEgress qWeight + residentWorkers)%Z in
  let now := getIdleCount p in
  if bool_decide (should > now)%Z then (addWorker p, should - now)%Z
  else if bool_decide (should < now)%Z then (rmWorker p, now - should)%Z
  else (p, 1%Z).

(** [MsgQInfo] and [QueryMsgQInfo.Handle] *)
Record MsgQInfo := mkMsgQInfo {
  NumCPU : Z; ResidentWorkers : Z; QueueWeight : Z; QueueLen : Z; QueueSize : Z;
  BusyWorkerNum : Z; IdleWorkerNum : Z;
}.

Definition QueryMsgQInfo_Handle (nCPU residentWorkers qWeight : Z) (mq : msgQ) (p : workerPool) : MsgQInfo :=
  let totalWorker := getCount p in
  let idleWorker := (getIdleCount p + 1)%Z in
  let len := length (if getEgressChan mq then default [] (egressChan mq) else ingressNormalChan mq) in
  mkMsgQInfo nCPU residentWorkers qWeight (Z.of_nat len) (Z.of_nat (qSize mq))
    (totalWorker - idleWorker) idleWorker.

(** A pool in which every goroutine that is alive waits for messages *)
Definition waiting (w : worker) : Prop :=
  exited w = true ∨ (arg w = RealChan ∧ done_var w = true ∧ busy w = false).
Definition settled (p : workerPool) : Prop := Forall waiting (all p).

(** A round of the scaler, after which the workers started or cancelled by it
    have reached their loop or their end *)
Definition scaler_round (qWeight residentWorkers lenEgress : Z) (p p' : workerPool) : Prop :=
  rtc pool_step (autoScaler qWeight residentWorkers lenEgress p).1 p' ∧ settled p'.

Lemma settled_add p :
  settled p → ∃ p', rtc pool_step (addWorker p) p' ∧ settled p' ∧ getIdleCount p' = (getIdleCount p + 1)%Z.
Proof.
  intros Hp. eexists. split.
  { apply rtc_once. apply (step_start _ (length (all p)) (mkWorker true false NotYet false false));
      unfold addWorker; cbn [all]; [|done].
    by rewrite lookup_app_r, Nat.sub_diag by done. }
  split; [|done]. unfold settled, set_worker, addWorker. cbn [all].
  rewrite insert_app_r_alt, Nat.sub_diag by done. simpl.
  apply Forall_app. split; [done|]. constructor; [by right|constructor].
Qed.

Lemma number_pos_inv P l : (0 < number P l)%Z → ∃ i w, l !! i = Some w ∧ P w = true.
Proof.
  induction l as [|w l IH]; [done|]. rewrite number_cons. destruct (P w) eqn:Hw.
  - intros _. by exists 0, w.
  - intros Hl. destruct IH as (i & w' & Hi & Hw'); [lia|]. by exists (S i), w'.
Qed.

Lemma settled_rm p :
  pool_ok p → settled p → (0 < getIdleCount p)%Z →
  ∃ p', rtc pool_step (rmWorker p) p' ∧ settled p' ∧ getIdleCount p' = (getIdleCount p - 1)%Z.
Proof.
  intros Hok Hp Hidle.
  assert (∃ i, first_live (all p) (workers p) = Some i) as [i Hi].
  { destruct (first_live (all p) (workers p)) as [i|] eqn:Hf; [eauto|exfalso].
    destruct (number_pos_inv alive (all p)) as (i & w & Hi & Hw).
    { pose proof (po_idle _ Hok). pose proof (number_nonneg busy (all p)). unfold getIdleCount in *. lia. }
    pose proof (proj1 (Forall_lookup _ _) Hp _ _ Hi) as [He|(_ & Hd & _)];
      [unfold alive in Hw; by rewrite He in Hw|].
    assert (live (all p) i = true) as Hl by (unfold live; rewrite Hi; exact Hd).
    rewrite (first_live_None _ _ Hf) in Hl; [done|]. apply (po_slots _ Hok). by rewrite Hl. }
  destruct (live_Some (all p) i) as (w & Hw & Hd); [by apply first_live_Some in Hi as [_ ?]|].
  pose proof (proj1 (Forall_lookup _ _) Hp _ _ Hw) as [He|(Ha & _ & Hb)].
  { pose proof (proj1 (Forall_lookup _ _) (po_workers _ Hok) _ _ Hw) as Hwok. exfalso. worker_cases w. }
  assert (exited w = false) as He
    by (pose proof (proj1 (Forall_lookup _ _) (po_workers _ Hok) _ _ Hw) as Hwok; worker_cases w).
  eexists. split.
  { apply rtc_once. unfold rmWorker. rewrite Hi, (cancel_insert _ _ w) by done.
    apply (step_exit _ i (cancelled w)); cbn [all]; [|done..].
    apply list_lookup_insert_eq. by eapply lookup_lt_Some. }
  split; [|done]. unfold settled, set_worker. cbn [all]. rewrite list_insert_insert_eq.
  apply Forall_insert; [done|]. by left.
Qed.

(** With a fixed number of messages in the queue and no worker busy, the
    scaler brings the number of idle workers to the target
    [len / qWeight + residentWorkers] in as many rounds as they differ by, and a
    pool on target is left alone. *)
Theorem autoscaler_converges qWeight residentWorkers lenEgress p :
  (0 < qWeight)%Z → (0 < residentWorkers)%Z → (0 ≤ lenEgress)%Z →
  rtc pool_step newWorkerPool p → settled p →
  let should := (Z.quot lenEgress qWeight + residentWorkers)%Z in
  ∃ p', nsteps (scaler_round qWeight residentWorkers lenEgress)
          (Z.to_nat (Z.abs (should - getIdleCount p))) p p' ∧
    getIdleCount p' = should ∧ (autoScaler qWeight residentWorkers lenEgress p').1 = p'.
Proof.
  intros Hq Hres Hlen Hreach%pool_ok_reachable Hset should.
  assert (0 < should)%Z as Hpos by (pose proof (Z.quot_pos lenEgress qWeight Hlen Hq); subst should; lia).
  remember (Z.to_nat (Z.abs (should - getIdleCount p))) as n eqn:Hn.
  revert p Hreach Hset Hn. induction n as [|n IH]; intros p Hreach Hset Hn.
  - exists p. split; [constructor|]. split; [lia|]. unfold autoScaler. fold should.
    rewrite !bool_decide_eq_false_2 by lia. done.
  - assert (∃ p1, scaler_round qWeight residentWorkers lenEgress p p1 ∧ pool_ok p1 ∧
        n = Z.to_nat (Z.abs (should - getIdleCount p1))) as (p1 & Hround & Hok1 & Hn1).
    { unfold scaler_round, autoScaler. fold should. destruct (Z.lt_trichotomy (getIdleCount p) should) as [Hlt|[Heq|Hgt]].
      - destruct (settled_add p Hset) as (p1 & Hs & Hset1 & Hc). exists p1.
        rewrite bool_decide_eq_true_2 by lia. split; [done|]. split; [|lia].
        eapply (rtc_invariant _ pool_ok); [exact pool_ok_step| |exact Hs]. by apply pool_ok_add.
      - lia.
      - destruct (settled_rm p Hreach Hset) as (p1 & Hs & Hset1 & Hc); [lia|]. exists p1.
        rewrite bool_decide_eq_false_2, bool_decide_eq_true_2 by lia. split; [done|]. split; [|lia].
        eapply (rtc_invariant _ pool_ok); [exact pool_ok_step| |exact Hs].
        eapply pool_ok_step; [done|apply step_rm]. }
    destruct (IH p1 Hok1 (proj2 Hround) Hn1) as (p' & Hsteps & H). exists p'. split; [|done].
    by econstructor.
Qed.

(** From an empty pool, with a queue of five messages, a weight of two and one
    resident worker: three rounds to three workers. *)
Lemma autoscaler_converges_witness :
  ∃ p', nsteps (scaler_round 2 1 5) 3 newWorkerPool p' ∧ getIdleCount p' = 3%Z.
Proof.
  destruct (autoscaler_converges 2 1 5 newWorkerPool) as (p' & H & Hc & _); [done|done|done|apply rtc_refl|constructor|].
  exists p'. split; [exact H|exact Hc].
Defined.

(** The figures reported by a handler running in worker [i] of the pool: the
    idle workers and itself, and the other busy ones. *)
Theorem msgq_info_counts p mq i w nCPU residentWorkers qWeight :
  rtc pool_step newWorkerPool p → all p !! i = Some w → busy w = true →
  let info := QueryMsgQInfo_Handle nCPU residentWorkers qWeight mq p in
  IdleWorkerNum info = (number idling (all p) + 1)%Z ∧
  BusyWorkerNum info = (number busy (all p) - 1)%Z ∧ (0 ≤ BusyWorkerNum info)%Z.
Proof.
  intros Hok%pool_ok_reachable Hi Hb info. subst info. simpl. unfold getCount, getIdleCount.
  pose proof (po_count _ Hok). pose proof (po_idle _ Hok).
  pose proof (number_pos busy _ _ _ Hi Hb). rewrite number_idling by apply (po_workers _ Hok).
  lia.
Qed.

(** Two workers, the first of which answers the query *)
Lemma msgq_info_counts_witness :
  ∃ p, rtc pool_step newWorkerPool p ∧
    IdleWorkerNum (QueryMsgQInfo_Handle 4 1 8 (newMsgQ 1 4) p) = (number idling (all p) + 1)%Z ∧
    IdleWorkerNum (QueryMsgQInfo_Handle 4 1 8 (newMsgQ 1 4) p) = 2%Z.
Proof.
  assert (∃ p, rtc pool_step newWorkerPool p ∧ all p !! 0 = Some (mkWorker true false RealChan true false) ∧
    getIdleCount p = 1%Z) as (p & Hp & H0 & H1).
  { eexists. split.
    - eapply rtc_l; [by apply step_add|]. eapply rtc_l; [by apply step_add|].
      eapply rtc_l; [by apply (step_start _ 0)|]. eapply rtc_l; [by apply (step_working _ 0)|]. apply rtc_refl.
    - by split. }
  exists p. split; [done|].
  destruct (msgq_info_counts p (newMsgQ 1 4) 0 _ 4 1 8 Hp H0 eq_refl) as (H & _ & _).
  split; [exact H|]. simpl. by rewrite H1.
Defined.
