(* ===== verification/QueueBounds.v ===== *)
(** How much the message queue of a server holds (scalamsgq.go): the bounds of its
    channels and of what [reorder] has in its hands, and when a message has to wait
    before it. *)
From S2P Require Import Prelude WorkerPool MsgQ.

(** The messages between [putMetaMsg] and a worker *)
Definition in_queue (mq : msgQ) : list metaKnownMsg :=
  default [] (egressChan mq) ++ held (todo mq) ++ queued High mq ++ queued Normal mq ++ queued Low mq.

(** [reorder] holds the message its select received and, while it drains a class that
    comes before that message's, one of that class. *)
Definition held_bound (td : list task) : nat := match td with Put _ :: _ => 2 | _ => 1 end.

Record bounded (sz : nat) (mq : msgQ) : Prop := mkBounded {
  bd_size : qSize mq = sz;
  bd_ingress c : length (queued c mq) ≤ sz;
  bd_egress : length (default [] (egressChan mq)) ≤ sz;
  bd_held : length (held (todo mq)) ≤ held_bound (todo mq);
  bd_plain : egressChan mq = None → ingressHighChan mq = None ∧ ingressLowChan mq = None ∧ todo mq = [];
}.

Lemma bounded_new n sz : bounded sz (newMsgQ n sz).
Proof. split; simpl; try lia; try done. intros []; simpl; lia. Qed.

Lemma held_turn_of m h n l : held (turn_of m h n l) = [m].
Proof. by destruct m as [[] p]. Qed.

Lemma bounded_init sz c mq : bounded sz mq → bounded sz (initChan c mq).
Proof.
  intros [H1 H2 H3 H4 H5]. unfold initChan. destruct (ingress c mq) eqn:Hi; [done|].
  destruct mq as [s h n l [e|] d dc r w p sn t di]; simpl in *.
  - destruct c; simplify_eq/=; split; simpl; try done; intros c'; specialize (H2 c'); destruct c'; unfold queued in *; simpl in *; lia.
  - destruct (H5 eq_refl) as (-> & -> & _). destruct c; simplify_eq/=; split; simpl; try done; try lia;
      intros c'; specialize (H2 c'); destruct c'; unfold queued in *; simpl in *; lia.
Qed.

Lemma qSize_init c mq : qSize (initChan c mq) = qSize mq.
Proof. unfold initChan. by destruct mq as [s [] n [] [] d dc r w p sn t di], c. Qed.

Lemma bounded_queue sz c q mq : bounded sz mq → length q ≤ sz → is_Some (ingress c mq) → bounded sz (set_ingress c q mq).
Proof.
  intros [H1 H2 H3 H4 H5] Hq Hmade. split; try (by destruct mq, c).
  - intros c'. rewrite queued_set_ingress. destruct (decide (c' = c)); [done|apply H2].
  - destruct mq as [s h n l e d dc r w p sn t di], c; simpl in *; intros He; destruct (H5 He) as (-> & -> & ?); try done;
      by destruct Hmade.
Qed.

Lemma bounded_put sz m mq mq' : bounded sz mq → putMetaMsg m mq = Some mq' → bounded sz mq'.
Proof.
  intros Hb%(bounded_init sz (class m)). unfold putMetaMsg. revert Hb.
  assert (Hmade : is_Some (ingress (class m) (initChan (class m) mq))).
  { unfold initChan. destruct mq as [s [] n [] [] d dc r w p sn t di], (class m); by eexists. }
  revert Hmade. generalize (initChan (class m) mq). clear mq. intros mq Hmade Hb.
  destruct (bool_decide_reflect (length (queued (class m) mq) < qSize mq)) as [Hlt|]; [|done]. intros [= <-].
  rewrite (bd_size _ _ Hb) in Hlt.
  assert (Hb' : bounded sz (set_ingress (class m) (queued (class m) mq ++ [m]) mq)).
  { apply bounded_queue; [done| |done]. rewrite length_app. simpl. lia. }
  destruct (set_ingress _ _ mq). by destruct Hb'.
Qed.

Lemma bounded_select sz c mq mq' : bounded sz mq → mq_ok mq → reorder_select c mq = Some mq' → bounded sz mq'.
Proof.
  intros [H1 H2 H3 H4 H5] [_ Hnone]. unfold reorder_select. destruct (reo mq) as [| |d hi lo|td|] eqn:Hr; try done.
  destruct (selects c hi lo); [|done]. destruct (queued c mq) as [|m rest] eqn:Hq; [done|]. intros [= <-].
  pose proof (H2 c) as Hc. rewrite Hq in Hc. simpl in Hc.
  assert (He : egressChan mq ≠ None) by (intros He%Hnone; congruence).
  split.
  - by destruct mq, c.
  - intros c'. assert (queued c' (set_reo (RTurn (turn_of m (length (queued High (set_ingress c rest mq)))
      (length (queued Normal (set_ingress c rest mq))) (length (queued Low (set_ingress c rest mq))))) (set_ingress c rest mq))
      = if decide (c' = c) then rest else queued c' mq) as -> by (by destruct mq, c, c').
    destruct (decide (c' = c)); [lia|apply H2].
  - by destruct mq, c.
  - assert (∀ td mq0, todo (set_reo (RTurn td) mq0) = td) as -> by (by intros ? []).
    rewrite held_turn_of. unfold turn_of, held_bound. destruct m as [[] p]; simpl; lia.
  - assert (∀ r mq0, egressChan (set_reo r (set_ingress c rest mq0)) = egressChan mq0) as -> by (intros r []; by destruct c). done.
Qed.

Lemma bounded_turn sz mq mq' : bounded sz mq → mq_ok mq → reorder_turn mq = Some mq' → bounded sz mq'.
Proof.
  intros [H1 H2 H3 H4 H5] [_ Hnone]. unfold reorder_turn.
  assert (Htd : todo mq = match reo mq with RTurn td => td | _ => [] end) by done.
  assert (He : reo mq ≠ RNone → egressChan mq ≠ None) by tauto.
  destruct (reo mq) as [| | |[|[m|c [|k]] td]|] eqn:Hr; try done; specialize (He ltac:(done)); rewrite Htd in H4; simpl in H4.
  - intros [= <-]. destruct mq; split; simpl in *; try done; lia.
  - destruct (egressChan mq) as [e|] eqn:Heg; [|done]. destruct (bool_decide_reflect (length e < qSize mq)) as [Hlt|]; [|done].
    intros [= <-]. destruct mq as [s h n l e' d dc r w p sn t di]; simpl in *; subst. split; simpl; try done.
    + rewrite length_app. simpl. lia.
    + unfold todo; simpl. unfold held_bound. destruct td as [|[]]; simpl in *; lia.
  - intros [= <-]. destruct mq; split; simpl in *; try done. unfold todo; simpl. unfold held_bound. destruct td as [|[]]; simpl in *; lia.
  - destruct (queued c mq) as [|m rest] eqn:Hq; [done|]. intros [= <-]. pose proof (H2 c) as Hc. rewrite Hq in Hc. simpl in Hc.
    split.
    + by destruct mq, c.
    + intros c'. assert (queued c' (set_reo (RTurn (Put m :: Drain c k :: td)) (set_ingress c rest mq))
        = if decide (c' = c) then rest else queued c' mq) as -> by (by destruct mq, c, c').
      destruct (decide (c' = c)); [lia|apply H2].
    + by destruct mq, c.
    + assert (∀ td mq0, todo (set_reo (RTurn td) mq0) = td) as -> by (by intros ? []). simpl. lia.
    + assert (∀ r mq0, egressChan (set_reo r (set_ingress c rest mq0)) = egressChan mq0) as -> by (intros r []; by destruct c). done.
Qed.

Lemma bounded_step P sz mq mq' : bounded sz mq → mq_ok mq → mq_step P mq mq' → bounded sz mq'.
Proof.
  intros Hb Hok Hstep.
  destruct Hstep as [m mq _|m mq mq' _ Hp|mq mq' Hc|mq Hr|h l mq Hr _|c mq mq' Hs|mq mq' Ht|i mq _
    |i m rest mq _ He|i m rest mq _ Hn|i m mq _|i e mq _|mq].
  - by apply bounded_init.
  - by eapply bounded_put.
  - destruct mq as [s h n l e [] dc r w p sn t di]; simplify_eq/=. by destruct Hb.
  - destruct Hok as [_ Ho], Hb. destruct mq as [s h n l [e|] d dc r w p sn t di]; simplify_eq/=; [by split|].
    discriminate (Ho eq_refl).
  - destruct Hok as [_ Ho], Hb. destruct mq as [s hi n lo [e|] d dc r w p sn t di]; simplify_eq/=; [by split|].
    discriminate (Ho eq_refl).
  - by eapply bounded_select.
  - by eapply bounded_turn.
  - by destruct mq, Hb.
  - destruct Hb as [H1 H2 H3 H4 H5]. destruct mq as [s hi n lo e d dc r w p sn t di]; simplify_eq/=. split; simpl in *; try done; lia.
  - destruct Hb as [H1 H2 H3 H4 H5]. destruct mq as [s hi n lo e d dc r w p sn t di]; simplify_eq/=. split; simpl in *; try done.
    intros c. specialize (H2 c). destruct c; unfold queued in *; simpl in *; lia.
  - by destruct mq, Hb.
  - by destruct mq, Hb.
  - by destruct mq, Hb.
Qed.

Lemma bounded_reachable n sz mq : rtc (mq_step anything) (newMsgQ n sz) mq → bounded sz mq.
Proof.
  intros Hr. apply (rtc_invariant_with (mq_step anything) mq_ok (bounded sz) (newMsgQ n sz)); [| | | |done].
  - intros x y. apply mq_ok_step.
  - intros x y Hok Hb. by apply bounded_step.
  - apply mq_ok_new.
  - apply bounded_new.
Qed.

(** ** Properties *)

(** C27. Conservation, order and back pressure.  Under every interleaving of arrivals, of
    [reorder], of workers and of their creation and removal: a message put in a queue of
    size [sz] was handed over at once, was taken by a worker, or is one of at most
    [4 * sz + 2] in the queue, of which at most [sz] wait in each channel; while only
    normal messages have come there are at most [sz].  Messages of high and of low
    priority keep their order among themselves, and normal messages do too but for those
    a worker took directly from the normal channel.  A message has to wait before the
    queue exactly when the channel of its class is full. *)
Theorem queue_bounded n sz mq m :
  rtc (mq_step anything) (newMsgQ n sz) mq →
  puts mq ≡ₚ direct mq ++ taken mq ++ in_queue mq ∧ length (in_queue mq) ≤ 4 * sz + 2 ∧
  (∀ c, length (queued c mq) ≤ sz) ∧ length (default [] (egressChan mq)) ≤ sz ∧
  (egressChan mq = None → length (in_queue mq) ≤ sz) ∧
  (∀ c, c ≠ Normal → of_class c (puts mq) = of_class c (taken mq ++ default [] (egressChan mq) ++ held (todo mq)) ++ queued c mq) ∧
  (of_class Normal (taken mq ++ default [] (egressChan mq) ++ held (todo mq)) ++ queued Normal mq
     `sublist_of` of_class Normal (puts mq)) ∧
  (putMetaMsg m mq = None ↔ length (queued (class m) mq) = sz).
Proof.
  intros Hr. destruct (bounded_reachable n sz mq Hr) as [H1 H2 H3 H4 H5].
  destruct (messages_conserved n sz mq Hr) as (Hp & Horder & Hnormal).
  pose proof (H2 High) as HH. pose proof (H2 Normal) as HN. pose proof (H2 Low) as HL.
  assert (Hheld : held_bound (todo mq) ≤ 2) by (unfold held_bound; destruct (todo mq) as [|[]]; lia).
  split_and!; [|unfold in_queue; rewrite !length_app; lia|done|done| | | |].
  - rewrite Hp. unfold in_queue. by rewrite <- !app_assoc.
  - intros He. destruct (H5 He) as (E1 & E2 & E3). unfold in_queue. rewrite E3, He, !length_app.
    unfold queued, ingress in *. rewrite E1, E2. simpl in *. lia.
  - intros c Hc. rewrite (Horder c Hc). rewrite !of_class_app. by rewrite <- !app_assoc.
  - rewrite !of_class_app, <- !app_assoc in *. done.
  - unfold putMetaMsg. rewrite queued_init, qSize_init, H1. destruct (bool_decide_reflect (length (queued (class m) mq) < sz)).
    + split; [done|lia].
    + specialize (H2 (class m)). split; [lia|done].
Qed.

(** The bound is reached: a queue of size one with one message in each channel and two
    in the hands of [reorder] *)
Definition brimming : list action :=
  [APut (mkMsg High 0); ALoop; ASelect High; ATurn; ATurn; ATurn; ATurn; ATurn;
   APut (mkMsg Low 1); APut (mkMsg High 2); ALoop; ASelect Low; ATurn;
   APut (mkMsg High 3); APut (mkMsg Normal 4); APut (mkMsg Low 5)].

Lemma queue_bounded_witness : ∃ mq, acts brimming (newMsgQ 0 1) = Some mq ∧
  length (in_queue mq) = 4 * 1 + 2 ∧ length (in_queue mq) ≤ 4 * 1 + 2 ∧ putMetaMsg (mkMsg High 6) mq = None.
Proof.
  destruct (acts brimming (newMsgQ 0 1)) as [mq|] eqn:E; [|vm_compute in E; discriminate E].
  destruct (queue_bounded 0 1 mq (mkMsg High 6) (acts_steps _ _ _ E)) as (_ & Hbound & _ & _ & _ & _ & _ & Hwait).
  exists mq. split; [reflexivity|]. vm_compute in E. injection E as <-.
  split; [reflexivity|]. split; [exact Hbound|]. apply Hwait. reflexivity.
Defined.
