(* ===== verification/LANRegistry.v ===== *)
(** The LAN registry (registry.go, lanregistry_svc.go): one step of the loop of
    [registryLAN.run] per command, packet, timer or stop, with what it sends; the
    query cache of [queryServiceInLAN]; the record of local services kept across
    restarts; and two nodes that discover each other's services. *)
From S2P Require Import Prelude GoStrings Wildcard Names RootRegistry.

(** [localSvcInfo] *)
Record localSvcInfo := mkLocal { lsi_timeStamp : Z; lsi_port : bytes }.

(** What the loop of [run] works on: [r.s.providerID], the services of this node
    by "publisher_service", and the providers found in the LAN by service and
    provider ID *)
Record registryLAN := mkLAN {
  providerID : bytes;
  localServiceTable : gmap bytes localSvcInfo;
  serviceCache : gmap bytes (gmap bytes providerInfo);
}.

(** Commands; the channel of a query is a number *)
Inductive command :=
| cmdLANRegister (name port : bytes)
| cmdLANDelete (name : bytes)
| cmdLANQuery (name : bytes) (chanServiceInfo : nat).

(** Packets *)
Inductive packet :=
| queryInLAN (name : bytes)
| foundInLAN (name : bytes) (providerID port : bytes)
| unknownPacket.

(** What wakes the loop up.  [sent] tells whether the broadcast works, [dial]
    which local addresses can be dialed, [created] whether the record file can
    be created. *)
Inductive event :=
| EvCmd (cmd : command) (sent : bool)
| EvDelay (name : bytes) (chanServiceInfo : nat)
| EvTick (dial : bytes → bool)
| EvPacket (msg : packet) (raddr : bytes)
| EvDone (created : bool).

(** What a step of the loop does besides changing its tables *)
Inductive effect :=
| Broadcast (name : bytes)
| AfterFunc (name : bytes) (chanServiceInfo : nat)
| Answer (chanServiceInfo : nat) (infos : list ServiceInfo)
| ReplyTo (msg : packet) (raddr : bytes)
| WriteRecord (file : bytes).

Section run.
Context `{GoRange}.

(** ** [getServiceInfos] *)

(** The body of the loop of [walkProviders] *)
Definition walk_provider (now : Z) (pName sName : bytes)
    (acc : gmap bytes providerInfo * list ServiceInfo) (entry : bytes * providerInfo) :=
  let '(table, infos) := acc in
  let '(pID, pInfo) := entry in
  if bool_decide (now - timeStamp pInfo > fiveMinutes)%Z then (delete pID table, infos)
  else (table, infos ++ [mkServiceInfo pName sName pID (addr pInfo)]).

(** [walkProviders] *)
Definition walkLAN (now : Z) (table : gmap bytes providerInfo) (name : bytes) (infos : list ServiceInfo) :
    outcome (gmap bytes providerInfo * list ServiceInfo) :=
  '(pName, sName) ← fromPublisherServiceName name;
  Return (foldl (walk_provider now pName sName) (table, infos) (range table)).

(** The body of the loop over the services of the cache *)
Definition walk_cached (now : Z) (query : bytes)
    (acc : gmap bytes (gmap bytes providerInfo) * list ServiceInfo)
    (entry : bytes * gmap bytes providerInfo) :=
  let '(cache, infos) := acc in
  let '(name, table) := entry in
  if WildcardMatch query name then
    '(table, infos) ← walkLAN now table name infos; Return (<[name := table]> cache, infos)
  else Return (cache, infos).

(** [getServiceInfos] *)
Definition getServiceInfos (now : Z) (query : bytes) (cache : gmap bytes (gmap bytes providerInfo)) :
    outcome (gmap bytes (gmap bytes providerInfo) * list ServiceInfo) :=
  if Contains query (str "*") then foldOutcome (walk_cached now query) (cache, []) (range cache)
  else
    match cache !! query with
    | Some table => '(table, infos) ← walkLAN now table query []; Return (<[query := table]> cache, infos)
    | None => Return (cache, [])
    end.

(** ** The other branches of the loop *)

(** [delService] *)
Definition delService (name : bytes) (r : registryLAN) : registryLAN :=
  mkLAN (providerID r) (delete name (localServiceTable r))
    (alter (delete (providerID r)) name (serviceCache r)).

(** The body of the loop of the ticker *)
Definition tick_service (now : Z) (dial : bytes → bool) (r : registryLAN) (entry : bytes * localSvcInfo) :
    registryLAN :=
  let '(name, lsi) := entry in
  match pingService dial (str "127.0.0.1:" ++ lsi_port lsi) with
  | Some _ => if bool_decide (now > lsi_timeStamp lsi + fiveMinutes)%Z then delService name r else r
  | None => mkLAN (providerID r) (<[name := mkLocal now (lsi_port lsi)]> (localServiceTable r)) (serviceCache r)
  end.

(** The replies to [queryInLAN] *)
Definition found_replies (r : registryLAN) (name raddr : bytes) : list effect :=
  if Contains name (str "*") then
    omap (λ '(n, lsi), if WildcardMatch name n
                       then Some (ReplyTo (foundInLAN n (providerID r) (lsi_port lsi)) raddr) else None)
      (range (localServiceTable r))
  else
    match localServiceTable r !! name with
    | Some lsi => [ReplyTo (foundInLAN name (providerID r) (lsi_port lsi)) raddr]
    | None => []
    end.

(** [foundInLAN] received *)
Definition add_found (now : Z) (name pID port raddr : bytes) (r : registryLAN) : registryLAN :=
  let rhost := host_of raddr in
  let table := default ∅ (serviceCache r !! name) in
  mkLAN (providerID r) (localServiceTable r)
    (<[name := <[pID := mkProviderInfo now (rhost ++ str ":" ++ port) false]> table]> (serviceCache r)).

(** The record of local services written at the end *)
Definition local_line (entry : bytes * localSvcInfo) : bytes :=
  entry.1 ++ str " " ++ lsi_port entry.2 ++ ["010"%char].
Definition local_record (table : gmap bytes localSvcInfo) : bytes := concat (local_line <$> range table).

(** One round of the loop *)
Definition lan_step (now : Z) (e : event) (r : registryLAN) : outcome (registryLAN * list effect) :=
  match e with
  | EvDone created => Return (r, if created then [WriteRecord (local_record (localServiceTable r))] else [])
  | EvCmd (cmdLANRegister name port) _ =>
      Return (mkLAN (providerID r) (<[name := mkLocal now port]> (localServiceTable r)) (serviceCache r), [])
  | EvCmd (cmdLANDelete name) _ => Return (delService name r, [])
  | EvCmd (cmdLANQuery name ch) sent =>
      Return (r, if sent then [Broadcast name; AfterFunc name ch] else [])
  | EvDelay name ch =>
      '(cache, infos) ← getServiceInfos now name (serviceCache r);
      Return (mkLAN (providerID r) (localServiceTable r) cache, [Answer ch infos])
  | EvTick dial => Return (foldl (tick_service now dial) r (range (localServiceTable r)), [])
  | EvPacket (queryInLAN name) raddr => Return (r, found_replies r name raddr)
  | EvPacket (foundInLAN name pID port) raddr => Return (add_found now name pID port raddr r, [])
  | EvPacket unknownPacket _ => Return (r, [])
  end.

(** Several rounds, each with the time it starts at; what each of them does *)
Fixpoint lan_run (events : list (Z * event)) (r : registryLAN) : outcome (registryLAN * list (list effect)) :=
  match events with
  | [] => Return (r, [])
  | (now, e) :: events =>
      '(r, eff) ← lan_step now e r;
      '(r, effs) ← lan_run events r;
      Return (r, eff :: effs)
  end.
End run.

(** The reading of the record at the start; every round consumes a line *)
Fixpoint load_local (fuel : nat) (now : Z) (file : bytes) (table : gmap bytes localSvcInfo) :
    gmap bytes localSvcInfo :=
  match fuel with
  | 0 => table
  | S fuel =>
      match Fscanln 2 file with
      | Some ([name; port], file) => load_local fuel now file (<[name := mkLocal now port]> table)
      | _ => table
      end
  end.

(** The state [run] starts with: [None] when there is no record *)
Definition start_lan (providerID : bytes) (now : Z) (file : option bytes) : registryLAN :=
  mkLAN providerID
    (match file with None => ∅ | Some file => load_local (S (length file)) now file ∅ end) ∅.

(** ** The commands, and the cache of queries *)

Definition registerServiceInLAN (publisher service port : bytes) : command :=
  cmdLANRegister (toPublisherServiceName publisher service) port.
Definition deleteServiceInLAN (publisher service : bytes) : command :=
  cmdLANDelete (toPublisherServiceName publisher service).

(** [serviceInfoCache] *)
Abbreviation infoCache := (gmap bytes (Z * list ServiceInfo)).

(** [queryServiceInLAN], first critical section: the cached answer, if it is
    young enough *)
Definition cached_answer (now : Z) (publisher service : bytes) (cache : infoCache) :
    infoCache * option (list ServiceInfo) :=
  let name := toPublisherServiceName publisher service in
  let cache := if bool_decide (1000 < size cache) then ∅ else cache in
  (cache, match cache !! name with
          | Some (t, si) => if bool_decide (now - t < 15 * 10 ^ 9)%Z then Some si else None
          | None => None
          end).

(** The second: the answer [si] of the loop is kept *)
Definition keep_answer (now : Z) (publisher service : bytes) (si : list ServiceInfo) (cache : infoCache) :
    infoCache := <[toPublisherServiceName publisher service := (now, si)]> cache.

(** ** What [getServiceInfos] returns *)

Definition is_fresh (now : Z) (pInfo : providerInfo) : bool :=
  bool_decide (now - timeStamp pInfo ≤ fiveMinutes)%Z.

(** The provider [pID] of the service [name] in a cache *)
Definition cached_at (cache : gmap bytes (gmap bytes providerInfo)) (name pID : bytes) : option providerInfo :=
  table ← cache !! name; table !! pID.

Definition well_named (name : bytes) : Prop := ∃ p s, fromPublisherServiceName name = Return (p, s).

(** A service record says what a table holds. *)
Definition info_of (name pID : bytes) (pInfo : providerInfo) (si : ServiceInfo) : Prop :=
  name = toPublisherServiceName (Publisher si) (Service si) ∧
  underscore ∉ Publisher si ∧ underscore ∉ Service si ∧ pID = ProviderID si ∧ addr pInfo = Addr si.

Section infos.
Context `{GoRange}.

(** The records of the fresh providers of a table *)
Definition fresh_infos (now : Z) (pName sName : bytes) (l : list (bytes * providerInfo)) : list ServiceInfo :=
  (λ '(pID, pInfo), mkServiceInfo pName sName pID (addr pInfo)) <$> filter (λ e, is_fresh now e.2) l.

Lemma walk_provider_fold now pName sName l table infos :
  foldl (walk_provider now pName sName) (table, infos) l =
  (foldl (λ t e, delete e.1 t) table (filter (λ e, ¬ is_fresh now e.2) l),
   infos ++ fresh_infos now pName sName l).
Proof.
  revert table infos; induction l as [|[pID pInfo] l IH]; intros table infos; simpl.
  { unfold fresh_infos. simpl. by rewrite app_nil_r. }
  unfold fresh_infos. rewrite !filter_cons. cbn [snd].
  destruct (is_fresh now pInfo) eqn:Hf; unfold is_fresh in Hf;
    [apply bool_decide_eq_true in Hf|apply bool_decide_eq_false in Hf].
  - rewrite bool_decide_eq_false_2 by lia. rewrite IH. simpl. unfold fresh_infos. by rewrite <- app_assoc.
  - rewrite bool_decide_eq_true_2 by lia. by rewrite IH.
Qed.

Lemma foldl_delete_lookup {A} (l : list (bytes * A)) (table : gmap bytes A) k :
  foldl (λ t e, delete e.1 t) table l !! k = if decide (k ∈ l.*1) then None else table !! k.
Proof.
  revert table; induction l as [|[k' x] l IH]; intros table; [done|].
  change (((k', x) :: l).*1) with (k' :: l.*1). cbn [foldl fst]. rewrite IH.
  destruct (decide (k = k')) as [->|Hne].
  - rewrite lookup_delete_eq, (decide_True (P := k' ∈ k' :: l.*1)) by left. by destruct (decide _).
  - rewrite lookup_delete_ne by done.
    by rewrite (decide_ext (k ∈ k' :: l.*1) (k ∈ l.*1)) by (rewrite elem_of_cons; tauto).
Qed.

Lemma walkLAN_spec now table name p s infos :
  fromPublisherServiceName name = Return (p, s) →
  walkLAN now table name infos =
  Return (filter (λ e, is_fresh now e.2) table, infos ++ fresh_infos now p s (range table)).
Proof.
  intros Hn. unfold walkLAN. rewrite Hn. simpl. rewrite walk_provider_fold. do 2 f_equal.
  apply map_eq. intros k. rewrite foldl_delete_lookup.
  destruct (decide (k ∈ (filter (λ e, ¬ is_fresh now e.2) (range table)).*1)) as [Hk|Hk].
  - apply list_elem_of_fmap in Hk as ([k' x] & -> & Hx). apply list_elem_of_filter in Hx as [Hx Hin].
    apply elem_of_range in Hin. symmetry. apply map_lookup_filter_None. right. intros y Hy. simpl in *.
    by simplify_eq.
  - destruct (table !! k) as [x|] eqn:Hx.
    + symmetry. apply map_lookup_filter_Some. split; [done|]. simpl.
      destruct (is_fresh now x) eqn:Hf; [done|]. exfalso. apply Hk, list_elem_of_fmap.
      exists (k, x). split; [done|]. apply list_elem_of_filter. simpl. rewrite Hf.
      split; [by intros []|by apply elem_of_range].
    + symmetry. apply map_lookup_filter_None. by left.
Qed.

Lemma elem_of_fresh_infos now name p s table si :
  fromPublisherServiceName name = Return (p, s) →
  si ∈ fresh_infos now p s (range table) ↔
  ∃ pID pInfo, table !! pID = Some pInfo ∧ is_fresh now pInfo ∧ info_of name pID pInfo si.
Proof.
  intros (Hn & Hp & Hs)%fromPublisherServiceName_Return. unfold fresh_infos.
  rewrite list_elem_of_fmap. split.
  - intros ([pID pInfo] & -> & Hin). apply list_elem_of_filter in Hin as [Hf Hin%elem_of_range].
    exists pID, pInfo. by repeat split.
  - intros (pID & pInfo & Ht & Hf & Hi & Hpu & Hsu & -> & Ha). exists (ProviderID si, pInfo). split.
    + destruct (toPublisherServiceName_inj (Publisher si) (Service si) p s) as [<- <-]; [done..|by rewrite <- Hi|].
      destruct si. simpl in *. by rewrite Ha.
    + apply list_elem_of_filter. by split; [|apply elem_of_range].
Qed.

Lemma NoDup_fresh_infos now p s table : NoDup (fresh_infos now p s (range table)).
Proof.
  apply (NoDup_fmap_1 ProviderID). unfold fresh_infos. rewrite <- list_fmap_compose.
  eapply sublist_NoDup; [apply (NoDup_fst_range table)|].
  erewrite (list_fmap_ext _ fst); [apply fmap_sublist, sublist_filter|]. by intros i [].
Qed.

(** The records of the fresh providers of a cached service *)
Definition table_infos (now : Z) (name : bytes) (table : gmap bytes providerInfo) : list ServiceInfo :=
  match fromPublisherServiceName name with
  | Return (p, s) => fresh_infos now p s (range table)
  | Panics _ => []
  end.

Definition purge (now : Z) (table : gmap bytes providerInfo) : gmap bytes providerInfo :=
  filter (λ e, is_fresh now e.2) table.

Lemma walk_cached_fold now query l cache infos :
  NoDup l.*1 → Forall (λ e, well_named e.1) l →
  ∃ cache', foldOutcome (walk_cached now query) (cache, infos) l =
      Return (cache', infos ++ (l ≫= λ e, if WildcardMatch query e.1 then table_infos now e.1 e.2 else [])) ∧
    ∀ n, cache' !! n = match (list_to_map l : gmap bytes (gmap bytes providerInfo)) !! n with
                       | Some table => if WildcardMatch query n then Some (purge now table) else cache !! n
                       | None => cache !! n
                       end.
Proof.
  revert cache infos; induction l as [|[n table] l IH]; intros cache infos Hnd Hwf.
  { exists cache. simpl. rewrite app_nil_r. split; [done|]. by intros n. }
  apply NoDup_cons in Hnd as [Hn Hnd]. apply Forall_cons in Hwf as [(p & s & Hps) Hwf]. simpl in Hps.
  assert (walk_cached now query (cache, infos) (n, table) =
    Return (if WildcardMatch query n then (<[n := purge now table]> cache, infos ++ table_infos now n table)
            else (cache, infos))) as Hstep.
  { unfold walk_cached. destruct (WildcardMatch query n); [|done].
    rewrite (walkLAN_spec _ _ _ p s) by done. unfold table_infos. by rewrite Hps. }
  cbn [foldOutcome]. rewrite Hstep. cbn [mbind outcome_bind]. clear Hstep.
  change (list_to_map ((n, table) :: l) : gmap bytes (gmap bytes providerInfo))
    with (<[n := table]> (list_to_map l : gmap bytes (gmap bytes providerInfo))).
  rewrite bind_cons. cbn [fst snd]. destruct (WildcardMatch query n) eqn:Hm.
  - destruct (IH (<[n := purge now table]> cache) (infos ++ table_infos now n table)) as (cache' & -> & Hc); [done..|].
    exists cache'. rewrite <- app_assoc. split; [done|]. intros n'. rewrite Hc.
    destruct (decide (n' = n)) as [->|Hne]; [|by rewrite !lookup_insert_ne by done].
    rewrite !lookup_insert_eq, Hm. by rewrite (not_elem_of_list_to_map_1 l n) by done.
  - destruct (IH cache infos) as (cache' & -> & Hc); [done..|]. exists cache'. split; [done|].
    intros n'. rewrite Hc. destruct (decide (n' = n)) as [->|Hne]; [|by rewrite lookup_insert_ne by done].
    rewrite lookup_insert_eq, Hm. by rewrite (not_elem_of_list_to_map_1 l n) by done.
Qed.

(** What the loop answers to a query: the fresh providers of the services
    selected, each once; the stale ones are dropped. *)
Lemma elem_of_table_infos now n table si : well_named n →
  si ∈ table_infos now n table ↔ ∃ pID pInfo, table !! pID = Some pInfo ∧ is_fresh now pInfo ∧ info_of n pID pInfo si.
Proof. intros (p & s & Hps). unfold table_infos. rewrite Hps. by apply elem_of_fresh_infos. Qed.

Lemma NoDup_table_infos now n table : NoDup (table_infos now n table).
Proof.
  unfold table_infos. destruct (fromPublisherServiceName n) as [[p s]|]; [apply NoDup_fresh_infos|constructor].
Qed.

Lemma getServiceInfos_spec now query cache :
  (∀ n table, cache !! n = Some table → well_named n) →
  ∃ cache' infos, getServiceInfos now query cache = Return (cache', infos) ∧
    (∀ n, cache' !! n = if selects query n then purge now <$> cache !! n else cache !! n) ∧
    NoDup infos ∧
    ∀ si, si ∈ infos ↔ ∃ n pID pInfo, cached_at cache n pID = Some pInfo ∧ is_fresh now pInfo ∧
                          selects query n ∧ info_of n pID pInfo si.
Proof.
  intros Hwf. pose proof (λ n table si Hn, elem_of_table_infos now n table si (Hwf n table Hn)) as Hel.
  unfold getServiceInfos, selects. destruct (Contains query (str "*")) eqn:Hstar.
  - destruct (walk_cached_fold now query (range cache) cache []) as (cache' & -> & Hc).
    { apply NoDup_fst_range. }
    { apply Forall_forall. intros [n table] Hn%elem_of_range. by eapply Hwf. }
    eexists _, _. split; [done|]. split; [|split].
    + intros n. rewrite Hc, list_to_map_range. by destruct (cache !! n), (WildcardMatch query n).
    + apply NoDup_bind.
      * intros [n1 t1] [n2 t2] si H1%elem_of_range H2%elem_of_range. simpl.
        destruct (WildcardMatch query n1); [|by intros ?%elem_of_nil].
        destruct (WildcardMatch query n2); [|by intros _ ?%elem_of_nil].
        rewrite !Hel by done. intros (? & ? & _ & _ & -> & _) (? & ? & _ & _ & -> & _). by simplify_eq.
      * intros [n table] _. simpl. destruct (WildcardMatch query n); [apply NoDup_table_infos|constructor].
      * eapply NoDup_fmap_1, NoDup_fst_range.
    + intros si. cbn [app]. rewrite list_elem_of_bind. unfold cached_at. split.
      * intros ([n table] & Hsi & Hn%elem_of_range). simpl in Hsi.
        destruct (WildcardMatch query n) eqn:Hm; [|by apply elem_of_nil in Hsi].
        apply Hel in Hsi as (pID & pInfo & Ht & Hf & Hi); [|done].
        exists n, pID, pInfo. by rewrite Hn, Hm.
      * intros (n & pID & pInfo & (table & Hn & Ht)%bind_Some & Hf & Hm & Hi).
        exists (n, table). split; [|by apply elem_of_range]. simpl. apply Is_true_true in Hm. rewrite Hm.
        apply Hel; [done|]. eauto.
  - destruct (cache !! query) as [table|] eqn:Hq.
    + destruct (Hwf _ _ Hq) as (p & s & Hps). rewrite (walkLAN_spec _ _ _ p s) by done.
      eexists _, _. split; [done|]. simpl. split; [|split].
      * intros n. destruct (bool_decide_reflect (n = query)) as [->|Hne].
        -- by rewrite lookup_insert_eq, Hq.
        -- by rewrite lookup_insert_ne by done.
      * apply NoDup_fresh_infos.
      * intros si. rewrite (elem_of_fresh_infos _ query) by done. split.
        -- intros (pID & pInfo & Ht & Hf & Hi). exists query, pID, pInfo. unfold cached_at. rewrite Hq.
           by rewrite bool_decide_eq_true_2.
        -- intros (n & pID & pInfo & Ht & Hf & Hn%bool_decide_spec & Hi). subst n.
           unfold cached_at in Ht. rewrite Hq in Ht. simpl in Ht. eauto.
    + eexists _, _. split; [done|]. split; [|split; [constructor|]].
      * intros n. destruct (bool_decide_reflect (n = query)) as [->|Hne]; [by rewrite Hq|done].
      * intros si. split; [by intros ?%elem_of_nil|].
        intros (n & pID & pInfo & Ht & _ & Hn%bool_decide_spec & _). subst n.
        unfold cached_at in Ht. by rewrite Hq in Ht.
Qed.
End infos.

(** ** The abstract registry

    The services of this node by name, and the last provider found for each
    service and provider ID: nothing is ever cleaned up, what is too old is only
    left out of the answers. *)
Record lanTable := mkLanTable {
  sp_local : gmap bytes localSvcInfo;
  sp_found : gmap (bytes * bytes) providerInfo;
}.

(** What a tick makes of a local service: [None] when it is dropped *)
Definition tick_keep (now : Z) (dial : bytes → bool) (lsi : localSvcInfo) : option localSvcInfo :=
  if dial (str "127.0.0.1:" ++ lsi_port lsi) then Some (mkLocal now (lsi_port lsi))
  else if bool_decide (now > lsi_timeStamp lsi + fiveMinutes)%Z then None else Some lsi.

Definition dropped (now : Z) (dial : bytes → bool) (local : gmap bytes localSvcInfo) (n : bytes) : bool :=
  match local !! n with Some lsi => bool_decide (tick_keep now dial lsi = None) | None => false end.

Definition spec_lan (own : bytes) (now : Z) (e : event) (t : lanTable) : lanTable :=
  let '(mkLanTable local found) := t in
  match e with
  | EvCmd (cmdLANRegister name port) _ => mkLanTable (<[name := mkLocal now port]> local) found
  | EvCmd (cmdLANDelete name) _ => mkLanTable (delete name local) (delete (name, own) found)
  | EvTick dial =>
      mkLanTable (omap (tick_keep now dial) local)
        (filter (λ '(n, pID, _), ¬ (pID = own ∧ dropped now dial local n)) found)
  | EvPacket (foundInLAN name pID port) raddr =>
      mkLanTable local (<[(name, pID) := mkProviderInfo now (host_of raddr ++ str ":" ++ port) false]> found)
  | _ => t
  end.

(** The names in the packets are made of a publisher and a service. *)
Definition well_named_event (e : event) : Prop :=
  match e with EvPacket (foundInLAN name _ _) _ => well_named name | _ => True end.

(** The loop at time [now] implements the abstract registry. *)
Record lan_implements (own : bytes) (now : Z) (r : registryLAN) (t : lanTable) : Prop := mkLanImpl {
  li_own : providerID r = own;
  li_local : localServiceTable r = sp_local t;
  li_named : ∀ n table, serviceCache r !! n = Some table → well_named n;
  li_sound : ∀ n pID x, cached_at (serviceCache r) n pID = Some x → sp_found t !! (n, pID) = Some x;
  li_stale : ∀ n pID x, sp_found t !! (n, pID) = Some x → cached_at (serviceCache r) n pID = None →
    is_fresh now x = false;
}.

Lemma is_fresh_mono now now' x : (now ≤ now')%Z → is_fresh now x = false → is_fresh now' x = false.
Proof. unfold is_fresh. rewrite !bool_decide_eq_false. lia. Qed.

Lemma lan_implements_later own now now' r t :
  (now ≤ now')%Z → lan_implements own now r t → lan_implements own now' r t.
Proof. intros Hle []. split; try done. eauto using is_fresh_mono. Qed.

Lemma cached_at_insert cache n table n' pID :
  cached_at (<[n := table]> cache) n' pID =
  if decide (n' = n) then table !! pID else cached_at cache n' pID.
Proof.
  unfold cached_at. destruct (decide (n' = n)) as [->|Hne].
  - by rewrite lookup_insert_eq.
  - by rewrite lookup_insert_ne by done.
Qed.

Lemma cached_at_delService name r n pID :
  cached_at (serviceCache (delService name r)) n pID =
  if decide (n = name ∧ pID = providerID r) then None else cached_at (serviceCache r) n pID.
Proof.
  unfold cached_at, delService. cbn [serviceCache]. destruct (decide (n = name)) as [->|Hne].
  - rewrite lookup_alter_eq. destruct (serviceCache r !! name) as [table|]; simpl; [|by destruct (decide _)].
    destruct (decide (pID = providerID r)) as [->|Hp].
    + by rewrite lookup_delete_eq, decide_True.
    + rewrite lookup_delete_ne, decide_False by naive_solver. done.
  - rewrite lookup_alter_ne, decide_False by naive_solver. done.
Qed.

Lemma delService_named name r :
  (∀ n table, serviceCache r !! n = Some table → well_named n) →
  ∀ n table, serviceCache (delService name r) !! n = Some table → well_named n.
Proof.
  intros Hw n table. unfold delService. cbn [serviceCache]. rewrite lookup_alter_Some.
  intros [(-> & t & Ht & _)|[_ Ht]]; eauto.
Qed.

Lemma lan_del own now name r t :
  lan_implements own now r t →
  lan_implements own now (delService name r)
    (mkLanTable (delete name (sp_local t)) (delete (name, own) (sp_found t))).
Proof.
  intros [Ho Hl Hn Hs Hst]. split; cbn [providerID localServiceTable sp_local sp_found].
  - done.
  - unfold delService. cbn [localServiceTable]. by rewrite Hl.
  - by apply delService_named.
  - intros n pID x. rewrite cached_at_delService. destruct (decide _) as [?|Hne]; [done|].
    intros Hc. rewrite lookup_delete_ne; [by apply Hs|]. intros [= -> ->]. by rewrite Ho in Hne; tauto.
  - intros n pID x. rewrite cached_at_delService. rewrite lookup_delete_Some. intros [Hne Hf].
    rewrite decide_False; [by apply Hst|]. rewrite Ho. intros [-> ->]. done.
Qed.

(** One service of a tick is a deletion, a renewal, or nothing. *)
Definition spec_tick_one (own : bytes) (now : Z) (dial : bytes → bool) (t : lanTable)
    (entry : bytes * localSvcInfo) : lanTable :=
  let '(n, lsi) := entry in
  match tick_keep now dial lsi with
  | Some lsi' => mkLanTable (<[n := lsi']> (sp_local t)) (sp_found t)
  | None => mkLanTable (delete n (sp_local t)) (delete (n, own) (sp_found t))
  end.

Lemma lan_tick_one own now dial r t n lsi :
  lan_implements own now r t → sp_local t !! n = Some lsi →
  lan_implements own now (tick_service now dial r (n, lsi)) (spec_tick_one own now dial t (n, lsi)).
Proof.
  intros Hi Hn. unfold tick_service, spec_tick_one, tick_keep, pingService.
  destruct (dial _); [|destruct (bool_decide _)].
  - destruct Hi as [Ho Hl Hnm Hs Hst]. split; try done. cbn [localServiceTable sp_local]. by rewrite Hl.
  - by apply lan_del.
  - destruct t as [local found]. simpl in *. by rewrite insert_id.
Qed.

Lemma lan_tick_fold own now dial l r t :
  lan_implements own now r t → NoDup l.*1 → (∀ n lsi, (n, lsi) ∈ l → sp_local t !! n = Some lsi) →
  lan_implements own now (foldl (tick_service now dial) r l) (foldl (spec_tick_one own now dial) t l).
Proof.
  revert r t; induction l as [|[n lsi] l IH]; intros r t Hi Hnd Hl; [done|].
  apply NoDup_cons in Hnd as [Hn Hnd]. cbn [foldl]. apply IH; [|done|].
  - apply lan_tick_one; [done|]. apply Hl. by left.
  - intros n' lsi' Hin. assert (n' ≠ n) as Hne
      by (intros ->; apply Hn, list_elem_of_fmap; by exists (n, lsi')).
    assert (sp_local t !! n' = Some lsi') as Hn' by (apply Hl; by right).
    unfold spec_tick_one. destruct (tick_keep now dial lsi); cbn [sp_local];
      by rewrite ?lookup_insert_ne, ?lookup_delete_ne.
Qed.

Abbreviation local_map l := (list_to_map l : gmap bytes localSvcInfo).

Lemma spec_tick_fold own now dial l t :
  NoDup l.*1 →
  (∀ n, sp_local (foldl (spec_tick_one own now dial) t l) !! n =
     match local_map l !! n with Some lsi => tick_keep now dial lsi | None => sp_local t !! n end) ∧
  (∀ n pID, sp_found (foldl (spec_tick_one own now dial) t l) !! (n, pID) =
     if decide (pID = own ∧ dropped now dial (local_map l) n) then None else sp_found t !! (n, pID)).
Proof.
  revert t; induction l as [|[n lsi] l IH]; intros t Hnd.
  { split; [done|]. intros n pID. simpl. by rewrite decide_False by (intros [_ []]). }
  apply NoDup_cons in Hnd as [Hn Hnd]. simpl in Hn.
  change (local_map ((n, lsi) :: l)) with (<[n := lsi]> (local_map l)). cbn [foldl].
  destruct (IH (spec_tick_one own now dial t (n, lsi)) Hnd) as [IHl IHf]. split.
  - intros n'. rewrite IHl. unfold spec_tick_one. destruct (decide (n' = n)) as [->|Hne].
    + rewrite (not_elem_of_list_to_map_1 l n), lookup_insert_eq by done.
      destruct (tick_keep now dial lsi); cbn [sp_local]; by rewrite ?lookup_insert_eq, ?lookup_delete_eq.
    + rewrite lookup_insert_ne by done.
      destruct (tick_keep now dial lsi); cbn [sp_local]; by rewrite ?lookup_insert_ne, ?lookup_delete_ne.
  - intros n' pID. rewrite IHf. unfold dropped, spec_tick_one. destruct (decide (n' = n)) as [->|Hne].
    + rewrite (not_elem_of_list_to_map_1 l n), lookup_insert_eq by done.
      rewrite decide_False by (intros [_ []]). destruct (tick_keep now dial lsi); cbn [sp_found].
      * by rewrite decide_False by (intros [_ []]).
      * destruct (decide (pID = own)) as [->|Hp]; [rewrite lookup_delete_eq|rewrite lookup_delete_ne by naive_solver].
        -- by rewrite decide_True.
        -- by rewrite decide_False by tauto.
    + rewrite lookup_insert_ne by done. destruct (decide _); [done|].
      destruct (tick_keep now dial lsi); cbn [sp_found]; [done|]. by rewrite lookup_delete_ne by naive_solver.
Qed.

Lemma lan_tick `{GoRange} own now dial r t :
  lan_implements own now r t →
  lan_implements own now (foldl (tick_service now dial) r (range (localServiceTable r)))
    (spec_lan own now (EvTick dial) t).
Proof.
  intros Hi. rewrite (li_local _ _ _ _ Hi).
  replace (spec_lan own now (EvTick dial) t)
    with (foldl (spec_tick_one own now dial) t (range (sp_local t))).
  { apply lan_tick_fold; [done|apply NoDup_fst_range|]. intros n lsi. by rewrite elem_of_range. }
  destruct (spec_tick_fold own now dial (range (sp_local t)) t) as [Hl Hf]; [apply NoDup_fst_range|].
  rewrite list_to_map_range in *. destruct (foldl _ t _) as [local found] eqn:E. destruct t as [l0 f0].
  simpl in *. f_equal; apply map_eq.
  - intros n. rewrite Hl, lookup_omap. by destruct (l0 !! n).
  - intros [n pID]. rewrite Hf. symmetry. destruct (decide _) as [Hd|Hd].
    + apply map_lookup_filter_None. right. intros x _. tauto.
    + destruct (f0 !! (n, pID)) as [x|] eqn:Hx.
      * apply map_lookup_filter_Some. by split.
      * apply map_lookup_filter_None. by left.
Qed.

(** ** Every round of the loop implements the abstract one. *)

(** The answer the abstract registry gives to a query *)
Definition spec_answers (now : Z) (t : lanTable) (query : bytes) (infos : list ServiceInfo) : Prop :=
  NoDup infos ∧
  ∀ si, si ∈ infos ↔ ∃ n pID x, sp_found t !! (n, pID) = Some x ∧ is_fresh now x ∧ glob query n ∧ info_of n pID x si.

Lemma lan_query `{GoRange} own now r t query :
  lan_implements own now r t →
  ∃ cache infos, getServiceInfos now query (serviceCache r) = Return (cache, infos) ∧
    spec_answers now t query infos ∧
    lan_implements own now (mkLAN (providerID r) (localServiceTable r) cache) t.
Proof.
  intros [Ho Hl Hn Hs Hst].
  destruct (getServiceInfos_spec now query (serviceCache r) Hn) as (cache & infos & Hg & Hc & Hnd & Hel).
  exists cache, infos. split; [done|]. split; [split; [done|]|split; try done; cbn [serviceCache]].
  - intros si. rewrite Hel. split.
    + intros (n & pID & x & Hx & Hf & Hq & Hi). apply selects_glob in Hq. exists n, pID, x. auto.
    + intros (n & pID & x & Hx & Hf & Hq & Hi). exists n, pID, x. apply selects_glob in Hq.
      destruct (cached_at (serviceCache r) n pID) as [y|] eqn:Hy.
      * apply Hs in Hy as Hy'. by simplify_eq.
      * by rewrite (Hst _ _ _ Hx Hy) in Hf.
  - intros n table. rewrite Hc. destruct (selects query n); [|apply Hn].
    intros (t' & Ht & _)%fmap_Some. by eapply Hn.
  - intros n pID x Hx. apply Hs. revert Hx. unfold cached_at. rewrite Hc. destruct (selects query n); [|done].
    destruct (serviceCache r !! n) as [t'|]; [|done]. simpl. by intros [? _]%map_lookup_filter_Some.
  - intros n pID x Hx. unfold cached_at. rewrite Hc. intros Hnone.
    destruct (cached_at (serviceCache r) n pID) as [y|] eqn:Hy; [|by apply (Hst n pID)].
    apply Hs in Hy as Hy'. rewrite Hx in Hy'. injection Hy' as <-. unfold cached_at in Hy.
    destruct (serviceCache r !! n) as [t'|]; [|done]. simpl in *. destruct (selects query n); simpl in *.
    + apply map_lookup_filter_None in Hnone as [?|Hnone]; [congruence|].
      specialize (Hnone _ Hy). simpl in Hnone. by destruct (is_fresh now x).
    + congruence.
Qed.

Lemma lan_step_implements `{GoRange} own now e r t :
  lan_implements own now r t → well_named_event e →
  ∃ r' eff, lan_step now e r = Return (r', eff) ∧ lan_implements own now r' (spec_lan own now e t).
Proof.
  intros Hi Hw. destruct e as [[name port|name|name ch] sent|name ch|dial|[name|name pID port|] raddr|created];
    simpl; try (eexists _, _; split; [done|]; by destruct t).
  - eexists _, _. split; [done|]. destruct t, Hi as [Ho Hl Hn Hs Hst]. split; try done.
    simpl in *. by rewrite Hl.
  - eexists _, _. split; [done|]. destruct t. by apply (lan_del own now name r (mkLanTable _ _)).
  - destruct (lan_query own now r t name Hi) as (cache & infos & -> & _ & Hi'). simpl.
    eexists _, _. split; [done|]. by destruct t.
  - eexists _, _. split; [done|]. by apply lan_tick.
  - eexists _, _. split; [done|]. unfold add_found. destruct t as [local found], Hi as [Ho Hl Hn Hs Hst]. simpl in *.
    split; try done; cbn [serviceCache sp_found].
    + intros n table [[<- _]|[_ ?]]%lookup_insert_Some; eauto.
    + intros n pID' x. rewrite cached_at_insert. destruct (decide (n = name)) as [->|Hne].
      * destruct (decide (pID' = pID)) as [->|Hp]; [rewrite !lookup_insert_eq; auto|].
        rewrite !lookup_insert_ne by naive_solver. intros Hx. apply Hs. unfold cached_at.
        by destruct (serviceCache r !! name).
      * rewrite lookup_insert_ne by naive_solver. apply Hs.
    + intros n pID' x. rewrite cached_at_insert. destruct (decide (n = name)) as [->|Hne].
      * destruct (decide (pID' = pID)) as [->|Hp]; [by rewrite !lookup_insert_eq|].
        rewrite !lookup_insert_ne by naive_solver. intros Hx Hno. apply (Hst name pID'); [done|].
        unfold cached_at. by destruct (serviceCache r !! name).
      * rewrite lookup_insert_ne by naive_solver. apply Hst.
Qed.

(** ** Properties *)

Definition spec_lan_run (own : bytes) (events : list (Z * event)) (t : lanTable) : lanTable :=
  foldl (λ t '(now, e), spec_lan own now e t) t events.

(** The time of the last event *)
Definition last_time (t0 : Z) (events : list (Z * event)) : Z := foldl (λ _ e, e.1) t0 events.

Lemma lan_run_implements `{GoRange} own events t0 r t :
  lan_implements own t0 r t → Sorted Z.le (t0 :: events.*1) → Forall (λ e, well_named_event e.2) events →
  ∃ r' effs, lan_run events r = Return (r', effs) ∧
    lan_implements own (last_time t0 events) r' (spec_lan_run own events t).
Proof.
  revert t0 r t; induction events as [|[now e] events IH]; intros t0 r t Hi Hs Hw.
  { by exists r, []. }
  apply Sorted_inv in Hs as [Hs Hle]. apply HdRel_inv in Hle. apply Forall_cons in Hw as [He Hw]. simpl in He.
  destruct (lan_step_implements own now e r t) as (r1 & eff & Hstep & Hi1);
    [by eapply lan_implements_later|done|].
  destruct (IH now r1 (spec_lan own now e t) Hi1 Hs Hw) as (r' & effs & Hrun & Hi').
  exists r', (eff :: effs). cbn [lan_run]. rewrite Hstep. cbn [mbind outcome_bind]. rewrite Hrun.
  by split.
Qed.

(** C9. Refinement: started with or without a record file, after any sequence of
    commands, packets, ticks, queries and stops with well-formed names, the loop
    of the LAN registry has not panicked, holds the local services of the
    abstract registry, and answers a query with exactly the providers last found
    for the services the pattern selects, heard of in the last five minutes, each
    once. *)
Theorem lan_registry_answers `{GoRange} own t0 file events now query ch :
  Sorted Z.le (t0 :: events.*1) → (last_time t0 events ≤ now)%Z →
  Forall (λ e, well_named_event e.2) events →
  let r0 := start_lan own t0 file in
  let t := spec_lan_run own events (mkLanTable (localServiceTable r0) ∅) in
  ∃ r effs r' infos, lan_run events r0 = Return (r, effs) ∧ localServiceTable r = sp_local t ∧
    lan_step now (EvDelay query ch) r = Return (r', [Answer ch infos]) ∧ spec_answers now t query infos.
Proof.
  intros Hs Hle Hw. cbv zeta.
  set (r0 := start_lan own t0 file).
  assert (lan_implements own t0 r0 (mkLanTable (localServiceTable r0) ∅)) as Hi.
  { split; try done. }
  destruct (lan_run_implements own events t0 r0 _ Hi Hs Hw) as (r & effs & Hrun & Hi').
  eapply lan_implements_later in Hi'; [|exact Hle].
  destruct (lan_query own now r _ query Hi') as (cache & infos & Hg & Ha & _).
  exists r, effs, (mkLAN (providerID r) (localServiceTable r) cache), infos.
  split; [done|]. split; [apply (li_local _ _ _ _ Hi')|]. split; [|done].
  cbn [lan_step]. by rewrite Hg.
Qed.

(** The replies to a query: every local service the pattern selects *)
Lemma elem_of_found_replies `{GoRange} r query raddr eff :
  eff ∈ found_replies r query raddr ↔
  ∃ n lsi, localServiceTable r !! n = Some lsi ∧ glob query n ∧
    eff = ReplyTo (foundInLAN n (providerID r) (lsi_port lsi)) raddr.
Proof.
  setoid_rewrite <- selects_glob. unfold found_replies, selects. destruct (Contains _ _).
  - rewrite list_elem_of_omap. split.
    + intros ([n lsi] & Hn%elem_of_range & He). destruct (WildcardMatch query n) eqn:Hm; simplify_eq.
      exists n, lsi. by rewrite Hm.
    + intros (n & lsi & Hn & Hm%Is_true_true & ->). exists (n, lsi).
      rewrite elem_of_range, Hm. done.
  - destruct (localServiceTable r !! query) as [lsi|] eqn:Hq.
    + rewrite list_elem_of_singleton. split.
      * intros ->. exists query, lsi. by rewrite bool_decide_eq_true_2.
      * intros (n & lsi' & Hn & Hm%bool_decide_spec & ->). by simplify_eq.
    + split; [by intros ?%elem_of_nil|]. intros (n & lsi' & Hn & Hm%bool_decide_spec & _). congruence.
Qed.

(** Discovery between two nodes: when node [B] has registered a service that
    the pattern of a query from node [A] selects, [B] replies to the broadcast,
    and when [A] receives that reply before it answers, its answer has the
    service, with [B]'s provider ID and [B]'s host and the registered port. *)
Theorem lan_discovery `{GoRange} rA rB p s lsi query raddrA hostB bport tB t1 t2 ch :
  underscore ∉ p → underscore ∉ s →
  let name := toPublisherServiceName p s in
  localServiceTable rB !! name = Some lsi → glob query name →
  (∀ n table, serviceCache rA !! n = Some table → well_named n) →
  plain_host hostB → plain_host bport → (t2 - t1 ≤ fiveMinutes)%Z →
  let raddrB := hostB ++ ":"%char :: bport in
  let found := foundInLAN name (providerID rB) (lsi_port lsi) in
  ∃ effs rA1 rA2 infos,
    lan_step tB (EvPacket (queryInLAN query) raddrA) rB = Return (rB, effs) ∧ ReplyTo found raddrA ∈ effs ∧
    lan_step t1 (EvPacket found raddrB) rA = Return (rA1, []) ∧
    lan_step t2 (EvDelay query ch) rA1 = Return (rA2, [Answer ch infos]) ∧
    mkServiceInfo p s (providerID rB) (hostB ++ ":"%char :: lsi_port lsi) ∈ infos.
Proof.
  intros Hp Hs name Hl Hq Hn Hh Hb Ht raddrB found.
  exists (found_replies rB query raddrA), (add_found t1 name (providerID rB) (lsi_port lsi) raddrB rA).
  set (rA1 := add_found _ _ _ _ _ _).
  destruct (getServiceInfos_spec t2 query (serviceCache rA1)) as (cache & infos & Hg & _ & _ & Hel).
  { intros n table. subst rA1. cbn [add_found serviceCache].
    intros [[<- _]|[_ ?]]%lookup_insert_Some; [|by eapply Hn]. exists p, s. by apply from_to_ok. }
  eexists _, infos. split; [done|]. split; [|split; [done|split]].
  - apply elem_of_found_replies. exists name, lsi. done.
  - cbn [lan_step]. by rewrite Hg.
  - apply Hel. exists name, (providerID rB), (mkProviderInfo t1 (hostB ++ str ":" ++ lsi_port lsi) false).
    subst rA1. cbn [add_found serviceCache]. rewrite cached_at_insert, decide_True by done.
    rewrite lookup_insert_eq. subst raddrB. rewrite host_of_plain by done. split; [done|]. split; [|split].
    + unfold is_fresh. simpl. by apply bool_decide_spec.
    + by apply selects_glob.
    + done.
Qed.

(** A provider is found, and a query for every service of the publisher answers it. *)
Definition demo_events : list (Z * event) :=
  [(5%Z, EvCmd (registerServiceInLAN (str "org") (str "echo") (str "4000")) true);
   (6%Z, EvPacket (foundInLAN (str "org_time") (str "id1") (str "4001")) (str "10.0.0.7:9923"));
   (7%Z, EvDelay (str "org_*") 0)].

Lemma lan_registry_answers_witness :
  ∃ r effs r' infos, lan_run demo_events (start_lan (str "me") 0 None) = Return (r, effs) ∧
    lan_step 8 (EvDelay (str "*_time") 1) r = Return (r', [Answer 1 infos]) ∧
    mkServiceInfo (str "org") (str "time") (str "id1") (str "10.0.0.7:4001") ∈ infos.
Proof.
  destruct (lan_registry_answers (str "me") 0 None demo_events 8 (str "*_time") 1)
    as (r & effs & r' & infos & Hrun & _ & Hstep & _ & Hel).
  - repeat constructor; vm_compute; congruence.
  - vm_compute. congruence.
  - repeat constructor. exists (str "org"), (str "time"). reflexivity.
  - exists r, effs, r', infos. split; [exact Hrun|]. split; [exact Hstep|]. apply Hel.
    exists (str "org_time"), (str "id1"), (mkProviderInfo 6 (str "10.0.0.7:4001") false).
    split; [vm_compute; reflexivity|]. split; [vm_compute; exact I|].
    split; [apply WildcardMatch_glob; vm_compute; exact I|].
    split; [vm_compute; reflexivity|]. split; [by_decide|]. split; [by_decide|]. by split.
Defined.

Lemma lan_discovery_witness :
  let rB := mkLAN (str "nodeB") {[str "org_echo" := mkLocal 0 (str "4000")]} ∅ in
  let rA := mkLAN (str "nodeA") ∅ ∅ in
  ∃ rA1 rA2 infos,
    lan_step 2 (EvPacket (foundInLAN (str "org_echo") (str "nodeB") (str "4000")) (str "10.0.0.9:9923")) rA =
      Return (rA1, []) ∧
    lan_step 3 (EvDelay (str "org_*") 7) rA1 = Return (rA2, [Answer 7 infos]) ∧
    mkServiceInfo (str "org") (str "echo") (str "nodeB") (str "10.0.0.9:4000") ∈ infos.
Proof.
  intros rB rA.
  destruct (lan_discovery rA rB (str "org") (str "echo") (mkLocal 0 (str "4000")) (str "org_*")
    (str "10.0.0.1:9923") (str "10.0.0.9") (str "9923") 1 2 3 7)
    as (effs & rA1 & rA2 & infos & _ & _ & H1 & H2 & H3).
  - by_decide.
  - by_decide.
  - vm_compute. reflexivity.
  - apply WildcardMatch_glob. vm_compute. exact I.
  - intros n table Hn. subst rA. simpl in Hn. by rewrite lookup_empty in Hn.
  - by_decide.
  - by_decide.
  - vm_compute. congruence.
  - exists rA1, rA2, infos. split; [exact H1|]. split; [exact H2|exact H3].
Defined.

(** ** Restart *)

Definition word_service (e : bytes * localSvcInfo) : Prop := word e.1 ∧ word (lsi_port e.2).

Lemma Fscanln_local_line e rest :
  word_service e → Fscanln 2 (local_line e ++ rest) = Some ([e.1; lsi_port e.2], rest).
Proof.
  intros (Hn & Hp). unfold Fscanln, local_line. change (str " ") with [" "%char].
  rewrite <- !app_assoc. cbn [app scan_words]. rewrite scan_word_cons by done. cbn [mbind option_bind].
  rewrite scan_word_blank, scan_word_app; [done|done|by intros c s' [= <- _]|done].
Qed.

Lemma load_local_lines now l fuel table :
  Forall word_service l → length l < fuel →
  load_local fuel now (concat (local_line <$> l)) table =
  foldl (λ t e, <[e.1 := mkLocal now (lsi_port e.2)]> t) table l.
Proof.
  intros Hw. revert fuel table; induction Hw as [|e l He _ IH]; intros [|fuel] table Hf;
    [simpl in Hf; lia|done|simpl in Hf; lia|].
  change (concat (local_line <$> e :: l)) with (local_line e ++ concat (local_line <$> l)).
  cbn [load_local foldl]. rewrite Fscanln_local_line by done. apply IH. simpl in Hf. lia.
Qed.

Lemma length_local_lines l : length l ≤ length (concat (local_line <$> l)).
Proof.
  induction l as [|e l IH]; [done|].
  change (concat (local_line <$> e :: l)) with (local_line e ++ concat (local_line <$> l)).
  assert (1 ≤ length (local_line e)) by (unfold local_line; rewrite !length_app; simpl; lia).
  rewrite length_app. simpl. lia.
Qed.

Lemma foldl_insert_lookup (f : bytes * localSvcInfo → localSvcInfo) l table n :
  NoDup l.*1 →
  foldl (λ (t : gmap bytes localSvcInfo) e, <[e.1 := f e]> t) table l !! n =
  match local_map l !! n with Some x => Some (f (n, x)) | None => table !! n end.
Proof.
  revert table; induction l as [|[n' x] l IH]; intros table Hnd; [done|].
  apply NoDup_cons in Hnd as [Hn Hnd]. simpl in Hn.
  change (local_map ((n', x) :: l)) with (<[n' := x]> (local_map l)). cbn [foldl fst]. rewrite IH by done.
  destruct (decide (n = n')) as [->|Hne].
  - by rewrite (not_elem_of_list_to_map_1 l n'), !lookup_insert_eq by done.
  - by rewrite !lookup_insert_ne by done.
Qed.

(** A record that is read gives back the services it was written for. *)
Lemma record_read `{GoRange} own now table : map_Forall (λ n lsi, word n ∧ word (lsi_port lsi)) table →
  localServiceTable (start_lan own now (Some (local_record table))) = (λ lsi, mkLocal now (lsi_port lsi)) <$> table.
Proof.
  intros Hw. unfold start_lan, local_record. cbn [localServiceTable].
  rewrite load_local_lines.
  - apply map_eq. intros n. rewrite (foldl_insert_lookup (λ e, mkLocal now (lsi_port e.2))) by apply NoDup_fst_range.
    rewrite list_to_map_range, lookup_fmap. by destruct (table !! n).
  - apply Forall_forall. intros [n lsi] Hn%elem_of_range. by apply (Hw n).
  - pose proof (length_local_lines (range (table))). lia.
Qed.

(** Restart: the record written when the registry stops gives the next one
    the same local services with the same ports, seen now, provided that names
    and ports are words. *)
Theorem lan_restart `{GoRange} own r created now :
  map_Forall (λ n lsi, word n ∧ word (lsi_port lsi)) (localServiceTable r) →
  ∃ file, lan_step now (EvDone true) r = Return (r, [WriteRecord file]) ∧
    lan_step now (EvDone created) r = Return (r, if created then [WriteRecord file] else []) ∧
    localServiceTable (start_lan own now (Some file)) =
      (λ lsi, mkLocal now (lsi_port lsi)) <$> localServiceTable r.
Proof.
  intros Hw. eexists. split; [done|]. split; [done|]. by apply record_read.
Qed.

Lemma lan_restart_witness :
  ∃ file, localServiceTable (start_lan (str "me") 9 (Some file)) = {[str "org_echo" := mkLocal 9 (str "4000")]}.
Proof.
  destruct (lan_restart (str "me") (mkLAN (str "me") {[str "org_echo" := mkLocal 0 (str "4000")]} ∅) true 9)
    as (file & _ & _ & Hf).
  - apply map_Forall_singleton. split; by_decide.
  - exists file. rewrite Hf. vm_compute. reflexivity.
Defined.

(** ** Where the loop stops answering *)

Lemma foldOutcome_panics {A S} (f : S → A → outcome S) s l x :
  x ∈ l → (∀ s, ∃ why, f s x = Panics why) → ∃ why, foldOutcome f s l = Panics why.
Proof.
  revert s; induction l as [|y l IH]; intros s Hx Hf; [by apply elem_of_nil in Hx|].
  cbn [foldOutcome]. destruct (f s y) as [s'|why] eqn:Hy; cbn [mbind outcome_bind]; [|eauto].
  apply elem_of_cons in Hx as [->|Hx]; [|by apply IH].
  destruct (Hf s) as [why Hw]. congruence.
Qed.

(** C40. Names in packets are not checked: after a packet whose name does not have
    exactly one underscore, a query with a pattern that matches the name makes the
    loop panic, and the process with it. *)
Theorem malformed_packet_panics `{GoRange} t now query name pID port raddr why r ch :
  fromPublisherServiceName name = Panics why → Contains query (str "*") = true →
  WildcardMatch query name = true →
  ∃ r', lan_step t (EvPacket (foundInLAN name pID port) raddr) r = Return (r', []) ∧
    ∃ why', lan_step now (EvDelay query ch) r' = Panics why'.
Proof.
  intros Hn Hs Hm. eexists. split; [done|]. cbn [lan_step]. unfold getServiceInfos. rewrite Hs.
  set (r' := add_found t name pID port raddr r).
  assert (∃ table, (name, table) ∈ range (serviceCache r')) as [table Hin].
  { eexists. apply elem_of_range. unfold r'. cbn [add_found serviceCache]. by rewrite lookup_insert_eq. }
  destruct (foldOutcome_panics (walk_cached now query) (serviceCache r', []) _ _ Hin) as [why' Hp].
  - intros [cache infos]. exists why. unfold walk_cached, walkLAN. by rewrite Hm, Hn.
  - exists why'. by rewrite Hp.
Qed.

Lemma malformed_packet_panics_witness :
  ∃ r', lan_step 1 (EvPacket (foundInLAN (str "a_b_c") (str "id") (str "1")) (str "10.0.0.7:9923"))
          (start_lan (str "me") 0 None) = Return (r', []) ∧
    ∃ why, lan_step 2 (EvDelay (toPublisherServiceName (str "*") (str "*")) 0) r' = Panics why.
Proof.
  apply (malformed_packet_panics 1 2 _ (str "a_b_c") (str "id") (str "1") (str "10.0.0.7:9923")
    (str "Bad PublisherServiceName")); vm_compute; reflexivity.
Defined.

(** The events the loop can see: a delayed query is one whose timer was started. *)
Inductive scheduled : list (bytes * nat) → list (Z * event) → Prop :=
| scheduled_end timers : scheduled timers []
| scheduled_delay timers now name ch events :
    (name, ch) ∈ timers → scheduled timers events → scheduled timers ((now, EvDelay name ch) :: events)
| scheduled_query timers now name ch events :
    scheduled ((name, ch) :: timers) events →
    scheduled timers ((now, EvCmd (cmdLANQuery name ch) true) :: events)
| scheduled_other timers now e events :
    (∀ name ch, e ≠ EvDelay name ch) → scheduled timers events → scheduled timers ((now, e) :: events).

Lemma unanswered `{GoRange} timers events r r' effs ch :
  scheduled timers events → lan_run events r = Return (r', effs) →
  (∀ name, (name, ch) ∉ timers) → (∀ now name, (now, EvCmd (cmdLANQuery name ch) true) ∉ events) →
  ∀ infos, Answer ch infos ∉ concat effs.
Proof.
  intros Hs. revert r effs; induction Hs as [timers|timers now name ch' events Hin Hs IH|timers now name ch' events Hs IH
    |timers now e events He Hs IH]; intros r effs Hrun Ht Hq infos; cbn [lan_run] in Hrun.
  - injection Hrun as <- <-. by intros ?%elem_of_nil.
  - cbn [lan_step] in Hrun. destruct (getServiceInfos _ _ _) as [[cache sis]|]; [|done]. simpl in Hrun.
    destruct (lan_run events _) as [[r1 effs1]|] eqn:E; [|done]. injection Hrun as <- <-.
    cbn [concat app]. intros [Ha|Ha]%elem_of_cons; [injection Ha as <- <-; by eapply Ht|].
    eapply (IH _ effs1); eauto. intros now' name' Hx. eapply Hq. by right.
  - simpl in Hrun. destruct (lan_run events r) as [[r1 effs1]|] eqn:E; [|done]. injection Hrun as <- <-.
    assert (ch' ≠ ch) as Hne by (intros ->; eapply Hq; by left).
    cbn [concat app]. rewrite !elem_of_cons. intros [?|[?|Ha]]; [done|done|]. revert Ha.
    eapply (IH r); eauto.
    + intros name'. rewrite elem_of_cons. intros [[= _ ->]|?]; [done|by eapply Ht].
    + intros now' name' Hx. eapply Hq. by right.
  - destruct (lan_step now e r) as [[r1 eff]|] eqn:Hstep; [|done]. simpl in Hrun.
    destruct (lan_run events r1) as [[r2 effs1]|] eqn:E; [|done]. injection Hrun as <- <-.
    cbn [concat]. intros [Ha|Ha]%elem_of_app.
    + destruct e as [[n port|n|n c] [] |n c|dial|[n|n p port|] raddr|created];
        try (by destruct (He n c)); simplify_eq/=; try (by apply elem_of_nil in Ha).
      * rewrite !elem_of_cons in Ha. by destruct Ha as [?|[?|?%elem_of_nil]].
      * apply elem_of_found_replies in Ha as (? & ? & _ & _ & ?). done.
      * destruct created; [apply list_elem_of_singleton in Ha|apply elem_of_nil in Ha]; done.
    + revert Ha. eapply (IH r1); eauto. intros now' name' Hx. eapply Hq. by right.
Qed.

(** A query whose broadcast fails is never answered: whatever happens
    afterwards, its caller, which waits for the answer without a timeout, gets
    none. *)
Theorem failed_broadcast_never_answered `{GoRange} now name ch events r r' effs infos :
  scheduled [] ((now, EvCmd (cmdLANQuery name ch) false) :: events) →
  (∀ now' name', (now', EvCmd (cmdLANQuery name' ch) true) ∉ events) →
  lan_run ((now, EvCmd (cmdLANQuery name ch) false) :: events) r = Return (r', effs) →
  Answer ch infos ∉ concat effs.
Proof.
  intros Hs Hq Hrun. eapply unanswered; [exact Hs|exact Hrun|by intros ? ?%elem_of_nil|].
  intros now' name'. rewrite elem_of_cons. intros [?|?]; [done|by eapply Hq].
Qed.

(** Another query in the meantime is answered. *)
Definition failed_query : list (Z * event) :=
  [(1%Z, EvCmd (cmdLANQuery (str "org_time") 3) false);
   (2%Z, EvCmd (cmdLANQuery (str "org_echo") 4) true); (3%Z, EvDelay (str "org_echo") 4)].

Lemma failed_broadcast_never_answered_witness :
  ∃ r' effs, lan_run failed_query (start_lan (str "me") 0 None) = Return (r', effs) ∧
    Answer 4 [] ∈ concat effs ∧ ∀ infos, Answer 3 infos ∉ concat effs.
Proof.
  eexists _, _. split; [vm_compute; reflexivity|]. split; [right; right; left|]. intros infos.
  eapply (failed_broadcast_never_answered 1 (str "org_time") 3 (tail failed_query) (start_lan (str "me") 0 None)).
  - apply scheduled_other; [done|]. apply scheduled_query, scheduled_delay; [left|]. apply scheduled_end.
  - intros now name. unfold failed_query. cbn [tail]. rewrite !elem_of_cons.
    intros [?|[?|?%elem_of_nil]]; done.
  - vm_compute. reflexivity.
Defined.

(** ** The cache of queries *)

(** However many names are queried, one after the other, the cache of queries
    never has more than 1001 entries; and an answer is reused exactly while it is
    less than fifteen seconds old and the cache has not overflowed. *)
Theorem query_cache_bounded now now' publisher service si cache :
  size cache ≤ 1001 →
  let '(cache1, answer) := cached_answer now publisher service cache in
  size cache1 ≤ 1001 ∧ size (keep_answer now' publisher service si cache1) ≤ 1001 ∧
  (answer = Some si ↔ size cache ≤ 1000 ∧
    ∃ t, cache !! toPublisherServiceName publisher service = Some (t, si) ∧ (now - t < 15 * 10 ^ 9)%Z).
Proof.
  intros Hsz. unfold cached_answer, keep_answer. set (name := toPublisherServiceName publisher service).
  assert (∀ c : infoCache, size c ≤ 1000 → size (<[name := (now', si)]> c) ≤ 1001) as Hins.
  { intros c Hc. rewrite map_size_insert. destruct (c !! name); simpl; lia. }
  destruct (bool_decide_reflect (1000 < size cache)) as [Hbig|Hsmall].
  - split; [rewrite map_size_empty; lia|]. split; [apply Hins; rewrite map_size_empty; lia|].
    rewrite lookup_empty. split; [done|]. intros [? _]. lia.
  - split; [lia|]. split; [apply Hins; lia|]. destruct (cache !! name) as [[t si']|] eqn:Hc.
    + destruct (bool_decide_reflect (now - t < 15 * 10 ^ 9)%Z) as [Hy|Hy]; split.
      * intros [= ->]. split; [lia|]. by exists t.
      * intros [_ (t' & ? & _)]. by simplify_eq.
      * done.
      * intros [_ (t' & ? & ?)]. by simplify_eq.
    + split; [done|]. intros [_ (t' & ? & _)]. done.
Qed.

Lemma query_cache_bounded_witness :
  (cached_answer (20 * 10 ^ 9) (str "org") (str "echo") {[str "org_echo" := (6 * 10 ^ 9, [])%Z]}).2 = Some [].
Proof.
  pose proof (query_cache_bounded (20 * 10 ^ 9) 0 (str "org") (str "echo") []
    {[str "org_echo" := (6 * 10 ^ 9, [])%Z]}) as H.
  destruct (cached_answer _ _ _ _) as [c a] eqn:E. destruct H as (_ & _ & H); [rewrite map_size_singleton; lia|].
  apply H. split; [rewrite map_size_singleton; lia|]. exists (6 * 10 ^ 9)%Z.
  split; [by rewrite lookup_singleton_eq|lia].
Defined.

(** ** The broadcast address *)

(** [newIP] and [broadcastAddr], on the bytes of the address and the mask *)
Definition newIP (size : nat) : outcome (list Z) :=
  if bool_decide (size = 4 ∨ size = 16) then Return (replicate size 0%Z) else Panics (str "Bad value for size").

Definition broadcastAddr (ip mask : list Z) : outcome (list Z) :=
  broadcast ← newIP (length ip);
  Return (zip_with (λ i m, Z.lor i (Z.land (Z.lnot m) 255)) (take (length broadcast) ip) mask).

(** The address as a number, the first byte the most significant *)
Definition address (ip : list Z) : Z := foldl (λ n b, n * 256 + b)%Z 0%Z ip.
Definition is_bytes (l : list Z) : Prop := Forall (λ b, 0 ≤ b < 256)%Z l.
Definition in_network (ip mask a : list Z) : Prop := zip_with Z.land a mask = zip_with Z.land ip mask.

Lemma lor_lnot_le i m a :
  (0 ≤ i < 256)%Z → (0 ≤ m < 256)%Z → (0 ≤ a < 256)%Z → Z.land a m = Z.land i m →
  (a ≤ Z.lor i (Z.land (Z.lnot m) 255) < 256)%Z ∧ Z.land (Z.lor i (Z.land (Z.lnot m) 255)) m = Z.land i m.
Proof.
  intros Hi Hm Ha Heq.
  assert (∀ x k, 0 ≤ x < 256 → 8 ≤ k → Z.testbit x k = false)%Z as Hhigh.
  { intros x k Hx Hk. rewrite <- (Z.mod_small x (2 ^ 8)) by lia. by rewrite Z.mod_pow2_bits_high by lia. }
  assert (0 ≤ Z.lor i (Z.land (Z.lnot m) 255))%Z as Hpos
    by (apply Z.lor_nonneg; split; [lia|]; apply Z.land_nonneg; right; lia).
  split; [split|].
  - apply Z.ldiff_le; [done|]. apply Z.bits_inj'. intros k Hk. rewrite Z.bits_0.
    rewrite Z.ldiff_spec, Z.lor_spec, Z.land_spec, Z.lnot_spec by done.
    apply (f_equal (λ z, Z.testbit z k)) in Heq. rewrite !Z.land_spec in Heq.
    destruct (Z.ltb_spec k 8).
    + change 255%Z with (Z.ones 8). rewrite Z.ones_spec_low by lia.
      by destruct (Z.testbit a k), (Z.testbit i k), (Z.testbit m k).
    + by rewrite (Hhigh a k).
  - assert (Z.lor i (Z.land (Z.lnot m) 255) ≤ 255)%Z; [|lia]. apply Z.ldiff_le; [done|].
    apply Z.bits_inj'. intros k Hk. rewrite Z.bits_0.
    rewrite Z.ldiff_spec, Z.lor_spec, Z.land_spec by done. change 255%Z with (Z.ones 8).
    destruct (Z.ltb_spec k 8).
    + rewrite Z.ones_spec_low by lia. by rewrite andb_false_r.
    + rewrite Z.ones_spec_high, andb_false_r by lia. by rewrite (Hhigh i k).
  - apply Z.bits_inj'. intros k Hk. rewrite !Z.land_spec, Z.lor_spec, Z.land_spec, Z.lnot_spec by done.
    by destruct (Z.testbit i k), (Z.testbit m k), (Z.testbit 255 k).
Qed.

Lemma zip_broadcast ip mask a :
  is_bytes ip → is_bytes mask → is_bytes a → length mask = length ip → length a = length ip →
  in_network ip mask a →
  let b := zip_with (λ i m, Z.lor i (Z.land (Z.lnot m) 255)) ip mask in
  is_bytes b ∧ in_network ip mask b ∧ Forall2 Z.le a b.
Proof.
  unfold in_network. revert mask a; induction ip as [|i ip IH]; intros [|m mask] [|x a] Hi Hm Ha Hl1 Hl2 Hn; try done.
  apply Forall_cons in Hi as [Hi1 Hi], Hm as [Hm1 Hm], Ha as [Ha1 Ha]. simpl in *. injection Hn as Hn1 Hn.
  destruct (lor_lnot_le i m x Hi1 Hm1 Ha1 Hn1) as [Hle Hnet].
  destruct (IH mask a) as (IH1 & IH2 & IH3); [done..|lia|lia|done|]. split; [|split].
  - constructor; [|done]. lia.
  - by rewrite Hnet, IH2.
  - constructor; [lia|done].
Qed.

Lemma address_le a b n k : (n ≤ k)%Z → Forall2 Z.le a b → (foldl (λ n b, n * 256 + b) n a ≤ foldl (λ n b, n * 256 + b) k b)%Z.
Proof. intros Hn Hab. revert n k Hn; induction Hab as [|x y a b Hxy _ IH]; intros n k Hn; [done|]. apply IH. lia. Qed.

(** [broadcastAddr] is the last address of the network: it is in the network,
    and no address of the network is above it. *)
Theorem broadcast_is_last ip mask :
  is_bytes ip → is_bytes mask → length mask = length ip → length ip = 4 ∨ length ip = 16 →
  ∃ b, broadcastAddr ip mask = Return b ∧ is_bytes b ∧ in_network ip mask b ∧
    ∀ a, is_bytes a → length a = length ip → in_network ip mask a → (address a ≤ address b)%Z.
Proof.
  intros Hi Hm Hl Hsize. unfold broadcastAddr, newIP. rewrite bool_decide_eq_true_2 by done.
  eexists. split; [done|]. rewrite length_replicate, firstn_all.
  destruct (zip_broadcast ip mask ip) as (Hb & Hn & _); [done..|]. split; [done|]. split; [done|].
  intros a Ha Hla Hna. apply address_le; [done|]. by apply zip_broadcast.
Qed.

Lemma broadcast_is_last_witness :
  ∃ b, broadcastAddr [192; 168; 1; 77]%Z [255; 255; 240; 0]%Z = Return b ∧ b = [192; 168; 15; 255]%Z ∧
    in_network [192; 168; 1; 77]%Z [255; 255; 240; 0]%Z b.
Proof.
  destruct (broadcast_is_last [192; 168; 1; 77]%Z [255; 255; 240; 0]%Z) as (b & Hb & _ & Hn & _).
  - repeat constructor; lia.
  - repeat constructor; lia.
  - reflexivity.
  - by left.
  - exists b. split; [exact Hb|]. split; [vm_compute in Hb; congruence|exact Hn].
Defined.
