(* ===== verification/LANLife.v ===== *)
(** The goroutines of the LAN registry (registry.go): what [newLANRegistry] opens,
    [broadcast], [readConn], and how [run] and [readConn] end when [close] closes the
    channel done and then sets the field to nil under them.  What [run] does in a
    round is LANRegistry. *)
From S2P Require Import Prelude Names LANRegistry.

(** ** Opening *)

(** An address of an interface that has an IPv4 form, with its mask *)
Record ifaceAddr := mkIface { if_ip : list Z; if_mask : list Z }.
Record infoLAN := mkInfoLAN { il_ip : list Z; il_net : list Z; il_bcast : list Z }.

Definition IsLoopback (ip : list Z) : bool := bool_decide (head ip = Some 127%Z).

(** [net.ParseCIDR]: the network of an address *)
Definition network_of (a : ifaceAddr) : list Z := zip_with Z.land (if_ip a) (if_mask a).

(** The loop of [newLANRegistry]; an address without an IPv4 form is [None] *)
Definition infoLANs (addrs : list (option ifaceAddr)) : outcome (list infoLAN) :=
  mapOutcome (λ a, b ← broadcastAddr (network_of a) (if_mask a); Return (mkInfoLAN (if_ip a) (network_of a) b))
    (filter (λ a, negb (IsLoopback (if_ip a))) (omap id addrs)).

(** [registryLAN.broadcast]: the addresses written to, until a write fails *)
Fixpoint broadcast (write : list Z → option error) (lans : list infoLAN) : list (list Z) * option error :=
  match lans with
  | [] => ([], None)
  | lan :: lans =>
      match write (il_bcast lan) with
      | Some e => ([il_bcast lan], Some e)
      | None => let '(l, e) := broadcast write lans in (il_bcast lan :: l, e)
      end
  end.

(** ** Reading *)

(** The size of the buffer of [readConn] *)
Definition bufSize : nat := 512.

(** The encoding of the packets, a third-party package's ([gotiny.Marshal] and
    [gotiny.Unmarshal]): what it makes of other bytes is not known, and it may panic *)
Class PacketCodec := {
  Marshal : packet → bytes;
  Unmarshal : bytes → outcome packet;
  Unmarshal_Marshal msg : msg ≠ unknownPacket → Unmarshal (Marshal msg) = Return msg;
}.

(** What [readConn] makes of a datagram: the bytes that do not fit in the buffer are
    lost *)
Definition read_packet `{PacketCodec} (datagram : bytes) : outcome packet :=
  Unmarshal (take bufSize datagram).

Definition fits (datagram : bytes) : Prop := length datagram ≤ bufSize.

Lemma read_whole `{PacketCodec} msg : msg ≠ unknownPacket → fits (Marshal msg) → read_packet (Marshal msg) = Return msg.
Proof. intros Hm Hf. unfold read_packet. rewrite take_ge by exact Hf. by apply Unmarshal_Marshal. Qed.

(** ** Stopping *)

(** [run]: before its select, in it (the channel [r.done] it evaluated was there),
    in it with nil in the place of [r.done], in a round, returned with the record
    written *)
Inductive run_place := Entering | Waiting | Deaf | InRound | Ended.
(** The field [r.done]: open, closed, nil *)
Inductive done_state := Open | Closed | Nil.
(** [readConn]: testing [r.done], in ReadFrom, sending on [packetChan], returned *)
Inductive reader_place := Testing | Reading | Sending | ReaderEnded.
#[export] Instance run_place_eq_dec : EqDecision run_place.
Proof. solve_decision. Defined.
#[export] Instance done_state_eq_dec : EqDecision done_state.
Proof. solve_decision. Defined.

Record life := mkLife { run_at : run_place; done_at : done_state; reader_at : reader_place; socketClosed : bool }.

Definition newLife : life := mkLife Entering Open Testing false.

Inductive op :=
| Enter          (* run evaluates its select *)
| Wake           (* a command, a delayed query or the ticker *)
| WakePacket     (* a packet from readConn *)
| RoundEnds
| EndRun         (* case <-r.done *)
| Test           (* if r.done == nil *)
| ReadPacket     (* a datagram is read *)
| ReadTimeout
| ReadClosed     (* use of closed network connection *)
| CloseSocket    (* packetConn.Close, the closer before registryLAN.close *)
| CloseDone      (* close(r.done) *)
| NilDone.       (* r.done = nil *)

Definition exec (o : op) (s : life) : option life :=
  match o, s with
  | Enter, mkLife Entering d r c => Some (mkLife (if bool_decide (d = Nil) then Deaf else Waiting) d r c)
  | Wake, mkLife (Waiting | Deaf) d r c => Some (mkLife InRound d r c)
  | WakePacket, mkLife (Waiting | Deaf) d Sending c => Some (mkLife InRound d Testing c)
  | RoundEnds, mkLife InRound d r c => Some (mkLife Entering d r c)
  | EndRun, mkLife Waiting Closed r c => Some (mkLife Ended Closed r c)
  | EndRun, mkLife Waiting Nil r c => Some (mkLife Ended Nil r c)
  | Test, mkLife p d Testing c => Some (mkLife p d (if bool_decide (d = Nil) then ReaderEnded else Reading) c)
  | ReadPacket, mkLife p d Reading false => Some (mkLife p d Sending false)
  | ReadTimeout, mkLife p d Reading false => Some (mkLife p d Testing false)
  | ReadClosed, mkLife p d Reading true => Some (mkLife p d ReaderEnded true)
  | CloseSocket, mkLife p d r false => Some (mkLife p d r true)
  | CloseDone, mkLife p Open r true => Some (mkLife p Closed r true)
  | NilDone, mkLife p Closed r true => Some (mkLife p Nil r true)
  | _, _ => None
  end.

Definition step (s s' : life) : Prop := ∃ o, exec o s = Some s'.

(** ** Lemmas *)

Lemma broadcast_spec write lans : let '(l, e) := broadcast write lans in
  match e with
  | None => l = il_bcast <$> lans ∧ Forall (λ a, write a = None) l
  | Some e => ∃ l' a rest, l = l' ++ [a] ∧ il_bcast <$> lans = l' ++ a :: rest ∧ Forall (λ a, write a = None) l' ∧ write a = Some e
  end.
Proof.
  induction lans as [|lan lans IH]; simpl; [done|]. destruct (write (il_bcast lan)) as [e|] eqn:Hw.
  { by exists [], (il_bcast lan), (il_bcast <$> lans). }
  destruct (broadcast write lans) as [l [e|]].
  - destruct IH as (l' & a & rest & -> & Ha & Hl & He). exists (il_bcast lan :: l'), a, rest. split; [done|].
    split; [change (il_bcast lan :: (il_bcast <$> lans) = il_bcast lan :: l' ++ a :: rest); by rewrite Ha|].
    split; [by constructor|done].
  - destruct IH as [-> Hl]. split; [done|]. by constructor.
Qed.

Definition well_formed (a : ifaceAddr) : Prop :=
  is_bytes (if_ip a) ∧ is_bytes (if_mask a) ∧ length (if_ip a) = 4 ∧ length (if_mask a) = 4.

Lemma land_byte a b : (0 ≤ a < 256)%Z → (0 ≤ b < 256)%Z → (0 ≤ Z.land a b < 256)%Z.
Proof.
  intros Ha Hb. enough (0 ≤ Z.land a b ≤ a)%Z by lia. apply Z.ldiff_le; [lia|]. apply Z.bits_inj'. intros k Hk.
  rewrite Z.bits_0, Z.ldiff_spec, Z.land_spec by done. by destruct (Z.testbit a k), (Z.testbit b k).
Qed.

Lemma network_bytes l k : is_bytes l → is_bytes k → is_bytes (zip_with Z.land l k).
Proof.
  intros Hl. revert k. induction Hl as [|x l Hx _ IH]; intros [|y k] Hk; simpl; try constructor;
    apply Forall_cons in Hk as [Hy Hk]; [by apply land_byte|by apply IH].
Qed.

Lemma network_again l k : zip_with Z.land (zip_with Z.land l k) k = zip_with Z.land l k.
Proof.
  revert k. induction l as [|x l IH]; intros [|y k]; simpl; try done. by rewrite IH, <- Z.land_assoc, Z.land_diag.
Qed.

(** Every IPv4 address but those of the loopback gets the broadcast address of its
    network, which is the last one there. *)
Lemma infoLANs_spec addrs : Forall (λ a, match a with Some a => well_formed a | None => True end) addrs →
  ∃ l, infoLANs addrs = Return l ∧
    Forall2 (λ a lan, il_ip lan = if_ip a ∧ in_network (if_ip a) (if_mask a) (il_bcast lan) ∧
       ∀ x, is_bytes x → length x = 4 → in_network (if_ip a) (if_mask a) x → (address x ≤ address (il_bcast lan))%Z)
      (filter (λ a, negb (IsLoopback (if_ip a))) (omap id addrs)) l.
Proof.
  intros Hall. unfold infoLANs.
  assert (Forall well_formed (filter (λ a, negb (IsLoopback (if_ip a))) (omap id addrs))) as Hf.
  { apply Forall_forall. intros a [_ Ha]%list_elem_of_filter. apply list_elem_of_omap in Ha as (x & Hx & Heq).
    unfold id in Heq. subst x. exact (proj1 (Forall_forall _ _) Hall (Some a) Hx). }
  induction Hf as [|a l (H1 & H2 & H3 & H4) _ IH]; [by exists []|]. destruct IH as (lans & Hl & Hlans). simpl.
  destruct (broadcast_is_last (network_of a) (if_mask a)) as (b & Hb & _ & Hn & Hlast).
  - by apply network_bytes.
  - done.
  - unfold network_of. rewrite length_zip_with. lia.
  - left. unfold network_of. rewrite length_zip_with. lia.
  - rewrite Hb. simpl. rewrite Hl. simpl. eexists. split; [done|]. constructor; [|done]. simpl. split; [done|].
    unfold in_network, network_of in *. rewrite network_again in Hn. split; [done|]. intros x Hx Hlx Hnx. apply Hlast; [done|..].
    + rewrite length_zip_with. lia.
    + by rewrite network_again.
Qed.

(** ** Stopping *)

Definition stops (s : life) : Prop := run_at s = Waiting ∨ run_at s = Ended.

Lemma lan_deaf_step s s' : done_at s = Nil ∧ ¬ stops s → step s s' → done_at s' = Nil ∧ ¬ stops s'.
Proof.
  intros [Hd Hs] [o Ho]. destruct s as [p d r c]; simpl in *. subst d. unfold stops in *.
  destruct o, p, r, c; simpl in *; try done; injection Ho as <-; simpl; split; naive_solver.
Qed.

Lemma ended_step s s' : run_at s = Ended ∧ reader_at s = Sending → step s s' → run_at s' = Ended ∧ reader_at s' = Sending.
Proof.
  intros [Hp Hr] [o Ho]. destruct s as [p d r c]; simpl in *. subst. by destruct o, d, c; simpl in *; simplify_eq.
Qed.

(** Once [close] has returned, [run] can still end, and write the record of the
    local services, exactly if it was in its select, and not in a round, when the
    field was set to nil; and once it has ended, a [readConn] that has read a packet
    waits for ever to hand it over. *)
Theorem lan_stops_iff s : done_at s = Nil →
  ((∃ s', rtc step s s' ∧ run_at s' = Ended) ↔ stops s) ∧
  (run_at s = Ended → reader_at s = Sending → ∀ s', rtc step s s' → reader_at s' = Sending).
Proof.
  intros Hd. split; [split|].
  - intros (s' & Hrun & He). destruct (decide (run_at s = Waiting)) as [|Hw]; [by left|].
    destruct (decide (run_at s = Ended)) as [|Hn]; [by right|]. exfalso.
    enough (done_at s' = Nil ∧ ¬ stops s') as [_ []] by (by right). revert Hrun.
    apply (rtc_invariant step (λ s, done_at s = Nil ∧ ¬ stops s)); [apply lan_deaf_step|]. split; [done|]. by intros [].
  - intros [Hw|He]; [|exists s; by split; [apply rtc_refl|]]. destruct s as [p d r c]; simpl in *. subst.
    eexists. split; [eapply rtc_l; [by exists EndRun|apply rtc_refl]|done].
  - intros He Hr s' Hrun. enough (run_at s' = Ended ∧ reader_at s' = Sending) by tauto. revert Hrun.
    by apply (rtc_invariant step (λ s, run_at s = Ended ∧ reader_at s = Sending)); [apply ended_step|].
Qed.

(** Closed while the ticker's round runs: [run] goes on for ever. *)
Definition run_ops (l : list op) (s : life) : life := foldl (λ s o, default s (exec o s)) s l.
Lemma lan_stops_iff_witness :
  let s := run_ops [Enter; Test; Wake; CloseSocket; CloseDone; NilDone; RoundEnds; Enter; ReadClosed] newLife in
  s = mkLife Deaf Nil ReaderEnded true ∧ ¬ (∃ s', rtc step s s' ∧ run_at s' = Ended).
Proof.
  pose proof (lan_stops_iff (run_ops [Enter; Test; Wake; CloseSocket; CloseDone; NilDone; RoundEnds; Enter; ReadClosed] newLife)
    eq_refl) as [H _].
  intros s. split; [vm_compute; reflexivity|]. intros Hs. apply (proj1 H) in Hs as [Hs|Hs]; vm_compute in Hs; discriminate.
Defined.
