(* ===== verification/Lookup.v ===== *)
(** Looking services up within a node (registry.go): the table of channel
    transports of the process, the abstract sockets listed in "/proc/net/unix",
    the socket files under the registry directory; and the lister service that
    collects what every scope knows (servicelister_svc.go). *)
From S2P Require Import Prelude GoStrings Wildcard Names RootRegistry.

(** ** Services of the process *)

(** The service of a [chanTransport] *)
Record chanTransport := mkChan { ct_publisher : bytes; ct_service : bytes }.

#[export] Instance chanTransport_eq_dec : EqDecision chanTransport.
Proof. solve_decision. Defined.

(** [chanRegistry.table] *)
Abbreviation chanRegistry := (gmap bytes chanTransport).

(** [regServiceChan] *)
Definition regServiceChan (publisherName serviceName : bytes) (ct : chanTransport) (table : chanRegistry) :
    outcome chanRegistry :=
  let name := toPublisherServiceName publisherName serviceName in
  match table !! name with
  | Some _ => Panics (str "registering duplicated channel for " ++ name)
  | None => Return (<[name := ct]> table)
  end.

(** [delServiceChan] *)
Definition delServiceChan (publisherName serviceName : bytes) (table : chanRegistry) : chanRegistry :=
  delete (toPublisherServiceName publisherName serviceName) table.

Section process.
Context `{GoRange}.

(** [serviceNamesInProcess] *)
Definition serviceNamesInProcess (publisherName serviceName : bytes) (table : chanRegistry) : list bytes :=
  let name := toPublisherServiceName publisherName serviceName in
  if Contains name (str "*") then filter (λ ctname, WildcardMatch name ctname) (range table).*1
  else match table !! name with Some _ => [name] | None => [] end.

(** [queryServiceProcess] *)
Definition queryServiceProcess (publisherName serviceName : bytes) (table : chanRegistry) :
    outcome (list ServiceInfo) :=
  mapOutcome (λ name, '(pName, sName) ← fromPublisherServiceName name;
                      Return (mkServiceInfo pName sName (str "self") (str "internal")))
    (serviceNamesInProcess publisherName serviceName table).

(** [Client.lookupServiceChan] *)
Definition lookupServiceChan (publisherName serviceName : bytes) (table : chanRegistry) : list chanTransport :=
  omap (λ name, table !! name) (serviceNamesInProcess publisherName serviceName table).
End process.

(** ** Abstract sockets *)

(** The body of the loop over the lines of "/proc/net/unix": [seen] are the
    names met so far *)
Definition anon_line (tName : bytes) (acc : gset bytes * list bytes) (line : bytes) : gset bytes * list bytes :=
  let '(seen, addrs) := acc in
  let fs := Fields line in
  if bool_decide (length fs = 8) then
    let addr := default [] (fs !! 7) in
    if Contains addr udsRegistryAnon then
      let name := TrimSuffix (TrimPrefix addr udsRegistryAnon) sock in
      if bool_decide (name ∈ seen) then acc
      else ({[name]} ∪ seen, if WildcardMatch tName name then addrs ++ [addr] else addrs)
    else acc
  else acc.

(** [lookupServiceUDSAnon]; [None] when the file cannot be read *)
Definition lookupServiceUDSAnon (publisherName serviceName : bytes) (proc_net_unix : option bytes) : list bytes :=
  let tName := toPublisherServiceName publisherName serviceName in
  match proc_net_unix with
  | None => []
  | Some content => (foldl (anon_line tName) (∅, []) (tail (complete_lines content))).2
  end.

(** ** Socket files *)

(** What [os.Stat] says *)
Inductive stat_result := StatOK | StatNotExist | StatError.

#[export] Instance stat_result_eq_dec : EqDecision stat_result.
Proof. solve_decision. Defined.

(** The registry directory: its entries in order ([None] when it cannot be
    read), the files in each of its directories, and [os.Stat] *)
Record udsDir := mkUdsDir {
  entries : option (list (bytes * bool));     (** name, and whether it is a directory *)
  files_of : bytes → list bytes;
  stat : bytes → stat_result;
}.

(** [filepath.Glob(udsRegistryDir + providerID + "/*.sock")] *)
Definition glob_sockets (d : udsDir) (providerID : bytes) : list bytes :=
  (λ f, udsRegistryDir ++ providerID ++ str "/" ++ f) <$> filter (λ f, HasSuffix f sock) (files_of d providerID).

(** A socket file of a provider, in a search with a pattern *)
Definition uds_socket (tName providerID addr : bytes) : outcome (list ServiceInfo) :=
  let name := TrimSuffix (Base addr) sock in
  if WildcardMatch tName name then
    '(pName, sName) ← fromPublisherServiceName name;
    Return [mkServiceInfo pName sName providerID addr]
  else Return [].

(** The body of the loop over the entries of the registry directory *)
Definition uds_entry (publisherName serviceName : bytes) (providerIDs : list bytes) (d : udsDir)
    (entry : bytes * bool) : outcome (list ServiceInfo) :=
  let tName := toPublisherServiceName publisherName serviceName in
  let '(eName, isDir) := entry in
  if (isDir : bool) then
    if negb (matchProvider providerIDs eName) then Return []
    else if negb (Contains tName (str "*")) then
      let addr := toUDSAddr publisherName serviceName true eName in
      Return (if bool_decide (stat d addr = StatOK)
              then [mkServiceInfo publisherName serviceName eName addr] else [])
    else @concat _ <$> mapOutcome (uds_socket tName eName) (glob_sockets d eName)
  else if HasSuffix eName sock then
    '(pName, sName) ← fromUDSAddr eName;
    Return (if WildcardMatch tName (toPublisherServiceName pName sName)
            then [mkServiceInfo pName sName (str "self") (udsRegistryDir ++ eName)] else [])
  else Return [].

(** [lookupServiceUDSDir]; [self] is the result of [GetSelfProviderID] *)
Definition lookupServiceUDSDir (self : option bytes) (publisherName serviceName : bytes)
    (providerIDs : list bytes) (d : udsDir) : outcome (list ServiceInfo) :=
  match entries d with
  | None | Some [] => Return []
  | Some es =>
      let tName := toPublisherServiceName publisherName serviceName in
      if negb (Contains tName (str "*")) && bool_decide (length providerIDs = 0) then
        let providerID := default (str "NA") self in
        let addr := toUDSAddr publisherName serviceName true providerID in
        if bool_decide (stat d addr = StatNotExist) then Return []
        else Return [mkServiceInfo publisherName serviceName (str "self") addr]
      else @concat _ <$> mapOutcome (uds_entry publisherName serviceName providerIDs d) es
  end.

(** [queryServiceOS] *)
Definition queryServiceOS (self : option bytes) (publisherName serviceName : bytes)
    (proc_net_unix : option bytes) (d : udsDir) : outcome (list ServiceInfo) :=
  anon ← mapOutcome (λ addr, '(pName, sName) ← fromUDSAddr addr;
                             Return (mkServiceInfo pName sName (str "self") addr))
           (lookupServiceUDSAnon publisherName serviceName proc_net_unix);
  dir ← lookupServiceUDSDir self publisherName serviceName [] d;
  Return (anon ++ dir).

(** [Client.lookupServiceLAN] and [Client.lookupServiceWAN], given what the
    registry answers; [None] when it cannot be reached *)
Definition lookupServiceLAN (providerIDs : list bytes) (answer : option (list ServiceInfo)) : list ServiceInfo :=
  filter (λ si, matchProvider providerIDs (ProviderID si)) (default [] answer).
Definition lookupServiceWAN (providerIDs : list bytes) (answer : option (list ServiceInfo)) : list ServiceInfo :=
  filter (λ si, matchProvider providerIDs (ProviderID si)) (default [] answer).

(** ** The lister service *)

(** [ListService.Handle], given what each scope knows *)
Definition ListService_Handle (TargetScope scope : Z) (process os lan wan : outcome (list ServiceInfo)) :
    outcome (list (list ServiceInfo)) :=
  let ask flag q := if has_scope (Z.land TargetScope scope) flag then q else Return [] in
  s0 ← ask ScopeProcess process; s1 ← ask ScopeOS os; s2 ← ask ScopeLAN lan; s3 ← ask ScopeWAN wan;
  Return [s0; s1; s2; s3].

(** [GetObservedIP.Handle] (ipobserver_svc.go): the address seen by the server *)
Definition GetObservedIP_Handle (network remote : bytes) : bytes + error :=
  if bool_decide (network = str "chan") || bool_decide (network = str "unix") then inl (str "127.0.0.1")
  else match SplitHostPort remote with
       | Some (rhost, _) => inl rhost
       | None => inr (errorString (str "address error"))
       end.

(** ** Lemmas *)

Lemma elem_of_serviceNamesInProcess `{GoRange} p s table n :
  n ∈ serviceNamesInProcess p s table ↔ is_Some (table !! n) ∧ glob (toPublisherServiceName p s) n.
Proof.
  rewrite <- selects_glob. unfold serviceNamesInProcess, selects.
  destruct (Contains _ _).
  - rewrite list_elem_of_filter, list_elem_of_fmap. split.
    + intros [Hm ([n' ct] & -> & Hn%elem_of_range)]. split; [by eexists|done].
    + intros [[ct Hct] Hm]. split; [done|]. exists (n, ct). by rewrite elem_of_range.
  - destruct (table !! _) as [ct|] eqn:Hct.
    + rewrite list_elem_of_singleton. split.
      * intros ->. rewrite Hct. split; [by eexists|by apply bool_decide_spec].
      * by intros [_ ?%bool_decide_spec].
    + split; [by intros ?%elem_of_nil|]. intros [[ct Hs] ->%bool_decide_spec]. congruence.
Qed.

Lemma NoDup_serviceNamesInProcess `{GoRange} p s table : NoDup (serviceNamesInProcess p s table).
Proof.
  unfold serviceNamesInProcess. destruct (Contains _ _).
  - apply NoDup_filter, NoDup_fst_range.
  - destruct (table !! _); [apply NoDup_singleton|constructor].
Qed.

(** A transport is found where its service matches. *)
Lemma elem_of_lookupServiceChan `{GoRange} p s table ct :
  ct ∈ lookupServiceChan p s table ↔
  ∃ n, table !! n = Some ct ∧ glob (toPublisherServiceName p s) n.
Proof.
  unfold lookupServiceChan. rewrite list_elem_of_omap.
  setoid_rewrite elem_of_serviceNamesInProcess. split.
  - intros (n & [_ Hg] & Hn). eauto.
  - intros (n & Hn & Hg). exists n. split; [split; [by eexists|done]|done].
Qed.

(** The socket of a line of "/proc/net/unix" *)
Definition anon_entry (line : bytes) : option bytes :=
  let fs := Fields line in
  if bool_decide (length fs = 8) then
    let addr := default [] (fs !! 7) in
    if Contains addr udsRegistryAnon then Some addr else None
  else None.

Definition socket_name (addr : bytes) : bytes := TrimSuffix (TrimPrefix addr udsRegistryAnon) sock.

Lemma anon_line_entry tName seen addrs line :
  anon_line tName (seen, addrs) line =
  match anon_entry line with
  | None => (seen, addrs)
  | Some addr =>
      if bool_decide (socket_name addr ∈ seen) then (seen, addrs)
      else ({[socket_name addr]} ∪ seen,
            if WildcardMatch tName (socket_name addr) then addrs ++ [addr] else addrs)
  end.
Proof.
  unfold anon_line, anon_entry. destruct (bool_decide _); [|done]. by destruct (Contains _ _).
Qed.

(** What the loop has collected from some lines *)
Record anon_ok (tName : bytes) (lines : list bytes) (acc : gset bytes * list bytes) : Prop := mkAnonOk {
  an_seen : ∀ n, n ∈ acc.1 ↔ ∃ line addr, line ∈ lines ∧ anon_entry line = Some addr ∧ socket_name addr = n;
  an_sound : ∀ addr, addr ∈ acc.2 →
    WildcardMatch tName (socket_name addr) ∧ ∃ line, line ∈ lines ∧ anon_entry line = Some addr;
  an_complete : ∀ n, n ∈ acc.1 → WildcardMatch tName n → n ∈ socket_name <$> acc.2;
  an_NoDup : NoDup (socket_name <$> acc.2);
}.

Lemma anon_ok_line tName lines acc line :
  anon_ok tName lines acc → anon_ok tName (lines ++ [line]) (anon_line tName acc line).
Proof.
  intros [H1 H2 H3 H4]. destruct acc as [seen addrs]. rewrite anon_line_entry. simpl in *.
  destruct (anon_entry line) as [addr|] eqn:He.
  2: { split; try done; simpl.
       - intros n. rewrite H1. setoid_rewrite elem_of_app. setoid_rewrite list_elem_of_singleton. naive_solver.
       - intros a Ha. destruct (H2 a Ha) as (? & l & ? & ?). split; [done|]. exists l. set_solver. }
  destruct (bool_decide_reflect (socket_name addr ∈ seen)) as [Hin|Hin]; split; simpl.
  - intros n. rewrite H1. setoid_rewrite elem_of_app. setoid_rewrite list_elem_of_singleton. split.
    + naive_solver.
    + intros (l & a & [?| ->] & ? & Hn); [by eauto|]. simplify_eq. by apply H1.
  - intros a Ha. destruct (H2 a Ha) as (? & l & ? & ?). split; [done|]. exists l. set_solver.
  - done.
  - done.
  - intros n. rewrite elem_of_union, elem_of_singleton, H1. setoid_rewrite elem_of_app.
    setoid_rewrite list_elem_of_singleton. naive_solver.
  - intros a. destruct (WildcardMatch tName (socket_name addr)) eqn:Hm; [rewrite elem_of_app|].
    + intros [Ha| ->%list_elem_of_singleton].
      * destruct (H2 a Ha) as (? & l & ? & ?). split; [done|]. exists l. set_solver.
      * rewrite Hm. split; [done|]. exists line. set_solver.
    + intros Ha. destruct (H2 a Ha) as (? & l & ? & ?). split; [done|]. exists l. set_solver.
  - intros n. rewrite elem_of_union, elem_of_singleton. intros [->|Hn] Hm.
    + destruct (WildcardMatch _ _); [rewrite fmap_app; set_solver|done].
    + specialize (H3 n Hn Hm). destruct (WildcardMatch tName (socket_name addr)); [rewrite fmap_app; set_solver|done].
  - destruct (WildcardMatch tName (socket_name addr)); [|done]. rewrite fmap_app. apply NoDup_app.
    split; [done|]. split; [|apply NoDup_singleton]. intros n Hn Hn'. apply list_elem_of_singleton in Hn' as ->.
    apply Hin, H1. apply list_elem_of_fmap in Hn as (a & Heq & Ha).
    destruct (H2 a Ha) as (_ & l & ? & ?). by exists l, a.
Qed.

Lemma anon_ok_fold tName lines : anon_ok tName lines (foldl (anon_line tName) (∅, []) lines).
Proof.
  induction lines as [|line lines IH] using rev_ind.
  - split; simpl; try set_solver. constructor.
  - rewrite foldl_app. by apply anon_ok_line.
Qed.

(** A socket file under the registry directory, of a provider that is wanted and with
    a name that matches: the own one, which need only not be known to be missing; the
    one of a provider's directory with the very name; one of those there that match a
    pattern; or one in the registry directory itself *)
Inductive named_socket (self : option bytes) (p s : bytes) (providerIDs : list bytes) (d : udsDir) (addr : bytes) : Prop :=
| own_socket :
    providerIDs = [] → Contains (toPublisherServiceName p s) (str "*") = false → stat d addr ≠ StatNotExist →
    addr = toUDSAddr p s true (default (str "NA") self) → named_socket self p s providerIDs d addr
| provider_socket es pID :
    entries d = Some es → (pID, true) ∈ es → matchProvider providerIDs pID → stat d addr = StatOK →
    addr = toUDSAddr p s true pID → named_socket self p s providerIDs d addr
| matching_socket es pID file :
    entries d = Some es → (pID, true) ∈ es → matchProvider providerIDs pID → file ∈ files_of d pID → HasSuffix file sock →
    addr = udsRegistryDir ++ pID ++ str "/" ++ file →
    glob (toPublisherServiceName p s) (TrimSuffix (Base addr) sock) → named_socket self p s providerIDs d addr
| plain_socket es file pName sName :
    entries d = Some es → (file, false) ∈ es → HasSuffix file sock → addr = udsRegistryDir ++ file →
    fromUDSAddr file = Return (pName, sName) →
    glob (toPublisherServiceName p s) (toPublisherServiceName pName sName) → named_socket self p s providerIDs d addr.

Lemma uds_socket_found tName pID addr l si : uds_socket tName pID addr = Return l → si ∈ l →
  Addr si = addr ∧ glob tName (TrimSuffix (Base addr) sock).
Proof.
  unfold uds_socket. rewrite <- WildcardMatch_glob. destruct (WildcardMatch _ _); [|by intros [= <-] ?%elem_of_nil].
  destruct (fromPublisherServiceName _) as [[pName sName]|]; [|done]. by intros [= <-] ->%list_elem_of_singleton.
Qed.

Lemma uds_entry_found self p s providerIDs d es e l si : entries d = Some es → e ∈ es →
  uds_entry p s providerIDs d e = Return l → si ∈ l → named_socket self p s providerIDs d (Addr si).
Proof.
  intros Hes He. destruct e as [eName isDir]. unfold uds_entry. destruct isDir.
  - destruct (matchProvider providerIDs eName) eqn:Hm; simpl; [|by intros [= <-] ?%elem_of_nil].
    apply Is_true_true in Hm. destruct (Contains _ _); simpl.
    + intros Hc Hsi. destruct (mapOutcome _ _) as [ls|] eqn:Hls; [|done]. injection Hc as <-.
      apply list_elem_of_In, in_concat in Hsi as (k & Hk%list_elem_of_In & Hsi%list_elem_of_In).
      destruct (elem_of_mapOutcome _ _ _ _ Hls Hk) as (addr & Ha & Hu). apply list_elem_of_fmap in Ha as (file & Hf & Hin).
      apply list_elem_of_filter in Hin as [Hsuf Hin]. destruct (uds_socket_found _ _ _ _ _ Hu Hsi) as [-> Hg]. by eapply matching_socket.
    + case_bool_decide as Hst; intros [= <-]; [intros ->%list_elem_of_singleton|by intros ?%elem_of_nil].
      by eapply provider_socket.
  - destruct (HasSuffix eName sock) eqn:Hsuf; [|by intros [= <-] ?%elem_of_nil]. apply Is_true_true in Hsuf.
    destruct (fromUDSAddr eName) as [[pName sName]|] eqn:Hfrom; [|done]. simpl. intros [= <-].
    destruct (WildcardMatch _ _) eqn:Hw; [intros ->%list_elem_of_singleton|by intros ?%elem_of_nil].
    apply Is_true_true, WildcardMatch_glob in Hw. by eapply plain_socket.
Qed.

Lemma lookupServiceUDSDir_found self p s providerIDs d infos si :
  lookupServiceUDSDir self p s providerIDs d = Return infos → si ∈ infos → named_socket self p s providerIDs d (Addr si).
Proof.
  unfold lookupServiceUDSDir. destruct (entries d) as [[|e es]|] eqn:Hes; [by intros [= <-] ?%elem_of_nil| |by intros [= <-] ?%elem_of_nil].
  destruct (negb _ && _) eqn:Hb.
  - apply andb_prop in Hb as [Hc%negb_true_iff Hl%bool_decide_eq_true]. case_bool_decide as Hst; intros [= <-]; [by intros ?%elem_of_nil|].
    intros ->%list_elem_of_singleton. apply own_socket; [by apply nil_length_inv|done..].
  - intros Hm Hsi. destruct (mapOutcome _ _) as [ls|] eqn:Hls; [|done]. injection Hm as <-.
    apply list_elem_of_In, in_concat in Hsi as (k & Hk%list_elem_of_In & Hsi%list_elem_of_In). destruct (elem_of_mapOutcome _ _ _ _ Hls Hk) as (e' & He & Hu).
    by eapply uds_entry_found.
Qed.

(** ** Properties *)

(** The abstract sockets found for a pattern are those of the lines of
    "/proc/net/unix" after the first, one per name: every address found is a
    socket of the framework whose name matches, no two of them have the same
    name, and every matching socket is found under its name. *)
Theorem anon_lookup_spec p s content :
  let tName := toPublisherServiceName p s in
  let lines := tail (complete_lines content) in
  let found := lookupServiceUDSAnon p s (Some content) in
  (∀ addr, addr ∈ found → glob tName (socket_name addr) ∧ ∃ line, line ∈ lines ∧ anon_entry line = Some addr) ∧
  NoDup (socket_name <$> found) ∧
  (∀ line addr, line ∈ lines → anon_entry line = Some addr → glob tName (socket_name addr) →
     ∃ addr', addr' ∈ found ∧ socket_name addr' = socket_name addr).
Proof.
  intros tName lines found. destruct (anon_ok_fold tName lines) as [H1 H2 H3 H4].
  split; [|split; [exact H4|]].
  - intros addr Ha. rewrite <- WildcardMatch_glob. by apply H2.
  - intros line addr Hl He Hg. rewrite <- WildcardMatch_glob in Hg.
    assert (socket_name addr ∈ socket_name <$> found) as (a & ? & ?)%list_elem_of_fmap; [|by exists a].
    apply H3; [|done]. apply H1. by exists line, addr.
Qed.

(** A listing with two services, one of them twice *)
Example anon_two :
  lookupServiceUDSAnon (str "org") (str "*") (Some (
    str "Num RefCount Protocol Flags Type St Inode Path" ++ ["010"%char] ++
    str "0000: 00000002 00000000 00010000 0001 01 101 @adaptiveservice/org_echo.sock" ++ ["010"%char] ++
    str "0000: 00000003 00000000 00000000 0001 03 102 @adaptiveservice/org_echo.sock" ++ ["010"%char] ++
    str "0000: 00000002 00000000 00010000 0001 01 103 @adaptiveservice/com_time.sock" ++ ["010"%char])) =
  [str "@adaptiveservice/org_echo.sock"].
Proof. vm_compute. reflexivity. Qed.
