(* ===== verification/Client.v ===== *)
(** The client (client.go, client_options.go, options.go): the settings, and
    [Discover]: what one round of the search tries and connects to in each scope,
    the choice between providers, and the rounds until a service is found or the
    time is over.  What a round sees of the world is an argument. *)
From S2P Require Import Prelude GoStrings Wildcard Names RootRegistry Lookup MsgQ.
From Stdlib Require Import Floats.SpecFloat.

(** ** Settings *)

(** [ProviderSelectionMethod], as its number *)
Definition Capacity : Z := 1.
Definition Latency : Z := 2.
Definition Invalid : Z := 3.

(** [conf] and [Client] *)
Record Client := mkClient {
  registryAddr : bytes;
  providerID : bytes;
  scope : Scope;
  qsize : Z;
  providerSelectionMethods : list Z;
  discoverTimeout : Z;
  checkIntervalMS : Z;
  deepCopy : bool;
}.

(** [Option] *)
Inductive Option :=
| WithScope (scope : Scope)
| WithProviderID (id : bytes)
| WithRegistryAddr (addr : bytes)
| WithQsize (size : Z).

Definition apply_option (c : Client) (o : Option) : Client :=
  let '(mkClient r p s q m d i dc) := c in
  match o with
  | WithScope s => mkClient r p s q m d i dc
  | WithProviderID p => mkClient r p s q m d i dc
  | WithRegistryAddr r => mkClient r p s q m d i dc
  | WithQsize q => mkClient r p s q m d i dc
  end.

(** [NewClient], with [newConf] *)
Definition NewClient (options : list Option) : Client :=
  foldl apply_option (mkClient [] [] ScopeAll 128 [] (-1) 1000 false) options.

Definition SetProviderSelectionMethod (method : Z) (c : Client) : Client :=
  let '(mkClient r p s q m d i dc) := c in
  if bool_decide (0 < method < Invalid)%Z then mkClient r p s q (m ++ [method]) d i dc else c.
Definition SetDiscoverTimeout (timeout : Z) (c : Client) : Client :=
  let '(mkClient r p s q m _ i dc) := c in mkClient r p s q m timeout i dc.
Definition SetCheckInterval (interval : Z) (c : Client) : Client :=
  let '(mkClient r p s q m d _ dc) := c in
  mkClient r p s q m d (if bool_decide (interval < 10)%Z then 10%Z else interval) dc.
Definition SetDeepCopy (c : Client) : Client :=
  let '(mkClient r p s q m d i _) := c in mkClient r p s q m d i true.

(** ** The choice between providers *)

(** [providerScoreInfo]; a float32 is a [spec_float] of 24 bits *)
Record providerScoreInfo := mkScore { psi_addr : bytes; score : spec_float; latency : Z }.

Definition float32 (z : Z) : spec_float := binary_normalize 24 128 z 0 false.
Definition div32 : spec_float → spec_float → spec_float := SFdiv 24 128.

(** The score of a provider *)
Definition score_of (mqi : MsgQInfo) : spec_float :=
  if bool_decide (QueueWeight mqi > 0)%Z then
    div32 (float32 (NumCPU mqi))
      (float32 (Z.quot (QueueLen mqi) (QueueWeight mqi) + ResidentWorkers mqi + BusyWorkerNum mqi))
  else
    let workableCPU := if bool_decide (ResidentWorkers mqi > NumCPU mqi)%Z then NumCPU mqi else ResidentWorkers mqi in
    SFsub 24 128 (float32 0)
      (div32 (float32 (IdleWorkerNum mqi + workableCPU)) (float32 (IdleWorkerNum mqi * workableCPU))).

(** [sort.SliceStable] *)
Section sort.
Context {A : Type} (less : A → A → bool).
Fixpoint insert_stable (x : A) (l : list A) : list A :=
  match l with
  | [] => [x]
  | y :: l => if less x y then x :: y :: l else y :: insert_stable x l
  end.
Definition SliceStable (l : list A) : list A := foldl (λ acc x, insert_stable x acc) [] l.
End sort.

Definition more_capable (a b : providerScoreInfo) : bool := SFltb (score b) (score a).
Definition less_latent (a b : providerScoreInfo) : bool := bool_decide (latency a < latency b)%Z.

(** One method: the first one sorts everything, the next ones the first half *)
Definition apply_method (acc : bool * list providerScoreInfo) (method : Z) : bool * list providerScoreInfo :=
  let '(sorted, infos) := acc in
  let k := if (sorted : bool) then length infos / 2 else length infos in
  if bool_decide (method = Capacity) then (true, SliceStable more_capable (take k infos) ++ drop k infos)
  else if bool_decide (method = Latency) then (true, SliceStable less_latent (take k infos) ++ drop k infos)
  else acc.

(** ** What a round sees *)

Record world := mkWorld {
  w_chan : chanRegistry;
  w_unix : option bytes;
  w_dir : udsDir;
  w_self : option bytes;                         (** [GetSelfProviderID] *)
  w_lan : bytes → bytes → option (list ServiceInfo);
                                                 (** what the LAN registry answers about a publisher and service *)
  w_registry : option bytes;                     (** [discoverRegistryAddr] *)
  w_wan : bytes → bytes → bytes → option (list ServiceInfo);
                                                 (** what the root registry at an address answers about them *)
  w_dial : bytes → bool;                         (** can the address be dialed? *)
  w_probe : bytes → option (MsgQInfo * Z);       (** the provider's figures and latency *)
  w_shuffle : list bytes → list bytes;           (** [rand.Shuffle] *)
  w_arrival : list providerScoreInfo → list providerScoreInfo;
                                                 (** the order in which the probes finish *)
}.

Inductive connection :=
| ChanConn (ct : chanTransport)
| UDSConn (addr : bytes)
| TCPConn (addr : bytes).

#[export] Instance connection_eq_dec : EqDecision connection.
Proof. solve_decision. Defined.

(** A service to try: its key (or a panic), and the connection when it is up *)
Record candidate := mkCandidate { cand_key : outcome bytes; cand_conn : option connection }.

(** The services tried, and the connections given to the user *)
Record search := mkSearch { serviceList : gset bytes; connections : list connection }.

(** The key of [addToserviceList] *)
Definition service_key (publisherName serviceName providerID : bytes) : bytes :=
  publisherName ++ serviceName ++ providerID.

(** The common part of the loops of [findWithinOS]: the flag tells whether the
    function returned *)
Fixpoint try_each (expect : Z) (l : list candidate) (found : Z) (s : search) : outcome (bool * Z * search) :=
  match l with
  | [] => Return (false, found, s)
  | c :: l =>
      key ← cand_key c;
      if bool_decide (key ∈ serviceList s) then try_each expect l found s
      else
        let tried := {[key]} ∪ serviceList s in
        match cand_conn c with
        | None => try_each expect l found (mkSearch tried (connections s))
        | Some conn =>
            let s := mkSearch tried (connections s ++ [conn]) in
            let found := (found + 1)%Z in
            if bool_decide (found = expect) then Return (true, found, s) else try_each expect l found s
        end
  end.

Section discover.
Context `{GoRange} (publisher service : bytes) (providerIDs : list bytes).

(** The candidates of each loop *)
Definition chan_candidates (w : world) : list candidate :=
  (λ ct, mkCandidate (Return (service_key (ct_publisher ct) (ct_service ct) (str "self"))) (Some (ChanConn ct)))
  <$> lookupServiceChan publisher service (w_chan w).

Definition dial_uds (w : world) (addr : bytes) : option connection :=
  if w_dial w addr then Some (UDSConn addr) else None.

Definition anon_candidates (w : world) : list candidate :=
  (λ addr, mkCandidate ('(pName, sName) ← fromUDSAddr addr; Return (service_key pName sName (str "self")))
             (dial_uds w addr))
  <$> lookupServiceUDSAnon publisher service (w_unix w).

Definition dir_candidates (w : world) (infos : list ServiceInfo) : list candidate :=
  (λ si, mkCandidate (Return (service_key (Publisher si) (Service si) (ProviderID si))) (dial_uds w (Addr si)))
  <$> infos.

(** [findWithinOS] *)
Definition findWithinOS (c : Client) (searchSelf : bool) (expect : Z) (w : world) (s : search) :
    outcome (Z * search) :=
  '(returned, found, s) ←
    (if searchSelf && has_scope (scope c) ScopeProcess then try_each expect (chan_candidates w) 0 s
     else Return (false, 0%Z, s));
  if (returned : bool) || negb (has_scope (scope c) ScopeOS) then Return (found, s)
  else
    '(returned, found, s) ←
      (if searchSelf then try_each expect (anon_candidates w) found s else Return (false, found, s));
    if (returned : bool) then Return (found, s)
    else
      infos ← lookupServiceUDSDir (w_self w) publisher service providerIDs (w_dir w);
      '(_, found, s) ← try_each expect (dir_candidates w infos) found s;
      Return (found, s).

(** [getAddrs]: the services not tried yet, all of them noted as tried *)
Fixpoint getAddrs (self : bytes) (infos : list ServiceInfo) (tried : gset bytes) : gset bytes * list bytes :=
  match infos with
  | [] => (tried, [])
  | si :: infos =>
      let pID := if bool_decide (ProviderID si = self) then str "self" else ProviderID si in
      let key := service_key (Publisher si) (Service si) pID in
      if bool_decide (key ∈ tried) then getAddrs self infos tried
      else
        let '(tried, addrs) := getAddrs self infos ({[key]} ∪ tried) in
        (tried, Addr si :: addrs)
  end.

(** The order in which the addresses are dialed *)
Definition order_addrs (c : Client) (w : world) (addrs : list bytes) : list bytes :=
  let addrs := w_shuffle w addrs in
  match providerSelectionMethods c with
  | [] => addrs
  | methods =>
      let infos := w_arrival w
        (omap (λ addr, '(mqi, latency) ← w_probe w addr; Some (mkScore addr (score_of mqi) latency)) addrs) in
      psi_addr <$> (foldl apply_method (false, infos) methods).2
  end.

(** [connect] *)
Fixpoint connect (w : world) (expect : Z) (addrs : list bytes) (found : Z) (conns : list connection) :
    Z * list connection :=
  match addrs with
  | [] => (found, conns)
  | addr :: addrs =>
      if bool_decide (found = expect) then (found, conns)
      else if w_dial w addr then connect w expect addrs (found + 1) (conns ++ [TCPConn addr])
      else connect w expect addrs found conns
  end.

(** [selectAndConnect(getAddrs(svcInfos))] *)
Definition selectAndConnect (c : Client) (w : world) (expect : Z) (infos : list ServiceInfo) (found : Z) (s : search) :
    Z * search :=
  let '(tried, addrs) := getAddrs (providerID c) infos (serviceList s) in
  let '(found, conns) := connect w expect (order_addrs c w addrs) found (connections s) in
  (found, mkSearch tried conns).

(** The address of the root registry: the client's, or the one discovered *)
Definition asked_registry (c : Client) (w : world) : bytes :=
  if bool_decide (length (registryAddr c) = 0) then default (str "NA") (w_registry w) else registryAddr c.

(** [findNetwork]; it may learn the address of the root registry *)
Definition findNetwork (c : Client) (expect : Z) (w : world) (s : search) : Z * search * Client :=
  let '(found, s) :=
    if negb (bool_decide (0 = expect)%Z) && has_scope (scope c) ScopeLAN
    then selectAndConnect c w expect (lookupServiceLAN providerIDs (w_lan w publisher service)) 0 s
    else (0%Z, s) in
  if negb (bool_decide (found = expect)) && has_scope (scope c) ScopeWAN then
    let addr := asked_registry c w in
    let '(mkClient _ p sc q m d i dc) := c in
    let c := mkClient addr p sc q m d i dc in
    if negb (bool_decide (addr = str "NA")) then
      let '(found, s) := selectAndConnect c w expect (lookupServiceWAN providerIDs (w_wan w addr publisher service)) found s in
      (found, s, c)
    else (found, s, c)
  else (found, s, c).

(** ** [Discover] *)

(** The provider ID of the client and whether to search this node *)
Definition prologue (w : world) (c : Client) : Client * bool :=
  if bool_decide (length providerIDs = 0) then (c, true)
  else
    let '(mkClient r p sc q m d i dc) := c in
    let p := if bool_decide (length p = 0) && negb (bool_decide (Z.land sc ScopeNetwork = 0%Z))
             then default (str "NA") (w_self w) else p in
    (mkClient r p sc q m d i dc, negb (negb (bool_decide (length p = 0)) && negb (matchProvider providerIDs p))).

(** How many connections are wanted; -1 for all *)
Definition expected : Z :=
  if Contains (publisher ++ service) (str "*") || Contains (Join providerIDs (str " ")) (str "*") then -1
  else if bool_decide (length providerIDs = 0) then 1 else Z.of_nat (length providerIDs).

(** A round: the flag tells whether the loop is left *)
Definition round (searchSelf : bool) (w : world) (c : Client) (found : Z) (s : search) :
    outcome (bool * Z * search * Client) :=
  '(f, s) ← findWithinOS c searchSelf (expected - found) w s;
  let found := (found + f)%Z in
  if bool_decide (found = expected) then Return (true, found, s, c)
  else
    let '(f, s, c) := findNetwork c (expected - found) w s in
    let found := (found + f)%Z in
    Return (bool_decide (found = expected), found, s, c).

(** The loop, round [i] seeing [ws i]: [None] when the fuel, one unit a round, is
    used up *)
Fixpoint discover_loop (fuel : nat) (searchSelf : bool) (ws : nat → world) (i : nat) (timeout found : Z)
    (c : Client) (s : search) : outcome (option (list connection)) :=
  match fuel with
  | 0 => Return None
  | S fuel =>
      if bool_decide (found = 0%Z) then
        '(finished, found, s, c) ← round searchSelf (ws i) c found s;
        if (finished : bool) || bool_decide (timeout = 0%Z) then Return (Some (connections s))
        else discover_loop fuel searchSelf ws (S i) (timeout - 1) found c s
      else Return (Some (connections s))
  end.

(** [Discover]: the connections the user gets before the channel is closed *)
Definition Discover (fuel : nat) (ws : nat → world) (c : Client) : outcome (option (list connection)) :=
  let '(c, searchSelf) := prologue (ws 0) c in
  discover_loop fuel searchSelf ws 0 (Z.quot (discoverTimeout c * 1000) (checkIntervalMS c)) 0 c (mkSearch ∅ []).
End discover.

(** ** Sorting *)

Section sorting.
Context {A : Type} (less : A → A → bool).

Lemma insert_stable_perm x l : insert_stable less x l ≡ₚ x :: l.
Proof.
  induction l as [|y l IH]; simpl; [done|]. destruct (less x y); [done|].
  rewrite IH. constructor.
Qed.

Lemma SliceStable_perm l : SliceStable less l ≡ₚ l.
Proof.
  unfold SliceStable. induction l as [|x l IH] using rev_ind; [done|].
  rewrite foldl_app. simpl. by rewrite insert_stable_perm, IH, Permutation_cons_append.
Qed.

(** For a strict weak order no later element is less than an earlier one. *)
Context (Htr : ∀ x y z, less x y = false → less y z = false → less x z = false).
Context (Has : ∀ x y, less x y = true → less y x = false).

Definition ordered : list A → Prop := StronglySorted (λ x y, less y x = false).

Lemma insert_stable_ordered x l : ordered l → ordered (insert_stable less x l).
Proof.
  unfold ordered. induction l as [|y l IH]; simpl; intros Hl; [repeat constructor|].
  apply StronglySorted_cons in Hl as [Hy Hl]. destruct (less x y) eqn:Hxy; apply StronglySorted_cons; split.
  - constructor; [by apply Has|]. eapply Forall_impl; [exact Hy|]. simpl. intros z Hz.
    eapply Htr; [exact Hz|by apply Has].
  - by apply StronglySorted_cons.
  - rewrite insert_stable_perm. by constructor.
  - by apply IH.
Qed.

Lemma SliceStable_ordered l : ordered (SliceStable less l).
Proof.
  unfold SliceStable. induction l as [|x l IH] using rev_ind; [constructor|].
  rewrite foldl_app. by apply insert_stable_ordered.
Qed.
End sorting.

Lemma apply_method_perm acc method : (apply_method acc method).2 ≡ₚ acc.2.
Proof.
  destruct acc as [sorted infos]. unfold apply_method.
  destruct (bool_decide _); [|destruct (bool_decide _)]; simpl; [| |done];
    by rewrite SliceStable_perm, take_drop.
Qed.

Lemma apply_methods_perm methods acc : (foldl apply_method acc methods).2 ≡ₚ acc.2.
Proof.
  revert acc; induction methods as [|m methods IH]; intros acc; simpl; [done|].
  by rewrite IH, apply_method_perm.
Qed.

(** ** What a search adds *)

(** From [s] to [s'] a loop adds [n] connections that satisfy [P], at most
    [expect] of them when that is positive. *)
Definition extends (P : connection → Prop) (s s' : search) (n : Z) : Prop :=
  ∃ l, connections s' = connections s ++ l ∧ Forall P l ∧ n = Z.of_nat (length l).

Lemma extends_refl P s tried : extends P s (mkSearch tried (connections s)) 0.
Proof. exists []. simpl. by rewrite app_nil_r. Qed.

Lemma extends_trans P s1 s2 s3 n m : extends P s1 s2 n → extends P s2 s3 m → extends P s1 s3 (n + m).
Proof.
  intros (l & E1 & H1 & ->) (k & E2 & H2 & ->). exists (l ++ k).
  rewrite E2, E1, app_assoc, length_app. split; [done|]. split; [by apply Forall_app|lia].
Qed.

Lemma extends_impl (P Q : connection → Prop) s s' n : (∀ c, P c → Q c) → extends P s s' n → extends Q s s' n.
Proof. intros HPQ (l & ? & ? & ?). exists l. split; [done|]. split; [by eapply Forall_impl|done]. Qed.

Lemma try_each_extends expect l found s returned found' s' :
  try_each expect l found s = Return (returned, found', s') →
  extends (λ c, ∃ cand, cand ∈ l ∧ cand_conn cand = Some c) s s' (found' - found) ∧
  ((found < expect)%Z → if returned then found' = expect else (found' < expect)%Z) ∧
  serviceList s ⊆ serviceList s'.
Proof.
  revert found s; induction l as [|c l IH]; intros found s Htry; cbn [try_each] in Htry.
  { injection Htry as <- <- <-. replace (found - found)%Z with 0%Z by lia.
    split; [destruct s; apply extends_refl|]. split; [lia|done]. }
  assert (∀ s1 s2 n, extends (λ c', ∃ cand, cand ∈ l ∧ cand_conn cand = Some c') s1 s2 n →
    extends (λ c', ∃ cand, cand ∈ c :: l ∧ cand_conn cand = Some c') s1 s2 n) as Hmore.
  { intros s1 s2 n. apply extends_impl. intros c' (cand & ? & ?). exists cand. split; [by right|done]. }
  destruct (cand_key c) as [key|]; [|done]. cbn [mbind outcome_bind] in Htry.
  destruct (bool_decide _); [destruct (IH _ _ Htry) as (? & ? & ?); auto|].
  destruct (cand_conn c) as [conn|] eqn:Hc.
  - assert (extends (λ c', ∃ cand, cand ∈ c :: l ∧ cand_conn cand = Some c') s
      (mkSearch ({[key]} ∪ serviceList s) (connections s ++ [conn])) 1) as H1.
    { exists [conn]. split; [done|]. split; [|done]. repeat constructor. exists c. split; [left|done]. }
    destruct (bool_decide_reflect (found + 1 = expect)%Z) as [Heq|Hne].
    + injection Htry as <- <- <-. replace (found + 1 - found)%Z with 1%Z by lia.
      split; [done|]. split; [lia|]. simpl. set_solver.
    + destruct (IH _ _ Htry) as (He & Hr & Hs). split; [|split].
      * replace (found' - found)%Z with (1 + (found' - (found + 1)))%Z by lia.
        eapply extends_trans; [exact H1|by apply Hmore].
      * intros Hlt. apply Hr. lia.
      * simpl in Hs. set_solver.
  - destruct (IH _ _ Htry) as (He & Hr & Hs). split; [|split; [done|]].
    + by apply Hmore.
    + simpl in Hs. set_solver.
Qed.

Lemma connect_extends w expect addrs found conns found' conns' tried tried' :
  connect w expect addrs found conns = (found', conns') →
  extends (λ c, ∃ addr, addr ∈ addrs ∧ w_dial w addr ∧ c = TCPConn addr)
    (mkSearch tried conns) (mkSearch tried' conns') (found' - found) ∧
  ((found ≤ expect)%Z → (found' ≤ expect)%Z).
Proof.
  revert found conns; induction addrs as [|addr addrs IH]; intros found conns Hc; cbn [connect] in Hc.
  { injection Hc as <- <-. replace (found - found)%Z with 0%Z by lia. split; [|lia].
    apply (extends_refl _ (mkSearch tried conns)). }
  assert (∀ s1 s2 n, extends (λ c, ∃ a, a ∈ addrs ∧ w_dial w a ∧ c = TCPConn a) s1 s2 n →
    extends (λ c, ∃ a, a ∈ addr :: addrs ∧ w_dial w a ∧ c = TCPConn a) s1 s2 n) as Hmore.
  { intros s1 s2 n. apply extends_impl. intros c (a & ? & ?). exists a. split; [by right|done]. }
  destruct (bool_decide_reflect (found = expect)) as [->|Hne].
  { injection Hc as <- <-. replace (expect - expect)%Z with 0%Z by lia. split; [|lia].
    apply (extends_refl _ (mkSearch tried conns)). }
  destruct (w_dial w addr) eqn:Hd.
  - destruct (IH _ _ Hc) as (He & Hle). split; [|lia].
    replace (found' - found)%Z with (1 + (found' - (found + 1)))%Z by lia.
    eapply extends_trans; [|apply Hmore; exact He].
    exists [TCPConn addr]. split; [done|]. split; [|done]. repeat constructor. exists addr.
    rewrite Hd. split; [left|done].
  - destruct (IH _ _ Hc) as (He & Hle). split; [by apply Hmore|done].
Qed.

Lemma getAddrs_infos self infos tried tried' addrs :
  getAddrs self infos tried = (tried', addrs) →
  tried ⊆ tried' ∧ ∀ addr, addr ∈ addrs → ∃ si, si ∈ infos ∧ Addr si = addr.
Proof.
  revert tried tried' addrs; induction infos as [|si infos IH]; intros tried tried' addrs Hg; cbn [getAddrs] in Hg.
  { injection Hg as <- <-. split; [done|]. by intros ? ?%elem_of_nil. }
  destruct (bool_decide _).
  - destruct (IH _ _ _ Hg) as [? Ha]. split; [done|]. intros addr (s & ? & ?)%Ha. exists s. split; [by right|done].
  - destruct (getAddrs self infos _) as [t a] eqn:E. injection Hg as <- <-.
    destruct (IH _ _ _ E) as [? Ha]. split; [set_solver|].
    intros addr [->|(s & ? & ?)%Ha]%elem_of_cons; [exists si; split; [left|done]|]. exists s. split; [by right|done].
Qed.

(** The two random orders are orders of the same elements. *)
Definition fair (w : world) : Prop :=
  (∀ l, w_shuffle w l ≡ₚ l) ∧ (∀ l, w_arrival w l ≡ₚ l).

Lemma elem_of_order_addrs c w addrs addr :
  fair w → addr ∈ order_addrs c w addrs → addr ∈ addrs.
Proof.
  intros [Hs Ha]. unfold order_addrs. destruct (providerSelectionMethods c) as [|m ms].
  - by rewrite Hs.
  - intros (info & -> & Hin)%list_elem_of_fmap. rewrite apply_methods_perm in Hin. simpl in Hin.
    rewrite Ha in Hin. apply list_elem_of_omap in Hin as (a & Hin & Hp). rewrite Hs in Hin.
    destruct (w_probe w a) as [[mqi lat]|]; [|done]. simpl in Hp. by simplify_eq/=.
Qed.

Section offered.
Context `{GoRange} (publisher service : bytes) (providerIDs : list bytes).

(** A connection to a service that the lookups of a scope of the client gave, when it may
    ask the root registries of [K], and that is up *)
Definition looked_up (K : bytes → Prop) (sc : Scope) (w : world) (conn : connection) : Prop :=
  match conn with
  | ChanConn ct =>
      has_scope sc ScopeProcess = true ∧
      ∃ n, w_chan w !! n = Some ct ∧ glob (toPublisherServiceName publisher service) n
  | UDSConn addr =>
      has_scope sc ScopeOS = true ∧ w_dial w addr = true ∧
      (addr ∈ lookupServiceUDSAnon publisher service (w_unix w) ∨
       ∃ infos si, lookupServiceUDSDir (w_self w) publisher service providerIDs (w_dir w) = Return infos ∧
         si ∈ infos ∧ Addr si = addr)
  | TCPConn addr =>
      w_dial w addr = true ∧ ∃ si infos, Addr si = addr ∧ matchProvider providerIDs (ProviderID si) ∧ si ∈ infos ∧
        ((has_scope sc ScopeLAN = true ∧ w_lan w publisher service = Some infos) ∨
         (has_scope sc ScopeWAN = true ∧ ∃ registry, K registry ∧ w_wan w registry publisher service = Some infos))
  end.

Lemma looked_up_mono (K K' : bytes → Prop) sc w conn : (∀ a, K a → K' a) → looked_up K sc w conn → looked_up K' sc w conn.
Proof.
  intros HK. destruct conn; [done|done|]. intros (? & si & infos & ? & ? & ? & Hor). split; [done|]. exists si, infos. split_and!; [done..|].
  destruct Hor as [?|(? & a & ? & ?)]; [by left|right]. split; [done|]. exists a. auto.
Qed.

(** The registry asked in a round *)
Definition asks_at (c : Client) (w : world) (a : bytes) : Prop := a = asked_registry c w ∧ a ≠ str "NA".

Lemma extends_zero P s : extends P s s 0.
Proof. destruct s. apply extends_refl. Qed.

(** A loop of [findWithinOS] that is run only under a condition *)
Lemma loop_sound (b : bool) P expect l found s returned f s1 :
  (b = true → ∀ cand c, cand ∈ l → cand_conn cand = Some c → P c) →
  (if b then try_each expect l found s else Return (false, found, s)) = Return (returned, f, s1) →
  extends P s s1 (f - found) ∧
  ((found < expect)%Z → if returned then f = expect else (f < expect)%Z).
Proof.
  intros HP. destruct b.
  - intros (He & Hlt & _)%try_each_extends. split; [|done].
    eapply extends_impl; [|exact He]. intros c (cand & ? & ?). by eapply HP.
  - intros [= <- <- <-]. rewrite Z.sub_diag. split; [apply extends_zero|done].
Qed.

Lemma findWithinOS_sound c ss expect w s found s' :
  findWithinOS publisher service providerIDs c ss expect w s = Return (found, s') →
  ∀ K, extends (looked_up K (scope c) w) s s' found ∧ ((0 < expect)%Z → (found ≤ expect)%Z).
Proof.
  unfold findWithinOS. intros Hf K.
  destruct (if ss && has_scope (scope c) ScopeProcess then _ else _) as [[[r1 f1] s1]|] eqn:H1; [|done].
  cbn [mbind outcome_bind] in Hf.
  apply (loop_sound _ (looked_up K (scope c) w)) in H1 as [He1 Hl1].
  2: { intros [_ Hs]%andb_prop cand conn (ct & -> & Hct%elem_of_lookupServiceChan)%list_elem_of_fmap [= <-].
       by split. }
  rewrite Z.sub_0_r in He1.
  destruct (r1 || negb (has_scope (scope c) ScopeOS)) eqn:Hr1.
  { injection Hf as <- <-. split; [done|]. intros Hpos. specialize (Hl1 Hpos). destruct r1; lia. }
  apply orb_false_iff in Hr1 as [-> Hos%negb_false_iff].
  destruct (if ss then _ else _) as [[[r2 f2] s2]|] eqn:H2; [|done]. cbn [mbind outcome_bind] in Hf.
  apply (loop_sound _ (looked_up K (scope c) w)) in H2 as [He2 Hl2].
  2: { intros _ cand conn (addr & -> & Ha)%list_elem_of_fmap Hc. simpl in Hc. unfold dial_uds in Hc.
       destruct (w_dial w addr) eqn:Hd; simplify_eq. split; [done|]. split; [done|by left]. }
  pose proof (extends_trans _ _ _ _ _ _ He1 He2) as He12. replace (f1 + (f2 - f1))%Z with f2 in He12 by lia.
  destruct r2.
  { injection Hf as <- <-. split; [done|]. intros Hpos. specialize (Hl2 (Hl1 Hpos)). lia. }
  destruct (lookupServiceUDSDir _ _ _ _ _) as [infos|] eqn:Hinfos; [|done]. cbn [mbind outcome_bind] in Hf.
  destruct (try_each expect _ f2 s2) as [[[r3 f3] s3]|] eqn:H3; [|done]. injection Hf as <- <-.
  apply (loop_sound true (looked_up K (scope c) w)) in H3 as [He3 Hl3].
  2: { intros _ cand conn (si & -> & Hsi)%list_elem_of_fmap Hc. simpl in Hc. unfold dial_uds in Hc.
       destruct (w_dial w (Addr si)) eqn:Hd; simplify_eq. split; [done|]. split; [done|].
       right. by exists infos, si. }
  pose proof (extends_trans _ _ _ _ _ _ He12 He3) as He. replace (f2 + (f3 - f2))%Z with f3 in He by lia.
  split; [done|]. intros Hpos. specialize (Hl3 (Hl2 (Hl1 Hpos))). destruct r3; lia.
Qed.

Lemma selectAndConnect_sound c w expect infos found s found' s' :
  fair w → selectAndConnect c w expect infos found s = (found', s') →
  extends (λ conn, ∃ si, si ∈ infos ∧ w_dial w (Addr si) ∧ conn = TCPConn (Addr si)) s s' (found' - found) ∧
  ((found ≤ expect)%Z → (found' ≤ expect)%Z).
Proof.
  intros Hfair. unfold selectAndConnect. destruct (getAddrs _ _ _) as [tried addrs] eqn:Hg.
  destruct (connect _ _ _ _ _) as [f conns] eqn:Hc. intros [= <- <-].
  apply getAddrs_infos in Hg as [_ Hg].
  destruct (connect_extends _ _ _ _ _ _ _ (serviceList s) tried Hc) as [He Hle]. split; [|done].
  destruct s as [sl conns0]. eapply extends_impl; [|exact He].
  intros conn (addr & Hin & Hd & ->). apply elem_of_order_addrs, Hg in Hin as (si & ? & <-); [|done]. eauto.
Qed.

Lemma findNetwork_sound c expect w s found s' c' :
  fair w → findNetwork publisher service providerIDs c expect w s = (found, s', c') →
  extends (looked_up (asks_at c w) (scope c) w) s s' found ∧ ((0 < expect)%Z → (found ≤ expect)%Z) ∧ scope c' = scope c ∧
  (registryAddr c' = registryAddr c ∨ registryAddr c' = asked_registry c w).
Proof.
  intros Hfair. unfold findNetwork.
  destruct (if negb (bool_decide (0 = expect)%Z) && has_scope (scope c) ScopeLAN then _ else _) as [f1 s1] eqn:H1.
  assert (extends (looked_up (asks_at c w) (scope c) w) s s1 f1 ∧ ((0 < expect)%Z → (f1 ≤ expect)%Z)) as [He1 Hl1].
  { destruct (negb _ && has_scope (scope c) ScopeLAN) eqn:Hb.
    - apply andb_prop in Hb as [_ Hlan]. apply selectAndConnect_sound in H1 as [He Hle]; [|done].
      rewrite Z.sub_0_r in He. split; [|intros; apply Hle; lia]. eapply extends_impl; [|exact He].
      intros conn (si & (Hm & Hin)%list_elem_of_filter & Hd & ->). split; [by apply Is_true_true|].
      destruct (w_lan w publisher service) as [infos|] eqn:Hi; [|by apply elem_of_nil in Hin]. exists si, infos.
      split; [done|]. split; [done|]. split; [done|]. by left.
    - injection H1 as <- <-. split; [apply extends_zero|lia]. }
  destruct (negb (bool_decide (f1 = expect)) && has_scope (scope c) ScopeWAN) eqn:Hb.
  2: { intros [= <- <- <-]. split_and!; auto. }
  apply andb_prop in Hb as [_ Hwan]. clear H1. assert (Haddr : ∀ a, a = asked_registry c w → a ≠ str "NA" → asks_at c w a) by done.
  revert Haddr. generalize (asked_registry c w). intros addr Haddr. destruct c as [ra p sc q m d i dc].
  cbn [scope registryAddr] in *. destruct (bool_decide_reflect (addr = str "NA")) as [HNA|HNA]; cbn [negb]; [intros [= <- <- <-]; split_and!; auto|].
  destruct (selectAndConnect _ _ _ _ _ _) as [f2 s2] eqn:H2. intros [= <- <- <-]. apply selectAndConnect_sound in H2 as [He Hle]; [|done].
  split; [|split_and!; [intros; apply Hle; auto|done|by right]].
  replace f2 with (f1 + (f2 - f1))%Z by lia. eapply extends_trans; [done|].
  eapply extends_impl; [|exact He].
  intros conn (si & (Hm & Hin)%list_elem_of_filter & Hd & ->). split; [by apply Is_true_true|].
  destruct (w_wan w addr publisher service) as [infos|] eqn:Hi; [|by apply elem_of_nil in Hin]. exists si, infos.
  split; [done|]. split; [done|]. split; [done|]. right. eauto.
Qed.

Lemma round_sound ss w c s fin found s' c' :
  fair w → round publisher service providerIDs ss w c 0 s = Return (fin, found, s', c') →
  extends (looked_up (asks_at c w) (scope c) w) s s' found ∧ scope c' = scope c ∧
  (registryAddr c' = registryAddr c ∨ registryAddr c' = asked_registry c w) ∧
  let e := expected publisher service providerIDs in ((0 < e)%Z → (found ≤ e)%Z).
Proof.
  intros Hfair. unfold round. set (e := expected _ _ _). rewrite Z.sub_0_r.
  destruct (findWithinOS _ _ _ _ _ _ _ _) as [[f1 s1]|] eqn:H1; [|done]. cbn [mbind outcome_bind].
  apply findWithinOS_sound with (K := asks_at c w) in H1 as [He1 Hl1]. rewrite Z.add_0_l.
  destruct (bool_decide_reflect (f1 = e)) as [Heq|Hne].
  { intros [= <- <- <- <-]. split_and!; [done|done|by left|]. intros. lia. }
  destruct (findNetwork _ _ _ _ _ _ _) as [[f2 s2] c2] eqn:H2. intros [= <- <- <- <-].
  apply findNetwork_sound in H2 as (He2 & Hl2 & Hc & Hreg); [|done].
  split; [by eapply extends_trans|]. split_and!; [done|done|]. intros Hpos. specialize (Hl1 Hpos).
  assert (0 < e - f1)%Z as Hp2 by lia. specialize (Hl2 Hp2). lia.
Qed.

(** The registries asked by round [i]: the one whose address [ra] the client has, or one
    discovered so far *)
Definition knows_registry (ra : bytes) (ws : nat → world) (i : nat) (a : bytes) : Prop :=
  a ≠ str "NA" ∧ (ra ≠ [] ∧ a = ra ∨ ra = [] ∧ ∃ j, j ≤ i ∧ w_registry (ws j) = Some a).
Definition learned (ra : bytes) (ws : nat → world) (i : nat) (c : Client) : Prop :=
  registryAddr c = ra ∨ ra = [] ∧ ∃ j, j < i ∧ registryAddr c = default (str "NA") (w_registry (ws j)).

Lemma learned_knows ra ws i c a : learned ra ws i c → asks_at c (ws i) a → knows_registry ra ws i a.
Proof.
  intros Hl [-> Hne]. split; [done|]. revert Hne. unfold asked_registry. case_bool_decide as Hn.
  - apply nil_length_inv in Hn. intros Hne. right. assert (ra = []) as -> by (destruct Hl as [<-|[-> _]]; done).
    split; [done|]. exists i. split; [done|]. by destruct (w_registry (ws i)).
  - intros Hne. assert (registryAddr c ≠ []) as Hnn by (by intros Hz; rewrite Hz in Hn). destruct Hl as [<-|(-> & j & Hj & Heq)]; [by left|right].
    split; [done|]. exists j. rewrite Heq in Hne |- *. split; [lia|]. by destruct (w_registry (ws j)).
Qed.

Lemma learned_next ra ws i c c' : learned ra ws i c →
  registryAddr c' = registryAddr c ∨ registryAddr c' = asked_registry c (ws i) → learned ra ws (S i) c'.
Proof.
  intros Hl Hc'. assert (learned ra ws (S i) c) as Hl' by (destruct Hl as [?|(? & j & ? & ?)]; [by left|right; split; [done|]; exists j; split; [lia|done]]).
  unfold asked_registry in Hc'. destruct Hc' as [Hc'|Hc']; [by unfold learned in *; rewrite Hc'|].
  case_bool_decide as Hn; [|by unfold learned in *; rewrite Hc']. right. apply nil_length_inv in Hn.
  split; [by destruct Hl as [<-|[-> _]]|]. exists i. split; [lia|done].
Qed.

(** The connections all come from one round. *)
Lemma discover_loop_sound ra fuel ss ws i timeout c s conns :
  (∀ j, fair (ws j)) → connections s = [] → learned ra ws i c →
  discover_loop publisher service providerIDs fuel ss ws i timeout 0 c s = Return (Some conns) →
  ∃ j, i ≤ j ∧ Forall (looked_up (knows_registry ra ws j) (scope c) (ws j)) conns ∧
    let e := expected publisher service providerIDs in ((0 < e)%Z → (Z.of_nat (length conns) ≤ e)%Z).
Proof.
  intros Hfair. revert i timeout c s; induction fuel as [|fuel IH]; intros i timeout c s Hs Hlearned Hd; [done|].
  cbn [discover_loop] in Hd. rewrite bool_decide_eq_true_2 in Hd by done.
  destruct (round _ _ _ _ _ _ _ _) as [[[[fin found] s1] c1]|] eqn:Hr; [|done]. cbn [mbind outcome_bind] in Hd.
  apply round_sound in Hr as ((l & Hl & Hof & ->) & Hc & Hreg & Hle); [|done]. rewrite Hs in Hl. simpl in Hl.
  assert (conns = l → ∃ j, i ≤ j ∧ Forall (looked_up (knows_registry ra ws j) (scope c) (ws j)) conns ∧
    let e := expected publisher service providerIDs in ((0 < e)%Z → (Z.of_nat (length conns) ≤ e)%Z)) as Hdone.
  { intros ->. exists i. split; [done|]. split; [|done]. eapply Forall_impl; [exact Hof|]. intros conn.
    apply looked_up_mono. intros a. by apply learned_knows. }
  destruct (fin || bool_decide (timeout = 0%Z)); [injection Hd as <-; by apply Hdone|].
  destruct (decide (l = [])) as [->|Hne].
  - destruct (IH (S i) (timeout - 1)%Z c1 s1 Hl (learned_next _ _ _ _ _ Hlearned Hreg) Hd) as (j & Hj & Ho & Hlj). exists j.
    rewrite Hc in Ho. split; [lia|done].
  - destruct fuel as [|fuel]; [done|]. cbn [discover_loop] in Hd.
    rewrite bool_decide_eq_false_2 in Hd by (destruct l; simpl; [done|lia]).
    injection Hd as <-. by apply Hdone.
Qed.

(** The connections of [Discover], with how the client came to them *)
Lemma discover_looked_up fuel ws c conns : (∀ i, fair (ws i)) →
  Discover publisher service providerIDs fuel ws c = Return (Some conns) →
  ∃ i, Forall (looked_up (knows_registry (registryAddr c) ws i) (scope c) (ws i)) conns ∧
    let e := expected publisher service providerIDs in ((0 < e)%Z → (Z.of_nat (length conns) ≤ e)%Z).
Proof.
  intros Hfair. unfold Discover.
  assert (scope (prologue providerIDs (ws 0) c).1 = scope c ∧ registryAddr (prologue providerIDs (ws 0) c).1 = registryAddr c) as [Hsc Hra]
    by (unfold prologue; destruct (bool_decide _); [done|by destruct c]).
  destruct (prologue _ _ _) as [c1 ss]. simpl in Hsc, Hra. intros Hd.
  apply (discover_loop_sound (registryAddr c)) in Hd as (j & _ & Ho & Hle); [|done|done|by left].
  exists j. by rewrite Hsc in Ho.
Qed.

(** A connection to a service with a name and, for the scopes that tell, a provider that
    are wanted, which a scope of the client has, and which is up: a channel transport in the
    table; an abstract socket of "/proc/net/unix" or a socket file; an address that the
    registry of the local network, or the root registry the client knows, answered. *)
Definition offered (ra : bytes) (sc : Scope) (ws : nat → world) (i : nat) (conn : connection) : Prop :=
  let wanted := glob (toPublisherServiceName publisher service) in
  let w := ws i in
  match conn with
  | ChanConn ct => has_scope sc ScopeProcess = true ∧ ∃ n, w_chan w !! n = Some ct ∧ wanted n
  | UDSConn addr =>
      has_scope sc ScopeOS = true ∧ w_dial w addr = true ∧
      ((∃ content line, w_unix w = Some content ∧ line ∈ tail (complete_lines content) ∧ anon_entry line = Some addr ∧
          wanted (socket_name addr)) ∨
       named_socket (w_self w) publisher service providerIDs (w_dir w) addr)
  | TCPConn addr =>
      w_dial w addr = true ∧ ∃ si infos, si ∈ infos ∧ Addr si = addr ∧
        wanted (toPublisherServiceName (Publisher si) (Service si)) ∧ matchProvider providerIDs (ProviderID si) ∧
        ((has_scope sc ScopeLAN = true ∧ w_lan w publisher service = Some infos) ∨
         (has_scope sc ScopeWAN = true ∧ ∃ registry, knows_registry ra ws i registry ∧ w_wan w registry publisher service = Some infos))
  end.

(** What the registries answer matches the query. *)
Definition registries_match (w : world) : Prop :=
  ∀ p s infos si, w_lan w p s = Some infos ∨ (∃ registry, w_wan w registry p s = Some infos) → si ∈ infos →
    glob (toPublisherServiceName p s) (toPublisherServiceName (Publisher si) (Service si)).

Lemma looked_up_offered ra sc ws i conn : registries_match (ws i) →
  looked_up (knows_registry ra ws i) sc (ws i) conn → offered ra sc ws i conn.
Proof.
  intros Hm. destruct conn as [ct|addr|addr]; simpl; [done|..].
  - intros (? & ? & Hor). split_and!; [done..|]. destruct Hor as [Ha|(infos & si & Hl & Hsi & <-)]; [left|right].
    + destruct (w_unix (ws i)) as [content|] eqn:Hu; [|by apply elem_of_nil in Ha].
      destruct (proj1 (anon_lookup_spec publisher service content) _ Ha) as (? & line & ? & ?). by exists content, line.
    + by eapply lookupServiceUDSDir_found.
  - intros (? & si & infos & ? & ? & ? & Hor). split; [done|]. exists si, infos. split_and!; [done|done| |done|done].
    apply (Hm _ _ infos); [|done]. destruct Hor as [[_ ?]|(_ & a & _ & ?)]; [by left|right; by exists a].
Qed.
End offered.

Lemma prologue_scope providerIDs w c : scope (prologue providerIDs w c).1 = scope c.
Proof. unfold prologue. destruct (bool_decide _); [done|]. by destruct c. Qed.

(** ** Properties *)


(** A name has no wildcard when its parts have none. *)
Lemma plain_name publisher service :
  Contains (publisher ++ service) (str "*") = false → Contains (toPublisherServiceName publisher service) (str "*") = false.
Proof.
  intros Hw. destruct (Contains (toPublisherServiceName _ _) _) eqn:E; [|done]. exfalso.
  assert (Contains (publisher ++ service) (str "*")) as Hc; [|by rewrite Hw in Hc].
  apply Contains_char. assert (Is_true (Contains (toPublisherServiceName publisher service) (str "*"))) as Hc
    by (by rewrite E). apply Contains_char in Hc. unfold toPublisherServiceName in Hc.
  rewrite !elem_of_app, list_elem_of_singleton in *. by destruct Hc as [?|[[=]|?]]; auto.
Qed.

(** A service of the process is found at once. *)
Lemma process_first `{GoRange} publisher service fuel ws c ct :
  Contains (publisher ++ service) (str "*") = false →
  has_scope (scope c) ScopeProcess = true →
  w_chan (ws 0) !! toPublisherServiceName publisher service = Some ct →
  Discover publisher service [] (S fuel) ws c = Return (Some [ChanConn ct]).
Proof.
  intros Hw Hsc Hct. unfold Discover, prologue. cbn [length]. rewrite bool_decide_eq_true_2 by done.
  cbn [discover_loop]. rewrite bool_decide_eq_true_2 by done. unfold round, expected.
  rewrite Hw. cbn [Join orb]. change (Contains [] (str "*")) with false. cbn [length].
  rewrite (bool_decide_eq_true_2 (0 = 0)) by done. unfold findWithinOS. rewrite Hsc. cbn [andb].
  assert (lookupServiceChan publisher service (w_chan (ws 0)) = [ct]) as Hl.
  { unfold lookupServiceChan, serviceNamesInProcess.
    rewrite (plain_name publisher service Hw), Hct. simpl. by rewrite Hct. }
  unfold chan_candidates. rewrite Hl. cbn [fmap list_fmap try_each cand_key cand_conn mbind outcome_bind serviceList connections].
  rewrite (bool_decide_eq_false_2 (_ ∈ _)) by apply not_elem_of_empty. done.
Qed.

(** Nearest first: without provider IDs and wildcards, a service of the
    process itself is the one connection, whatever the other scopes know. *)
Theorem discover_in_process `{GoRange} publisher service fuel ws c ct :
  Contains (publisher ++ service) (str "*") = false →
  has_scope (scope c) ScopeProcess = true →
  w_chan (ws 0) !! toPublisherServiceName publisher service = Some ct →
  Discover publisher service [] (S fuel) ws c = Return (Some [ChanConn ct]).
Proof. apply process_first. Qed.

(** A round of a world in which nothing is known finds nothing. *)
Definition silent (w : world) : Prop :=
  w_chan w = ∅ ∧ w_unix w = None ∧ entries (w_dir w) = None ∧ (∀ p s, w_lan w p s = None) ∧ (∀ r p s, w_wan w r p s = None) ∧ fair w.

Lemma order_addrs_nil c w : fair w → order_addrs c w [] = [].
Proof.
  intros Hf. destruct (order_addrs c w []) as [|a l] eqn:E; [done|].
  assert (a ∈ order_addrs c w []) as Ha by (rewrite E; left).
  apply elem_of_order_addrs in Ha; [|done]. by apply elem_of_nil in Ha.
Qed.

Lemma silent_select c w expect s : silent w → selectAndConnect c w expect [] 0 s = (0%Z, s).
Proof.
  intros (_ & _ & _ & _ & _ & Hf). unfold selectAndConnect. simpl. rewrite order_addrs_nil by done.
  by destruct s.
Qed.

Lemma silent_round `{GoRange} publisher service providerIDs ss w c s :
  silent w → expected publisher service providerIDs ≠ 0%Z →
  ∃ c', round publisher service providerIDs ss w c 0 s = Return (false, 0%Z, s, c').
Proof.
  intros Hw Hne. pose proof Hw as (Hc & Hu & Hd & Hl & Hwan & Hf). unfold round. rewrite Z.sub_0_r.
  set (e := expected _ _ _) in *.
  assert (findWithinOS publisher service providerIDs c ss e w s = Return (0%Z, s)) as ->.
  { unfold findWithinOS, chan_candidates, anon_candidates, lookupServiceChan, lookupServiceUDSDir.
    rewrite Hc, Hu, Hd. assert (serviceNamesInProcess publisher service ∅ = []) as ->.
    { destruct (serviceNamesInProcess publisher service ∅) as [|n l] eqn:E; [done|].
      assert (n ∈ serviceNamesInProcess publisher service ∅) as Hn by (rewrite E; left).
      apply elem_of_serviceNamesInProcess in Hn as [[ct Hct] _]. by rewrite lookup_empty in Hct. }
    by destruct (ss && has_scope (scope c) ScopeProcess), (has_scope (scope c) ScopeOS), ss. }
  cbn [mbind outcome_bind]. rewrite Z.add_0_l. rewrite (bool_decide_eq_false_2 (0%Z = e)) by done.
  unfold findNetwork, lookupServiceLAN, lookupServiceWAN. rewrite Hl.
  change (filter _ (default [] None)) with (@nil ServiceInfo).
  rewrite Z.sub_0_r, silent_select, (bool_decide_eq_false_2 (0%Z = e)) by done.
  destruct c as [ra p sc q m d i dc]. cbn [scope negb andb registryAddr].
  assert (∀ b : bool, (if b then (0%Z, s) else (0%Z, s)) = (0%Z, s)) as -> by (by intros []).
  rewrite (bool_decide_eq_false_2 (0%Z = e)) by done. cbn [negb andb].
  destruct (has_scope sc ScopeWAN); [|eexists; by rewrite (bool_decide_eq_false_2 (0%Z = e))].
  set (addr := asked_registry _ _).
  destruct (bool_decide (addr = str "NA")); cbn [negb]; [eexists; by rewrite (bool_decide_eq_false_2 (0%Z = e))|].
  rewrite Hwan. change (filter _ (default [] None)) with (@nil ServiceInfo). rewrite silent_select by done.
  eexists. by rewrite (bool_decide_eq_false_2 (0%Z = e)).
Qed.

Lemma expected_nonzero publisher service providerIDs : expected publisher service providerIDs ≠ 0%Z.
Proof.
  unfold expected. destruct (_ || _); [done|]. destruct (bool_decide_reflect (length providerIDs = 0)); [done|lia].
Qed.

Lemma silent_loop `{GoRange} publisher service providerIDs ss ws fuel i timeout c s :
  (∀ j, silent (ws j)) →
  discover_loop publisher service providerIDs fuel ss ws i timeout 0 c s =
  Return (if bool_decide (0 ≤ timeout < Z.of_nat fuel)%Z then Some (connections s) else None).
Proof.
  intros Hws. revert i timeout c; induction fuel as [|fuel IH]; intros i timeout c.
  { rewrite bool_decide_eq_false_2 by lia. done. }
  cbn [discover_loop]. rewrite bool_decide_eq_true_2 by done.
  destruct (silent_round publisher service providerIDs ss (ws i) c s (Hws i)) as [c' ->]; [apply expected_nonzero|].
  cbn [mbind outcome_bind orb]. destruct (bool_decide_reflect (timeout = 0%Z)) as [->|Hne].
  { by rewrite bool_decide_eq_true_2 by lia. }
  rewrite IH. f_equal. rewrite (bool_decide_ext (0 ≤ timeout - 1 < Z.of_nat fuel)%Z (0 ≤ timeout < Z.of_nat (S fuel))%Z) by lia.
  done.
Qed.

(** How long [Discover] waits: where nothing is ever found, it gives up after
    [discoverTimeout * 1000 / checkIntervalMS] (rounded towards zero) rounds more
    than one when that is not negative, and never otherwise.  In particular a
    negative time out smaller than the interval is rounded to zero: it does not
    wait forever but not at all. *)
Theorem discover_rounds `{GoRange} publisher service providerIDs fuel ws c :
  (∀ i, silent (ws i)) →
  let rounds := Z.quot (discoverTimeout c * 1000) (checkIntervalMS c) in
  (Discover publisher service providerIDs fuel ws c =
     Return (if bool_decide (0 ≤ rounds < Z.of_nat fuel)%Z then Some [] else None)) ∧
  ((discoverTimeout c < 0)%Z → (- discoverTimeout c * 1000 < checkIntervalMS c)%Z →
     Discover publisher service providerIDs 1 ws c = Return (Some [])).
Proof.
  intros Hws rounds.
  assert (∀ fuel, Discover publisher service providerIDs fuel ws c =
     Return (if bool_decide (0 ≤ rounds < Z.of_nat fuel)%Z then Some [] else None)) as Hd.
  { intros f. unfold Discover. destruct (prologue providerIDs (ws 0) c) as [c1 ss] eqn:Hp.
    assert (discoverTimeout c1 = discoverTimeout c ∧ checkIntervalMS c1 = checkIntervalMS c) as [-> ->].
    { unfold prologue in Hp. destruct (bool_decide _); [by simplify_eq|]. destruct c. by simplify_eq/=. }
    rewrite silent_loop by done. done. }
  split; [apply Hd|]. intros Hneg Hlt. rewrite Hd.
  assert (rounds = 0%Z) as ->; [|done]. unfold rounds.
  replace (discoverTimeout c * 1000)%Z with (- (- discoverTimeout c * 1000))%Z by lia.
  rewrite Z.quot_opp_l, Z.quot_small by lia. done.
Qed.

#[local] Arguments findNetwork : simpl never.

(** A round of a client of the node's scope whose one candidate has been tried *)
Lemma tried_round `{GoRange} publisher service w c s addr :
  expected publisher service [] = 1%Z → scope c = ScopeOS →
  lookupServiceUDSAnon publisher service (w_unix w) = [addr] → entries (w_dir w) = None →
  fromUDSAddr addr = Return (publisher, service) →
  (service_key publisher service (str "self") ∈ serviceList s ∨ w_dial w addr = false) →
  ∃ tried, service_key publisher service (str "self") ∈ tried ∧
    round publisher service [] true w c 0 s = Return (false, 0%Z, mkSearch tried (connections s), c).
Proof.
  intros He Hsc Hl Hd Haddr Htry. unfold round. rewrite He. cbn [Z.sub Z.add].
  unfold findWithinOS, anon_candidates. rewrite Hsc, Hl.
  change (true && has_scope ScopeOS ScopeProcess) with false.
  change (has_scope ScopeOS ScopeOS) with true. cbn [negb orb].
  cbn [mbind outcome_bind fmap list_fmap try_each cand_key cand_conn]. rewrite Haddr.
  cbn [mbind outcome_bind].
  assert (lookupServiceUDSDir (w_self w) publisher service [] (w_dir w) = Return []) as Hdir
    by (unfold lookupServiceUDSDir; by rewrite Hd).
  assert (∀ s', findNetwork publisher service [] c 1 w s' = (0%Z, s', c)) as Hnet.
  { intros s'. unfold findNetwork. rewrite Hsc. change (has_scope ScopeOS ScopeLAN) with false.
    change (has_scope ScopeOS ScopeWAN) with false. by rewrite !andb_false_r. }
  destruct (bool_decide_reflect (service_key publisher service (str "self") ∈ serviceList s)) as [Hin|Hout].
  - exists (serviceList s). split; [done|]. cbn [mbind outcome_bind]. rewrite Hdir.
    cbn [mbind outcome_bind dir_candidates fmap list_fmap try_each]. cbn. rewrite Hnet. by destruct s.
  - destruct Htry as [?|Hdial]; [done|].
    exists ({[service_key publisher service (str "self")]} ∪ serviceList s). split; [set_solver|].
    unfold dial_uds. rewrite Hdial. cbn [mbind outcome_bind]. rewrite Hdir.
    cbn [mbind outcome_bind dir_candidates fmap list_fmap try_each]. cbn. by rewrite Hnet.
Qed.

(** A service that cannot be dialed the first time it is seen is noted as
    tried all the same: [Discover] goes on with its rounds but never dials it
    again, and ends as if nothing had been found, however long the service has
    been up. *)
Theorem failed_dial_never_retried `{GoRange} publisher service fuel ws c addr :
  Contains (publisher ++ service) (str "*") = false → scope c = ScopeOS →
  (∀ i, lookupServiceUDSAnon publisher service (w_unix (ws i)) = [addr] ∧ entries (w_dir (ws i)) = None) →
  fromUDSAddr addr = Return (publisher, service) →
  w_dial (ws 0) addr = false →
  let rounds := Z.quot (discoverTimeout c * 1000) (checkIntervalMS c) in
  Discover publisher service [] fuel ws c =
    Return (if bool_decide (0 ≤ rounds < Z.of_nat fuel)%Z then Some [] else None).
Proof.
  intros Hw Hsc Hws Haddr Hdial rounds.
  assert (expected publisher service [] = 1%Z) as He by (unfold expected; by rewrite Hw).
  unfold Discover, prologue. rewrite bool_decide_eq_true_2 by done. fold rounds. generalize rounds. clear rounds.
  assert (∀ fuel i t s, connections s = [] →
    (service_key publisher service (str "self") ∈ serviceList s ∨ w_dial (ws i) addr = false) →
    discover_loop publisher service [] fuel true ws i t 0 c s =
    Return (if bool_decide (0 ≤ t < Z.of_nat fuel)%Z then Some [] else None)) as Hloop; [|intros t; by apply Hloop; [|right]].
  clear fuel. induction fuel as [|fuel IH]; intros i t s Hs Htry.
  { by rewrite bool_decide_eq_false_2 by lia. }
  cbn [discover_loop]. rewrite bool_decide_eq_true_2 by done.
  destruct (tried_round publisher service (ws i) c s addr) as (tried & Hin & ->); [done|done|apply Hws..|done|done|].
  cbn [mbind outcome_bind orb connections]. destruct (bool_decide_reflect (t = 0%Z)) as [->|Hne].
  { rewrite bool_decide_eq_true_2 by lia. by rewrite Hs. }
  rewrite IH by (done || by left).
  by rewrite (bool_decide_ext (0 ≤ t - 1 < Z.of_nat fuel)%Z (0 ≤ t < Z.of_nat (S fuel))%Z) by lia.
Qed.

(** ** Witnesses *)

Definition no_dir : udsDir := mkUdsDir None (λ _, []) (λ _, StatNotExist).
Definition quiet_world : world :=
  mkWorld ∅ None no_dir None (λ _ _, None) None (λ _ _ _, None) (λ _, false) (λ _, None) (λ l, l) (λ l, l).

Definition proc_net_unix : bytes :=
  str "Num RefCount Protocol Flags Type St Inode Path" ++ ["010"%char] ++
  str "0000: 00000002 00000000 00010000 0001 01 101 @adaptiveservice/org_echo.sock" ++ ["010"%char].

(** A node with the service "org_echo", in the process and as a socket that is
    up from round [n] on *)
Definition echo_world (n i : nat) : world :=
  mkWorld {[str "org_echo" := mkChan (str "org") (str "echo")]} (Some proc_net_unix) no_dir None (λ _ _, None) None
    (λ _ _ _, None) (λ _, bool_decide (n ≤ i)) (λ _, None) (λ l, l) (λ l, l).

(** A registry of the local network that knows one service *)
Definition far_echo : ServiceInfo := mkServiceInfo (str "org") (str "echo") (str "idB") (str "10.0.0.2:4000").
Definition lan_world : world :=
  mkWorld ∅ (Some proc_net_unix) no_dir None
    (λ p s, Some (filter (λ si, WildcardMatch (toPublisherServiceName p s) (toPublisherServiceName (Publisher si) (Service si))) [far_echo]))
    None (λ _ _ _, None) (λ _, true) (λ _, None) (λ l, l) (λ l, l).


Lemma discover_in_process_witness :
  Discover (str "org") (str "echo") [] 1 (echo_world 0) (NewClient []) =
  Return (Some [ChanConn (mkChan (str "org") (str "echo"))]).
Proof. apply discover_in_process; vm_compute; reflexivity. Defined.

(** The default time out of -1 with an interval of two seconds: one round *)
Lemma discover_rounds_witness :
  let c := SetCheckInterval 2000 (NewClient []) in
  discoverTimeout c = (-1)%Z ∧
  Discover (str "org") (str "echo") [] 1 (λ _, quiet_world) c = Return (Some []) ∧
  Discover (str "org") (str "echo") [] 50 (λ _, quiet_world) (NewClient []) = Return None.
Proof.
  assert (∀ i : nat, silent ((λ _ : nat, quiet_world) i)) as Hq.
  { intros i. repeat split; intros; reflexivity. }
  split; [reflexivity|]. split.
  - apply (proj2 (discover_rounds (str "org") (str "echo") [] 1 (λ _, quiet_world)
      (SetCheckInterval 2000 (NewClient [])) Hq)); reflexivity.
  - apply (proj1 (discover_rounds (str "org") (str "echo") [] 50 (λ _, quiet_world) (NewClient []) Hq)).
Defined.

(** A wait of ten seconds for a socket that is up from the second round on *)
Lemma failed_dial_never_retried_witness :
  Discover (str "org") (str "echo") [] 20 (echo_world 1)
    (SetDiscoverTimeout 10 (NewClient [WithScope ScopeOS])) = Return (Some []).
Proof.
  apply (failed_dial_never_retried (str "org") (str "echo") 20 (echo_world 1)
    (SetDiscoverTimeout 10 (NewClient [WithScope ScopeOS])) (str "@adaptiveservice/org_echo.sock")).
  - vm_compute. reflexivity.
  - reflexivity.
  - intros i. split; [vm_compute; reflexivity|reflexivity].
  - vm_compute. reflexivity.
  - vm_compute. reflexivity.
Defined.
