(* ===== verification/LANNet.v ===== *)
(** The registries of a local network (lanregistry_svc.go, registry.go): the handlers
    of the LANRegistry service and the loops of the hosts, joined by a network that
    loses, repeats and reorders datagrams, while hosts stop, crash and start again.  A
    datagram is the bytes of a packet, of which [readConn] keeps the first 512. *)
From S2P Require Import Prelude GoStrings Wildcard Names RootRegistry Lookup Client LANRegistry LANLife.

(** ** A host *)

(** Its loop while it runs; the commands handlers wait to hand to it; the timers of
    the queries it took; the answers in the channels of the queries; the query each
    channel was made for; the cache of answers; the record file *)
Record host := mkHost {
  loop : option registryLAN;
  cmdChan : list command;
  timers : list (bytes * nat);
  ready : list (nat * list ServiceInfo);
  asked : gmap nat (bytes * bytes);
  answers : infoCache;
  record : option bytes;
}.

Definition down (file : option bytes) : host := mkHost None [] [] [] ∅ ∅ file.

(** [regServiceInLAN.Handle] and [delServiceInLAN.Handle] *)
Definition put_cmd (c : command) (h : host) : host :=
  let '(mkHost r cs t rd a an f) := h in mkHost r (cs ++ [c]) t rd a an f.
Definition regServiceInLAN_Handle (publisher service port : bytes) (h : host) : host * option reply :=
  (put_cmd (registerServiceInLAN publisher service port) h, Some ReplyOK).
Definition delServiceInLAN_Handle (publisher service : bytes) (h : host) : host * option reply :=
  (put_cmd (deleteServiceInLAN publisher service) h, None).

(** [queryServiceInLAN.Handle] up to its waiting on the channel [ch] it made, and from
    its receiving [si] on *)
Definition queryServiceInLAN_Handle (now : Z) (publisher service : bytes) (ch : nat) (h : host) :
    host * option (list ServiceInfo) :=
  let '(mkHost r cs t rd a an f) := h in
  let '(an, answer) := cached_answer now publisher service an in
  match answer with
  | Some si => (mkHost r cs t rd a an f, Some si)
  | None => (mkHost r (cs ++ [cmdLANQuery (toPublisherServiceName publisher service) ch]) t rd
               (<[ch := (publisher, service)]> a) an f, None)
  end.
Definition queryServiceInLAN_resume (now : Z) (publisher service : bytes) (si : list ServiceInfo) (h : host) : host :=
  let '(mkHost r cs t rd a an f) := h in mkHost r cs t rd a (keep_answer now publisher service si an) f.

(** ** The network *)

(** A datagram: its sender, its bytes, and the address it is sent to ([None] for a
    broadcast) *)
Record datagram := mkDatagram { dg_from : nat; dg_bytes : bytes; dg_to : option bytes }.

(** The hosts and what was ever sent; and what happened: the names and ports
    registered at a host, the provider IDs of its registries, and the answers of the
    handlers of queries *)
Record lan := mkNet {
  clock : Z;
  hosts : gmap nat host;
  packets : list datagram;
  registered : list (nat * bytes * bytes);
  ids : list (nat * bytes);
  given : list (nat * bytes * bytes * list ServiceInfo);
}.

(** What a round of a loop does to its host and to the network *)
Definition apply_effect `{PacketCodec} (i : nat) (acc : host * list datagram) (e : effect) : host * list datagram :=
  let '(mkHost r cs t rd a an f, sent) := acc in
  match e with
  | Broadcast name => (mkHost r cs t rd a an f, sent ++ [mkDatagram i (Marshal (queryInLAN name)) None])
  | AfterFunc name ch => (mkHost r cs (t ++ [(name, ch)]) rd a an f, sent)
  | Answer ch infos => (mkHost r cs t (rd ++ [(ch, infos)]) a an f, sent)
  | ReplyTo msg raddr => (mkHost r cs t rd a an f, sent ++ [mkDatagram i (Marshal msg) (Some raddr)])
  | WriteRecord file => (mkHost r cs t rd a an (Some file), sent)
  end.

Section net.
Context `{GoRange} `{PacketCodec}.

(** The addresses of the hosts, and the port the registries listen on *)
Variable ips : nat → list bytes.
Variable bport : bytes.

(** A datagram reaches a host it is addressed to. *)
Definition reaches (d : datagram) (i : nat) : Prop :=
  match dg_to d with None => True | Some raddr => host_of raddr ∈ ips i end.

(** What may wake up the loop of a host, with what is left of the host *)
Inductive offers (N : lan) (i : nat) : host → event → host → Prop :=
| offers_cmd r l c l' t rd a an f sent :
    offers N i (mkHost r (l ++ c :: l') t rd a an f) (EvCmd c sent) (mkHost r (l ++ l') t rd a an f)
| offers_timer r cs l name ch l' rd a an f :
    offers N i (mkHost r cs (l ++ (name, ch) :: l') rd a an f) (EvDelay name ch) (mkHost r cs (l ++ l') rd a an f)
| offers_tick h dial : offers N i h (EvTick dial) h
| offers_packet h d ip msg : d ∈ packets N → reaches d i → ip ∈ ips (dg_from d) →
    read_packet (dg_bytes d) = Return msg →
    offers N i h (EvPacket msg (ip ++ ":"%char :: bport)) h.

Definition set_loop (r : option registryLAN) (h : host) : host :=
  let '(mkHost _ cs t rd a an f) := h in mkHost r cs t rd a an f.
Definition set_host (i : nat) (h : host) (N : lan) : lan :=
  let '(mkNet c hs ps rs ks gs) := N in mkNet c (<[i := h]> hs) ps rs ks gs.
Definition give (i : nat) (publisher service : bytes) (si : list ServiceInfo) (N : lan) : lan :=
  let '(mkNet c hs ps rs ks gs) := N in mkNet c hs ps rs ks (gs ++ [(i, publisher, service, si)]).

(** The names services are published under, and their ports *)
Definition registrable (publisher service port : bytes) : Prop :=
  underscore ∉ publisher ∧ underscore ∉ service ∧ word (toPublisherServiceName publisher service) ∧ word port.

Inductive lan_net_step (N : lan) : lan → Prop :=
| net_time now : (clock N ≤ now)%Z →
    lan_net_step N (let '(mkNet _ hs ps rs ks gs) := N in mkNet now hs ps rs ks gs)
| net_register i h publisher service port : hosts N !! i = Some h → registrable publisher service port →
    lan_net_step N
      (let '(mkNet c hs ps rs ks gs) := set_host i (regServiceInLAN_Handle publisher service port h).1 N in
       mkNet c hs ps (rs ++ [(i, toPublisherServiceName publisher service, port)]) ks gs)
| net_delete i h publisher service : hosts N !! i = Some h →
    lan_net_step N (set_host i (delServiceInLAN_Handle publisher service h).1 N)
| net_query i h publisher service ch h' answer : hosts N !! i = Some h → asked h !! ch = None →
    queryServiceInLAN_Handle (clock N) publisher service ch h = (h', answer) →
    lan_net_step N match answer with Some si => give i publisher service si (set_host i h' N) | None => set_host i h' N end
| net_resume i r cs t l ch si l' a an f publisher service :
    hosts N !! i = Some (mkHost r cs t (l ++ (ch, si) :: l') a an f) → a !! ch = Some (publisher, service) →
    lan_net_step N (give i publisher service si
      (set_host i (queryServiceInLAN_resume (clock N) publisher service si (mkHost r cs t (l ++ l') a an f)) N))
| net_round i h r e h' r' effs : hosts N !! i = Some h → loop h = Some r → offers N i h e h' →
    lan_step (clock N) e r = Return (r', effs) →
    lan_net_step N
      (let '(h'', sent) := foldl (apply_effect i) (set_loop (Some r') h', []) effs in
       let '(mkNet c hs ps rs ks gs) := set_host i h'' N in mkNet c hs (ps ++ sent) rs ks gs)
| net_stop i h r created r' effs : hosts N !! i = Some h → loop h = Some r →
    lan_step (clock N) (EvDone created) r = Return (r', effs) →
    lan_net_step N (set_host i (down (record (foldl (apply_effect i) (h, []) effs).1)) N)
| net_crash i h : hosts N !! i = Some h → lan_net_step N (set_host i (down (record h)) N)
| net_start i file pID : hosts N !! i = Some (down file) →
    lan_net_step N
      (let '(mkNet c hs ps rs ks gs) :=
         set_host i (mkHost (Some (start_lan pID (clock N) file)) [] [] [] ∅ ∅ None) N in
       mkNet c hs ps rs (ks ++ [(i, pID)]) gs).

(** No datagram is longer than the buffer it is read into. *)
Definition uncut (N : lan) : Prop := ∀ d, d ∈ packets N → fits (dg_bytes d).

(** Hosts none of which runs a registry yet *)
Definition quiet_net (now : Z) (n : nat) : lan :=
  mkNet now (list_to_map ((λ i, (i, down None)) <$> seq 0 n)) [] [] [] [].
End net.

(** ** What is known of the hosts of a network *)

Section invariant.
Context `{GoRange} `{PacketCodec} (ips : nat → list bytes) (bport : bytes).
Context (Hips : ∀ i ip, ip ∈ ips i → plain_host ip) (Hbport : plain_host bport).

Section facts.
Context (rs : list (nat * bytes * bytes)) (ks : list (nat * bytes)).

(** A host with this provider ID registered the name at the port of the address. *)
Definition provided (name pID addr : bytes) : Prop :=
  ∃ j port ip, (j, name, port) ∈ rs ∧ (j, pID) ∈ ks ∧ ip ∈ ips j ∧ addr = ip ++ str ":" ++ port.

Definition answer_ok (query : bytes) (infos : list ServiceInfo) : Prop :=
  ∀ si, si ∈ infos → let name := toPublisherServiceName (Publisher si) (Service si) in
    glob query name ∧ provided name (ProviderID si) (Addr si).

Definition loop_ok (now : Z) (i : nat) (r : registryLAN) : Prop :=
  ∃ own t, lan_implements own now r t ∧ (i, own) ∈ ks ∧
    (∀ n lsi, sp_local t !! n = Some lsi → (i, n, lsi_port lsi) ∈ rs) ∧
    (∀ n pID x, sp_found t !! (n, pID) = Some x → provided n pID (addr x)).

(** The channel [ch] was made for the query [name]. *)
Definition asked_for (a : gmap nat (bytes * bytes)) (name : bytes) (ch : nat) : Prop :=
  ∃ p s, a !! ch = Some (p, s) ∧ name = toPublisherServiceName p s.

Definition cmd_ok (i : nat) (a : gmap nat (bytes * bytes)) (c : command) : Prop :=
  match c with
  | cmdLANRegister n port => (i, n, port) ∈ rs
  | cmdLANDelete _ => True
  | cmdLANQuery name ch => asked_for a name ch
  end.

Definition record_ok (i : nat) (file : bytes) : Prop :=
  ∃ t, file = local_record t ∧ ∀ n lsi, t !! n = Some lsi → (i, n, lsi_port lsi) ∈ rs.

Definition packet_ok (j : nat) (msg : packet) : Prop :=
  match msg with
  | queryInLAN _ => True
  | foundInLAN n pID port => (j, n, port) ∈ rs ∧ (j, pID) ∈ ks
  | unknownPacket => False
  end.

(** What a host sent *)
Definition datagram_ok (d : datagram) : Prop := ∃ msg, dg_bytes d = Marshal msg ∧ packet_ok (dg_from d) msg.

Definition event_ok (i : nat) (a : gmap nat (bytes * bytes)) (e : event) : Prop :=
  match e with
  | EvCmd c _ => cmd_ok i a c
  | EvDelay name ch => asked_for a name ch
  | EvPacket msg raddr => ∃ j ip, packet_ok j msg ∧ ip ∈ ips j ∧ raddr = ip ++ ":"%char :: bport
  | _ => True
  end.

Definition effect_ok (i : nat) (a : gmap nat (bytes * bytes)) (e : effect) : Prop :=
  match e with
  | Broadcast _ => True
  | AfterFunc name ch => asked_for a name ch
  | Answer ch infos => ∃ name, asked_for a name ch ∧ answer_ok name infos
  | ReplyTo msg _ => packet_ok i msg
  | WriteRecord file => record_ok i file
  end.

Record host_ok (now : Z) (i : nat) (h : host) : Prop := mkHostOk {
  ho_loop r : loop h = Some r → loop_ok now i r;
  ho_cmds c : c ∈ cmdChan h → cmd_ok i (asked h) c;
  ho_timers name ch : (name, ch) ∈ timers h → asked_for (asked h) name ch;
  ho_ready ch infos : (ch, infos) ∈ ready h → ∃ name, asked_for (asked h) name ch ∧ answer_ok name infos;
  ho_answers name t si : answers h !! name = Some (t, si) → answer_ok name si;
  ho_record file : record h = Some file → record_ok i file;
}.

Definition words_ok : Prop := ∀ i n port, (i, n, port) ∈ rs → well_named n ∧ word n ∧ word port.
End facts.

Record net_ok (N : lan) : Prop := mkNetOk {
  no_words : words_ok (registered N);
  no_hosts i h : hosts N !! i = Some h → host_ok (registered N) (ids N) (clock N) i h;
  no_packets d : d ∈ packets N → datagram_ok (registered N) (ids N) d;
  no_given i p s si : (i, p, s, si) ∈ given N → answer_ok (registered N) (ids N) (toPublisherServiceName p s) si;
}.

(** ** More is only ever registered *)

Section mono.
Context (rs rs' : list (nat * bytes * bytes)) (ks ks' : list (nat * bytes)).
Context (Hrs : rs ⊆ rs') (Hks : ks ⊆ ks').

Lemma provided_mono n pID addr : provided rs ks n pID addr → provided rs' ks' n pID addr.
Proof. intros (j & port & ip & ? & ? & ? & ?). exists j, port, ip. auto. Qed.

Lemma answer_ok_mono q infos : answer_ok rs ks q infos → answer_ok rs' ks' q infos.
Proof. intros Ha si [? ?]%Ha. split; [done|by apply provided_mono]. Qed.

Lemma loop_ok_mono now now' i r : (now ≤ now')%Z → loop_ok rs ks now i r → loop_ok rs' ks' now' i r.
Proof.
  intros Hle (own & t & Hi & Ho & Hl & Hf). exists own, t. split; [by eapply lan_implements_later|].
  split; [auto|]. split; [intros n lsi ?; auto|]. intros n pID x ?. by eapply provided_mono, Hf.
Qed.

Lemma cmd_ok_mono i a c : cmd_ok rs i a c → cmd_ok rs' i a c.
Proof. destruct c; simpl; auto. Qed.
Lemma record_ok_mono i file : record_ok rs i file → record_ok rs' i file.
Proof. intros (t & -> & Ht). exists t. split; [done|]. intros n lsi ?. by apply Hrs, Ht. Qed.
Lemma packet_ok_mono j msg : packet_ok rs ks j msg → packet_ok rs' ks' j msg.
Proof. destruct msg; simpl; [done| |done]. intros [??]. auto. Qed.
Lemma datagram_ok_mono d : datagram_ok rs ks d → datagram_ok rs' ks' d.
Proof. intros (msg & Hb & Hok). exists msg. split; [done|by apply packet_ok_mono]. Qed.

Lemma host_ok_mono now now' i h : (now ≤ now')%Z → host_ok rs ks now i h → host_ok rs' ks' now' i h.
Proof.
  intros Hle [H1 H2 H3 H4 H5 H6]. split.
  - intros r Hr. by eapply loop_ok_mono, H1.
  - intros c Hc. by apply cmd_ok_mono, H2.
  - done.
  - intros ch infos (name & ? & ?)%H4. exists name. split; [done|by apply answer_ok_mono].
  - intros name t si Ha. by eapply answer_ok_mono, H5.
  - intros file Hf. by apply record_ok_mono, H6.
Qed.
End mono.

(** ** A round of a loop *)

Section round.
Context (rs : list (nat * bytes * bytes)) (ks : list (nat * bytes)) (Hwords : words_ok rs).

Lemma packet_named j n pID port : packet_ok rs ks j (foundInLAN n pID port) → well_named n.
Proof. intros [Hr _]. by apply Hwords in Hr as [? _]. Qed.

Lemma event_named i a e : event_ok rs ks i a e → well_named_event e.
Proof.
  destruct e as [| | |[|n pID port|] raddr|]; try done. intros (j & ip & Hp & _). by eapply packet_named.
Qed.

(** The abstract registry of a loop goes on holding what was registered. *)
Lemma spec_lan_ok now i a own e t : event_ok rs ks i a e →
  (∀ n lsi, sp_local t !! n = Some lsi → (i, n, lsi_port lsi) ∈ rs) →
  (∀ n pID x, sp_found t !! (n, pID) = Some x → provided rs ks n pID (addr x)) →
  (∀ n lsi, sp_local (spec_lan own now e t) !! n = Some lsi → (i, n, lsi_port lsi) ∈ rs) ∧
  (∀ n pID x, sp_found (spec_lan own now e t) !! (n, pID) = Some x → provided rs ks n pID (addr x)).
Proof.
  destruct t as [local found]. intros He Hl Hf. simpl in Hl, Hf.
  destruct e as [[name port|name|] sent| |dial|[|name pID port|] raddr|]; simpl in *; try done.
  - split; [|done]. intros n lsi [[<- <-]|[_ ?]]%lookup_insert_Some; [done|by apply Hl].
  - split; [intros n lsi [_ ?]%lookup_delete_Some; by apply Hl|]. intros n pID x [_ ?]%lookup_delete_Some. by eapply Hf.
  - split; [|intros n pID x [? _]%map_lookup_filter_Some; by eapply Hf].
    intros n lsi. rewrite lookup_omap. intros (old & Hold & Hk)%bind_Some. unfold tick_keep in Hk.
    assert (lsi_port lsi = lsi_port old) as -> by (destruct (dial _); [by injection Hk as <-|];
      destruct (bool_decide _); [done|by injection Hk as <-]). by apply Hl.
  - split; [done|]. destruct He as (j & ip & [Hr Hk] & Hip & ->).
    intros n pID' x [[[= <- <-] <-]|[_ ?]]%lookup_insert_Some; [|by eapply Hf].
    exists j, port, ip. split; [done|]. split; [done|]. split; [done|]. simpl. by rewrite (host_of_plain ip bport (Hips j ip Hip) Hbport).
Qed.

Lemma spec_answers_ok now t query infos :
  (∀ n pID x, sp_found t !! (n, pID) = Some x → provided rs ks n pID (addr x)) →
  spec_answers now t query infos → answer_ok rs ks query infos.
Proof.
  intros Hf [_ Hel] si (n & pID & x & Hx & _ & Hq & (-> & _ & _ & -> & <-))%Hel. split; [done|by apply Hf].
Qed.

Lemma found_replies_ok now i r query raddr : loop_ok rs ks now i r →
  Forall (effect_ok rs ks i ∅) (found_replies r query raddr).
Proof.
  intros (own & t & Hi & Ho & Hl & _). apply Forall_forall. intros eff (n & lsi & Hn & _ & ->)%elem_of_found_replies.
  simpl. rewrite (li_own _ _ _ _ Hi). split; [|done]. apply Hl. by rewrite <- (li_local _ _ _ _ Hi).
Qed.

(** A loop does not panic, and what it does is right. *)
Lemma loop_round now i a r e : loop_ok rs ks now i r → event_ok rs ks i a e →
  ∃ r' effs, lan_step now e r = Return (r', effs) ∧ loop_ok rs ks now i r' ∧ Forall (effect_ok rs ks i a) effs.
Proof.
  intros Hr He. pose proof Hr as (own & t & Hi & Ho & Hl & Hf).
  destruct (lan_step_implements own now e r t Hi (event_named i a e He)) as (r' & effs & Hstep & Hi').
  destruct (spec_lan_ok now i a own e t He Hl Hf) as [Hl' Hf'].
  exists r', effs. split; [done|]. split; [by exists own, (spec_lan own now e t)|].
  destruct e as [[name port|name|name ch] sent|name ch|dial|[query|name pID port|] raddr|created]; simpl in Hstep.
  - by injection Hstep as _ <-.
  - by injection Hstep as _ <-.
  - injection Hstep as _ <-. destruct sent; [|done]. apply Forall_cons. split; [done|]. apply Forall_singleton. exact He.
  - destruct (lan_query own now r t name Hi) as (cache & infos & Hg & Ha & _). rewrite Hg in Hstep. injection Hstep as _ <-.
    apply Forall_singleton. exists name. split; [exact He|exact (spec_answers_ok now t name infos Hf Ha)].
  - by injection Hstep as _ <-.
  - injection Hstep as _ <-. eapply Forall_impl; [exact (found_replies_ok now i r query raddr Hr)|].
    intros [] Hok; simpl in *; try done.
    + destruct Hok as (? & ? & Hx & _). by rewrite lookup_empty in Hx.
    + destruct Hok as (? & (? & ? & Hx & _) & _). by rewrite lookup_empty in Hx.
  - by injection Hstep as _ <-.
  - by injection Hstep as _ <-.
  - injection Hstep as _ <-. destruct created; [|done]. apply Forall_singleton.
    exists (localServiceTable r). split; [done|]. by rewrite (li_local _ _ _ _ Hi).
Qed.

(** What it does leaves its host right, and what it sends is. *)
Lemma apply_effect_ok now i h sent e : host_ok rs ks now i h → effect_ok rs ks i (asked h) e →
  Forall (datagram_ok rs ks) sent →
  let '(h', sent') := apply_effect i (h, sent) e in
  host_ok rs ks now i h' ∧ asked h' = asked h ∧ Forall (datagram_ok rs ks) sent'.
Proof.
  destruct h as [r cs t rd a an f]. intros [H1 H2 H3 H4 H5 H6] He Hs. simpl in *.
  destruct e as [name|name ch|ch infos|msg raddr|file]; simpl in *; (split; [|split; [done|]]); try done.
  - apply Forall_app. split; [done|]. apply Forall_singleton. by exists (queryInLAN name).
  - split; simpl; try done. intros n c [?|[= -> ->]%list_elem_of_singleton]%elem_of_app; [by apply H3|done].
  - split; simpl; try done. intros c si [?|[= -> ->]%list_elem_of_singleton]%elem_of_app; [by apply H4|done].
  - apply Forall_app. split; [done|]. apply Forall_singleton. by exists msg.
  - split; simpl; try done. by intros file' [= <-].
Qed.

Lemma apply_effects_ok now i h sent effs : host_ok rs ks now i h → Forall (effect_ok rs ks i (asked h)) effs →
  Forall (datagram_ok rs ks) sent →
  let '(h', sent') := foldl (apply_effect i) (h, sent) effs in
  host_ok rs ks now i h' ∧ Forall (datagram_ok rs ks) sent'.
Proof.
  intros Hh He Hs. revert h sent Hh He Hs. induction effs as [|e effs IH]; intros h sent Hh He Hs; [done|].
  apply Forall_cons in He as [He Heffs]. cbn [foldl].
  pose proof (apply_effect_ok now i h sent e Hh He Hs) as Hok. destruct (apply_effect i (h, sent) e) as [h1 sent1].
  destruct Hok as (Hh1 & Ha & Hs1). apply IH; [done| |done]. by rewrite Ha.
Qed.
End round.

(** ** A step of the network *)

(** What a host reads is a packet that was sent. *)
Lemma packet_read rs ks d : datagram_ok rs ks d → fits (dg_bytes d) →
  ∃ msg, read_packet (dg_bytes d) = Return msg ∧ packet_ok rs ks (dg_from d) msg.
Proof.
  intros (msg & -> & Hok) Hf. exists msg. split; [|done]. apply read_whole; [|done]. by intros ->.
Qed.

(** What wakes up a loop is right, and so is what is left. *)
Lemma offers_ok N i h e h' : net_ok N → uncut N → host_ok (registered N) (ids N) (clock N) i h → offers ips bport N i h e h' →
  event_ok (registered N) (ids N) i (asked h) e ∧
  asked h' = asked h ∧ host_ok (registered N) (ids N) (clock N) i h'.
Proof.
  intros HN Hcut Hh. destruct 1 as [r l c l' t rd a an f sent|r cs l name ch l' rd a an f|h dial|h d ip msg Hd _ Hip Hread].
  - destruct Hh as [H1 H2 H3 H4 H5 H6]. simpl in *. split; [apply H2; set_solver|]. split; [done|].
    split; simpl; try done. intros c' Hc'. apply H2. set_solver.
  - destruct Hh as [H1 H2 H3 H4 H5 H6]. simpl in *. split; [apply H3; set_solver|]. split; [done|].
    split; simpl; try done. intros n c' Hc'. apply H3. set_solver.
  - done.
  - split; [|done]. destruct (packet_read _ _ d (no_packets N HN d Hd) (Hcut d Hd)) as (msg' & Hread' & Hok).
    rewrite Hread in Hread'. injection Hread' as <-. by exists (dg_from d), ip.
Qed.

Lemma set_loop_ok rs ks now i r h : loop_ok rs ks now i r → host_ok rs ks now i h → host_ok rs ks now i (set_loop (Some r) h).
Proof. destruct h. intros Hr [H1 H2 H3 H4 H5 H6]. split; try done. by intros r' [= <-]. Qed.

(** A change of one host, with what it sends, registers and answers *)
Lemma net_ok_change N N' i h : net_ok N → (clock N ≤ clock N')%Z → registered N ⊆ registered N' → ids N ⊆ ids N' →
  words_ok (registered N') → hosts N' = <[i := h]> (hosts N) → host_ok (registered N') (ids N') (clock N') i h →
  (∀ d, d ∈ packets N' → d ∈ packets N ∨ datagram_ok (registered N') (ids N') d) →
  (∀ j p s si, (j, p, s, si) ∈ given N' →
     (j, p, s, si) ∈ given N ∨ answer_ok (registered N') (ids N') (toPublisherServiceName p s) si) →
  net_ok N'.
Proof.
  intros [H1 H2 H3 H4] Hc Hr Hk Hw Hh Hi Hp Hg. split; [done| | |].
  - intros j h'. rewrite Hh. intros [[<- <-]|[_ Hj]]%lookup_insert_Some; [done|].
    eapply host_ok_mono; [exact Hr|exact Hk|exact Hc|by apply H2].
  - intros d [Hd|Hd]%Hp; [|done]. eapply datagram_ok_mono; [exact Hr|exact Hk|by apply H3].
  - intros j p s si [Hj|Hj]%Hg; [|done]. eapply answer_ok_mono; [exact Hr|exact Hk|by eapply H4].
Qed.

Lemma cached_answer_ok rs ks now p s cache : 
  (∀ name t si, cache !! name = Some (t, si) → answer_ok rs ks name si) →
  let '(cache', answer) := cached_answer now p s cache in
  (∀ name t si, cache' !! name = Some (t, si) → answer_ok rs ks name si) ∧
  ∀ si, answer = Some si → answer_ok rs ks (toPublisherServiceName p s) si.
Proof.
  intros Hc. unfold cached_answer. set (cache' := if bool_decide _ then _ else _).
  assert (Hc' : ∀ name t si, cache' !! name = Some (t, si) → answer_ok rs ks name si).
  { intros name t si. unfold cache'. destruct (bool_decide _); [by rewrite lookup_empty|apply Hc]. }
  clearbody cache'. split; [done|]. intros si.
  destruct (cache' !! _) as [[t si']|] eqn:Hl; [|done]. destruct (bool_decide _); [|done]. intros [= <-]. by eapply Hc'.
Qed.

(** A query that starts leaves its host right; its channel is a new one. *)
Lemma query_ok rs ks now i p s ch h : host_ok rs ks now i h → asked h !! ch = None →
  let '(h', answer) := queryServiceInLAN_Handle now p s ch h in
  host_ok rs ks now i h' ∧ ∀ si, answer = Some si → answer_ok rs ks (toPublisherServiceName p s) si.
Proof.
  destruct h as [r cs t rd a an f]. intros [H1 H2 H3 H4 H5 H6] Hch.
  cbn [loop cmdChan timers ready asked answers record] in *. unfold queryServiceInLAN_Handle.
  pose proof (cached_answer_ok rs ks now p s an H5) as Hc. destruct (cached_answer now p s an) as [an1 [si|]]; cbn beta iota zeta.
  { destruct Hc as [Hc1 Hc2]. split; [by split; try done|]. intros si' [= <-]. by apply Hc2. }
  split; [|done]. assert (Hmore : ∀ name c, asked_for a name c → asked_for (<[ch := (p, s)]> a) name c).
  { intros name c (p' & s' & Hl & ->). exists p', s'. split; [|done]. rewrite lookup_insert_ne; [done|]. intros <-. congruence. }
  split; simpl.
  - done.
  - intros c [Hc'| ->%list_elem_of_singleton]%elem_of_app.
    + apply H2 in Hc'. destruct c; simpl in *; auto.
    + exists p, s. by rewrite lookup_insert_eq.
  - intros name c Hn. apply Hmore. by apply H3.
  - intros c si (name & ? & ?)%H4. exists name. auto.
  - apply Hc.
  - done.
Qed.

Lemma start_lan_ok rs ks now i pID file : words_ok rs → (i, pID) ∈ ks → (∀ f, file = Some f → record_ok rs i f) →
  loop_ok rs ks now i (start_lan pID now file).
Proof.
  intros Hw Hk Hf. exists pID, (mkLanTable (localServiceTable (start_lan pID now file)) ∅).
  split; [by split|]. split; [done|]. split; [|done]. cbn [sp_local]. destruct file as [f|]; [|done].
  destruct (Hf f eq_refl) as (t & -> & Ht).
  assert (Hwords : map_Forall (λ n lsi, word n ∧ word (lsi_port lsi)) t)
    by (intros n lsi Hn; apply Ht, Hw in Hn; tauto).
  rewrite record_read by done. intros n lsi. rewrite lookup_fmap.
  intros (old & Hold & ->)%fmap_Some. exact (Ht n old Hold).
Qed.
(** A change of one host that registers nothing *)
Lemma net_ok_host N i h sent answers : net_ok N → host_ok (registered N) (ids N) (clock N) i h →
  Forall (datagram_ok (registered N) (ids N)) sent →
  (∀ j p s si, (j, p, s, si) ∈ answers → answer_ok (registered N) (ids N) (toPublisherServiceName p s) si) →
  net_ok (mkNet (clock N) (<[i := h]> (hosts N)) (packets N ++ sent) (registered N) (ids N) (given N ++ answers)).
Proof.
  intros HN Hi Hs Ha. apply (net_ok_change N _ i h HN); simpl; try done.
  - apply HN.
  - intros d [?|Hd]%elem_of_app; [by left|]. right. rewrite Forall_forall in Hs. by apply Hs.
  - intros j p s si [?|Hg]%elem_of_app; [by left|]. right. by eapply Ha.
Qed.

Lemma set_host_ok N i h : net_ok N → host_ok (registered N) (ids N) (clock N) i h → net_ok (set_host i h N).
Proof.
  intros HN Hi. pose proof (net_ok_host N i h [] [] HN Hi) as Hok. destruct N; simpl in *. rewrite !app_nil_r in Hok.
  apply Hok; [done|]. by intros j p s si ?%elem_of_nil.
Qed.

Lemma give_ok N i p s si : net_ok N → answer_ok (registered N) (ids N) (toPublisherServiceName p s) si →
  net_ok (give i p s si N).
Proof.
  intros [H1 H2 H3 H4] Ha. destruct N; split; simpl in *; try done.
  intros j p' s' si' [?|[= -> -> -> ->]%list_elem_of_singleton]%elem_of_app; [by eapply H4|done].
Qed.

Lemma put_cmd_ok rs ks now i c h : cmd_ok rs i (asked h) c → host_ok rs ks now i h → host_ok rs ks now i (put_cmd c h).
Proof.
  destruct h. intros Hc [H1 H2 H3 H4 H5 H6]. split; try done. simpl.
  intros c' [?| ->%list_elem_of_singleton]%elem_of_app; [by apply H2|done].
Qed.

Lemma down_ok rs ks now i f : (∀ file, f = Some file → record_ok rs i file) → host_ok rs ks now i (down f).
Proof. intros Hf. split; simpl; try done; by intros; exfalso; eapply not_elem_of_nil. Qed.

(** What was sent stays sent. *)
Lemma uncut_before N N' : lan_net_step ips bport N N' → uncut N' → uncut N.
Proof.
  intros Hstep Hcut d Hd. apply Hcut. revert Hd. destruct Hstep as [| | |? ? ? ? ? ? []| |? ? ? ? ? ? ?| | |]; destruct N; simpl; try done.
  destruct (foldl _ _ _) as [h'' sent]. simpl. intros ?. apply elem_of_app. by left.
Qed.

Lemma net_step_ok N N' : net_ok N → uncut N → lan_net_step ips bport N N' → net_ok N'.
Proof.
  intros HN Hcut Hstep. pose proof (no_hosts N HN) as Hh.
  destruct Hstep as [now Hle|i h p s port Hi (Hp1 & Hs1 & Hn & Hport)|i h p s Hi|i h p s ch h' answer Hi Hch Hq
    |i r cs t l ch si l' a an f p s Hi Hch|i h r e h' r' effs Hi Hr Ho Hround|i h r created r' effs Hi Hr Hround|i h Hi|i file pID Hi].
  - destruct N as [c hs ps rs ks gs], HN. split; try done. intros i h Hi. eapply host_ok_mono; [done|done|exact Hle|by apply Hh].
  - assert (Hsub : registered N ⊆ registered N ++ [(i, toPublisherServiceName p s, port)]) by set_solver.
    pose proof (no_words N HN) as Hw.
    destruct N as [c hs ps rs ks gs]; simpl in *. eapply (net_ok_change _ _ i); [exact HN|..]; simpl; try done; try (intros; by left).
    + intros j n po [?|[= -> -> ->]%list_elem_of_singleton]%elem_of_app; [by eapply Hw|].
      split; [|done]. exists p, s. by apply from_to_ok.
    + apply put_cmd_ok; [apply elem_of_app; right; by apply list_elem_of_singleton|].
      eapply host_ok_mono; [exact Hsub|done|done|by apply Hh].
  - apply set_host_ok; [done|]. apply put_cmd_ok; [done|by apply Hh].
  - pose proof (query_ok (registered N) (ids N) (clock N) i p s ch h (Hh i h Hi) Hch) as Hok. rewrite Hq in Hok.
    destruct Hok as [Hok Ha]. destruct answer as [si|]; [|by apply set_host_ok].
    apply give_ok; [by apply set_host_ok|]. destruct N. by apply Ha.
  - destruct (Hh _ _ Hi) as [H1 H2 H3 H4 H5 H6]; simpl in *.
    assert (Ha : answer_ok (registered N) (ids N) (toPublisherServiceName p s) si).
    { destruct (H4 ch si) as (name & (p' & s' & Hl & ->) & Ha); [set_solver|]. by simplify_eq. }
    apply give_ok; [|by destruct N]. apply set_host_ok; [done|]. split; simpl; try done.
    + intros c' infos Hc. apply H4. set_solver.
    + intros name t' si'. unfold keep_answer. intros [[<- [= _ <-]]|[_ ?]]%lookup_insert_Some; [done|by eapply H5].
  - destruct (offers_ok N i h e h' HN Hcut (Hh i h Hi) Ho) as (He & Hask & Hh').
    destruct (loop_round _ _ (no_words N HN) (clock N) i (asked h) r e (ho_loop _ _ _ _ _ (Hh i h Hi) r Hr) He)
      as (r1 & effs1 & Hround1 & Hr1 & Heffs). rewrite Hround in Hround1. injection Hround1 as <- <-.
    pose proof (apply_effects_ok (registered N) (ids N) (clock N) i (set_loop (Some r') h') [] effs) as Hok.
    destruct (foldl _ _ effs) as [h'' sent]. destruct Hok as [Hh'' Hsent].
    + by apply set_loop_ok.
    + destruct h'. simpl in *. by rewrite Hask.
    + done.
    + pose proof (net_ok_host N i h'' sent [] HN Hh'' Hsent) as Hok. destruct N; simpl in *. rewrite app_nil_r in Hok.
      apply Hok. by intros j p s si ?%elem_of_nil.
  - destruct (loop_round _ _ (no_words N HN) (clock N) i (asked h) r (EvDone created) (ho_loop _ _ _ _ _ (Hh i h Hi) r Hr) I)
      as (r1 & effs1 & Hround1 & Hr1 & Heffs). rewrite Hround in Hround1. injection Hround1 as <- <-.
    pose proof (apply_effects_ok (registered N) (ids N) (clock N) i h [] effs (Hh i h Hi) Heffs) as Hok.
    destruct (foldl _ _ effs) as [h'' sent]. destruct Hok as [Hh'' _]; [done|]. simpl.
    apply set_host_ok; [done|]. apply down_ok, Hh''.
  - apply set_host_ok; [done|]. apply down_ok. by apply Hh.
  - assert (Hsub : ids N ⊆ ids N ++ [(i, pID)]) by set_solver. pose proof (no_words N HN) as Hw.
    pose proof (ho_record _ _ _ _ _ (Hh _ _ Hi)) as Hf. simpl in Hf.
    destruct N as [c hs ps rs ks gs]; simpl in *. eapply (net_ok_change _ _ i); [exact HN|..]; simpl; try done; try (intros; by left).
    split; simpl; try done; try (by intros; exfalso; eapply not_elem_of_nil).
    intros r [= <-]. apply start_lan_ok; [done| |done]. apply elem_of_app. right. by apply list_elem_of_singleton.
Qed.
End invariant.

(** ** A query that is answered *)

Section answered.
Context `{GoRange} `{PacketCodec} (ips : nat → list bytes) (bport : bytes).
Context (Hips : ∀ i ip, ip ∈ ips i → plain_host ip) (Hbport : plain_host bport).
Abbreviation step := (lan_net_step ips bport).

Lemma foldl_effect_cons i h sent e effs :
  foldl (apply_effect i) (h, sent) (e :: effs) = foldl (apply_effect i) (apply_effect i (h, sent) e) effs.
Proof. done. Qed.

(** Replies change no host. *)
Lemma apply_replies i h sent effs : Forall (λ e, ∃ msg raddr, e = ReplyTo msg raddr) effs →
  ∃ sent', foldl (apply_effect i) (h, sent) effs = (h, sent') ∧
    (∀ d, d ∈ sent → d ∈ sent') ∧
    (∀ d, d ∈ sent' → d ∈ sent ∨ ∃ msg raddr, ReplyTo msg raddr ∈ effs ∧ dg_bytes d = Marshal msg) ∧ ∀ msg raddr, ReplyTo msg raddr ∈ effs → mkDatagram i (Marshal msg) (Some raddr) ∈ sent'.
Proof.
  intros He. revert sent. induction He as [|e effs (msg & raddr & ->) _ IH]; intros sent.
  { exists sent. split; [done|]. split; [done|]. split; [by left|]. by intros ? ? ?%elem_of_nil. }
  destruct (IH (sent ++ [mkDatagram i (Marshal msg) (Some raddr)])) as (sent' & Hf & Hs & Hb & Hr). exists sent'.
  rewrite foldl_effect_cons. destruct h. cbn [apply_effect]. split; [done|]. split.
  - intros d Hd. apply Hs, elem_of_app. by left.
  - split; [intros d [[?|Hd]%elem_of_app|(msg' & raddr' & ? & ?)]%Hb; [by left| |right; exists msg', raddr'; split; [by right|done]]|].
    { right. apply list_elem_of_singleton in Hd as ->. exists msg, raddr. split; [left|done]. }
    intros msg' raddr' [[= -> ->]|Hin]%elem_of_cons; [|by apply Hr].
    apply Hs, elem_of_app. right. by apply list_elem_of_singleton.
Qed.

Lemma found_replies_are r query raddr : Forall (λ e, ∃ msg raddr, e = ReplyTo msg raddr) (found_replies r query raddr).
Proof. apply Forall_forall. intros e (n & lsi & _ & _ & ->)%elem_of_found_replies. by eexists _, _. Qed.

(** A round, and what it changes *)
Lemma round_to N i h r e h' r' effs h'' sent : hosts N !! i = Some h → loop h = Some r → offers ips bport N i h e h' →
  lan_step (clock N) e r = Return (r', effs) → foldl (apply_effect i) (set_loop (Some r') h', []) effs = (h'', sent) →
  ∃ N', step N N' ∧ hosts N' = <[i := h'']> (hosts N) ∧ clock N' = clock N ∧ packets N' = packets N ++ sent.
Proof.
  intros Hi Hr Ho Hs Hf. pose proof (net_round ips bport N i h r e h' r' effs Hi Hr Ho Hs) as Hstep. rewrite Hf in Hstep.
  eexists. split; [exact Hstep|]. by destruct N.
Qed.

(** What is reached of a query at host [i]: its loop, and the timer of the query *)
Record taken (N : lan) (i : nat) (p s : bytes) (ch : nat) (r : registryLAN) : Prop := mkTaken {
  tk_host : ∃ cs l l' rd a an f,
    hosts N !! i = Some (mkHost (Some r) cs (l ++ (toPublisherServiceName p s, ch) :: l') rd a an f) ∧ a !! ch = Some (p, s);
}.

(** A query is taken: its handler asks the loop when the kept answer is too old, and
    the loop broadcasts. *)
Lemma query_taken N i h r p s : hosts N !! i = Some h → loop h = Some r →
  ∃ N' ch, rtc step N N' ∧ taken N' i p s ch r ∧ (∀ j, j ≠ i → hosts N' !! j = hosts N !! j) ∧
    packets N' = packets N ++ [mkDatagram i (Marshal (queryInLAN (toPublisherServiceName p s))) None].
Proof.
  intros Hi Hr. destruct h as [lo cs t rd a an f]. simpl in Hr. subst lo.
  set (late := match an !! toPublisherServiceName p s with Some (tm, _) => tm + 15 * 10 ^ 9 | None => clock N end%Z).
  set (now := Z.max (clock N) late). pose proof (net_time ips bport N now ltac:(lia)) as H1.
  set (N1 := let '(mkNet _ hs ps rs ks gs) := N in mkNet now hs ps rs ks gs) in H1.
  assert (Hi1 : hosts N1 !! i = Some (mkHost (Some r) cs t rd a an f)) by (by destruct N).
  assert (∃ ch, a !! ch = None) as [ch Hch] by (destruct (exist_fresh (dom a)) as [ch Hch]; exists ch; by apply not_elem_of_dom).
  assert (∃ an', queryServiceInLAN_Handle (clock N1) p s ch (mkHost (Some r) cs t rd a an f) =
    (mkHost (Some r) (cs ++ [cmdLANQuery (toPublisherServiceName p s) ch]) t rd (<[ch := (p, s)]> a) an' f, None)) as [an' Hq].
  { unfold queryServiceInLAN_Handle, cached_answer. assert (clock N1 = now) as -> by (by destruct N).
    destruct (bool_decide _); [rewrite lookup_empty; by eexists|]. unfold late in now.
    destruct (an !! toPublisherServiceName p s) as [[tm si]|]; [|by eexists].
    rewrite bool_decide_eq_false_2 by lia. by eexists. }
  pose proof (net_query ips bport N1 i _ p s ch _ _ Hi1 Hch Hq) as H2. cbv beta iota in H2.
  set (N2 := set_host _ _ N1) in H2.
  destruct (round_to N2 i (mkHost (Some r) (cs ++ [cmdLANQuery (toPublisherServiceName p s) ch]) t rd (<[ch := (p, s)]> a) an' f) r
    (EvCmd (cmdLANQuery (toPublisherServiceName p s) ch) true) _ r _ _ _
    ltac:(unfold N2; destruct N; apply lookup_insert_eq) eq_refl ltac:(apply (offers_cmd ips bport N2 i _ cs _ [])) eq_refl eq_refl)
    as (N3 & H3 & Hh3 & _ & Hp3).
  exists N3, ch. split; [|split; [|split]].
  - eapply rtc_l; [exact H1|]. eapply rtc_l; [exact H2|]. by apply rtc_once.
  - split. rewrite Hh3, lookup_insert_eq. eexists _, t, [], rd, _, an', f. split; [done|]. apply lookup_insert_eq.
  - intros j Hj. rewrite Hh3, lookup_insert_ne by done. unfold N2, N1. destruct N. simpl. by rewrite lookup_insert_ne.
  - rewrite Hp3. unfold N2, N1. by destruct N.
Qed.

(** A packet that reaches the host changes its loop at most. *)
Lemma packet_taken N i p s ch r d ip msg r' : taken N i p s ch r → d ∈ packets N → reaches ips d i → ip ∈ ips (dg_from d) →
  read_packet (dg_bytes d) = Return msg →
  lan_step (clock N) (EvPacket msg (ip ++ ":"%char :: bport)) r = Return (r', []) →
  ∃ N', step N N' ∧ clock N' = clock N ∧ packets N' = packets N ∧ taken N' i p s ch r'.
Proof.
  intros [(cs & l & l' & rd & a & an & f & Hi & Ha)] Hd Hreach Hip Hread Hs.
  destruct (round_to N i _ r _ _ r' [] _ _ Hi eq_refl (offers_packet ips bport N i _ d ip msg Hd Hreach Hip Hread) Hs eq_refl)
    as (N' & Hstep & Hh & Hc & Hp).
  exists N'. split; [done|]. split; [done|]. split; [by rewrite Hp, app_nil_r|]. split. eexists _, _, _, _, _, _, _. by rewrite Hh, lookup_insert_eq.
Qed.

(** What was sent from [N] to [N'] are replies of the loop [r]. *)
Definition replies_of (r : registryLAN) (N N' : lan) : Prop :=
  ∀ d, d ∈ packets N' → d ∈ packets N ∨ ∃ name lsi, localServiceTable r !! name = Some lsi ∧
    dg_bytes d = Marshal (foundInLAN name (LANRegistry.providerID r) (lsi_port lsi)).

(** A host replies to a query for a service of its own. *)
Lemma reply_sent N i ip j h r name lsi query : hosts N !! j = Some h → loop h = Some r →
  localServiceTable r !! name = Some lsi → glob query name →
  mkDatagram i (Marshal (queryInLAN query)) None ∈ packets N → fits (Marshal (queryInLAN query)) → ip ∈ ips i →
  ∃ N', step N N' ∧ hosts N' = hosts N ∧ clock N' = clock N ∧ replies_of r N N' ∧
    mkDatagram j (Marshal (foundInLAN name (LANRegistry.providerID r) (lsi_port lsi))) (Some (ip ++ ":"%char :: bport)) ∈ packets N'.
Proof.
  intros Hj Hr Hl Hg Hd Hfits Hip. assert (Hsame : set_loop (Some r) h = h) by (destruct h; simpl in Hr; by subst).
  destruct (apply_replies j (set_loop (Some r) h) [] (found_replies r query (ip ++ ":"%char :: bport)) (found_replies_are _ _ _))
    as (sent & Hf & _ & Hb & Hin).
  destruct (round_to N j h r _ h r _ _ _ Hj Hr (offers_packet ips bport N j h _ ip _ Hd I Hip (read_whole (queryInLAN query) ltac:(done) Hfits)) eq_refl Hf) as (N' & Hstep & Hh & Hc & Hp).
  exists N'. split; [done|]. split; [by rewrite Hh, Hsame, insert_id|]. split; [done|].
  split.
  { intros d. rewrite Hp. intros [?|[?%elem_of_nil|(msg & raddr & Hm & ->)]%Hb]%elem_of_app; [by left|done|]. right.
    apply elem_of_found_replies in Hm as (name' & lsi' & Hl' & _ & [= -> ->]). by exists name', lsi'. }
  rewrite Hp. apply elem_of_app. right. apply Hin, elem_of_found_replies. by exists name, lsi.
Qed.

(** The timer goes off and the handler answers. *)
Lemma taken_answered N i p s ch r r' infos : taken N i p s ch r →
  lan_step (clock N) (EvDelay (toPublisherServiceName p s) ch) r = Return (r', [Answer ch infos]) →
  ∃ N', rtc step N N' ∧ packets N' = packets N ∧ (i, p, s, infos) ∈ given N'.
Proof.
  intros [(cs & l & l' & rd & a & an & f & Hi & Ha)] Hs.
  destruct (round_to N i _ r _ _ r' _ _ _ Hi eq_refl (offers_timer ips bport N i _ cs l _ ch l' rd a an f) Hs eq_refl)
    as (N1 & H1 & Hh & _ & Hp). rewrite app_nil_r in Hp. cbn [foldl apply_effect set_loop] in Hh.
  pose proof (net_resume ips bport N1 i (Some r') cs (l ++ l') rd ch infos [] a an f p s
    ltac:(rewrite Hh; apply lookup_insert_eq) Ha) as H2.
  eexists. split; [eapply rtc_l; [exact H1|apply rtc_once; exact H2]|]. destruct N1. simpl in *. split; [exact Hp|].
  apply elem_of_app. right. by apply list_elem_of_singleton.
Qed.
End answered.

(** ** Properties *)

Lemma quiet_net_ok `{GoRange} `{PacketCodec} ips now n : net_ok ips (quiet_net now n).
Proof.
  split; simpl.
  - by intros i m port ?%elem_of_nil.
  - intros i h Hi%elem_of_list_to_map_2. apply list_elem_of_fmap in Hi as (k & [= -> ->] & _). by apply down_ok.
  - by intros d ?%elem_of_nil.
  - by intros i p s si ?%elem_of_nil.
Qed.

Lemma net_reachable_ok `{GoRange} `{PacketCodec} ips bport now n N : (∀ i ip, ip ∈ ips i → plain_host ip) → plain_host bport →
  rtc (lan_net_step ips bport) (quiet_net now n) N → uncut N → net_ok ips N.
Proof.
  intros Hips Hport. apply (rtc_invariant _ (λ N, uncut N → net_ok ips N)); [|intros _; apply quiet_net_ok].
  intros N1 N2 HN Hstep Hcut. pose proof (uncut_before ips bport N1 N2 Hstep Hcut). eapply net_step_ok; eauto.
Qed.

(** A query can be answered with any service that matches. *)
Lemma query_answered `{GoRange} `{PacketCodec} ips bport N i hA rA ipA j hB rB ipB lsi p s publisher service :
  (∀ i ip, ip ∈ ips i → plain_host ip) → plain_host bport →
  net_ok ips N →
  hosts N !! i = Some hA → loop hA = Some rA → ipA ∈ ips i →
  hosts N !! j = Some hB → loop hB = Some rB → ipB ∈ ips j →
  underscore ∉ publisher → underscore ∉ service →
  localServiceTable rB !! toPublisherServiceName publisher service = Some lsi →
  glob (toPublisherServiceName p s) (toPublisherServiceName publisher service) →
  fits (Marshal (queryInLAN (toPublisherServiceName p s))) →
  fits (Marshal (foundInLAN (toPublisherServiceName publisher service) (LANRegistry.providerID rB) (lsi_port lsi))) →
  ∃ N' infos, rtc (lan_net_step ips bport) N N' ∧ (i, p, s, infos) ∈ given N' ∧
    (∃ N1, replies_of rB N1 N' ∧
       packets N1 = packets N ++ [mkDatagram i (Marshal (queryInLAN (toPublisherServiceName p s))) None]) ∧
    mkServiceInfo publisher service (LANRegistry.providerID rB) (ipB ++ ":"%char :: lsi_port lsi) ∈ infos.
Proof.
  intros Hips Hport HN Hi HrA HipA Hj HrB HipB Hpu Hsu Hl Hg Hfq Hff.
  destruct (ho_loop _ _ _ _ _ _ (no_hosts _ _ HN i hA Hi) rA HrA) as (own & t & Himpl & _).
  set (query := toPublisherServiceName p s) in *.
  destruct (query_taken ips bport N i hA rA p s Hi HrA) as (N1 & ch & H1 & Ht1 & Hoth & Hp1). fold query in Hp1.
  assert (mkDatagram i (Marshal (queryInLAN query)) None ∈ packets N1) as Hd by (rewrite Hp1; apply elem_of_app; right; by left).
  assert (∃ hB1, hosts N1 !! j = Some hB1 ∧ loop hB1 = Some rB) as (hB1 & Hj1 & HrB1).
  { destruct (decide (j = i)) as [->|Hne]; [|exists hB; by rewrite Hoth].
    destruct Ht1 as [(cs & l & l' & rd & a & an & f & Hi1 & _)]. rewrite Hi in Hj. injection Hj as ->.
    eexists. split; [exact Hi1|]. simpl. congruence. }
  destruct (reply_sent ips bport N1 i ipA j hB1 rB _ lsi query Hj1 HrB1 Hl Hg Hd Hfq HipA) as (N2 & H2 & Hh2 & Hc2 & Hrep & Hp2).
  assert (Ht2 : taken N2 i p s ch rA) by (split; rewrite Hh2; apply Ht1).
  destruct (lan_discovery rA rB publisher service lsi query (ipA ++ ":"%char :: bport) ipB bport (clock N2) (clock N2) (clock N2) ch)
    as (effs & rA1 & rA2 & infos & _ & _ & Hfound & Hanswer & Hin); [done..|by apply (li_named _ _ _ _ Himpl)|by eapply Hips|done|unfold fiveMinutes; lia|].
  destruct (packet_taken ips bport N2 i p s ch rA _ ipB
    (foundInLAN (toPublisherServiceName publisher service) (LANRegistry.providerID rB) (lsi_port lsi)) rA1 Ht2 Hp2) as (N3 & H3 & Hc3 & Hp3 & Ht3);
    [|exact HipB|by apply read_whole|exact Hfound|].
  { unfold reaches. cbn [dg_to]. by rewrite (host_of_plain ipA bport (Hips i ipA HipA) Hport). }
  rewrite <- Hc3 in Hanswer. destruct (taken_answered ips bport N3 i p s ch rA1 rA2 infos Ht3 Hanswer) as (N4 & H4 & Hp4 & Hgiven).
  exists N4, infos. split; [etrans; [exact H1|]; eapply rtc_l; [exact H2|]; by eapply rtc_l|]. split; [done|]. split; [|done].
  exists N1. split; [|done]. unfold replies_of. by rewrite Hp4, Hp3.
Qed.

(** C3. What the registries of a local network answer.  Whatever datagrams are lost,
    repeated, delayed or reordered and whichever hosts stop, crash and start again, as
    long as nothing was sent that is longer than the 512 bytes read of a datagram: no
    registry ever panics, reading a datagram or in its loop; every service in the
    answer to a query matches it, and was registered under its name at its port by a
    host with its provider ID and address; so a client that only looks in the local
    network is never given a connection to anything else, whatever its host's
    registry answered when. *)
Theorem lan_answers_registered `{GoRange} `{PacketCodec} ips bport now n N :
  (∀ i ip, ip ∈ ips i → plain_host ip) → plain_host bport →
  rtc (lan_net_step ips bport) (quiet_net now n) N → uncut N →
  (∀ d, d ∈ packets N → ∃ msg, read_packet (dg_bytes d) = Return msg) ∧
  (∀ i h r e h', hosts N !! i = Some h → loop h = Some r → offers ips bport N i h e h' →
     ∃ r' effs, lan_step (clock N) e r = Return (r', effs)) ∧
  (∀ i p s infos si, (i, p, s, infos) ∈ given N → si ∈ infos →
     let name := toPublisherServiceName (Publisher si) (Service si) in
     glob (toPublisherServiceName p s) name ∧ provided ips (registered N) (ids N) name (ProviderID si) (Addr si)) ∧
  (∀ i p s providerIDs fuel ws c conns, has_scope (scope c) ScopeWAN = false →
     (∀ k, fair (ws k) ∧ ∀ infos, w_lan (ws k) p s = Some infos → (i, p, s, infos) ∈ given N) →
     Discover p s providerIDs fuel ws c = Return (Some conns) → ∀ addr, TCPConn addr ∈ conns →
     ∃ name pID, glob (toPublisherServiceName p s) name ∧ matchProvider providerIDs pID ∧
       provided ips (registered N) (ids N) name pID addr).
Proof.
  intros Hips Hport Hreach Hcut. pose proof (net_reachable_ok ips bport now n N Hips Hport Hreach Hcut) as HN. split; [|split; [|split]].
  - intros d Hd. pose proof (no_packets _ _ HN d Hd) as Hok. apply packet_read in Hok as (msg & Hread & _); [by exists msg|by apply Hcut].
  - intros i h r e h' Hi Hr Ho. destruct (offers_ok ips bport Hips Hport N i h e h' HN Hcut (no_hosts _ _ HN i h Hi) Ho) as (He & _).
    destruct (loop_round ips bport Hips Hport _ _ (no_words _ _ HN) (clock N) i (asked h) r e
      (ho_loop _ _ _ _ _ _ (no_hosts _ _ HN i h Hi) r Hr) He) as (r' & effs & Hs & _). by exists r', effs.
  - intros i p s infos si Hg Hsi. by apply (no_given _ _ HN i p s infos Hg).
  - intros i p s providerIDs fuel ws c conns Hwan Hws Hd addr Hin.
    apply discover_looked_up in Hd as (k & Ho & _); [|intros k; by destruct (Hws k)].
    rewrite Forall_forall in Ho. destruct (Ho _ Hin) as (_ & si & infos & <- & Hm & Hsi & [[_ Hlan]|[Hwan' _]]); [|congruence].
    destruct (Hws k) as [_ Hg]. destruct (no_given _ _ HN i p s infos (Hg infos Hlan) si Hsi) as [Hglob Hp].
    by exists (toPublisherServiceName (Publisher si) (Service si)), (ProviderID si).
Qed.

(** C4. Finding in a local network.  From every state the network can reach without a
    datagram that is cut, whatever else happened before, a query of a host whose
    registry runs can be answered with a service that another host's registry (or its
    own) holds and the pattern matches, if the query and the reply fit in the 512
    bytes read of a datagram: the service, its provider ID, and one of its addresses
    with the port registered. *)
Theorem lan_finds `{GoRange} `{PacketCodec} ips bport now n N i hA rA ipA j hB rB ipB lsi p s publisher service :
  (∀ i ip, ip ∈ ips i → plain_host ip) → plain_host bport →
  rtc (lan_net_step ips bport) (quiet_net now n) N → uncut N →
  hosts N !! i = Some hA → loop hA = Some rA → ipA ∈ ips i →
  hosts N !! j = Some hB → loop hB = Some rB → ipB ∈ ips j →
  underscore ∉ publisher → underscore ∉ service →
  localServiceTable rB !! toPublisherServiceName publisher service = Some lsi →
  glob (toPublisherServiceName p s) (toPublisherServiceName publisher service) →
  fits (Marshal (queryInLAN (toPublisherServiceName p s))) →
  fits (Marshal (foundInLAN (toPublisherServiceName publisher service) (LANRegistry.providerID rB) (lsi_port lsi))) →
  ∃ N' infos, rtc (lan_net_step ips bport) N N' ∧ (i, p, s, infos) ∈ given N' ∧
    mkServiceInfo publisher service (LANRegistry.providerID rB) (ipB ++ ":"%char :: lsi_port lsi) ∈ infos.
Proof.
  intros Hips Hport Hreach Hcut Hi HrA HA Hj HrB HB Hp Hs Hl Hg Hfq Hff.
  pose proof (net_reachable_ok ips bport now n N Hips Hport Hreach Hcut) as HN.
  destruct (query_answered ips bport N i hA rA ipA j hB rB ipB lsi p s publisher service) as (N' & infos & H1 & H2 & _ & H3);
    [done..|]. by exists N', infos.
Qed.

(** ** Witnesses *)

(** A codec: a letter for the kind of packet, and strings whose bytes have a 1 before
    them, closed by a 0.  It panics at the end of what it reads. *)
Fixpoint putString (l : bytes) : bytes := match l with [] => ["0"%char] | c :: l => "1"%char :: c :: putString l end.
Fixpoint getString (l : bytes) : outcome (bytes * bytes) :=
  match l with
  | "0"%char :: l => Return ([], l)
  | "1"%char :: c :: l => '(s, l) ← getString l; Return (c :: s, l)
  | _ => Panics (str "decode")
  end.
Lemma getString_putString l rest : getString (putString l ++ rest) = Return (l, rest).
Proof. induction l as [|c l IH]; [done|]. cbn [putString app getString]. by rewrite IH. Qed.

Definition putPacket (msg : packet) : bytes :=
  match msg with
  | queryInLAN name => "q"%char :: putString name
  | foundInLAN name pID port => "f"%char :: putString name ++ putString pID ++ putString port
  | unknownPacket => []
  end.
Definition getPacket (l : bytes) : outcome packet :=
  match l with
  | "q"%char :: l => '(name, _) ← getString l; Return (queryInLAN name)
  | "f"%char :: l => '(name, l) ← getString l; '(pID, l) ← getString l; '(port, _) ← getString l; Return (foundInLAN name pID port)
  | _ => Panics (str "decode")
  end.
Lemma getPacket_putPacket msg : msg ≠ unknownPacket → getPacket (putPacket msg) = Return msg.
Proof.
  destruct msg as [name|name pID port|]; intros Hm; [| |done]; cbn [putPacket getPacket].
  - rewrite <- (app_nil_r (putString name)), getString_putString. done.
  - rewrite getString_putString. cbn [mbind outcome_bind]. rewrite getString_putString. cbn [mbind outcome_bind].
    rewrite <- (app_nil_r (putString port)), getString_putString. done.
Qed.
#[export] Instance plain_codec : PacketCodec := { Marshal := putPacket; Unmarshal := getPacket; Unmarshal_Marshal := getPacket_putPacket }.

(** A service with a long name can be registered, but the reply that tells of it is
    cut, and reading it is a panic of this codec. *)
Example long_name_cut :
  let name := str "org_" ++ repeat "e"%char 300 in
  read_packet (Marshal (foundInLAN name (str "idB") (str "4000"))) = Panics (str "decode") ∧
  registrable (str "org") (repeat "e"%char 300) (str "4000") ∧ toPublisherServiceName (str "org") (repeat "e"%char 300) = name.
Proof.
  split; [vm_compute; reflexivity|]. split; [|vm_compute; reflexivity].
  split; [by_decide|]. split; [by_decide|]. split; by_decide.
Qed.

Definition two_ips (i : nat) : list bytes := match i with 0 => [str "10.0.0.1"] | 1 => [str "10.0.0.2"] | _ => [] end.
Abbreviation two_step := (lan_net_step two_ips (str "9923")).

Lemma two_ips_plain i ip : ip ∈ two_ips i → plain_host ip.
Proof. destruct i as [|[|i]]; simpl; intros [->|?%elem_of_nil]%elem_of_cons || intros ?%elem_of_nil; by_decide || done. Qed.

(** Two hosts start, and the second registers a service. *)
Definition two_hosts : lan := quiet_net 0 2.
Definition started (i : nat) (pID : bytes) (N : lan) : lan :=
  let '(mkNet c hs ps rs ks gs) := set_host i (mkHost (Some (start_lan pID (clock N) None)) [] [] [] ∅ ∅ None) N in
  mkNet c hs ps rs (ks ++ [(i, pID)]) gs.
Definition echo_B : registryLAN := mkLAN (str "idB") {[str "org_echo" := mkLocal 0 (str "4000")]} ∅.
Definition host_A : host := mkHost (Some (start_lan (str "idA") 0 None)) [] [] [] ∅ ∅ None.
Definition host_B : host := mkHost (Some echo_B) [] [] [] ∅ ∅ None.

Lemma two_hosts_run : ∃ N, rtc two_step two_hosts N ∧ hosts N !! 0 = Some host_A ∧ hosts N !! 1 = Some host_B ∧ clock N = 0%Z ∧
  packets N = [].
Proof.
  eexists. split; [|split; [|split; [|split]]].
  - eapply rtc_l; [apply (net_start _ _ two_hosts 0 None (str "idA")); reflexivity|].
    eapply rtc_l; [apply (net_start _ _ _ 1 None (str "idB")); reflexivity|].
    eapply rtc_l; [apply (net_register _ _ _ 1 (mkHost (Some (start_lan (str "idB") 0 None)) [] [] [] ∅ ∅ None) (str "org") (str "echo") (str "4000"));
      [reflexivity|split; [by_decide|split; [by_decide|split; by_decide]]]|].
    eapply rtc_l; [|apply rtc_refl].
    eapply (net_round _ _ _ 1 (mkHost (Some (start_lan (str "idB") 0 None)) [cmdLANRegister (str "org_echo") (str "4000")] [] [] ∅ ∅ None)
      (start_lan (str "idB") 0 None) (EvCmd (cmdLANRegister (str "org_echo") (str "4000")) true)); [reflexivity|reflexivity| |reflexivity].
    apply (offers_cmd _ _ _ _ _ [] _ []).
  - reflexivity.
  - reflexivity.
  - reflexivity.
  - reflexivity.
Qed.

Lemma lan_finds_witness : ∃ N N' infos, rtc two_step two_hosts N ∧ rtc two_step N N' ∧
  (0, str "org", str "e*", infos) ∈ given N' ∧ mkServiceInfo (str "org") (str "echo") (str "idB") (str "10.0.0.2:4000") ∈ infos.
Proof.
  destruct two_hosts_run as (N & Hrun & HA & HB & _ & Hnone). exists N.
  destruct (lan_finds two_ips (str "9923") 0 2 N 0 host_A (start_lan (str "idA") 0 None) (str "10.0.0.1") 1 host_B echo_B
    (str "10.0.0.2") (mkLocal 0 (str "4000")) (str "org") (str "e*") (str "org") (str "echo")) as (N' & infos & H1 & H2 & H3).
  - exact two_ips_plain.
  - by_decide.
  - exact Hrun.
  - unfold uncut. rewrite Hnone. intros d Hd. by apply elem_of_nil in Hd.
  - exact HA.
  - reflexivity.
  - left.
  - exact HB.
  - reflexivity.
  - left.
  - by_decide.
  - by_decide.
  - vm_compute. reflexivity.
  - apply WildcardMatch_glob. vm_compute. exact I.
  - apply Nat.leb_le. vm_compute. reflexivity.
  - apply Nat.leb_le. vm_compute. reflexivity.
  - exists N', infos. split; [exact Hrun|]. split; [exact H1|]. split; [exact H2|exact H3].
Defined.

(** The network in which the first host has been answered *)
Lemma two_hosts_answered : ∃ N infos, rtc two_step two_hosts N ∧ uncut N ∧ (0, str "org", str "e*", infos) ∈ given N ∧
  mkServiceInfo (str "org") (str "echo") (str "idB") (str "10.0.0.2:4000") ∈ infos.
Proof.
  destruct two_hosts_run as (N & Hrun & HA & HB & _ & Hnone).
  destruct (query_answered two_ips (str "9923") N 0 host_A (start_lan (str "idA") 0 None) (str "10.0.0.1") 1 host_B echo_B
    (str "10.0.0.2") (mkLocal 0 (str "4000")) (str "org") (str "e*") (str "org") (str "echo"))
    as (N' & infos & H1 & H2 & (N1 & Hrep & Hp1) & H3);
    [exact two_ips_plain|by_decide|apply (net_reachable_ok two_ips (str "9923") 0 2); [exact two_ips_plain|by_decide|exact Hrun|]|exact HA|done|left|exact HB|done|left
    |by_decide|by_decide|vm_compute; reflexivity|apply WildcardMatch_glob; vm_compute; exact I
    |apply Nat.leb_le; vm_compute; reflexivity|apply Nat.leb_le; vm_compute; reflexivity|].
  { intros d. by rewrite Hnone, elem_of_nil. }
  exists N', infos. split; [by etrans|]. split; [|done]. intros d [Hd|(name & lsi & Hl & Hd)]%Hrep.
  - rewrite Hp1, Hnone in Hd. apply list_elem_of_singleton in Hd as ->. apply Nat.leb_le. vm_compute. reflexivity.
  - rewrite Hd. change (({[str "org_echo" := mkLocal 0 (str "4000")]} : gmap bytes localSvcInfo) !! name = Some lsi) in Hl.
    apply lookup_singleton_Some in Hl as [<- <-]. apply Nat.leb_le. vm_compute. reflexivity.
Qed.

(** A client that asks the first host's registry *)
Definition asking_world (infos : list ServiceInfo) : world :=
  mkWorld ∅ None no_dir None (λ _ _, Some infos) None (λ _ _ _, None) (λ _, true) (λ _, None) (λ l, l) (λ l, l).

Lemma lan_answers_registered_witness : ∃ N infos, rtc two_step two_hosts N ∧ (0, str "org", str "e*", infos) ∈ given N ∧
  (∃ name, glob (str "org_e*") name ∧ provided two_ips (registered N) (ids N) name (str "idB") (str "10.0.0.2:4000")) ∧
  ∀ conns, Discover (str "org") (str "e*") [] 1 (λ _, asking_world infos) (Client.NewClient [Client.WithScope ScopeLAN]) = Return (Some conns) →
    ∀ addr, TCPConn addr ∈ conns → ∃ name pID, glob (str "org_e*") name ∧ provided two_ips (registered N) (ids N) name pID addr.
Proof.
  destruct two_hosts_answered as (N & infos & Hrun & Hcut & Hg & Hin). exists N, infos. split; [exact Hrun|]. split; [exact Hg|].
  destruct (lan_answers_registered two_ips (str "9923") 0 2 N) as (_ & _ & Hanswers & Hclients).
  - exact two_ips_plain.
  - by_decide.
  - exact Hrun.
  - exact Hcut.
  - split.
    + exists (str "org_echo"). exact (Hanswers _ _ _ _ _ Hg Hin).
    + intros conns Hd addr Haddr.
      destruct (Hclients 0 (str "org") (str "e*") [] 1 (λ _, asking_world infos) (Client.NewClient [Client.WithScope ScopeLAN]) conns)
        with (addr := addr) as (name & pID & H1 & _ & H2).
      * vm_compute. reflexivity.
      * intros k. split; [split; intros l; reflexivity|]. intros infos' [= <-]. exact Hg.
      * exact Hd.
      * exact Haddr.
      * exists name, pID. split; [exact H1|exact H2].
Defined.
