(* ===== verification/Stream.v ===== *)
(** Streams over byte connections (streamtransportclient.go,
    streamtransportserver.go, stream.go, adaptiveservice.go): the
    handshake, the frames of messages and their reading back from a connection
    that delivers bytes in arbitrary pieces, the dispatching of messages to
    streams. *)
From S2P Require Import Prelude GoStrings Names Tracing MessageTracer.

(** ** Numbers on the wire *)

Definition byte_of (z : Z) : ascii := ascii_of_N (Z.to_N (z mod 256)).
Definition of_byte (c : ascii) : Z := Z.of_N (N_of_ascii c).

(** [binary.BigEndian.PutUint16], [PutUint32], [Uint16], [Uint32] *)
Definition PutUint16 (z : Z) : bytes := [byte_of (z / 256); byte_of z].
Definition PutUint32 (z : Z) : bytes :=
  [byte_of (z / 2 ^ 24); byte_of (z / 2 ^ 16); byte_of (z / 2 ^ 8); byte_of z].
Definition big_endian (l : bytes) : Z := foldl (λ n c, n * 256 + of_byte c)%Z 0%Z l.

(** ** Connections *)

(** [io.ReadFull] on a connection, which is the list of the pieces that will
    arrive before it ends: what was read, less than asked for if it ended *)
Fixpoint ReadFull (n : nat) (net : list bytes) : bytes * list bytes :=
  match net with
  | [] => ([], [])
  | piece :: net =>
      if bool_decide (n ≤ length piece) then (take n piece, drop n piece :: net)
      else let '(got, net) := ReadFull (n - length piece) net in (piece ++ got, net)
  end.

(** ** Handshake *)

Definition marker_prefix : bytes := str "Adaptiveservice Spec Version ".

(** [handshakeWithServer]: what the client writes *)
Definition handshakeWithServer (specVersion : bytes) : bytes :=
  let bufMsg := marker_prefix ++ specVersion in
  PutUint16 (Z.of_nat (length bufMsg)) ++ bufMsg.

(** A word of the format of [fmt.Sscanf] and the blank after it, which matches
    one or more blanks of the input, or its end *)
Definition scan_literal (word s : bytes) : option bytes :=
  if HasPrefix s word then
    match drop (length word) s with
    | [] => Some []
    | c :: s =>
        if is_space c && bool_decide (c ≠ "010"%char)
        then Some (drop_while (λ c, is_space c && bool_decide (c ≠ "010"%char)) s) else None
    end
  else None.

(** [fmt.Sscanf(marker, "Adaptiveservice Spec Version %s", &specVer)] *)
Definition scan_marker (marker : bytes) : option bytes :=
  s ← scan_literal (str "Adaptiveservice") marker;
  s ← scan_literal (str "Spec") s;
  s ← scan_literal (str "Version") s;
  let ver := take_while (λ c, negb (is_space c)) s in
  if bool_decide (ver = []) then None else Some ver.

(** [handshakeWithClient]: the version of the client, and the rest of the
    connection; [None] is an error *)
Definition handshakeWithClient (net : list bytes) : option (bytes * list bytes) :=
  let '(bufSize, net) := ReadFull 2 net in
  if bool_decide (length bufSize < 2) then None
  else
    let size := Z.to_nat (big_endian bufSize) in
    let '(bufMsg, net) := ReadFull size net in
    if bool_decide (length bufMsg < size) then None
    else specVer ← scan_marker bufMsg; Some (specVer, net).

(** ** Frames *)

Definition MaxInt32 : Z := 2 ^ 31 - 1.

(** The part of [send] and [Send] that writes an encoded message *)
Definition frame (bufMsg : bytes) : bytes + error :=
  if bool_decide (Z.of_nat (length bufMsg) > MaxInt32)%Z then inr ErrMsgTooLarge
  else inl (PutUint32 (Z.of_nat (length bufMsg)) ++ bufMsg).

(** One round of the loop of [receiver] and [handleConn]: the message, the
    capacity of the buffer, and the rest of the connection; [None] when the
    connection ended.  The buffer is made anew when the message is larger. *)
Definition read_frame (bufCap : Z) (net : list bytes) : option (bytes * Z * list bytes) :=
  let '(bufSize, net) := ReadFull 4 net in
  if bool_decide (length bufSize < 4) then None
  else
    let size := big_endian bufSize in
    let bufCap := if bool_decide (size ≤ bufCap)%Z then bufCap else size in
    let '(bufMsg, net) := ReadFull (Z.to_nat size) net in
    if bool_decide (length bufMsg < Z.to_nat size) then None
    else Some (bufMsg, bufCap, net).

(** The loop; every round but the last consumes four bytes *)
Fixpoint read_frames (fuel : nat) (bufCap : Z) (net : list bytes) : list bytes :=
  match fuel with
  | 0 => []
  | S fuel =>
      match read_frame bufCap net with
      | None => []
      | Some (bufMsg, bufCap, net) => bufMsg :: read_frames fuel bufCap net
      end
  end.

Definition read_all (net : list bytes) : list bytes := read_frames (S (length (concat net))) 512 net.

(** ** Lemmas *)

Lemma of_byte_of z : of_byte (byte_of z) = (z mod 256)%Z.
Proof.
  unfold of_byte, byte_of. pose proof (Z.mod_pos_bound z 256 ltac:(lia)).
  rewrite N_ascii_embedding by lia. lia.
Qed.

Lemma length_PutUint32 z : length (PutUint32 z) = 4.
Proof. done. Qed.

Lemma big_endian_PutUint32 z : (0 ≤ z < 2 ^ 32)%Z → big_endian (PutUint32 z) = z.
Proof.
  intros Hz. unfold big_endian, PutUint32. cbn [foldl]. rewrite !of_byte_of.
  pose proof (Z.div_mod z 256 ltac:(lia)).
  pose proof (Z.div_mod (z / 256) 256 ltac:(lia)) as H1.
  pose proof (Z.div_mod (z / 256 / 256) 256 ltac:(lia)) as H2.
  rewrite !Z.div_div in * by lia.
  assert (z / 2 ^ 24 < 256)%Z by (apply Z.div_lt_upper_bound; lia).
  assert (0 ≤ z / 2 ^ 24)%Z by (apply Z.div_pos; lia).
  rewrite (Z.mod_small (z / 2 ^ 24)) by (split; assumption).
  change (2 ^ 24)%Z with 16777216%Z in *. change (2 ^ 16)%Z with 65536%Z in *. change (2 ^ 8)%Z with 256%Z in *.
  change (256 * 256)%Z with 65536%Z in *. change (65536 * 256)%Z with 16777216%Z in *. lia.
Qed.

Lemma big_endian_PutUint16 z : (0 ≤ z < 2 ^ 16)%Z → big_endian (PutUint16 z) = z.
Proof.
  intros Hz. unfold big_endian, PutUint16. cbn [foldl]. rewrite !of_byte_of.
  pose proof (Z.div_mod z 256 ltac:(lia)).
  assert (z / 256 < 256)%Z by (apply Z.div_lt_upper_bound; lia).
  assert (0 ≤ z / 256)%Z by (apply Z.div_pos; lia).
  rewrite (Z.mod_small (z / 256)) by (split; assumption). lia.
Qed.

(** [ReadFull] gives the bytes of the connection in order, whatever the pieces. *)
Lemma ReadFull_concat n net :
  (ReadFull n net).1 = take n (concat net) ∧ concat (ReadFull n net).2 = drop n (concat net).
Proof.
  revert n; induction net as [|piece net IH]; intros n; simpl; [by rewrite take_nil, drop_nil|].
  destruct (bool_decide_reflect (n ≤ length piece)) as [Hle|Hgt]; simpl.
  - by rewrite take_app_le, drop_app_le by done.
  - specialize (IH (n - length piece)). destruct (ReadFull _ net) as [got net'] eqn:E. simpl in *.
    destruct IH as [-> ->]. rewrite take_app_ge, drop_app_ge by lia. done.
Qed.

Lemma read_frame_bytes bufCap net hdr msg rest :
  concat net = hdr ++ msg ++ rest → length hdr = 4 → big_endian hdr = Z.of_nat (length msg) →
  ∃ bufCap' net', read_frame bufCap net = Some (msg, bufCap', net') ∧ concat net' = rest ∧
    (Z.of_nat (length msg) ≤ bufCap' ∧ bufCap ≤ bufCap')%Z.
Proof.
  intros Hnet Hhdr Hsize. unfold read_frame.
  pose proof (ReadFull_concat 4 net) as [Hg Hn]. destruct (ReadFull 4 net) as [got net1]. simpl in Hg, Hn.
  rewrite Hnet in Hg, Hn. rewrite take_app_length' in Hg by done. rewrite drop_app_length' in Hn by done. subst got.
  rewrite bool_decide_eq_false_2 by lia. rewrite Hsize, Nat2Z.id.
  pose proof (ReadFull_concat (length msg) net1) as [Hg Hn2]. destruct (ReadFull (length msg) net1) as [got net2].
  simpl in Hg, Hn2. rewrite Hn in Hg, Hn2. rewrite take_app_length in Hg. rewrite drop_app_length in Hn2. subst got.
  rewrite bool_decide_eq_false_2 by lia. eexists _, _. split; [done|]. split; [done|].
  destruct (bool_decide_reflect (Z.of_nat (length msg) ≤ bufCap)%Z); lia.
Qed.

(** A connection that ends inside a frame gives nothing more. *)
Lemma read_frame_truncated bufCap net hdr msg rest k :
  concat net ++ rest = hdr ++ msg → k = length (concat net) → (k < 4 + length msg) →
  length hdr = 4 → big_endian hdr = Z.of_nat (length msg) →
  read_frame bufCap net = None.
Proof.
  intros Hnet -> Hk Hhdr Hsize. unfold read_frame.
  pose proof (ReadFull_concat 4 net) as [Hg Hn]. destruct (ReadFull 4 net) as [got net1]. simpl in Hg, Hn.
  destruct (bool_decide_reflect (length got < 4)) as [|Hge]; [done|].
  assert (4 ≤ length (concat net)) by (rewrite Hg, length_take in Hge; lia).
  assert (got = hdr) as ->.
  { rewrite Hg. apply (f_equal (take 4)) in Hnet. rewrite (take_app_length' hdr) in Hnet by done. rewrite <- Hnet.
    by rewrite take_app_le. }
  rewrite Hsize, Nat2Z.id. pose proof (ReadFull_concat (length msg) net1) as [Hg2 _].
  destruct (ReadFull (length msg) net1) as [got2 net2]. simpl in Hg2.
  rewrite bool_decide_eq_true_2; [done|]. rewrite Hg2, Hn, length_take, length_drop. lia.
Qed.

(** ** Properties of the connection *)

Definition fits (msg : bytes) : Prop := (Z.of_nat (length msg) ≤ MaxInt32)%Z.
Definition wire (msg : bytes) : bytes := PutUint32 (Z.of_nat (length msg)) ++ msg.

Lemma frame_fits msg : fits msg → frame msg = inl (wire msg).
Proof. intros Hf. unfold frame. rewrite bool_decide_eq_false_2; [done|]. unfold fits in Hf. lia. Qed.

Lemma wire_size msg : fits msg → big_endian (PutUint32 (Z.of_nat (length msg))) = Z.of_nat (length msg).
Proof. intros Hf. apply big_endian_PutUint32. unfold fits, MaxInt32 in Hf. lia. Qed.

Lemma read_frames_wire msgs : ∀ fuel bufCap net tail,
  Forall fits msgs → concat net = concat (wire <$> msgs) ++ tail → length msgs ≤ fuel →
  ∃ bufCap' net', concat net' = tail ∧
    read_frames fuel bufCap net = msgs ++ read_frames (fuel - length msgs) bufCap' net'.
Proof.
  induction msgs as [|msg msgs IH]; intros fuel bufCap net tail Hfit Hnet Hfuel; simpl in *.
  { exists bufCap, net. by rewrite Nat.sub_0_r. }
  destruct fuel as [|fuel]; [lia|]. apply Forall_cons in Hfit as [Hm Hfit].
  destruct (read_frame_bytes bufCap net (PutUint32 (Z.of_nat (length msg))) msg (concat (wire <$> msgs) ++ tail))
    as (cap1 & net1 & Hread & Hnet1 & _); [|done|by apply wire_size|].
  { rewrite Hnet. unfold wire at 1. by rewrite <- !app_assoc. }
  destruct (IH fuel cap1 net1 tail Hfit Hnet1) as (cap2 & net2 & Htail & Hrec); [lia|].
  exists cap2, net2. split; [done|]. cbn [read_frames]. by rewrite Hread, Hrec.
Qed.

(** Frames are read until what is left of the connection is not one. *)
Lemma frames_read_end msgs net t : Forall fits msgs → concat net = concat (wire <$> msgs) ++ t →
  (∀ bufCap net', concat net' = t → read_frame bufCap net' = None) → read_all net = msgs.
Proof.
  intros Hfit Hnet Hend. unfold read_all.
  assert (length msgs ≤ length (concat net)) as Hlen.
  { rewrite Hnet, length_app. clear. induction msgs as [|m l IH]; [simpl; lia|].
    change (concat (wire <$> m :: l)) with (wire m ++ concat (wire <$> l)).
    rewrite length_app. unfold wire at 1. rewrite length_app, length_PutUint32. simpl. lia. }
  destruct (read_frames_wire msgs (S (length (concat net))) 512 net t Hfit Hnet) as (cap' & net' & Ht & ->); [lia|].
  replace (S (length (concat net)) - length msgs) with (S (length (concat net) - length msgs)) by lia.
  cbn [read_frames]. rewrite Hend by done. by rewrite app_nil_r.
Qed.

Lemma frames_read msgs net : Forall fits msgs → concat net = concat (wire <$> msgs) → read_all net = msgs.
Proof.
  intros Hfit Hnet. apply (frames_read_end msgs net []); [done|by rewrite app_nil_r|]. intros bufCap net' Hn.
  unfold read_frame. pose proof (ReadFull_concat 4 net') as [Hg _]. destruct (ReadFull 4 net') as [got n1].
  simpl in Hg. rewrite Hn in Hg. by subst got.
Qed.

Lemma frames_read_cut msgs net tail msg rest : Forall fits msgs → fits msg → wire msg = tail ++ rest → rest ≠ [] →
  concat net = concat (wire <$> msgs) ++ tail → read_all net = msgs.
Proof.
  intros Hfit Hm Hw Hrest Hnet. apply (frames_read_end msgs net tail); [done..|]. intros bufCap net' Hn.
  apply (read_frame_truncated bufCap net' (PutUint32 (Z.of_nat (length msg))) msg rest (length (concat net')));
    [by rewrite Hn, <- Hw|done| |done|by apply wire_size].
  rewrite Hn. apply (f_equal length) in Hw. unfold wire in Hw. rewrite !length_app, length_PutUint32 in Hw.
  destruct rest; [done|]. simpl in Hw. lia.
Qed.

(** C12. Round trip: messages that fit are framed without an error, and a peer that
    reads the frames from a connection, cut into pieces in any way, gets exactly
    the messages, in order.  When the connection ends early it gets exactly the
    messages whose frames had arrived, and nothing of a frame cut short. *)
Theorem frames_roundtrip msgs net tail :
  Forall fits msgs →
  (∀ msg, msg ∈ msgs → frame msg = inl (wire msg)) ∧
  (concat net = concat (wire <$> msgs) → read_all net = msgs) ∧
  (∀ msg rest, fits msg → wire msg = tail ++ rest → rest ≠ [] →
     concat net = concat (wire <$> msgs) ++ tail → read_all net = msgs).
Proof.
  intros Hfit. split; [|split].
  - intros msg Hin. apply frame_fits. by eapply Forall_forall.
  - by apply frames_read.
  - intros msg rest Hm Hw Hrest Hnet. by eapply frames_read_cut.
Qed.

(** Two messages, in pieces that do not respect them, and part of a third *)
Lemma frames_roundtrip_witness :
  read_all [wire (str "hello") ++ take 3 (wire (str "you")); drop 3 (wire (str "you")) ++ [zero; zero]] =
  [str "hello"; str "you"].
Proof.
  apply (proj2 (proj2 (frames_roundtrip [str "hello"; str "you"]
    [wire (str "hello") ++ take 3 (wire (str "you")); drop 3 (wire (str "you")) ++ [zero; zero]] [zero; zero]
    ltac:(repeat constructor; vm_compute; discriminate))) (str "bye") (drop 2 (wire (str "bye"))));
    vm_compute; try reflexivity; discriminate.
Defined.

Lemma scan_literal_blank w s :
  (∀ c s', s = c :: s' → is_space c = false) → scan_literal w (w ++ " "%char :: s) = Some s.
Proof.
  intros Hs. unfold scan_literal. assert (HasPrefix (w ++ " "%char :: s) w) as Hp by (apply HasPrefix_spec; eauto).
  apply Is_true_true in Hp. rewrite Hp, drop_app_length.
  change (is_space " "%char && bool_decide (" "%char ≠ "010"%char)) with true. cbv iota. f_equal.
  destruct s as [|c s]; [done|]. simpl. by rewrite (Hs c s).
Qed.

Lemma scan_marker_word ver : word ver → scan_marker (marker_prefix ++ ver) = Some ver.
Proof.
  intros [Hne Hw]. destruct ver as [|c ver]; [done|]. pose proof Hw as Hw'. inversion Hw' as [|? ? Hc _]; subst.
  assert (is_space c = false) as Hcs by (by destruct (is_space c)).
  unfold scan_marker.
  change (marker_prefix ++ c :: ver)
    with (str "Adaptiveservice" ++ " "%char :: str "Spec" ++ " "%char :: str "Version" ++ " "%char :: c :: ver).
  rewrite scan_literal_blank by (by intros ? ? [= <- _]). cbn [mbind option_bind].
  rewrite scan_literal_blank by (by intros ? ? [= <- _]). cbn [mbind option_bind].
  rewrite scan_literal_blank by (by intros ? ? [= <- _]). cbn [mbind option_bind].
  pose proof (take_while_all (λ c, negb (is_space c)) (c :: ver) [] Hw) as Ht. rewrite !app_nil_r in Ht.
  cbv zeta. by rewrite Ht.
Qed.

(** The handshake: whatever pieces the client's handshake arrives in, the
    server accepts it and learns the client's version, and what follows is left
    for the frames. *)
Theorem handshake_accepted specVersion net rest :
  word specVersion → (Z.of_nat (length (marker_prefix ++ specVersion)) < 2 ^ 16)%Z →
  concat net = handshakeWithServer specVersion ++ rest →
  ∃ net', handshakeWithClient net = Some (specVersion, net') ∧ concat net' = rest.
Proof.
  intros Hw Hlen Hnet. pose proof (scan_marker_word _ Hw) as Hscan. clear Hw.
  unfold handshakeWithServer in Hnet. revert Hlen Hnet Hscan. generalize (marker_prefix ++ specVersion).
  intros msg Hlen Hnet Hscan. cbv zeta in Hnet. rewrite <- app_assoc in Hnet. unfold handshakeWithClient.
  pose proof (ReadFull_concat 2 net) as [Hg Hn]. destruct (ReadFull 2 net) as [got net1]. simpl in Hg, Hn.
  rewrite Hnet in Hg, Hn. rewrite take_app_length' in Hg by done. rewrite drop_app_length' in Hn by done. subst got.
  rewrite bool_decide_eq_false_2 by (simpl; lia). rewrite big_endian_PutUint16 by lia. rewrite Nat2Z.id.
  pose proof (ReadFull_concat (length msg) net1) as [Hg Hn2]. destruct (ReadFull (length msg) net1) as [got net2].
  simpl in Hg, Hn2. rewrite Hn in Hg, Hn2. rewrite take_app_length in Hg. rewrite drop_app_length in Hn2. subst got.
  rewrite bool_decide_eq_false_2 by lia. exists net2. by rewrite Hscan.
Qed.

Lemma handshake_accepted_witness :
  ∃ net', handshakeWithClient [take 5 (handshakeWithServer (str "1.0")); drop 5 (handshakeWithServer (str "1.0")) ++ [zero]] =
    Some (str "1.0", net') ∧ concat net' = [zero].
Proof.
  apply (handshake_accepted (str "1.0") [take 5 (handshakeWithServer (str "1.0"));
    drop 5 (handshakeWithServer (str "1.0")) ++ [zero]] [zero]).
  - by_decide.
  - vm_compute. reflexivity.
  - vm_compute. reflexivity.
Defined.

(** ** Dispatching *)

(** [transportFeats] and its [getTracingID] (message.go) *)
Abbreviation transportFeats := (list uuidInfo).
Definition feats_tracingID (tfs : transportFeats) : option uuidInfo :=
  if bool_decide (length tfs = 0) then None else head tfs.

Section dispatch.
Context {Msg : Type}.

(** [streamTransportMsg] *)
Record streamTransportMsg := mkTransportMsg { chanID : Z; tm_msg : Msg; tm_feats : transportFeats }.

(** What the encoder, a third-party package, makes of a frame: a message, or a
    panic, by which time the channel ID may have been decoded or still be zero *)
Inductive decoded := Decoded (tm : streamTransportMsg) | DecodeFailed (chanID : Z).

Definition decoded_chan (d : decoded) : Z :=
  match d with Decoded tm => chanID tm | DecodeFailed c => c end.

(** What [handleConn] does with a message: the callbacks of the service, the
    error sent back, and where the message goes *)
Inductive dispatched :=
| OnNewStream (c : Z)
| OnStreamClose (c : Z)
| SendDecodeError (c : Z)
| ToMsgQ (c : Z) (msg : Msg) (tfs : transportFeats)
| ToPrivateChan (c : Z) (msg : Msg) (tfs : transportFeats).

(** [is_close]: is it a [streamCloseMsg]?  [canHandle]: does the service know it? *)
Context (is_close canHandle : Msg → bool).

(** A round of [handleConn], on the channel IDs of [ssMap] *)
Definition handle_message (d : decoded) (ssMap : gset Z) : gset Z * list dispatched :=
  let c := decoded_chan d in
  let new := if bool_decide (c ∈ ssMap) then [] else [OnNewStream c] in
  let ssMap := {[c]} ∪ ssMap in
  match d with
  | DecodeFailed _ => (ssMap, new ++ [SendDecodeError c])
  | Decoded tm =>
      if is_close (tm_msg tm) then (ssMap ∖ {[c]}, new ++ [OnStreamClose c])
      else if canHandle (tm_msg tm) then (ssMap, new ++ [ToMsgQ c (tm_msg tm) (tm_feats tm)])
      else (ssMap, new ++ [ToPrivateChan c (tm_msg tm) (tm_feats tm)])
  end.

Fixpoint handleConn (ds : list decoded) (ssMap : gset Z) : list dispatched :=
  match ds with
  | [] => []
  | d :: ds => let '(ssMap, effs) := handle_message d ssMap in effs ++ handleConn ds ssMap
  end.

(** [streamServerStream.Send] answers on the channel the message came from. *)
Definition server_message (ss_chanID : Z) (msg : Msg) (tracingID : option uuidInfo) : streamTransportMsg :=
  mkTransportMsg ss_chanID msg (match tracingID with Some t => [t] | None => [] end).

(** The client's [receiver]: the channel a message goes to; [err] stands for the
    error made of a failed decoding *)
Definition client_receive (err : Msg) (d : decoded) : outcome (Z * Msg * transportFeats) :=
  let '(c, msg, tfs) := match d with
                        | Decoded tm => (chanID tm, tm_msg tm, tm_feats tm)
                        | DecodeFailed c => (c, err, [])
                        end in
  if bool_decide (c ≠ 0%Z) then Return (c, msg, tfs) else Panics (str "msg channel not specified").

(** The messages handed over on a channel, and those sent on it *)
Definition handed_over (c : Z) (effs : list dispatched) : list (Msg * transportFeats) :=
  omap (λ e, match e with
             | ToMsgQ c' msg tfs | ToPrivateChan c' msg tfs =>
                 if bool_decide (c' = c) then Some (msg, tfs) else None
             | _ => None
             end) effs.
Definition sent_on (c : Z) (ds : list decoded) : list (Msg * transportFeats) :=
  omap (λ d, match d with
             | Decoded tm => if bool_decide (chanID tm = c) && negb (is_close (tm_msg tm))
                             then Some (tm_msg tm, tm_feats tm) else None
             | DecodeFailed _ => None
             end) ds.

(** A stream is opened before it is used or closed, and not twice. *)
Fixpoint disciplined (ssMap : gset Z) (effs : list dispatched) : Prop :=
  match effs with
  | [] => True
  | OnNewStream c :: effs => c ∉ ssMap ∧ disciplined ({[c]} ∪ ssMap) effs
  | OnStreamClose c :: effs => c ∈ ssMap ∧ disciplined (ssMap ∖ {[c]}) effs
  | (SendDecodeError c | ToMsgQ c _ _ | ToPrivateChan c _ _) :: effs => c ∈ ssMap ∧ disciplined ssMap effs
  end.

(** The service's queue gets only what the service knows, the private channels
    only what it does not. *)
Definition sorted_out (e : dispatched) : Prop :=
  match e with
  | ToMsgQ _ msg _ => canHandle msg = true ∧ is_close msg = false
  | ToPrivateChan _ msg _ => canHandle msg = false ∧ is_close msg = false
  | _ => True
  end.

Lemma handle_message_spec d ssMap ssMap' effs c :
  handle_message d ssMap = (ssMap', effs) →
  handed_over c effs = sent_on c [d] ∧ Forall sorted_out effs ∧
  ∀ more, disciplined ssMap' more → disciplined ssMap (effs ++ more).
Proof.
  unfold handle_message. set (x := decoded_chan d).
  assert (∀ e more, match e with OnNewStream _ => False | OnStreamClose y => y = x
      | SendDecodeError y | ToMsgQ y _ _ | ToPrivateChan y _ _ => y = x end →
    disciplined ({[x]} ∪ ssMap) (e :: more) →
    disciplined ssMap (((if bool_decide (x ∈ ssMap) then [] else [OnNewStream x]) ++ [e]) ++ more)) as Hnew.
  { intros e more He Hd. destruct (bool_decide_reflect (x ∈ ssMap)) as [Hx|Hx]; simpl.
    - replace ({[x]} ∪ ssMap) with ssMap in Hd by set_solver. done.
    - by split. }
  assert (∀ e, handed_over c ((if bool_decide (x ∈ ssMap) then [] else [OnNewStream x]) ++ [e]) = handed_over c [e]) as Hho
    by (intros e; by destruct (bool_decide (x ∈ ssMap))).
  assert (∀ e, sorted_out e → Forall sorted_out ((if bool_decide (x ∈ ssMap) then [] else [OnNewStream x]) ++ [e])) as Hso
    by (intros e He; destruct (bool_decide (x ∈ ssMap)); repeat constructor; done).
  destruct d as [[y msg tfs]|y]; simpl in x; subst x; simpl.
  - destruct (is_close msg) eqn:Hc; [|destruct (canHandle msg) eqn:Hh]; intros [= <- <-]; rewrite Hho; simpl;
      rewrite ?Hc, ?andb_false_r, ?andb_true_r; (split; [by destruct (bool_decide _)|split; [by apply Hso|]]);
      intros more Hd; apply Hnew; simpl; split; try done; set_solver.
  - intros [= <- <-]. rewrite Hho. split; [done|]. split; [by apply Hso|].
    intros more Hd. apply Hnew; simpl; [done|]. split; [set_solver|done].
Qed.

Lemma handed_over_app c l k : handed_over c (l ++ k) = handed_over c l ++ handed_over c k.
Proof. apply omap_app. Qed.

Lemma sent_on_cons c d ds : sent_on c (d :: ds) = sent_on c [d] ++ sent_on c ds.
Proof. unfold sent_on. simpl. by destruct (match d with Decoded _ => _ | _ => _ end). Qed.
End dispatch.

(** C15. Dispatching: whatever arrives on a connection, each stream is handed
    exactly the messages sent on its channel (but for the closing ones and those
    that cannot be decoded), in order and with their tracing IDs, those the
    service knows through its queue and the others privately, and only between
    the opening and the closing of the stream. *)
Theorem streams_dispatch {Msg} (is_close canHandle : Msg → bool) (ds : list (decoded (Msg := Msg))) ssMap :
  let effs := handleConn is_close canHandle ds ssMap in
  (∀ c, handed_over c effs = sent_on is_close c ds) ∧
  Forall (sorted_out is_close canHandle) effs ∧ disciplined ssMap effs.
Proof.
  revert ssMap; induction ds as [|d ds IH]; intros ssMap; [done|]. cbn [handleConn].
  destruct (handle_message is_close canHandle d ssMap) as [ssMap' effs] eqn:Hd.
  destruct (IH ssMap') as (IH1 & IH2 & IH3). split; [|split].
  - intros c. destruct (handle_message_spec _ _ _ _ _ _ c Hd) as (Hc & _ & _).
    by rewrite handed_over_app, sent_on_cons, Hc, IH1.
  - apply Forall_app. split; [|done]. by apply (handle_message_spec _ _ _ _ _ _ 0%Z Hd).
  - destruct (handle_message_spec _ _ _ _ _ _ 0%Z Hd) as (_ & _ & Hmore). by apply Hmore.
Qed.
