(* ===== verification/TraceFlow.v ===== *)
(** How the tracing ID of a message spreads (routinelocal.go, routinelocal_fake.go,
    message.go, scalamsgq.go and the Send and Recv of the four kinds of stream): a
    goroutine that handles a message, or receives one on the server's end of a stream,
    keeps its ID and gives it to whatever it sends; every message with an ID is
    recorded where it is sent and where it is taken.  Which message reaches which
    stream is the subject of the transports: here a message that was sent can be taken
    by anybody at the other end, once. *)
From S2P Require Import Prelude Names MessageTracer Stream Tracing TraceHelper TraceReport.

(** ** Goroutines and messages *)

(** [serviceInfo] *)
Record serviceInfo := mkServiceInfo { si_providerID : bytes; si_publisherName : bytes; si_serviceName : bytes }.

(** "publisher/service@provider" *)
Definition info_tag (svc : serviceInfo) : bytes :=
  svc_tag (si_publisherName svc) (si_serviceName svc) (si_providerID svc).

(** The end of a stream: [chanClientStream] and [streamClientStream], or
    [chanServerStream] and [streamServerStream] with their [svcInfo] *)
Inductive stream_end := ClientEnd | ServerEnd (svc : serviceInfo).

(** Who takes a message: the client's [Recv], the server's [Recv], or a worker of the
    message queue *)
Inductive taker := ClientRecv | ServerRecv (svc : serviceInfo) | Handler (svc : serviceInfo).

Definition send_tag (from : stream_end) : bytes :=
  match from with ClientEnd => str "client send" | ServerEnd svc => info_tag svc ++ str " send" end.
Definition take_tag (how : taker) : bytes :=
  match how with
  | ClientRecv => str "client recv"
  | ServerRecv svc => info_tag svc ++ str " recv"
  | Handler svc => info_tag svc ++ str " handler"
  end.

(** Messages go from one end to the other. *)
Definition reaches (from : stream_end) (how : taker) : bool :=
  match from, how with
  | ClientEnd, (ServerRecv _ | Handler _) => true
  | ServerEnd _, ClientRecv => true
  | _, _ => false
  end.

(** A message that was sent; of its sender: the process, the types it traced then, and
    the message the goroutine had taken last at a server's end *)
Record packet := mkPacket {
  p_proc : nat;
  p_from : stream_end;
  p_msg : message;
  p_feats : transportFeats;
  p_parent : option nat;
  p_types : traced;
}.

(** A call of [traceMsg]: the number of the message, its ID, the tag *)
Record note := mkNote { n_packet : nat; n_id : uuidInfo; n_tag : bytes }.

(** A goroutine: [routineLocal], absent where the platform has none, the message it
    took last at a server's end, and the call of [traceMsg] it is about to make *)
Record routine := mkRoutine {
  r_proc : nat;
  r_local : option (option uuidInfo);
  r_current : option nat;
  r_pending : option note;
}.

(** What was given to [traceMsg], with the number of the message *)
Record entry := mkEntry { e_packet : nat; e_raw : tracedMsgRaw }.
Definition note_of (e : entry) : note := mkNote (e_packet e) (raw_tracingID (e_raw e)) (raw_tag (e_raw e)).

Record flow := mkFlow {
  routines : list routine;
  tables : gmap nat traced;
  packets : list packet;
  takers : gmap nat taker;
  entries : list entry;
}.

Definition flow_start : flow := mkFlow [] ∅ [] ∅ [].

Definition table_of (p : nat) (s : flow) : traced := default ∅ (tables s !! p).
Definition id_of (p : packet) : option uuidInfo := feats_tracingID (p_feats p).

(** [tfs = append(tfs, tracingID)] *)
Definition make_feats (tracingID : option uuidInfo) : transportFeats := option_list tracingID.

(** [*tracedMessageRecord] *)
Definition is_record (msg : message) : bool :=
  bool_decide (ptr_depth (mtype msg) = 1) && bool_decide (base_name (mtype msg) = str "adaptiveservice.tracedMessageRecord").

Inductive action :=
| Go (p : nat)                                   (* a goroutine of process p starts *)
| Configure (p : nat) (types : traced)           (* TraceMsgBy*, UnTraceMsgAll *)
| Send (g : nat) (from : stream_end) (msg : message)
| SendFails (g : nat) (msg : message)            (* Send gets a tracing ID and then an error *)
| Take (g k : nat) (how : taker)
| Trace (g : nat) (now : Z) (network local remote : bytes).

Section spreading.
(** [builds p] tells whether the platform of process [p] has goroutine-local storage,
    [print] is "%#v". *)
Context (builds : nat → bool) (print : message → bytes).

Definition set_routine (g : nat) (r : routine) (s : flow) : flow :=
  mkFlow (<[g := r]> (routines s)) (tables s) (packets s) (takers s) (entries s).

(** [getRoutineLocal] of a new goroutine: nothing on the platforms of
    routinelocal_fake.go *)
Definition new_routine (p : nat) : routine := mkRoutine p (if builds p then Some None else None) None None.

(** [Send] of the four kinds of stream, up to its call of [traceMsg] *)
Definition send_exec (g : nat) (from : stream_end) (msg : message) (s : flow) : option flow :=
  match routines s !! g with
  | Some (mkRoutine p local current None) =>
      let k := length (packets s) in
      let '(tid, types) := getTracingID local msg (table_of p s) in
      Some (mkFlow (<[g := mkRoutine p local current ((λ t, mkNote k t (send_tag from)) <$> tid)]> (routines s))
              (<[p := types]> (tables s))
              (packets s ++ [mkPacket p from msg (make_feats tid) current (table_of p s)])
              (takers s) (entries s))
  | _ => None
  end.

(** [worker] and [Recv] of the four kinds of stream, with a message; those of a server
    set the tracing ID of the goroutine *)
Definition take_exec (g k : nat) (how : taker) (s : flow) : option flow :=
  match routines s !! g, packets s !! k, takers s !! k with
  | Some (mkRoutine p local current None), Some q, None =>
      if reaches (p_from q) how then
        let tid := id_of q in
        let pending := (λ t, mkNote k t (take_tag how)) <$> tid in
        let r := match how with
                 | ClientRecv => mkRoutine p local current pending
                 | _ => mkRoutine p ((λ _, tid) <$> local) (Some k) pending
                 end in
        Some (mkFlow (<[g := r]> (routines s)) (tables s) (packets s) (<[k := how]> (takers s)) (entries s))
      else None
  | _, _, _ => None
  end.

(** The call of [traceMsg], with what [record_of] needs *)
Definition trace_exec (g : nat) (now : Z) (network addr remote : bytes) (s : flow) : option flow :=
  match routines s !! g with
  | Some (mkRoutine p local current (Some (mkNote k tid tag))) =>
      match packets s !! k with
      | Some q =>
          let raw := mkRaw now (print (p_msg q)) (is_record (p_msg q)) tid tag network addr remote in
          Some (mkFlow (<[g := mkRoutine p local current None]> (routines s)) (tables s) (packets s) (takers s)
                  (entries s ++ [mkEntry k raw]))
      | None => None
      end
  | _ => None
  end.

Definition flow_exec (a : action) (s : flow) : option flow :=
  match a with
  | Go p => Some (mkFlow (routines s ++ [new_routine p]) (tables s) (packets s) (takers s) (entries s))
  | Configure p types => Some (mkFlow (routines s) (<[p := types]> (tables s)) (packets s) (takers s) (entries s))
  | Send g from msg => send_exec g from msg s
  | SendFails g msg =>
      match routines s !! g with
      | Some (mkRoutine p local current None) =>
          Some (mkFlow (routines s) (<[p := (getTracingID local msg (table_of p s)).2]> (tables s))
                  (packets s) (takers s) (entries s))
      | _ => None
      end
  | Take g k how => take_exec g k how s
  | Trace g now network addr remote => trace_exec g now network addr remote s
  end.

Fixpoint flow_all (l : list action) (s : flow) : option flow :=
  match l with
  | [] => Some s
  | a :: l => match flow_exec a s with Some s' => flow_all l s' | None => None end
  end.

Definition flow_step (s s' : flow) : Prop := ∃ a, flow_exec a s = Some s'.

(** ** What is expected of a run *)

(** Message [k] was sent by a goroutine that had taken message [j] last, on a platform
    where it remembers. *)
Definition follows (s : flow) (k j : nat) : Prop :=
  ∃ p, packets s !! k = Some p ∧ p_parent p = Some j ∧ builds (p_proc p) = true.

(** The ID of a message is one of the table of its process. *)
Definition chosen (p : packet) (t : uuidInfo) : Prop :=
  id_of p = Some t ∧ ∃ tc, p_types p !! mtype (p_msg p) = Some tc ∧ (tc_seqNum tc < tc_count tc)%Z ∧
    filters_match (p_msg p) (tc_filters tc) = true ∧ t = mkUuidInfo (tc_id tc) (tc_seqNum tc).

(** The records of message [k], if it has an ID: one where it was sent, and one where it
    was taken *)
Definition notes_for (k : nat) (p : packet) (how : option taker) : list note :=
  match id_of p with
  | None => []
  | Some t => mkNote k t (send_tag (p_from p)) :: option_list ((λ h, mkNote k t (take_tag h)) <$> how)
  end.
Fixpoint notes_from (k : nat) (ps : list packet) (tk : gmap nat taker) : list note :=
  match ps with [] => [] | p :: ps => notes_for k p (tk !! k) ++ notes_from (S k) ps tk end.

Definition quiet (s : flow) : Prop := ∀ g r, routines s !! g = Some r → r_pending r = None.

(** ** Invariant *)

(** The ID a goroutine has from message [parent] *)
Definition inherited (ps : list packet) (parent : option nat) : option uuidInfo := parent ≫= λ j, ps !! j ≫= id_of.

Record packet_ok (ps : list packet) (k : nat) (p : packet) : Prop := mkPacketOk {
  pk_before : ∀ j, p_parent p = Some j → j < k;
  pk_given : ∀ t, builds (p_proc p) = true → inherited ps (p_parent p) = Some t → id_of p = Some t;
  pk_origin : ∀ t, id_of p = Some t → builds (p_proc p) = true ∧ inherited ps (p_parent p) = Some t ∨ chosen p t;
}.

Record flow_ok (s : flow) : Prop := mkFlowOk {
  fo_local : ∀ g r, routines s !! g = Some r →
    r_local r = if builds (r_proc r) then Some (inherited (packets s) (r_current r)) else None;
  fo_current : ∀ g r j, routines s !! g = Some r → r_current r = Some j → j < length (packets s);
  fo_packet : ∀ k p, packets s !! k = Some p → packet_ok (packets s) k p;
  fo_taken : ∀ k, is_Some (takers s !! k) → k < length (packets s);
  fo_entries : Forall (λ e, ∃ q, packets s !! e_packet e = Some q ∧ raw_msg (e_raw e) = print (p_msg q)) (entries s);
  fo_notes : (note_of <$> entries s) ++ omap r_pending (routines s) ≡ₚ notes_from 0 (packets s) (takers s);
}.

Lemma id_of_make proc from msg tid parent types : id_of (mkPacket proc from msg (make_feats tid) parent types) = tid.
Proof. by destruct tid. Qed.

Lemma inherited_app ps l parent : (∀ j, parent = Some j → j < length ps) → inherited (ps ++ l) parent = inherited ps parent.
Proof. intros Hlt. destruct parent as [j|]; [|done]. simpl. by rewrite lookup_app_l by auto. Qed.

Lemma getTracingID_carried t msg types : getTracingID (Some (Some t)) msg types = (Some t, types).
Proof. done. Qed.

Lemma getTracingID_origin proc from local msg types t parent : (getTracingID local msg types).1 = Some t →
  local = Some (Some t) ∨ chosen (mkPacket proc from msg (make_feats (Some t)) parent types) t.
Proof.
  unfold getTracingID. destruct local as [[u|]|]; [intros [= ->]; by left| |];
    (case_bool_decide; [done|]; destruct (types !! mtype msg) as [tc|] eqn:Htc; [|done];
     case_bool_decide; [done|]; destruct (filters_match msg (tc_filters tc)) eqn:Hf; [|done]; intros [= <-]; right;
     split; [done|]; exists tc; split_and!; [done|simpl; lia|done|done]).
Qed.

(** ** Records *)

Lemma notes_from_app ps p k tk : notes_from k (ps ++ [p]) tk = notes_from k ps tk ++ notes_for (k + length ps) p (tk !! (k + length ps)).
Proof.
  revert k. induction ps as [|q ps IH]; intros k; simpl; [by rewrite Nat.add_0_r, app_nil_r|].
  by rewrite IH, <- app_assoc, <- plus_n_Sm.
Qed.

(** Taking a message before or after the packets of the list *)
Lemma notes_from_other ps k i how tk : i < k ∨ k + length ps ≤ i → notes_from k ps (<[i := how]> tk) = notes_from k ps tk.
Proof.
  revert k. induction ps as [|p ps IH]; intros k Hi; [done|]. simpl in *.
  rewrite IH by lia. by rewrite lookup_insert_ne by lia.
Qed.

Lemma notes_from_take ps k i p how tk : ps !! i = Some p → tk !! (k + i) = None →
  notes_from k ps (<[k + i := how]> tk) ≡ₚ
  option_list ((λ t, mkNote (k + i) t (take_tag how)) <$> id_of p) ++ notes_from k ps tk.
Proof.
  revert k i. induction ps as [|q ps IH]; intros k [|i] Hp Hk; try done; simpl in *.
  - injection Hp as ->. rewrite Nat.add_0_r in *. rewrite notes_from_other by lia. rewrite lookup_insert_eq, Hk.
    unfold notes_for. destruct (id_of p) as [t|]; simpl; [apply Permutation_swap|done].
  - rewrite <- plus_n_Sm in *. change (S (k + i)) with (S k + i) in *. rewrite IH by done.
    rewrite lookup_insert_ne by lia. by rewrite Permutation_app_swap_app.
Qed.

Lemma omap_pending_insert (rs : list routine) g r r' : rs !! g = Some r → r_pending r = None →
  omap r_pending (<[g := r']> rs) ≡ₚ option_list (r_pending r') ++ omap r_pending rs.
Proof.
  revert g. induction rs as [|q rs IH]; intros [|g] Hr Hp; try done; simpl in *.
  - injection Hr as ->. rewrite Hp. by destruct (r_pending r').
  - specialize (IH g Hr Hp). destruct (r_pending q); [|done]. rewrite IH. by destruct (r_pending r'); simpl; [apply Permutation_swap|].
Qed.

Lemma omap_pending_done (rs : list routine) g r r' n : rs !! g = Some r → r_pending r = Some n → r_pending r' = None →
  n :: omap r_pending (<[g := r']> rs) ≡ₚ omap r_pending rs.
Proof.
  revert g. induction rs as [|q rs IH]; intros [|g] Hr Hp Hp'; try done; simpl in *.
  - injection Hr as ->. by rewrite Hp, Hp'.
  - specialize (IH g Hr Hp Hp'). destruct (r_pending q); [|done]. by rewrite Permutation_swap, IH.
Qed.

(** ** Each step *)

Lemma go_ok p s : flow_ok s →
  flow_ok (mkFlow (routines s ++ [mkRoutine p (if builds p then Some None else None) None None])
             (tables s) (packets s) (takers s) (entries s)).
Proof.
  intros [H1 H2 H3 H4 H6 H5]. split; simpl; [| |done|done|done|by rewrite omap_app, app_nil_r].
  - intros g r [Hr|[_ Hr]]%lookup_app_Some; [by eapply H1|]. by apply list_lookup_singleton_Some in Hr as [_ <-].
  - intros g r j [Hr|[_ Hr]]%lookup_app_Some; [by eapply H2|]. by apply list_lookup_singleton_Some in Hr as [_ <-].
Qed.

Lemma send_ok s g p local current from msg tid types tbl : flow_ok s → routines s !! g = Some (mkRoutine p local current None) →
  getTracingID local msg types = (tid, tbl) →
  flow_ok (mkFlow (<[g := mkRoutine p local current ((λ t, mkNote (length (packets s)) t (send_tag from)) <$> tid)]> (routines s))
             (<[p := tbl]> (tables s)) (packets s ++ [mkPacket p from msg (make_feats tid) current types]) (takers s) (entries s)).
Proof.
  intros [H1 H2 H3 H4 H6 H5] Hg Ht. pose proof (H1 _ _ Hg) as Hl. pose proof (λ j, H2 _ _ j Hg) as Hc. simpl in Hl, Hc.
  split; simpl.
  - intros i x [(<- & <- & _)|[_ Hx]]%list_lookup_insert_Some; simpl; [by rewrite inherited_app|].
    rewrite inherited_app by eauto. by eapply H1.
  - intros i x j [(<- & <- & _)|[_ Hx]]%list_lookup_insert_Some Hj; rewrite length_app; simpl.
    + specialize (Hc j Hj). lia.
    + specialize (H2 i x j Hx Hj). lia.
  - intros k q [Hq|[Hk Hq]]%lookup_app_Some.
    + destruct (H3 k q Hq) as [G1 G2 G3]. apply lookup_lt_Some in Hq.
      split; [done|intros t|intros t]; rewrite ?inherited_app by (intros j Hj%G1; lia); auto.
    + apply list_lookup_singleton_Some in Hq as [Hk' <-]. assert (k = length (packets s)) as -> by lia.
      split; simpl; [done|intros t Hb|intros t]; rewrite inherited_app, id_of_make by done.
      * intros Hi. rewrite Hl, Hb, Hi, getTracingID_carried in Ht. congruence.
      * intros ->. pose proof (getTracingID_origin p from local msg types t current) as Ho. rewrite Ht in Ho.
        destruct (Ho eq_refl) as [Hs|]; [left|by right]. rewrite Hl in Hs. destruct (builds p); [|done]. split; congruence.
  - intros k Hk%H4. rewrite length_app. lia.
  - eapply Forall_impl; [exact H6|]. intros e (q & Hq & He). exists q. split; [|done]. by apply lookup_app_l_Some.
  - rewrite omap_pending_insert by done. simpl. rewrite notes_from_app. simpl.
    assert (takers s !! length (packets s) = None) as ->.
    { apply eq_None_not_Some. intros Hk%H4. lia. }
    unfold notes_for. rewrite id_of_make. rewrite Permutation_app_swap_app, H5. rewrite Permutation_app_comm. by destruct tid.
Qed.

Lemma take_ok s g k p local current q how : flow_ok s → routines s !! g = Some (mkRoutine p local current None) →
  packets s !! k = Some q → takers s !! k = None →
  flow_ok (mkFlow (<[g := let pending := (λ t, mkNote k t (take_tag how)) <$> id_of q in
                          match how with
                          | ClientRecv => mkRoutine p local current pending
                          | _ => mkRoutine p ((λ _, id_of q) <$> local) (Some k) pending
                          end]> (routines s)) (tables s) (packets s) (<[k := how]> (takers s)) (entries s)).
Proof.
  intros [H1 H2 H3 H4 H6 H5] Hg Hq Hk. pose proof (H1 _ _ Hg) as Hl. pose proof (λ j, H2 _ _ j Hg) as Hc. simpl in Hl, Hc.
  pose proof (lookup_lt_Some _ _ _ Hq) as Hlt. split; simpl; [| |done| |done|].
  - intros i x [(<- & <- & _)|[_ Hx]]%list_lookup_insert_Some; [|by eapply H1].
    destruct how; simpl; [done|..]; rewrite Hl, Hq; by destruct (builds p).
  - intros i x j [(<- & <- & _)|[_ Hx]]%list_lookup_insert_Some; [|by eapply H2].
    destruct how; simpl; [apply Hc|..]; by intros [= <-].
  - intros i [<-|[_ Hi]]%lookup_insert_is_Some; [done|by apply H4].
  - pose proof (notes_from_take (packets s) 0 k q how (takers s) Hq Hk) as Hn. simpl in Hn. rewrite Hn, <- H5.
    rewrite omap_pending_insert by done. rewrite Permutation_app_swap_app. by destruct how.
Qed.

Lemma trace_ok s g p local current k tid tag now network addr remote q : flow_ok s →
  routines s !! g = Some (mkRoutine p local current (Some (mkNote k tid tag))) → packets s !! k = Some q →
  flow_ok (mkFlow (<[g := mkRoutine p local current None]> (routines s)) (tables s) (packets s) (takers s)
             (entries s ++ [mkEntry k (mkRaw now (print (p_msg q)) (is_record (p_msg q)) tid tag network addr remote)])).
Proof.
  intros [H1 H2 H3 H4 H6 H5] Hg Hq. split; simpl; [| |done|done| |].
  - intros i x [(<- & <- & _)|[_ Hx]]%list_lookup_insert_Some; [exact (H1 _ _ Hg)|by eapply H1].
  - intros i x j [(<- & <- & _)|[_ Hx]]%list_lookup_insert_Some; [exact (H2 _ _ j Hg)|by eapply H2].
  - apply Forall_app. split; [done|]. constructor; [by exists q|done].
  - rewrite fmap_app, <- app_assoc. simpl. unfold note_of at 2. simpl.
    rewrite (omap_pending_done _ g _ _ _ Hg) by done. done.
Qed.

Lemma flow_exec_ok a s s' : flow_ok s → flow_exec a s = Some s' → flow_ok s'.
Proof.
  intros Hok. destruct a as [p|p types|g from msg|g msg|g k how|g now network addr remote]; simpl.
  - intros [= <-]. by apply go_ok.
  - intros [= <-]. by destruct Hok; split.
  - unfold send_exec. destruct (routines s !! g) as [[p local current [n|]]|] eqn:Hg; try done.
    destruct (getTracingID local msg _) as [tid tbl] eqn:Ht. intros [= <-]. by apply send_ok.
  - destruct (routines s !! g) as [[p local current [n|]]|] eqn:Hg; try done. intros [= <-]. by destruct Hok; split.
  - unfold take_exec. destruct (routines s !! g) as [[p local current [n|]]|] eqn:Hg; try done.
    destruct (packets s !! k) as [q|] eqn:Hq; [|done]. destruct (takers s !! k) eqn:Hk; [done|].
    destruct (reaches _ _); [|done]. intros [= <-]. by apply take_ok.
  - unfold trace_exec. destruct (routines s !! g) as [[p local current [[k tid tag]|]]|] eqn:Hg; try done.
    destruct (packets s !! k) as [q|] eqn:Hq; [|done]. intros [= <-]. by apply trace_ok.
Qed.

Lemma flow_reachable s : rtc flow_step flow_start s → flow_ok s.
Proof.
  apply (rtc_invariant flow_step flow_ok); [intros s1 s2 Hok [a Ha]; by eapply flow_exec_ok|].
  split; simpl; try done. intros k [x Hx]. by rewrite lookup_empty in Hx.
Qed.

(** ** Properties *)

Lemma given_along s k r p q t : flow_ok s → rtc (follows s) k r → packets s !! k = Some p →
  packets s !! r = Some q → id_of q = Some t → id_of p = Some t.
Proof.
  intros Hok Hkr. revert p. induction Hkr as [k|k j r (p' & Hp' & Hpar & Hb) _ IH]; intros p Hp Hq Ht; [congruence|].
  rewrite Hp in Hp'. injection Hp' as <-. destruct (fo_packet _ Hok k p Hp) as [Hbefore Hgiven _].
  specialize (Hbefore j Hpar). pose proof (lookup_lt_Some _ _ _ Hp) as Hlt.
  destruct (lookup_lt_is_Some_2 (packets s) j) as [pj Hj]; [lia|].
  apply Hgiven; [done|]. rewrite Hpar. simpl. rewrite Hj. simpl. by eapply IH.
Qed.

Lemma chosen_first s k p t : flow_ok s → packets s !! k = Some p → id_of p = Some t →
  ∃ r q, rtc (follows s) k r ∧ packets s !! r = Some q ∧ chosen q t.
Proof.
  intros Hok. revert p. induction (lt_wf k) as [k _ IH]. intros p Hp Ht.
  destruct (fo_packet _ Hok k p Hp) as [Hbefore _ Horigin]. destruct (Horigin t Ht) as [[Hb Hi]|Hc]; [|by exists k, p].
  destruct (p_parent p) as [j|] eqn:Hpar; [|done]. simpl in Hi. destruct (packets s !! j) as [pj|] eqn:Hj; [|done].
  destruct (IH j (Hbefore j eq_refl) pj Hj Hi) as (r & q & Hr & Hq & Hc). exists r, q. split; [|done].
  eapply rtc_l; [|exact Hr]. by exists p.
Qed.

(** C31. Whatever the goroutines do, in any order: a message has tracing ID [t] exactly if
    it follows, through the messages its senders had taken last at a server's end, some
    message whose ID [t] its sender chose by the table of traced types.  What is given
    to [traceMsg] is a message with its own ID; and once no call of [traceMsg] is
    pending there is for each message with an ID exactly one record where it was sent
    and, if it was taken, one where it was taken, and no other. *)
Theorem tracing_ids_spread s : rtc flow_step flow_start s →
  (∀ k p t, packets s !! k = Some p →
     id_of p = Some t ↔ ∃ r q, rtc (follows s) k r ∧ packets s !! r = Some q ∧ chosen q t) ∧
  (∀ e, e ∈ entries s → ∃ q, packets s !! e_packet e = Some q ∧ raw_msg (e_raw e) = print (p_msg q)) ∧
  (note_of <$> entries s) ⊆+ notes_from 0 (packets s) (takers s) ∧
  (quiet s → (note_of <$> entries s) ≡ₚ notes_from 0 (packets s) (takers s)).
Proof.
  intros Hok%flow_reachable. split_and!.
  - intros k p t Hp. split; [by apply chosen_first|]. intros (r & q & Hr & Hq & Hc & _). by eapply given_along.
  - pose proof (fo_entries _ Hok) as He. rewrite Forall_forall in He. exact He.
  - rewrite <- (fo_notes _ Hok). apply submseteq_inserts_r. done.
  - intros Hquiet. rewrite <- (fo_notes _ Hok). assert (omap r_pending (routines s) = []) as ->; [|by rewrite app_nil_r].
    clear Hok. unfold quiet in Hquiet. induction (routines s) as [|r rs IH]; [done|]. simpl.
    rewrite (Hquiet 0 r eq_refl). apply IH. intros g. exact (Hquiet (S g)).
Qed.
End spreading.

(** ** Calls *)

(** A call by a goroutine: the service, the worker that handles the request, the reply,
    and the calls the handler makes before it replies *)
#[warnings="-register-all"] Inductive job :=
| Job (svc : serviceInfo) (w : nat) (request reply : message) (subs : list job).

Definition job_request (j : job) : message := let '(Job _ _ m _ _) := j in m.

Lemma job_tree_ind (P : job → Prop) :
  (∀ svc w m r subs, Forall P subs → P (Job svc w m r subs)) → ∀ j, P j.
Proof.
  intros HP. fix go 1. intros [svc w m r subs]. apply HP.
  induction subs as [|c subs IH]; constructor; [apply go|exact IH].
Qed.

Section calling.
Context (builds : nat → bool) (print : message → bytes).
(** The clock at the n-th record, and the addresses of the connections *)
Context (clock : nat → Z) (network addr remote : bytes).

(** The goroutine calls [traceMsg]. *)
Definition record (g : nat) (s : flow) : option flow :=
  flow_exec builds print (Trace g (clock (length (entries s))) network addr remote) s.
Definition send_traced (g : nat) (from : stream_end) (msg : message) (s : flow) : option flow :=
  s ← flow_exec builds print (Send g from msg) s; record g s.
Definition take_traced (g k : nat) (how : taker) (s : flow) : option flow :=
  s ← flow_exec builds print (Take g k how) s; record g s.

(** [SendRecv] of goroutine [g] with the work of the handler, nobody else doing
    anything *)
Fixpoint call_job (g : nat) (j : job) (s : flow) : option flow :=
  let '(Job svc w request reply subs) := j in
  let k := length (packets s) in
  s ← send_traced g ClientEnd request s;
  s ← take_traced w k (Handler svc) s;
  s ← (fix calls l s := match l with [] => Some s | j :: l => s ← call_job w j s; calls l s end) subs s;
  let k := length (packets s) in
  s ← send_traced w (ServerEnd svc) reply s;
  take_traced g k ClientRecv s.

Fixpoint call_jobs (g : nat) (l : list job) (s : flow) : option flow :=
  match l with [] => Some s | j :: l => s ← call_job g j s; call_jobs g l s end.

(** The call that stands for a job in a report *)
#[warnings="-register-all"] Inductive drawn (t : uuidInfo) : job → call → Prop :=
| drawn_job svc w request reply subs r1 r2 cs r3 r4 :
    rcd_msg r1 = print request → rcd_msg r2 = print request → rcd_msg r3 = print reply → rcd_msg r4 = print reply →
    Forall (λ r, rcd_tracingID r = t) [r1; r2; r3; r4] →
    Forall2 (drawn t) subs cs →
    drawn t (Job svc w request reply subs) (Call (info_tag svc) r1 r2 cs r3 r4).

(** The workers of a job have goroutine-local storage. *)
Fixpoint staffed (s : flow) (j : job) : Prop :=
  let '(Job _ w _ _ subs) := j in
  (∃ r, routines s !! w = Some r ∧ builds (r_proc r) = true) ∧
  (fix all l := match l with [] => True | j :: l => staffed s j ∧ all l end) subs.

Lemma staffed_subs s svc w m r subs : staffed s (Job svc w m r subs) ↔
  (∃ r, routines s !! w = Some r ∧ builds (r_proc r) = true) ∧ Forall (staffed s) subs.
Proof. simpl. f_equiv. induction subs as [|j l IH]; [by split|]. rewrite Forall_cons. by f_equiv. Qed.

(** From [s] to [s'] the goroutines stay, none with a record to make, and those whose ID
    changes have [t]. *)
Definition kept (t : uuidInfo) (s s' : flow) : Prop :=
  length (routines s') = length (routines s) ∧
  ∀ g r, routines s !! g = Some r → ∃ r', routines s' !! g = Some r' ∧ r_proc r' = r_proc r ∧
    (r_pending r = None → r_pending r' = None) ∧ (r_local r' = r_local r ∨ r_local r' = Some (Some t)).

Lemma kept_refl t s : kept t s s.
Proof. split; [done|]. intros g r Hr. exists r. auto. Qed.

Lemma kept_trans t s1 s2 s3 : kept t s1 s2 → kept t s2 s3 → kept t s1 s3.
Proof.
  intros [L1 H1] [L2 H2]. split; [congruence|]. intros g r Hr. destruct (H1 g r Hr) as (r' & Hr' & P1 & Q1 & E1).
  destruct (H2 g r' Hr') as (r'' & Hr'' & P2 & Q2 & E2). exists r''. split_and!; [done|congruence|auto|].
  destruct E2 as [E2|E2]; [rewrite E2; auto|auto].
Qed.

Lemma kept_quiet t s s' : kept t s s' → quiet s → quiet s'.
Proof.
  intros [Hl H] Hq g r' Hr'. destruct (lookup_lt_is_Some_2 (routines s) g) as [r Hr].
  { rewrite <- Hl. by eapply lookup_lt_Some. }
  destruct (H g r Hr) as (r1 & Hr1 & _ & Hp & _). rewrite Hr' in Hr1. injection Hr1 as <-. apply Hp. by eapply Hq.
Qed.

Lemma kept_staffed t s s' j : kept t s s' → staffed s j → staffed s' j.
Proof.
  intros [_ H]. induction j as [svc w m r subs IH] using job_tree_ind. rewrite !staffed_subs.
  intros [(x & Hx & Hb) Hs]. split.
  - destruct (H w x Hx) as (x' & Hx' & Hp & _). exists x'. split; [done|congruence].
  - apply Forall_forall. intros j Hj. rewrite Forall_forall in IH, Hs. auto.
Qed.

(** What a piece of a call leaves: records of some messages *)
Record leaves (t : uuidInfo) (s s' : flow) (rs : list tracedMessageRecord) : Prop := mkLeaves {
  lv_run : rtc (flow_step builds print) s s';
  lv_kept : kept t s s';
  lv_records : (λ e, record_of (e_raw e)) <$> entries s' = ((λ e, record_of (e_raw e)) <$> entries s) ++ rs;
  lv_times : rcd_timeStamp <$> rs = clock <$> seq (length (entries s)) (length rs);
}.

Lemma leaves_entries t s s' rs : leaves t s s' rs → length (entries s') = length (entries s) + length rs.
Proof. intros [_ _ H _]. apply (f_equal length) in H. by rewrite length_app, !length_fmap in H. Qed.

Lemma leaves_nil t s : leaves t s s [].
Proof. split; [apply rtc_refl|apply kept_refl|by rewrite app_nil_r|done]. Qed.

Lemma leaves_app t s1 s2 s3 rs1 rs2 : leaves t s1 s2 rs1 → leaves t s2 s3 rs2 → leaves t s1 s3 (rs1 ++ rs2).
Proof.
  intros H1 H2. pose proof (leaves_entries _ _ _ _ H1) as Hl. destruct H1 as [R1 K1 E1 T1], H2 as [R2 K2 E2 T2].
  split; [by etrans|by eapply kept_trans|by rewrite E2, E1, app_assoc|].
  rewrite fmap_app, T1, T2, Hl, length_app, seq_app, fmap_app. done.
Qed.

(** One goroutine changes, and keeps its ID or gets [t]. *)
Lemma kept_one t s g r r' tbl ps tk es : routines s !! g = Some r → r_proc r' = r_proc r →
  (r_pending r = None → r_pending r' = None) → r_local r' = r_local r ∨ r_local r' = Some (Some t) →
  kept t s (mkFlow (<[g := r']> (routines s)) tbl ps tk es).
Proof.
  intros Hr Hp Hn Hl. split; simpl; [apply length_insert|]. intros i x Hx. destruct (decide (i = g)) as [->|Hne].
  - rewrite list_lookup_insert_eq by (by eapply lookup_lt_Some). rewrite Hr in Hx. injection Hx as <-. exists r'. auto.
  - rewrite list_lookup_insert_ne by done. exists x. auto.
Qed.

Lemma kept_insert2 t s g r r1 r2 tbl ps tk es : routines s !! g = Some r → r_proc r2 = r_proc r →
  r_pending r2 = None → r_local r2 = r_local r ∨ r_local r2 = Some (Some t) →
  kept t s (mkFlow (<[g := r2]> (<[g := r1]> (routines s))) tbl ps tk es).
Proof. intros. rewrite list_insert_insert_eq. by eapply kept_one. Qed.

Definition the_raw (s : flow) (q : packet) (t : uuidInfo) (tag : bytes) : tracedMsgRaw :=
  mkRaw (clock (length (entries s))) (print (p_msg q)) (is_record (p_msg q)) t tag network addr remote.

Lemma record_exec s g p local current k t tag q :
  routines s !! g = Some (mkRoutine p local current (Some (mkNote k t tag))) → packets s !! k = Some q →
  record g s = Some (mkFlow (<[g := mkRoutine p local current None]> (routines s)) (tables s) (packets s) (takers s)
                       (entries s ++ [mkEntry k (the_raw s q t tag)])).
Proof. intros Hg Hq. unfold record. simpl. unfold trace_exec. by rewrite Hg, Hq. Qed.

(** A step of goroutine [g] that makes a record pending, and the record *)
Lemma recorded_leaves a s g r r' tbl ps tk k t tag q : routines s !! g = Some r → r_proc r' = r_proc r →
  r_pending r' = Some (mkNote k t tag) → r_local r' = r_local r ∨ r_local r' = Some (Some t) → ps !! k = Some q →
  flow_exec builds print a s = Some (mkFlow (<[g := r']> (routines s)) tbl ps tk (entries s)) →
  (s1 ← flow_exec builds print a s; record g s1) =
    Some (mkFlow (<[g := mkRoutine (r_proc r') (r_local r') (r_current r') None]> (<[g := r']> (routines s))) tbl ps tk
            (entries s ++ [mkEntry k (the_raw s q t tag)])) ∧
  leaves t s (mkFlow (<[g := mkRoutine (r_proc r') (r_local r') (r_current r') None]> (<[g := r']> (routines s))) tbl ps tk
            (entries s ++ [mkEntry k (the_raw s q t tag)])) [record_of (the_raw s q t tag)].
Proof.
  intros Hr Hp Hn Hl Hq Ha. rewrite Ha. cbn [mbind option_bind]. destruct r' as [p' l' c' n']. simpl in Hp, Hn, Hl. subst n'.
  set (s1 := mkFlow (<[g := mkRoutine p' l' c' (Some (mkNote k t tag))]> (routines s)) tbl ps tk (entries s)) in *.
  assert (routines s1 !! g = Some (mkRoutine p' l' c' (Some (mkNote k t tag)))) as Hg.
  { simpl. apply list_lookup_insert_eq. by eapply lookup_lt_Some. }
  pose proof (record_exec s1 g p' l' c' k t tag q Hg Hq) as Hrec.
  split; [exact Hrec|]. split.
  - eapply rtc_l; [by exists a|]. eapply rtc_l; [|apply rtc_refl]. unfold record in Hrec. eexists. exact Hrec.
  - by eapply kept_insert2.
  - simpl. by rewrite fmap_app.
  - done.
Qed.

(** A message with an ID is sent and recorded. *)
Lemma send_leaves s g r from msg t : routines s !! g = Some r → r_pending r = None →
  (getTracingID (r_local r) msg (table_of (r_proc r) s)).1 = Some t →
  ∃ s' q, send_traced g from msg s = Some s' ∧ packets s' = packets s ++ [q] ∧ takers s' = takers s ∧
    id_of q = Some t ∧ p_from q = from ∧ p_msg q = msg ∧
    leaves t s s' [record_of (the_raw s q t (send_tag from))].
Proof.
  intros Hr Hp Ht. destruct r as [p local current pending]. simpl in *. subst pending.
  destruct (getTracingID local msg (table_of p s)) as [tid tbl] eqn:Hg. simpl in Ht. subst tid.
  set (q := mkPacket p from msg (make_feats (Some t)) current (table_of p s)).
  destruct (recorded_leaves (Send g from msg) s g _ (mkRoutine p local current (Some (mkNote (length (packets s)) t (send_tag from))))
    (<[p := tbl]> (tables s)) (packets s ++ [q]) (takers s) (length (packets s)) t (send_tag from) q Hr) as [He Hl]; try done.
  - by left.
  - by rewrite lookup_app_r, Nat.sub_diag by done.
  - simpl. unfold send_exec. by rewrite Hr, Hg.
  - eexists _, q. split; [exact He|]. by split_and!.
Qed.

(** A message with an ID is taken and recorded; at a server's end the goroutine gets the
    ID. *)
Lemma take_leaves s g r k q how t : routines s !! g = Some r → r_pending r = None →
  r_local r = (if builds (r_proc r) then Some (inherited (packets s) (r_current r)) else None) →
  packets s !! k = Some q → takers s !! k = None → reaches (p_from q) how = true → id_of q = Some t →
  ∃ s', take_traced g k how s = Some s' ∧ packets s' = packets s ∧
    leaves t s s' [record_of (the_raw s q t (take_tag how))] ∧
    (how ≠ ClientRecv → builds (r_proc r) = true → ∃ r', routines s' !! g = Some r' ∧ r_local r' = Some (Some t)).
Proof.
  intros Hr Hp Hloc Hq Hk Hd Ht. destruct r as [p local current pending]. simpl in *. subst pending.
  destruct (recorded_leaves (Take g k how) s g _
    (match how with
     | ClientRecv => mkRoutine p local current (Some (mkNote k t (take_tag how)))
     | _ => mkRoutine p ((λ _, Some t) <$> local) (Some k) (Some (mkNote k t (take_tag how)))
     end) (tables s) (packets s) (<[k := how]> (takers s)) k t (take_tag how) q Hr) as [He Hl].
  - by destruct how.
  - by destruct how.
  - destruct how; simpl; [by left|..]; destruct local; auto.
  - done.
  - simpl. unfold take_exec. rewrite Hr, Hq, Hk, Hd, Ht. by destruct how.
  - eexists. split; [exact He|]. split; [done|]. split; [exact Hl|]. intros Hne Hb. simpl.
    eexists. split; [apply list_lookup_insert_eq; rewrite length_insert; by eapply lookup_lt_Some|].
    rewrite Hb in Hloc. rewrite Hloc. by destruct how.
Qed.

Lemma call_job_eq g svc w request reply subs s : call_job g (Job svc w request reply subs) s =
  (s1 ← send_traced g ClientEnd request s;
   s2 ← take_traced w (length (packets s)) (Handler svc) s1;
   s3 ← call_jobs w subs s2;
   s4 ← send_traced w (ServerEnd svc) reply s3;
   take_traced g (length (packets s3)) ClientRecv s4).
Proof.
  cbn [call_job]. destruct (send_traced g ClientEnd request s) as [s1|]; [|done]. cbn [mbind option_bind].
  destruct (take_traced w _ _ s1) as [s2|]; [|done]. cbn [mbind option_bind].
  assert (∀ l u, (fix calls l s := match l with [] => Some s | j :: l => s ← call_job w j s; calls l s end) l u = call_jobs w l u) as ->.
  { induction l as [|j l IH]; intros u; [done|]. simpl. destruct (call_job w j u); [|done]. apply IH. }
  done.
Qed.

Local Abbreviation reached s := (rtc (flow_step builds print) flow_start s).

Lemma leaves_reached t s s' rs : reached s → leaves t s s' rs → reached s'.
Proof. intros Hs Hl. etrans; [exact Hs|apply Hl]. Qed.

Lemma kept_routine t s s' g r : kept t s s' → routines s !! g = Some r →
  ∃ r', routines s' !! g = Some r' ∧ r_proc r' = r_proc r ∧ (r_local r = Some (Some t) → r_local r' = Some (Some t)).
Proof.
  intros [_ H] Hr. destruct (H g r Hr) as (r' & Hr' & Hp & _ & Hl). exists r'. split_and!; [done|done|].
  intros Ht. destruct Hl; congruence.
Qed.

(** A message with an ID goes from one goroutine to another. *)
Lemma pass_leaves s g r h x from how msg t : reached s → quiet s → routines s !! g = Some r →
  (getTracingID (r_local r) msg (table_of (r_proc r) s)).1 = Some t → routines s !! h = Some x → reaches from how = true →
  ∃ s1 s2 q, send_traced g from msg s = Some s1 ∧ take_traced h (length (packets s)) how s1 = Some s2 ∧ p_msg q = msg ∧
    leaves t s s2 [record_of (the_raw s q t (send_tag from)); record_of (the_raw s1 q t (take_tag how))] ∧
    (how ≠ ClientRecv → builds (r_proc x) = true → ∃ r', routines s2 !! h = Some r' ∧ r_local r' = Some (Some t)).
Proof.
  intros Hs Hq Hr Ht Hx Hd.
  destruct (send_leaves s g r from msg t Hr (Hq g r Hr) Ht) as (s1 & q & Hs1 & Hp1 & Hk1 & Hi & Hf & Hm & L1).
  pose proof (flow_reachable _ _ _ (leaves_reached _ _ _ _ Hs L1)) as Hok1.
  pose proof (kept_quiet _ _ _ (lv_kept _ _ _ _ L1) Hq) as Q1.
  destruct (kept_routine _ _ _ h x (lv_kept _ _ _ _ L1) Hx) as (x1 & Hx1 & Hxp & _).
  destruct (take_leaves s1 h x1 (length (packets s)) q how t Hx1 (Q1 h x1 Hx1)) as (s2 & Hs2 & _ & L2 & Hw).
  - by eapply fo_local.
  - by rewrite Hp1, lookup_app_r, Nat.sub_diag by done.
  - rewrite Hk1. apply eq_None_not_Some. intros Hk%(fo_taken _ _ _ (flow_reachable _ _ _ Hs)). lia.
  - by rewrite Hf.
  - done.
  - exists s1, s2, q. split_and!; [done..|exact (leaves_app _ _ _ _ _ _ L1 L2)|]. by rewrite <- Hxp.
Qed.

Definition call_ok (t : uuidInfo) (j : job) : Prop := ∀ g s r, reached s → quiet s → routines s !! g = Some r →
  (getTracingID (r_local r) (job_request j) (table_of (r_proc r) s)).1 = Some t → staffed s j →
  ∃ s' c, call_job g j s = Some s' ∧ leaves t s s' (trace_of c) ∧ drawn t j c.

(** The calls of a handler that has the ID *)
Lemma calls_leave t subs : Forall (call_ok t) subs → ∀ w s r, reached s → quiet s → routines s !! w = Some r →
  r_local r = Some (Some t) → Forall (staffed s) subs →
  ∃ s' cs, call_jobs w subs s = Some s' ∧ leaves t s s' (flat_map trace_of cs) ∧ Forall2 (drawn t) subs cs.
Proof.
  induction 1 as [|j subs Hj _ IH]; intros w s r Hs Hq Hr Hl Hst.
  - exists s, []. split_and!; [done|apply leaves_nil|constructor].
  - apply Forall_cons in Hst as [Hst1 Hst].
    destruct (Hj w s r Hs Hq Hr) as (s1 & c & Hc & Hl1 & Hd1); [by rewrite Hl, getTracingID_carried|done|].
    destruct (kept_routine _ _ _ w r (lv_kept _ _ _ _ Hl1) Hr) as (r1 & Hr1 & _ & Ht1).
    destruct (IH w s1 r1) as (s2 & cs & Hcs & Hl2 & Hd2); [by eapply leaves_reached|exact (kept_quiet _ _ _ (lv_kept _ _ _ _ Hl1) Hq)|done|auto|
      eapply Forall_impl; [exact Hst|intros j' Hj'; eapply kept_staffed; [apply Hl1|done]]|].
    exists s2, (c :: cs). simpl. rewrite Hc. split_and!; [done|by eapply leaves_app|by constructor].
Qed.

Lemma call_leaves t j : call_ok t j.
Proof.
  induction j as [svc w request reply subs IH] using job_tree_ind. intros g s r Hs Hq Hr Ht Hst. rewrite call_job_eq.
  apply staffed_subs in Hst as [(x & Hx & Hb) Hsubs].
  destruct (pass_leaves s g r w x ClientEnd (Handler svc) request t Hs Hq Hr Ht Hx eq_refl) as (s1 & s2 & q & -> & E2 & Hm & L2 & Hw).
  cbn [mbind option_bind]. rewrite E2. cbn [mbind option_bind]. destruct Hw as (x2 & Hx2 & Hxl); [done..|].
  pose proof (leaves_reached _ _ _ _ Hs L2) as R2. pose proof (kept_quiet _ _ _ (lv_kept _ _ _ _ L2) Hq) as Q2.
  destruct (calls_leave t subs IH w s2 x2 R2 Q2 Hx2 Hxl) as (s3 & cs & -> & L3 & D3).
  { eapply Forall_impl; [exact Hsubs|]. intros j Hj. eapply kept_staffed; [apply L2|done]. }
  cbn [mbind option_bind]. pose proof (leaves_app _ _ _ _ _ _ L2 L3) as L23.
  pose proof (leaves_reached _ _ _ _ Hs L23) as R3. pose proof (kept_quiet _ _ _ (lv_kept _ _ _ _ L23) Hq) as Q3.
  destruct (kept_routine _ _ _ w x2 (lv_kept _ _ _ _ L3) Hx2) as (x3 & Hx3 & _ & Hxl3).
  destruct (kept_routine _ _ _ g r (lv_kept _ _ _ _ L23) Hr) as (r3 & Hr3 & _ & _).
  destruct (pass_leaves s3 w x3 g r3 (ServerEnd svc) ClientRecv reply t R3 Q3 Hx3) as (s4 & s5 & q' & -> & E5 & Hm' & L5 & _);
    [by rewrite Hxl3, getTracingID_carried|done|done|].
  cbn [mbind option_bind]. exists s5, (Call (info_tag svc) (record_of (the_raw s q t (send_tag ClientEnd)))
    (record_of (the_raw s1 q t (take_tag (Handler svc)))) cs (record_of (the_raw s3 q' t (send_tag (ServerEnd svc))))
    (record_of (the_raw s4 q' t (take_tag ClientRecv)))). split; [exact E5|]. split.
  - pose proof (leaves_app _ _ _ _ _ _ L23 L5) as L. rewrite <- !app_assoc in L. exact L.
  - constructor; simpl; [by rewrite Hm|by rewrite Hm|by rewrite Hm'|by rewrite Hm'|by repeat constructor|done].
Qed.

Lemma clock_sorted rs n : (∀ m n, m < n → (clock m < clock n)%Z) → rcd_timeStamp <$> rs = clock <$> seq n (length rs) →
  StronglySorted (λ a b, rcd_timeStamp a < rcd_timeStamp b)%Z rs.
Proof.
  intros Hclock. revert n. induction rs as [|r rs IH]; intros n Hrs; [constructor|]. simpl in Hrs. injection Hrs as Hr Hrs.
  constructor; [by eapply IH|]. apply Forall_forall. intros x Hx. 
  assert (rcd_timeStamp x ∈ rcd_timeStamp <$> rs) as Hin by (apply list_elem_of_fmap; eauto).
  unfold fmap in Hin. rewrite Hrs in Hin. apply list_elem_of_fmap in Hin as (m & -> & Hm).
  apply elem_of_seq in Hm. rewrite Hr. apply Hclock. lia.
Qed.

(** A schedule in which the records come in the order of the calls: [call_job] makes each
    record when its message was sent or taken, before anything else happens (other
    schedules give the same records, by [tracing_ids_spread], but not always in this
    order: [handled_before_sent]).  From any state that can be reached with no record pending, a call
    whose request gets tracing ID [t], with workers that have goroutine-local storage,
    runs to its end and leaves exactly the records, all of ID [t] and in the order of
    time, of the tree of calls that a report draws. *)
Theorem calls_recorded_as_drawn t j g s r : (∀ m n, m < n → (clock m < clock n)%Z) →
  rtc (flow_step builds print) flow_start s → quiet s → routines s !! g = Some r →
  (getTracingID (r_local r) (job_request j) (table_of (r_proc r) s)).1 = Some t → staffed s j →
  ∃ s' c, call_job g j s = Some s' ∧ rtc (flow_step builds print) s s' ∧ quiet s' ∧ drawn t j c ∧
    ((λ e, record_of (e_raw e)) <$> entries s') = ((λ e, record_of (e_raw e)) <$> entries s) ++ trace_of c ∧
    StronglySorted (λ a b, rcd_timeStamp a < rcd_timeStamp b)%Z (trace_of c).
Proof.
  intros Hclock Hs Hq Hr Ht Hst. destruct (call_leaves t j g s r Hs Hq Hr Ht Hst) as (s' & c & Hc & [Hrun Hk He Htm] & Hd).
  exists s', c. split_and!; [done|done|by eapply kept_quiet|done|done|by eapply clock_sorted].
Qed.
End calling.

(** ** Runs *)

(** Every platform has goroutine-local storage; messages are printed by the names of
    their types. *)
Definition everywhere (p : nat) : bool := true.
Definition print_type (m : message) : bytes := base_name (mtype m).
Definition plain_msg (name : string) : message := mkMessage (mkType 0 (str name) (str "struct") []) false [].
Definition svc_of (name : string) : serviceInfo := mkServiceInfo (str "n") (str "p") (str name).

Lemma flow_all_reached l s s' : flow_all everywhere print_type l s = Some s' → rtc (flow_step everywhere print_type) s s'.
Proof.
  revert s. induction l as [|a l IH]; intros s Hl; simpl in Hl; [injection Hl as ->; apply rtc_refl|].
  destruct (flow_exec everywhere print_type a s) as [s1|] eqn:Ha; [|done]. eapply rtc_l; [by exists a|by apply IH].
Qed.

Definition trace_now (g : nat) (now : Z) : action := Trace g now (str "tcp") (str "a") (str "b").

(** A client whose process traces one message of [demo_type], and two workers *)
Definition three_routines : list action := [Go 0; Go 1; Go 2; Configure 0 {[ demo_type := mkConf 7 1 0 [] ]}].

(** The request gets the ID, the handler passes it on, a later message of the client has
    none. *)
Definition demo_flow : list action :=
  three_routines ++
  [Send 0 ClientEnd (demo_msg "a"); trace_now 0 1; Take 1 0 (Handler (svc_of "A")); trace_now 1 2;
   Send 1 ClientEnd (plain_msg "sub"); Take 2 1 (Handler (svc_of "B")); trace_now 2 3; trace_now 1 4;
   Send 0 ClientEnd (demo_msg "b")].

Definition demo_state : flow := default flow_start (flow_all everywhere print_type demo_flow flow_start).

Lemma demo_reached : rtc (flow_step everywhere print_type) flow_start demo_state.
Proof.
  assert (bool_decide (is_Some (flow_all everywhere print_type demo_flow flow_start)) = true) as [s Hs]%bool_decide_eq_true by (vm_compute; reflexivity).
  unfold demo_state. rewrite Hs. exact (flow_all_reached _ _ _ Hs).
Qed.

Lemma demo_quiet : quiet demo_state.
Proof.
  assert (r_pending <$> routines demo_state = [None; None; None]) as Hp by (vm_compute; reflexivity).
  intros g r Hr. apply (f_equal (λ l, l !! g)) in Hp. rewrite list_lookup_fmap, Hr in Hp.
  destruct g as [|[|[|g]]]; [injection Hp as ->; reflexivity..|discriminate Hp].
Qed.

Lemma tracing_ids_spread_witness : id_of <$> packets demo_state = [Some (mkUuidInfo 7 0); Some (mkUuidInfo 7 0); None] ∧
  (∀ p, packets demo_state !! 1 = Some p → id_of p = Some (mkUuidInfo 7 0) →
     ∃ r q, rtc (follows everywhere demo_state) 1 r ∧ packets demo_state !! r = Some q ∧ chosen q (mkUuidInfo 7 0)) ∧
  (note_of <$> entries demo_state) ≡ₚ notes_from 0 (packets demo_state) (takers demo_state).
Proof.
  destruct (tracing_ids_spread everywhere print_type demo_state demo_reached) as (Hid & _ & _ & Hquiet).
  split; [vm_compute; reflexivity|]. split.
  - intros p Hp. exact (proj1 (Hid 1 p (mkUuidInfo 7 0) Hp)).
  - exact (Hquiet demo_quiet).
Defined.

(** A call of service A, whose handler calls service B *)
Definition demo_job : job :=
  Job (svc_of "A") 1 (demo_msg "a") (plain_msg "reply") [Job (svc_of "B") 2 (plain_msg "sub") (plain_msg "subreply") []].

Definition three_state : flow :=
  mkFlow [mkRoutine 0 (Some None) None None; mkRoutine 1 (Some None) None None; mkRoutine 2 (Some None) None None]
    {[ 0 := {[ demo_type := mkConf 7 1 0 [] ]} ]} [] ∅ [].

Lemma three_reached : rtc (flow_step everywhere print_type) flow_start three_state.
Proof. apply (flow_all_reached three_routines). reflexivity. Qed.

Lemma calls_recorded_as_drawn_witness : ∃ s' c,
  call_job everywhere print_type Z.of_nat (str "tcp") (str "a") (str "b") 0 demo_job three_state = Some s' ∧
  rtc (flow_step everywhere print_type) three_state s' ∧ quiet s' ∧ drawn print_type (mkUuidInfo 7 0) demo_job c ∧
  ((λ e, record_of (e_raw e)) <$> entries s') = [] ++ trace_of c ∧
  StronglySorted (λ a b, rcd_timeStamp a < rcd_timeStamp b)%Z (trace_of c).
Proof.
  apply (calls_recorded_as_drawn everywhere print_type Z.of_nat (str "tcp") (str "a") (str "b") (mkUuidInfo 7 0) demo_job 0 three_state
    (mkRoutine 0 (Some None) None None)).
  - lia.
  - exact three_reached.
  - intros [|[|[|g]]] r Hr; simpl in Hr; [injection Hr as <-; reflexivity..|]. destruct g; discriminate Hr.
  - reflexivity.
  - vm_compute. reflexivity.
  - apply staffed_subs. split; [eexists; split; reflexivity|]. repeat constructor. eexists; split; reflexivity.
Defined.

(** ** What the documentation says otherwise *)

Definition notes_after (l : list action) : option (list (bytes * Z) * list (option uuidInfo)) :=
  (λ s, ((λ e, (raw_tag (e_raw e), raw_timeStamp (e_raw e))) <$> entries s, id_of <$> packets s)) <$>
  flow_all everywhere print_type l flow_start.

(** The record of a message's sending is made after it was sent: the handler's may have
    the earlier time. *)
Example handled_before_sent :
  notes_after (three_routines ++ [Send 0 ClientEnd (demo_msg "a"); Take 1 0 (Handler (svc_of "A")); trace_now 1 1; trace_now 0 2]) =
  Some ([(str "p/A@n handler", 1%Z); (str "client send", 2%Z)], [Some (mkUuidInfo 7 0)]).
Proof. vm_compute. reflexivity. Qed.

(** A reply of a type its own process traces starts a session at the server. *)
Example session_starts_at_server :
  notes_after [Go 0; Go 1; Configure 1 {[ demo_type := mkConf 7 1 0 [] ]}; Send 0 ClientEnd (plain_msg "ask");
    Take 1 0 (Handler (svc_of "A")); Send 1 (ServerEnd (svc_of "A")) (demo_msg "a"); trace_now 1 1] =
  Some ([(str "p/A@n send", 1%Z)], [None; Some (mkUuidInfo 7 0)]).
Proof. vm_compute. reflexivity. Qed.

(** A handler that receives another message on its stream, which has no ID, sends without
    one from then on. *)
Example handler_loses_its_id :
  notes_after (three_routines ++ [Send 0 ClientEnd (demo_msg "a"); trace_now 0 1; Take 1 0 (Handler (svc_of "A")); trace_now 1 2;
    Send 0 ClientEnd (plain_msg "more"); Take 1 1 (ServerRecv (svc_of "A")); Send 1 (ServerEnd (svc_of "A")) (plain_msg "reply")]) =
  Some ([(str "client send", 1%Z); (str "p/A@n handler", 2%Z)], [Some (mkUuidInfo 7 0); None; None]).
Proof. vm_compute. reflexivity. Qed.
