(* ===== verification/Recv.v ===== *)
(** What [Recv] stores and returns, on the four kinds of streams
    (streamtransportclient.go, streamtransportserver.go, chantransportclient.go,
    chantransportserver.go), and the variables of a stream's context (context.go). *)
From S2P Require Import Prelude GoStrings Names Tracing MessageTracer Stream.

(** A value in an interface: its type, whether it is a nil pointer, the error
    when it is one, and what it holds *)
Record value := mkValue { v_type : gotype; v_nil : bool; v_error : option error; v_content : bytes }.

(** The variable given to [Recv]: none, one of a type, or something that is not a
    pointer to a variable *)
Inductive msgPtr := NoPtr | PtrTo (target : gotype) | BadPtr.

(** What the select of [Recv] finds ready *)
Inductive ready := ConnClosed | TimedOut | Received (msg : value).

(** [timeouter.timeoutChan]: can it fire? *)
Definition timeoutChan (d : Z) : bool := bool_decide (d > 0)%Z.

Section recv.
(** Does a type have the methods of an interface type? *)
Variable implements : gotype → gotype → bool.

(** [reflect.Type.AssignableTo] on the types messages have *)
Definition AssignableTo (t target : gotype) : bool :=
  bool_decide (t = target) || (bool_decide (Kind target = str "interface") && implements t target).

Definition mismatch : error := errorString (str "message type mismatch").

(** [rv.Set(mrv)], its panic turned into an error *)
Definition set_value (target : gotype) (mrv : value) : value + error :=
  if AssignableTo (v_type mrv) target then inl mrv else inr mismatch.

(** The value [Recv] stores: a pointer is followed for a variable that is none *)
Definition assign (target : gotype) (msg : value) : value + error :=
  if negb (is_pointer target) && is_pointer (v_type msg) then
    if v_nil msg then inr mismatch
    else set_value target (mkValue (type_Elem (v_type msg)) false None (v_content msg))
  else set_value target msg.

(** What [Recv] returns, an error or none, and the value stored, given how it is *)
Definition received (store : gotype → value → value + error) (p : msgPtr) (msg : value) :
    option error * option value :=
  match v_error msg, p with
  | Some e, _ => (Some e, None)
  | None, PtrTo target => match store target msg with inl v => (None, Some v) | inr e => (Some e, None) end
  | None, _ => (None, None)
  end.

(** What the servers' [Recv] have in common *)
Definition serverside_Recv (store : gotype → value → value + error) (connClose_nil : bool) (p : msgPtr) (r : ready) :
    outcome (option error * option value) :=
  if connClose_nil then Return (Some EOF, None)
  else match p with
       | BadPtr => Panics (str "not a pointer or nil pointer")
       | _ => match r with
              | ConnClosed => Return (Some EOF, None)
              | TimedOut => Return (Some ErrRecvTimeout, None)
              | Received msg => Return (received store p msg)
              end
       end.

(** [streamServerStream.Recv] *)
Definition server_Recv : bool → msgPtr → ready → outcome (option error * option value) := serverside_Recv assign.

(** [chanServerStream.Recv], which follows no pointer *)
Definition chan_server_Recv : bool → msgPtr → ready → outcome (option error * option value) := serverside_Recv set_value.

(** What the clients' [Recv] have in common: the flag tells whether the stream
    still has its channel, which the error [io.EOF] takes away *)
Definition clientside_received (msgChan : bool) (p : msgPtr) (msg : value) : option error * option value * bool :=
  if bool_decide (v_error msg = Some EOF) then (Some EOF, None, false)
  else let '(e, v) := received assign p msg in (e, v, msgChan).

(** [streamClientStream.Recv] *)
Definition client_Recv (msgChan closed : bool) (p : msgPtr) (r : ready) :
    outcome (option error * option value * bool) :=
  if negb msgChan || closed then Return (Some EOF, None, msgChan)
  else match p with
       | BadPtr => Panics (str "not a pointer or nil pointer")
       | _ => match r with
              | ConnClosed => Return (Some ErrConnReset, None, msgChan)
              | TimedOut => Return (Some ErrRecvTimeout, None, msgChan)
              | Received msg => Return (clientside_received msgChan p msg)
              end
       end.

(** [chanClientStream.Recv]; [None]: it goes on waiting, as the closing of the
    connection is not among what it waits for *)
Definition chan_client_Recv (msgChan : bool) (p : msgPtr) (r : ready) :
    option (outcome (option error * option value * bool)) :=
  if negb msgChan then Some (Return (Some EOF, None, msgChan))
  else match p with
       | BadPtr => Some (Panics (str "not a pointer or nil pointer"))
       | _ => match r with
              | ConnClosed => None
              | TimedOut => Some (Return (Some ErrRecvTimeout, None, msgChan))
              | Received msg => Some (Return (clientside_received msgChan p msg))
              end
       end.

(** ** The context of a stream (context.go) *)

Record contextImpl := mkContext { kv : gmap gotype value; ctx : option value }.

Definition PutVar (v : value) (c : contextImpl) : contextImpl := mkContext (<[v_type v := v]> (kv c)) (ctx c).
(** [GetVar]: [None] stands for the zero value of the type *)
Definition GetVar (p : msgPtr) (c : contextImpl) : outcome (option value) :=
  match p with PtrTo target => Return (kv c !! target) | _ => Panics (str "not a pointer or nil pointer") end.
Definition SetContext (v : value) (c : contextImpl) : outcome contextImpl :=
  if negb (is_pointer (v_type v)) || v_nil v then Panics (str "not a pointer or nil pointer")
  else Return (mkContext (kv c) (Some v)).
Definition GetContext (c : contextImpl) : option value := ctx c.

End recv.

(** A context gives back the value of the type asked for that was put last. *)
Lemma GetVar_last puts x t :
  GetVar (PtrTo t) (foldl (λ c v, PutVar v c) (mkContext ∅ x) puts) = Return (last (filter (λ v, v_type v = t) puts)).
Proof.
  induction puts as [|v puts IH] using rev_ind; simpl; [by rewrite lookup_empty|].
  rewrite foldl_snoc, filter_app. simpl in *. injection IH as IH. destruct (decide (v_type v = t)) as [<-|Hne].
  - by rewrite lookup_insert_eq, filter_cons_True, filter_nil, last_snoc.
  - by rewrite lookup_insert_ne, filter_cons_False, filter_nil, app_nil_r, IH.
Qed.

(** The transports differ: a pointer to a value sent by the client is stored
    into a variable of the value's type over a byte connection, and refused as a
    mismatch within the process; and a client of the process that waits in [Recv]
    is never told of the closing of the connection, which a client of a byte
    connection gets as an error. *)
Theorem recv_depends_on_transport (implements : gotype → gotype → bool) (msg : value) :
  is_pointer (v_type msg) = true → v_nil msg = false → v_error msg = None →
  is_pointer (type_Elem (v_type msg)) = false → Kind (type_Elem (v_type msg)) ≠ str "interface" →
  let target := type_Elem (v_type msg) in
  server_Recv implements false (PtrTo target) (Received msg) =
    Return (None, Some (mkValue target false None (v_content msg))) ∧
  chan_server_Recv implements false (PtrTo target) (Received msg) = Return (Some mismatch, None) ∧
  client_Recv implements true false (PtrTo target) ConnClosed = Return (Some ErrConnReset, None, true) ∧
  chan_client_Recv implements true (PtrTo target) ConnClosed = None.
Proof.
  intros Hp Hn He Hpe Hi target. split_and!; [| |done|done].
  - unfold server_Recv, serverside_Recv, received. rewrite He. unfold assign. fold target in Hpe.
    rewrite Hpe, Hp, Hn. simpl. unfold set_value, AssignableTo; simpl. by rewrite bool_decide_eq_true_2.
  - unfold chan_server_Recv, serverside_Recv, received. rewrite He. unfold set_value, AssignableTo.
    rewrite bool_decide_eq_false_2; [|by intros E; unfold target in E; rewrite <- E, Hp in Hpe].
    by rewrite bool_decide_eq_false_2.
Qed.

Lemma recv_depends_on_transport_witness :
  let t := mkType 0 (str "msg.Ping") (str "struct") [str "Who"] in
  let msg := mkValue (mkType 1 (str "msg.Ping") (str "struct") [str "Who"]) false None (str "me") in
  server_Recv (λ _ _, false) false (PtrTo t) (Received msg) = Return (None, Some (mkValue t false None (str "me"))) ∧
  chan_server_Recv (λ _ _, false) false (PtrTo t) (Received msg) = Return (Some mismatch, None).
Proof.
  destruct (recv_depends_on_transport (λ _ _, false)
    (mkValue (mkType 1 (str "msg.Ping") (str "struct") [str "Who"]) false None (str "me"))) as (H1 & H2 & _);
    [reflexivity|reflexivity|reflexivity|reflexivity|vm_compute; discriminate|].
  split; [exact H1|exact H2].
Defined.
