(* ===== verification/StreamIO.v ===== *)
(** Streams as byte streams (streamIO of adaptiveservice.go): writing pieces of bytes,
    closing, and reading them with buffers of any sizes; the error that ends the reading
    on the four kinds of stream, and those of a closed connection and of a timeout.
    What is written are bytes, not the slice that holds them: [Write] sends the slice
    itself, which within a process the reader then shares. *)
From S2P Require Import Prelude Names Tracing MessageTracer Stream Recv.

(** An error value: whether it is the value of the variable [io.EOF], which is what
    readers compare with, and the error it prints as ("%#v") *)
Record errval := mkErr { is_ioEOF : bool; prints : error }.
#[export] Instance errval_eq_dec : EqDecision errval.
Proof. solve_decision. Defined.
Definition io_EOF : errval := mkErr true EOF.

(** What is sent: bytes, an error, or anything else *)
Inductive item := Bytes (p : bytes) | Err (e : errval) | Other (t : gotype).

(** The end of the stream that reads; a client's over a byte connection or within the
    process *)
Inductive reader_end := ClientEnd (process : bool) | ServerEnd.

(** What a [Recv] finds: nothing but the messages, the connection closed, the variable
    of its closing already nil, the timeout *)
Inductive found := Messages | Closed | Gone | Timeout.

(** [streamIO]: its buffer, and of its stream whether it still has its channel and the
    messages that arrived or will *)
Record streamIO := mkStreamIO { rbuff : bytes; hasChan : bool; incoming : list item }.

(** [NewStreamIO] *)
Definition NewStreamIO (l : list item) : streamIO := mkStreamIO [] true l.

(** What ends a [Recv] before any message; a client within the process is not told of
    the closing *)
Definition interruption (w : reader_end) (f : found) : option errval :=
  match f, w with
  | Messages, _ => None
  | Timeout, _ => Some (mkErr false ErrRecvTimeout)
  | _, ClientEnd true => None
  | Closed, ClientEnd false => Some (mkErr false ErrConnReset)
  | _, _ => Some io_EOF
  end.

(** [Recv(&sio.rbuff)] of a message: on a client's stream an error that prints as
    [io.EOF] becomes [io.EOF], and takes the channel away.  [None] while there is no
    message. *)
Definition take_message (w : reader_end) (sio : streamIO) : option (streamIO * option errval) :=
  match w, sio with
  | _, mkStreamIO _ c (Bytes p :: l) => Some (mkStreamIO p c l, None)
  | ClientEnd _, mkStreamIO b c (Err e :: l) =>
      if bool_decide (prints e = EOF) then Some (mkStreamIO b false l, Some io_EOF)
      else Some (mkStreamIO b c l, Some e)
  | ServerEnd, mkStreamIO b c (Err e :: l) => Some (mkStreamIO b c l, Some e)
  | _, mkStreamIO b c (Other t :: l) => Some (mkStreamIO b c l, Some (mkErr false mismatch))
  | _, mkStreamIO _ _ [] => None
  end.

(** [Recv(&sio.rbuff)] *)
Definition Recv_rbuff (w : reader_end) (f : found) (sio : streamIO) : option (streamIO * option errval) :=
  match w, hasChan sio with
  | ClientEnd _, false => Some (sio, Some io_EOF)
  | _, _ => match interruption w f with
            | Some e => Some (sio, Some e)
            | None => take_message w sio
            end
  end.

(** [streamIO.Read] into a buffer of [n] bytes *)
Definition Read (w : reader_end) (n : nat) (f : found) (sio : streamIO) : option (streamIO * bytes * option errval) :=
  '(sio, err) ← (match rbuff sio with [] => Recv_rbuff w f sio | _ => Some (sio, None) end);
  match err with
  | Some e => Some (sio, [], Some e)
  | None => Some (mkStreamIO (drop n (rbuff sio)) (hasChan sio) (incoming sio), take n (rbuff sio), None)
  end.

(** The calls of the peer *)
Inductive write_call := Write (p : bytes) | Close.

(** What arrives of them: [deliver] is what the transport makes of an error value *)
Definition sends (deliver : errval → errval) (c : write_call) : item :=
  match c with Write p => Bytes p | Close => Err (deliver io_EOF) end.

(** Reading with a buffer for each read, and what its [Recv] finds if it needs one, until
    an error: the bytes, the error if one came, and what is left *)
Fixpoint read_until (w : reader_end) (reads : list (nat * found)) (sio : streamIO) : bytes * option errval * streamIO :=
  match reads with
  | [] => ([], None, sio)
  | (n, f) :: reads =>
      match Read w n f sio with
      | None => ([], None, sio)
      | Some (sio, _, Some e) => ([], Some e, sio)
      | Some (sio, p, None) => let '(q, e, sio) := read_until w reads sio in (p ++ q, e, sio)
      end
  end.

(** What was written before the first [Close], and how many reads it takes at most *)
Fixpoint written (cs : list write_call) : bytes :=
  match cs with Write p :: cs => p ++ written cs | _ => [] end.
Fixpoint writes (cs : list write_call) : nat :=
  match cs with Write _ :: cs => S (writes cs) | _ => 0 end.

(** The error at the end *)
Definition final (w : reader_end) (deliver : errval → errval) : errval :=
  match w with ClientEnd _ => io_EOF | ServerEnd => deliver io_EOF end.

(** [Recv_rbuff] is [Recv] of Recv with a variable of bytes, on the transports that
    follow pointers; errors are what they print there. *)
Definition bytes_type : gotype := mkType 0 (str "[]uint8") (str "slice") [].
Definition item_value (it : item) : value :=
  match it with
  | Bytes p => mkValue bytes_type false None p
  | Err e => mkValue (mkType 1 (str "errors.errorString") (str "struct") []) false (Some (prints e)) []
  | Other t => mkValue t false None []
  end.
Definition other_type (it : item) : Prop :=
  match it with Other t => is_pointer t = false ∧ t ≠ bytes_type | _ => True end.

(** What the select of [Recv] has ready *)
Definition ready_of (f : found) (it : item) : ready :=
  match f with Messages => Received (item_value it) | Timeout => TimedOut | Closed | Gone => ConnClosed end.

Lemma Recv_rbuff_client implements f it l b : other_type it →
  client_Recv implements true (match f with Gone => true | _ => false end) (PtrTo bytes_type) (ready_of f it) =
  match Recv_rbuff (ClientEnd false) f (mkStreamIO b true (it :: l)) with
  | Some (sio, e) => Return (prints <$> e, (if e is Some _ then None else Some (item_value it)), hasChan sio)
  | None => Panics []
  end.
Proof.
  intros Hit. destruct f; [|done..]. unfold client_Recv, clientside_received, received. simpl.
  destruct it as [p|e|t]; simpl.
  - done.
  - destruct (decide (prints e = EOF)) as [->|Hne]; [done|].
    rewrite (bool_decide_eq_false_2 (prints e = EOF)) by done.
    by rewrite bool_decide_eq_false_2 by congruence.
  - destruct Hit as [Hp Hne]. unfold assign. simpl. rewrite Hp. unfold set_value, AssignableTo. simpl.
    by rewrite bool_decide_eq_false_2.
Qed.

(** Within the process there is no closing to be told of: [Recv] waits, for the message
    that is there or is to come. *)
Lemma Recv_rbuff_chan_client implements f it l b : f = Messages ∨ f = Timeout → other_type it →
  chan_client_Recv implements true (PtrTo bytes_type) (ready_of f it) =
  match Recv_rbuff (ClientEnd true) f (mkStreamIO b true (it :: l)) with
  | Some (sio, e) => Some (Return (prints <$> e, (if e is Some _ then None else Some (item_value it)), hasChan sio))
  | None => None
  end.
Proof.
  intros [-> | ->] Hit; [|done]. unfold chan_client_Recv, clientside_received, received. simpl.
  destruct it as [p|e|t]; simpl.
  - done.
  - destruct (decide (prints e = EOF)) as [->|Hne]; [done|].
    rewrite (bool_decide_eq_false_2 (prints e = EOF)) by done.
    by rewrite bool_decide_eq_false_2 by congruence.
  - destruct Hit as [Hp Hne]. unfold assign. simpl. rewrite Hp. unfold set_value, AssignableTo. simpl.
    by rewrite bool_decide_eq_false_2.
Qed.

Lemma Recv_rbuff_server implements f it l b : other_type it →
  server_Recv implements (match f with Gone => true | _ => false end) (PtrTo bytes_type) (ready_of f it) =
  match Recv_rbuff ServerEnd f (mkStreamIO b true (it :: l)) with
  | Some (sio, e) => Return (prints <$> e, (if e is Some _ then None else Some (item_value it)))
  | None => Panics []
  end.
Proof.
  intros Hit. destruct f; [|done..]. unfold server_Recv, serverside_Recv, received. destruct it as [p|e|t]; simpl; [|done|].
  - done.
  - destruct Hit as [Hp Hne]. unfold assign. simpl. rewrite Hp. unfold set_value, AssignableTo. simpl.
    by rewrite bool_decide_eq_false_2.
Qed.

Section reading.
Context (deliver : errval → errval) (w : reader_end).
(** A transport keeps what an error prints. *)
Hypothesis deliver_prints : ∀ e, prints (deliver e) = prints e.

(** What is left when a reading has come to its end, or to an interruption *)
Definition ended_at (cs : list write_call) (x : errval) (sio : streamIO) : Prop :=
  Close ∈ cs ∧ x = final w deliver ∧ rbuff sio = [] ∧ hasChan sio = match w with ClientEnd _ => false | ServerEnd => true end.
Definition stopped_at (left : bytes) (x : errval) (sio : streamIO) : Prop :=
  ∃ b cs, sio = mkStreamIO b true (sends deliver <$> cs) ∧ left = b ++ written cs.

Lemma Read_first n f cs : Read w n f (mkStreamIO [] true (sends deliver <$> cs)) =
  match interruption w f, cs with
  | Some e, _ => Some (mkStreamIO [] true (sends deliver <$> cs), [], Some e)
  | None, [] => None
  | None, Write p :: cs => Some (mkStreamIO (drop n p) true (sends deliver <$> cs), take n p, None)
  | None, Close :: cs => Some (mkStreamIO [] (match w with ClientEnd _ => false | ServerEnd => true end) (sends deliver <$> cs), [], Some (final w deliver))
  end.
Proof.
  unfold Read, Recv_rbuff. cbn [rbuff hasChan]. destruct (interruption w f) as [e|]; [by destruct w|].
  destruct cs as [|[p|] cs]; destruct w; simpl; try done. by rewrite bool_decide_eq_true_2 by apply deliver_prints.
Qed.

Lemma Read_buffered n f b cs : b ≠ [] →
  Read w n f (mkStreamIO b true (sends deliver <$> cs)) = Some (mkStreamIO (drop n b) true (sends deliver <$> cs), take n b, None).
Proof. by destruct b. Qed.

(** What is read is a prefix; an error comes when that is everything, or from what a
    [Recv] found but messages, and then the rest is still there. *)
Lemma read_until_prefix reads b cs got e sio :
  read_until w reads (mkStreamIO b true (sends deliver <$> cs)) = (got, e, sio) →
  ∃ rest, got ++ rest = b ++ written cs ∧
    (∀ x, e = Some x → rest = [] ∧ ended_at cs x sio ∨
       (∃ n f, (n, f) ∈ reads ∧ interruption w f = Some x) ∧ stopped_at rest x sio).
Proof.
  revert b cs got. induction reads as [|[n f] reads IH]; intros b cs got Hr; [injection Hr as <- <- <-; by exists (b ++ written cs)|].
  assert (∀ b cs b0, b = b0 → (let '(q, e, sio) := read_until w reads (mkStreamIO (drop n b) true (sends deliver <$> cs)) in (take n b ++ q, e, sio)) = (got, e, sio) →
    ∃ rest, got ++ rest = b0 ++ written cs ∧ (∀ x, e = Some x → rest = [] ∧ ended_at cs x sio ∨
       (∃ n' f', (n', f') ∈ (n, f) :: reads ∧ interruption w f' = Some x) ∧ stopped_at rest x sio)) as Hgo.
  { intros b1 cs1 b0 <- Hs. destruct (read_until w reads _) as [[q e'] sio'] eqn:E. injection Hs as <- -> ->.
    destruct (IH _ _ _ E) as (rest & Heq & He). exists rest. split; [by rewrite <- app_assoc, Heq, app_assoc, take_drop|].
    intros x Hx. destruct (He x Hx) as [?|[(n' & f' & ? & ?) ?]]; [by left|right]. split; [|done].
    exists n', f'. split; [by right|done]. }
  cbn [read_until] in Hr. destruct (decide (b = [])) as [->|Hb].
  - rewrite Read_first in Hr. destruct (interruption w f) as [x|] eqn:Hf.
    { injection Hr as <- <- <-. exists (written cs). split; [done|]. intros x' [= <-]. right. split; [|by exists [], cs].
      exists n, f. split; [left|done]. }
    destruct cs as [|[p|] cs].
    + injection Hr as <- <- <-. by exists [].
    + destruct (Hgo p cs p eq_refl Hr) as (rest & Heq & He). exists rest. split; [done|]. intros x Hx.
      destruct (He x Hx) as [(? & ? & ?)|?]; [left; split; [done|]; split; [by right|done]|by right].
    + injection Hr as <- <- <-. exists []. split; [done|]. intros x [= <-]. left. split; [done|]. split; [by left|done].
  - rewrite Read_buffered in Hr by done. exact (Hgo b cs b eq_refl Hr).
Qed.

(** Every read takes a byte or a message. *)
Lemma read_until_ends reads b cs : Forall (λ r, 0 < r.1 ∧ interruption w r.2 = None) reads → Close ∈ cs →
  length b + length (written cs) + writes cs < length reads →
  is_Some (read_until w reads (mkStreamIO b true (sends deliver <$> cs))).1.2.
Proof.
  revert b cs. induction reads as [|[n f] reads IH]; intros b cs Hpos Hc Hl; [simpl in Hl; lia|].
  apply Forall_cons in Hpos as [[Hn Hf] Hpos]. cbn [read_until]. simpl in Hn, Hf.
  assert (∀ b cs, Close ∈ cs → length (drop n b) + length (written cs) + writes cs < length reads →
    is_Some (let '(q, e, sio) := read_until w reads (mkStreamIO (drop n b) true (sends deliver <$> cs)) in (take n b ++ q, e, sio)).1.2) as Hgo.
  { intros b1 cs1 Hc1 Hl1. specialize (IH _ _ Hpos Hc1 Hl1). by destruct (read_until w reads _) as [[q e] sio]. }
  destruct (decide (b = [])) as [->|Hb].
  - rewrite Read_first, Hf. destruct cs as [|[p|] cs]; [by apply elem_of_nil in Hc| |by eexists].
    apply Hgo; [by apply elem_of_cons in Hc as [?|?]|]. simpl in Hl. rewrite length_app in Hl. rewrite length_drop. lia.
  - rewrite Read_buffered by done. apply Hgo; [done|]. rewrite length_drop. destruct b; [done|]. simpl in *. lia.
Qed.
End reading.


(** Over a connection an error arrives as another value that prints the same. *)
Definition decoded_error (e : errval) : errval := mkErr false (prints e).

Definition hello_you : list write_call := [Write (str "hello "); Write []; Write (str "you"); Close].

(** A client is told of the closing with bytes it could still have read, and gets them
    if it reads on. *)
Example reset_before_end :
  let '(got, e, sio) := read_until (ClientEnd false) [(8, Messages); (8, Closed)] (NewStreamIO (sends decoded_error <$> hello_you)) in
  (got, e) = (str "hello ", Some (mkErr false ErrConnReset)) ∧
  (read_until (ClientEnd false) [(8, Messages); (8, Messages)] sio).1.1 = str "you".
Proof. done. Qed.

(** The end of a stream is not [io.EOF] for a server over a connection, so that a loop that
    reads until [io.EOF] takes it for a failure; and what is written after [Close] is read
    there as if nothing had happened. *)
Example server_end_is_no_EOF : is_ioEOF (final ServerEnd decoded_error) = false ∧ is_ioEOF (final ServerEnd (λ e, e)) = true ∧
  is_ioEOF (final (ClientEnd false) decoded_error) = true.
Proof. done. Qed.

Example server_reads_on :
  let '(_, _, sio) := read_until ServerEnd [(8, Messages); (8, Messages)] (NewStreamIO (sends (λ e, e) <$> [Close; Write (str "more")])) in
  (read_until ServerEnd [(8, Messages)] sio).1.1 = str "more".
Proof. reflexivity. Qed.
