(* ===== verification/Listener.v ===== *)
(** Listening and dialing (streamtransportserver.go, streamtransportclient.go):
    which accepted connections are served, the life of one, the connections that
    come back through a reverse proxy, and the address a client dials, which says
    whether there is a proxy to wait for. *)
From S2P Require Import Prelude GoStrings Names RootRegistry Tracing MessageTracer Stream.

(** ** Accepting *)

(** [ping] at the start of the accepting goroutine of [streamTransport.receiver] *)
Definition ping_expected (network publisherName serviceName registryAddr : bytes) : bool :=
  negb (bool_decide (network = str "unix")) &&
  negb (bool_decide (publisherName = BuiltinPublisher) && bool_decide (serviceName = str "rootRegistry")) &&
  negb (bool_decide (host_of registryAddr = [])).

(** What [lnr.Accept] gives: a connection, by its number and remote address, or an
    error, and then whether the transport is closed *)
Inductive accepted := Accepted (conn : nat) (remote : bytes) | AcceptError (closed : bool).

(** The loop of the accepting goroutine: the connections passed on to be served,
    and those closed as pings; [rootRegistryIP] is the host of the registry *)
Fixpoint accept_loop (ping : bool) (rootRegistryIP : bytes) (l : list accepted) : list nat * list nat :=
  match l with
  | [] => ([], [])
  | AcceptError true :: _ => ([], [])
  | AcceptError false :: l => accept_loop ping rootRegistryIP l
  | Accepted conn remote :: l =>
      if ping && bool_decide (host_of remote = rootRegistryIP)
      then let '(served, pings) := accept_loop false rootRegistryIP l in (served, conn :: pings)
      else let '(served, pings) := accept_loop ping rootRegistryIP l in (conn :: served, pings)
  end.

(** The connections accepted before the transport is closed *)
Fixpoint arrivals (l : list accepted) : list (nat * bytes) :=
  match l with
  | [] => []
  | AcceptError true :: _ => []
  | AcceptError false :: l => arrivals l
  | Accepted conn remote :: l => (conn, remote) :: arrivals l
  end.

Lemma accept_loop_false ip l : accept_loop false ip l = ((arrivals l).*1, []).
Proof. induction l as [|[conn remote|[]] l IH]; simpl; [done| |done|done]. by rewrite IH. Qed.

Definition from_registry (ip : bytes) (a : nat * bytes) : bool := bool_decide (host_of a.2 = ip).

Lemma accept_loop_true ip l :
  (accept_loop true ip l = ((arrivals l).*1, []) ∧ Forall (λ a, from_registry ip a = false) (arrivals l)) ∨
  ∃ pre a post, arrivals l = pre ++ a :: post ∧ Forall (λ a, from_registry ip a = false) pre ∧
    from_registry ip a = true ∧ accept_loop true ip l = (pre.*1 ++ post.*1, [a.1]).
Proof.
  induction l as [|[conn remote|[]] l IH]; simpl; [by left| |by left|done].
  destruct (bool_decide (host_of remote = ip)) eqn:Hb; simpl.
  - right. exists [], (conn, remote), (arrivals l). rewrite accept_loop_false. done.
  - destruct IH as [[-> H]|(pre & a & post & Ha & Hpre & Hroot & ->)].
    + left. split; [done|]. by constructor.
    + right. exists ((conn, remote) :: pre), a, post. rewrite Ha. split_and!; try done. by constructor.
Qed.

(** Every accepted connection is served, in order, but at most one: a TCP
    transport of a server that has a registry closes the first connection from the
    registry's host, whoever it is from, as a ping. *)
Theorem at_most_one_ping network publisherName serviceName registryAddr l :
  let '(served, pings) :=
    accept_loop (ping_expected network publisherName serviceName registryAddr) (host_of registryAddr) l in
  (served = (arrivals l).*1 ∧ pings = []) ∨
  ∃ pre a post, arrivals l = pre ++ a :: post ∧ served = pre.*1 ++ post.*1 ∧ pings = [a.1] ∧
    Forall (λ a, host_of a.2 ≠ host_of registryAddr) pre ∧ host_of a.2 = host_of registryAddr ∧
    network ≠ str "unix" ∧ host_of registryAddr ≠ [] ∧
    ¬ (publisherName = BuiltinPublisher ∧ serviceName = str "rootRegistry").
Proof.
  destruct (ping_expected network publisherName serviceName registryAddr) eqn:Hp.
  2: { rewrite accept_loop_false. by left. }
  unfold ping_expected in Hp. rewrite !andb_true_iff, !negb_true_iff, andb_false_iff, !bool_decide_eq_false in Hp.
  destruct (accept_loop_true (host_of registryAddr) l) as [[-> _]|(pre & a & post & Ha & Hpre & Hroot & ->)]; [by left|].
  right. exists pre, a, post. split_and!; try done; try tauto.
  - eapply Forall_impl; [exact Hpre|]. intros x Hx%bool_decide_eq_false. done.
  - by apply bool_decide_eq_true in Hroot.
Qed.

(** ** The life of a served connection *)

Inductive life := LOnConnect | LTakenOver | LDispatched (d : nat) | LOnDisconnect | LClosed.

(** [handleConn] as seen by the callbacks of the service and the connection: the
    outcome of the handshake, the callbacks (the first with its answer), and the
    number of messages until the reading ends *)
Definition conn_life (handshake : bool) (fnOnConnect : option bool) (fnOnDisconnect : bool) (messages : nat) : list life :=
  if negb handshake then [LClosed]
  else
    let connected := match fnOnConnect with Some _ => [LOnConnect] | None => [] end in
    if bool_decide (fnOnConnect = Some true) then connected ++ [LTakenOver]
    else connected ++ (LDispatched <$> seq 0 messages) ++ (if fnOnDisconnect then [LOnDisconnect] else []) ++ [LClosed].

(** ** Connections through a reverse proxy *)

(** What the loop of [reverseReceiver] gets: a port and whether dialing it worked,
    or the loss of the command connection *)
Inductive command := Port (port : bytes) (dialed : bool) | CmdLost.

(** One command connection: the addresses connected to and passed on to be served *)
Fixpoint reverse_session (host : bytes) (l : list command) : list bytes :=
  match l with
  | Port port true :: l => (host ++ ":"%char :: port) :: reverse_session host l
  | _ => []
  end.

(** [streamTransport.reverseReceiver]: a session for each time a proxy could be
    connected to; after the last it gives up *)
Definition reverseReceiver (sessions : list (bytes * list command)) : list bytes :=
  sessions ≫= λ '(host, l), reverse_session host l.

(** ** Dialing *)

(** The first part of [newStreamConnection]: the address dialed, and whether the
    client then waits for the proxy; [None] is the panic on an empty address *)
Definition dial_target (addr : bytes) : option (bytes * bool) :=
  match last addr with
  | None => None
  | Some c => if bool_decide (c = "P"%char) then Some (take (length addr - 1) addr, true) else Some (addr, false)
  end.

(** What the client then reads before the handshake: a byte, of a proxied server *)
Definition wait_proxy (proxied : bool) (net : list bytes) : option (list bytes) :=
  if proxied then
    let '(b, net) := ReadFull 1 net in if bool_decide (length b < 1) then None else Some net
  else Some net.

(** Round trip: the address the registry gives for a service is dialed as it
    was registered, waiting for the proxy exactly when it was registered by one,
    and the byte the proxy acknowledges with is not part of the connection. *)
Theorem proxied_address_roundtrip name pID pInfo info net :
  makeServiceInfo name pID pInfo = Return info →
  last (addr pInfo) ≠ Some "P"%char → addr pInfo ≠ [] →
  dial_target (Addr info) = Some (addr pInfo, proxied pInfo) ∧
  ∃ net', wait_proxy (proxied pInfo) (if proxied pInfo then [zero] :: net else net) = Some net' ∧
    concat net' = concat net.
Proof.
  intros Hinfo Hp Hne. split.
  - assert (Addr info = if proxied pInfo then addr pInfo ++ ["P"%char] else addr pInfo) as ->.
    { revert Hinfo. unfold makeServiceInfo. case_bool_decide; [by intros [= <-]|]. intros Hb.
      destruct (fromPublisherServiceName name) as [[]|]; [|done]. by injection Hb as <-. }
    unfold dial_target. destruct (proxied pInfo).
    + rewrite last_snoc, bool_decide_eq_true_2, length_app by done. simpl.
      rewrite Nat.add_sub. by rewrite take_app_length.
    + destruct (last (addr pInfo)) eqn:Hl; [|by apply last_None in Hl].
      rewrite bool_decide_eq_false_2; [done|]. by intros ->.
  - unfold wait_proxy. destruct (proxied pInfo); [|by exists net]. simpl. by eexists.
Qed.

Lemma proxied_address_roundtrip_witness :
  dial_target (Addr (mkServiceInfo (str "o") (str "s") (str "aa") (str "1.2.3.4:56P"))) = Some (str "1.2.3.4:56", true).
Proof.
  apply (proxied_address_roundtrip (str "o_s") (str "aa") (mkProviderInfo 0 (str "1.2.3.4:56") true) _ []).
  - vm_compute. reflexivity.
  - vm_compute. discriminate.
  - discriminate.
Defined.
