(* ===== verification/Acceptor.v ===== *)
(** A listening transport (streamtransportserver.go): the goroutine that accepts,
    the one that gets connections through a reverse proxy, the channel on which both
    offer them, the goroutine that takes them and starts one each, and the closing
    of the transport while they run. *)
From S2P Require Import Prelude Names Listener.

Section acceptor.
(** Whether the first connection from the registry's host is a ping *)
Context (ping : bool).

(** A connection: offered by a goroutine that waits for the channel, on the channel,
    taken by a goroutine of [handleConn] that shakes hands, at the start of a round
    of its loop or reading a message there, taken over by fnOnConnect, closed *)
Inductive place := Held | Queued | Starting | Round | Reading | TakenOver | Shut.
#[export] Instance place_eq_dec : EqDecision place.
Proof. solve_decision. Defined.

(** The accepting goroutine: in [lnr.Accept], offering a connection, returned.  It
    keeps the variable [ping]. *)
Inductive acceptor := Accepting (ping : bool) | Offering (i : nat) (ping : bool) | AcceptorGone.

(** [reverseReceiver]: not started, receiving commands, offering a connection,
    looking for a proxy again, returned *)
Inductive reverse := NoProxy | Commanded | ReverseOffering (i : nat) | Reconnecting | ReverseGone.

(** [receiver]: before it reads the field [st.closed] for its select, in its loop with
    what it read ([deaf]: nil, which its select never gets anything from), in the
    deferred loop that closes what still comes *)
Inductive receiver := Launching | Selecting (deaf : bool) | Draining.
#[export] Instance receiver_eq_dec : EqDecision receiver.
Proof. solve_decision. Defined.

(** [streamTransport]: [closing] is how far [close] is: nothing, [st.closed] closed
    and nil, the listener closed, the command connection closed, the service
    withdrawn.  [proxied]: a proxy has the service registered.  [handled]: the
    connection of each message dispatched. *)
Record transport := mkTransport {
  closing : nat;
  receiver_at : receiver;
  accept_at : acceptor;
  reverse_at : reverse;
  chanNetConn : list nat;
  places : list place;
  proxied : bool;
  handled : list nat;
}.

(** [makeStreamTransport]; then [newTCPTransport] may connect to a proxy *)
Definition makeStreamTransport (reverse_proxy : bool) : transport :=
  mkTransport 0 Launching (Accepting ping) (if reverse_proxy then Commanded else NoProxy) [] [] reverse_proxy [].

Definition st_closed (t : transport) : bool := bool_decide (1 ≤ closing t).
Definition receiving (t : transport) : bool := match receiver_at t with Selecting _ => true | _ => false end.
Definition draining (t : transport) : bool := match receiver_at t with Draining => true | _ => false end.

Inductive op :=
| Arrive (registry : bool)    (* a connection is accepted, from the registry's host or not *)
| AcceptFails                 (* lnr.Accept returns an error *)
| Offer                       (* st.chanNetConn <- netconn *)
| Command (dialed : bool)     (* a command of the proxy, and the dialing *)
| ReverseOffer                (* st.chanNetConn <- netconn *)
| CommandLost                 (* the command connection breaks or is closed *)
| Reconnect (found : bool)    (* connectReverseProxy *)
| Take                        (* netconn := <-st.chanNetConn, in the select *)
| Stop                        (* case <-closed *)
| Drain                       (* the deferred loop closes a connection *)
| Handshake (i : nat) (ok takeOver : bool)
| RoundStarts (i : nat)       (* if st.closed == nil *)
| Message (i : nat)           (* a message is read and dispatched *)
| ReadEnds (i : nat)
| CloseStep                   (* the next part of close *)
| ReceiverStarts.             (* closed := st.closed *)

Definition set_place (i : nat) (p : place) (t : transport) : transport :=
  mkTransport (closing t) (receiver_at t) (accept_at t) (reverse_at t) (chanNetConn t) (<[i := p]> (places t)) (proxied t) (handled t).
Definition add_place (p : place) (t : transport) : transport :=
  mkTransport (closing t) (receiver_at t) (accept_at t) (reverse_at t) (chanNetConn t) (places t ++ [p]) (proxied t) (handled t).
Definition set_accept (a : acceptor) (t : transport) : transport :=
  mkTransport (closing t) (receiver_at t) a (reverse_at t) (chanNetConn t) (places t) (proxied t) (handled t).
Definition set_reverse (r : reverse) (b : bool) (t : transport) : transport :=
  mkTransport (closing t) (receiver_at t) (accept_at t) r (chanNetConn t) (places t) b (handled t).
Definition set_chan (l : list nat) (t : transport) : transport :=
  mkTransport (closing t) (receiver_at t) (accept_at t) (reverse_at t) l (places t) (proxied t) (handled t).

(** The capacity of [chanNetConn] *)
Definition chanSize : nat := 8.

Definition exec (o : op) (t : transport) : option transport :=
  match o with
  | Arrive registry =>
      match accept_at t with
      | Accepting ping =>
          if bool_decide (closing t < 2)
          then Some (if ping && registry then set_accept (Accepting false) (add_place Shut t)
                     else set_accept (Offering (length (places t)) ping) (add_place Held t))
          else None
      | _ => None
      end
  | AcceptFails =>
      match accept_at t with
      | Accepting ping => Some (set_accept (if st_closed t then AcceptorGone else Accepting ping) t)
      | _ => None
      end
  | Offer =>
      match accept_at t with
      | Offering i ping =>
          if bool_decide (length (chanNetConn t) < chanSize)
          then Some (set_accept (Accepting ping) (set_chan (chanNetConn t ++ [i]) (set_place i Queued t))) else None
      | _ => None
      end
  | Command dialed =>
      match reverse_at t with
      | Commanded => Some (if dialed then set_reverse (ReverseOffering (length (places t))) (proxied t) (add_place Held t)
                           else set_reverse Reconnecting (proxied t) t)
      | _ => None
      end
  | ReverseOffer =>
      match reverse_at t with
      | ReverseOffering i =>
          if bool_decide (length (chanNetConn t) < chanSize)
          then Some (set_reverse Commanded (proxied t) (set_chan (chanNetConn t ++ [i]) (set_place i Queued t))) else None
      | _ => None
      end
  | CommandLost =>
      match reverse_at t with Commanded => Some (set_reverse Reconnecting (proxied t) t) | _ => None end
  | Reconnect found =>
      match reverse_at t with
      | Reconnecting => Some (if found then set_reverse Commanded true t else set_reverse ReverseGone (proxied t) t)
      | _ => None
      end
  | Take =>
      match chanNetConn t with
      | i :: l => if receiving t then Some (set_chan l (set_place i Starting t)) else None
      | [] => None
      end
  | Stop =>
      match receiver_at t with
      | Selecting false =>
          if st_closed t
          then Some (mkTransport (closing t) Draining (accept_at t) (reverse_at t) (chanNetConn t) (places t) (proxied t) (handled t)) else None
      | _ => None
      end
  | Drain =>
      match chanNetConn t with
      | i :: l => if draining t then Some (set_chan l (set_place i Shut t)) else None
      | [] => None
      end
  | Handshake i ok takeOver =>
      match places t !! i with
      | Some Starting => Some (set_place i (if ok : bool then if takeOver : bool then TakenOver else Round else Shut) t)
      | _ => None
      end
  | RoundStarts i =>
      match places t !! i with
      | Some Round => Some (set_place i (if st_closed t then Shut else Reading) t)
      | _ => None
      end
  | Message i =>
      match places t !! i with
      | Some Reading =>
          let t := set_place i Round t in
          Some (mkTransport (closing t) (receiver_at t) (accept_at t) (reverse_at t) (chanNetConn t) (places t) (proxied t) (handled t ++ [i]))
      | _ => None
      end
  | ReadEnds i =>
      match places t !! i with Some Reading => Some (set_place i Shut t) | _ => None end
  | CloseStep =>
      if bool_decide (closing t < 4)
      then Some (mkTransport (S (closing t)) (receiver_at t) (accept_at t) (reverse_at t) (chanNetConn t) (places t)
                   (if bool_decide (closing t = 3) then false else proxied t) (handled t))
      else None
  | ReceiverStarts =>
      match receiver_at t with
      | Launching =>
          Some (mkTransport (closing t) (Selecting (st_closed t)) (accept_at t) (reverse_at t) (chanNetConn t) (places t) (proxied t) (handled t))
      | _ => None
      end
  end.

Definition step (t t' : transport) : Prop := ∃ o, exec o t = Some t'.

(** ** What holds on every transport *)

Definition offers (t : transport) (i : nat) : Prop :=
  (∃ ping, accept_at t = Offering i ping) ∨ reverse_at t = ReverseOffering i.

Record transport_ok (t : transport) : Prop := mkTransportOk {
  to_queued : ∀ i, places t !! i = Some Queued ↔ i ∈ chanNetConn t;
  to_nodup : NoDup (chanNetConn t);
  to_size : length (chanNetConn t) ≤ chanSize;
  to_held : ∀ i, places t !! i = Some Held ↔ offers t i;
  to_apart : ∀ i ping, accept_at t = Offering i ping → reverse_at t ≠ ReverseOffering i;
  to_stopped : receiver_at t = Draining ∨ receiver_at t = Selecting true → 1 ≤ closing t;
}.

Lemma transport_ok_make b : transport_ok (makeStreamTransport b).
Proof.
  split; simpl; [|constructor|unfold chanSize; lia| |done|by intros [[=]|[=]]].
  - intros i. by split; [|intros ?%not_elem_of_nil].
  - intros i. split; [done|]. by intros [[q ?]|?]; destruct b.
Qed.

Lemma lookup_insert_place i j p q (l : list place) : is_Some (l !! i) →
  <[i := p]> l !! j = Some q ↔ j = i ∧ p = q ∨ j ≠ i ∧ l !! j = Some q.
Proof.
  intros [r Hr]. pose proof (lookup_lt_Some _ _ _ Hr). rewrite list_lookup_insert_Some.
  split; [intros [(<- & <- & _)|[? ?]]; auto|]. intros [[-> ->]|[? ?]]; [left|right]; auto.
Qed.
Lemma lookup_add_place j p q (l : list place) : (l ++ [p]) !! j = Some q ↔ j = length l ∧ p = q ∨ l !! j = Some q.
Proof.
  rewrite lookup_app_Some, list_lookup_singleton_Some. split.
  - intros [?|(? & ? & ->)]; [by right|left; split; [lia|done]].
  - intros [[-> ->]|?]; [right; split; [done|split; [lia|done]]|by left].
Qed.

(** A connection that is neither offered nor on the channel, before and after *)
Lemma set_place_ok i p q t : transport_ok t → places t !! i = Some q → q ≠ Held → q ≠ Queued → p ≠ Held → p ≠ Queued →
  transport_ok (set_place i p t).
Proof.
  intros [H1 H2 H3 H4 H5 H6] Hi Hq1 Hq2 Hp1 Hp2. split; simpl; try done; intros j.
  - rewrite lookup_insert_place by eauto. rewrite <- H1. destruct (decide (j = i)) as [->|]; naive_solver.
  - rewrite lookup_insert_place by eauto. specialize (H4 j). unfold offers in *. simpl. destruct (decide (j = i)) as [->|]; naive_solver.
Qed.

(** Offered to the channel *)
Lemma put_ok i t : transport_ok t → places t !! i = Some Held → length (chanNetConn t) < chanSize →
  (∀ j, places (set_place i Queued t) !! j = Some Queued ↔ j ∈ chanNetConn t ++ [i]) ∧ NoDup (chanNetConn t ++ [i]) ∧
  length (chanNetConn t ++ [i]) ≤ chanSize ∧
  ∀ j, places (set_place i Queued t) !! j = Some Held ↔ j ≠ i ∧ offers t j.
Proof.
  intros [H1 H2 H3 H4 H5 H6] Hi Hl. simpl. split_and!.
  - intros j. rewrite lookup_insert_place, H1, elem_of_app, list_elem_of_singleton by eauto.
    destruct (decide (j = i)) as [->|]; naive_solver.
  - apply NoDup_app. split; [done|]. split; [|apply NoDup_singleton]. intros j Hj ->%list_elem_of_singleton.
    apply H1 in Hj. congruence.
  - rewrite length_app. simpl. lia.
  - intros j. rewrite lookup_insert_place, H4 by eauto. naive_solver.
Qed.

(** Taken from the channel *)
Lemma taken_ok i l p t : transport_ok t → chanNetConn t = i :: l → p ≠ Held → p ≠ Queued →
  transport_ok (set_chan l (set_place i p t)).
Proof.
  intros [H1 H2 H3 H4 H5 H6] Hl Hp1 Hp2. rewrite Hl in *. apply NoDup_cons in H2 as [Hni H2].
  assert (places t !! i = Some Queued) as Hi by (apply H1; by left).
  split; simpl in *; try done; [|lia|]; intros j; rewrite lookup_insert_place by eauto.
  - rewrite H1, elem_of_cons. destruct (decide (j = i)) as [->|]; naive_solver.
  - specialize (H4 j). unfold offers in *. simpl. destruct (decide (j = i)) as [->|]; naive_solver.
Qed.

(** A connection that is new *)
Lemma lookup_new (t : transport) : places t !! length (places t) = None.
Proof. by apply lookup_ge_None. Qed.

Lemma offered_known t i : transport_ok t → offers t i → i < length (places t).
Proof. intros Hok Ho%(to_held _ Hok). by eapply lookup_lt_Some. Qed.

Lemma acceptor_exec_ok o t t' : transport_ok t → exec o t = Some t' → transport_ok t'.
Proof.
  intros Hok Ho. pose proof Hok as [H1 H2 H3 H4 H5 H6]. destruct o as [r| | |d| | |f| | | |i ok tk|i|i|i| |]; simpl in Ho.
  - destruct (accept_at t) as [q|i q|] eqn:Ha; try done. case_bool_decide; [|done]. injection Ho as <-.
    destruct (q && r); split; simpl; try done; try (intros j; rewrite lookup_add_place).
    + rewrite <- H1. naive_solver.
    + rewrite H4. unfold offers. simpl. rewrite Ha. naive_solver.
    + rewrite <- H1. naive_solver.
    + rewrite H4. unfold offers. simpl. rewrite Ha. naive_solver.
    + intros j q' [= <- <-] Hr. pose proof (offered_known t _ Hok (or_intror Hr)). lia.
  - destruct (accept_at t) as [q|i q|] eqn:Ha; try done. injection Ho as <-. split; simpl; try done.
    + intros j. rewrite H4. unfold offers. simpl. rewrite Ha. destruct (st_closed t); naive_solver.
    + intros j q'. by destruct (st_closed t).
  - destruct (accept_at t) as [q|i q|] eqn:Ha; try done. case_bool_decide; [|done]. injection Ho as <-.
    assert (places t !! i = Some Held) as Hi by (apply H4; left; eauto).
    destruct (put_ok i t) as (G1 & G2 & G3 & G4); [done..|]. split; simpl in *; try done.
    intros j. rewrite G4. unfold offers. simpl. rewrite Ha. specialize (H5 i q eq_refl). naive_solver.
  - destruct (reverse_at t) as [| |i| |] eqn:Hr; try done. injection Ho as <-. destruct d; split; simpl; try done.
    + intros j. rewrite lookup_add_place, <- H1. naive_solver.
    + intros j. rewrite lookup_add_place, H4. unfold offers. simpl. rewrite Hr. naive_solver.
    + intros j q' Ha [= <-]. pose proof (offered_known t (length (places t)) Hok (or_introl (ex_intro _ q' Ha))). lia.
    + intros j. rewrite H4. unfold offers. simpl. rewrite Hr. naive_solver.
  - destruct (reverse_at t) as [| |i| |] eqn:Hr; try done. case_bool_decide; [|done]. injection Ho as <-.
    assert (places t !! i = Some Held) as Hi by (apply H4; by right).
    destruct (put_ok i t) as (G1 & G2 & G3 & G4); [done..|]. split; simpl in *; try done.
    intros j. rewrite G4. unfold offers. simpl. rewrite Hr. specialize (H5 i). naive_solver.
  - destruct (reverse_at t) as [| |i| |] eqn:Hr; try done. injection Ho as <-. split; simpl; try done.
    intros j. rewrite H4. unfold offers. simpl. rewrite Hr. naive_solver.
  - destruct (reverse_at t) as [| |i| |] eqn:Hr; try done. injection Ho as <-. destruct f; split; simpl; try done.
    all: intros j; rewrite H4; unfold offers; simpl; rewrite Hr; naive_solver.
  - destruct (chanNetConn t) as [|i l] eqn:Hl; [done|]. destruct (receiving t); [|done]. injection Ho as <-. by apply taken_ok.
  - destruct (receiver_at t) as [|[]|]; try done. destruct (st_closed t) eqn:Hc; [|done]. injection Ho as <-. split; simpl; try done.
    intros _. by apply bool_decide_eq_true in Hc.
  - destruct (chanNetConn t) as [|i l] eqn:Hl; [done|]. destruct (draining t); [|done]. injection Ho as <-. by apply taken_ok.
  - destruct (places t !! i) as [[]|] eqn:Hi; try done. injection Ho as <-. by eapply set_place_ok; [..|destruct ok, tk|destruct ok, tk].
  - destruct (places t !! i) as [[]|] eqn:Hi; try done. injection Ho as <-.
    by eapply set_place_ok; [..|destruct (st_closed t)|destruct (st_closed t)].
  - destruct (places t !! i) as [[]|] eqn:Hi; try done. injection Ho as <-.
    destruct (set_place_ok i Round Reading t) as [G1 G2 G3 G4 G5 G6]; [done..|]. by split.
  - destruct (places t !! i) as [[]|] eqn:Hi; try done. injection Ho as <-. by eapply set_place_ok.
  - case_bool_decide; [|done]. injection Ho as <-. split; simpl; try done. lia.
  - destruct (receiver_at t) eqn:Hr; try done. injection Ho as <-. split; simpl; try done.
    intros [[=]|[= Hc]]. by apply bool_decide_eq_true in Hc.
Qed.

Lemma reachable_acceptor b t : rtc step (makeStreamTransport b) t → transport_ok t.
Proof. apply (rtc_invariant step transport_ok); [intros s s' H [o Ho]; by eapply acceptor_exec_ok|apply transport_ok_make]. Qed.

(** ** After the closing *)

(** What the transport's own goroutines do once nothing arrives any more *)
Definition own (o : op) : bool :=
  match o with AcceptFails | Offer | ReverseOffer | Take | Stop | Drain | ReceiverStarts => true | _ => false end.
Definition own_step (t t' : transport) : Prop := ∃ o, own o = true ∧ exec o t = Some t'.
Definition at_rest (t : transport) : Prop := ∀ o, own o = true → exec o t = None.

Definition to_do (t : transport) : nat :=
  length (chanNetConn t) + match receiver_at t with Launching => 2 | Selecting _ => 1 | Draining => 0 end +
  match accept_at t with Offering _ _ => 3 | Accepting _ => 1 | AcceptorGone => 0 end +
  match reverse_at t with ReverseOffering _ => 2 | _ => 0 end.

Lemma own_step_less t t' : 2 ≤ closing t → own_step t t' → closing t' = closing t ∧ to_do t' < to_do t.
Proof.
  intros Hc (o & Hown & Ho). destruct o; try done; simpl in Ho; unfold to_do.
  - destruct (accept_at t); try done. injection Ho as <-. unfold st_closed. rewrite bool_decide_eq_true_2 by lia.
    simpl. destruct (reverse_at t); lia.
  - destruct (accept_at t); try done. case_bool_decide; [|done]. injection Ho as <-. simpl. rewrite length_app. simpl. lia.
  - destruct (reverse_at t); try done. case_bool_decide; [|done]. injection Ho as <-. simpl. rewrite length_app. simpl. lia.
  - destruct (chanNetConn t); [done|]. destruct (receiving t); [|done]. injection Ho as <-. simpl. lia.
  - destruct (receiver_at t) as [|[]|]; try done. destruct (st_closed t); [|done]. injection Ho as <-. simpl. lia.
  - destruct (chanNetConn t); [done|]. destruct (draining t); [|done]. injection Ho as <-. simpl. lia.
  - destruct (receiver_at t); try done. injection Ho as <-. simpl. lia.
Qed.

Lemma own_steps_bounded n t t' : 2 ≤ closing t → nsteps own_step n t t' → closing t' = closing t ∧ to_do t' + n ≤ to_do t.
Proof.
  intros Hc Hn. induction Hn as [t|n t u t' Hs _ IH]; [split; [done|lia]|].
  destruct (own_step_less t u Hc Hs) as [Heq Hlt]. destruct IH as [? ?]; [lia|]. split; [congruence|lia].
Qed.

(** The receiver has read nil for the channel of its select, or is going to. *)
Definition late (t : transport) : Prop := 1 ≤ closing t ∧ (receiver_at t = Launching ∨ receiver_at t = Selecting true).

(** Only the receiver's own steps move it. *)
Lemma receiver_moves o t t' : exec o t = Some t' →
  closing t ≤ closing t' ∧ (receiver_at t' = receiver_at t ∨
  (receiver_at t = Selecting false ∧ receiver_at t' = Draining) ∨ (receiver_at t = Launching ∧ receiver_at t' = Selecting (st_closed t))).
Proof.
  intros Ho. destruct o; simpl in Ho; repeat (case_match || case_bool_decide); simplify_eq; simpl; split; auto; lia.
Qed.

Lemma late_step t t' : late t → step t t' → late t'.
Proof.
  intros [Hc Hl] [o Ho]. destruct (receiver_moves o t t' Ho) as [Hle Hm]. split; [lia|].
  destruct Hm as [->|[[Hs _]|[_ ->]]]; [done|destruct Hl; congruence|]. right. unfold st_closed. by rewrite bool_decide_eq_true_2.
Qed.

Lemma not_late_step t t' : 1 ≤ closing t → ¬ late t → step t t' → 1 ≤ closing t' ∧ ¬ late t'.
Proof.
  intros Hc Hl [o Ho]. destruct (receiver_moves o t t' Ho) as [Hle Hm]. split; [lia|]. intros [_ Hl'].
  destruct Hm as [Hm|[[_ Hm]|[Hm _]]]; [apply Hl; split; [done|by rewrite <- Hm]|destruct Hl'; congruence|apply Hl; split; auto].
Qed.

Lemma own_step_step t t' : own_step t t' → step t t'.
Proof. intros (o & _ & Ho). by exists o. Qed.

(** Nothing is left to do: the goroutines have ended but the receiver, which closes
    what comes late, or if it is late itself serves it, and no connection waits. *)
Lemma rest_settled t : transport_ok t → 2 ≤ closing t → at_rest t →
  accept_at t = AcceptorGone ∧ (receiver_at t = Draining ∨ receiver_at t = Selecting true) ∧ chanNetConn t = [] ∧
  ∀ i p, places t !! i = Some p → p ≠ Held ∧ p ≠ Queued.
Proof.
  intros Hok Hc Hrest. pose proof Hok as [H1 H2 H3 H4 _ _].
  assert (receiver_at t = Draining ∨ receiver_at t = Selecting true) as Hr.
  { pose proof (Hrest Stop eq_refl) as Hs. pose proof (Hrest ReceiverStarts eq_refl) as Hl. simpl in Hs, Hl. unfold st_closed in Hs.
    rewrite bool_decide_eq_true_2 in Hs by lia. destruct (receiver_at t) as [|[]|]; try done; auto. }
  assert (chanNetConn t = []) as Hl.
  { pose proof (Hrest Drain eq_refl) as Hd. pose proof (Hrest Take eq_refl) as Ht. simpl in Hd, Ht. unfold draining, receiving in *.
    destruct (chanNetConn t); [done|]. by destruct Hr as [Hr|Hr]; rewrite Hr in *. }
  assert (accept_at t = AcceptorGone) as Ha.
  { pose proof (Hrest AcceptFails eq_refl) as Hf. pose proof (Hrest Offer eq_refl) as Ho. simpl in Hf, Ho.
    rewrite Hl in Ho. by destruct (accept_at t). }
  split; [done|]. split; [done|]. split; [done|]. intros i p Hp. split; intros ->.
  - apply H4 in Hp as [[q Hq]|Hq]; [congruence|]. specialize (Hrest ReverseOffer eq_refl). simpl in Hrest. by rewrite Hq, Hl in Hrest.
  - apply H1 in Hp. rewrite Hl in Hp. by apply not_elem_of_nil in Hp.
Qed.

(** The messages of a connection, with the one its goroutine is reading *)
Definition messages_of (i : nat) (t : transport) : nat := length (filter (λ j, j = i) (handled t)).
Definition reading (i : nat) (t : transport) : nat := if bool_decide (places t !! i = Some Reading) then 1 else 0.

(** Where a step of connection [i] leaves the reading of [j] *)
Lemma reading_insert i j p t : is_Some (places t !! i) →
  reading j (set_place i p t) = if bool_decide (j = i) then if bool_decide (p = Reading) then 1 else 0 else reading j t.
Proof.
  intros [q Hq]. pose proof (lookup_lt_Some _ _ _ Hq). unfold reading. simpl. destruct (decide (j = i)) as [->|Hj].
  - rewrite list_lookup_insert_eq, (bool_decide_eq_true_2 (i = i)) by done.
    by rewrite (bool_decide_ext (Some p = Some Reading) (p = Reading)) by naive_solver.
  - by rewrite list_lookup_insert_ne, (bool_decide_eq_false_2 (j = i)) by done.
Qed.
Lemma reading_add j p t : p ≠ Reading → reading j (add_place p t) = reading j t.
Proof.
  intros Hp. unfold reading. simpl.
  by rewrite (bool_decide_ext _ (places t !! j = Some Reading)) by (rewrite lookup_add_place; naive_solver).
Qed.

Lemma closed_messages_step i t t' : transport_ok t → 1 ≤ closing t → step t t' →
  1 ≤ closing t' ∧ messages_of i t' + reading i t' ≤ messages_of i t + reading i t.
Proof.
  intros Hok Hc [o Ho].
  assert (∀ j p q, places t !! j = Some q → p ≠ Reading →
    messages_of i t + reading i (set_place j p t) ≤ messages_of i t + reading i t) as Hset.
  { intros j p q Hj Hp. rewrite reading_insert by eauto. rewrite (bool_decide_eq_false_2 (p = Reading)) by done.
    case_bool_decide; lia. }
  destruct o as [r| | |d| | |f| | | |j ok tk|j|j|j| |]; simpl in Ho.
  - destruct (accept_at t); try done. case_bool_decide; [|done]. injection Ho as <-. split; [by destruct (_ && r)|].
    destruct (_ && r); [change (messages_of i t + reading i (add_place Shut t) ≤ messages_of i t + reading i t)
      |change (messages_of i t + reading i (add_place Held t) ≤ messages_of i t + reading i t)]; by rewrite reading_add.
  - destruct (accept_at t); try done. by injection Ho as <-.
  - destruct (accept_at t) as [|j|] eqn:Ha; try done. case_bool_decide; [|done]. injection Ho as <-. split; [done|].
    eapply (Hset j Queued Held); [|done]. apply (to_held _ Hok). left. eauto.
  - destruct (reverse_at t); try done. injection Ho as <-. split; [by destruct d|]. destruct d; [|done].
    change (messages_of i t + reading i (add_place Held t) ≤ messages_of i t + reading i t). by rewrite reading_add.
  - destruct (reverse_at t) as [| |j| |] eqn:Ha; try done. case_bool_decide; [|done]. injection Ho as <-. split; [done|].
    eapply (Hset j Queued Held); [|done]. apply (to_held _ Hok). by right.
  - destruct (reverse_at t); try done. by injection Ho as <-.
  - destruct (reverse_at t); try done. injection Ho as <-. by destruct f.
  - destruct (chanNetConn t) as [|j l] eqn:Hl; [done|]. destruct (receiving t); [|done]. injection Ho as <-. split; [done|].
    eapply (Hset j Starting Queued); [|done]. apply (to_queued _ Hok). rewrite Hl. by left.
  - destruct (receiver_at t) as [|[]|]; try done. destruct (st_closed t); [|done]. by injection Ho as <-.
  - destruct (chanNetConn t) as [|j l] eqn:Hl; [done|]. destruct (draining t); [|done]. injection Ho as <-. split; [done|].
    eapply (Hset j Shut Queued); [|done]. apply (to_queued _ Hok). rewrite Hl. by left.
  - destruct (places t !! j) as [[]|] eqn:Hj; try done. injection Ho as <-. split; [done|].
    by eapply Hset; [done|destruct ok, tk].
  - destruct (places t !! j) as [[]|] eqn:Hj; try done. injection Ho as <-. split; [done|].
    unfold st_closed. rewrite bool_decide_eq_true_2 by done. by eapply Hset.
  - destruct (places t !! j) as [[]|] eqn:Hj; try done. injection Ho as <-. split; [done|].
    change (messages_of i (mkTransport (closing t) (receiver_at t) (accept_at t) (reverse_at t) (chanNetConn t) (places t) (proxied t) (handled t ++ [j]))
      + reading i (set_place j Round t) ≤ messages_of i t + reading i t).
    rewrite reading_insert by eauto. unfold messages_of, reading. simpl. rewrite filter_app, length_app. simpl.
    destruct (decide (j = i)) as [->|Hne].
    + rewrite Hj, !bool_decide_eq_true_2, filter_cons_True by done. simpl. lia.
    + rewrite filter_cons_False, (bool_decide_eq_false_2 (i = j)) by done. simpl. lia.
  - destruct (places t !! j) as [[]|] eqn:Hj; try done. injection Ho as <-. split; [done|]. by eapply Hset.
  - case_bool_decide; [|done]. injection Ho as <-. split; [simpl; lia|done].
  - destruct (receiver_at t); try done. by injection Ho as <-.
Qed.

Lemma closed_messages i t t' : transport_ok t → 1 ≤ closing t → rtc step t t' →
  messages_of i t' + reading i t' ≤ messages_of i t + reading i t.
Proof.
  intros Hok Hc Hrun. induction Hrun as [t|t u t' Hs _ IH]; [done|].
  destruct (closed_messages_step i t u Hok Hc Hs) as [Hcu Hle]. destruct Hs as [o Ho].
  specialize (IH (acceptor_exec_ok o t u Hok Ho) Hcu). lia.
Qed.

(** Once the receiver is in its deferred loop, a connection not yet taken is only
    closed. *)
Definition unserved (i : nat) (t : transport) : Prop :=
  match places t !! i with None | Some (Held | Queued | Shut) => True | _ => False end.

Lemma unserved_step i t t' : transport_ok t → receiver_at t = Draining ∧ unserved i t → step t t' →
  receiver_at t' = Draining ∧ unserved i t'.
Proof.
  intros Hok [Hr Hu] [o Ho].
  assert (∀ j p, p = Held ∨ p = Queued ∨ p = Shut → unserved i (set_place j p t)) as Hset.
  { intros j p Hp. unfold unserved in *. simpl. destruct (decide (i = j)) as [->|Hne].
    - destruct (places t !! j) eqn:Hj; [|by rewrite list_insert_ge by (by apply lookup_ge_None); rewrite Hj].
      rewrite list_lookup_insert_eq by (by eapply lookup_lt_Some). naive_solver.
    - by rewrite list_lookup_insert_ne. }
  assert (∀ p, p = Held ∨ p = Shut → unserved i (add_place p t)) as Hadd.
  { intros p Hp. unfold unserved in *. simpl. destruct ((places t ++ [p]) !! i) eqn:Hi; [|done].
    apply lookup_add_place in Hi as [[_ <-]|Hi]; [naive_solver|]. by rewrite Hi in Hu. }
  assert (∀ j p q, places t !! j = Some q → ¬ (q = Held ∨ q = Queued ∨ q = Shut) → unserved i (set_place j p t)) as Hoth.
  { intros j p q Hj Hq. unfold unserved in *. simpl. destruct (decide (i = j)) as [->|Hne]; [|by rewrite list_lookup_insert_ne].
    rewrite Hj in Hu. destruct q; naive_solver. }
  destruct o as [r| | |d| | |f| | | |j ok tk|j|j|j| |]; simpl in Ho.
  - destruct (accept_at t); try done. case_bool_decide; [|done]. injection Ho as <-.
    destruct (_ && r); (split; [done|]); [apply (Hadd Shut)|apply (Hadd Held)]; auto.
  - destruct (accept_at t); try done. by injection Ho as <-.
  - destruct (accept_at t) as [|j|]; try done. case_bool_decide; [|done]. injection Ho as <-. split; [done|]. apply (Hset j Queued); auto.
  - destruct (reverse_at t); try done. injection Ho as <-. destruct d; [|done]. split; [done|]. apply (Hadd Held); auto.
  - destruct (reverse_at t) as [| |j| |]; try done. case_bool_decide; [|done]. injection Ho as <-. split; [done|]. apply (Hset j Queued); auto.
  - destruct (reverse_at t); try done. by injection Ho as <-.
  - destruct (reverse_at t); try done. injection Ho as <-. by destruct f.
  - destruct (chanNetConn t); [done|]. unfold receiving in Ho. by rewrite Hr in Ho.
  - by rewrite Hr in Ho.
  - destruct (chanNetConn t) as [|j l]; [done|]. unfold draining in Ho. rewrite Hr in Ho. injection Ho as <-. split; [done|]. apply (Hset j Shut); auto.
  - destruct (places t !! j) as [[]|] eqn:Hj; try done. injection Ho as <-. split; [done|]. eapply Hoth; [done|]. naive_solver.
  - destruct (places t !! j) as [[]|] eqn:Hj; try done. injection Ho as <-. split; [done|]. eapply Hoth; [done|]. naive_solver.
  - destruct (places t !! j) as [[]|] eqn:Hj; try done. injection Ho as <-. split; [done|]. apply (Hoth j Round Reading); [done|]. naive_solver.
  - destruct (places t !! j) as [[]|] eqn:Hj; try done. injection Ho as <-. split; [done|]. eapply Hoth; [done|]. naive_solver.
  - case_bool_decide; [|done]. by injection Ho as <-.
  - by rewrite Hr in Ho.
Qed.

Lemma unserved_stays i t t' : transport_ok t → receiver_at t = Draining → unserved i t → rtc step t t' → unserved i t'.
Proof.
  intros Hok Hr Hu Hrun. enough (receiver_at t' = Draining ∧ unserved i t') by tauto. revert Hrun.
  apply (rtc_invariant_with step transport_ok (λ t, receiver_at t = Draining ∧ unserved i t)); [|apply unserved_step|done|done].
  intros s s' Hs [o Ho]. by eapply acceptor_exec_ok.
Qed.
End acceptor.

(** C24. Closing a listening transport, at any moment: once its listener is closed
    its goroutines do at most 15 steps of their own and come to rest with the
    accepting goroutine gone and every connection that waited taken or closed.  The
    receiver has then left its loop, exactly unless the transport was closed before
    the receiver read the field [st.closed]: then it read nil and never stops.  A
    connection being served gets no message more than the one its goroutine is reading
    already; and once the receiver has left its loop a connection not yet taken is
    never served. *)
Theorem transport_closes ping b t : rtc step (makeStreamTransport ping b) t → 2 ≤ closing t →
  (∀ n t', nsteps own_step n t t' → n ≤ 15 ∧
     (at_rest t' → accept_at t' = AcceptorGone ∧ chanNetConn t' = [] ∧
        (receiver_at t' = Draining ↔ ¬ late t) ∧
        ∀ i p, places t' !! i = Some p → p ≠ Held ∧ p ≠ Queued)) ∧
  (late t → ∀ t', rtc step t t' → receiver_at t' ≠ Draining) ∧
  (∀ i t', rtc step t t' → messages_of i t' ≤ messages_of i t + reading i t) ∧
  (∀ i t', rtc step t t' → receiver_at t = Draining → unserved i t → unserved i t').
Proof.
  intros Hok%reachable_acceptor Hc.
  assert (Hlate : late t → ∀ t', rtc step t t' → receiver_at t' ≠ Draining).
  { intros Hl t' Hrun Hd. assert (late t') as [_ Hl'] by (revert Hrun; apply (rtc_invariant step late); [apply late_step|done]).
    destruct Hl'; congruence. }
  split; [|split; [exact Hlate|split]].
  - intros n t' Hn. destruct (own_steps_bounded n t t' Hc Hn) as [Heq Hle]. split.
    + pose proof (to_size _ Hok) as Hs. unfold chanSize in Hs. unfold to_do in Hle.
      destruct (receiver_at t), (accept_at t), (reverse_at t); lia.
    + intros Hrest. assert (rtc own_step t t') as Hown by (apply rtc_nsteps; eauto).
      assert (rtc step t t') as Hrun by (eapply rtc_subrel, Hown; apply own_step_step).
      destruct (rest_settled t') as (H1 & H2 & H3 & H4); [|lia|done|].
      { revert Hrun. apply (rtc_invariant step transport_ok); [|done]. intros u u' Hu (o & Ho). by eapply acceptor_exec_ok. }
      split; [done|]. split; [done|]. split; [|done]. split; [intros Hd Hl; by eapply Hlate|].
      intros Hl. assert (1 ≤ closing t' ∧ ¬ late t') as [Hc' Hl'].
      { revert Hrun. apply (rtc_invariant step (λ t, 1 ≤ closing t ∧ ¬ late t)); [|split; [lia|done]].
        intros u u' [? ?]. by apply not_late_step. }
      destruct H2 as [?|H2]; [done|]. destruct Hl'. split; auto.
  - intros i t' Hrun. pose proof (closed_messages i t t' Hok ltac:(lia) Hrun). lia.
  - intros i t' Hrun Hr Hu. by eapply unserved_stays.
Qed.

(** The registry's ping, a connection being served, one that waits and one that
    comes through the proxy, when the transport is closed *)
Definition closing_ops : list op :=
  [ReceiverStarts; Arrive true; Arrive false; Offer; Take; Handshake 1 true false; RoundStarts 1; Message 1; RoundStarts 1; Arrive false; Offer;
   Command true; CloseStep; CloseStep].
Definition run_ops (l : list op) (t : transport) : transport := foldl (λ t o, default t (exec o t)) t l.

Lemma run_ops_steps l t : rtc step t (run_ops l t).
Proof.
  revert t. induction l as [|o l IH]; intros t; [apply rtc_refl|]. simpl. destruct (exec o t) as [t'|] eqn:Ho; [|apply IH].
  eapply rtc_l; [by exists o|apply IH].
Qed.

Lemma transport_closes_witness :
  let t := run_ops closing_ops (makeStreamTransport true true) in
  places t = [Shut; Reading; Queued; Held] ∧
  (∀ n t', nsteps own_step n t t' → n ≤ 15) ∧
  (∀ t', rtc step t t' → messages_of 1 t' ≤ 2).
Proof.
  pose proof (transport_closes true true (run_ops closing_ops (makeStreamTransport true true))
    (run_ops_steps closing_ops (makeStreamTransport true true))) as H.
  intros t. split; [vm_compute; reflexivity|]. split.
  - intros n t' Hn. exact (proj1 (proj1 (H ltac:(vm_compute; lia)) n t' Hn)).
  - intros t' Hrun. exact (proj1 (proj2 (proj2 (H ltac:(vm_compute; lia)))) 1 t' Hrun).
Defined.

Example closing_ends :
  let t := run_ops [ReverseOffer; Take; AcceptFails; Stop; Drain; Message 1; RoundStarts 1; Handshake 2 true false; RoundStarts 2]
             (run_ops closing_ops (makeStreamTransport true true)) in
  places t = [Shut; Shut; Shut; Shut] ∧ handled t = [1; 1] ∧ at_rest t.
Proof.
  split; [vm_compute; reflexivity|]. split; [vm_compute; reflexivity|]. intros []; try done; intros _; vm_compute; reflexivity.
Qed.

(** Closing the transport closes the command connection of its proxy, which
    [reverseReceiver] takes for a loss: it registers the service with a proxy again,
    after it was withdrawn, and the connections that come through it are closed. *)
Example closed_registers_again :
  let t := run_ops [ReceiverStarts; CloseStep; CloseStep; CloseStep; CommandLost; CloseStep; Stop; Reconnect true; Command true; ReverseOffer; Drain]
             (makeStreamTransport true true) in
  closing t = 4 ∧ proxied t = true ∧ reverse_at t = Commanded ∧ places t = [Shut].
Proof. vm_compute. by split_and!. Qed.

(** A transport closed at once, as [newTCPTransport] does when it cannot register the
    service, before its receiver has read the field: the receiver never stops. *)
Example closed_at_once :
  let t := run_ops [CloseStep; CloseStep; CloseStep; CloseStep; ReceiverStarts; AcceptFails] (makeStreamTransport false false) in
  receiver_at t = Selecting true ∧ at_rest t ∧ late t.
Proof.
  split; [vm_compute; reflexivity|]. split; [intros []; try done; intros _; vm_compute; reflexivity|].
  split; [apply Nat.leb_le; vm_compute; reflexivity|right; vm_compute; reflexivity].
Qed.
