(* ===== verification/ReverseProxy.v ===== *)
(** The reverse proxy (reverseproxy_svc.go): the service a server behind NAT asks
    to be reached through.  [proxyRegServiceInWAN.Handle] leaves behind two
    listeners, a command stream and a channel on which the connections of clients
    wait for those the server makes back; their callbacks run concurrently. *)
From S2P Require Import Prelude GoStrings Names.

(** The variable chanServerConn: the channel, the channel once closed, nil *)
Inductive chan_var := ChanOpen | ChanClosed | ChanNil.

(** Where a connection of a client is: its request was sent to the server, its callback
    found the channel, it waits in it, it was joined to a connection of the server, it
    was closed, or its callback came too late and waits on nil forever; the same for
    the connections of the server *)
Record proxy := mkProxy {
  chanServerConn : chan_var;
  reversetran_open : bool;
  proxytran_open : bool;
  requested : list nat;           (* after stream.Send(port), before the test *)
  tested : list nat;              (* after the test, before <-chanServerConn *)
  waiting : list nat;             (* in <-chanServerConn *)
  joined : list (nat * nat);      (* client and server, copying to each other *)
  closed_clients : list nat;
  stuck_clients : list nat;       (* in <-chanServerConn, which is nil *)
  accepted : list nat;            (* after the test of onServerConnection *)
  offering : list nat;            (* in chanServerConn <- netconn *)
  dropped_servers : list nat;     (* taken over by a callback that found no channel *)
  stuck_servers : list nat;       (* in chanServerConn <- netconn, which is nil *)
}.

(** After [Handle] replied [OK] *)
Definition proxy_start : proxy := mkProxy ChanOpen true true [] [] [] [] [] [] [] [] [] [].

(** The command stream was lost. *)
Definition lost (p : proxy) : bool := match chanServerConn p with ChanOpen => false | _ => true end.

Inductive proxy_op :=
| ClientConnects (c : nat) (sent : bool) (* onClientConnection, to the result of stream.Send(port) *)
| ClientTests (c : nat)                  (* if chanServerConn == nil *)
| ClientWaits (c : nat)                  (* it goes on to <-chanServerConn *)
| ServerConnects (s : nat)               (* onServerConnection, to its test *)
| ServerOffers (s : nat)                 (* it goes on to chanServerConn <- *)
| Join                                   (* a connection goes over the channel *)
| CmdLost                                (* stream.Recv(nil) fails: to close(chanServerConn) *)
| CmdEnds.                               (* chanServerConn = nil, proxytran.close() *)

Definition remove_one (x : nat) (l : list nat) : list nat := filter (λ y, y ≠ x) l.

(** [onClientConnection], the part before the test; a callback of a connection
    accepted before the listeners were closed may still come after that *)
Definition client_connects (c : nat) (sent : bool) (p : proxy) : option (outcome proxy) :=
  let '(mkProxy v rt pt rq te w j cc sc ac o ds ss) := p in
  if sent then Some (Return (mkProxy v rt pt (rq ++ [c]) te w j cc sc ac o ds ss))
  else Some (Return (mkProxy v false false rq te w j (cc ++ [c]) sc ac o ds ss)).

(** [if chanServerConn == nil] *)
Definition client_tests (c : nat) (p : proxy) : option (outcome proxy) :=
  let '(mkProxy v rt pt rq te w j cc sc ac o ds ss) := p in
  if bool_decide (c ∈ rq) then
    match v with
    | ChanNil => Some (Return (mkProxy v rt pt (remove_one c rq) te w j (cc ++ [c]) sc ac o ds ss))
    | _ => Some (Return (mkProxy v rt pt (remove_one c rq) (te ++ [c]) w j cc sc ac o ds ss))
    end
  else None.

(** [<-chanServerConn]: a closed channel gives nil at once *)
Definition client_waits (c : nat) (p : proxy) : option (outcome proxy) :=
  let '(mkProxy v rt pt rq te w j cc sc ac o ds ss) := p in
  if bool_decide (c ∈ te) then
    match v with
    | ChanOpen => Some (Return (mkProxy v rt pt rq (remove_one c te) (w ++ [c]) j cc sc ac o ds ss))
    | ChanClosed => Some (Return (mkProxy v rt pt rq (remove_one c te) w j (cc ++ [c]) sc ac o ds ss))
    | ChanNil => Some (Return (mkProxy v rt pt rq (remove_one c te) w j cc (sc ++ [c]) ac o ds ss))
    end
  else None.

(** [onServerConnection] *)
Definition server_connects (s : nat) (p : proxy) : option (outcome proxy) :=
  let '(mkProxy v rt pt rq te w j cc sc ac o ds ss) := p in
  match v with
  | ChanNil => Some (Return (mkProxy v rt pt rq te w j cc sc ac o (ds ++ [s]) ss))
  | _ => Some (Return (mkProxy v rt pt rq te w j cc sc (ac ++ [s]) o ds ss))
  end.
Definition server_offers (s : nat) (p : proxy) : option (outcome proxy) :=
  let '(mkProxy v rt pt rq te w j cc sc ac o ds ss) := p in
  if bool_decide (s ∈ ac) then
    match v with
    | ChanOpen => Some (Return (mkProxy v rt pt rq te w j cc sc (remove_one s ac) (o ++ [s]) ds ss))
    | ChanClosed => Some (Panics (str "send on closed channel"))
    | ChanNil => Some (Return (mkProxy v rt pt rq te w j cc sc (remove_one s ac) o ds (ss ++ [s])))
    end
  else None.

(** The channel has no buffer: the first that offers meets the first that waits. *)
Definition join (p : proxy) : option (outcome proxy) :=
  let '(mkProxy v rt pt rq te w j cc sc ac o ds ss) := p in
  match w, o with
  | c :: w, s :: o => Some (Return (mkProxy v rt pt rq te w (j ++ [(c, s)]) cc sc ac o ds ss))
  | _, _ => None
  end.

(** The goroutine in [stream.Recv(nil)]: closing the channel wakes those who wait,
    with nil, and panics in those who offer.  It can only run once nobody is left
    who could be joined, as those meet at once. *)
Definition cmd_lost (p : proxy) : option (outcome proxy) :=
  let '(mkProxy v rt pt rq te w j cc sc ac o ds ss) := p in
  match v with
  | ChanOpen =>
      match o, w with
      | [], _ => Some (Return (mkProxy ChanClosed false pt rq te [] j (cc ++ w) sc ac [] ds ss))
      | _ :: _, [] => Some (Panics (str "send on closed channel"))
      | _ :: _, _ :: _ => None
      end
  | _ => None
  end.
Definition cmd_ends (p : proxy) : option (outcome proxy) :=
  let '(mkProxy v rt pt rq te w j cc sc ac o ds ss) := p in
  match v with
  | ChanClosed => Some (Return (mkProxy ChanNil rt false rq te w j cc sc ac o ds ss))
  | _ => None
  end.

Definition proxy_exec (o : proxy_op) (p : proxy) : option (outcome proxy) :=
  match o with
  | ClientConnects c sent => client_connects c sent p
  | ClientTests c => client_tests c p
  | ClientWaits c => client_waits c p
  | ServerConnects s => server_connects s p
  | ServerOffers s => server_offers s p
  | Join => join p
  | CmdLost => cmd_lost p
  | CmdEnds => cmd_ends p
  end.

(** The connections are new: each has its own number. *)
Definition clients (p : proxy) : list nat :=
  requested p ++ tested p ++ waiting p ++ (joined p).*1 ++ closed_clients p ++ stuck_clients p.
Definition servers (p : proxy) : list nat :=
  accepted p ++ offering p ++ (joined p).*2 ++ dropped_servers p ++ stuck_servers p.

Definition fresh (o : proxy_op) (p : proxy) : Prop :=
  match o with
  | ClientConnects c _ => c ∉ clients p
  | ServerConnects s => s ∉ servers p
  | _ => True
  end.

Inductive proxy_step (p p' : proxy) : Prop :=
| Step o : fresh o p → proxy_exec o p = Some (Return p') → proxy_step p p'.

(** ** The connections of a proxy *)

(** The listener that accepts the connections of clients is closed last. *)
Definition listeners_closed (p : proxy) : Prop :=
  match chanServerConn p with
  | ChanOpen => True
  | ChanClosed => reversetran_open p = false
  | ChanNil => reversetran_open p = false ∧ proxytran_open p = false
  end.

Record proxy_inv (p : proxy) : Prop := mkProxyInv {
  pi_clients : NoDup (clients p);
  pi_servers : NoDup (servers p);
  pi_lost : lost p = true → waiting p = [] ∧ offering p = [];
  pi_listeners : listeners_closed p;
}.

Lemma remove_one_perm x l : NoDup l → x ∈ l → l ≡ₚ x :: remove_one x l.
Proof.
  intros Hl Hx. apply NoDup_Permutation; [done|constructor|].
  - unfold remove_one. rewrite list_elem_of_filter. tauto.
  - by apply NoDup_filter.
  - intros y. unfold remove_one. rewrite elem_of_cons, list_elem_of_filter.
    destruct (decide (y = x)); naive_solver.
Qed.

(** A connection leaves the place [l]. *)
Ltac leaves x l Hl Hx :=
  let E := fresh "E" in
  pose proof (remove_one_perm x l Hl Hx) as E; revert E; generalize (remove_one x l); intros ? E.

(** What a step does to the connections: a new one, or a change of place *)
Lemma proxy_exec_clients o p p' : proxy_exec o p = Some (Return p') → NoDup (clients p) →
  match o with ClientConnects c _ => clients p' ≡ₚ c :: clients p | _ => clients p' ≡ₚ clients p end.
Proof.
  destruct p as [v rt pt rq te w j cc sc ac off ds ss]; unfold clients; cbn. intros H Hnd.
  apply NoDup_app in Hnd as (Hrq & _ & Hnd). apply NoDup_app in Hnd as (Hte & _ & _).
  destruct o as [c sent|c|c|s|s| | |]; simpl in H.
  - destruct sent; injection H as <-; simpl; solve_Permutation.
  - case_bool_decide as Hc; [|done]. revert H. leaves c rq Hrq Hc. intros H. destruct v; injection H as <-; simpl; rewrite E; solve_Permutation.
  - case_bool_decide as Hc; [|done]. revert H. leaves c te Hte Hc. intros H. destruct v; injection H as <-; simpl; rewrite E; solve_Permutation.
  - by destruct v; injection H as <-.
  - case_bool_decide as Hc; [|done]. by destruct v; simplify_eq.
  - destruct w as [|c w], off as [|s off]; try done. injection H as <-. simpl. rewrite fmap_app. simpl. solve_Permutation.
  - destruct v; try done. destruct off as [|s off]; [|by destruct w]. injection H as <-. simpl. solve_Permutation.
  - destruct v; try done. by injection H as <-.
Qed.

Lemma proxy_exec_servers o p p' : proxy_exec o p = Some (Return p') → NoDup (servers p) →
  match o with ServerConnects s => servers p' ≡ₚ s :: servers p | _ => servers p' ≡ₚ servers p end.
Proof.
  destruct p as [v rt pt rq te w j cc sc ac off ds ss]; unfold servers; cbn. intros H Hnd.
  apply NoDup_app in Hnd as (Hac & _ & _).
  destruct o as [c sent|c|c|s|s| | |]; simpl in H.
  - by destruct sent; injection H as <-.
  - case_bool_decide as Hc; [|done]. by destruct v; injection H as <-.
  - case_bool_decide as Hc; [|done]. by destruct v; injection H as <-.
  - destruct v; injection H as <-; simpl; solve_Permutation.
  - case_bool_decide as Hc; [|done]. revert H. leaves s ac Hac Hc. intros H. destruct v; simplify_eq; simpl; rewrite E; solve_Permutation.
  - destruct w as [|c w], off as [|s off]; try done. injection H as <-. simpl. rewrite fmap_app. simpl. solve_Permutation.
  - destruct v; try done. destruct off as [|s off]; [|by destruct w]. by injection H as <-.
  - destruct v; try done. by injection H as <-.
Qed.

Lemma proxy_inv_step p p' : proxy_inv p → proxy_step p p' → proxy_inv p'.
Proof.
  intros [H1 H2 H3 H4] [o Hf Ho]. pose proof (proxy_exec_clients _ _ _ Ho H1) as Hc.
  pose proof (proxy_exec_servers _ _ _ Ho H2) as Hs. split.
  - destruct o; rewrite Hc; by try (constructor; [exact Hf|]).
  - destruct o; rewrite Hs; by try (constructor; [exact Hf|]).
  - clear Hc Hs Hf H1 H2 H4. destruct p as [v rt pt rq te w j cc sc ac off ds ss]. unfold lost in *; simpl in *.
    destruct o as [c sent|c|c|s|s| | |]; simpl in Ho.
    + by destruct sent; injection Ho as <-.
    + case_bool_decide; [|done]. by destruct v; injection Ho as <-.
    + case_bool_decide; [|done]. by destruct v; injection Ho as <-.
    + by destruct v; injection Ho as <-.
    + case_bool_decide; [|done]. by destruct v; simplify_eq.
    + destruct w, off; try done. injection Ho as <-. simpl in *. destruct v; [done|by destruct (H3 eq_refl)..].
    + destruct v; try done. destruct off; [|by destruct w]. by injection Ho as <-.
    + destruct v; try done. injection Ho as <-. by simpl in *.
  - clear Hc Hs Hf H1 H2 H3. destruct p as [v rt pt rq te w j cc sc ac off ds ss]. unfold listeners_closed in *; simpl in *.
    destruct o as [c sent|c|c|s|s| | |]; simpl in Ho.
    + destruct sent; injection Ho as <-; simpl; [done|by destruct v].
    + case_bool_decide; [|done]. by destruct v; injection Ho as <-.
    + case_bool_decide; [|done]. by destruct v; injection Ho as <-.
    + by destruct v; injection Ho as <-.
    + case_bool_decide; [|done]. by destruct v; simplify_eq.
    + destruct w, off; try done. by injection Ho as <-.
    + destruct v; try done. destruct off; [|by destruct w]. by injection Ho as <-.
    + destruct v; try done. by injection Ho as <-.
Qed.

Lemma proxy_reachable_inv p : rtc proxy_step proxy_start p → proxy_inv p.
Proof. apply (rtc_invariant proxy_step proxy_inv); [apply proxy_inv_step|by split; try constructor]. Qed.

(** Once lost, it joins nobody. *)
Lemma lost_joins_nobody p p' : proxy_inv p → lost p = true → proxy_step p p' → lost p' = true ∧ joined p' = joined p.
Proof.
  intros Hi Hl [o _ Ho]. destruct (pi_lost _ Hi Hl) as (Hw & Hof).
  destruct p as [v rt pt rq te w j cc sc ac off ds ss]; unfold lost in *; simpl in *; subst.
  destruct o as [c []|c|c|s|s| | |]; simpl in Ho; try done; try (by injection Ho as <-); try (case_bool_decide; [|done]);
    destruct v; try done; by injection Ho as <-.
Qed.

(** C35. The proxy joins connections one to one: at any time every connection of a
    client is in exactly one place (its request sent, its callback past the test,
    waiting, joined to one connection of the server, closed, or stuck), and so is every
    connection of the server; once the command stream is lost nobody waits, the
    listeners are closed, and nobody is joined any more. *)
Theorem proxy_joins_one_to_one p :
  rtc proxy_step proxy_start p →
  NoDup (clients p) ∧ NoDup (servers p) ∧ NoDup (joined p).*1 ∧ NoDup (joined p).*2 ∧
  (lost p = true → waiting p = [] ∧ offering p = [] ∧ listeners_closed p ∧
     ∀ p', rtc proxy_step p p' → lost p' = true ∧ joined p' = joined p).
Proof.
  intros Hr. pose proof (proxy_reachable_inv p Hr) as Hi. pose proof Hi as [H1 H2 H3 H4]. split_and!; try done.
  - unfold clients in H1. rewrite !NoDup_app in H1. tauto.
  - unfold servers in H2. rewrite !NoDup_app in H2. tauto.
  - intros Hl. destruct (H3 Hl) as (? & ?). split_and!; try done. intros p' Hp'.
    assert (proxy_inv p' ∧ lost p' = true ∧ joined p' = joined p) as (_ & ? & ?); [|done].
    revert p' Hp'. apply rtc_ind_r; [done|]. intros y z _ Hyz (Hy1 & Hy2 & Hy3).
    destruct (lost_joins_nobody y z Hy1 Hy2 Hyz) as [Hz1 Hz2]. split_and!; [by eapply proxy_inv_step|done|congruence].
Qed.

(** Losing the command stream panics exactly when a connection of the server
    is being offered and no client waits for it yet: then the callback that offers
    it sends on the channel just closed.  It happens to a server that answers the
    request of a client before the client's callback has come to wait, and to
    anybody who connects to the reverse port uninvited. *)
Theorem proxy_lost_panics p :
  rtc proxy_step proxy_start p → lost p = false →
  ((∃ w, cmd_lost p = Some (Panics w)) ↔ offering p ≠ [] ∧ waiting p = []) ∧
  (waiting p = [] → ∀ s, s ∈ accepted p →
     ∃ p', proxy_step p p' ∧ cmd_lost p' = Some (Panics (str "send on closed channel"))).
Proof.
  intros Hr Hl. destruct p as [v rt pt rq te w j cc sc ac off ds ss]; unfold lost in Hl; simpl in *. destruct v; try done. split.
  - destruct off, w; simpl; split; try naive_solver.
  - intros -> s Hs. eexists. split; [apply (Step _ _ (ServerOffers s)); [done|simpl; by rewrite bool_decide_eq_true_2]|].
    simpl. by destruct off.
Qed.

(** A callback overtaken between its test and the channel waits on nil for ever: its
    connection is neither joined nor closed. *)
Lemma stuck_stays p p' : proxy_step p p' → stuck_clients p ⊆ stuck_clients p' ∧ stuck_servers p ⊆ stuck_servers p'.
Proof.
  intros [o _ Ho]. destruct p as [v rt pt rq te w j cc sc ac off ds ss].
  destruct o as [c []|c|c|s|s| | |]; simpl in Ho; try (case_bool_decide; [|done]);
    try (destruct v; simplify_eq/=; split; set_solver); try (injection Ho as <-; done).
  - destruct w, off; try done. by injection Ho as <-.
  - destruct v; try done. destruct off; [|by destruct w]. by injection Ho as <-.
Qed.

Definition overtaken : list proxy_op :=
  [ClientConnects 1 true; ClientTests 1; ServerConnects 7; CmdLost; CmdEnds; ClientWaits 1; ServerOffers 7].
Fixpoint proxy_run (l : list proxy_op) (p : proxy) : option (outcome proxy) :=
  match l with
  | [] => Some (Return p)
  | o :: l => r ← proxy_exec o p; match r with Return p => proxy_run l p | Panics w => Some (Panics w) end
  end.

Example overtaken_is_stuck :
  proxy_run overtaken proxy_start = Some (Return (mkProxy ChanNil false false [] [] [] [] [] [1] [] [] [] [7])).
Proof. reflexivity. Qed.

(** Closing the channel under a callback past its test panics in it. *)
Example overtaken_panics :
  proxy_run [ServerConnects 7; CmdLost; ServerOffers 7] proxy_start = Some (Panics (str "send on closed channel")).
Proof. reflexivity. Qed.

Lemma proxy_joins_one_to_one_witness :
  let p := mkProxy ChanNil false false [] [] [] [(1, 7)] [2] [] [] [] [] [] in
  rtc proxy_step proxy_start p ∧ NoDup (clients p).
Proof.
  assert (H : rtc proxy_step proxy_start (mkProxy ChanNil false false [] [] [] [(1, 7)] [2] [] [] [] [] [])).
  { eapply rtc_l; [apply (Step _ _ (ClientConnects 1 true)); [by_decide|reflexivity]|].
    eapply rtc_l; [apply (Step _ _ (ClientTests 1)); [done|reflexivity]|].
    eapply rtc_l; [apply (Step _ _ (ClientWaits 1)); [done|reflexivity]|].
    eapply rtc_l; [apply (Step _ _ (ClientConnects 2 true)); [by_decide|reflexivity]|].
    eapply rtc_l; [apply (Step _ _ (ClientTests 2)); [done|reflexivity]|].
    eapply rtc_l; [apply (Step _ _ (ClientWaits 2)); [done|reflexivity]|].
    eapply rtc_l; [apply (Step _ _ (ServerConnects 7)); [by_decide|reflexivity]|].
    eapply rtc_l; [apply (Step _ _ (ServerOffers 7)); [done|reflexivity]|].
    eapply rtc_l; [apply (Step _ _ Join); [done|reflexivity]|].
    eapply rtc_l; [apply (Step _ _ CmdLost); [done|reflexivity]|].
    eapply rtc_l; [apply (Step _ _ CmdEnds); [done|reflexivity]|]. apply rtc_refl. }
  split; [exact H|]. exact (proj1 (proxy_joins_one_to_one _ H)).
Defined.

Lemma proxy_lost_panics_witness :
  ∃ p p', rtc proxy_step proxy_start p ∧ proxy_step p p' ∧ cmd_lost p' = Some (Panics (str "send on closed channel")).
Proof.
  assert (H : rtc proxy_step proxy_start (mkProxy ChanOpen true true [] [] [] [] [] [] [7] [] [] [])).
  { eapply rtc_l; [apply (Step _ _ (ServerConnects 7)); [by_decide|reflexivity]|]. apply rtc_refl. }
  destruct (proj2 (proxy_lost_panics _ H eq_refl) eq_refl 7) as (p' & H1 & H2); [left|].
  eexists _, p'. split; [exact H|]. split; [exact H1|exact H2].
Defined.
