(* ===== verification/Relay.v ===== *)
(** A joined connection of the reverse proxy (reverseproxy_svc.go): the two goroutines
    that copy between the connection of a client and the one its server made back,
    with the byte that tells the client it is joined, and how both end; and the
    handshakes before, which [handleConn] reads off both connections and for which the
    ends of a proxied connection wait in vain. *)
From S2P Require Import Prelude GoStrings Stream.

(** ** State *)

(** A [net.Conn] of the proxy: the bytes that arrived and were read from it, and those
    that were not; whether its peer has closed it or reset it; the bytes written to it;
    whether the proxy has not closed it *)
Record conn := mkConn {
  was_read : bytes;
  unread : bytes;
  peer_closed : bool;
  broken : bool;
  written : bytes;
  is_open : bool;
}.
Definition arrived (c : conn) : bytes := was_read c ++ unread c.

(** What [handleConn] hands to the function that joins it: the connection without the
    bytes of its handshake ([None] while these have not all arrived, or are wrong) *)
Definition handed_over (came : bytes) (pc br : bool) : option conn :=
  '(_, rest) ← handshakeWithClient [came]; Some (mkConn [] (concat rest) pc br [] true).

(** The goroutine that reads from a side: before its acknowledging [Write], in
    [io.Copy] with bytes it has read and not written, or gone, after the end of what
    it read or after an error *)
Inductive copier := Acking | Copying (pending : bytes) | Gone (eof : bool).

Inductive side := ClientSide | ServerSide.
Definition other (s : side) : side := match s with ClientSide => ServerSide | ServerSide => ClientSide end.

Record relay := mkRelay { clientConn : conn; serverConn : conn; up : copier; down : copier }.
Definition joined_pair (c s : conn) : relay := mkRelay c s (Copying []) Acking.

Definition conn_of (s : side) (r : relay) : conn := match s with ClientSide => clientConn r | ServerSide => serverConn r end.
Definition copier_of (s : side) (r : relay) : copier := match s with ClientSide => up r | ServerSide => down r end.
Definition set_conn (s : side) (c : conn) (r : relay) : relay :=
  let '(mkRelay cl sv u d) := r in match s with ClientSide => mkRelay c sv u d | ServerSide => mkRelay cl c u d end.
Definition set_copier (s : side) (k : copier) (r : relay) : relay :=
  let '(mkRelay cl sv u d) := r in match s with ClientSide => mkRelay cl sv k d | ServerSide => mkRelay cl sv u k end.

(** ** Operations *)

Definition usable (c : conn) : bool := is_open c && negb (broken c).
Definition wrote (b : bytes) (c : conn) : conn :=
  let '(mkConn rd un pc br wr op) := c in mkConn rd un pc br (wr ++ b) op.
Definition closed (c : conn) : conn := let '(mkConn rd un pc br wr op) := c in mkConn rd un pc br wr false.

(** [io.Copy] returns; the goroutine closes the connection it wrote to. *)
Definition leave (s : side) (eof : bool) (r : relay) : relay :=
  set_copier s (Gone eof) (set_conn (other s) (closed (conn_of (other s) r)) r).

(** What tells the client that it is joined *)
Definition ack_byte : ascii := "000"%char.

(** The acknowledging [Write], whose error is ignored *)
Definition ack (r : relay) : option relay :=
  match down r with
  | Acking =>
      let c := clientConn r in
      Some (set_copier ServerSide (Copying []) (set_conn ClientSide (if usable c then wrote [ack_byte] c else c) r))
  | _ => None
  end.

(** A [Read] of [io.Copy] that gives [k] bytes, the end, or an error *)
Definition reads (s : side) (k : nat) (r : relay) : option relay :=
  let '(mkConn rd un pc br wr op) := conn_of s r in
  match copier_of s r with
  | Copying [] =>
      if (op : bool) && bool_decide (0 < k ≤ length un)
      then Some (set_copier s (Copying (take k un)) (set_conn s (mkConn (rd ++ take k un) (drop k un) pc br wr op) r))
      else None
  | _ => None
  end.
Definition read_ends (s : side) (r : relay) : option relay :=
  let c := conn_of s r in
  match copier_of s r with
  | Copying [] => if is_open c && bool_decide (unread c = []) && peer_closed c then Some (leave s true r) else None
  | _ => None
  end.
Definition read_fails (s : side) (r : relay) : option relay :=
  match copier_of s r with
  | Copying [] => if usable (conn_of s r) then None else Some (leave s false r)
  | _ => None
  end.

(** A [Write] of [io.Copy] that goes on after [k] bytes, or fails *)
Definition writes (s : side) (k : nat) (r : relay) : option relay :=
  match copier_of s r with
  | Copying p =>
      let c := conn_of (other s) r in
      if usable c && bool_decide (0 < k ≤ length p)
      then Some (set_copier s (Copying (drop k p)) (set_conn (other s) (wrote (take k p) c) r))
      else None
  | _ => None
  end.
Definition write_fails (s : side) (r : relay) : option relay :=
  match copier_of s r with
  | Copying (b :: p) => if usable (conn_of (other s) r) then None else Some (leave s false r)
  | _ => None
  end.

(** What the peers do *)
Definition arrives (s : side) (b : bytes) (r : relay) : option relay :=
  let '(mkConn rd un pc br wr op) := conn_of s r in
  if pc || br then None else Some (set_conn s (mkConn rd (un ++ b) pc br wr op) r).
Definition peer_closes (s : side) (r : relay) : option relay :=
  let '(mkConn rd un pc br wr op) := conn_of s r in
  if (pc : bool) then None else Some (set_conn s (mkConn rd un true br wr op) r).
Definition peer_resets (s : side) (r : relay) : option relay :=
  let '(mkConn rd un pc br wr op) := conn_of s r in
  if (br : bool) then None else Some (set_conn s (mkConn rd un pc true wr op) r).

Inductive own_op := OAck | ORead (s : side) (k : nat) | OReadEnds (s : side) | OReadFails (s : side)
| OWrite (s : side) (k : nat) | OWriteFails (s : side).
Definition own (o : own_op) (r : relay) : option relay :=
  match o with
  | OAck => ack r
  | ORead s k => reads s k r
  | OReadEnds s => read_ends s r
  | OReadFails s => read_fails s r
  | OWrite s k => writes s k r
  | OWriteFails s => write_fails s r
  end.

Definition own_step (r r' : relay) : Prop := ∃ o, own o r = Some r'.
Inductive relay_step (r r' : relay) : Prop :=
| relay_own : own_step r r' → relay_step r r'
| relay_arrives s b : arrives s b r = Some r' → relay_step r r'
| relay_closes s : peer_closes s r = Some r' → relay_step r r'
| relay_resets s : peer_resets s r = Some r' → relay_step r r'.

(** ** What was copied *)

(** All that was written of what was read from side [s], the acknowledging byte apart;
    without that byte, nothing ever *)
Definition sent_ok (s : side) (dst : conn) (w : bytes) : Prop :=
  match s with
  | ClientSide => written dst = w
  | ServerSide => written dst = ack_byte :: w ∨ (written dst = [] ∧ w = [] ∧ usable dst = false)
  end.

Definition copy_ok (s : side) (src dst : conn) (k : copier) : Prop :=
  match k with
  | Acking => s = ServerSide ∧ was_read src = [] ∧ written dst = [] ∧ is_open dst = true
  | Copying p => is_open dst = true ∧ ∃ w, sent_ok s dst w ∧ was_read src = w ++ p
  | Gone eof => is_open dst = false ∧ ∃ w, sent_ok s dst w ∧ w `prefix_of` was_read src ∧
                  (eof = true → w = arrived src ∧ peer_closed src = true)
  end.

Definition relay_ok (r : relay) : Prop :=
  copy_ok ClientSide (clientConn r) (serverConn r) (up r) ∧ copy_ok ServerSide (serverConn r) (clientConn r) (down r).

Lemma relay_ok_side s r : relay_ok r → copy_ok s (conn_of s r) (conn_of (other s) r) (copier_of s r).
Proof. by intros [? ?]; destruct s. Qed.

Lemma relay_ok_sides s r : copy_ok s (conn_of s r) (conn_of (other s) r) (copier_of s r) →
  copy_ok (other s) (conn_of (other s) r) (conn_of s r) (copier_of (other s) r) → relay_ok r.
Proof. by destruct s; split. Qed.

(** What a copier does not look at *)
Lemma copy_ok_src s src src' dst k : was_read src' = was_read src → arrived src' = arrived src →
  peer_closed src' = peer_closed src → copy_ok s src dst k → copy_ok s src' dst k.
Proof. intros H1 H2 H3. destruct k; simpl; by rewrite ?H1, ?H2, ?H3. Qed.

Lemma copy_ok_dst s src dst dst' k : written dst' = written dst → is_open dst' = is_open dst →
  (usable dst = false → usable dst' = false) → copy_ok s src dst k → copy_ok s src dst' k.
Proof.
  intros H1 H2 H3. assert (Hs : ∀ w, sent_ok s dst w → sent_ok s dst' w).
  { intros w. destruct s; simpl; rewrite H1; [done|]. intros [?|(? & ? & ?)]; [by left|right]. auto. }
  destruct k; simpl; rewrite ?H1, ?H2; [done| |]; naive_solver.
Qed.

Lemma sent_wrote s dst w b : usable dst = true → sent_ok s dst w → sent_ok s (wrote b dst) (w ++ b).
Proof.
  destruct dst as [rd un pc br wr op], s; simpl; [by intros _ ->|]. intros Hu [->|(_ & _ & Hn)]; [by left|congruence].
Qed.

Lemma usable_open c : usable c = true → is_open c = true.
Proof. unfold usable. by destruct (is_open c). Qed.

Lemma sent_closed s dst w : sent_ok s dst w → sent_ok s (closed dst) w.
Proof.
  destruct dst as [rd un pc br wr op], s; simpl; [done|]. intros [?|(? & ? & _)]; [by left|by right].
Qed.

Lemma closed_src s src dst k : copy_ok s src dst k → copy_ok s (closed src) dst k.
Proof. apply copy_ok_src; by destruct src. Qed.
Lemma wrote_src s src dst k b : copy_ok s src dst k → copy_ok s (wrote b src) dst k.
Proof. apply copy_ok_src; by destruct src. Qed.

(** ** Every step keeps it *)

Lemma other_other s : other (other s) = s.
Proof. by destruct s. Qed.

Lemma leave_ok s eof r w p : relay_ok r → copier_of s r = Copying p → sent_ok s (conn_of (other s) r) w →
  was_read (conn_of s r) = w ++ p →
  (eof = true → p = [] ∧ unread (conn_of s r) = [] ∧ peer_closed (conn_of s r) = true) → relay_ok (leave s eof r).
Proof.
  intros Hr Hk Hw Hp He. pose proof (relay_ok_side (other s) r Hr) as Ho. rewrite other_other in Ho.
  assert (Hgone : copy_ok s (conn_of s r) (closed (conn_of (other s) r)) (Gone eof)).
  { split; [by destruct (conn_of (other s) r)|]. exists w. split; [by apply sent_closed|]. split; [rewrite Hp; by apply prefix_app_r|].
    intros Heof. destruct (He Heof) as (-> & Hun & ->). unfold arrived. by rewrite Hun, Hp, !app_nil_r. }
  apply (closed_src (other s)) in Ho. apply (relay_ok_sides s); destruct r, s; exact Hgone || exact Ho.
Qed.

Lemma own_ok o r r' : relay_ok r → own o r = Some r' → relay_ok r'.
Proof.
  intros Hr Ho. destruct o as [|s k|s|s|s k|s]; simpl in Ho.
  - unfold ack in Ho. destruct (down r) eqn:Hd; [|done|done]. injection Ho as <-.
    destruct r as [c sv u d]; simpl in *; subst d. destruct Hr as [H1 (_ & H2 & H3 & H4)]; simpl in *.
    assert (Hc : relay_ok (mkRelay (if usable c then wrote [ack_byte] c else c) sv u (Copying []))); [|done]. split; simpl.
    + destruct (usable c); [by apply wrote_src|done].
    + destruct (usable c) eqn:Hu.
      * split; [by destruct c|]. exists []. split; [left; by destruct c; simpl in *; subst|by rewrite H2].
      * split; [done|]. exists []. split; [by right|by rewrite H2].
  - unfold reads in Ho. destruct (conn_of s r) as [rd un pc br wr op] eqn:Hc.
    pose proof (relay_ok_side s r Hr) as Hs. pose proof (relay_ok_side (other s) r Hr) as Hs'. rewrite other_other in Hs'.
    destruct (copier_of s r) as [|[|]|] eqn:Hk; try done. destruct (op && _); [|done]. injection Ho as <-.
    rewrite Hc in Hs, Hs'. destruct Hs as (Hop & w & Hw & Hrd). simpl in Hrd. rewrite app_nil_r in Hrd. subst rd.
    apply (relay_ok_sides s).
    + assert (copy_ok s (mkConn (w ++ take k un) (drop k un) pc br wr op) (conn_of (other s) r) (Copying (take k un))).
      { split; [done|]. by exists w. }
      by destruct r, s.
    + assert (copy_ok (other s) (conn_of (other s) r) (mkConn (w ++ take k un) (drop k un) pc br wr op) (copier_of (other s) r)).
      { eapply copy_ok_dst; [..|exact Hs']; done. }
      by destruct r, s.
  - unfold read_ends in Ho. pose proof (relay_ok_side s r Hr) as Hs. destruct (copier_of s r) as [|[|]|] eqn:Hk; try done.
    destruct (is_open _ && _ && peer_closed _) eqn:Hc; [|done]. injection Ho as <-.
    apply andb_prop in Hc as [[_ Hun%bool_decide_eq_true]%andb_prop Hpc]. destruct Hs as (Hop & w & Hw & Hrd).
    by eapply leave_ok.
  - unfold read_fails in Ho. pose proof (relay_ok_side s r Hr) as Hs. destruct (copier_of s r) as [|[|]|] eqn:Hk; try done.
    destruct (usable _); [done|]. injection Ho as <-. destruct Hs as (Hop & w & Hw & Hrd). by eapply leave_ok.
  - unfold writes in Ho. pose proof (relay_ok_side s r Hr) as Hs. pose proof (relay_ok_side (other s) r Hr) as Hs'. rewrite other_other in Hs'.
    destruct (copier_of s r) as [|p|] eqn:Hk; try done. destruct (usable (conn_of (other s) r)) eqn:Hu; [|done].
    destruct (bool_decide _); [|done]. injection Ho as <-. destruct Hs as (Hop & w & Hw & Hrd).
    assert (Hnew : copy_ok s (conn_of s r) (wrote (take k p) (conn_of (other s) r)) (Copying (drop k p))).
    { split; [by destruct (conn_of (other s) r)|]. exists (w ++ take k p). split; [by apply sent_wrote|].
      by rewrite <- app_assoc, take_drop. }
    apply (wrote_src (other s) _ _ _ (take k p)) in Hs'. apply (relay_ok_sides s); destruct r, s; exact Hnew || exact Hs'.
  - unfold write_fails in Ho. pose proof (relay_ok_side s r Hr) as Hs. destruct (copier_of s r) as [|[|b p]|] eqn:Hk; try done.
    destruct (usable _); [done|]. injection Ho as <-. destruct Hs as (Hop & w & Hw & Hrd). by eapply leave_ok.
Qed.

(** A change of one connection by its peer *)
Lemma set_conn_ok s c' r : relay_ok r →
  (copy_ok s (conn_of s r) (conn_of (other s) r) (copier_of s r) → copy_ok s c' (conn_of (other s) r) (copier_of s r)) →
  written c' = written (conn_of s r) → is_open c' = is_open (conn_of s r) →
  (usable (conn_of s r) = false → usable c' = false) → relay_ok (set_conn s c' r).
Proof.
  intros Hr Hsrc Hw Hop Hu. pose proof (relay_ok_side s r Hr) as Hs. pose proof (relay_ok_side (other s) r Hr) as Hs'.
  rewrite other_other in Hs'. apply Hsrc in Hs. apply (copy_ok_dst _ _ _ c') in Hs'; [|done..].
  apply (relay_ok_sides s); destruct r, s; exact Hs || exact Hs'.
Qed.

Lemma relay_step_ok r r' : relay_ok r → relay_step r r' → relay_ok r'.
Proof.
  intros Hr [[o Ho]|s b Ha|s Hc|s Hc].
  - by eapply own_ok.
  - unfold arrives in Ha. destruct (conn_of s r) as [rd un pc br wr op] eqn:Hcs. destruct pc, br; try done. injection Ha as <-.
    apply set_conn_ok; rewrite ?Hcs; try done. destruct (copier_of s r) as [|p|e]; simpl; [done|done|].
    intros (? & w & ? & ? & He). split; [done|]. exists w. split; [done|]. split; [done|]. intros Heof. by destruct (He Heof).
  - unfold peer_closes in Hc. destruct (conn_of s r) as [rd un pc br wr op] eqn:Hcs. destruct pc; try done. injection Hc as <-.
    apply set_conn_ok; rewrite ?Hcs; try done. destruct (copier_of s r) as [|p|e]; simpl; [done|done|].
    intros (? & w & ? & ? & He). split; [done|]. exists w. split; [done|]. split; [done|]. intros Heof. by destruct (He Heof).
  - unfold peer_resets in Hc. destruct (conn_of s r) as [rd un pc br wr op] eqn:Hcs. destruct br; try done. injection Hc as <-.
    apply set_conn_ok; rewrite ?Hcs; try done. unfold usable. simpl. by rewrite andb_false_r.
Qed.

(** What is handed over is what came after the handshake, and none of it read. *)
Lemma handed_over_spec came pc br c : handed_over came pc br = Some c →
  (∃ shake, came = shake ++ arrived c ∧ length shake = 2 + Z.to_nat (big_endian (take 2 shake))) ∧
  was_read c = [] ∧ written c = [] ∧ is_open c = true.
Proof.
  unfold handed_over, handshakeWithClient. pose proof (ReadFull_concat 2 [came]) as [Hg Hn].
  destruct (ReadFull 2 [came]) as [size net1]. cbn [fst snd] in Hg, Hn.
  replace (concat [came]) with came in * by (simpl; by rewrite app_nil_r).
  destruct (bool_decide_reflect (length size < 2)) as [|Hl]; [done|].
  pose proof (ReadFull_concat (Z.to_nat (big_endian size)) net1) as [Hg2 Hn2].
  destruct (ReadFull _ net1) as [msg net2]. cbn [fst snd] in Hg2, Hn2.
  destruct (bool_decide_reflect (length msg < Z.to_nat (big_endian size))) as [|Hm]; [done|].
  destruct (scan_marker msg); [|done]. intros [= <-]. split; [|done]. exists (size ++ msg).
  assert (Hs2 : length size = 2) by (apply (f_equal length) in Hg; rewrite length_take in Hg; lia).
  assert (Hmk : length msg = Z.to_nat (big_endian size)) by (apply (f_equal length) in Hg2; rewrite length_take in Hg2; lia).
  unfold arrived. simpl. split.
  - rewrite <- app_assoc, Hn2, Hg2, take_drop, Hn, Hg. by rewrite take_drop.
  - by rewrite length_app, take_app_length', Hs2, Hmk.
Qed.

Lemma relay_reachable pc br pc' br' came came' c0 s0 r : handed_over came pc br = Some c0 → handed_over came' pc' br' = Some s0 →
  rtc relay_step (joined_pair c0 s0) r → relay_ok r.
Proof.
  intros (_ & Hc1 & Hc2 & Hc3)%handed_over_spec (_ & Hs1 & Hs2 & Hs3)%handed_over_spec.
  apply rtc_invariant; [apply relay_step_ok|]. split; simpl; [|done]. split; [done|]. by exists [].
Qed.

(** What has arrived stays. *)
Lemma arrived_grows s r r' : relay_step r r' → arrived (conn_of s r) `prefix_of` arrived (conn_of s r').
Proof.
  assert (Hset : ∀ t c q, arrived (conn_of t q) `prefix_of` arrived c →
    arrived (conn_of s q) `prefix_of` arrived (conn_of s (set_conn t c q))) by (by intros t c [] ?; destruct s, t).
  assert (Hk : ∀ t k q, conn_of s (set_copier t k q) = conn_of s q) by (by intros t k []; destruct s, t).
  assert (Hw : ∀ b c, arrived (wrote b c) = arrived c) by (by intros b []).
  assert (Hl : ∀ t e q, arrived (conn_of s q) `prefix_of` arrived (conn_of s (leave t e q))).
  { intros t e q. unfold leave. rewrite Hk. apply Hset. by destruct (conn_of (other t) q). }
  intros [[[|t k|t|t|t k|t] Ho]|t b Ha|t Hc|t Hc]; simpl in *.
  - unfold ack in Ho. destruct (down r); try done. injection Ho as <-. rewrite Hk. apply Hset. simpl. destruct (usable _); by rewrite ?Hw.
  - unfold reads in Ho. destruct (conn_of t r) as [rd un pc br wr op] eqn:Ht. destruct (copier_of t r) as [|[|]|]; try done.
    destruct (_ && _); [|done]. injection Ho as <-. rewrite Hk. apply Hset. rewrite Ht. unfold arrived. simpl. by rewrite <- app_assoc, take_drop.
  - unfold read_ends in Ho. destruct (copier_of t r) as [|[|]|]; try done. destruct (_ && _); [|done]. injection Ho as <-. apply Hl.
  - unfold read_fails in Ho. destruct (copier_of t r) as [|[|]|]; try done. destruct (usable _); [done|]. injection Ho as <-. apply Hl.
  - unfold writes in Ho. destruct (copier_of t r) as [|p|]; try done. destruct (_ && _); [|done]. injection Ho as <-. rewrite Hk. apply Hset. by rewrite Hw.
  - unfold write_fails in Ho. destruct (copier_of t r) as [|[|]|]; try done. destruct (usable _); [done|]. injection Ho as <-. apply Hl.
  - unfold arrives in Ha. destruct (conn_of t r) as [rd un pc br wr op] eqn:Ht. destruct (pc || br); [done|]. injection Ha as <-.
    apply Hset. rewrite Ht. unfold arrived. simpl. rewrite app_assoc. by apply prefix_app_r.
  - unfold peer_closes in Hc. destruct (conn_of t r) as [rd un pc br wr op] eqn:Ht. destruct pc; [done|]. injection Hc as <-.
    apply Hset. by rewrite Ht.
  - unfold peer_resets in Hc. destruct (conn_of t r) as [rd un pc br wr op] eqn:Ht. destruct br; [done|]. injection Hc as <-.
    apply Hset. by rewrite Ht.
Qed.

Lemma arrived_grows_run s r r' : rtc relay_step r r' → arrived (conn_of s r) `prefix_of` arrived (conn_of s r').
Proof. induction 1 as [|r1 r2 r3 Hs _ IH]; [done|]. etrans; [by apply arrived_grows|done]. Qed.

(** ** The end of the copying *)

Definition work (src : conn) (k : copier) : nat :=
  3 * length (unread src) + match k with Acking => 2 | Copying p => 1 + 2 * length p | Gone _ => 0 end.
Definition relay_work (r : relay) : nat := work (clientConn r) (up r) + work (serverConn r) (down r).

Lemma relay_work_side s r : relay_work r = work (conn_of s r) (copier_of s r) + work (conn_of (other s) r) (copier_of (other s) r).
Proof. destruct s; simpl; unfold relay_work; lia. Qed.

Lemma work_leave s eof r p : copier_of s r = Copying p → relay_work (leave s eof r) < relay_work r.
Proof.
  intros Hk. rewrite (relay_work_side s r), Hk. rewrite (relay_work_side s). unfold leave, work. destruct r as [[] [] u d], s; simpl in *; lia.
Qed.

Lemma own_work o r r' : own o r = Some r' → relay_work r' < relay_work r.
Proof.
  destruct o as [|s k|s|s|s k|s]; simpl; intros Ho.
  - unfold ack in Ho. destruct (down r) eqn:Hd; [|done|done]. injection Ho as <-. destruct r as [[] sv u d]; simpl in *; subst d.
    unfold relay_work, work; simpl. destruct (usable _); simpl; lia.
  - unfold reads in Ho. destruct (conn_of s r) as [rd un pc br wr op] eqn:Hc. destruct (copier_of s r) as [|[|]|] eqn:Hk; try done.
    destruct (op && _) eqn:Hb; [|done]. injection Ho as <-. apply andb_prop in Hb as [_ Hb%bool_decide_eq_true].
    rewrite (relay_work_side s r), Hc, Hk. rewrite (relay_work_side s).
    assert (length (take k un) = k) by (rewrite length_take; lia). assert (length (drop k un) = length un - k) by apply length_drop.
    unfold work. destruct r, s; simpl in *; lia.
  - unfold read_ends in Ho. destruct (copier_of s r) as [|[|]|] eqn:Hk; try done. destruct (_ && _); [|done]. injection Ho as <-. by eapply work_leave.
  - unfold read_fails in Ho. destruct (copier_of s r) as [|[|]|] eqn:Hk; try done. destruct (usable _); [done|]. injection Ho as <-. by eapply work_leave.
  - unfold writes in Ho. destruct (copier_of s r) as [|p|] eqn:Hk; try done. destruct (_ && _) eqn:Hb; [|done]. injection Ho as <-.
    apply andb_prop in Hb as [_ Hb%bool_decide_eq_true]. rewrite (relay_work_side s r), Hk. rewrite (relay_work_side s).
    assert (length (drop k p) = length p - k) by apply length_drop. unfold work. destruct r as [[] [] u d], s; simpl in *; lia.
  - unfold write_fails in Ho. destruct (copier_of s r) as [|[|b p]|] eqn:Hk; try done. destruct (usable _); [done|]. injection Ho as <-. by eapply work_leave.
Qed.

Lemma own_terminates r : sn own_step r.
Proof.
  remember (relay_work r) as n eqn:Hn. revert r Hn. induction (lt_wf n) as [n _ IH]; intros r ->.
  constructor. intros r' [o Ho%own_work]. by eapply IH.
Qed.

(** A goroutine that can do nothing has left, or waits for its side to go on. *)
Definition waits (s : side) (r : relay) : Prop :=
  copier_of s r = Copying [] ∧ usable (conn_of s r) = true ∧ unread (conn_of s r) = [] ∧ peer_closed (conn_of s r) = false.

Lemma stuck_side s r : relay_ok r → nf own_step r → (∃ eof, copier_of s r = Gone eof) ∨ waits s r.
Proof.
  intros Hr Hnf. assert (Hno : ∀ o, own o r = None).
  { intros o. destruct (own o r) eqn:Ho; [|done]. destruct Hnf. eexists. by exists o. }
  pose proof (relay_ok_side s r Hr) as Hs. destruct (copier_of s r) as [|p|eof] eqn:Hk; [| |by left; eexists].
  - destruct Hs as [-> _]. specialize (Hno OAck). simpl in Hno, Hk. unfold ack in Hno. by rewrite Hk in Hno.
  - right. destruct p as [|b p].
    + pose proof (Hno (OReadFails s)) as H1. simpl in H1. unfold read_fails in H1. rewrite Hk in H1.
      destruct (usable (conn_of s r)) eqn:Hu; [|done]. pose proof (usable_open _ Hu) as Hop.
      pose proof (Hno (ORead s 1)) as H2. simpl in H2. unfold reads in H2. rewrite Hk in H2.
      pose proof (Hno (OReadEnds s)) as H3. simpl in H3. unfold read_ends in H3. rewrite Hk, Hop in H3.
      unfold waits. rewrite Hk. destruct (conn_of s r) as [rd un pc br wr op]; simpl in *. subst op.
      destruct un as [|b un]; [|by rewrite bool_decide_eq_true_2 in H2 by (simpl; lia)].
      rewrite bool_decide_eq_true_2 in H3 by done. destruct pc; [done|]. by repeat split.
    + pose proof (Hno (OWrite s 1)) as H1. simpl in H1. unfold writes in H1. rewrite Hk in H1.
      pose proof (Hno (OWriteFails s)) as H2. simpl in H2. unfold write_fails in H2. rewrite Hk in H2.
      destruct (usable (conn_of (other s) r)); [|done]. by rewrite bool_decide_eq_true_2 in H1 by (simpl; lia).
Qed.

(** ** Properties *)

(** C33. A joined connection is a connection from the end of its handshakes on: of what
    came on either side before it was joined, the first bytes, of the length of the
    handshake they tell, were read off and are never passed on; all that follows arrives to be
    copied.  At any time the server has been written a
    prefix of what arrived from the client after its handshake, and the client nothing, or the
    acknowledging byte and a prefix of what arrived from the server.  The two
    goroutines come to rest whatever they do; then either both have left and both
    connections are closed, or both are in use, no peer has closed its own, and all
    that arrived on each has been written to the other.  A side whose copying ended with
    the end of its input, and not with an error, has been passed on to the last byte. *)
Theorem relay_is_a_connection came came' pc br pc' br' c0 s0 r :
  handed_over came pc br = Some c0 → handed_over came' pc' br' = Some s0 → rtc relay_step (joined_pair c0 s0) r →
  let '(mkRelay c s u d) := r in
  (∃ shake, came = shake ++ arrived c0 ∧ length shake = 2 + Z.to_nat (big_endian (take 2 shake)) ∧ arrived c0 `prefix_of` arrived c) ∧
  (∃ shake, came' = shake ++ arrived s0 ∧ length shake = 2 + Z.to_nat (big_endian (take 2 shake)) ∧ arrived s0 `prefix_of` arrived s) ∧
  written s `prefix_of` arrived c ∧ (written c = [] ∨ ∃ got, written c = ack_byte :: got ∧ got `prefix_of` arrived s) ∧
  sn own_step r ∧
  (nf own_step r →
     ((∃ e1 e2, u = Gone e1 ∧ d = Gone e2) ∧ is_open c = false ∧ is_open s = false) ∨
     (usable c = true ∧ usable s = true ∧ peer_closed c = false ∧ peer_closed s = false ∧
      written s = arrived c ∧ written c = ack_byte :: arrived s)) ∧
  (u = Gone true → written s = arrived c) ∧
  (d = Gone true → written c = ack_byte :: arrived s ∨ written c = []).
Proof.
  intros Hc0 Hs0 Hrun. pose proof (relay_reachable _ _ _ _ _ _ _ _ _ Hc0 Hs0 Hrun) as Hr.
  pose proof (arrived_grows_run ClientSide _ _ Hrun) as Hgc. pose proof (arrived_grows_run ServerSide _ _ Hrun) as Hgs.
  apply handed_over_spec in Hc0 as [(shake & F1 & F2) _], Hs0 as [(shake2 & F3 & F4) _].
  destruct r as [c s u d]. split; [by exists shake|]. split; [by exists shake2|]. clear Hrun. pose proof Hr as [Hu Hd]. cbn [clientConn serverConn up down] in Hu, Hd.
  assert (Hup : written s `prefix_of` was_read c).
  { destruct u as [|p|e]; simpl in Hu; [by destruct Hu as [[=] _]| |].
    - destruct Hu as (_ & w & -> & ->). by apply prefix_app_r.
    - by destruct Hu as (_ & w & -> & ? & _). }
  assert (Hdown : written c = [] ∨ ∃ got, written c = ack_byte :: got ∧ got `prefix_of` was_read s).
  { destruct d as [|p|e]; simpl in Hd; [left; tauto| |].
    - destruct Hd as (_ & w & [Hw|[Hw _]] & Hrd); [right; exists w|by left]. split; [done|]. rewrite Hrd. by apply prefix_app_r.
    - destruct Hd as (_ & w & [Hw|[Hw _]] & Hrd & _); [right; by exists w|by left]. }
  assert (Hmore : ∀ w k, w `prefix_of` was_read k → w `prefix_of` arrived k).
  { intros w k Hw. unfold arrived. etrans; [exact Hw|]. by apply prefix_app_r. }
  split; [by apply Hmore|]. split; [destruct Hdown as [?|(got & ? & ?)]; [by left|right; exists got; auto]|].
  split; [apply own_terminates|]. split; [|split].
  - intros Hnf. destruct (stuck_side ClientSide _ Hr Hnf) as [[e1 E1]|(E1 & U1 & N1 & P1)],
      (stuck_side ServerSide _ Hr Hnf) as [[e2 E2]|(E2 & U2 & N2 & P2)]; simpl in *; subst; simpl in *.
    + left. split; [by exists e1, e2|]. by destruct Hu, Hd.
    + destruct Hu as [Hop _]. unfold usable in U2. by rewrite Hop in U2.
    + destruct Hd as [Hop _]. unfold usable in U1. by rewrite Hop in U1.
    + right. destruct Hu as (_ & w & -> & Hw), Hd as (_ & w' & Hw' & Hrd). unfold arrived. rewrite N1, N2, Hw, Hrd, !app_nil_r.
      do 4 (split; [done|]). split; [done|]. destruct Hw' as [?|(_ & _ & ?)]; [done|congruence].
  - intros ->. destruct Hu as (_ & w & -> & _ & He). by apply He.
  - intros ->. destruct Hd as (_ & w & [Hw|[Hw _]] & _ & He); [left|by right]. rewrite Hw. f_equal. by apply He.
Qed.

(** The client sends its handshake and a byte and closes; the byte is passed on and both
    are closed. *)
Definition client_start : conn := mkConn [] [ack_byte] true false [] true.
Definition server_start : conn := mkConn [] [] false false [] true.
Definition talk : relay :=
  mkRelay (mkConn [ack_byte] [] true false [ack_byte] false) (mkConn [] [] false false [ack_byte] false) (Gone true) (Gone false).

Lemma relay_is_a_connection_witness :
  rtc relay_step (joined_pair client_start server_start) talk ∧ written (serverConn talk) = arrived (clientConn talk) ∧ sn own_step talk.
Proof.
  assert (H : rtc relay_step (joined_pair client_start server_start) talk).
  { eapply rtc_l; [apply relay_own; by exists OAck|].
    eapply rtc_l; [apply relay_own; by exists (ORead ClientSide 1)|].
    eapply rtc_l; [apply relay_own; by exists (OWrite ClientSide 1)|].
    eapply rtc_l; [apply relay_own; by exists (OReadEnds ClientSide)|].
    eapply rtc_l; [apply relay_own; by exists (OReadFails ServerSide)|]. apply rtc_refl. }
  destruct (relay_is_a_connection (handshakeWithServer (str "1.0") ++ [ack_byte]) (handshakeWithServer (str "1.0"))
    true false false false client_start server_start talk) as (_ & _ & _ & _ & Hsn & _ & Hall & _).
  - vm_compute. reflexivity.
  - vm_compute. reflexivity.
  - exact H.
  - split; [exact H|]. split; [apply Hall; reflexivity|exact Hsn].
Defined.

(** ** Before a connection is joined *)

(** The ends of a proxied connection: what the client has written to the proxy and the
    proxy to it; whether the client has gone on from waiting for the acknowledging
    byte; whether the server has dialed the proxy back; what it and the proxy have
    written on that connection; whether the proxy has joined the two *)
Record meeting := mkMeeting {
  to_proxy : bytes;
  to_client : bytes;
  client_shaken : bool;
  dialed_back : bool;
  to_reverse : bytes;
  to_server : bytes;
  met : bool;
}.

(** [marked] tells whether the address the client dialed has the mark of a proxied
    service; without it the client writes its handshake, and what it likes, at once. *)
Definition meeting_start (marked : bool) (first : bytes) : meeting :=
  mkMeeting (if marked then [] else handshakeWithServer (str "1.0") ++ first) [] (negb marked) false [] [] false.

Definition shaken_with (came : bytes) : bool := bool_decide (is_Some (handed_over came false false)).

Inductive meeting_step : meeting → meeting → Prop :=
(** [newStreamConnection], once its [Read] has got the byte, and what follows *)
| client_goes_on cp pc sh dl bk fw mt b : pc ≠ [] →
    meeting_step (mkMeeting cp pc sh dl bk fw mt) (mkMeeting (cp ++ b) pc true dl bk fw mt)
(** [onClientConnection] sends the port, and [reverseReceiver] dials it *)
| server_dials cp pc sh bk fw mt : shaken_with cp →
    meeting_step (mkMeeting cp pc sh false bk fw mt) (mkMeeting cp pc sh true bk fw mt)
(** the service handles the connection it made as that of a client: it writes on it
    once the handshake of a client has come *)
| server_handles cp pc sh bk fw mt b : shaken_with fw →
    meeting_step (mkMeeting cp pc sh true bk fw mt) (mkMeeting cp pc sh true (bk ++ b) fw mt)
(** [onServerConnection]; the byte is written and the copying begins *)
| proxy_joins cp pc sh bk fw : shaken_with cp → shaken_with bk →
    meeting_step (mkMeeting cp pc sh true bk fw false) (mkMeeting cp (pc ++ [ack_byte]) sh true bk fw true)
| proxy_copies cp pc sh bk fw b b' :
    meeting_step (mkMeeting cp pc sh true bk fw true) (mkMeeting cp (pc ++ b) sh true bk (fw ++ b') true).

(** No connection is ever joined: the proxy waits for a handshake on the connection the
    server made back, and the server for one on the same connection; and a client that
    saw the mark has not even written its own. *)
Lemma never_met marked first m : rtc meeting_step (meeting_start marked first) m →
  met m = false ∧ to_client m = [] ∧ to_reverse m = [] ∧ to_server m = [] ∧
  (marked = true → to_proxy m = [] ∧ dialed_back m = false).
Proof.
  apply (rtc_invariant meeting_step (λ m, met m = false ∧ to_client m = [] ∧ to_reverse m = [] ∧ to_server m = [] ∧
    (marked = true → to_proxy m = [] ∧ dialed_back m = false))); [|by destruct marked].
  assert (Hno : shaken_with [] = false) by (vm_compute; reflexivity).
  intros m1 m2 (H1 & H2 & H3 & H4 & H5). destruct 1; simpl in *; subst; rewrite ?Hno in *; try done.
  do 4 (split; [done|]). intros Hm. destruct (H5 Hm) as [-> _]. by rewrite Hno in *.
Qed.
