(* ===== verification/Pipe.v ===== *)
(** What a transport promises to the streams multiplexed on a connection: each
    stream is a pipe of its own, which loses nothing it hands over, repeats
    nothing and keeps the order.  The specification, the interface a transport
    implements by a simulation, and what follows for every transport. *)
From S2P Require Import Prelude GoStrings Names Tracing MessageTracer Stream.

Section pipe.
Context {M : Type}.

(** For each stream: what was sent, what is on its way, what was handed over *)
Record pipe := mkPipe {
  pushed : Z → list M;
  flight : Z → list M;
  arrived : Z → list M;
}.

Definition empty_pipe : pipe := mkPipe (λ _, []) (λ _, []) (λ _, []).

(** Pipes are compared stream by stream. *)
#[export] Instance pipe_equiv : Equiv pipe := λ p q,
  ∀ c, pushed p c = pushed q c ∧ flight p c = flight q c ∧ arrived p c = arrived q c.

#[export] Instance pipe_equivalence : Equivalence (≡@{pipe}).
Proof.
  split.
  - by intros p c.
  - intros p q H c. by destruct (H c) as (-> & -> & ->).
  - intros p q r H1 H2 c. destruct (H1 c) as (-> & -> & ->). apply H2.
Qed.

(** Sending on a stream, and handing over its oldest message *)
Inductive pipe_step (p p' : pipe) : Prop :=
| Push c m :
    (∀ c', pushed p' c' = if decide (c' = c) then pushed p c ++ [m] else pushed p c') →
    (∀ c', flight p' c' = if decide (c' = c) then flight p c ++ [m] else flight p c') →
    (∀ c', arrived p' c' = arrived p c') → pipe_step p p'
| Pop c m l :
    flight p c = m :: l →
    (∀ c', pushed p' c' = pushed p c') →
    (∀ c', flight p' c' = if decide (c' = c) then l else flight p c') →
    (∀ c', arrived p' c' = if decide (c' = c) then arrived p c ++ [m] else arrived p c') → pipe_step p p'.

#[export] Instance pipe_step_proper : Proper ((≡) ==> (≡) ==> iff) pipe_step.
Proof.
  assert (∀ p q p' q' : pipe, p ≡ q → p' ≡ q' → pipe_step p p' → pipe_step q q') as H.
  { intros p q p' q' Hp Hp' [c m H1 H2 H3|c m l H0 H1 H2 H3].
    - apply (Push _ _ c m); intros c'; destruct (Hp c') as (E1 & E2 & E3), (Hp' c') as (F1 & F2 & F3),
        (Hp c) as (G1 & G2 & G3).
      + by rewrite <- F1, H1, E1, G1.
      + by rewrite <- F2, H2, E2, G2.
      + by rewrite <- F3, H3, E3.
    - destruct (Hp c) as (G1 & G2 & G3). apply (Pop _ _ c m l); [congruence|..];
        intros c'; destruct (Hp c') as (E1 & E2 & E3), (Hp' c') as (F1 & F2 & F3).
      + by rewrite <- F1, H1, E1.
      + by rewrite <- F2, H2, E2.
      + by rewrite <- F3, H3, E3, G3. }
  intros p q Hp p' q' Hp'. split; apply H; done.
Qed.

(** No loss, no repetition, no reordering *)
Definition fifo (p : pipe) : Prop := ∀ c, pushed p c = arrived p c ++ flight p c.

#[export] Instance fifo_proper : Proper ((≡) ==> iff) fifo.
Proof.
  intros p q Hp. split; intros H c; specialize (H c); by destruct (Hp c) as (E1 & E2 & E3); rewrite E1, E2, E3 in *.
Qed.

Lemma pipe_step_fifo p p' : fifo p → pipe_step p p' → fifo p'.
Proof.
  intros H [c m H1 H2 H3|c m l H0 H1 H2 H3] c'.
  - rewrite H1, H2, H3, !H. case_decide as Hc; [subst; by rewrite app_assoc|done].
  - rewrite H1, H2, H3, H. case_decide as Hc; [subst|done]. by rewrite H0, <- app_assoc.
Qed.
End pipe.
Arguments pipe M : clear implicits.

(** A transport: its steps, and the pipe each of its states stands for.  Every
    step on a reachable state is a step of the pipe or none. *)
Class Transport (M St : Type) := {
  t_init : St;
  t_step : relation St;
  t_pipe : St → pipe M;
  t_start : t_pipe t_init ≡ empty_pipe;
  t_simulates s s' : rtc t_step t_init s → t_step s s' →
    t_pipe s' ≡ t_pipe s ∨ pipe_step (t_pipe s) (t_pipe s');
}.

(** Every run of a transport is a run of the pipe, *)
Lemma transport_run `{Transport M St} s : rtc t_step t_init s →
  ∃ p, rtc pipe_step empty_pipe p ∧ t_pipe s ≡ p.
Proof.
  revert s. apply rtc_ind_r; [eexists; split; [done|apply t_start]|].
  intros s s' Hs' Hstep (p & Hp & Heq). destruct (t_simulates s s' Hs' Hstep) as [E|E].
  - exists p. split; [done|]. by rewrite E.
  - exists (t_pipe s'). split; [|done]. eapply rtc_r; [exact Hp|]. by rewrite <- Heq.
Qed.

(** so that each stream is first in, first out. *)
Lemma transport_fifo `{Transport M St} s : rtc t_step t_init s → fifo (t_pipe s).
Proof.
  intros (p & Hp & ->)%transport_run.
  apply (rtc_invariant pipe_step fifo empty_pipe p); [apply pipe_step_fifo|by intros c|done].
Qed.

(** The items of one stream in a log of all *)
Definition replies {M} (c : Z) (l : list (Z * M)) : list M :=
  omap (λ r, if decide (r.1 = c) then Some r.2 else None) l.

Lemma replies_app {M} c (l k : list (Z * M)) : replies c (l ++ k) = replies c l ++ replies c k.
Proof. apply omap_app. Qed.

Lemma replies_one {M} c c' (m : M) : replies c [(c', m)] = if decide (c = c') then [m] else [].
Proof. simpl. case_decide; case_decide; congruence. Qed.

(** ** Pushing and popping one stream of a connection shared by all *)

(** The pipe of a connection that queues the messages of all streams together *)
Section shared.
Context {Msg : Type} (is_close : Msg → bool).
Abbreviation tmsg := (streamTransportMsg (Msg := Msg)).

Definition on_stream (c : Z) (l : list tmsg) : list (Msg * transportFeats) :=
  sent_on is_close c (Decoded <$> l).
#[local] Arguments on_stream : simpl never.

Lemma on_stream_app c l k : on_stream c (l ++ k) = on_stream c l ++ on_stream c k.
Proof. unfold on_stream, sent_on. by rewrite fmap_app, omap_app. Qed.

Lemma on_stream_cons c tm l : on_stream c (tm :: l) = on_stream c [tm] ++ on_stream c l.
Proof. apply (on_stream_app c [tm] l). Qed.

Lemma on_stream_one c tm : on_stream c [tm] =
  if decide (c = chanID tm) then (if is_close (tm_msg tm) then [] else [(tm_msg tm, tm_feats tm)]) else [].
Proof.
  unfold on_stream, sent_on; simpl. case_decide as Hc.
  - rewrite bool_decide_eq_true_2 by done. by destruct (is_close _).
  - by rewrite bool_decide_eq_false_2 by (by intros <-).
Qed.

Definition shared_pipe (sent queued : list tmsg) (handed : Z → list (Msg * transportFeats)) : pipe (Msg * transportFeats) :=
  mkPipe (λ c, on_stream c sent) (λ c, on_stream c queued) handed.

(** Sending at the end of the queue *)
Lemma shared_push sent queued handed tm :
  shared_pipe (sent ++ [tm]) (queued ++ [tm]) handed ≡ shared_pipe sent queued handed ∨
  pipe_step (shared_pipe sent queued handed) (shared_pipe (sent ++ [tm]) (queued ++ [tm]) handed).
Proof.
  destruct (is_close (tm_msg tm)) eqn:Hc.
  - left. intros c; simpl. rewrite !on_stream_app, !on_stream_one, Hc. by case_decide; rewrite !app_nil_r.
  - right. apply (Push _ _ (chanID tm) (tm_msg tm, tm_feats tm)); intros c; simpl; [..|done];
      rewrite !on_stream_app, !on_stream_one, Hc; case_decide; subst; by rewrite ?app_nil_r.
Qed.

(** Handing over the head of the queue *)
Lemma shared_pop sent tm queued handed handed' :
  (∀ c, handed' c = handed c ++ on_stream c [tm]) →
  shared_pipe sent queued handed' ≡ shared_pipe sent (tm :: queued) handed ∨
  pipe_step (shared_pipe sent (tm :: queued) handed) (shared_pipe sent queued handed').
Proof.
  intros Hh.
  destruct (is_close (tm_msg tm)) eqn:Hc.
  - left. intros c; simpl. rewrite Hh, on_stream_cons, !on_stream_one, Hc. by case_decide; rewrite ?app_nil_r.
  - right. apply (Pop _ _ (chanID tm) (tm_msg tm, tm_feats tm) (on_stream (chanID tm) queued)); simpl.
    + rewrite on_stream_cons, on_stream_one, Hc. by rewrite decide_True by done.
    + done.
    + intros c. rewrite on_stream_cons, on_stream_one, Hc. by case_decide; subst.
    + intros c. rewrite Hh, on_stream_one, Hc. case_decide; subst; by rewrite ?app_nil_r.
Qed.

Lemma shared_same sent queued handed handed' :
  (∀ c, handed' c = handed c) → shared_pipe sent queued handed' ≡ shared_pipe sent queued handed.
Proof. by intros Hh c. Qed.
End shared.

(** ** Both directions *)

(** A transport in both directions: a pipe of requests and one of replies for each
    stream, and steps that move at most one of them. *)
Class Duplex (M St : Type) := {
  dx_init : St;
  dx_step : relation St;
  dx_out : St → pipe M;
  dx_back : St → pipe M;
  dx_start : dx_out dx_init ≡ empty_pipe ∧ dx_back dx_init ≡ empty_pipe;
  dx_simulates n n' : rtc dx_step dx_init n → dx_step n n' →
    (pipe_step (dx_out n) (dx_out n') ∧ dx_back n' ≡ dx_back n) ∨
    (dx_out n' ≡ dx_out n ∧ (dx_back n' ≡ dx_back n ∨ pipe_step (dx_back n) (dx_back n')));
}.
