(* ===== verification/ChanTransport.v ===== *)
(** The transport of the process scope (chantransportclient.go,
    chantransportserver.go): a connection is a channel shared by the streams of
    the client, read by a goroutine of the server.  Its operations and the
    goroutine's steps, interleaved in any way; that it is a transport in the
    sense of [Pipe]; that the goroutine ends; and what happens to a client that
    sends after the closing. *)
From S2P Require Import Prelude GoStrings Names Tracing MessageTracer Stream Pipe.

Section conn.
Context {Msg : Type}.

(** [is_close]: a [streamCloseMsg]?  [canHandle]: known to the service?  [is_EOF]:
    the error [io.EOF]?  [qsize]: the capacity of the channels of the connection *)
Context (is_close canHandle is_EOF : Msg → bool) (qsize : nat).

(** [chanTransportMsg]: the stream is named by its channel [srcChan] *)
Abbreviation chanTransportMsg := (streamTransportMsg (Msg := Msg)).

(** A connection: [chanConnection] and its streams on the client's side, the
    variables of the goroutine of [receiver] on the server's *)
Record conn := mkConn {
  connClosed : bool;                       (* the client closed connClose *)
  connClose_nil : bool;                    (* the goroutine set its connClose to nil and closed recvChan *)
  recvChan : list chanTransportMsg;
  ssMap : gset Z;
  putting : option (dispatched (Msg := Msg)); (* what the goroutine is handing over *)
  effects : list (dispatched (Msg := Msg));   (* what it has done *)
  privateChans : gmap Z (list (Msg * transportFeats));
  exited : bool;
  msgChans : gmap Z (list (Msg * transportFeats));
  ended : gset Z;                          (* the client's streams that got io.EOF *)
  (* what was sent, and what was replied and received, so far *)
  sentLog : list chanTransportMsg;
  replyLog : list (Z * (Msg * transportFeats));
  gotLog : list (Z * (Msg * transportFeats));
}.

(** [clientChanTransport.newConnection], once accepted *)
Definition newConnection : conn :=
  mkConn false false [] ∅ None [] ∅ false ∅ ∅ [] [] [].

(** What can happen on a connection *)
Inductive op :=
| ClientSend (tm : chanTransportMsg)
| ClientClose
| ClientRecv (c : Z)
| ServerTake                               (* case tm := <-recvChan *)
| ServerPut (room : bool)                  (* the message goes into the queue, if there is room in it, or the private channel *)
| ServerClose                              (* case <-connClose *)
| ServerExit                               (* tm == nil *)
| HandlerRecv (c : Z)                      (* Recv of the server's stream *)
| HandlerSend (c : Z) (m : Msg) (tfs : transportFeats).

Definition lookup_chan (c : Z) (l : gmap Z (list (Msg * transportFeats))) := default [] (l !! c).

Definition on_putting p s : conn :=
  let '(mkConn a b r m _ e pr x mc en sl rl gl) := s in mkConn a b r m p e pr x mc en sl rl gl.

(** [chanClientStream.Send]; [None]: the goroutine is left waiting *)
Definition client_Send (tm : chanTransportMsg) (s : conn) : option (outcome conn) :=
  let '(mkConn a b r m p e pr x mc en sl rl gl) := s in
  if bool_decide (chanID tm ∈ en) then Some (Return s)
  else if b then Some (Panics (str "send on closed channel"))
  else if bool_decide (length r < qsize)
       then Some (Return (mkConn a b (r ++ [tm]) m p e pr x mc en (sl ++ [tm]) rl gl))
       else None.

(** [chanConnection.Close] *)
Definition client_Close (s : conn) : option (outcome conn) :=
  let '(mkConn a b r m p e pr x mc en sl rl gl) := s in
  if a then Some (Panics (str "close of closed channel"))
  else Some (Return (mkConn true b r m p e pr x mc en sl rl gl)).

(** [chanClientStream.Recv] of a message *)
Definition client_Recv (c : Z) (s : conn) : option (outcome conn) :=
  let '(mkConn a b r m p e pr x mc en sl rl gl) := s in
  if bool_decide (c ∈ en) then Some (Return s)
  else match lookup_chan c mc with
       | [] => None
       | mm :: l => Some (Return (mkConn a b r m p e pr x (<[c := l]> mc)
                                    (if is_EOF mm.1 then {[c]} ∪ en else en) sl rl (gl ++ [(c, mm)])))
       end.

(** The effects of a message but the last, which is where it goes *)
Definition open_stream (new : list (dispatched (Msg := Msg))) (pr : gmap Z (list (Msg * transportFeats))) :=
  foldl (λ pr e, match e with OnNewStream c => <[c := []]> pr | _ => pr end) pr new.

Definition is_put (e : dispatched (Msg := Msg)) : bool :=
  match e with ToMsgQ _ _ _ | ToPrivateChan _ _ _ => true | _ => false end.

(** A round of the goroutine's loop on a message: everything but the handing over *)
Definition server_take (s : conn) : option (outcome conn) :=
  let '(mkConn a b r m p e pr x mc en sl rl gl) := s in
  match r, p with
  | tm :: r, None =>
      if x then None else
      let '(m, effs) := handle_message is_close canHandle (Decoded tm) m in
      let e' := e ++ filter (λ y, ¬ is_put y) effs in
      Some (Return (mkConn a b r m (head (filter is_put effs)) e' (open_stream effs pr) x mc en sl rl gl))
  | _, _ => None
  end.

(** [mq.putMetaMsg(mm)] or [ss.privateChan <- mm]; the goroutine is left waiting when
    the channel is full, which for the queue, that other connections fill and the
    workers empty, is told by [room] *)
Definition server_put (room : bool) (s : conn) : option (outcome conn) :=
  let '(mkConn a b r m p e pr x mc en sl rl gl) := s in
  match p with
  | Some (ToPrivateChan c msg tfs as y) =>
      if bool_decide (length (lookup_chan c pr) < qsize)
      then Some (Return (mkConn a b r m None (e ++ [y]) (<[c := lookup_chan c pr ++ [(msg, tfs)]]> pr) x mc en sl rl gl))
      else None
  | Some y => if room then Some (Return (mkConn a b r m None (e ++ [y]) pr x mc en sl rl gl)) else None
  | None => None
  end.

Definition server_close (s : conn) : option (outcome conn) :=
  let '(mkConn a b r m p e pr x mc en sl rl gl) := s in
  if a && negb b && negb x && bool_decide (p = None)
  then Some (Return (mkConn a true r m p e pr x mc en sl rl gl)) else None.

Definition server_exit (s : conn) : option (outcome conn) :=
  let '(mkConn a b r m p e pr x mc en sl rl gl) := s in
  match r, p with
  | [], None => if b && negb x then Some (Return (mkConn a b r m p e pr true mc en sl rl gl)) else None
  | _, _ => None
  end.

(** [chanServerStream.Recv] of a message *)
Definition handler_Recv (c : Z) (s : conn) : option (outcome conn) :=
  let '(mkConn a b r m p e pr x mc en sl rl gl) := s in
  if b then Some (Return s)
  else match lookup_chan c pr with
       | [] => None
       | _ :: l => Some (Return (mkConn a b r m p e (<[c := l]> pr) x mc en sl rl gl))
       end.

(** [chanServerStream.Send] on a stream that was opened *)
Definition handler_Send (c : Z) (msg : Msg) (tfs : transportFeats) (s : conn) : option (outcome conn) :=
  let '(mkConn a b r m p e pr x mc en sl rl gl) := s in
  if b then Some (Return s)
  else if bool_decide (length (lookup_chan c mc) < qsize)
       then Some (Return (mkConn a b r m p e pr x (<[c := lookup_chan c mc ++ [(msg, tfs)]]> mc) en sl
                            (rl ++ [(c, (msg, tfs))]) gl))
       else None.

Definition exec (o : op) (s : conn) : option (outcome conn) :=
  match o with
  | ClientSend tm => client_Send tm s
  | ClientClose => client_Close s
  | ClientRecv c => client_Recv c s
  | ServerTake => server_take s
  | ServerPut room => server_put room s
  | ServerClose => server_close s
  | ServerExit => server_exit s
  | HandlerRecv c => handler_Recv c s
  | HandlerSend c m tfs => handler_Send c m tfs s
  end.

Definition step (s s' : conn) : Prop := ∃ o, exec o s = Some (Return s').
Definition reachable : conn → Prop := rtc step newConnection.

(** The steps of the goroutine alone *)
Definition server_op (o : op) : bool :=
  match o with ServerTake | ServerPut _ | ServerClose | ServerExit => true | _ => false end.

(** ** The messages of a connection *)

Definition put_msg (y : dispatched (Msg := Msg)) : list chanTransportMsg :=
  match y with
  | ToMsgQ c msg tfs | ToPrivateChan c msg tfs => [mkTransportMsg c msg tfs]
  | _ => []
  end.
Definition pending (p : option (dispatched (Msg := Msg))) : list chanTransportMsg :=
  match p with Some y => put_msg y | None => [] end.

(** The pipe of a connection *)
Definition conn_pipe (s : conn) : pipe (Msg * transportFeats) :=
  shared_pipe is_close (sentLog s) (pending (putting s) ++ recvChan s) (λ c, handed_over c (effects s)).

(** The effects of a message, put apart *)
Lemma effects_split tm m m' effs :
  handle_message is_close canHandle (Decoded tm) m = (m', effs) →
  effs = filter (λ y, ¬ is_put y) effs ++ option_list (head (filter is_put effs)) ∧
  (∀ c, handed_over c (filter (λ y, ¬ is_put y) effs) = []) ∧
  (∀ y, head (filter is_put effs) = Some y → put_msg y = [tm] ∧ is_put y) ∧
  (head (filter is_put effs) = None → is_close (tm_msg tm) = true).
Proof.
  unfold handle_message. destruct tm as [c msg tfs]; simpl.
  destruct (is_close msg) eqn:Hc; [|destruct (canHandle msg)]; intros [= <- <-];
    destruct (bool_decide (c ∈ m)); simpl; split_and!; naive_solver.
Qed.

Lemma handed_over_put c y : is_put y → (∀ msg, put_msg y = [msg] → is_close (tm_msg msg) = false) →
  handed_over c [y] = on_stream is_close c (put_msg y).
Proof.
  intros Hy Hc. destruct y as [| | |c' msg tfs|c' msg tfs]; try done;
    specialize (Hc _ eq_refl); simpl in *; rewrite on_stream_one; simpl; rewrite Hc;
    case_bool_decide; subst; case_decide; done.
Qed.


Definition short (l : gmap Z (list (Msg * transportFeats))) : Prop := ∀ c, length (lookup_chan c l) ≤ qsize.

(** What holds on every reachable connection *)
Record inv (s : conn) : Prop := mkInv {
  inv_putting : ∀ y, putting s = Some y → is_put y ∧ sorted_out is_close canHandle y;
  inv_sorted : Forall (sorted_out is_close canHandle) (effects s);
  inv_disciplined : ∀ more, disciplined (ssMap s) more → disciplined ∅ (effects s ++ option_list (putting s) ++ more);
  inv_closed : connClose_nil s = true → connClosed s = true;
  inv_exited : exited s = true → recvChan s = [] ∧ putting s = None ∧ connClose_nil s = true;
  inv_replies : ∀ c, replies c (replyLog s) = replies c (gotLog s) ++ lookup_chan c (msgChans s);
  inv_recvChan : length (recvChan s) ≤ qsize;
  inv_privateChans : short (privateChans s);
  inv_msgChans : short (msgChans s);
}.

Lemma disciplined_app m l k : disciplined (Msg := Msg) m (l ++ k) → disciplined m l.
Proof. revert m. induction l as [|[] l IH]; intros m0; simpl; [done|..]; intros [? ?]; eauto. Qed.

Lemma lookup_chan_insert c c' l (m : gmap Z (list (Msg * transportFeats))) :
  lookup_chan c (<[c' := l]> m) = if decide (c = c') then l else lookup_chan c m.
Proof.
  unfold lookup_chan. case_decide; subst; [by rewrite lookup_insert_eq|by rewrite lookup_insert_ne].
Qed.

Lemma short_insert c l m : short m → length l ≤ qsize → short (<[c := l]> m).
Proof. intros Hm Hl c'. rewrite lookup_chan_insert. by case_decide. Qed.

Lemma short_open effs m : short m → short (open_stream effs m).
Proof.
  revert m; induction effs as [|[] effs IH]; intros m Hm; simpl; try apply IH; try done.
  apply short_insert; [done|simpl; lia].
Qed.

Lemma inv_newConnection : inv newConnection.
Proof. split; try done; simpl; try lia; intros c; unfold lookup_chan; rewrite lookup_empty; simpl; lia. Qed.

Lemma sorted_effects tm m m' effs :
  handle_message is_close canHandle (Decoded tm) m = (m', effs) →
  Forall (sorted_out is_close canHandle) effs ∧ ∀ more, disciplined m' more → disciplined m (effs ++ more).
Proof. intros H. by apply (handle_message_spec is_close canHandle _ _ _ _ 0%Z H). Qed.

Lemma inv_take s s' : inv s → server_take s = Some (Return s') → inv s'.
Proof.
  destruct s as [a b [|tm r] m [p|] e pr x mc en sl rl gl]; try done. unfold server_take. destruct x; [done|].
  destruct (handle_message is_close canHandle (Decoded tm) m) as [m' effs] eqn:Hh. intros [H1 H2 H3 H4 H5 H6 H7 H8 H9] [= <-].
  destruct (effects_split _ _ _ _ Hh) as (Heff & _ & Hput & _).
  destruct (sorted_effects _ _ _ _ Hh) as [Hs Hd]. rewrite Heff in Hs. apply Forall_app in Hs as [Hs1 Hs2].
  split; simpl in *; try done; [..|lia|by apply short_open].
  - intros y Hy. rewrite Hy in Hs2. apply (proj1 (Forall_singleton _ y)) in Hs2. split; [by destruct (Hput y Hy)|done].
  - by apply Forall_app.
  - intros more Hm. rewrite <- app_assoc, (app_assoc (filter _ _)), <- Heff. apply (H3 (effs ++ more)). by apply Hd.
Qed.

Lemma inv_put room s s' : inv s → server_put room s = Some (Return s') → inv s'.
Proof.
  destruct s as [a b r m [y|] e pr x mc en sl rl gl]; try done; simpl.
  intros [H1 H2 H3 H4 H5 H6 H7 H8 H9] Hp; simpl in *. destruct (H1 y eq_refl) as [Hy1 Hy2].
  assert (inv (mkConn a b r m None (e ++ [y]) pr x mc en sl rl gl)) as Hi.
  { split; simpl; try done.
    - apply Forall_app. split; [done|]. by constructor.
    - intros more Hm. rewrite <- app_assoc. by apply H3.
    - intros Hx. by destruct (H5 Hx) as (_ & ? & _). }
  destruct y; try done; simpl in Hp; [destruct room; [by injection Hp as <-|done]|].
  destruct (bool_decide_reflect (length (lookup_chan c pr) < qsize)); [|done]. injection Hp as <-.
  destruct Hi; split; simpl in *; try done. apply short_insert; [done|]. rewrite length_app; simpl; lia.
Qed.

Lemma inv_send tm s s' : inv s → client_Send tm s = Some (Return s') → inv s'.
Proof.
  destruct s as [a b r m p e pr x mc en sl rl gl]; simpl. intros Hi.
  destruct (bool_decide (chanID tm ∈ en)); [by intros [= <-]|]. destruct b; [done|].
  destruct (bool_decide_reflect (length r < qsize)); [|done]. intros [= <-].
  destruct Hi as [H1 H2 H3 H4 H5 H6 H7 H8 H9]; split; simpl in *; try done.
  - intros Hx. by destruct (H5 Hx) as (_ & _ & ?).
  - rewrite length_app; simpl; lia.
Qed.

Lemma inv_recv c s s' : inv s → client_Recv c s = Some (Return s') → inv s'.
Proof.
  destruct s as [a b r m p e pr x mc en sl rl gl]; simpl. intros Hi.
  destruct (bool_decide (c ∈ en)); [by intros [= <-]|]. destruct (lookup_chan c mc) as [|mm l] eqn:Hl; [done|].
  intros [= <-]. destruct Hi as [H1 H2 H3 H4 H5 H6 H7 H8 H9]; split; simpl in *; try done.
  - intros c'. rewrite H6, replies_app, lookup_chan_insert. simpl. case_decide; case_decide; subst; try done.
    + by rewrite Hl, <- app_assoc.
    + by rewrite app_nil_r.
  - apply short_insert; [done|]. specialize (H9 c). rewrite Hl in H9. simpl in H9. lia.
Qed.

Lemma inv_handler_Send c msg tfs s s' : inv s → handler_Send c msg tfs s = Some (Return s') → inv s'.
Proof.
  destruct s as [a b r m p e pr x mc en sl rl gl]; simpl. intros Hi. destruct b; [by intros [= <-]|].
  destruct (bool_decide_reflect (length (lookup_chan c mc) < qsize)); [|done]. intros [= <-].
  destruct Hi as [H1 H2 H3 H4 H5 H6 H7 H8 H9]; split; simpl in *; try done.
  - intros c'. rewrite replies_app, H6, lookup_chan_insert. simpl. case_decide; case_decide; subst; try done.
    + by rewrite <- app_assoc.
    + by rewrite !app_nil_r.
  - apply short_insert; [done|]. rewrite length_app; simpl; lia.
Qed.

Lemma inv_step s s' : inv s → step s s' → inv s'.
Proof.
  intros Hi [o Ho]. destruct o; simpl in Ho.
  - by eapply inv_send.
  - destruct s as [[] b r m p e pr x mc en sl rl gl]; [done|]. injection Ho as <-.
    destruct Hi; by split.
  - by eapply inv_recv.
  - by eapply inv_take.
  - by eapply inv_put.
  - destruct s as [a b r m p e pr x mc en sl rl gl]. simpl in Ho.
    destruct a; [|done]. destruct b; [done|]. destruct x; [done|]. destruct (bool_decide (p = None)); [|done].
    injection Ho as <-. destruct Hi; by split.
  - destruct s as [a b [|] m [|] e pr x mc en sl rl gl]; try done. simpl in Ho.
    destruct b; [|done]. destruct x; [done|]. injection Ho as <-. destruct Hi; by split.
  - destruct s as [a b r m p e pr x mc en sl rl gl]. simpl in Ho. destruct b; [by injection Ho as <-|].
    destruct (lookup_chan c pr) as [|? l] eqn:Hl; [done|]. injection Ho as <-. destruct Hi; split; simpl in *; try done.
    apply short_insert; [done|]. specialize (inv_privateChans0 c). rewrite Hl in inv_privateChans0. simpl in *. lia.
  - by eapply inv_handler_Send.
Qed.

Lemma reachable_inv s : reachable s → inv s.
Proof. apply (rtc_invariant step inv); [apply inv_step|apply inv_newConnection]. Qed.

(** ** The transport *)

Lemma take_pipe s s' : server_take s = Some (Return s') → conn_pipe s' ≡ conn_pipe s ∨ pipe_step (conn_pipe s) (conn_pipe s').
Proof.
  destruct s as [a b [|tm r] m [p|] e pr x mc en sl rl gl]; try done. unfold server_take. destruct x; [done|].
  destruct (handle_message is_close canHandle (Decoded tm) m) as [m' effs] eqn:Hh. intros [= <-].
  destruct (effects_split _ _ _ _ Hh) as (_ & Hnone & Hput & Hclose). unfold conn_pipe; simpl.
  destruct (head (filter is_put effs)) as [y|]; simpl.
  - left. destruct (Hput y eq_refl) as [-> _]. apply shared_same. intros c. by rewrite handed_over_app, Hnone, app_nil_r.
  - apply shared_pop. intros c. rewrite handed_over_app, Hnone, on_stream_one, Hclose by done. by case_decide.
Qed.

Lemma put_pipe room s s' : inv s → server_put room s = Some (Return s') →
  conn_pipe s' ≡ conn_pipe s ∨ pipe_step (conn_pipe s) (conn_pipe s').
Proof.
  intros Hi. destruct s as [a b r m [y|] e pr x mc en sl rl gl]; [|done].
  intros Hp. destruct (inv_putting _ Hi y eq_refl) as [Hy1 Hy2].
  assert (∃ pr', s' = mkConn a b r m None (e ++ [y]) pr' x mc en sl rl gl) as [pr' ->].
  { destruct y; try done; simpl in Hp; [destruct room; [|done]; injection Hp as <-; by eexists|].
    case_bool_decide; [|done]. injection Hp as <-. by eexists. }
  assert (∃ msg, put_msg y = [msg] ∧ is_close (tm_msg msg) = false) as (msg & Hmsg & Hc)
    by (destruct y; try done; eexists; (split; [reflexivity|]); by destruct Hy2).
  unfold conn_pipe; simpl. rewrite Hmsg. simpl. apply shared_pop. intros c.
  rewrite handed_over_app, (handed_over_put c y Hy1), Hmsg; [done|]. intros msg' [= <-]%(eq_trans (eq_sym Hmsg)). done.
Qed.

Lemma step_pipe s s' : reachable s → step s s' → conn_pipe s' ≡ conn_pipe s ∨ pipe_step (conn_pipe s) (conn_pipe s').
Proof.
  intros Hi%reachable_inv [o Ho]. destruct o; simpl in Ho; [..|].
  1: { destruct s as [a b r m p e pr x mc en sl rl gl]; simpl in Ho.
       destruct (bool_decide (chanID tm ∈ en)); [injection Ho as <-; by left|]. destruct b; [done|].
       case_bool_decide; [|done]. injection Ho as <-. unfold conn_pipe; simpl. rewrite app_assoc. apply shared_push. }
  3: by apply take_pipe.
  3: by eapply put_pipe.
  all: left; destruct s; simpl in Ho;
    repeat (case_match || case_bool_decide); simplify_eq; done.
Qed.

#[export] Instance chan_transport : Transport (Msg * transportFeats) conn := {|
  t_init := newConnection; t_step := step; t_pipe := conn_pipe; t_start c := conj eq_refl (conj eq_refl eq_refl);
  t_simulates := step_pipe;
|}.

(** ** The end of a connection *)

(** At most this many steps of the goroutine are left. *)
Definition measure (s : conn) : nat :=
  2 * length (recvChan s) + length (option_list (putting s)) + (if connClose_nil s then 0 else 1) + (if exited s then 0 else 1).

Lemma server_op_measure o s s' : server_op o = true → exec o s = Some (Return s') → measure s' < measure s.
Proof.
  destruct s as [a b r m p e pr x mc en sl rl gl]. destruct o; try done; intros _; unfold exec.
  - unfold server_take. destruct r as [|tm r], p; try done. destruct x; [done|].
    destruct (handle_message is_close canHandle (Decoded tm) m). intros [= <-]. unfold measure; simpl.
    destruct (head _); simpl; lia.
  - simpl. intros H. repeat (case_match || case_bool_decide); simplify_eq; unfold measure; simpl; lia.
  - simpl. destruct a, b, x, (bool_decide (p = None)); try done. intros [= <-]. unfold measure; simpl. lia.
  - simpl. destruct r, p, b, x; try done. intros [= <-]. unfold measure; simpl. lia.
Qed.

(** The goroutine waits at a private channel that is full, or to put a message into
    the queue. *)
Definition stalled (s : conn) : Prop :=
  ∃ c msg tfs, putting s = Some (ToPrivateChan c msg tfs) ∧ length (lookup_chan c (privateChans s)) = qsize.
Definition queueing (s : conn) : Prop := ∃ c msg tfs, putting s = Some (ToMsgQ c msg tfs).

(** A step of the goroutine alone while there is room in the queue, or while there is
    none *)
Definition server_step (room : bool) (s s' : conn) : Prop :=
  ∃ o, server_op o = true ∧ (∀ b, o = ServerPut b → b = room) ∧ exec o s = Some (Return s').
Definition goroutine_step (s s' : conn) : Prop := ∃ room, server_step room s s'.

Lemma server_progress room s : inv s → connClosed s = true →
  exited s = true ∨ stalled s ∨ (room = false ∧ queueing s) ∨ ∃ s', server_step room s s'.
Proof.
  intros Hi Ha. destruct s as [a b r m p e pr x mc en sl rl gl]; simpl in Ha. subst a.
  destruct x; [by left|]. right. destruct p as [y|].
  - destruct (inv_putting _ Hi y eq_refl) as [Hy _]. destruct y as [| | |c msg tfs|c msg tfs]; try done.
    + right. destruct room; [|left; split; [done|by exists c, msg, tfs]].
      right. eexists. exists (ServerPut true). split; [done|]. split; [by intros b' [= <-]|done].
    + destruct (decide (length (lookup_chan c pr) < qsize)) as [Hl|Hl].
      * right. right. eexists. exists (ServerPut room). split; [done|]. split; [by intros b' [= <-]|].
        simpl. by rewrite bool_decide_eq_true_2.
      * left. exists c, msg, tfs. split; [done|]. pose proof (inv_privateChans _ Hi c). simpl in *. lia.
  - right. right. destruct r as [|tm r].
    + destruct b; eexists; [exists ServerExit|exists ServerClose]; done.
    + unfold server_step. destruct (server_take (mkConn true b (tm :: r) m None e pr false mc en sl rl gl)) as [[s'|w]|] eqn:Ht.
      * exists s', ServerTake. done.
      * unfold server_take in Ht. by destruct (handle_message is_close canHandle (Decoded tm) m).
      * unfold server_take in Ht. by destruct (handle_message is_close canHandle (Decoded tm) m).
Qed.

Lemma goroutine_step_step s s' : goroutine_step s s' → step s s'.
Proof. intros (room & o & _ & _ & Ho). by exists o. Qed.

Lemma goroutine_step_closed s s' : goroutine_step s s' → connClosed s' = connClosed s ∧ sentLog s' = sentLog s.
Proof.
  intros (room & o & Hs & _ & Ho). destruct s as [a b r m p e pr x mc en sl rl gl].
  destruct o; try done; unfold exec, server_take, server_put, server_close, server_exit in Ho;
    clear Hs; repeat (case_match || case_bool_decide); by simplify_eq.
Qed.

Lemma goroutine_steps_bounded n s s' : nsteps goroutine_step n s s' → n + measure s' ≤ measure s.
Proof.
  induction 1 as [|n s s1 s' (room & o & Hs & _ & Ho) _ IH]; [lia|].
  pose proof (server_op_measure _ _ _ Hs Ho). lia.
Qed.

(** Without room in the queue a message for it stays. *)
Lemma queueing_waits s s' : queueing s → ¬ server_step false s s'.
Proof.
  intros (c & msg & tfs & Hp) (o & Hs & Hroom & Ho). destruct s as [a b r m p e pr x mc en sl rl gl]; simpl in Hp; subst p.
  destruct o; try done; unfold exec, server_take, server_put, server_close, server_exit in Ho.
  - by destruct r.
  - by rewrite (Hroom _ eq_refl) in Ho.
  - by destruct a, b, x.
  - by destruct r.
Qed.

(** While there is room in the queue it exits unless it stalls. *)
Lemma server_runs_out s : reachable s → connClosed s = true →
  ∃ s', rtc (server_step true) s s' ∧ (exited s' = true ∨ stalled s').
Proof.
  remember (measure s) as n eqn:Hn. revert s Hn. induction (lt_wf n) as [n _ IH]; intros s -> Hr Hc.
  destruct (server_progress true s (reachable_inv _ Hr) Hc) as [Hx|[Hx|[[? _]|(s1 & Hs1)]]]; [..|done|].
  1-2: exists s; split; [apply rtc_refl|auto].
  pose proof Hs1 as (o & Hs & _ & Ho).
  destruct (IH (measure s1) (server_op_measure _ _ _ Hs Ho) s1 eq_refl) as (s' & Hs' & Hx).
  - eapply rtc_r; [exact Hr|]. by exists o.
  - rewrite <- Hc. apply goroutine_step_closed. by exists true.
  - exists s'. split; [|done]. by eapply rtc_l.
Qed.

Lemma never_stalled s : (∀ msg, is_close msg = true ∨ canHandle msg = true) → inv s → ¬ stalled s.
Proof.
  intros Hall Hi (c & msg & tfs & Hp & _). destruct (inv_putting _ Hi _ Hp) as [_ Hs]. simpl in Hs.
  destruct (Hall msg), Hs; congruence.
Qed.
End conn.

(** C8. The process transport is a pipe for each stream, whatever the goroutines'
    interleaving: every run of a connection is a run of the pipe specification, so
    each stream hands over a prefix of what was sent on it, in order, to the queue
    what the service knows and privately the rest, between its opening and its
    closing; the replies come back in order too; no channel exceeds its capacity;
    and once the connection's goroutine has exited, everything sent was handed over. *)
Theorem chan_refines_pipe {Msg} (is_close canHandle is_EOF : Msg → bool) qsize s :
  reachable is_close canHandle is_EOF qsize s →
  (∃ p, rtc pipe_step empty_pipe p ∧ conn_pipe is_close s ≡ p) ∧
  (∀ c, ∃ l, on_stream is_close c (sentLog s) = handed_over c (effects s) ++ l) ∧
  (∀ c, ∃ l, replies c (replyLog s) = replies c (gotLog s) ++ l) ∧
  Forall (sorted_out is_close canHandle) (effects s) ∧ disciplined ∅ (effects s) ∧
  length (recvChan s) ≤ qsize ∧ short qsize (privateChans s) ∧ short qsize (msgChans s) ∧
  (exited s = true → ∀ c, handed_over c (effects s) = on_stream is_close c (sentLog s)).
Proof.
  intros Hr. set (T := chan_transport is_close canHandle is_EOF qsize).
  pose proof (transport_run (H := T) s Hr) as Hrun.
  pose proof (transport_fifo (H := T) s Hr) as Hfifo. unfold fifo in Hfifo. simpl in Hfifo.
  pose proof (reachable_inv _ _ _ _ _ Hr) as Hi. split_and!; [done|..|apply Hi| |apply Hi|apply Hi|apply Hi|].
  - intros c. eexists. apply Hfifo.
  - intros c. eexists. apply (inv_replies _ _ _ _ Hi).
  - eapply disciplined_app. by apply (inv_disciplined _ _ _ _ Hi []).
  - intros Hx c. destruct (inv_exited _ _ _ _ Hi Hx) as (Hr0 & Hp0 & _). rewrite Hfifo, Hr0, Hp0. by rewrite app_nil_r.
Qed.

(** C22. Once the client has closed a connection, its goroutine takes a bounded
    number of steps of its own, however they fall and whenever there is room in the
    queue, and it can only come to rest by exiting, with everything sent handed over,
    before a full private channel nobody receives from, or, while there is no room in
    the queue, with a message for it; there it waits until a worker makes room, for
    ever if the server's workers are gone.  With room in the queue a service that knows
    all the messages it is sent gets everything, and the goroutine exits. *)
Theorem chan_conn_drains {Msg} (is_close canHandle is_EOF : Msg → bool) qsize s :
  reachable is_close canHandle is_EOF qsize s → connClosed s = true →
  let goroutine := goroutine_step is_close canHandle is_EOF qsize in
  let server := server_step is_close canHandle is_EOF qsize in
  (∀ n s', nsteps goroutine n s s' → n ≤ measure s) ∧
  (∀ room s', rtc goroutine s s' → (∀ s2, ¬ server room s' s2) →
     (exited s' = true ∧ ∀ c, handed_over c (effects s') = on_stream is_close c (sentLog s)) ∨
     stalled qsize s' ∨ (room = false ∧ queueing s')) ∧
  (∀ s', queueing s' → ∀ s2, ¬ server false s' s2) ∧
  ((∀ msg, is_close msg = true ∨ canHandle msg = true) →
     ∃ s', rtc (server true) s s' ∧ exited s' = true ∧ ∀ c, handed_over c (effects s') = on_stream is_close c (sentLog s)).
Proof.
  intros Hr Hc goroutine server.
  assert (Hkeep : ∀ s', rtc goroutine s s' → reachable is_close canHandle is_EOF qsize s' ∧
    connClosed s' = true ∧ sentLog s' = sentLog s).
  { apply rtc_ind_r; [done|]. intros s1 s2 _ H (H1 & H2 & H3). split; [|].
    - eapply rtc_r; [exact H1|]. by eapply goroutine_step_step.
    - by destruct (goroutine_step_closed _ _ _ _ _ _ H) as [-> ->]. }
  assert (Hall : ∀ s', rtc goroutine s s' → exited s' = true →
    ∀ c, handed_over c (effects s') = on_stream is_close c (sentLog s)).
  { intros s' Hs' Hx c. destruct (Hkeep s' Hs') as (H1 & _ & <-).
    pose proof (transport_fifo (H := chan_transport is_close canHandle is_EOF qsize) s' H1) as Hfifo.
    destruct (inv_exited _ _ _ _ (reachable_inv _ _ _ _ _ H1) Hx) as (Hr0 & Hp0 & _).
    specialize (Hfifo c). simpl in Hfifo. rewrite Hfifo, Hr0, Hp0. by rewrite app_nil_r. }
  split; [|split; [|split]].
  - intros n s' Hn. pose proof (goroutine_steps_bounded _ _ _ _ _ _ _ Hn). lia.
  - intros room s' Hs' Hstop. destruct (Hkeep s' Hs') as (H1 & H2 & _).
    destruct (server_progress _ _ is_EOF _ room s' (reachable_inv _ _ _ _ _ H1) H2) as [Hx|[Hx|[Hx|(s2 & H)]]];
      [left; auto|auto..|by destruct (Hstop s2)].
  - intros s' Hq s2. by apply queueing_waits.
  - intros Hknown. destruct (server_runs_out _ _ _ _ s Hr Hc) as (s' & Hs' & Hx).
    assert (Hg : rtc goroutine s s') by (eapply rtc_subrel, Hs'; intros ? ? ?; by exists true).
    destruct Hx as [Hx|Hx]; [by exists s'; auto|]. destruct (Hkeep s' Hg) as (H1 & _ & _). exfalso.
    by apply (never_stalled is_close canHandle qsize s' Hknown (reachable_inv _ _ _ _ _ H1)).
Qed.

(** Once the goroutine has seen the closing, any [Send] on a stream of the
    connection (and so its [Close], which sends) panics, where the byte transport
    returns an error; and from any state in which the connection is open and its
    goroutine waits, the closing leads there at once. *)
Theorem send_after_close_panics {Msg} (is_close canHandle is_EOF : Msg → bool) qsize s :
  reachable is_close canHandle is_EOF qsize s → connClosed s = false → putting s = None →
  ∃ s1 s2, exec is_close canHandle is_EOF qsize ClientClose s = Some (Return s1) ∧
    exec is_close canHandle is_EOF qsize ServerClose s1 = Some (Return s2) ∧
    ∀ s3 tm, rtc (step is_close canHandle is_EOF qsize) s2 s3 → chanID tm ∉ ended s3 →
      exec is_close canHandle is_EOF qsize (ClientSend tm) s3 = Some (Panics (str "send on closed channel")).
Proof.
  intros Hr Ha Hp. pose proof (reachable_inv _ _ _ _ _ Hr) as Hi.
  destruct s as [a b r m p e pr x mc en sl rl gl]; simpl in Ha, Hp. subst a p.
  destruct b; [by specialize (inv_closed _ _ _ _ Hi eq_refl)|].
  destruct x; [by destruct (inv_exited _ _ _ _ Hi eq_refl) as (_ & _ & ?)|].
  eexists _, _. split_and!; [done|done|]. intros s3 tm Hs3 Htm.
  assert (connClose_nil s3 = true) as Hb.
  { revert Hs3. apply (rtc_invariant _ (λ s, connClose_nil s = true)); [|done].
    clear. intros s s' Hb [o Ho]. destruct s as [a b r m0 p e pr x mc en sl rl gl]; simpl in Hb; subst b.
    destruct o; unfold exec, client_Send, client_Close, client_Recv, server_take, server_put, server_close,
      server_exit, handler_Recv, handler_Send in Ho; repeat (case_match || case_bool_decide); by simplify_eq. }
  destruct s3; simpl in *. subst. by rewrite bool_decide_eq_false_2.
Qed.

(** ** Witnesses *)

(** A message is a close message, a known one, or an unknown one. *)
Definition demo_close (m : nat) : bool := bool_decide (m = 0).
Definition demo_known (m : nat) : bool := bool_decide (m < 10).
Definition demo_EOF (m : nat) : bool := false.

Fixpoint demo_run (ops : list (op (Msg := nat))) (s : conn (Msg := nat)) : conn (Msg := nat) :=
  match ops with
  | [] => s
  | o :: ops => match exec demo_close demo_known demo_EOF 2 o s with
                | Some (Return s') => demo_run ops s'
                | _ => demo_run ops s
                end
  end.

Lemma demo_run_reachable ops s : reachable demo_close demo_known demo_EOF 2 s →
  reachable demo_close demo_known demo_EOF 2 (demo_run ops s).
Proof.
  revert s; induction ops as [|o ops IH]; intros s Hs; [done|]. simpl.
  destruct (exec _ _ _ _ o s) as [[s'|w]|] eqn:Ho; apply IH; try done.
  eapply rtc_r; [exact Hs|]. by exists o.
Qed.

Definition demo_conn : conn (Msg := nat) :=
  demo_run [ClientSend (mkTransportMsg 7 1 []); ClientSend (mkTransportMsg 8 2 []); ServerTake; ServerPut true;
            ClientSend (mkTransportMsg 7 3 []); HandlerSend 7 4 []; ClientRecv 7; ClientClose; ServerTake] newConnection.

Lemma demo_conn_reachable : reachable demo_close demo_known demo_EOF 2 demo_conn.
Proof. apply demo_run_reachable. apply rtc_refl. Qed.

Lemma chan_refines_pipe_witness :
  handed_over 7 (effects demo_conn) = [(1, [])] ∧
  (∃ l, on_stream demo_close 7 (sentLog demo_conn) = handed_over 7 (effects demo_conn) ++ l) ∧
  replies 7 (gotLog demo_conn) = [(4, [])].
Proof.
  split; [vm_compute; reflexivity|]. split; [|vm_compute; reflexivity].
  apply (chan_refines_pipe demo_close demo_known demo_EOF 2 demo_conn demo_conn_reachable).
Defined.

Lemma chan_conn_drains_witness :
  measure demo_conn = 5 ∧
  ∀ n s', nsteps (goroutine_step demo_close demo_known demo_EOF 2) n demo_conn s' → n ≤ 5.
Proof.
  split; [vm_compute; reflexivity|].
  apply (proj1 (chan_conn_drains demo_close demo_known demo_EOF 2 demo_conn demo_conn_reachable
    ltac:(vm_compute; reflexivity))).
Defined.

Lemma send_after_close_panics_witness :
  ∃ s1 s2, exec demo_close demo_known demo_EOF 2 ClientClose (newConnection (Msg := nat)) = Some (Return s1) ∧
    exec demo_close demo_known demo_EOF 2 ServerClose s1 = Some (Return s2) ∧
    ∀ s3 tm, rtc (step demo_close demo_known demo_EOF 2) s2 s3 → chanID tm ∉ ended s3 →
      exec demo_close demo_known demo_EOF 2 (ClientSend tm) s3 = Some (Panics (str "send on closed channel")).
Proof.
  apply (send_after_close_panics demo_close demo_known demo_EOF 2 newConnection).
  - apply rtc_refl.
  - reflexivity.
  - reflexivity.
Defined.
