(* ===== verification/Sharing.v ===== *)
(** What the two ends of a process connection see of each other's memory
    (chantransportclient.go, client_options.go): a message is a Go value, whose pointers
    the receiver gets as they are, unless the client was set to copy deeply what it
    sends.  The queues here hold the messages of one stream, in the order that
    ChanTransport gives them. *)
From S2P Require Import Prelude.

(** ** Values and memory *)

(** A variable holds plain data, nil, or a pointer to a struct. *)
Inductive value := Plain (z : Z) | Nil | Ptr (l : nat).
#[export] Instance value_eq_dec : EqDecision value.
Proof. solve_decision. Defined.

Record field := mkField { exported : bool; content : value }.
Abbreviation heap := (gmap nat (list field)).

Definition is_plain (v : value) : bool := match v with Ptr _ => false | _ => true end.

(** What can be seen of a value, following pointers [n] times; with [own] false, as
    another package sees it, without the unexported fields *)
#[warnings="-register-all"] Inductive shape := Leaf (z : option Z) | Cut | Hidden | Struct (fs : list shape).

Fixpoint looks (own : bool) (n : nat) (h : heap) (v : value) : shape :=
  match v with
  | Plain z => Leaf (Some z)
  | Nil => Leaf None
  | Ptr l =>
      match n, h !! l with
      | S n, Some fs => Struct ((λ f, if own || exported f then looks own n h (content f) else Hidden) <$> fs)
      | _, _ => Cut
      end
  end.

(** [deepcopy.MustAnything] of a third-party package: it may panic; its documentation
    says that what it returns shares nothing with what it was given, and looks the same
    but for the unexported fields, which are zero. *)
Class DeepCopy := {
  MustAnything : heap → value → option (heap * value);
  copy_keeps h v h' v' : MustAnything h v = Some (h', v') → h ⊆ h';
  copy_fresh h v h' v' l : MustAnything h v = Some (h', v') → v' = Ptr l → h !! l = None ∧ is_Some (h' !! l);
  copy_apart h v h' v' l fs f l' : MustAnything h v = Some (h', v') → h !! l = None → h' !! l = Some fs →
    f ∈ fs → content f = Ptr l' → h !! l' = None ∧ is_Some (h' !! l');
  copy_looks h v h' v' n : MustAnything h v = Some (h', v') → looks false n h' v' = looks false n h v;
}.

(** ** The two ends *)

Inductive side := Client | Server.
#[export] Instance side_eq_dec : EqDecision side.
Proof. solve_decision. Defined.

(** The variables of each end, the requests on their way with their numbers, and the
    replies *)
Record memory := mkMemory {
  hp : heap;
  client_vars : list value;
  server_vars : list value;
  serverChan : list (nat * value);
  srcChan : list value;
  requests : nat;
}.

Definition blank : memory := mkMemory ∅ [] [] [] [] 0.

Definition vars (w : side) (s : memory) : list value := match w with Client => client_vars s | Server => server_vars s end.
Definition add_var (w : side) (v : value) (s : memory) : memory :=
  let '(mkMemory h c d q r n) := s in
  match w with Client => mkMemory h (v :: c) d q r n | Server => mkMemory h c (v :: d) q r n end.
Definition set_heap (h : heap) (s : memory) : memory :=
  let '(mkMemory _ c d q r n) := s in mkMemory h c d q r n.

(** A value an end can write or send: plain, or in its variables *)
Definition known (w : side) (v : value) (s : memory) : bool := is_plain v || bool_decide (v ∈ vars w s).

Inductive op :=
| New (w : side) (fs : list field)            (* &T{...} *)
| Load (w : side) (l f : nat)                 (* x = p.f *)
| Store (w : side) (l f : nat) (v : value)    (* p.f = x *)
| Request (v : value)                         (* the client sends *)
| Handle                                      (* the server gets a request *)
| Reply (v : value)                           (* the server sends *)
| Receive.                                    (* the client gets a reply *)

Definition actor (o : op) : side :=
  match o with
  | New w _ | Load w _ _ | Store w _ _ _ => w
  | Request _ | Receive => Client
  | Handle | Reply _ => Server
  end.

Section sharing.
Context `{DeepCopy}.

(** [chanClientStream.Send]: the message is copied if [owner.deepCopy] is set *)
Definition request (deepCopy : bool) (v : value) (s : memory) : outcome memory :=
  let '(mkMemory h c d q r n) := s in
  if deepCopy then
    match MustAnything h v with
    | Some (h', v') => Return (mkMemory h' c d (q ++ [(n, v')]) r (S n))
    | None => Panics (str "deepcopy")
    end
  else Return (mkMemory h c d (q ++ [(n, v)]) r (S n)).

(** [None] where the program has no such variable, or the channel is empty *)
Definition mem_exec (deepCopy : bool) (o : op) (s : memory) : option (outcome memory) :=
  match o with
  | New w fs =>
      if forallb (λ f, known w (content f) s) fs then
        let l := fresh (dom (hp s)) in
        Some (Return (add_var w (Ptr l) (set_heap (<[l := fs]> (hp s)) s)))
      else None
  | Load w l f =>
      if bool_decide (Ptr l ∈ vars w s) then
        match hp s !! l with
        | Some fs => match fs !! f with Some x => Some (Return (add_var w (content x) s)) | None => None end
        | None => None
        end
      else None
  | Store w l f v =>
      if bool_decide (Ptr l ∈ vars w s) && known w v s then
        match hp s !! l with
        | Some fs =>
            match fs !! f with
            | Some x => Some (Return (set_heap (<[l := <[f := mkField (exported x) v]> fs]> (hp s)) s))
            | None => None
            end
        | None => None
        end
      else None
  | Request v => if known Client v s then Some (request deepCopy v s) else None
  | Handle =>
      match s with
      | mkMemory h c d ((_, v) :: q) r n => Some (Return (mkMemory h c (v :: d) q r n))
      | _ => None
      end
  | Reply v =>
      if known Server v s then
        let '(mkMemory h c d q r n) := s in Some (Return (mkMemory h c d q (r ++ [v]) n))
      else None
  | Receive =>
      match s with
      | mkMemory h c d q (v :: r) n => Some (Return (mkMemory h (v :: c) d q r n))
      | _ => None
      end
  end.

Fixpoint mem_all (deepCopy : bool) (os : list op) (s : memory) : option (outcome memory) :=
  match os with
  | [] => Some (Return s)
  | o :: os => match mem_exec deepCopy o s with Some (Return s') => mem_all deepCopy os s' | r => r end
  end.

(** The server replies with data: replies are not copied. *)
Definition replies_data (o : op) : Prop := ∀ v, o = Reply v → is_plain v = true.

Definition mem_step (deepCopy : bool) (s s' : memory) : Prop :=
  ∃ o, replies_data o ∧ mem_exec deepCopy o s = Some (Return s').

(** ** Who owns what *)

Inductive owner := Of (w : side) | InFlight (k : nat).
#[local] Instance owner_eq_dec : EqDecision owner.
Proof. solve_decision. Defined.

Definition owned (ow : nat → owner) (h : heap) (o : owner) (v : value) : Prop :=
  ∀ l, v = Ptr l → ow l = o ∧ is_Some (h !! l).

(** Every struct has an owner, and its pointers stay with the owner. *)
Definition closed (ow : nat → owner) (h : heap) : Prop :=
  ∀ l fs f, h !! l = Some fs → f ∈ fs → owned ow h (ow l) (content f).

Record apart (ow : nat → owner) (s : memory) : Prop := mkApart {
  ap_closed : closed ow (hp s);
  ap_client : ∀ v, v ∈ client_vars s → owned ow (hp s) (Of Client) v;
  ap_server : ∀ v, v ∈ server_vars s → owned ow (hp s) (Of Server) v;
  ap_flight : ∀ k v, (k, v) ∈ serverChan s → owned ow (hp s) (InFlight k) v;
  ap_numbers : ∀ k v, (k, v) ∈ serverChan s → k < requests s;
  ap_once : NoDup (serverChan s).*1;
  ap_replies : ∀ v, v ∈ srcChan s → is_plain v = true;
}.

Lemma owned_plain ow h o v : is_plain v = true → owned ow h o v.
Proof. by intros Hv l ->. Qed.

Lemma owned_vars ow s w v : apart ow s → v ∈ vars w s → owned ow (hp s) (Of w) v.
Proof. intros Hap. destruct w; apply Hap. Qed.

Lemma owned_known ow s w v : apart ow s → known w v s = true → owned ow (hp s) (Of w) v.
Proof. intros Hap [Hv|Hv%bool_decide_eq_true]%orb_true_iff; [by apply owned_plain|by eapply owned_vars]. Qed.

(** Owners and memory may change where the value's owner has nothing. *)
Lemma owned_mono ow ow' h h' o v : (∀ l, is_Some (h !! l) → is_Some (h' !! l)) →
  (∀ l, is_Some (h !! l) → ow l = o → ow' l = o) → owned ow h o v → owned ow' h' o v.
Proof. intros Hh Ho Hv l Hl. destruct (Hv l Hl) as [E Hs]. auto. Qed.

(** What a value looks like depends on its owner's structs only. *)
Lemma looks_agree ow h h' o own n v : closed ow h → owned ow h o v →
  (∀ l, ow l = o → is_Some (h !! l) → h' !! l = h !! l) → looks own n h' v = looks own n h v.
Proof.
  intros Hcl Hv Ha. revert v Hv. induction n as [|n IH]; intros [z| |l] Hv; try done.
  destruct (Hv l eq_refl) as [Ho Hs]. simpl. rewrite (Ha l Ho Hs). destruct (h !! l) as [fs|] eqn:Hl; [|done].
  f_equal. apply list_fmap_ext. intros i f Hf. destruct (own || exported f); [|done]. apply IH.
  rewrite <- Ho. eapply Hcl; [exact Hl|]. by eapply list_elem_of_lookup_2.
Qed.

Lemma owned_var_add ow s w v : apart ow s → owned ow (hp s) (Of w) v → apart ow (add_var w v s).
Proof.
  intros [H1 H2 H3 H4 H5 H6 H7] Hv. destruct s, w; split; simpl in *; try done; intros x [->|Hx]%elem_of_cons; auto.
Qed.

(** ** Each operation keeps the ends apart *)

Lemma new_apart ow s w fs : apart ow s → Forall (λ f, owned ow (hp s) (Of w) (content f)) fs →
  let l := fresh (dom (hp s)) in
  apart (λ x, if bool_decide (x = l) then Of w else ow x) (add_var w (Ptr l) (set_heap (<[l := fs]> (hp s)) s)).
Proof.
  intros [H1 H2 H3 H4 H5 H6 H7] Hfs l. assert (hp s !! l = None) as Hl by (apply not_elem_of_dom, is_fresh).
  assert (∀ o v, owned ow (hp s) o v → owned (λ x, if bool_decide (x = l) then Of w else ow x) (<[l := fs]> (hp s)) o v) as Hmono.
  { intros o v. apply owned_mono.
    - intros x Hx. apply lookup_insert_is_Some'. by right.
    - intros x [y Hx] Ho. rewrite bool_decide_eq_false_2; [done|congruence]. }
  apply owned_var_add.
  - destruct s as [h c d q r n]. simpl in *. split; simpl; auto.
    intros x fs' f Hx Hf. case_bool_decide as Hxl.
    + subst x. rewrite lookup_insert_eq in Hx. injection Hx as <-. apply Hmono. rewrite Forall_forall in Hfs. auto.
    + rewrite lookup_insert_ne in Hx by done. eapply Hmono, H1; eauto.
  - destruct s as [h c d q r n]. simpl. intros x [= <-]. by rewrite bool_decide_eq_true_2, lookup_insert_eq.
Qed.

Lemma store_apart ow s w l f fs x v : apart ow s → ow l = Of w → hp s !! l = Some fs → fs !! f = Some x →
  owned ow (hp s) (Of w) v → apart ow (set_heap (<[l := <[f := mkField (exported x) v]> fs]> (hp s)) s).
Proof.
  intros [H1 H2 H3 H4 H5 H6 H7] Hl Hfs Hx Hv. destruct s as [h c d q r n]. simpl in *.
  assert (∀ o u, owned ow h o u → owned ow (<[l := <[f := mkField (exported x) v]> fs]> h) o u) as Hmono.
  { intros o u. apply owned_mono; [|done]. intros y Hy. apply lookup_insert_is_Some'. by right. }
  split; simpl; auto. intros y fs' g Hy Hg. apply Hmono. destruct (decide (y = l)) as [->|Hne].
  - rewrite lookup_insert_eq in Hy. injection Hy as <-. apply list_elem_of_lookup in Hg as [i Hi].
    apply list_lookup_insert_Some in Hi as [(_ & <- & _)|[_ Hi]]; [by rewrite Hl|].
    eapply H1; [exact Hfs|]. by eapply list_elem_of_lookup_2.
  - rewrite lookup_insert_ne in Hy by done. by eapply H1.
Qed.

Lemma request_apart ow s v s' : apart ow s → request true v s = Return s' →
  apart (λ l, match hp s !! l with Some _ => ow l | None => InFlight (requests s) end) s'.
Proof.
  intros [H1 H2 H3 H4 H5 H6 H7]. destruct s as [h c d q r n]. unfold request. simpl in *.
  destruct (MustAnything h v) as [[h' v']|] eqn:Hm; [|done]. intros [= <-].
  assert (∀ o u, owned ow h o u → owned (λ l, match h !! l with Some _ => ow l | None => InFlight n end) h' o u) as Hmono.
  { intros o u. apply owned_mono; [|by intros l [y ->]].
    intros l [y Hy]. exists y. by eapply lookup_weaken, copy_keeps. }
  split; simpl; auto.
  - intros l fs f Hl Hf. destruct (h !! l) as [fs0|] eqn:Hl0.
    + assert (fs0 = fs) as -> by (eapply lookup_weaken in Hl0; [|by eapply copy_keeps]; congruence). eapply Hmono, H1; eauto.
    + intros l' Hl'. destruct (copy_apart _ _ _ _ _ _ _ _ Hm Hl0 Hl Hf Hl') as [-> ?]. done.
  - intros k u [Hk|[= -> ->]%list_elem_of_singleton]%elem_of_app; [auto|].
    intros l Hl. destruct (copy_fresh _ _ _ _ _ Hm Hl) as [-> ?]. done.
  - intros k u [Hk%H5|[= -> ->]%list_elem_of_singleton]%elem_of_app; lia.
  - rewrite fmap_app. apply NoDup_app. split; [done|]. split; [|apply NoDup_singleton].
    intros k ([k' u] & -> & Hk%H5)%list_elem_of_fmap Hn%list_elem_of_singleton. simpl in *. lia.
Qed.

Lemma handle_apart ow h c d k v q r n : apart ow (mkMemory h c d ((k, v) :: q) r n) →
  apart (λ l, if bool_decide (ow l = InFlight k) then Of Server else ow l) (mkMemory h c (v :: d) q r n).
Proof.
  intros [H1 H2 H3 H4 H5 H6 H7]. simpl in *.
  assert (∀ o u, o ≠ InFlight k → owned ow h o u → owned (λ l, if bool_decide (ow l = InFlight k) then Of Server else ow l) h o u) as Hmono.
  { intros o u Ho. apply owned_mono; [done|]. intros l _ <-. by rewrite bool_decide_eq_false_2. }
  assert (∀ u, owned ow h (InFlight k) u → owned (λ l, if bool_decide (ow l = InFlight k) then Of Server else ow l) h (Of Server) u) as Hk.
  { intros u Hu l Hl. destruct (Hu l Hl) as [-> ?]. by rewrite bool_decide_eq_true_2. }
  apply NoDup_cons in H6 as [Hnot H6]. split; simpl; auto.
  - intros l fs f Hl Hf. specialize (H1 l fs f Hl Hf). case_bool_decide as Ho; [rewrite Ho in H1; auto|auto].
  - intros u [->|Hu]%elem_of_cons; [apply Hk, H4; by left|auto].
  - intros j u Hu. apply Hmono; [|apply H4; by right]. intros [= ->]. apply Hnot. apply list_elem_of_fmap. by exists (k, u).
  - intros j u Hu. eapply H5. by right.
Qed.

Lemma mem_exec_apart ow o s s' : apart ow s → replies_data o → mem_exec true o s = Some (Return s') → ∃ ow', apart ow' s'.
Proof.
  intros Hap Hr. destruct o as [w fs|w l f|w l f v|v| |v|]; simpl.
  - destruct (forallb _ _) eqn:Hfs; [|done]. intros [= <-]. eexists. apply new_apart; [done|].
    rewrite forallb_forall in Hfs. apply Forall_forall. intros f Hf. apply owned_known; [done|]. by apply Hfs, list_elem_of_In.
  - case_bool_decide as Hl; [|done]. destruct (hp s !! l) as [fs|] eqn:Hfs; [|done]. destruct (fs !! f) as [x|] eqn:Hx; [|done].
    intros [= <-]. exists ow. apply owned_var_add; [done|].
    destruct (owned_vars ow s w _ Hap Hl l eq_refl) as [<- _]. eapply ap_closed; [done|exact Hfs|by eapply list_elem_of_lookup_2].
  - destruct (_ && _) eqn:Hb; [|done]. apply andb_true_iff in Hb as [Hl%bool_decide_eq_true Hv].
    destruct (hp s !! l) as [fs|] eqn:Hfs; [|done]. destruct (fs !! f) as [x|] eqn:Hx; [|done]. intros [= <-].
    exists ow. eapply store_apart; [done| |done..|by apply owned_known]. by destruct (owned_vars ow s w _ Hap Hl l eq_refl).
  - destruct (known _ _ _); [|done]. intros [= Hs]. eexists. by eapply request_apart.
  - destruct s as [h c d [|[k v] q] r n]; [done|]. intros [= <-]. eexists. by apply handle_apart.
  - destruct (known _ _ _); [|done]. destruct s as [h c d q r n]. intros [= <-]. exists ow.
    destruct Hap as [H1 H2 H3 H4 H5 H6 H7]. split; simpl in *; auto.
    intros x [Hx| ->%list_elem_of_singleton]%elem_of_app; [auto|by apply Hr].
  - destruct s as [h c d q [|v r] n]; [done|]. intros [= <-]. exists ow.
    destruct Hap as [H1 H2 H3 H4 H5 H6 H7]. split; simpl in *; auto.
    + intros x [->|Hx]%elem_of_cons; [apply owned_plain, H7; by left|auto].
    + intros x Hx. apply H7. by right.
Qed.

Lemma mem_reachable s : rtc (mem_step true) blank s → ∃ ow, apart ow s.
Proof.
  apply (rtc_invariant (mem_step true) (λ s, ∃ ow, apart ow s)).
  - intros x y [ow Hap] (o & Hr & Ho). by eapply mem_exec_apart.
  - exists (λ _, Of Client). split; simpl; try (by intros; set_solver); [by intros l fs f Hl|constructor].
Qed.

(** ** What an operation leaves as it was *)

Lemma exec_others o s s' ow l : apart ow s → mem_exec true o s = Some (Return s') →
  ow l ≠ Of (actor o) → is_Some (hp s !! l) → hp s' !! l = hp s !! l.
Proof.
  intros Hap Ho Hne [fs0 Hl]. destruct o as [w fs|w k f|w k f v|v| |v|]; simpl in *.
  - destruct (forallb _ _); [|done]. injection Ho as <-.
    assert (fresh (dom (hp s)) ≠ l) by (intros <-; by apply (is_fresh (dom (hp s))), elem_of_dom).
    destruct s, w; simpl in *; by rewrite lookup_insert_ne.
  - case_bool_decide; [|done]. destruct (hp s !! k); [|done]. destruct (_ !! f); [|done]. injection Ho as <-. by destruct s, w.
  - destruct (_ && _) eqn:Hb; [|done]. apply andb_true_iff in Hb as [Hk%bool_decide_eq_true _].
    destruct (hp s !! k); [|done]. destruct (_ !! f); [|done]. injection Ho as <-.
    destruct (owned_vars ow s w _ Hap Hk k eq_refl) as [Hw _]. assert (k ≠ l) by congruence.
    destruct s. simpl in *. by rewrite lookup_insert_ne.
  - destruct (known _ _ _); [|done]. injection Ho as Ho. destruct s as [h c d q r n]. simpl in *. unfold request in Ho.
    destruct (MustAnything h v) as [[h' v']|] eqn:Hm; [|done]. injection Ho as <-. simpl. rewrite Hl.
    eapply lookup_weaken; [exact Hl|by eapply copy_keeps].
  - destruct s as [h c d [|[k v] q] r n]; [done|]. by injection Ho as <-.
  - destruct (known _ _ _); [|done]. destruct s. by injection Ho as <-.
  - destruct s as [h c d q [|v r] n]; [done|]. by injection Ho as <-.
Qed.

Lemma others_look o s s' ow own n u v : apart ow s → mem_exec true o s = Some (Return s') →
  u ≠ Of (actor o) → owned ow (hp s) u v → looks own n (hp s') v = looks own n (hp s) v.
Proof.
  intros Hap Ho Hu Hv. eapply looks_agree; [apply Hap|exact Hv|]. intros l Hl Hs. eapply exec_others; [done..|congruence|done].
Qed.

(** A request that is in the channel after an operation was there before, unless it is
    new. *)
Lemma request_stays b o s s' : mem_exec b o s = Some (Return s') →
  requests s ≤ requests s' ∧ ∀ k v, (k, v) ∈ serverChan s' → k < requests s → (k, v) ∈ serverChan s.
Proof.
  intros Ho. destruct o as [w fs|w l f|w l f x|x| |x|]; simpl in Ho.
  - destruct (forallb _ _); [|done]. injection Ho as <-. by destruct s, w.
  - case_bool_decide; [|done]. destruct (hp s !! l); [|done]. destruct (_ !! f); [|done]. injection Ho as <-. by destruct s, w.
  - destruct (_ && _); [|done]. destruct (hp s !! l); [|done]. destruct (_ !! f); [|done]. injection Ho as <-. by destruct s.
  - destruct (known _ _ _); [|done]. destruct s as [h c d q r n]. unfold request in Ho. simpl in *.
    assert (∃ h' x', s' = mkMemory h' c d (q ++ [(n, x')]) r (S n)) as (h' & x' & ->).
    { destruct b; [destruct (MustAnything h x) as [[h' x']|]; [|done]|]; injection Ho as <-; eauto. }
    simpl. split; [lia|]. intros k v [?|[= -> ->]%list_elem_of_singleton]%elem_of_app Hk; [done|lia].
  - destruct s as [h c d [|[j y] q] r n]; [done|]. injection Ho as <-. split; [done|]. intros k v Hk _. by right.
  - destruct (known _ _ _); [|done]. destruct s. by injection Ho as <-.
  - destruct s as [h c d q [|y r] n]; [done|]. by injection Ho as <-.
Qed.

Lemma requests_stay b s1 s2 k v : rtc (mem_step b) s1 s2 → k < requests s1 → (k, v) ∈ serverChan s2 → (k, v) ∈ serverChan s1.
Proof.
  intros Hrun. induction Hrun as [s|x y z (o & _ & Ho) _ IH]; intros Hk Hv; [done|].
  destruct (request_stays _ _ _ _ Ho) as [Hle Hback]. apply Hback; [|done]. apply IH; [lia|done].
Qed.

Lemma in_flight_looks s1 s2 k v own n : rtc (mem_step true) blank s1 → rtc (mem_step true) s1 s2 →
  k < requests s1 → (k, v) ∈ serverChan s2 → looks own n (hp s2) v = looks own n (hp s1) v.
Proof.
  intros Hs1 Hrun Hk Hv. pose proof (requests_stay _ _ _ _ _ Hrun Hk Hv) as Hin.
  induction Hrun as [s|x y z (o & Hr & Ho) Hrun IH]; [done|]. destruct (request_stays _ _ _ _ Ho) as [Hle _].
  assert (k < requests y) as Hky by lia. destruct (mem_reachable x Hs1) as [ow Hap].
  rewrite IH; [|eapply rtc_r; [exact Hs1|by exists o]|done|done|by eapply requests_stay].
  eapply (others_look o x y ow own n (InFlight k)); [done|done|done|]. by apply Hap.
Qed.

(** C36. With a client set to copy deeply and a server that replies with data, the two ends
    of a process connection share no memory: whatever one end does, the variables of the
    other look as they did, however far their pointers are followed; and a request, as
    long as it is on its way, looks as the message did when it was sent, but for the
    unexported fields, whatever both ends do in between. *)
Theorem messages_not_shared s o s' : rtc (mem_step true) blank s → mem_exec true o s = Some (Return s') →
  (∀ w v own n, w ≠ actor o → v ∈ vars w s → looks own n (hp s') v = looks own n (hp s) v) ∧
  (∀ v, o = Request v → ∃ v', serverChan s' = serverChan s ++ [(requests s, v')] ∧
     ∀ s2 n, rtc (mem_step true) s' s2 → (requests s, v') ∈ serverChan s2 →
       looks false n (hp s2) v' = looks false n (hp s) v).
Proof.
  intros Hs Ho. destruct (mem_reachable s Hs) as [ow Hap]. split.
  - intros w v own n Hw Hv. eapply (others_look o s s' ow own n (Of w)); [done|done|congruence|by apply owned_vars].
  - intros v ->. assert (rtc (mem_step true) blank s') as Hs' by (eapply rtc_r; [exact Hs|exists (Request v); by split]).
    simpl in Ho. destruct (known _ _ _); [|done]. destruct s as [h c d q r k]. unfold request in Ho. simpl in *.
    destruct (MustAnything h v) as [[h' v']|] eqn:Hm; [|done]. injection Ho as <-. exists v'. split; [done|].
    intros s2 n Hrun Hv. rewrite (in_flight_looks _ s2 k v' false n Hs' Hrun); [by eapply copy_looks|simpl; lia|done].
Qed.
End sharing.

(** ** Runs *)

(** A copier of data and of structs of data *)
Definition hide (f : field) : field :=
  if exported f then f else mkField false (match content f with Plain _ => Plain 0 | _ => Nil end).
Definition copy_flat (h : heap) (v : value) : option (heap * value) :=
  match v with
  | Ptr l =>
      match h !! l with
      | Some fs =>
          if forallb (λ f, is_plain (content f)) fs
          then let l' := fresh (dom h) in Some (<[l' := hide <$> fs]> h, Ptr l') else None
      | None => None
      end
  | _ => Some (h, v)
  end.

Lemma hide_plain fs f : forallb (λ f, is_plain (content f)) fs = true → f ∈ hide <$> fs → is_plain (content f) = true.
Proof.
  rewrite forallb_forall. intros Hfs (g & -> & Hg)%list_elem_of_fmap. unfold hide.
  destruct (exported g); [by apply Hfs, list_elem_of_In|by destruct (content g)].
Qed.

#[local] Instance flat_copy : DeepCopy.
Proof.
  refine (Build_DeepCopy copy_flat _ _ _ _); intros h v h' v'; unfold copy_flat; destruct v as [z| |l0].
  all: try (by intros [= <- <-]); try (by intros l [= <- <-]); try (by intros l fs f l' [= <- <-] Hl Hl'; congruence);
    try (by intros n [= <- <-]).
  - destruct (h !! l0) as [fs|] eqn:Hl; [|done]. destruct (forallb _ _); [|done]. intros [= <- _].
    apply insert_subseteq. apply not_elem_of_dom, is_fresh.
  - intros l. destruct (h !! l0) as [fs|] eqn:Hl; [|done]. destruct (forallb _ _); [|done]. intros [= <- <-] [= <-].
    split; [apply not_elem_of_dom, is_fresh|by rewrite lookup_insert_eq].
  - intros l fs f l'. destruct (h !! l0) as [fs0|] eqn:Hl; [|done]. destruct (forallb _ _) eqn:Hfs; [|done].
    intros [= <- _] Hnone Hsome Hf Hp. apply lookup_insert_Some in Hsome as [[_ <-]|[_ ?]]; [|congruence].
    apply (hide_plain _ _ Hfs) in Hf. by rewrite Hp in Hf.
  - intros n. destruct (h !! l0) as [fs|] eqn:Hl; [|done]. destruct (forallb _ _) eqn:Hfs; [|done].
    intros [= <- <-]. destruct n as [|n]; [done|]. simpl. rewrite lookup_insert_eq, Hl. f_equal.
    rewrite <- list_fmap_compose. apply list_fmap_ext. intros i f Hf. unfold compose, hide.
    rewrite forallb_forall in Hfs. assert (is_plain (content f) = true) as Hpl by (apply Hfs, list_elem_of_In; by eapply list_elem_of_lookup_2).
    destruct (exported f) eqn:He; simpl; rewrite ?He; [|done]. destruct (content f), n; done.
Defined.

Definition after (b : bool) (os : list op) : memory := match mem_all b os blank with Some (Return s) => s | _ => blank end.
Definition point : list field := [mkField true (Plain 5); mkField false (Plain 9)].

Lemma after_new : rtc (mem_step true) blank (after true [New Client point]).
Proof. apply rtc_once. exists (New Client point). split; [done|reflexivity]. Qed.

Lemma messages_not_shared_witness : ∃ s', mem_exec true (Request (Ptr 0)) (after true [New Client point]) = Some (Return s') ∧
  (∀ w v own n, w ≠ Client → v ∈ vars w (after true [New Client point]) →
     looks own n (hp s') v = looks own n (hp (after true [New Client point])) v) ∧
  ∃ v', serverChan s' = [(0, v')] ∧ ∀ s2 n, rtc (mem_step true) s' s2 → (0, v') ∈ serverChan s2 →
    looks false n (hp s2) v' = looks false n (hp (after true [New Client point])) (Ptr 0).
Proof.
  destruct (mem_exec true (Request (Ptr 0)) (after true [New Client point])) as [[s'|w]|] eqn:E;
    [|vm_compute in E; discriminate E|vm_compute in E; discriminate E].
  exists s'. split; [reflexivity|].
  destruct (messages_not_shared (after true [New Client point]) (Request (Ptr 0)) s' after_new E) as [Hvars Hsent].
  split; [exact Hvars|]. exact (Hsent (Ptr 0) eq_refl).
Defined.

(** Without copying the server writes the client's struct; with it, its own. *)
Example handler_writes : 
  (λ b, looks true 1 (hp (after b [New Client point; Request (Ptr 0); Handle; Store Server (if b : bool then 1 else 0) 0 (Plain 6)])) (Ptr 0))
    <$> [false; true] =
  [Struct [Leaf (Some 6%Z); Leaf (Some 9%Z)]; Struct [Leaf (Some 5%Z); Leaf (Some 9%Z)]].
Proof. vm_compute. reflexivity. Qed.

(** Replies are never copied: a client that was set to copy gets the server's struct. *)
Example reply_is_shared :
  looks true 1 (hp (after true [New Server point; Reply (Ptr 0); Receive; Store Client 0 0 (Plain 6)])) (Ptr 0) =
  Struct [Leaf (Some 6%Z); Leaf (Some 9%Z)].
Proof. vm_compute. reflexivity. Qed.
