(* ===== verification/Accept.v ===== *)
(** The accepting side of the process transport (chantransportserver.go,
    chantransportclient.go): newConnection of the clients, the goroutine receiver,
    the goroutine of each connection with the callbacks around it, and the closing
    of the transport; each connection is one of ChanTransport. *)
From S2P Require Import Prelude Names Stream Pipe ChanTransport.

Section accept.
Context {Msg : Type} (is_close canHandle is_EOF : Msg → bool) (qsize : nat).

(** [fnOnConnect]: what it answers to a connection, if set; whether [fnOnDisconnect] is set *)
Context (fnOnConnect : option (nat → bool)) (fnOnDisconnect : bool).

(** A call of [newConnection]: waiting to be accepted, accepted as a connection and
    waiting for its channel, or returned *)
Inductive client := Waiting | Accepted (i : nat) | Connected (i : nat).

(** The goroutine of a connection: it has the handshake; it has given the channel;
    [fnOnConnect] took over; it is in its loop; it has returned *)
Inductive phase := Handshaking | Arrived | TakenOver | Serving | Ended.
#[export] Instance phase_eq_dec : EqDecision phase.
Proof. solve_decision. Defined.

(** A connection, with the caller whose handshake it came with *)
Record accepted := mkAccepted { a_client : nat; a_phase : phase; a_conn : conn (Msg := Msg) }.

Inductive event := OnConnect (i : nat) | OnDisconnect (i : nat).

(** [chanTransport], its goroutine, who calls it and its connections *)
Record transport := mkTransport {
  t_closed : bool;
  t_receiving : bool;
  clients : list client;
  conns : list accepted;
  callbacks : list event;
}.

(** [service.newChanTransport] *)
Definition newChanTransport : transport := mkTransport false true [] [] [].

Inductive accept_op :=
| NewConnection                                (* newConnection is called *)
| Accept (c : nat)                             (* hs := <-ct.acceptChan *)
| GiveChan (i : nat)                           (* hs.serverChanInfo <- recvChan *)
| Connect (i : nat)                            (* fnOnConnect *)
| OnConn (i : nat) (o : ChanTransport.op (Msg := Msg)) (* the connection goes on *)
| Disconnect (i : nat)                         (* the deferred function *)
| Close                                        (* close *)
| Stop.                                        (* case <-ct.closed *)

(** Who can act on a connection in a phase *)
Definition may (p : phase) (o : ChanTransport.op (Msg := Msg)) : bool :=
  match o with
  | ClientSend _ | ClientClose | ClientRecv _ => bool_decide (p ≠ Handshaking)
  | HandlerRecv _ | HandlerSend _ _ _ => bool_decide (p = Serving ∨ p = Ended)
  | ServerTake | ServerPut _ | ServerClose | ServerExit => bool_decide (p = Serving)
  end.

Definition set_conn (i : nat) (a : accepted) (t : transport) : transport :=
  mkTransport (t_closed t) (t_receiving t) (clients t) (<[i := a]> (conns t)) (callbacks t).
Definition set_client (c : nat) (x : client) (t : transport) : transport :=
  mkTransport (t_closed t) (t_receiving t) (<[c := x]> (clients t)) (conns t) (callbacks t).
Definition call_back (b : bool) (e : event) (t : transport) : transport :=
  mkTransport (t_closed t) (t_receiving t) (clients t) (conns t) (if b then callbacks t ++ [e] else callbacks t).

Definition accept_exec (o : accept_op) (t : transport) : option (outcome transport) :=
  match o with
  | NewConnection => Some (Return (mkTransport (t_closed t) (t_receiving t) (clients t ++ [Waiting]) (conns t) (callbacks t)))
  | Accept c =>
      match clients t !! c with
      | Some Waiting =>
          if t_receiving t
          then Some (Return (mkTransport (t_closed t) true (<[c := Accepted (length (conns t))]> (clients t))
                               (conns t ++ [mkAccepted c Handshaking newConnection]) (callbacks t)))
          else None
      | _ => None
      end
  | GiveChan i =>
      match conns t !! i with
      | Some (mkAccepted c Handshaking s) => Some (Return (set_client c (Connected i) (set_conn i (mkAccepted c Arrived s) t)))
      | _ => None
      end
  | Connect i =>
      match conns t !! i with
      | Some (mkAccepted c Arrived s) =>
          let p := match fnOnConnect with Some f => if f i then TakenOver else Serving | None => Serving end in
          Some (Return (call_back (bool_decide (is_Some fnOnConnect)) (OnConnect i) (set_conn i (mkAccepted c p s) t)))
      | _ => None
      end
  | OnConn i o =>
      match conns t !! i with
      | Some (mkAccepted c p s) =>
          if may p o
          then match ChanTransport.exec is_close canHandle is_EOF qsize o s with
               | Some (Return s') => Some (Return (set_conn i (mkAccepted c p s') t))
               | Some (Panics w) => Some (Panics w)
               | None => None
               end
          else None
      | None => None
      end
  | Disconnect i =>
      match conns t !! i with
      | Some (mkAccepted c Serving s) =>
          if exited s then Some (Return (call_back fnOnDisconnect (OnDisconnect i) (set_conn i (mkAccepted c Ended s) t))) else None
      | _ => None
      end
  | Close =>
      if t_closed t then Some (Panics (str "close of closed channel"))
      else Some (Return (mkTransport true (t_receiving t) (clients t) (conns t) (callbacks t)))
  | Stop =>
      if t_closed t && t_receiving t
      then Some (Return (mkTransport true false (clients t) (conns t) (callbacks t))) else None
  end.

Definition accept_step (t t' : transport) : Prop := ∃ o, accept_exec o t = Some (Return t').

(** ** What holds on every transport *)

(** The callbacks of a connection in a phase *)
Definition called (i : nat) (p : phase) : list event :=
  let on := if bool_decide (is_Some fnOnConnect) then [OnConnect i] else [] in
  let off := if fnOnDisconnect then [OnDisconnect i] else [] in
  match p with Handshaking | Arrived => [] | TakenOver | Serving => on | Ended => on ++ off end.

Definition about (i : nat) (e : event) : bool :=
  match e with OnConnect j | OnDisconnect j => bool_decide (i = j) end.

(** The goroutine has done nothing. *)
Definition untouched (s : conn (Msg := Msg)) : Prop :=
  effects s = [] ∧ recvChan s = sentLog s ∧ putting s = None ∧ connClose_nil s = false ∧ exited s = false ∧ replyLog s = [].

Definition client_ok (t : transport) (c : nat) (x : client) : Prop :=
  match x with
  | Waiting => True
  | Accepted i => ∃ s, conns t !! i = Some (mkAccepted c Handshaking s)
  | Connected i => ∃ p s, conns t !! i = Some (mkAccepted c p s) ∧ p ≠ Handshaking
  end.

Definition accepted_ok (t : transport) (i : nat) (a : accepted) : Prop :=
  reachable is_close canHandle is_EOF qsize (a_conn a) ∧
  clients t !! a_client a = Some (if bool_decide (a_phase a = Handshaking) then Accepted i else Connected i) ∧
  List.filter (about i) (callbacks t) = called i (a_phase a) ∧
  (a_phase a ≠ Serving → a_phase a ≠ Ended → untouched (a_conn a)) ∧
  (a_phase a = Ended → exited (a_conn a) = true).

Record transport_ok (t : transport) : Prop := mkTransportOk {
  to_accepted : ∀ i a, conns t !! i = Some a → accepted_ok t i a;
  to_client : ∀ c x, clients t !! c = Some x → client_ok t c x;
  to_callbacks : Forall (λ e, match e with OnConnect i | OnDisconnect i => i < length (conns t) end) (callbacks t);
  to_receiving : t_receiving t = false → t_closed t = true;
}.

Lemma transport_ok_new : transport_ok newChanTransport.
Proof. by split. Qed.

Lemma about_other i j e : about i e = true → j ≠ i → about j e = false.
Proof. destruct e; simpl; intros ->%bool_decide_eq_true Hj; by apply bool_decide_eq_false_2. Qed.

Lemma filter_others i j es : Forall (λ e, about i e = true) es → j ≠ i → List.filter (about j) es = [].
Proof.
  intros Hes Hj. induction Hes as [|e es He _ IH]; [done|]. simpl. by rewrite (about_other i j e).
Qed.
Lemma filter_same i es : Forall (λ e, about i e = true) es → List.filter (about i) es = es.
Proof. intros Hes. induction Hes as [|e es He _ IH]; [done|]. simpl. by rewrite He, IH. Qed.

(** A step of connection [i], with the callbacks [es] *)
Lemma accepted_update_ok i a a' es t t' : transport_ok t → conns t !! i = Some a → conns t' = <[i := a']> (conns t) →
  a_client a' = a_client a →
  (clients t' = clients t ∧ (a_phase a' = Handshaking ↔ a_phase a = Handshaking) ∨
   clients t' = <[a_client a := Connected i]> (clients t) ∧ a_phase a = Handshaking ∧ a_phase a' ≠ Handshaking) →
  callbacks t' = callbacks t ++ es → Forall (λ e, about i e = true) es →
  called i (a_phase a') = called i (a_phase a) ++ es →
  reachable is_close canHandle is_EOF qsize (a_conn a') →
  (a_phase a' ≠ Serving → a_phase a' ≠ Ended → untouched (a_conn a')) →
  (a_phase a' = Ended → exited (a_conn a') = true) →
  t_receiving t' = t_receiving t → t_closed t' = t_closed t → transport_ok t'.
Proof.
  intros [H1 H2 H3 H4] Hi Hconns Hcl Hclients Hcb Hes Hcalled Hr Hu He Hrec Hclosed.
  destruct (H1 i a Hi) as (_ & Hc & Hlog & _). pose proof (lookup_lt_Some _ _ _ Hi) as Hlt. split.
  - intros j b. rewrite Hconns. intros [(<- & <- & _)|[Hne Hj]]%list_lookup_insert_Some.
    + split; [done|]. split; [|split; [|done]].
      * rewrite Hcl. destruct Hclients as [[-> Hiff]|(-> & _ & Hp)].
        -- rewrite Hc. by rewrite (bool_decide_ext _ _ Hiff).
        -- rewrite list_lookup_insert_eq by (by eapply lookup_lt_Some). by rewrite bool_decide_eq_false_2.
      * rewrite Hcb, List.filter_app, Hlog, filter_same by done. done.
    + destruct (H1 j b Hj) as (? & Hcj & Hlj & ? & ?). split; [done|]. split; [|split; [|done]].
      * destruct Hclients as [[-> _]|(-> & Hp & _)]; [done|]. rewrite list_lookup_insert_ne; [done|].
        intros Heq. rewrite <- Heq, Hc, Hp in Hcj. rewrite bool_decide_eq_true_2 in Hcj by done. by case_bool_decide; simplify_eq.
      * by rewrite Hcb, List.filter_app, (filter_others i j es), app_nil_r.
  - assert (∀ c x, clients t !! c = Some x → x ≠ Accepted i → client_ok t' c x) as Hother.
    { intros c x Hx Hna. specialize (H2 c x Hx). destruct x as [|j|j]; simpl in *; [done|..].
      - destruct H2 as [s Hs]. exists s. rewrite Hconns, list_lookup_insert_ne; [done|congruence].
      - destruct H2 as (p & s & Hs & Hp). destruct (decide (j = i)) as [->|Hne].
        + rewrite Hi in Hs. injection Hs as ->. destruct a' as [c' p' s']; simpl in *. subst c'.
          exists p', s'. rewrite Hconns, list_lookup_insert_eq by done. split; [done|].
          destruct Hclients as [[_ Hiff]|(_ & Hp' & _)]; [|done]. by rewrite Hiff.
        + exists p, s. by rewrite Hconns, list_lookup_insert_ne. }
    intros c x Hx. destruct Hclients as [[Heq Hiff]|(Heq & Hp & Hp')]; rewrite Heq in Hx.
    + specialize (H2 c x Hx). destruct x as [|j|j]; simpl; [done|..]; destruct (decide (j = i)) as [->|Hne].
      * destruct H2 as [s Hs]. rewrite Hi in Hs. injection Hs as ->. destruct a' as [c' p' s']; simpl in *. subst c'.
        exists s'. rewrite Hconns, list_lookup_insert_eq by done. destruct p'; try done; by destruct (proj2 Hiff eq_refl).
      * apply (Hother c (Accepted j)); [done|congruence].
      * by apply (Hother c (Connected i)).
      * by apply (Hother c (Connected j)).
    + apply list_lookup_insert_Some in Hx as [(<- & <- & _)|[Hne Hx]].
      * destruct a' as [c' p' s']; simpl in *. subst c'. exists p', s'. by rewrite Hconns, list_lookup_insert_eq.
      * specialize (H2 c x Hx). apply Hother; [done|].
        intros ->. destruct H2 as [s Hs]. rewrite Hi in Hs. by injection Hs as ->.
  - rewrite Hcb, Hconns, length_insert. apply Forall_app. split; [done|]. eapply Forall_impl; [exact Hes|].
    intros [j|j]; simpl; by intros ->%bool_decide_eq_true.
  - by rewrite Hrec, Hclosed.
Qed.

(** The clients' operations leave the goroutine's side alone. *)
Lemma untouched_exec p o s s' : p ≠ Serving → p ≠ Ended → may p o = true → untouched s →
  ChanTransport.exec is_close canHandle is_EOF qsize o s = Some (Return s') → untouched s'.
Proof.
  intros H1 H2 Hmay (Ha & Hb & Hc & Hd & He & Hf) Ho. unfold untouched.
  destruct s as [a b r m q e pr x mc en sl rl gl]; simpl in *. subst.
  assert (match o with ClientSend _ | ClientClose | ClientRecv _ => True | _ => False end) as Hcl by (by destruct p, o).
  destruct o; try done; simpl in Ho; repeat (case_match || case_bool_decide); by simplify_eq.
Qed.

(** An operation on a connection that ended finds it ended. *)
Lemma ended_exec o s s' : exited s = true → may Ended o = true →
  ChanTransport.exec is_close canHandle is_EOF qsize o s = Some (Return s') → exited s' = true.
Proof.
  intros Hx Hmay Ho. destruct s as [a b r m q e pr x mc en sl rl gl]; simpl in *. subst.
  destruct o; try done; simpl in Ho; repeat (case_match || case_bool_decide); by simplify_eq.
Qed.

Lemma new_connection_ok t t' : transport_ok t → accept_exec NewConnection t = Some (Return t') → transport_ok t'.
Proof.
  intros Hok Ho. simpl in Ho.
  injection Ho as <-. destruct Hok as [H1 H2 H3 H4]. split; simpl; [|intros c x [Hx|[_ Hx]]%lookup_app_Some|done|done].
  + intros i a Ha. destruct (H1 i a Ha) as (? & ? & ?). split; [done|]. split; [by apply lookup_app_l_Some|done].
  + exact (H2 c x Hx).
  + by apply list_lookup_singleton_Some in Hx as [_ <-].
Qed.

Lemma accept_ok c t t' : transport_ok t → accept_exec (Accept c) t = Some (Return t') → transport_ok t'.
Proof.
  intros Hok Ho. simpl in Ho.
  destruct (clients t !! c) as [[| |]|] eqn:Hc; try done. destruct (t_receiving t) eqn:Hr; [|done]. injection Ho as <-.
  destruct Hok as [H1 H2 H3 H4]. split; simpl; [| | |done].
  + intros i a [Ha|[Hge Ha]]%lookup_app_Some.
    * destruct (H1 i a Ha) as (? & Hcl & ?). split; [done|]. split; [|done]. simpl.
      rewrite list_lookup_insert_ne; [done|]. intros ->. rewrite Hc in Hcl. by case_bool_decide.
    * apply list_lookup_singleton_Some in Ha as [Hz <-]. replace i with (length (conns t)) in * by lia. split_and!; simpl.
      -- apply rtc_refl.
      -- apply list_lookup_insert_eq. by eapply lookup_lt_Some.
      -- induction H3 as [|e es He _ IH]; [done|]. simpl. destruct e as [j|j]; simpl in *;
           (rewrite bool_decide_eq_false_2 by lia; done).
      -- intros _ _. by repeat split.
      -- done.
  + intros d x [(<- & <- & _)|[Hne Hx]]%list_lookup_insert_Some.
    * exists newConnection. simpl. rewrite lookup_app_r by lia. by rewrite Nat.sub_diag.
    * specialize (H2 d x Hx). destruct x; simpl in *; [done|destruct H2 as [s Hs]|destruct H2 as (p & s & Hs & ?)];
        [exists s|exists p, s]; simpl; by rewrite (lookup_app_l_Some _ _ _ _ Hs).
  + eapply Forall_impl; [exact H3|]. intros [j|j]; rewrite length_app; simpl; lia.
Qed.

Lemma accept_exec_ok o t t' : transport_ok t → accept_exec o t = Some (Return t') →
  transport_ok t'.
Proof.
  intros Hok Ho. destruct o as [|c|i|i|i o|i| |]; [by eapply new_connection_ok|by eapply accept_ok|..]; simpl in Ho.
  - destruct (conns t !! i) as [[c [] s]|] eqn:Hi; try done. injection Ho as <-.
    destruct (to_accepted _ Hok i _ Hi) as (Hr & _ & _ & Hu & _). simpl in *.
    eapply (accepted_update_ok i _ (mkAccepted c Arrived s) []); [exact Hok|exact Hi|done|done|..]; simpl; try done.
    + right. by split_and!.
    + by rewrite app_nil_r.
    + intros _ _. by apply Hu.
  - destruct (conns t !! i) as [[c [] s]|] eqn:Hi; try done. injection Ho as <-.
    destruct (to_accepted _ Hok i _ Hi) as (Hr & _ & _ & Hu & _). simpl in *.
    eapply (accepted_update_ok i _ (mkAccepted c _ s) (if bool_decide (is_Some fnOnConnect) then [OnConnect i] else []));
      [exact Hok|exact Hi|done|done|..]; simpl; try done.
    + left. split; [done|]. by destruct fnOnConnect as [f|]; [destruct (f i)|].
    + case_bool_decide; [done|by rewrite app_nil_r].
    + case_bool_decide; [|done]. repeat constructor. simpl. by rewrite bool_decide_eq_true_2.
    + unfold called. destruct fnOnConnect as [f|]; [by destruct (f i)|done].
    + intros _ _. by apply Hu.
    + by destruct fnOnConnect as [f|]; [destruct (f i)|].
  - destruct (conns t !! i) as [[c p s]|] eqn:Hi; [|done]. destruct (may p o) eqn:Hmay; [|done].
    destruct (ChanTransport.exec _ _ _ _ o s) as [[s'|w]|] eqn:Hs; [|done|done]. injection Ho as <-.
    destruct (to_accepted _ Hok i _ Hi) as (Hr & _ & _ & Hu & He). simpl in *.
    eapply (accepted_update_ok i _ (mkAccepted c p s') []); [exact Hok|exact Hi|done|done|..]; simpl; try done.
    + by left.
    + by rewrite app_nil_r.
    + by rewrite app_nil_r.
    + eapply rtc_r; [exact Hr|]. by exists o.
    + intros H1 H2. by eapply untouched_exec; eauto.
    + intros ->. eapply ended_exec; eauto.
  - destruct (conns t !! i) as [[c [] s]|] eqn:Hi; try done. destruct (exited s) eqn:Hx; [|done]. injection Ho as <-.
    destruct (to_accepted _ Hok i _ Hi) as (Hr & _). simpl in *.
    eapply (accepted_update_ok i _ (mkAccepted c Ended s) (if fnOnDisconnect then [OnDisconnect i] else []));
      [exact Hok|exact Hi|done|done|..]; simpl; try done.
    + by left.
    + destruct fnOnDisconnect; [done|by rewrite app_nil_r].
    + destruct fnOnDisconnect; [|done]. repeat constructor. simpl. by rewrite bool_decide_eq_true_2.
  - destruct (t_closed t) eqn:Hc; [done|]. injection Ho as <-. destruct Hok as [H1 H2 H3 H4]. by split.
  - destruct (t_closed t) eqn:Hc; [|done]. destruct (t_receiving t) eqn:Hr; [|done]. injection Ho as <-.
    destruct Hok as [H1 H2 H3 H4]. by split.
Qed.

Lemma reachable_transport t : rtc accept_step newChanTransport t → transport_ok t.
Proof. apply (rtc_invariant accept_step transport_ok); [intros s s' H [o Ho]; by eapply accept_exec_ok|apply transport_ok_new]. Qed.

(** Once the goroutine has returned nobody is accepted. *)
Lemma stopped_step c t t' : t_receiving t = false ∧ clients t !! c = Some Waiting → transport_ok t → accept_step t t' →
  t_receiving t' = false ∧ clients t' !! c = Some Waiting.
Proof.
  intros [Hr Hc] Hok [o Ho]. destruct o as [|d|i|i|i o|i| |]; simpl in Ho.
  - injection Ho as <-. split; [done|]. by apply lookup_app_l_Some.
  - destruct (clients t !! d) as [[| |]|]; try done. by rewrite Hr in Ho.
  - destruct (conns t !! i) as [[d [] s]|] eqn:Hi; try done. injection Ho as <-. split; [done|]. simpl.
    rewrite list_lookup_insert_ne; [done|]. intros ->. destruct (to_accepted _ Hok i _ Hi) as (_ & Hd & _). simpl in Hd. congruence.
  - destruct (conns t !! i) as [[d [] s]|]; try done. by injection Ho as <-.
  - destruct (conns t !! i) as [[d p s]|]; [|done]. destruct (may p o); [|done].
    destruct (ChanTransport.exec _ _ _ _ o s) as [[|]|]; try done. by injection Ho as <-.
  - destruct (conns t !! i) as [[d [] s]|]; try done. destruct (exited s); [|done]. by injection Ho as <-.
  - destruct (t_closed t); [done|]. by injection Ho as <-.
  - rewrite Hr, andb_false_r in Ho. done.
Qed.

Lemma stopped_waits c t t' : transport_ok t → t_receiving t = false → clients t !! c = Some Waiting → rtc accept_step t t' →
  clients t' !! c = Some Waiting.
Proof.
  intros Hok Hr Hc Hrun. enough (t_receiving t' = false ∧ clients t' !! c = Some Waiting) by tauto.
  revert Hrun. apply (rtc_invariant_with accept_step transport_ok (λ t, t_receiving t = false ∧ clients t !! c = Some Waiting)).
  - intros s s' Hs [o Ho]. by eapply accept_exec_ok.
  - intros s s' H1 H2. by apply stopped_step.
  - done.
  - done.
Qed.

(** While it runs whoever waits can be connected. *)
Lemma waiting_connects c t : t_receiving t = true → clients t !! c = Some Waiting →
  ∃ t', rtc accept_step t t' ∧ clients t' !! c = Some (Connected (length (conns t))).
Proof.
  intros Hr Hc. set (i := length (conns t)). pose proof (lookup_lt_Some _ _ _ Hc) as Hlt. eexists. split.
  - eapply rtc_l; [exists (Accept c); simpl; rewrite Hc, Hr; reflexivity|].
    eapply rtc_l; [|apply rtc_refl]. exists (GiveChan i). simpl.
    rewrite lookup_app_r by (unfold i; lia). unfold i. rewrite Nat.sub_diag. reflexivity.
  - simpl. rewrite list_lookup_insert_eq; [done|]. by rewrite length_insert.
Qed.

Lemma taken_over_untouched s : reachable is_close canHandle is_EOF qsize s → untouched s →
  effects s = [] ∧ length (sentLog s) ≤ qsize.
Proof.
  intros Hr%reachable_inv (He & Hs & _). split; [done|]. rewrite <- Hs. exact (inv_recvChan _ _ _ _ Hr).
Qed.
End accept.

(** C23. Every call of newConnection gets at most one connection, which goes on as
    one of ChanTransport also when the transport is closed; fnOnConnect and
    fnOnDisconnect are called once each, around its messages, and a connection that
    fnOnConnect takes over is never read: its client can send as many messages as
    the channel holds, and none is delivered.  A call that waits can return exactly
    while the transport's goroutine runs: once that has returned it waits for ever. *)
Theorem chan_accepts {Msg} (is_close canHandle is_EOF : Msg → bool) qsize fnOnConnect fnOnDisconnect t :
  rtc (accept_step is_close canHandle is_EOF qsize fnOnConnect fnOnDisconnect) newChanTransport t →
  (∀ i a, conns t !! i = Some a →
     reachable is_close canHandle is_EOF qsize (a_conn a) ∧
     clients t !! a_client a = Some (if bool_decide (a_phase a = Handshaking) then Accepted i else Connected i) ∧
     List.filter (about i) (callbacks t) = called fnOnConnect fnOnDisconnect i (a_phase a) ∧
     (a_phase a = TakenOver → effects (a_conn a) = [] ∧ length (sentLog (a_conn a)) ≤ qsize)) ∧
  (∀ c, clients t !! c = Some Waiting →
     (∃ t' i, rtc (accept_step is_close canHandle is_EOF qsize fnOnConnect fnOnDisconnect) t t' ∧
        clients t' !! c = Some (Connected i)) ↔ t_receiving t = true).
Proof.
  intros Hok%reachable_transport. split.
  - intros i a Ha. destruct (to_accepted _ _ _ _ _ _ _ Hok i a Ha) as (Hr & Hc & Hl & Hu & _).
    split; [done|]. split; [done|]. split; [done|]. intros Hp. eapply taken_over_untouched; [done|].
    apply Hu; by rewrite Hp.
  - intros c Hc. split.
    + intros (t' & i & Hrun & Ht'). destruct (t_receiving t) eqn:Hr; [done|].
      pose proof (stopped_waits _ _ _ _ _ _ c t t' Hok Hr Hc Hrun). congruence.
    + intros Hr. destruct (waiting_connects is_close canHandle is_EOF qsize fnOnConnect fnOnDisconnect c t Hr Hc) as (t' & ? & ?).
      eauto.
Qed.

(** Three calls: the first connection sends a message and is closed, the second is
    taken over, and the third call comes as the transport closes. *)
Definition demo_accept (fuel : list (accept_op (Msg := nat))) : transport (Msg := nat) :=
  foldl (λ t o, match accept_exec demo_close demo_known demo_EOF 2 (Some (λ i, bool_decide (i = 1))) true o t with
                | Some (Return t') => t' | _ => t end) newChanTransport fuel.
Definition demo_accept_ops : list (accept_op (Msg := nat)) :=
  [NewConnection; NewConnection; Accept 0; Accept 1; GiveChan 1; GiveChan 0; Connect 0; OnConn 0 (ClientSend (mkTransportMsg 3 7 []));
   Connect 1; OnConn 1 (ClientSend (mkTransportMsg 4 7 [])); OnConn 0 ServerTake; OnConn 0 (ServerPut true); Close; OnConn 0 ClientClose;
   NewConnection; OnConn 0 ServerClose; OnConn 0 ServerExit; Disconnect 0; Stop].

Lemma demo_accept_reachable ops : rtc (accept_step demo_close demo_known demo_EOF 2 (Some (λ i, bool_decide (i = 1))) true)
  newChanTransport (demo_accept ops).
Proof.
  unfold demo_accept. induction ops as [|o ops IH] using rev_ind; [apply rtc_refl|]. rewrite foldl_app. simpl.
  destruct (accept_exec _ _ _ _ _ _ o _) as [[t'|w]|] eqn:Ho; [|done|done]. eapply rtc_r; [exact IH|]. by exists o.
Qed.

Lemma chan_accepts_witness :
  a_phase <$> conns (demo_accept demo_accept_ops) = [Ended; TakenOver] ∧
  callbacks (demo_accept demo_accept_ops) = [OnConnect 0; OnConnect 1; OnDisconnect 0] ∧
  ¬ (∃ t' i, rtc (accept_step demo_close demo_known demo_EOF 2 (Some (λ i, bool_decide (i = 1))) true)
               (demo_accept demo_accept_ops) t' ∧ clients t' !! 2 = Some (Connected i)).
Proof.
  split; [vm_compute; reflexivity|]. split; [vm_compute; reflexivity|].
  intros H. apply (proj2 (chan_accepts demo_close demo_known demo_EOF 2 (Some (λ i, bool_decide (i = 1))) true
    (demo_accept demo_accept_ops) (demo_accept_reachable demo_accept_ops)) 2) in H; [vm_compute in H; discriminate|vm_compute; reflexivity].
Defined.
