(* ===== verification/StreamTransport.v ===== *)
(** The transport over byte connections put together (streamtransportclient.go,
    streamtransportserver.go): the streams of a client encode and frame their
    messages onto one connection, which delivers bytes in any pieces and may be
    cut anywhere; the server reads frames, decodes and dispatches.  That it is a
    transport in the sense of [Pipe]. *)
From S2P Require Import Prelude GoStrings Names Tracing MessageTracer Stream Pipe.

(** The encoding of messages, a third-party package: what it decodes of what it
    encoded is the message, for messages of the types registered with it. *)
Class Codec (Msg : Type) := {
  encode : streamTransportMsg (Msg := Msg) → bytes;
  decode : bytes → decoded (Msg := Msg);
  decode_encode tm : decode (encode tm) = Decoded tm;
}.

(** What a receiver does with what it decodes of a frame: its state, and what it
    hands over.  [is_close]: the messages that are not handed over. *)
Class Reader (Msg R Out : Type) := {
  r_start : R;
  receive : decoded (Msg := Msg) → R → outcome (R * list Out);
  r_close : Msg → bool;
  handed : Z → list Out → list (Msg * transportFeats);
  handed_nil c : handed c [] = [];
  handed_receive tm r r' outs effs c : receive (Decoded tm) r = Return (r', outs) →
    handed c (effs ++ outs) = handed c effs ++ on_stream r_close c [tm];
}.

Section transport.
Context `{!Codec Msg} {R Out : Type} `{!Reader Msg R Out}.

(** One direction of a connection: the bytes at the receiver and those under way,
    whether the connection is cut, and the state of the receiver.  [queued] is not
    in the program: it names the messages whose frames are not read yet. *)
Record link := mkLink {
  inbox : bytes;
  underway : bytes;
  cut : bool;
  reader : R;
  effects : list Out;
  sentLog : list (streamTransportMsg (Msg := Msg));
  queued : list (streamTransportMsg (Msg := Msg));
}.

(** [newStreamConnection], once the handshake is over *)
Definition newLink : link := mkLink [] [] false r_start [] [] [].

Inductive net_op :=
| Send (tm : streamTransportMsg (Msg := Msg)) (* Send of a stream *)
| Deliver (n : nat)                           (* some bytes arrive *)
| ReadFrame                                   (* a round of the receiver *)
| Cut (n : nat).                              (* the connection ends; some bytes are lost *)

(** [streamClientStream.Send] and [streamServerStream.Send], one step: the
    connection is locked around the writing.  Its error leaves everything as it is. *)
Definition send (tm : streamTransportMsg (Msg := Msg)) (s : link) : link * option error :=
  let '(mkLink i u k m e sl q) := s in
  if k then (s, Some EOF)
  else match frame (encode tm) with
       | inr err => (s, Some err)
       | inl buf => (mkLink i (u ++ buf) k m e (sl ++ [tm]) (q ++ [tm]), None)
       end.

(** A panic of the receiver is the end of the process: there is no round. *)
Definition read_round (s : link) : option link :=
  let '(mkLink i u k m e sl q) := s in
  '(bufMsg, _, net) ← read_frame 512 [i];
  match receive (decode bufMsg) m with
  | Return (m, outs) => Some (mkLink (concat net) u k m (e ++ outs) sl (tail q))
  | Panics _ => None
  end.

Definition net_exec (o : net_op) (s : link) : option link :=
  match o with
  | Send tm => Some (send tm s).1
  | Deliver n => let '(mkLink i u k m e sl q) := s in Some (mkLink (i ++ take n u) (drop n u) k m e sl q)
  | ReadFrame => read_round s
  | Cut n => let '(mkLink i u k m e sl q) := s in Some (mkLink i (take n u) true m e sl q)
  end.

Definition link_step (s s' : link) : Prop := ∃ o, net_exec o s = Some s'.

Definition link_pipe (s : link) : pipe (Msg * transportFeats) :=
  shared_pipe r_close (sentLog s) (queued s) (λ c, handed c (effects s)).

(** ** What is on the connection is the frames of the messages queued. *)

Definition frames (l : list (streamTransportMsg (Msg := Msg))) : bytes := concat (wire <$> (encode <$> l)).

Lemma frames_app l k : frames (l ++ k) = frames l ++ frames k.
Proof. unfold frames. by rewrite !fmap_app, concat_app. Qed.
Lemma frames_cons tm l : frames (tm :: l) = wire (encode tm) ++ frames l.
Proof. done. Qed.

Record link_inv (s : link) : Prop := mkLinkInv {
  li_fits : Forall (λ tm, fits (encode tm)) (queued s);
  li_bytes : ∃ lost, inbox s ++ underway s ++ lost = frames (queued s) ∧ (cut s = false → lost = []);
}.

Lemma li_new : link_inv newLink.
Proof. split; try done. by exists []. Qed.

(** A frame read from the connection is that of the oldest message. *)
Lemma read_frame_oldest i rest q bufMsg cap net :
  Forall (λ tm, fits (encode tm)) q → i ++ rest = frames q →
  read_frame 512 [i] = Some (bufMsg, cap, net) →
  ∃ tm q', q = tm :: q' ∧ bufMsg = encode tm ∧ concat net ++ rest = frames q'.
Proof.
  intros Hfit Hi Hread. destruct q as [|tm q].
  { apply app_eq_nil in Hi as [-> ->]. done. }
  apply Forall_cons in Hfit as [Hf _]. rewrite frames_cons in Hi.
  destruct (decide (length i < length (wire (encode tm)))) as [Hlt|Hge].
  - exfalso. rewrite (read_frame_truncated 512 [i] (PutUint32 (Z.of_nat (length (encode tm)))) (encode tm)
      (drop (length i) (wire (encode tm))) (length i)) in Hread; [done|..|by apply wire_size].
    + simpl. rewrite app_nil_r. change (_ ++ encode tm) with (wire (encode tm)).
      apply (f_equal (take (length i))) in Hi. rewrite take_app_length, take_app_le in Hi by lia.
      rewrite Hi at 1. by rewrite take_drop.
    + simpl. by rewrite app_nil_r.
    + exact Hlt.
    + done.
  - exists tm, q. split; [done|].
    assert (Hsplit : i = wire (encode tm) ++ drop (length (wire (encode tm))) i).
    { apply (f_equal (take (length (wire (encode tm))))) in Hi. rewrite take_app_length, take_app_le in Hi by lia.
      rewrite <- Hi at 1. by rewrite take_drop. }
    set (i' := drop _ i) in *.
    destruct (read_frame_bytes 512 [i] (PutUint32 (Z.of_nat (length (encode tm)))) (encode tm) i')
      as (cap' & net' & Hr & Hn & _); [|done|by apply wire_size|].
    { simpl. rewrite app_nil_r. rewrite Hsplit at 1. unfold wire. by rewrite <- app_assoc. }
    rewrite Hr in Hread. injection Hread as <- _ <-. split; [done|]. rewrite Hn.
    rewrite Hsplit, <- app_assoc in Hi. by apply app_inv_head in Hi.
Qed.

Lemma send_spec tm s :
  (send tm s).1 = s ∧ (send tm s).2 ≠ None ∨
  fits (encode tm) ∧ cut s = false ∧ send tm s =
    (mkLink (inbox s) (underway s ++ wire (encode tm)) false (reader s) (effects s) (sentLog s ++ [tm]) (queued s ++ [tm]), None).
Proof.
  destruct s as [i u k m e sl q]; simpl. destruct k; [by left|]. unfold frame.
  case_bool_decide as Hf; [by left|]. right. split; [unfold fits; lia|done].
Qed.

Lemma li_step s s' : link_inv s → link_step s s' → link_inv s'.
Proof.
  intros Hi [[tm|n| |n] Ho]; simpl in Ho.
  - injection Ho as <-. destruct (send_spec tm s) as [[-> _]|(Hf & Hk & ->)]; [done|].
    destruct Hi as [H1 (lost & H2 & H3)]. split; simpl; [apply Forall_app; split; [done|by constructor]|].
    exists []. split; [|done]. rewrite frames_app, <- H2, (H3 Hk), !app_nil_r. unfold frames; simpl.
    by rewrite app_nil_r, <- app_assoc.
  - destruct s as [i u k m e sl q]. injection Ho as <-. destruct Hi as [H1 (lost & H2 & H3)]; split; try done.
    exists lost. split; [|done]. simpl in *. rewrite <- H2, <- app_assoc. by rewrite (app_assoc (take n u)), take_drop.
  - destruct s as [i u k m e sl q]. unfold read_round in Ho.
    destruct (read_frame 512 [i]) as [[[bufMsg cap] net]|] eqn:Hr; [|done]. simpl in Ho.
    destruct Hi as [H1 (lost & H2 & H3)]; simpl in *.
    destruct (read_frame_oldest i (u ++ lost) q _ _ _ H1 H2 Hr) as (tm & q' & -> & -> & Hq').
    rewrite decode_encode in Ho. destruct (receive (Decoded tm) m) as [[m' outs]|] eqn:Hh; [|done].
    injection Ho as <-. split; simpl; [by apply Forall_cons in H1 as [_ ?]|by exists lost].
  - destruct s as [i u k m e sl q]. injection Ho as <-. destruct Hi as [H1 (lost & H2 & H3)]; split; try done.
    exists (drop n u ++ lost). split; [|done]. simpl in *. rewrite <- H2. by rewrite (app_assoc (take n u)), take_drop.
Qed.

Lemma reachable_li s : rtc link_step newLink s → link_inv s.
Proof. apply (rtc_invariant link_step link_inv); [apply li_step|apply li_new]. Qed.

(** ** The transport *)

Lemma link_simulates s s' : rtc link_step newLink s → link_step s s' →
  link_pipe s' ≡ link_pipe s ∨ pipe_step (link_pipe s) (link_pipe s').
Proof.
  intros Hi%reachable_li [[tm|n| |n] Ho]; simpl in Ho.
  - injection Ho as <-. destruct (send_spec tm s) as [[-> _]|(_ & _ & ->)]; [by left|]. apply shared_push.
  - left. destruct s. by injection Ho as <-.
  - destruct s as [i u k m e sl q]. unfold read_round in Ho.
    destruct (read_frame 512 [i]) as [[[bufMsg cap] net]|] eqn:Hr; [|done]. simpl in Ho.
    destruct Hi as [H1 (lost & H2 & H3)]; simpl in *.
    destruct (read_frame_oldest i (u ++ lost) q _ _ _ H1 H2 Hr) as (tm & q' & -> & -> & Hq').
    rewrite decode_encode in Ho. destruct (receive (Decoded tm) m) as [[m' outs]|] eqn:Hh; [|done].
    injection Ho as <-. unfold link_pipe; simpl. apply shared_pop. intros c. by apply (handed_receive tm m m').
  - left. destruct s. by injection Ho as <-.
Qed.

Lemma link_start : link_pipe newLink ≡ empty_pipe.
Proof. intros c. split_and!; [done..|apply handed_nil]. Qed.

#[export] Instance link_transport : Transport (Msg * transportFeats) link := {|
  t_init := newLink; t_step := link_step; t_pipe := link_pipe; t_start := link_start;
  t_simulates := link_simulates;
|}.

(** ** Everything arrives on a connection that is not cut. *)

(** The rounds that read what has arrived *)
Fixpoint read_rounds (n : nat) (s : link) : link :=
  match n with
  | 0 => s
  | S n => match read_round s with Some s' => read_rounds n s' | None => s end
  end.

Lemma read_rounds_steps n s : rtc link_step s (read_rounds n s).
Proof.
  revert s; induction n as [|n IH]; intros s; [done|]. simpl. destruct (read_round s) as [s'|] eqn:Hs; [|done].
  eapply rtc_l; [|apply IH]. by exists ReadFrame.
Qed.

Lemma read_rounds_all s : (∀ tm r, tm ∈ queued s → ∃ x, receive (Decoded tm) r = Return x) →
  Forall (λ tm, fits (encode tm)) (queued s) → inbox s = frames (queued s) →
  queued (read_rounds (length (queued s)) s) = [] ∧ sentLog (read_rounds (length (queued s)) s) = sentLog s.
Proof.
  destruct s as [i u k m e sl q]; simpl. revert i m e. induction q as [|tm q IH]; intros i m e Hl Hf Hi; [done|].
  simpl. apply Forall_cons in Hf as [Hf Hq].
  destruct (read_frame_bytes 512 [i] (PutUint32 (Z.of_nat (length (encode tm)))) (encode tm) (frames q))
    as (cap' & net' & Hr & Hn & _); [|done|by apply wire_size|].
  { simpl. rewrite app_nil_r, Hi, frames_cons. unfold wire. by rewrite <- app_assoc. }
  rewrite Hr. simpl. rewrite decode_encode. destruct (Hl tm m) as [[m' outs] ->]; [by left|].
  apply IH; [|done..]. intros tm' r' Hin. apply Hl. by right.
Qed.
(** A receiver that does not panic gets everything. *)
Lemma link_drains s : rtc link_step newLink s → (∀ tm r, ∃ x, receive (Decoded tm) r = Return x) → cut s = false →
  ∃ s', rtc link_step s s' ∧ ∀ c, handed c (effects s') = on_stream r_close c (sentLog s).
Proof.
  intros Hr Hlive Hk. destruct (reachable_li s Hr) as [Hfit (lost & Hb & Hl)].
  rewrite (Hl Hk), app_nil_r in Hb. destruct s as [i u k m e sl q]; simpl in *.
  set (s1 := mkLink (i ++ take (length u) u) (drop (length u) u) k m e sl q).
  assert (Hs1 : link_step (mkLink i u k m e sl q) s1) by (by exists (Deliver (length u))).
  destruct (read_rounds_all s1) as [Hq Hsl]; [by intros; apply Hlive|done|by simpl; rewrite firstn_all|].
  assert (Hrun := rtc_l _ _ _ _ Hs1 (read_rounds_steps (length (queued s1)) s1)).
  exists (read_rounds (length (queued s1)) s1). split; [exact Hrun|]. intros c.
  assert (Hf := transport_fifo (H := link_transport) _ (transitivity Hr Hrun) c). revert Hf Hq Hsl.
  generalize (read_rounds (length (queued s1)) s1). intros s2 Hf Hq Hsl.
  simpl in Hf, Hsl. by rewrite Hsl, Hq, app_nil_r in Hf.
Qed.
End transport.

(** ** The server's receiver *)
Section server.
Context {Msg : Type} (is_close canHandle : Msg → bool).

Lemma server_receive tm r r' outs effs c : handle_message is_close canHandle (Decoded tm) r = (r', outs) →
  handed_over c (effs ++ outs) = handed_over c effs ++ on_stream is_close c [tm].
Proof.
  intros Hh. rewrite handed_over_app. f_equal. apply (handle_message_spec is_close canHandle _ _ _ _ c Hh).
Qed.

(** [handleConn] *)
#[export] Program Instance server_reader : Reader Msg (gset Z) (dispatched (Msg := Msg)) := {|
  r_start := ∅;
  receive d ssMap := Return (handle_message is_close canHandle d ssMap);
  r_close := is_close;
  handed := handed_over;
|}.
Next Obligation. done. Qed.
Next Obligation. intros tm r r' outs effs c [= Hh]. by apply (server_receive tm r r'). Qed.

(** A connection as the server reads it *)
Abbreviation server_link := (link (Msg := Msg) (R := gset Z) (Out := dispatched (Msg := Msg))).

Definition server_inv (s : server_link) : Prop :=
  Forall (sorted_out is_close canHandle) (effects s) ∧
  ∀ more, disciplined (reader s) more → disciplined ∅ (effects s ++ more).

Definition server_start : server_link := newLink (Reader0 := server_reader).
Definition server_step `{!Codec Msg} : relation server_link := link_step (Reader0 := server_reader).
Definition server_pipe : server_link → pipe (Msg * transportFeats) := link_pipe (Reader0 := server_reader).

Lemma server_inv_step `{!Codec Msg} s s' : server_inv s → server_step s s' → server_inv s'.
Proof.
  intros [H1 H2] [[tm|n| |n] Ho]; destruct s as [i u k m e sl q]; simpl in Ho.
  - injection Ho as <-. destruct k; [by split|]. by destruct (frame (encode tm)).
  - by injection Ho as <-.
  - destruct (read_frame 512 [i]) as [[[bufMsg cap] net]|] eqn:Hr; [|done]. simpl in Ho.
    destruct (handle_message is_close canHandle (decode bufMsg) m) as [m' outs] eqn:Hh. injection Ho as <-.
    destruct (handle_message_spec is_close canHandle _ _ _ _ 0%Z Hh) as (_ & Hs & Hd).
    split; simpl; [by apply Forall_app|]. intros more Hm. rewrite <- app_assoc. by apply H2, Hd.
  - by injection Ho as <-.
Qed.

Lemma reachable_server `{!Codec Msg} s : rtc server_step server_start s → server_inv s.
Proof. apply (rtc_invariant server_step server_inv); [apply server_inv_step|by split]. Qed.
End server.

(** C10. The byte transport is a pipe for each stream as well: however the bytes
    are cut into pieces, and wherever the connection is cut, each stream hands over
    a prefix of what was sent on it, in order, sorted between the queue and the
    private channel, between its opening and its closing; and as long as the
    connection is not cut, delivering the bytes and reading the frames hands over
    everything. *)
Theorem stream_refines_pipe {Msg} `{!Codec Msg} (is_close canHandle : Msg → bool) s :
  rtc (server_step is_close canHandle) (server_start is_close canHandle) s →
  (∃ p, rtc pipe_step empty_pipe p ∧ server_pipe is_close canHandle s ≡ p) ∧
  (∀ c, ∃ l, on_stream is_close c (sentLog s) = handed_over c (effects s) ++ l) ∧
  Forall (sorted_out is_close canHandle) (effects s) ∧ disciplined ∅ (effects s) ∧
  (cut s = false → ∃ s', rtc (server_step is_close canHandle) s s' ∧
     ∀ c, handed_over c (effects s') = on_stream is_close c (sentLog s)).
Proof.
  intros Hr. set (R := server_reader is_close canHandle). set (T := link_transport (Reader0 := R)).
  destruct (reachable_server _ _ _ Hr) as [Hs Hd]. split_and!; [| |done|..].
  - apply (transport_run (H := T) s Hr).
  - intros c. eexists. apply (transport_fifo (H := T) s Hr).
  - rewrite <- (app_nil_r (effects s)). by apply Hd.
  - intros Hk. destruct (link_drains (Reader0 := R) s Hr) as (s' & Hrun & Hq); [by intros; eexists|done|].
    exists s'. split; [exact Hrun|]. intros c. apply (Hq c).
Qed.

(** ** Witness: the messages are of any countable type, a byte for each bit *)
Section countable.
Context {Msg : Type} `{Countable Msg}.

Fixpoint pos_bytes (p : positive) : bytes :=
  match p with xH => [] | xO p => "0"%char :: pos_bytes p | xI p => "1"%char :: pos_bytes p end.
Fixpoint bytes_pos (l : bytes) : positive :=
  match l with [] => xH | c :: l => if bool_decide (c = "1"%char) then xI (bytes_pos l) else xO (bytes_pos l) end.

Lemma bytes_pos_bytes p : bytes_pos (pos_bytes p) = p.
Proof. induction p as [p IH|p IH|]; simpl; by rewrite ?IH. Qed.

#[export] Program Instance countable_codec : Codec Msg := {|
  encode tm := pos_bytes (countable.encode (chanID tm, tm_msg tm, tm_feats tm));
  decode l := match countable.decode (A := Z * Msg * transportFeats) (bytes_pos l) with
              | Some (c, msg, tfs) => Decoded (mkTransportMsg c msg tfs)
              | None => DecodeFailed 0
              end;
|}.
Next Obligation. intros [c msg tfs]; simpl. by rewrite bytes_pos_bytes, countable.decode_encode. Qed.
End countable.

(** Two streams send; the bytes arrive in two pieces, and the connection is cut
    inside the third frame. *)
Definition demo_is_close (m : bool) : bool := false.
Definition demo_canHandle (m : bool) : bool := m.
Definition demo_ops : list (net_op (Msg := bool)) :=
  [Send (mkTransportMsg 7 true []); Send (mkTransportMsg 8 false []); Deliver 5; ReadFrame; Send (mkTransportMsg 7 false []);
   Deliver 30; ReadFrame; ReadFrame; Cut 1; Send (mkTransportMsg 8 true [])].
#[local] Abbreviation demo_reader := (server_reader demo_is_close demo_canHandle).
Definition demo_link : link (Msg := bool) (R := gset Z) (Out := dispatched (Msg := bool)) :=
  foldl (λ s o, default s (net_exec (Reader0 := demo_reader) o s)) (newLink (Reader0 := demo_reader)) demo_ops.

Lemma demo_link_reachable : rtc (server_step demo_is_close demo_canHandle) (server_start demo_is_close demo_canHandle) demo_link.
Proof.
  unfold demo_link. generalize demo_ops. intros ops.
  generalize (rtc_refl (server_step demo_is_close demo_canHandle) (server_start demo_is_close demo_canHandle)).
  change (newLink (Reader0 := demo_reader)) with (server_start demo_is_close demo_canHandle).
  generalize (server_start demo_is_close demo_canHandle) at 2 4. induction ops as [|o ops IH]; intros s Hs; [done|]. apply IH.
  destruct (net_exec (Reader0 := demo_reader) o s) as [s'|] eqn:Ho; [|done].
  eapply rtc_r; [exact Hs|]. by exists o.
Qed.

Lemma stream_refines_pipe_witness :
  length (sentLog demo_link) = 3 ∧ cut demo_link = true ∧ handed_over 7 (effects demo_link) = [(true, [])] ∧
  ∃ l, on_stream demo_is_close 7 (sentLog demo_link) = handed_over 7 (effects demo_link) ++ l.
Proof.
  split; [vm_compute; reflexivity|]. split; [vm_compute; reflexivity|]. split; [vm_compute; reflexivity|].
  exact (proj1 (proj2 (stream_refines_pipe demo_is_close demo_canHandle demo_link demo_link_reachable)) 7%Z).
Defined.
