(* ===== verification/SendLock.v ===== *)
(** Concurrent calls of Send on one connection (streamtransportclient.go,
    streamtransportserver.go): each stream has an encoder whose buffer the next
    encoding reuses; the flag encMainCopy lets one call at a time use it, the others
    take a copy of the encoder, and the mutex of the connection orders the writes.
    That a call writes its frame whole, whatever runs meanwhile, which is the one
    step [send] of StreamTransport.  A call here is past its test of the connection
    and has its message with the tracing ID; after a write that fails the kernel
    fails every later one on the connection. *)
From S2P Require Import Prelude Names Tracing Stream Pipe StreamTransport.

#[local] Arguments PutUint32 : simpl never.
#[local] Arguments wire : simpl never.

Section sends.
Context `{!Codec Msg}.

(** Where a call is; [main]: it has the stream's own encoder.  [bufMsg] is a copy
    of its own, or the first [len] bytes of the buffer of the stream's encoder. *)
Inductive pc :=
| Started
| Chosen (main : bool)
| Encoded (main : bool) (own : bytes) (len : nat)
| Writing (main : bool) (own : bytes) (len written : nat)
| Written (main : bool) (err : option error)
| Released (err : option error)
| Done (err : option error).

Record call := mkCall { c_stream : nat; c_msg : streamTransportMsg (Msg := Msg); c_pc : pc }.

(** A connection: the streams whose [encMainCopy] is set, the buffers of their
    encoders, who holds the mutex, what was written, and whether a write failed.
    [completed] is not in the program: the calls whose frame is written, in order. *)
Record conn := mkConn {
  calls : list call;
  encMainCopy : gset nat;
  encBuf : gmap nat bytes;
  mutex : option nat;
  out : bytes;
  broken : bool;
  completed : list (nat * streamTransportMsg (Msg := Msg));
}.

Definition newConn : conn := mkConn [] ∅ ∅ None [] false [].

Inductive op :=
| Call (st : nat) (tm : streamTransportMsg (Msg := Msg))
| CompareAndSwap (i : nat)
| Encode (i : nat)
| Lock (i : nat)
| Write (i n : nat)               (* some bytes of [net.Buffers.WriteTo] *)
| WriteFails (i : nat) (err : error)
| Release (i : nat)               (* the deferred function *)
| Unlock (i : nat).

(** The slice [bufMsg] *)
Definition slice (c : call) (main : bool) (own : bytes) (len : nat) (s : conn) : bytes :=
  if main then take len (encBuf s !!! c_stream c) else own.

(** The buffer of an encoder after an encoding *)
Definition overwrite (old new : bytes) : bytes := new ++ drop (length new) old.

Definition set_pc (i : nat) (c : call) (p : pc) (s : conn) : conn :=
  mkConn (<[i := mkCall (c_stream c) (c_msg c) p]> (calls s)) (encMainCopy s) (encBuf s) (mutex s) (out s) (broken s) (completed s).

Definition exec (o : op) (s : conn) : option conn :=
  match o with
  | Call st tm => Some (mkConn (calls s ++ [mkCall st tm Started]) (encMainCopy s) (encBuf s) (mutex s) (out s) (broken s) (completed s))
  | CompareAndSwap i =>
      c ← calls s !! i;
      match c_pc c with
      | Started =>
          let main := bool_decide (c_stream c ∉ encMainCopy s) in
          let s := set_pc i c (Chosen main) s in
          Some (mkConn (calls s) ({[c_stream c]} ∪ encMainCopy s) (encBuf s) (mutex s) (out s) (broken s) (completed s))
      | _ => None
      end
  | Encode i =>
      c ← calls s !! i;
      match c_pc c with
      | Chosen main =>
          let buf := encode (c_msg c) in
          let s := set_pc i c (if bool_decide (Z.of_nat (length buf) > MaxInt32)%Z then Done (Some ErrMsgTooLarge)
                               else Encoded main (if main then [] else buf) (length buf)) s in
          Some (mkConn (calls s) (encMainCopy s)
                  (if main then <[c_stream c := overwrite (encBuf s !!! c_stream c) buf]> (encBuf s) else encBuf s)
                  (mutex s) (out s) (broken s) (completed s))
      | _ => None
      end
  | Lock i =>
      c ← calls s !! i;
      match c_pc c, mutex s with
      | Encoded main own len, None =>
          let s := set_pc i c (Writing main own len 0) s in
          Some (mkConn (calls s) (encMainCopy s) (encBuf s) (Some i) (out s) (broken s) (completed s))
      | _, _ => None
      end
  | Write i n =>
      c ← calls s !! i;
      match c_pc c with
      | Writing main own len written =>
          if broken s then None
          else
            let buf := PutUint32 (Z.of_nat len) ++ slice c main own len s in
            let chunk := take n (drop written buf) in
            let s := if bool_decide (written + length chunk < length buf)
                     then set_pc i c (Writing main own len (written + length chunk)) s
                     else let s := set_pc i c (Written main None) s in
                          mkConn (calls s) (encMainCopy s) (encBuf s) (mutex s) (out s) (broken s) (completed s ++ [(i, c_msg c)]) in
            Some (mkConn (calls s) (encMainCopy s) (encBuf s) (mutex s) (out s ++ chunk) (broken s) (completed s))
      | _ => None
      end
  | WriteFails i err =>
      c ← calls s !! i;
      match c_pc c with
      | Writing main _ _ _ =>
          let s := set_pc i c (Written main (Some err)) s in
          Some (mkConn (calls s) (encMainCopy s) (encBuf s) (mutex s) (out s) true (completed s))
      | _ => None
      end
  | Release i =>
      c ← calls s !! i;
      match c_pc c with
      | Written main err =>
          let s := set_pc i c (Released err) s in
          Some (mkConn (calls s) (if main then encMainCopy s ∖ {[c_stream c]} else encMainCopy s) (encBuf s) (mutex s) (out s) (broken s) (completed s))
      | _ => None
      end
  | Unlock i =>
      c ← calls s !! i;
      match c_pc c with
      | Released err =>
          let s := set_pc i c (Done err) s in
          Some (mkConn (calls s) (encMainCopy s) (encBuf s) None (out s) (broken s) (completed s))
      | _ => None
      end
  end.

Definition step (s s' : conn) : Prop := ∃ o, exec o s = Some s'.

(** ** What holds on every connection *)

Definition main_of (p : pc) : bool :=
  match p with Chosen m | Encoded m _ _ | Writing m _ _ _ | Written m _ => m | _ => false end.
Definition holds (p : pc) : bool :=
  match p with Writing _ _ _ _ | Written _ _ | Released _ => true | _ => false end.
Definition wrote (p : pc) : bool :=
  match p with Written _ None | Released None | Done None => true | _ => false end.

(** The slice of a call is its message, encoded. *)
Definition slice_ok (s : conn) (c : call) : Prop :=
  match c_pc c with
  | Encoded main own len =>
      slice c main own len s = encode (c_msg c) ∧ len = length (encode (c_msg c)) ∧ fits (encode (c_msg c))
  | Writing main own len k =>
      slice c main own len s = encode (c_msg c) ∧ len = length (encode (c_msg c)) ∧ fits (encode (c_msg c)) ∧
      k < length (wire (encode (c_msg c)))
  | _ => True
  end.

(** What the holder of the mutex has written of its frame *)
Definition partial (s : conn) : bytes :=
  match mutex s ≫= λ i, calls s !! i with
  | Some (mkCall _ tm (Writing _ _ _ k)) => take k (wire (encode tm))
  | _ => []
  end.

Definition messages (s : conn) : list (streamTransportMsg (Msg := Msg)) := (completed s).*2.

(** After the frames of the calls that completed comes part of one frame. *)
Definition out_ok (s : conn) : Prop :=
  ∃ part, out s = frames (messages s) ++ part ∧ (broken s = false → part = partial s) ∧
    (part = [] ∨ ∃ tm rest, fits (encode tm) ∧ wire (encode tm) = part ++ rest ∧ rest ≠ []).

Record conn_ok (s : conn) : Prop := mkConnOk {
  co_busy : ∀ i c, calls s !! i = Some c → main_of (c_pc c) = true → c_stream c ∈ encMainCopy s;
  co_one : ∀ i j c d, calls s !! i = Some c → calls s !! j = Some d → main_of (c_pc c) = true → main_of (c_pc d) = true →
    c_stream c = c_stream d → i = j;
  co_slice : ∀ i c, calls s !! i = Some c → slice_ok s c;
  co_holds : ∀ i c, calls s !! i = Some c → holds (c_pc c) = true → mutex s = Some i;
  co_mutex : ∀ i, mutex s = Some i → ∃ c, calls s !! i = Some c ∧ holds (c_pc c) = true;
  co_log : ∀ i tm, (i, tm) ∈ completed s ↔ ∃ c, calls s !! i = Some c ∧ c_msg c = tm ∧ wrote (c_pc c) = true;
  co_nodup : NoDup (completed s).*1;
  co_fits : Forall (λ tm, fits (encode tm)) (messages s);
  co_out : out_ok s;
}.

Lemma conn_ok_new : conn_ok newConn.
Proof.
  split; try done.
  - intros i tm. split; [by intros ?%not_elem_of_nil|by intros (c & Hc & _)].
  - apply NoDup_nil_2.
  - exists []. split_and!; [done|done|by left].
Qed.

(** A step of call [i] to [p] *)
Section update.
Context (s s' : conn) (i : nat) (c : call) (p : pc).
Context (Hok : conn_ok s) (Hi : calls s !! i = Some c)
  (Hcalls : calls s' = <[i := mkCall (c_stream c) (c_msg c) p]> (calls s)).

Lemma update_cases j d : calls s' !! j = Some d →
  j = i ∧ d = mkCall (c_stream c) (c_msg c) p ∨ j ≠ i ∧ calls s !! j = Some d.
Proof. rewrite Hcalls. intros [(<- & <- & _)|[Hne Hj]]%list_lookup_insert_Some; auto. Qed.

Lemma update_here : calls s' !! i = Some (mkCall (c_stream c) (c_msg c) p).
Proof. rewrite Hcalls. apply list_lookup_insert_eq. by eapply lookup_lt_Some. Qed.
Lemma update_there j : j ≠ i → calls s' !! j = calls s !! j.
Proof. intros Hne. rewrite Hcalls. by apply list_lookup_insert_ne. Qed.

Lemma wrote_after j tm : (∃ d, calls s' !! j = Some d ∧ c_msg d = tm ∧ wrote (c_pc d) = true) ↔
  j = i ∧ c_msg c = tm ∧ wrote p = true ∨ j ≠ i ∧ ∃ d, calls s !! j = Some d ∧ c_msg d = tm ∧ wrote (c_pc d) = true.
Proof.
  split.
  - intros (d & [[-> ->]|[Hne Hj]]%update_cases & Hm & Hd); [by left|right; eauto].
  - intros [(-> & Hm & Hd)|(Hne & d & Hj & Hm & Hd)]; [eexists; split; [apply update_here|done]|exists d; by rewrite update_there].
Qed.
Lemma wrote_before tm : (∃ d, calls s !! i = Some d ∧ c_msg d = tm ∧ wrote (c_pc d) = true) ↔ c_msg c = tm ∧ wrote (c_pc c) = true.
Proof. rewrite Hi. split; [by intros (d & [= ->] & ?)|intros [? ?]; by exists c]. Qed.

Lemma partial_there : mutex s' = mutex s → mutex s ≠ Some i → partial s' = partial s.
Proof.
  intros Hm Hne. unfold partial. rewrite Hm. destruct (mutex s) as [j|]; [|done]. simpl. rewrite update_there; [done|].
  congruence.
Qed.

Lemma call_update_ok :
  (∀ j d, j ≠ i → calls s !! j = Some d → main_of (c_pc d) = true →
     c_stream d ∈ encMainCopy s' ∧ encBuf s' !!! c_stream d = encBuf s !!! c_stream d) →
  (main_of p = true → c_stream c ∈ encMainCopy s' ∧
     (main_of (c_pc c) = false → ∀ j d, calls s !! j = Some d → main_of (c_pc d) = true → c_stream d ≠ c_stream c)) →
  slice_ok s' (mkCall (c_stream c) (c_msg c) p) →
  (mutex s' = mutex s ∧ holds p = holds (c_pc c) ∨ mutex s = None ∧ mutex s' = Some i ∧ holds p = true ∨
   mutex s = Some i ∧ mutex s' = None ∧ holds p = false) →
  (completed s' = completed s ∧ wrote p = wrote (c_pc c) ∨
   completed s' = completed s ++ [(i, c_msg c)] ∧ wrote (c_pc c) = false ∧ wrote p = true ∧ fits (encode (c_msg c))) →
  out_ok s' → conn_ok s'.
Proof.
  intros Hbusy Hmain Hslice Hmutex Hlog Hout. destruct Hok as [H1 H2 H3 H4 H5 H6 H7 H8 H9].
  assert (∀ j d, calls s !! j = Some d → main_of (c_pc d) = true → main_of p = true → c_stream c = c_stream d → j = i) as Hone.
  { intros j d Hj Hd Hp He. destruct (main_of (c_pc c)) eqn:Hc; [by eapply (H2 j i)|].
    destruct (Hmain Hp) as [_ Hn]. by destruct (Hn eq_refl j d Hj Hd). }
  split.
  - intros j d [[-> ->]|[Hne Hj]]%update_cases Hd; [by apply Hmain|by eapply (Hbusy j)].
  - intros j k d e [[-> ->]|[Hne Hj]]%update_cases [[-> ->]|[Hne' Hk]]%update_cases Hd He Hs; simpl in *; eauto.
  - intros j d [[-> ->]|[Hne Hj]]%update_cases; [done|]. specialize (H3 j d Hj). unfold slice_ok in *.
    destruct d as [st tm [| | [] |[] | | |]]; try done; simpl in *; destruct (Hbusy j _ Hne Hj eq_refl) as [_ Hb]; simpl in Hb; by rewrite Hb.
  - intros j d [[-> ->]|[Hne Hj]]%update_cases Hd; simpl in Hd.
    + destruct Hmutex as [[-> Heq]|[(_ & -> & _)|(_ & _ & ?)]]; [|done|congruence]. apply (H4 i c Hi). congruence.
    + pose proof (H4 j d Hj Hd). destruct Hmutex as [[-> _]|[(? & _ & _)|(? & _ & _)]]; congruence.
  - intros j Hj. destruct Hmutex as [[Heq Hh]|[(_ & Heq & Hh)|(_ & Heq & _)]]; [|by injection (eq_trans (eq_sym Heq) Hj) as <-; eexists; split; [apply update_here|]|congruence].
    destruct (H5 j) as (d & Hd & Hhd); [congruence|]. destruct (decide (j = i)) as [->|Hne].
    + eexists. split; [apply update_here|]. simpl. congruence.
    + exists d. by rewrite update_there.
  - intros j tm. rewrite wrote_after. pose proof (wrote_before tm) as Hw.
    destruct Hlog as [[-> Heq]|(-> & Hc & Hp & _)]; rewrite ?elem_of_app, H6, ?list_elem_of_singleton.
    + rewrite Heq. destruct (decide (j = i)) as [->|Hne]; [rewrite Hw; clear|clear -Hne]; naive_solver.
    + rewrite Hp. destruct (decide (j = i)) as [->|Hne]; [rewrite Hw, Hc; clear|clear -Hne]; naive_solver.
  - destruct Hlog as [[-> _]|(-> & Hc & _)]; [done|]. rewrite fmap_app. apply NoDup_app. split; [done|]. split; [|apply NoDup_singleton].
    intros j Hj ->%list_elem_of_singleton. apply list_elem_of_fmap in Hj as ([k tm] & Hk & Hin). simpl in Hk. subst k.
    apply H6 in Hin as (d & Hd & _ & Hwd). congruence.
  - unfold messages in *. destruct Hlog as [[-> _]|(-> & _ & _ & Hf)]; [done|]. rewrite fmap_app. apply Forall_app. split; [done|by apply Forall_singleton].
  - done.
Qed.
End update.

Lemma out_same (s s' : conn) : out s' = out s → broken s' = broken s → completed s' = completed s → partial s' = partial s →
  out_ok s → out_ok s'.
Proof. intros Ho Hb Hc Hp (part & H1 & H2 & H3). exists part. unfold messages. rewrite Ho, Hb, Hc, Hp. by split_and!. Qed.

Lemma no_mutex s i c : conn_ok s → calls s !! i = Some c → holds (c_pc c) = false → mutex s ≠ Some i.
Proof. intros Hok Hi Hh (d & Hd & ?)%(co_mutex _ Hok). congruence. Qed.

(** Some other call of the stream has the encoder, or none. *)
Lemma cas_ok i s s' : conn_ok s → exec (CompareAndSwap i) s = Some s' → conn_ok s'.
Proof.
  intros Hok He. simpl in He. destruct (calls s !! i) as [c|] eqn:Hi; [|done]. simpl in He.
  destruct (c_pc c) eqn:Hp; try done. injection He as <-.
  eapply (call_update_ok s _ i c); [exact Hok|exact Hi|reflexivity|..]; simpl.
  - intros j d _ Hj Hd. split; [|done]. pose proof (co_busy _ Hok j d Hj Hd). set_solver.
  - intros Hb%bool_decide_eq_true. split; [set_solver|]. intros _ j d Hj Hd Heq. pose proof (co_busy _ Hok j d Hj Hd). congruence.
  - done.
  - left. by rewrite Hp.
  - left. by rewrite Hp.
  - eapply out_same; [..|exact (co_out _ Hok)]; try done. eapply partial_there; [done..|].
    eapply no_mutex; [done..|by rewrite Hp].
Qed.

Lemma take_overwrite old new : take (length new) (overwrite old new) = new.
Proof. unfold overwrite. by rewrite take_app_length. Qed.

Lemma encode_ok i s s' : conn_ok s → exec (Encode i) s = Some s' → conn_ok s'.
Proof.
  intros Hok He. simpl in He. destruct (calls s !! i) as [c|] eqn:Hi; [|done]. simpl in He.
  destruct (c_pc c) as [|main| | | | |] eqn:Hp; try done. injection He as <-.
  eapply (call_update_ok s _ i c); [exact Hok|exact Hi|reflexivity|..]; simpl.
  - intros j d Hne Hj Hd. split; [by eapply co_busy|]. destruct main; [|done].
    rewrite lookup_total_insert_ne; [done|]. intros Heq. apply Hne. eapply (co_one _ Hok j i d c); [done..|by rewrite Hp|done].
  - case_bool_decide; [done|]. simpl. intros ->. split; [eapply co_busy; [done..|by rewrite Hp]|by rewrite Hp].
  - case_bool_decide as Hl; [done|]. unfold slice_ok, slice. simpl. split_and!; [|done|unfold fits; lia].
    destruct main; [|done]. rewrite lookup_total_insert_eq. apply take_overwrite.
  - left. rewrite Hp. by case_bool_decide.
  - left. rewrite Hp. by case_bool_decide.
  - eapply out_same; [..|exact (co_out _ Hok)]; try done. eapply partial_there; [done..|].
    eapply no_mutex; [done..|by rewrite Hp].
Qed.

Lemma wire_nonempty msg : 0 < length (wire msg).
Proof. unfold wire. rewrite length_app, length_PutUint32. lia. Qed.

Lemma lock_ok i s s' : conn_ok s → exec (Lock i) s = Some s' → conn_ok s'.
Proof.
  intros Hok He. simpl in He. destruct (calls s !! i) as [c|] eqn:Hi; [|done]. simpl in He.
  destruct (c_pc c) as [| |main own len| | | |] eqn:Hp; try done. destruct (mutex s) eqn:Hm; [done|]. injection He as <-.
  eapply (call_update_ok s _ i c); [exact Hok|exact Hi|reflexivity|..]; simpl.
  - intros j d Hne Hj Hd. split; [by eapply co_busy|done].
  - intros ->. split; [eapply co_busy; [done..|by rewrite Hp]|by rewrite Hp].
  - pose proof (co_slice _ Hok i c Hi) as Hs. unfold slice_ok, slice in *. rewrite Hp in Hs. simpl in *.
    destruct Hs as (? & ? & ?). split_and!; try done. apply wire_nonempty.
  - right; left. by rewrite Hm.
  - left. by rewrite Hp.
  - eapply out_same; [..|exact (co_out _ Hok)]; try done. unfold partial. simpl. rewrite Hm.
    rewrite list_lookup_insert_eq by (by eapply lookup_lt_Some). done.
Qed.

(** The call that writes is the one whose frame is begun. *)
Lemma partial_here s i c main own len k : mutex s = Some i → calls s !! i = Some c → c_pc c = Writing main own len k →
  partial s = take k (wire (encode (c_msg c))).
Proof. intros Hm Hi Hp. unfold partial. rewrite Hm. simpl. rewrite Hi. destruct c; simpl in *. by subst. Qed.

Lemma write_ok i n s s' : conn_ok s → exec (Write i n) s = Some s' → conn_ok s'.
Proof.
  intros Hok He. unfold exec in He. destruct (calls s !! i) as [c|] eqn:Hi; [|done]. cbn [mbind option_bind] in He.
  destruct (c_pc c) as [| | |main own len k| | |] eqn:Hp; try done. destruct (broken s) eqn:Hb; [done|].
  pose proof (co_slice _ Hok i c Hi) as Hs. unfold slice_ok in Hs. rewrite Hp in Hs. destruct Hs as (Hs & -> & Hf & Hk).
  rewrite Hs in He. change (PutUint32 _ ++ encode _) with (wire (encode (c_msg c))) in He.
  set (w := wire (encode (c_msg c))) in *. set (chunk := take n (drop k w)) in *.
  pose proof (co_holds _ Hok i c Hi) as Hm. rewrite Hp in Hm. specialize (Hm eq_refl).
  assert (take k w ++ chunk = take (k + length chunk) w) as Htake.
  { unfold chunk. rewrite take_take_drop, length_take, length_drop.
    destruct (Nat.le_ge_cases n (length w - k)); [f_equal; lia|by rewrite !take_ge by lia]. }
  clearbody chunk. assert (length w = 4 + length (encode (c_msg c))) as Hwl by done.
  destruct (co_out _ Hok) as (part & Hout & Hpart & _). specialize (Hpart Hb). rewrite (partial_here s i c main own (length (encode (c_msg c))) k) in Hpart by done.
  fold w in Hpart. subst part. injection He as <-. case_bool_decide as Hlt.
  - eapply (call_update_ok s _ i c); [exact Hok|exact Hi|reflexivity|..]; simpl.
    + intros j d Hne Hj Hd. split; [by eapply co_busy|done].
    + intros ->. split; [eapply co_busy; [done..|by rewrite Hp]|by rewrite Hp].
    + unfold slice_ok. simpl. split_and!; [|done|done|done]. exact Hs.
    + left. by rewrite Hp.
    + left. by rewrite Hp.
    + exists (take (k + length chunk) w). unfold messages. simpl. rewrite Hout, <- app_assoc. rewrite Htake. split_and!; [done| |].
      * intros _. erewrite (partial_here _ i (mkCall (c_stream c) (c_msg c) (Writing main own (length (encode (c_msg c))) (k + length chunk))));
          [done|exact Hm|by apply list_lookup_insert_eq; eapply lookup_lt_Some|done].
      * right. exists (c_msg c), (drop (k + length chunk) w). fold w. rewrite take_drop. split_and!; [done|done|].
        intros Hd%(f_equal length). rewrite length_drop in Hd. simpl in Hd. lia.
  - assert (take k w ++ chunk = w) as Hw by (rewrite Htake; apply take_ge; lia).
    eapply (call_update_ok s _ i c); [exact Hok|exact Hi|reflexivity|..]; simpl.
    + intros j d Hne Hj Hd. split; [by eapply co_busy|done].
    + intros ->. split; [eapply co_busy; [done..|by rewrite Hp]|by rewrite Hp].
    + done.
    + left. by rewrite Hp.
    + right. by rewrite Hp.
    + exists []. unfold messages. simpl. rewrite Hout, <- app_assoc, Hw, fmap_app, frames_app, app_nil_r. split_and!; [| |by left].
      * simpl. rewrite frames_cons. unfold frames. simpl. by rewrite app_nil_r.
      * intros _. unfold partial. simpl. rewrite Hm. simpl.
        by rewrite list_lookup_insert_eq by (by eapply lookup_lt_Some).
Qed.

Lemma fails_ok i err s s' : conn_ok s → exec (WriteFails i err) s = Some s' → conn_ok s'.
Proof.
  intros Hok He. simpl in He. destruct (calls s !! i) as [c|] eqn:Hi; [|done]. simpl in He.
  destruct (c_pc c) as [| | |main own len k| | |] eqn:Hp; try done. injection He as <-.
  eapply (call_update_ok s _ i c); [exact Hok|exact Hi|reflexivity|..]; simpl.
  - intros j d Hne Hj Hd. split; [by eapply co_busy|done].
  - intros ->. split; [eapply co_busy; [done..|by rewrite Hp]|by rewrite Hp].
  - done.
  - left. by rewrite Hp.
  - left. by rewrite Hp.
  - destruct (co_out _ Hok) as (part & Hout & _ & Hor). exists part. by split_and!.
Qed.

(** Between the last byte and the unlock nothing of a frame is begun. *)
Lemma partial_done s i c : mutex s = Some i → calls s !! i = Some c →
  match c_pc c with Written _ _ | Released _ => True | _ => False end → partial s = [].
Proof. intros Hm Hi Hp. unfold partial. rewrite Hm. simpl. rewrite Hi. destruct c as [st tm []]; simpl in *; done. Qed.

Lemma release_ok i s s' : conn_ok s → exec (Release i) s = Some s' → conn_ok s'.
Proof.
  intros Hok He. simpl in He. destruct (calls s !! i) as [c|] eqn:Hi; [|done]. simpl in He.
  destruct (c_pc c) as [| | | |main err| |] eqn:Hp; try done. injection He as <-.
  pose proof (co_holds _ Hok i c Hi) as Hm. rewrite Hp in Hm. specialize (Hm eq_refl).
  eapply (call_update_ok s _ i c); [exact Hok|exact Hi|reflexivity|..]; simpl.
  - intros j d Hne Hj Hd. split; [|done]. pose proof (co_busy _ Hok j d Hj Hd). destruct main; [|done].
    enough (c_stream d ≠ c_stream c) by set_solver. intros Heq. apply Hne.
    eapply (co_one _ Hok j i d c); [done..|by rewrite Hp|done].
  - done.
  - done.
  - left. by rewrite Hp.
  - left. rewrite Hp. by destruct err.
  - eapply out_same; [..|exact (co_out _ Hok)]; try done. rewrite (partial_done s i c) by (by rewrite ?Hp).
    eapply partial_done; [exact Hm|by apply list_lookup_insert_eq; eapply lookup_lt_Some|done].
Qed.

Lemma unlock_ok i s s' : conn_ok s → exec (Unlock i) s = Some s' → conn_ok s'.
Proof.
  intros Hok He. simpl in He. destruct (calls s !! i) as [c|] eqn:Hi; [|done]. simpl in He.
  destruct (c_pc c) as [| | | | |err|] eqn:Hp; try done. injection He as <-.
  pose proof (co_holds _ Hok i c Hi) as Hm. rewrite Hp in Hm. specialize (Hm eq_refl).
  eapply (call_update_ok s _ i c); [exact Hok|exact Hi|reflexivity|..]; simpl.
  - intros j d Hne Hj Hd. split; [by eapply co_busy|done].
  - done.
  - done.
  - right; right. done.
  - left. rewrite Hp. by destruct err.
  - eapply out_same; [..|exact (co_out _ Hok)]; try done. by rewrite (partial_done s i c) by (by rewrite ?Hp).
Qed.

Lemma send_exec_ok o s s' : conn_ok s → exec o s = Some s' → conn_ok s'.
Proof.
  intros Hok. destruct o as [st tm|i|i|i|i n|i err|i|i];
    [|by apply cas_ok|by apply encode_ok|by apply lock_ok|by apply write_ok|by apply fails_ok|by apply release_ok|by apply unlock_ok].
  simpl. intros [= <-].
  assert (∀ j c, (calls s ++ [mkCall st tm Started]) !! j = Some c →
    calls s !! j = Some c ∨ c = mkCall st tm Started) as Hnew.
  { intros j c [Hj|[_ Hj]]%lookup_app_Some; [by left|]. right. by apply list_lookup_singleton_Some in Hj as [_ <-]. }
  assert (∀ j c, calls s !! j = Some c → (calls s ++ [mkCall st tm Started]) !! j = Some c) as Hold.
  { intros j c Hj. by apply lookup_app_l_Some. }
  destruct Hok as [H1 H2 H3 H4 H5 H6 H7 H8 H9]. split; simpl; try done.
  - intros j c [Hj| ->]%Hnew; [by eapply H1|done].
  - intros j k c d [Hj| ->]%Hnew [Hk| ->]%Hnew; [by eapply H2|done..].
  - intros j c [Hj| ->]%Hnew; [exact (H3 j c Hj)|done].
  - intros j c [Hj| ->]%Hnew; [by eapply H4|done].
  - intros j (c & Hc & Hh)%H5. eauto.
  - intros j tm'. rewrite H6. split; [intros (c & Hc & ?); eauto|].
    intros (c & [Hc| ->]%Hnew & ? & ?); [by exists c|done].
  - eapply out_same; [..|exact H9]; try done. unfold partial. simpl. destruct (mutex s) as [j|] eqn:Hm; [|done].
    simpl. destruct (H5 j eq_refl) as (c & Hc & _). by rewrite Hc, (Hold _ _ Hc).
Qed.

Lemma reachable_conn s : rtc step newConn s → conn_ok s.
Proof. apply (rtc_invariant step conn_ok); [intros s1 s2 H [o Ho]; by eapply send_exec_ok|apply conn_ok_new]. Qed.

(** What completed stays, in its order. *)
Lemma exec_completed o s s' : exec o s = Some s' → completed s `prefix_of` completed s'.
Proof.
  intros He. destruct o as [st tm|i|i|i|i n|i err|i|i]; unfold exec in He; [by injection He as <-|..];
    (destruct (calls s !! i) as [c|]; [|done]); cbn [mbind option_bind] in He; destruct (c_pc c); try done;
    try (by injection He as <-); [destruct (mutex s); [done|by injection He as <-]|].
  destruct (broken s); [done|]. injection He as <-. simpl. case_bool_decide; [done|]. by eexists.
Qed.

Lemma completed_grows s s' : rtc step s s' → completed s `prefix_of` completed s'.
Proof. induction 1 as [|s s1 s2 [o Ho] _ IH]; [done|]. etrans; [by eapply exec_completed|done]. Qed.

(** The sends of the one-step model *)
Lemma send_all `{!Reader Msg R Out} tms : ∀ l : link (R := R) (Out := Out),
  cut l = false → Forall (λ tm, fits (encode tm)) tms →
  ∃ l', rtc link_step l l' ∧ sentLog l' = sentLog l ++ tms ∧ underway l' = underway l ++ frames tms ∧ cut l' = false.
Proof.
  induction tms as [|tm tms IH]; intros l Hl Hf.
  { exists l. unfold frames. simpl. by rewrite !app_nil_r. }
  apply Forall_cons in Hf as [Htm Hf]. destruct (IH (send tm l).1) as (l' & Hr & Hs & Hu & Hc); [|done|].
  - destruct (send_spec tm l) as [[-> _]|(_ & _ & ->)]; done.
  - exists l'. split_and!; [|..|done].
    + eapply rtc_l; [by exists (Send tm)|done].
    + rewrite Hs. destruct l as [i u k m e sl q]. simpl in *. subst k. rewrite frame_fits by done. simpl. by rewrite <- app_assoc.
    + rewrite Hu. destruct l as [i u k m e sl q]. simpl in *. subst k. rewrite frame_fits by done. simpl.
      by rewrite frames_cons, <- app_assoc.
Qed.

(** What the peer reads of a connection is the messages completed. *)
Lemma read_all_completed s net : conn_ok s → concat net = out s → read_all net = encode <$> messages s.
Proof.
  intros Hok Hnet. destruct (co_out _ Hok) as (part & Hout & _ & Hor). rewrite Hout in Hnet.
  assert (Forall fits (encode <$> messages s)) as Hf by (apply Forall_fmap; apply co_fits; done).
  destruct Hor as [->|(tm & rest & Hfit & Hw & Hrest)].
  - rewrite app_nil_r in Hnet. by apply (frames_read _ _ Hf).
  - by eapply (frames_read_cut (encode <$> messages s) net part (encode tm) rest).
Qed.
End sends.

(** C6. Refinement: however the calls of Send on a connection interleave, on one
    stream or several, the connection carries whole frames, each the encoding of
    the message of its call though the encoders' buffers are shared: the peer reads
    exactly the messages of the calls that completed, each once, in an order that
    only grows; which is what the one-step [send] of StreamTransport gives. *)
Theorem sends_are_atomic {Msg R Out} `{!Codec Msg} `{!Reader Msg R Out} (s : conn (Msg := Msg)) : rtc step newConn s →
  (∀ net, concat net = out s → read_all net = encode <$> messages s) ∧
  NoDup (completed s).*1 ∧
  (∀ i tm, (i, tm) ∈ completed s ↔ ∃ c, calls s !! i = Some c ∧ c_msg c = tm ∧ wrote (c_pc c) = true) ∧
  (∀ s', rtc step s s' → completed s `prefix_of` completed s') ∧
  (∃ l : link (R := R) (Out := Out), rtc link_step newLink l ∧ sentLog l = messages s ∧
     (mutex s = None → broken s = false → underway l = out s)).
Proof.
  intros Hok%reachable_conn. split_and!.
  - intros net. by apply read_all_completed.
  - apply co_nodup, Hok.
  - apply co_log, Hok.
  - apply completed_grows.
  - destruct (send_all (messages s) newLink) as (l & Hl & Hs & Hu & _); [done|apply co_fits, Hok|].
    exists l. split_and!; [done|done|]. intros Hm Hb. destruct (co_out _ Hok) as (part & Hout & Hpart & _).
    rewrite Hu, Hout, (Hpart Hb). unfold partial. rewrite Hm. by rewrite app_nil_r.
Qed.

(** Two calls on one stream: the second takes a copy of the encoder and is done
    first; the first is half way through its frame. *)
Definition racing_ops : list (op (Msg := bool)) :=
  [Call 7 (mkTransportMsg 7 true []); Call 7 (mkTransportMsg 7 false []); CompareAndSwap 0; CompareAndSwap 1; Encode 0;
   Encode 1; Lock 1; Write 1 3; Write 1 100; Release 1; Unlock 1; Lock 0; Write 0 5].
Definition racing : conn (Msg := bool) := foldl (λ s o, default s (exec o s)) newConn racing_ops.

Lemma racing_reachable : rtc step newConn racing.
Proof.
  unfold racing. generalize racing_ops. intros ops. generalize (rtc_refl (step (Msg := bool)) newConn).
  generalize (newConn (Msg := bool)) at 2 4. induction ops as [|o ops IH]; intros s Hs; [done|]. apply IH.
  destruct (exec o s) as [s'|] eqn:Ho; [|done]. eapply rtc_r; [exact Hs|]. by exists o.
Qed.

Lemma sends_are_atomic_witness :
  c_pc <$> calls racing = [Writing true [] 12 5; Done None] ∧
  read_all [out racing] = [encode (mkTransportMsg 7 false [])].
Proof.
  split; [vm_compute; reflexivity|].
  rewrite (proj1 (sends_are_atomic (R := gset Z) (Out := dispatched (Msg := bool))
    (Reader0 := server_reader demo_is_close demo_canHandle) racing racing_reachable) [out racing]);
    [vm_compute; reflexivity|apply app_nil_r].
Defined.
