(* ===== verification/Duplex.v ===== *)
(** The two transports in both directions: the connections of the process, and
    those over bytes, where the client's receiver puts the replies into the channels
    of the streams (streamtransportclient.go), from which [Recv] takes them. *)
From S2P Require Import Prelude GoStrings Names Tracing MessageTracer Stream Pipe ChanTransport StreamTransport.

(** ** The process transport *)

Section chan.
Context {Msg : Type} (is_close canHandle is_EOF : Msg → bool) (qsize : nat).
Abbreviation reachable := (ChanTransport.reachable is_close canHandle is_EOF qsize).
Abbreviation step := (ChanTransport.step is_close canHandle is_EOF qsize).

(** The replies of a connection *)
Definition back_pipe (s : conn (Msg := Msg)) : pipe (Msg * transportFeats) :=
  mkPipe (λ c, replies c (replyLog s)) (λ c, lookup_chan c (msgChans s)) (λ c, replies c (gotLog s)).

Lemma chan_duplex_step s s' : reachable s → step s s' →
  (pipe_step (conn_pipe is_close s) (conn_pipe is_close s') ∧ back_pipe s' ≡ back_pipe s) ∨
  (conn_pipe is_close s' ≡ conn_pipe is_close s ∧ (back_pipe s' ≡ back_pipe s ∨ pipe_step (back_pipe s) (back_pipe s'))).
Proof.
  intros Hr Hs. pose proof (step_pipe is_close canHandle is_EOF qsize s s' Hr Hs) as Hout.
  assert (back_pipe s' ≡ back_pipe s ∨ (conn_pipe is_close s' ≡ conn_pipe is_close s ∧ pipe_step (back_pipe s) (back_pipe s')))
    as [Hb|[Ho Hb]]; [|destruct Hout; tauto|tauto].
  clear Hout Hr. destruct Hs as [o Ho], s as [a b r m p e pr x mc en sl rl gl].
  destruct o; unfold exec, client_Send, client_Close, server_take, server_put, server_close, server_exit in Ho.
  1,2,4,5,6,7: left; repeat (case_match || case_bool_decide); by simplify_eq.
  - simpl in Ho. case_bool_decide; [injection Ho as <-; by left|].
    destruct (lookup_chan c mc) as [|mm l] eqn:Hl; [done|]. injection Ho as <-. right. split; [done|].
    apply (Pop _ _ c mm l); simpl; [done|done|..]; intros c'.
    + apply lookup_chan_insert.
    + rewrite replies_app, replies_one. case_decide; subst; by rewrite ?app_nil_r.
  - left. simpl in Ho. destruct b; [by injection Ho as <-|]. destruct (lookup_chan c pr); [done|]. by injection Ho as <-.
  - simpl in Ho. destruct b; [injection Ho as <-; by left|]. case_bool_decide; [|done]. injection Ho as <-.
    right. split; [done|]. apply (Push _ _ c (m0, tfs)); simpl; [..|done]; intros c'.
    + rewrite replies_app, replies_one. case_decide; subst; by rewrite ?app_nil_r.
    + apply lookup_chan_insert.
Qed.

#[export] Instance chan_duplex : Duplex (Msg * transportFeats) conn := {|
  dx_init := newConnection; dx_step := step; dx_out := conn_pipe is_close; dx_back := back_pipe;
  dx_start := conj (λ c, conj eq_refl (conj eq_refl eq_refl)) (λ c, conj eq_refl (conj eq_refl eq_refl));
  dx_simulates := chan_duplex_step;
|}.
End chan.

(** ** The byte transport *)

Section bytes.
Context {Msg : Type} `{!Codec Msg} (is_close canHandle : Msg → bool) (decErr : Msg).

(** The client's [receiver], which hands each message to the channel it names *)
Definition client_put (d : decoded (Msg := Msg)) (_ : unit) : outcome (unit * list (Z * (Msg * transportFeats))) :=
  '(c, msg, tfs) ← client_receive decErr d; Return (tt, [(c, (msg, tfs))]).

Lemma client_put_one tm r r' outs effs c : client_put (Decoded tm) r = Return (r', outs) →
  replies c (effs ++ outs) = replies c effs ++ on_stream (λ _, false) c [tm].
Proof.
  unfold client_put, client_receive. case_bool_decide; [|done]. intros [= <- <-].
  by rewrite replies_app, replies_one, on_stream_one.
Qed.

#[export] Instance client_reader : Reader Msg unit (Z * (Msg * transportFeats)) := {|
  r_start := tt; receive := client_put; r_close _ := false; handed := replies;
  handed_nil c := eq_refl; handed_receive := client_put_one;
|}.

Abbreviation client_link := (link (Msg := Msg) (R := unit) (Out := Z * (Msg * transportFeats))).

(** A connection: the requests under way, the replies under way, and the replies
    the streams of the client took out of their channels *)
Record byteConn := mkByteConn {
  up : link (Msg := Msg) (R := gset Z) (Out := dispatched (Msg := Msg));
  down : client_link;
  received : list (Z * (Msg * transportFeats));
}.

Definition newByteConn : byteConn := mkByteConn (server_start is_close canHandle) newLink [].

(** The channel [msgChan] of a stream *)
Definition msgChan (s : byteConn) (c : Z) : list (Msg * transportFeats) :=
  drop (length (replies c (received s))) (replies c (effects (down s))).

Definition byte_Recv (c : Z) (s : byteConn) : option byteConn :=
  match msgChan s c with
  | [] => None
  | mm :: _ => Some (mkByteConn (up s) (down s) (received s ++ [(c, mm)]))
  end.

Inductive byte_step (s s' : byteConn) : Prop :=
| UpStep u : server_step is_close canHandle (up s) u → s' = mkByteConn u (down s) (received s) → byte_step s s'
| DownStep d : link_step (down s) d → s' = mkByteConn (up s) d (received s) → byte_step s s'
| RecvStep c : byte_Recv c s = Some s' → byte_step s s'.

Definition replies_pipe (s : byteConn) : pipe (Msg * transportFeats) :=
  let p := link_pipe (down s) in
  mkPipe (pushed p) (λ c, msgChan s c ++ flight p c) (λ c, replies c (received s)).

Record byte_inv (s : byteConn) : Prop := mkByteInv {
  bi_up : rtc (server_step is_close canHandle) (server_start is_close canHandle) (up s);
  bi_down : rtc link_step newLink (down s);
  bi_taken : ∀ c, length (replies c (received s)) ≤ length (replies c (effects (down s)));
}.

(** What the client's receiver put stays put. *)
Lemma down_grows d d' c : rtc link_step newLink d → link_step d d' →
  length (replies c (effects d)) ≤ length (replies c (effects d')).
Proof.
  intros Hr Hs. destruct (link_simulates d d' Hr Hs) as [E|[c0 m H1 H2 H3|c0 m l H0 H1 H2 H3]].
  - destruct (E c) as (_ & _ & E'). simpl in E'. by rewrite E'.
  - specialize (H3 c). simpl in H3. by rewrite H3.
  - specialize (H3 c). simpl in H3. rewrite H3. case_decide; subst; rewrite ?length_app; lia.
Qed.

Lemma byte_inv_step s s' : byte_inv s → byte_step s s' → byte_inv s'.
Proof.
  intros [H1 H2 H3] [u Hu ->|d Hd ->|c Hc].
  - split; simpl; [by eapply rtc_r|done..].
  - split; simpl; [done|by eapply rtc_r|]. intros c. pose proof (down_grows _ _ c H2 Hd). specialize (H3 c). lia.
  - unfold byte_Recv in Hc. destruct (msgChan s c) as [|mm l] eqn:Hl; [done|]. injection Hc as <-.
    split; simpl; [done..|]. intros c'. rewrite replies_app, replies_one. case_decide as Hc; subst; [|by rewrite app_nil_r].
    apply (f_equal length) in Hl. unfold msgChan in Hl. rewrite length_drop in Hl. rewrite length_app. simpl in *. lia.
Qed.

Lemma byte_reachable s : rtc byte_step newByteConn s → byte_inv s.
Proof. apply (rtc_invariant byte_step byte_inv); [apply byte_inv_step|by split]. Qed.

(** A step of the replies' link is a push, or moves a message into its channel. *)
Lemma down_step s d : byte_inv s → link_step (down s) d →
  let s' := mkByteConn (up s) d (received s) in
  replies_pipe s' ≡ replies_pipe s ∨ pipe_step (replies_pipe s) (replies_pipe s').
Proof.
  intros [_ H2 H3] Hd. destruct (link_simulates _ _ H2 Hd) as [E|[c0 m H5 H6 H7|c0 m l H0 H5 H6 H7]].
  - left. intros c. destruct (E c) as (E1 & E2 & E3). simpl in *. unfold msgChan; simpl. by rewrite E1, E2, E3.
  - right. apply (Push _ _ c0 m); intros c; [apply H5| |done]. specialize (H6 c). specialize (H7 c). simpl in *.
    unfold msgChan; simpl. rewrite H6, H7. case_decide; subst; by rewrite ?app_assoc.
  - left. intros c. specialize (H5 c). specialize (H6 c). specialize (H7 c). specialize (H3 c). simpl in *. split_and!; [done| |done].
    unfold msgChan; simpl. rewrite H6, H7. case_decide; subst; [|done].
    rewrite drop_app_le by done. rewrite <- app_assoc. simpl. by rewrite <- H0.
Qed.

Lemma recv_step c s s' : byte_Recv c s = Some s' → pipe_step (replies_pipe s) (replies_pipe s').
Proof.
  unfold byte_Recv. destruct (msgChan s c) as [|mm l] eqn:Hl; [done|]. intros [= <-].
  apply (Pop _ _ c mm (l ++ flight (link_pipe (down s)) c)); simpl; [by rewrite Hl|done|..]; intros c'.
  - unfold msgChan in *; simpl in *. rewrite replies_app, replies_one. case_decide; subst; [|by rewrite app_nil_r].
    rewrite length_app, <- drop_drop, Hl. done.
  - rewrite replies_app, replies_one. case_decide; subst; by rewrite ?app_nil_r.
Qed.

Lemma byte_duplex_step s s' : rtc byte_step newByteConn s → byte_step s s' →
  (pipe_step (server_pipe is_close canHandle (up s)) (server_pipe is_close canHandle (up s')) ∧ replies_pipe s' ≡ replies_pipe s) ∨
  (server_pipe is_close canHandle (up s') ≡ server_pipe is_close canHandle (up s) ∧
   (replies_pipe s' ≡ replies_pipe s ∨ pipe_step (replies_pipe s) (replies_pipe s'))).
Proof.
  intros Hi%byte_reachable [u Hu ->|d Hd ->|c Hc].
  - destruct (link_simulates (Reader0 := server_reader is_close canHandle) _ _ (bi_up s Hi) Hu) as [E|Hp]; [right|left]; split; try done.
    by left.
  - right. split; [done|]. by apply down_step.
  - right. split; [|right; by apply (recv_step c)]. unfold byte_Recv in Hc. destruct (msgChan s c); [done|]. by injection Hc as <-.
Qed.

#[export] Instance byte_duplex : Duplex (Msg * transportFeats) byteConn := {|
  dx_init := newByteConn; dx_step := byte_step; dx_out s := server_pipe is_close canHandle (up s); dx_back := replies_pipe;
  dx_start := conj (λ c, conj eq_refl (conj eq_refl eq_refl)) (λ c, conj eq_refl (conj eq_refl eq_refl));
  dx_simulates := byte_duplex_step;
|}.
End bytes.
