(* ===== verification/Rpc.v ===== *)
(** Calls: many connections, each with its streams, share the queue of one server
    (message.go, scalamsgq.go, streamtransportserver.go, chantransportserver.go).
    A client's [SendRecv] sends a request and waits for the reply; the request goes
    through the transport, the queue and a worker, whose reply comes back on the
    stream.  The transports are those of an interface; the queue is that of [MsgQ]. *)
From S2P Require Import Prelude GoStrings Names Tracing MessageTracer MsgQ Stream Pipe ChanTransport Duplex.

(** ** What is seen of a stream *)

(** The requests sent and delivered, the replies sent and received *)
Record view (M : Type) := mkView { calls : list M; delivered : list M; answers : list M; results : list M }.
Arguments mkView {M}.
Arguments calls {M}.
Arguments delivered {M}.
Arguments answers {M}.
Arguments results {M}.

Definition view_of `{Duplex M St} (n : St) (c : Z) : view M :=
  mkView (pushed (dx_out n) c) (arrived (dx_out n) c) (pushed (dx_back n) c) (arrived (dx_back n) c).

Definition add_call {M} (m : M) (v : view M) := mkView (calls v ++ [m]) (delivered v) (answers v) (results v).
Definition add_delivered {M} (m : M) (v : view M) := mkView (calls v) (delivered v ++ [m]) (answers v) (results v).
Definition add_answer {M} (m : M) (v : view M) := mkView (calls v) (delivered v) (answers v ++ [m]) (results v).

Section views.
Context `{D : Duplex M St}.
Implicit Types (n : St) (c : Z) (m : M).

Lemma view_start c : view_of dx_init c = mkView [] [] [] [].
Proof. unfold view_of. destruct dx_start as [H1 H2], (H1 c) as (-> & _ & ->), (H2 c) as (-> & _ & ->). done. Qed.

(** A list is not its own extension. *)
Lemma app_one_ne {A} (l : list A) x : l ≠ l ++ [x].
Proof. intros H%(f_equal length). rewrite length_app in H. simpl in H. lia. Qed.

(** One more request, one more delivered, one more reply: everything else is the
    same. *)
Lemma view_call n n' c m : rtc dx_step dx_init n → dx_step n n' →
  calls (view_of n' c) = calls (view_of n c) ++ [m] → ∀ c',
  view_of n' c' = if decide (c' = c) then add_call m (view_of n c') else view_of n c'.
Proof.
  intros Hr Hs Hc c'. unfold view_of, add_call, add_delivered, add_answer in *; simpl in *.
  destruct (dx_simulates n n' Hr Hs) as [[[c0 m0 H1 H2 H3|c0 m0 l H0 H1 H2 H3] E]|[E _]].
  - destruct (E c') as (-> & _ & ->). rewrite H3, H1. rewrite H1 in Hc.
    case_decide; [subst c0|by apply app_one_ne in Hc].
    apply app_inv_head in Hc as [= ->]. by case_decide; subst.
  - rewrite H1 in Hc. by apply app_one_ne in Hc.
  - destruct (E c) as (E1 & _). rewrite E1 in Hc. by apply app_one_ne in Hc.
Qed.

Lemma view_deliver n n' c m : rtc dx_step dx_init n → dx_step n n' →
  delivered (view_of n' c) = delivered (view_of n c) ++ [m] → ∀ c',
  view_of n' c' = if decide (c' = c) then add_delivered m (view_of n c') else view_of n c'.
Proof.
  intros Hr Hs Hc c'. unfold view_of, add_call, add_delivered, add_answer in *; simpl in *.
  destruct (dx_simulates n n' Hr Hs) as [[[c0 m0 H1 H2 H3|c0 m0 l H0 H1 H2 H3] E]|[E _]].
  - rewrite H3 in Hc. by apply app_one_ne in Hc.
  - destruct (E c') as (-> & _ & ->). rewrite H3, H1. rewrite H3 in Hc.
    case_decide; [subst c0|by apply app_one_ne in Hc].
    apply app_inv_head in Hc as [= ->]. by case_decide; subst.
  - destruct (E c) as (_ & _ & E1). rewrite E1 in Hc. by apply app_one_ne in Hc.
Qed.

Lemma view_answer n n' c m : rtc dx_step dx_init n → dx_step n n' →
  answers (view_of n' c) = answers (view_of n c) ++ [m] → ∀ c',
  view_of n' c' = if decide (c' = c) then add_answer m (view_of n c') else view_of n c'.
Proof.
  intros Hr Hs Hc c'. unfold view_of, add_call, add_delivered, add_answer in *; simpl in *.
  destruct (dx_simulates n n' Hr Hs) as [[_ E]|[E [E'|[c0 m0 H1 H2 H3|c0 m0 l H0 H1 H2 H3]]]].
  - destruct (E c) as (E1 & _). rewrite E1 in Hc. by apply app_one_ne in Hc.
  - destruct (E' c) as (E1 & _). rewrite E1 in Hc. by apply app_one_ne in Hc.
  - destruct (E c') as (-> & _ & ->). rewrite H3, H1. rewrite H1 in Hc.
    case_decide; [subst c0|by apply app_one_ne in Hc].
    apply app_inv_head in Hc as [= ->]. by case_decide; subst.
  - rewrite H1 in Hc. by apply app_one_ne in Hc.
Qed.

Lemma view_results n n' c : rtc dx_step dx_init n → dx_step n n' →
  length (results (view_of n c)) ≤ length (results (view_of n' c)).
Proof.
  intros Hr Hs. unfold view_of; simpl.
  destruct (dx_simulates n n' Hr Hs) as [[_ E]|[_ [E|[c0 m0 H1 H2 H3|c0 m0 l H0 H1 H2 H3]]]].
  - by destruct (E c) as (_ & _ & ->).
  - by destruct (E c) as (_ & _ & ->).
  - by rewrite H3.
  - rewrite H3. case_decide; subst; rewrite ?length_app; lia.
Qed.

(** Both directions are first in, first out. *)
Lemma duplex_fifo n : rtc dx_step dx_init n → fifo (dx_out n) ∧ fifo (dx_back n).
Proof.
  revert n. apply rtc_ind_r.
  - destruct dx_start as [E1 E2]. rewrite E1, E2. split; by intros c.
  - intros n n' Hn Hs [H1 H2]. destruct (dx_simulates n n' Hn Hs) as [[Ho Eb]|[Eo [Eb|Hb]]].
    + rewrite Eb. split; [exact (pipe_step_fifo _ _ H1 Ho)|done].
    + by rewrite Eo, Eb.
    + rewrite Eo. split; [done|exact (pipe_step_fifo _ _ H2 Hb)].
Qed.

Lemma view_prefix n c : rtc dx_step dx_init n →
  (∃ l, calls (view_of n c) = delivered (view_of n c) ++ l) ∧ (∃ l, answers (view_of n c) = results (view_of n c) ++ l).
Proof. intros Hr. destruct (duplex_fifo n Hr) as [H1 H2]. split; eexists; [apply (H1 c)|apply (H2 c)]. Qed.
End views.

(** ** The queue, as the worker sees it *)

(** The messages whose [Handle] runs, and those that were ever taken *)
Definition busy (q : msgQ) : list metaKnownMsg := omap (λ w, match w with WBusy m => Some m | _ => None end) (crew q).
Definition handled (q : msgQ) : list metaKnownMsg := taken q ++ direct q.

(** What was put is what was handled and what is still in the queue. *)
Lemma handled_part q : mq_ok q → ∃ rest, puts q ≡ₚ handled q ++ rest.
Proof.
  intros [Hf _]. destruct Hf as [_ _ He _ Hc _].
  exists (default [] (egressChan q) ++ held (todo q) ++ queued High q ++ queued Normal q ++ queued Low q).
  apply copies_Permutation. intros x. rewrite Hc, He. unfold handled. rewrite !copies_app. lia.
Qed.

(** A step of the queue that ends no [Handle] starts at most one. *)
Lemma busy_insert (l : list worker_at) i w w' :
  l !! i = Some w →
  omap (λ w, match w with WBusy m => Some m | _ => None end) (<[i := w']> l) ++
    match w with WBusy m => [m] | _ => [] end ≡ₚ
  match w' with WBusy m => [m] | _ => [] end ++ omap (λ w, match w with WBusy m => Some m | _ => None end) l.
Proof.
  intros Hi. rewrite <- (take_drop_middle l i w Hi) at 2. rewrite insert_take_drop by (by eapply lookup_lt_Some).
  rewrite !omap_app, <- app_assoc, <- Permutation_app_comm.
  destruct w, w'; simpl; rewrite ?app_nil_r; solve_Permutation.
Qed.

Lemma init_same c q :
  crew (initChan c q) = crew q ∧ handled (initChan c q) = handled q ∧ puts (initChan c q) = puts q.
Proof.
  unfold initChan, handled. destruct (ingress c q) eqn:Hi; [done|].
  by destruct q as [sz h n l [e|] d dc r w p s t di], c; simplify_eq/=.
Qed.

Lemma put_same m q q' : putMetaMsg m q = Some q' →
  crew q' = crew q ∧ handled q' = handled q ∧ puts q' = puts q ++ [m].
Proof.
  unfold putMetaMsg. intros H. destruct (bool_decide _); [|done]. injection H as <-.
  destruct (init_same (class m) q) as (<- & <- & <-). generalize (initChan (class m) q). intros q1.
  by destruct q1, m as [[] p].
Qed.

(** A step of the queue where nothing is put and no [Handle] ends *)
Definition queue_moves (q q' : msgQ) : Prop :=
  mq_step anything q q' ∧ puts q' = puts q ∧ length (busy q) ≤ length (busy q').

Lemma queue_moves_spec q q' : queue_moves q q' →
  ∃ new, busy q' ≡ₚ new ++ busy q ∧ handled q' ≡ₚ new ++ handled q.
Proof.
  intros (Hs & Hp & Hl). unfold busy in *.
  destruct Hs as [m q _|m q q' _ Hm|q q' Hc|q Hr|h l q Hr _|c q q' Hs|q q' Ht|i q Hi
    |i m rest q Hi He|i m rest q Hi Hn|i m q Hi|i e q Hi|q].
  - exists []. destruct (init_same (class m) q) as (E1 & E2 & _). rewrite E1, E2. done.
  - exists []. destruct (put_same m q q' Hm) as (E1 & E2 & _). rewrite E1, E2. done.
  - exists []. destruct q as [sz h n l e [] dc r w p s t di]; [|done]. injection Hc as <-. done.
  - exists []. by destruct q.
  - exists []. by destruct q.
  - exists []. unfold reorder_select in Hs. destruct (reo q); try done. destruct (selects _ _ _); [|done].
    destruct (queued c q); [done|]. injection Hs as <-. by destruct q, c.
  - exists []. unfold reorder_turn in Ht. destruct (reo q) as [| | |[|[m|c [|k]] todo]|]; try done.
    + injection Ht as <-. by destruct q.
    + destruct (egressChan q); [|done]. destruct (bool_decide _); [|done]. injection Ht as <-. by destruct q.
    + injection Ht as <-. by destruct q.
    + destruct (queued c q); [done|]. injection Ht as <-. by destruct q, c.
  - exists []. destruct q as [sz h n l e d dc r w p s t di]; simpl in *. split; [|done].
    pose proof (busy_insert w i _ (WSelect (getEgressChan (mkMsgQ sz h n l e d dc r w p s t di))) Hi) as Hb.
    by rewrite app_nil_r in Hb.
  - exists [m]. destruct q as [sz h n l e d dc r w p s t di]; simpl in *. split.
    + pose proof (busy_insert w i _ (WBusy m) Hi) as Hb. by rewrite app_nil_r in Hb.
    + unfold handled; simpl. solve_Permutation.
  - exists [m]. destruct q as [sz h n l e d dc r w p s t di]; simpl in *. split.
    + pose proof (busy_insert w i _ (WBusy m) Hi) as Hb. by rewrite app_nil_r in Hb.
    + unfold handled; simpl. solve_Permutation.
  - exfalso. destruct q as [sz h n l e d dc r w p s t di]; simpl in *.
    pose proof (Permutation_length (busy_insert w i _ WLoop Hi)) as Hb. rewrite length_app in Hb. simpl in Hb. lia.
  - exists []. destruct q as [sz h n l e' d dc r w p s t di]; simpl in *. split; [|done].
    pose proof (busy_insert w i _ WGone Hi) as Hb. by rewrite app_nil_r in Hb.
  - exists []. destruct q as [sz h n l e d dc r w p s t di]; simpl. by rewrite omap_app, app_nil_r.
Qed.

(** The worker's [Handle] returns. *)
Definition handle_ends (i : nat) (q : msgQ) : msgQ := set_crew (<[i := WLoop]> (crew q)) q.

Lemma handle_ends_spec i m q : crew q !! i = Some (WBusy m) →
  busy q ≡ₚ m :: busy (handle_ends i q) ∧ handled (handle_ends i q) = handled q ∧ puts (handle_ends i q) = puts q ∧
  mq_step anything q (handle_ends i q).
Proof.
  intros Hi. split; [|split_and!; [by destruct q..|by apply (worker_replies anything i m)]].
  unfold busy, handle_ends. destruct q as [sz h n l e d dc r w p s t di]; simpl in *.
  pose proof (busy_insert w i _ WLoop Hi) as Hb. simpl in Hb. rewrite <- Hb. solve_Permutation.
Qed.

(** ** The system *)

(** The jobs of a stream: their numbers and the messages *)
Fixpoint jobs_of {M} (x : nat * Z) (j : nat) (l : list ((nat * Z) * M)) : list (nat * M) :=
  match l with
  | [] => []
  | (y, m) :: l => (if decide (y = x) then [(j, m)] else []) ++ jobs_of x (S j) l
  end.

Lemma jobs_of_app {M} x j (l : list ((nat * Z) * M)) y m :
  jobs_of x j (l ++ [(y, m)]) = jobs_of x j l ++ if decide (y = x) then [(j + length l, m)] else [].
Proof.
  revert j; induction l as [|[z m'] l IH]; intros j; simpl.
  - by rewrite app_nil_r, Nat.add_0_r.
  - by rewrite IH, <- app_assoc, Nat.add_succ_comm.
Qed.

Lemma jobs_of_lookup {M} x j (l : list ((nat * Z) * M)) i m :
  l !! i = Some (x, m) → ∃ k, jobs_of x j l !! k = Some (j + i, m).
Proof.
  revert j i; induction l as [|[y m'] l IH]; intros j [|i] Hi; simplify_eq/=.
  - rewrite decide_True by done. exists 0. by rewrite Nat.add_0_r.
  - destruct (IH (S j) i Hi) as [k Hk]. rewrite Nat.add_succ_comm in Hk.
    case_decide; [by exists (S k)|by exists k].
Qed.

Section system.
(** [known]: does the service handle it?  [prio]: the class of its type *)
Context `{D : Duplex M St} (known : M → bool) (prio : M → priority).

(** The connections of the clients, the queue of the server, the messages put into
    it (the queue's message [j] is the [j]-th of them), and the runs of [Handle] that
    ended: the message and what was sent back *)
Record sys := mkSys {
  conns : list St;
  queue : msgQ;
  jobs : list ((nat * Z) * M);
  replied : list (nat * option M);
}.

(** A server with its queue, before any connection *)
Definition sys_start (residentWorkers qSize : nat) : sys := mkSys [] (newMsgQ residentWorkers qSize) [] [].

(** What is seen of the stream [c] of connection [k] *)
Definition stream_view (s : sys) (x : nat * Z) : view M :=
  match conns s !! x.1 with Some n => view_of n x.2 | None => mkView [] [] [] [] end.

#[local] Arguments stream_view : simpl never.
#[local] Arguments view_of : simpl never.

(** The goroutine of a client, which makes calls on a stream with [SendRecv]: it sends
    when its last call has returned, which on a stream without a receive timeout is
    with the reply, so that it has received the replies to all it sent.  On a stream
    with one it may send again at any time after the timeout, and receives whatever
    comes next. *)
Definition sendrecv (timeouts : nat * Z → bool) (s : sys) (x : nat * Z) : Prop :=
  timeouts x = false → length (calls (stream_view s x)) = length (results (stream_view s x)).

(** What came back of a stream's own messages, in the order the runs of [Handle] ended *)
Definition own_replies (s : sys) (x : nat * Z) : list M :=
  omap (λ jr, match jobs s !! jr.1 with Some (y, _) => if decide (y = x) then jr.2 else None | None => None end) (replied s).

Definition metaKnown (j : nat) (m : M) : metaKnownMsg := MsgQ.mkMsg (prio m) j.

Inductive sys_step (maySend : sys → nat * Z → Prop) (s s' : sys) : Prop :=
| Accept :                                 (* a connection is made *)
    s' = mkSys (conns s ++ [dx_init]) (queue s) (jobs s) (replied s) →
    sys_step maySend s s'
| Move k n n' :                            (* the transport moves, or a client receives *)
    conns s !! k = Some n → dx_step n n' →
    (∀ c, calls (view_of n' c) = calls (view_of n c) ∧ delivered (view_of n' c) = delivered (view_of n c) ∧
          answers (view_of n' c) = answers (view_of n c)) →
    s' = mkSys (<[k := n']> (conns s)) (queue s) (jobs s) (replied s) →
    sys_step maySend s s'
| Call k n n' c m :                        (* a client sends a request *)
    conns s !! k = Some n → dx_step n n' →
    calls (view_of n' c) = calls (view_of n c) ++ [m] →
    known m = true → maySend s (k, c) →
    s' = mkSys (<[k := n']> (conns s)) (queue s) (jobs s) (replied s) →
    sys_step maySend s s'
| Deliver k n n' c m q :                   (* the server's receiver puts it into the queue *)
    conns s !! k = Some n → dx_step n n' →
    delivered (view_of n' c) = delivered (view_of n c) ++ [m] →
    putMetaMsg (metaKnown (length (jobs s)) m) (queue s) = Some q →
    s' = mkSys (<[k := n']> (conns s)) q (jobs s ++ [((k, c), m)]) (replied s) →
    sys_step maySend s s'
| QueueMoves q :
    queue_moves (queue s) q →
    s' = mkSys (conns s) q (jobs s) (replied s) →
    sys_step maySend s s'
| Reply i j k n n' c m cls r :             (* Handle returns a reply, and the worker sends it *)
    crew (queue s) !! i = Some (WBusy (MsgQ.mkMsg cls j)) → jobs s !! j = Some ((k, c), m) →
    conns s !! k = Some n → dx_step n n' →
    answers (view_of n' c) = answers (view_of n c) ++ [r] →
    s' = mkSys (<[k := n']> (conns s)) (handle_ends i (queue s)) (jobs s) (replied s ++ [(j, Some r)]) →
    sys_step maySend s s'
| NoReply i j cls :                        (* Handle returns nil, or the sending fails *)
    crew (queue s) !! i = Some (WBusy (MsgQ.mkMsg cls j)) →
    s' = mkSys (conns s) (handle_ends i (queue s)) (jobs s) (replied s ++ [(j, None)]) →
    sys_step maySend s s'.

(** What holds whatever the clients do *)
Record sys_ok (s : sys) : Prop := mkSysOk {
  so_conns : Forall (rtc dx_step dx_init) (conns s);
  so_queue : mq_ok (queue s);
  so_puts : payload <$> puts (queue s) = seq 0 (length (jobs s));
  so_handled : payload <$> handled (queue s) ≡ₚ (replied s).*1 ++ (payload <$> busy (queue s));
  so_jobs : ∀ x, (jobs_of x 0 (jobs s)).*2 = delivered (stream_view s x);
  so_answers : ∀ x, answers (stream_view s x) = own_replies s x;
}.

(** What holds when they call with [SendRecv], of the streams without a receive timeout *)
Record sys_matched (timeouts : nat * Z → bool) (s : sys) : Prop := mkSysMatched {
  sm_waiting : ∀ x, timeouts x = false → length (calls (stream_view s x)) ≤ S (length (results (stream_view s x)));
  sm_replies : ∀ x i r, timeouts x = false → answers (stream_view s x) !! i = Some r →
    ∃ j m, jobs_of x 0 (jobs s) !! i = Some (j, m) ∧ (j, Some r) ∈ replied s;
}.

(** ** The streams after a step *)

Lemma view_accept s q js rs x :
  stream_view (mkSys (conns s ++ [dx_init]) q js rs) x = stream_view s x.
Proof.
  unfold stream_view; simpl. destruct (decide (x.1 < length (conns s))) as [Hx|Hx].
  - by rewrite lookup_app_l.
  - rewrite (lookup_ge_None_2 (conns s)), lookup_app_r by lia.
    destruct (x.1 - length (conns s)) as [|i]; [apply view_start|done].
Qed.

Lemma view_set s k n n' q js rs x : conns s !! k = Some n →
  stream_view (mkSys (<[k := n']> (conns s)) q js rs) x =
    if decide (x.1 = k) then view_of n' x.2 else stream_view s x.
Proof.
  intros Hk. unfold stream_view; simpl. case_decide as Hx.
  - rewrite Hx, list_lookup_insert_eq by (by eapply lookup_lt_Some). done.
  - by rewrite list_lookup_insert_ne.
Qed.

Lemma view_here s k n c : conns s !! k = Some n → stream_view s (k, c) = view_of n c.
Proof. unfold stream_view; simpl. by intros ->. Qed.

(** The view of one stream changes. *)
Lemma view_changed s k n n' c g q js rs x : conns s !! k = Some n →
  (∀ c', view_of n' c' = if decide (c' = c) then g (view_of n c') else view_of n c') →
  stream_view (mkSys (<[k := n']> (conns s)) q js rs) x =
    if decide (x = (k, c)) then g (stream_view s (k, c)) else stream_view s x.
Proof.
  intros Hk Hg. rewrite (view_set s k n) by done. destruct x as [k' c']; simpl.
  destruct (decide (k' = k)) as [->|Hne].
  - rewrite Hg, !(view_here s k n) by done.
    destruct (decide (c' = c)) as [->|Hc]; [by rewrite decide_True|rewrite decide_False by congruence; done].
  - by rewrite decide_False by congruence.
Qed.

Lemma conns_set s k n n' : Forall (rtc dx_step dx_init) (conns s) → conns s !! k = Some n → dx_step n n' →
  Forall (rtc dx_step dx_init) (<[k := n']> (conns s)).
Proof.
  intros Hf Hk Hs. apply Forall_insert; [done|]. eapply rtc_r; [|exact Hs]. by eapply Forall_lookup_1 in Hk.
Qed.

(** ** The messages of the queue *)

(** No message is handled twice, and those handled are jobs. *)
Lemma sys_once s : sys_ok s → NoDup ((replied s).*1 ++ (payload <$> busy (queue s))).
Proof.
  intros [_ Hq Hp Hh _ _]. rewrite <- Hh. destruct (handled_part _ Hq) as [rest Hrest].
  apply (fmap_Permutation payload) in Hrest. rewrite Hp, fmap_app in Hrest.
  pose proof (NoDup_seq 0 (length (jobs s))) as Hnd. rewrite Hrest in Hnd. by apply NoDup_app in Hnd as (? & _ & _).
Qed.

Lemma elem_busy i m q : crew q !! i = Some (WBusy m) → m ∈ busy q.
Proof. intros Hi%list_elem_of_lookup_2. apply list_elem_of_omap. by exists (WBusy m). Qed.

Lemma busy_not_replied s i cls j r : sys_ok s → crew (queue s) !! i = Some (WBusy (MsgQ.mkMsg cls j)) →
  (j, r) ∉ replied s.
Proof.
  intros Hok Hi Hin. apply sys_once, NoDup_app in Hok as (_ & Hd & _). apply (Hd j).
  - by apply (list_elem_of_fmap_2 fst) in Hin.
  - apply (list_elem_of_fmap_2 payload _ _ (elem_busy _ _ _ Hi)).
Qed.

Lemma handled_ends s i cls j r : sys_ok s → crew (queue s) !! i = Some (WBusy (MsgQ.mkMsg cls j)) →
  payload <$> handled (handle_ends i (queue s)) ≡ₚ
  ((replied s ++ [(j, r)]).*1) ++ (payload <$> busy (handle_ends i (queue s))).
Proof.
  intros Hok Hi. destruct (handle_ends_spec i _ _ Hi) as (Hb & -> & _ & _).
  rewrite (so_handled s Hok), Hb, fmap_app. simpl. solve_Permutation.
Qed.

Lemma omap_ext_elem_of {A B} (f g : A → option B) (l : list A) : (∀ x, x ∈ l → f x = g x) → omap f l = omap g l.
Proof.
  intros H. apply list_omap_ext, Forall_Forall2_diag. by apply Forall_forall.
Qed.

Lemma replied_job s j r : sys_ok s → (j, r) ∈ replied s → j < length (jobs s).
Proof.
  intros [_ Hq Hp Hh _ _] Hin. destruct (handled_part _ Hq) as [rest Hrest]. apply (fmap_Permutation payload) in Hrest.
  rewrite Hp, fmap_app, Hh in Hrest. assert (j ∈ seq 0 (length (jobs s))) as Hseq%elem_of_seq; [|lia].
  rewrite Hrest, !elem_of_app. left. left. by apply (list_elem_of_fmap_2 fst) in Hin.
Qed.

(** One more job, one more run of [Handle] *)
Lemma own_replies_job s cs q y m x : sys_ok s → own_replies (mkSys cs q (jobs s ++ [(y, m)]) (replied s)) x = own_replies s x.
Proof.
  intros Hok. unfold own_replies. simpl. apply omap_ext_elem_of. intros [j r] Hin. simpl.
  by rewrite lookup_app_l by (by eapply replied_job).
Qed.

Lemma own_replies_snoc s cs q j r x : own_replies (mkSys cs q (jobs s) (replied s ++ [(j, r)])) x =
  own_replies s x ++ match jobs s !! j with Some (y, _) => if decide (y = x) then option_list r else [] | None => [] end.
Proof.
  unfold own_replies. simpl. rewrite omap_app. f_equal. simpl. destruct (jobs s !! j) as [[y m]|]; [|done].
  by case_decide; destruct r.
Qed.

(** ** Every step keeps the invariants *)

Lemma handle_ends_ok s i cls j r cs : sys_ok s → crew (queue s) !! i = Some (WBusy (MsgQ.mkMsg cls j)) →
  Forall (rtc dx_step dx_init) cs →
  (∀ x, delivered (stream_view (mkSys cs (handle_ends i (queue s)) (jobs s) (replied s ++ [(j, r)])) x) =
        delivered (stream_view s x)) →
  (∀ x, answers (stream_view (mkSys cs (handle_ends i (queue s)) (jobs s) (replied s ++ [(j, r)])) x) =
        answers (stream_view s x) ++ match jobs s !! j with Some (y, _) => if decide (y = x) then option_list r else [] | None => [] end) →
  sys_ok (mkSys cs (handle_ends i (queue s)) (jobs s) (replied s ++ [(j, r)])).
Proof.
  intros Hok Hi Hcs Hv Ha. destruct (handle_ends_spec i _ _ Hi) as (_ & _ & Hp & Hs). destruct Hok as [H1 H2 H3 H4 H5 H6] eqn:E.
  split; simpl; [done|by eapply mq_ok_step|by rewrite Hp|by apply (handled_ends s i cls)|..].
  - intros x. by rewrite Hv.
  - intros x. by rewrite Ha, own_replies_snoc, H6.
Qed.

Lemma sys_ok_step maySend s s' : sys_ok s → sys_step maySend s s' → sys_ok s'.
Proof.
  intros Hok Hstep. pose proof Hok as [H1 H2 H3 H4 H5 H6].
  destruct Hstep as [->|k n n' Hk Hn Hv ->|k n n' c m Hk Hn Hc _ _ ->|k n n' c m q Hk Hn Hc Hp ->|q Hq ->
    |i j k n n' c m cls r Hi Hj Hk Hn Hc ->|i j cls Hi ->].
  - split; simpl; [apply Forall_app; split; [done|by repeat constructor]|done..| |].
    + intros x. by rewrite view_accept.
    + intros x. rewrite view_accept. apply H6.
  - assert (∀ x, delivered (stream_view (mkSys (<[k:=n']> (conns s)) (queue s) (jobs s) (replied s)) x) = delivered (stream_view s x) ∧
      answers (stream_view (mkSys (<[k:=n']> (conns s)) (queue s) (jobs s) (replied s)) x) = answers (stream_view s x)) as Hx.
    { intros x. rewrite (view_set s k n) by done. case_decide as Hx; [|done]. destruct x as [k' c]; simpl in *; subst k'.
      rewrite (view_here s k n) by done. by destruct (Hv c) as (_ & -> & ->). }
    split; simpl; [by eapply conns_set|done..| |]; intros x; destruct (Hx x) as [Hd Ha]; [by rewrite Hd|by rewrite Ha, H6].
  - assert (Hr : rtc dx_step dx_init n) by (by eapply Forall_lookup_1 in Hk).
    split; simpl; [by eapply conns_set|done..| |]; intros x;
      rewrite (view_changed s k n n' c (add_call m) _ _ _ x Hk (view_call n n' c m Hr Hn Hc)).
    + rewrite H5. case_decide as Hx; [by subst|done].
    + transitivity (answers (stream_view s x)); [case_decide as Hx; by subst|apply H6].
  - assert (Hr : rtc dx_step dx_init n) by (by eapply Forall_lookup_1 in Hk).
    destruct (put_same _ _ _ Hp) as (Hcr & Hh & Hps).
    split; simpl; [by eapply conns_set|by eapply mq_ok_put|..].
    + by rewrite Hps, fmap_app, H3, length_app, Nat.add_comm, seq_S.
    + rewrite Hh. unfold busy. by rewrite Hcr.
    + intros x. rewrite (view_changed s k n n' c (add_delivered m) _ _ _ x Hk (view_deliver n n' c m Hr Hn Hc)).
      rewrite jobs_of_app, fmap_app, H5. destruct (decide (x = (k, c))) as [->|Hx].
      * by rewrite decide_True.
      * by rewrite decide_False, app_nil_r by congruence.
    + intros x. rewrite own_replies_job, <- H6 by done.
      rewrite (view_changed s k n n' c (add_delivered m) _ _ _ x Hk (view_deliver n n' c m Hr Hn Hc)). by case_decide; subst.
  - pose proof Hq as (Hs & Hp & _). destruct (queue_moves_spec _ _ Hq) as (new & Hb & Hh).
    split; simpl; [done|by eapply mq_ok_step|by rewrite Hp| |done|done].
    rewrite Hh, Hb, !fmap_app, H4. solve_Permutation.
  - assert (Hr : rtc dx_step dx_init n) by (by eapply Forall_lookup_1 in Hk).
    eapply handle_ends_ok; [done..|by eapply conns_set| |]; intros x;
      rewrite (view_changed s k n n' c (add_answer r) _ _ _ x Hk (view_answer n n' c r Hr Hn Hc)).
    + case_decide as Hx; [by subst|done].
    + rewrite Hj. case_decide as Hx; [subst; by rewrite decide_True|]. by rewrite decide_False, app_nil_r by congruence.
  - eapply handle_ends_ok; [done..| |]; intros x; [done|]. simpl.
    destruct (jobs s !! j) as [[y m]|]; [|by rewrite app_nil_r]. by case_decide; rewrite app_nil_r.
Qed.

Lemma sys_ok_start n sz : sys_ok (sys_start n sz).
Proof.
  split; simpl; [done|apply mq_ok_new|done|..|done|done].
  unfold handled, busy; simpl. induction n; done.
Qed.

(** ** Calls with [SendRecv] *)

Lemma view_fifo s x : sys_ok s →
  delivered (stream_view s x) `prefix_of` calls (stream_view s x) ∧
  results (stream_view s x) `prefix_of` answers (stream_view s x).
Proof.
  intros Hok. unfold stream_view. destruct (conns s !! x.1) as [n|] eqn:Hn; [|done].
  pose proof (so_conns s Hok) as Hf. eapply Forall_lookup_1 in Hf; [|exact Hn]. apply (view_prefix n x.2 Hf).
Qed.

(** A reply is to the request that is waited for. *)
Lemma reply_in_turn timeouts s i cls j x m : sys_ok s → sys_matched timeouts s → timeouts x = false →
  crew (queue s) !! i = Some (WBusy (MsgQ.mkMsg cls j)) → jobs s !! j = Some (x, m) →
  jobs_of x 0 (jobs s) !! length (answers (stream_view s x)) = Some (j, m).
Proof.
  intros Hok [H1 H2] Ht Hi Hj. destruct (jobs_of_lookup x 0 _ _ _ Hj) as [a Ha]. simpl in Ha.
  enough (a = length (answers (stream_view s x))) as <- by done.
  destruct (view_fifo s x Hok) as [Hd Hr]. apply prefix_length in Hd, Hr. specialize (H1 x Ht).
  pose proof (lookup_lt_Some _ _ _ Ha) as Hlt. rewrite <- (length_fmap snd), (so_jobs s Hok) in Hlt.
  destruct (decide (a < length (answers (stream_view s x)))) as [Hlt'|]; [|lia].
  apply lookup_lt_is_Some in Hlt' as [r Hr']. destruct (H2 x a r Ht Hr') as (j' & m' & Ha' & Hin).
  rewrite Ha in Ha'. injection Ha' as <- <-. by destruct (busy_not_replied s i cls j (Some r) Hok Hi).
Qed.

Lemma sys_matched_step timeouts s s' : sys_ok s → sys_matched timeouts s → sys_step (sendrecv timeouts) s s' → sys_matched timeouts s'.
Proof.
  intros Hok Hm Hstep. pose proof Hm as [H1 H2]. pose proof (so_conns s Hok) as Hf.
  assert (∀ k n, conns s !! k = Some n → rtc dx_step dx_init n) as Hreach by (intros; by eapply Forall_lookup_1 in Hf).
  destruct Hstep as [->|k n n' Hk Hn Hv ->|k n n' c m Hk Hn Hc _ Hmay ->|k n n' c m q Hk Hn Hc Hp ->|q Hq ->
    |i j k n n' c m cls r Hi Hj Hk Hn Hc ->|i j cls Hi ->].
  - split; intros x; rewrite view_accept; auto.
  - split; intros x; rewrite (view_set s k n) by done; case_decide as Hx; auto;
      destruct x as [k' c]; cbn [fst snd] in *; subst k'; destruct (Hv c) as (E1 & _ & E2);
      specialize (H1 (k, c)); specialize (H2 (k, c)); rewrite (view_here s k n c Hk) in H1, H2.
    + intros Ht. rewrite E1. pose proof (view_results n n' c (Hreach k n Hk) Hn). specialize (H1 Ht). lia.
    + by rewrite E2.
  - split; intros x; rewrite (view_changed s k n n' c (add_call m) _ _ _ x Hk (view_call n n' c m (Hreach k n Hk) Hn Hc));
      case_decide as Hx; subst; auto; simpl.
    intros Ht. rewrite length_app, (Hmay Ht). simpl. lia.
  - split; intros x; rewrite (view_changed s k n n' c (add_delivered m) _ _ _ x Hk (view_deliver n n' c m (Hreach k n Hk) Hn Hc));
      [case_decide as Hx; subst; auto; simpl; by apply H1|].
    assert (answers (if decide (x = (k, c)) then add_delivered m (stream_view s (k, c)) else stream_view s x) =
            answers (stream_view s x)) as -> by (by case_decide; subst).
    intros i r Ht Hr. destruct (H2 x i r Ht Hr) as (j & m' & Hj & Hin). exists j, m'. split; [|done].
    simpl. rewrite jobs_of_app. by apply lookup_app_l_Some.
  - by split.
  - pose proof (λ Ht, reply_in_turn timeouts s i cls j (k, c) m Hok Hm Ht Hi Hj) as Hturn.
    split; intros x; rewrite (view_changed s k n n' c (add_answer r) _ _ _ x Hk (view_answer n n' c r (Hreach k n Hk) Hn Hc)).
    + case_decide as Hx; subst; auto; simpl; by apply H1.
    + simpl. intros a r' Ht Ha. case_decide as Hx; subst.
      * simpl in Ha. apply lookup_app_Some in Ha as [Ha|[Ha1 Ha]].
        -- destruct (H2 _ a r' Ht Ha) as (j' & m' & ? & ?). exists j', m'. rewrite elem_of_app. by auto.
        -- apply list_lookup_singleton_Some in Ha as [Ha <-].
           exists j, m.
           assert (a = length (answers (stream_view s (k, c)))) as -> by lia.
           split; [by apply Hturn|]. apply elem_of_app. right. by left.
      * destruct (H2 _ a r' Ht Ha) as (j' & m' & ? & ?). exists j', m'. rewrite elem_of_app. by auto.
  - split; [done|]. intros x a r Ht Ha. destruct (H2 x a r Ht Ha) as (j' & m' & ? & ?). exists j', m'.
    simpl. rewrite elem_of_app. by auto.
Qed.

Lemma sys_reachable timeouts n sz s : rtc (sys_step (sendrecv timeouts)) (sys_start n sz) s → sys_ok s ∧ sys_matched timeouts s.
Proof.
  revert s. apply rtc_ind_r.
  - split; [apply sys_ok_start|]. split; [simpl; lia|done].
  - intros s s' _ Hs [Hok Hm]. split; [by eapply sys_ok_step|by eapply sys_matched_step].
Qed.

End system.

(** ** Runs of the system over the process transport *)

Section runs.
Context {Msg : Type} (is_close canHandle is_EOF : Msg → bool) (qsize : nat) (prio : Msg → priority).
Abbreviation mmsg := (Msg * transportFeats)%type.
#[local] Instance D : Duplex mmsg conn := chan_duplex is_close canHandle is_EOF qsize.
Abbreviation prio' := (λ mm : mmsg, prio mm.1).
Abbreviation known := (λ mm : mmsg, canHandle mm.1).
Abbreviation csys := (sys (St := conn (Msg := Msg)) (M := mmsg)).

Inductive act :=
| DAccept
| DConn (k : nat) (o : op (Msg := Msg))    (* an operation of a connection *)
| DCall (k : nat) (c : Z) (m : mmsg)
| DPut (k : nat)
| DLoop (i : nat)
| DTake (i : nat)
| DReply (i : nat) (m : mmsg).

(** The operations of a connection that send nothing and put nothing *)
Definition quiet_op (o : op (Msg := Msg)) : bool :=
  match o with ClientSend _ | ServerPut _ | HandlerSend _ _ _ => false | _ => true end.

Definition with_conn (k : nat) (o : op (Msg := Msg)) (s : csys) (q : msgQ) js rs : option csys :=
  n ← conns s !! k;
  match exec is_close canHandle is_EOF qsize o n with
  | Some (Return n') => Some (mkSys (<[k := n']> (conns s)) q js rs)
  | _ => None
  end.

Definition drive (a : act) (s : csys) : option csys :=
  match a with
  | DAccept => Some (mkSys (conns s ++ [newConnection]) (queue s) (jobs s) (replied s))
  | DConn k o => if quiet_op o then with_conn k o s (queue s) (jobs s) (replied s) else None
  | DCall k c m =>
      n ← conns s !! k;
      if canHandle m.1 && negb (is_close m.1) && negb (connClose_nil n) && bool_decide (c ∉ ended n)
      then with_conn k (ClientSend (mkTransportMsg c m.1 m.2)) s (queue s) (jobs s) (replied s) else None
  | DPut k =>
      n ← conns s !! k;
      match putting n with
      | Some (ToMsgQ c msg tfs) =>
          q ← putMetaMsg (metaKnown prio' (length (jobs s)) (msg, tfs)) (queue s);
          with_conn k (ServerPut true) s q (jobs s ++ [((k, c), (msg, tfs))]) (replied s)
      | _ => None
      end
  | DLoop i =>
      match crew (queue s) !! i with
      | Some WLoop => Some (mkSys (conns s) (set_crew (<[i := WSelect (getEgressChan (queue s))]> (crew (queue s))) (queue s)) (jobs s) (replied s))
      | _ => None
      end
  | DTake i =>
      match crew (queue s) !! i, ingressNormalChan (queue s) with
      | Some (WSelect false), m :: rest =>
          Some (mkSys (conns s) (log_direct m (set_ingress Normal rest (set_crew (<[i := WBusy m]> (crew (queue s))) (queue s)))) (jobs s) (replied s))
      | _, _ => None
      end
  | DReply i r =>
      match crew (queue s) !! i with
      | Some (WBusy (MsgQ.mkMsg _ j)) =>
          '((k, c), _) ← jobs s !! j;
          n ← conns s !! k;
          if connClose_nil n then None
          else with_conn k (HandlerSend c r.1 r.2) s (handle_ends i (queue s)) (jobs s) (replied s ++ [(j, Some r)])
      | _ => None
      end
  end.

(** A quiet operation changes nothing of what was sent, delivered and answered. *)
Lemma quiet_views o n n' c : quiet_op o = true → exec is_close canHandle is_EOF qsize o n = Some (Return n') →
  calls (view_of n' c) = calls (view_of n c) ∧ delivered (view_of n' c) = delivered (view_of n c) ∧
  answers (view_of n' c) = answers (view_of n c).
Proof.
  destruct n as [a b r m p e pr x mc en sl rl gl]. destruct o; try done; intros _; unfold exec.
  - simpl. destruct a; [done|]. by intros [= <-].
  - simpl. case_bool_decide; [by intros [= <-]|]. destruct (lookup_chan c0 mc); [done|]. by intros [= <-].
  - unfold server_take. destruct r as [|tm r], p; try done. destruct x; [done|].
    destruct (handle_message is_close canHandle (Decoded tm) m) as [m' effs] eqn:Hh. intros [= <-].
    destruct (effects_split is_close canHandle is_EOF _ _ _ _ Hh) as (_ & Hnone & _).
    unfold view_of; simpl. by rewrite handed_over_app, Hnone, app_nil_r.
  - simpl. destruct a, b, x, (bool_decide (p = None)); try done. by intros [= <-].
  - simpl. destruct r, p, b, x; try done. by intros [= <-].
  - simpl. destruct b; [by intros [= <-]|]. destruct (lookup_chan c0 pr); [done|]. by intros [= <-].
Qed.
Lemma with_conn_inv k o s q js rs s' : with_conn k o s q js rs = Some s' → ∃ n n',
  conns s !! k = Some n ∧ exec is_close canHandle is_EOF qsize o n = Some (Return n') ∧
  s' = mkSys (<[k := n']> (conns s)) q js rs.
Proof.
  unfold with_conn. destruct (conns s !! k) as [n|] eqn:Hk; [|done]. simpl.
  destruct (exec _ _ _ _ o n) as [[n'|]|] eqn:Ho; try done. intros [= <-]. by exists n, n'.
Qed.

Lemma drive_step (maySend : csys → nat * Z → Prop) a s s' :
  (∀ k c m, a = DCall k c m → maySend s (k, c)) → drive a s = Some s' → sys_step known prio' maySend s s'.
Proof.
  intros Hmay Ha. destruct a as [|k o|k c m|k|i|i|i r]; simpl in Ha.
  - injection Ha as <-. by apply Accept.
  - destruct (quiet_op o) eqn:Ho; [|done]. destruct (with_conn_inv _ _ _ _ _ _ _ Ha) as (n & n' & Hk & Hn & ->).
    apply (Move _ _ _ _ _ k n n'); [done|by exists o| |done]. intros c. by apply (quiet_views o).
  - destruct (conns s !! k) as [n|] eqn:Hk; [|done]. simpl in Ha.
    destruct (canHandle m.1) eqn:Hh; [|done]. destruct (is_close m.1) eqn:Hc; [done|].
    destruct (connClose_nil n) eqn:Hb; [done|]. case_bool_decide as Hen; [|done]. simpl in Ha.
    destruct (with_conn_inv _ _ _ _ _ _ _ Ha) as (n0 & n' & Hk' & Hn & ->). rewrite Hk in Hk'. injection Hk' as <-.
    apply (Call _ _ _ _ _ k n n' c m); try done; [by eexists| |by eapply Hmay].
    destruct n as [a b r' m' p e pr x mc en sl rl gl]; simpl in *. subst b.
    rewrite bool_decide_eq_false_2 in Hn by done. case_bool_decide; [|done]. injection Hn as <-.
    unfold view_of; simpl. rewrite on_stream_app, on_stream_one. simpl. rewrite decide_True, Hc by done. by destruct m.
  - destruct (conns s !! k) as [n|] eqn:Hk; [|done]. simpl in Ha.
    destruct (putting n) as [[| | |c msg tfs|]|] eqn:Hp; try done.
    destruct (putMetaMsg _ _) as [q|] eqn:Hq; [|done]. simpl in Ha.
    destruct (with_conn_inv _ _ _ _ _ _ _ Ha) as (n0 & n' & Hk' & Hn & ->). rewrite Hk in Hk'. injection Hk' as <-.
    apply (Deliver _ _ _ _ _ k n n' c (msg, tfs) q); try done; [by eexists|].
    destruct n as [a b r' m' p e pr x mc en sl rl gl]; simpl in *. subst p. injection Hn as <-.
    unfold view_of; simpl. rewrite handed_over_app. simpl. by rewrite bool_decide_eq_true_2.
  - destruct (crew (queue s) !! i) as [[]|] eqn:Hi; try done. injection Ha as <-.
    eapply QueueMoves; [|done]. split_and!; [by apply worker_loops|by destruct (queue s)|].
    unfold busy. destruct (queue s) as [sz h n l e d dc r w p t tk di]; simpl in *.
    pose proof (Permutation_length (busy_insert w i _ (WSelect (getEgressChan (mkMsgQ sz h n l e d dc r w p t tk di))) Hi)) as Hb.
    rewrite app_nil_r in Hb. simpl in Hb. lia.
  - destruct (crew (queue s) !! i) as [[| []| |]|] eqn:Hi; try done.
    destruct (ingressNormalChan (queue s)) as [|m rest] eqn:Hn; [done|]. injection Ha as <-.
    eapply QueueMoves; [|done]. split_and!; [by apply worker_takes_direct|by destruct (queue s)|].
    unfold busy. destruct (queue s) as [sz h n l e d dc r w p t tk di]; simpl in *.
    pose proof (Permutation_length (busy_insert w i _ (WBusy m) Hi)) as Hb. rewrite app_nil_r in Hb. simpl in Hb. lia.
  - destruct (crew (queue s) !! i) as [[| |[cls j]|]|] eqn:Hi; try done.
    destruct (jobs s !! j) as [[[k c] m]|] eqn:Hj; [|done]. simpl in Ha.
    destruct (conns s !! k) as [n|] eqn:Hk; [|done]. simpl in Ha. destruct (connClose_nil n) eqn:Hb; [done|].
    destruct (with_conn_inv _ _ _ _ _ _ _ Ha) as (n0 & n' & Hk' & Hn & ->). rewrite Hk in Hk'. injection Hk' as <-.
    apply (Reply _ _ _ _ _ i j k n n' c m cls r); try done; [by eexists|].
    destruct n as [a b r' m' p e pr x mc en sl rl gl]; simpl in *. subst b. case_bool_decide; [|done]. injection Hn as <-.
    unfold view_of; simpl. rewrite replies_app, replies_one, decide_True by done. by destruct r.
Qed.

(** A run of several operations; [may] are the calls allowed. *)
Fixpoint drives (may : csys → nat * Z → bool) (l : list act) (s : csys) : option csys :=
  match l with
  | [] => Some s
  | a :: l =>
      if match a with DCall k c _ => may s (k, c) | _ => true end
      then s ← drive a s; drives may l s else None
  end.

Lemma drives_steps may l s s' : drives may l s = Some s' → rtc (sys_step known prio' (λ s x, may s x = true)) s s'.
Proof.
  revert s; induction l as [|a l IH]; intros s; simpl; [by intros [= <-]|].
  destruct (match a with DCall k c _ => may s (k, c) | _ => true end) eqn:Hm; [|done].
  destruct (drive a s) as [s1|] eqn:Ha; [|done]. simpl. intros Hl. eapply rtc_l; [|by apply IH].
  eapply drive_step; [|exact Ha]. intros k c m ->. done.
Qed.
End runs.

(** ** Each call gets its own reply. *)

Lemma jobs_of_inv {M} x j (l : list ((nat * Z) * M)) i k m :
  jobs_of x j l !! i = Some (k, m) → j ≤ k ∧ l !! (k - j) = Some (x, m).
Proof.
  revert j i; induction l as [|[y m'] l IH]; intros j i Hi; [done|]. simpl in Hi.
  assert (∀ i, jobs_of x (S j) l !! i = Some (k, m) → j ≤ k ∧ ((y, m') :: l) !! (k - j) = Some (x, m)) as Hrec.
  { intros i' Hi'. destruct (IH (S j) i' Hi') as [? ?]. split; [lia|].
    replace (k - j) with (S (k - S j)) by lia. done. }
  case_decide as Hy; [|by eapply Hrec]. destruct i as [|i]; [|exact (Hrec i Hi)]. simplify_eq/=.
  by rewrite Nat.sub_diag.
Qed.


(** Two clients call at once; one worker answers them one after the other. *)
Definition demo_known (_ : nat) := true.
Definition demo_close (_ : nat) := false.
Definition demo_prio (_ : nat) := Normal.
#[export] Instance demo_duplex : Duplex (nat * transportFeats) conn := chan_duplex demo_close demo_known demo_close 4.
Abbreviation demo_sys := (sys (M := nat * transportFeats) (St := conn (Msg := nat))).

(** The second client has a receive timeout. *)
Definition demo_timeouts (x : nat * Z) : bool := bool_decide (x.1 = 1).
Definition demo_may (s : demo_sys) (x : nat * Z) : bool :=
  demo_timeouts x || bool_decide (length (calls (stream_view s x)) = length (results (stream_view s x))).
Definition demo_run (may : demo_sys → nat * Z → bool) (workers : nat) (l : list (act (Msg := nat))) : demo_sys :=
  default (sys_start 0 0) (drives demo_close demo_known demo_close 4 demo_prio may l (sys_start workers 4)).

Definition demo_calls : list (act (Msg := nat)) :=
  [DAccept; DAccept; DCall 0 5 (10, []); DCall 1 5 (20, []); DConn 1 ServerTake; DPut 1; DConn 0 ServerTake; DPut 0;
   DLoop 0; DTake 0; DReply 0 (21, []); DLoop 0; DTake 0; DReply 0 (11, []); DConn 0 (ClientRecv 5); DCall 1 5 (22, []); DConn 1 (ClientRecv 5);
   DCall 0 5 (12, [])].

Lemma demo_run_steps may workers l :
  is_Some (drives demo_close demo_known demo_close 4 demo_prio may l (sys_start workers 4)) →
  rtc (sys_step (λ mm, demo_known mm.1) (λ mm, demo_prio mm.1) (λ s x, may s x = true)) (sys_start workers 4) (demo_run may workers l).
Proof. intros [s Hs]. unfold demo_run. rewrite Hs. by eapply drives_steps. Qed.

Lemma sys_step_may {M St} {D : Duplex M St} known prio (P Q : sys → nat * Z → Prop) s s' :
  (∀ s x, P s x → Q s x) → sys_step known prio P s s' → sys_step known prio Q s s'.
Proof. intros HPQ []; [by econstructor; eauto..]. Qed.


(** The second client's first call ran into its timeout, and its second call receives the
    reply to the first. *)
Example late_reply_taken : let s := demo_run demo_may 1 demo_calls in
  calls (stream_view s (1, 5%Z)) = [(20, []); (22, [])] ∧ results (stream_view s (1, 5%Z)) = [(21, [])] ∧
  replied s = [(0, Some (21, [])); (1, Some (11, []))].
Proof. vm_compute. split_and!; reflexivity. Qed.

(** Without waiting for a reply before the next request the replies can be
    exchanged: two workers handle the two requests of a stream, and the second ends
    first. *)
Definition demo_pipelined : list (act (Msg := nat)) :=
  [DAccept; DCall 0 5 (10, []); DCall 0 5 (20, []); DConn 0 ServerTake; DPut 0; DConn 0 ServerTake; DPut 0;
   DLoop 0; DTake 0; DLoop 1; DTake 1; DReply 1 (21, []); DReply 0 (11, []); DConn 0 (ClientRecv 5); DConn 0 (ClientRecv 5)].

Lemma pipelined_replies_cross : ∃ s : demo_sys,
  rtc (sys_step (λ mm, demo_known mm.1) (λ mm, demo_prio mm.1) (λ _ _, True)) (sys_start 2 4) s ∧
  calls (stream_view s (0, 5%Z)) = [(10, []); (20, [])] ∧ results (stream_view s (0, 5%Z)) = [(21, []); (11, [])] ∧
  replied s = [(1, Some (21, [])); (0, Some (11, []))].
Proof.
  exists (demo_run (λ _ _, true) 2 demo_pipelined). split_and!; [|vm_compute; reflexivity..].
  eapply rtc_subrel; [|apply demo_run_steps; vm_compute; by eexists].
  intros s s'. by apply sys_step_may.
Qed.
