(* ===== verification/Server.v ===== *)
(** The server (server.go, server_options.go, service_options.go, options.go,
    providerinfo_svc.go, registryinfo_svc.go, and the registration half of
    registry.go and streamtransportserver.go): what [init] decides about the
    scopes, what publishing a service opens and registers, and what closing the
    server withdraws.  The services themselves are in the other files; here a
    service is what is registered for it. *)
From S2P Require Import Prelude GoStrings Wildcard Names RootRegistry Lookup.

(** ** The state *)

(** [service], without its callbacks *)
Record service := mkService {
  publisherName : bytes;
  serviceName : bytes;
  svc_providerID : bytes;
  svc_scope : Scope;
  useNamedUDS : bool;
}.

(** [streamTransport]: its service, the network and address of its listener, and
    whether it has a connection to a reverse proxy *)
Record streamTransport := mkTransport {
  st_svc : service;
  lnr_network : bytes;
  lnr_addr : bytes;
  reverseProxyConn : bool;
}.

(** What implements [closer] and is put on the list of a server *)
Inductive closer :=
| msgQ_closer
| packetConn_closer
| registryLAN_closer
| chanTransport_closer (svc : service)
| streamTransport_closer (st : streamTransport).

(** The part of [Server] the options set *)
Record settings := mkSettings {
  publisher : bytes;
  broadcastPort : bytes;
  rootRegistry : bool;
  autoReverseProxy : bool;
  serviceLister : bool;
  ipObserver : bool;
  msgTracer : bool;
  residentWorkers : Z;
  qSizePerCore : Z;
  qWeight : Z;
  msgTypeCheck : bool;
}.

(** [Server], with its [conf]; a nil [closers] is the empty list *)
Record Server := mkServer {
  set : settings;
  scope : Scope;
  registryAddr : bytes;
  providerID : bytes;
  closers : list closer;
  initialized : bool;
  closed : bool;
}.

(** What the servers of a process share: [chanRegistry.table], the unix sockets
    and TCP ports it listens on, the services registered for it in the LAN
    registry and in the root registry, [sharedInfo] and [cachedSelfProviderID] *)
Record node := mkNode {
  chans : chanRegistry;
  sockets : gset bytes;
  ports : gset bytes;
  lan : gset (bytes * bytes);
  wan : gset (bytes * bytes * bytes);
  shared_registryAddr : bytes;
  shared_providerID : bytes;
  cachedSelfProviderID : bytes;
}.

(** ** Settings *)

Definition DefaultQSizePerCore : Z := 128.
Definition DefaultQWeight : Z := 8.

(** The fields of [conf] an [Option] sets (the logger has no effect here, the
    queue size of the transport is the transports') *)
Inductive Option :=
| WithScope (sc : Scope)
| WithProviderID (id : bytes)
| WithRegistryAddr (addr : bytes)
| WithQsize (size : Z).

Definition apply_option (s : Server) (o : Option) : Server :=
  let '(mkServer set sc r p c i d) := s in
  match o with
  | WithScope sc => mkServer set sc r p c i d
  | WithProviderID p => mkServer set sc r p c i d
  | WithRegistryAddr r => mkServer set sc r p c i d
  | WithQsize _ => s
  end.

(** [NewServer] *)
Definition NewServer (options : list Option) : Server :=
  foldl apply_option
    (mkServer (mkSettings (str "default.org") [] false false false false false
                 1 DefaultQSizePerCore DefaultQWeight true)
       ScopeAll [] [] [] false false) options.

(** The setters of server_options.go *)
Inductive setter :=
| SetPublisher (name : bytes)
| SetScaleFactors (workers qsize weight : Z)
| SetBroadcastPort (port : bytes)
| DisableMsgTypeCheck
| EnableRootRegistry
| EnableAutoReverseProxy
| EnableServiceLister
| EnableIPObserver
| EnableMessageTracer.

Definition apply_setter (c : settings) (o : setter) : outcome settings :=
  let '(mkSettings p b rr rp sl ip mt rw qs qw tc) := c in
  match o with
  | SetPublisher name =>
      match checkNameConvention name with
      | Some _ => Panics (str "name should not contain _ or / or whitespace")
      | None => Return (mkSettings name b rr rp sl ip mt rw qs qw tc)
      end
  | SetScaleFactors workers qsize weight =>
      let rw := if bool_decide (0 < workers)%Z then workers else rw in
      let qs := if bool_decide (0 < qsize)%Z then qsize else qs in
      let qw := if bool_decide (weight = 0)%Z then qw else weight in
      Return (mkSettings p b rr rp sl ip mt rw qs qw tc)
  | SetBroadcastPort port => Return (mkSettings p port rr rp sl ip mt rw qs qw tc)
  | DisableMsgTypeCheck => Return (mkSettings p b rr rp sl ip mt rw qs qw false)
  | EnableRootRegistry => Return (mkSettings p b true rp sl ip mt rw qs qw tc)
  | EnableAutoReverseProxy => Return (mkSettings p b rr true sl ip mt rw qs qw tc)
  | EnableServiceLister => Return (mkSettings p b rr rp true ip mt rw qs qw tc)
  | EnableIPObserver => Return (mkSettings p b rr rp sl true mt rw qs qw tc)
  | EnableMessageTracer => Return (mkSettings p b rr rp sl ip true rw qs qw tc)
  end.

(** [service.canHandle]: the known types of a service are those it was published
    with and [QueryMsgQInfo] *)
Definition canHandle (c : settings) (knownMsgTypes : list bytes) (isKnownMessage : bool) (type : bytes) : bool :=
  if negb isKnownMessage then false
  else if msgTypeCheck c then bool_decide (type ∈ knownMsgTypes ++ [str "adaptiveservice.QueryMsgQInfo"])
  else true.

(** [hex.EncodeToString] *)
Definition hex_digit (d : N) : ascii := if (d <? 10)%N then ascii_of_N (48 + d) else ascii_of_N (87 + d).
Definition EncodeToString (b : bytes) : bytes :=
  b ≫= λ c, [hex_digit (N_of_ascii c / 16); hex_digit (N_of_ascii c mod 16)].

(** An interface: its link under "/sys/class/net" if it can be read, and its
    hardware address *)
Record netInterface := mkInterface { itf_dev : option bytes; HardwareAddr : bytes }.

(** [genID], given six random bytes *)
Definition genID (interfaces : list netInterface) (random : bytes) : bytes :=
  let real itf := match itf_dev itf with
                  | Some dev => negb (Contains dev (str "virtual")) && negb (bool_decide (HardwareAddr itf = []))
                  | None => false end in
  EncodeToString match filter real interfaces with
                 | itf :: _ => HardwareAddr itf
                 | [] => random
                 end.

(** ** Operations: a state of the server and its process, errors and panics *)

Record state := mkState { srv : Server; nd : node }.

Inductive result (A : Type) : Type :=
| Ok (a : A)
| Fails (e : error)
| Panicked (why : bytes).
Arguments Ok {A} a.
Arguments Fails {A} e.
Arguments Panicked {A} why.

Definition M (A : Type) : Type := state → result A * state.

#[export] Instance M_ret : MRet M := λ A a s, (Ok a, s).
#[export] Instance M_bind : MBind M := λ A B f m s,
  match m s with
  | (Ok a, s') => f a s'
  | (Fails e, s') => (Fails e, s')
  | (Panicked w, s') => (Panicked w, s')
  end.

Definition fails {A} (e : error) : M A := λ s, (Fails e, s).
Definition panics {A} (w : bytes) : M A := λ s, (Panicked w, s).
Definition gets {A} (f : state → A) : M A := λ s, (Ok (f s), s).
Definition when (b : bool) (m : M unit) : M unit := if b then m else mret tt.

(** The returned error, as a value *)
Definition try {A} (m : M A) : M (A + error) := λ s,
  match m s with
  | (Ok a, s') => (Ok (inl a), s')
  | (Fails e, s') => (Ok (inr e), s')
  | (Panicked w, s') => (Panicked w, s')
  end.

(** Assignments *)
Definition on_srv (f : Server → Server) : M unit := λ s, (Ok tt, mkState (f (srv s)) (nd s)).
Definition on_nd (f : node → node) : M unit := λ s, (Ok tt, mkState (srv s) (f (nd s))).

Definition set_scope (v : Scope) (s : Server) : Server :=
  let '(mkServer set _ r p c i d) := s in mkServer set v r p c i d.
Definition set_registryAddr (v : bytes) (s : Server) : Server :=
  let '(mkServer set sc _ p c i d) := s in mkServer set sc v p c i d.
Definition set_providerID (v : bytes) (s : Server) : Server :=
  let '(mkServer set sc r _ c i d) := s in mkServer set sc r v c i d.
Definition set_closers (v : list closer) (s : Server) : Server :=
  let '(mkServer set sc r p _ i d) := s in mkServer set sc r p v i d.
Definition set_initialized (s : Server) : Server :=
  let '(mkServer set sc r p c _ d) := s in mkServer set sc r p c true d.
Definition set_closed (s : Server) : Server :=
  let '(mkServer set sc r p c i _) := s in mkServer set sc r p c i true.

Definition on_chans (f : chanRegistry → chanRegistry) (n : node) : node :=
  let '(mkNode c so po l w ra pi ca) := n in mkNode (f c) so po l w ra pi ca.
Definition on_sockets (f : gset bytes → gset bytes) (n : node) : node :=
  let '(mkNode c so po l w ra pi ca) := n in mkNode c (f so) po l w ra pi ca.
Definition on_ports (f : gset bytes → gset bytes) (n : node) : node :=
  let '(mkNode c so po l w ra pi ca) := n in mkNode c so (f po) l w ra pi ca.
Definition on_lan (f : gset (bytes * bytes) → gset (bytes * bytes)) (n : node) : node :=
  let '(mkNode c so po l w ra pi ca) := n in mkNode c so po (f l) w ra pi ca.
Definition on_wan (f : gset (bytes * bytes * bytes) → gset (bytes * bytes * bytes)) (n : node) : node :=
  let '(mkNode c so po l w ra pi ca) := n in mkNode c so po l (f w) ra pi ca.
Definition set_shared_registryAddr (v : bytes) (n : node) : node :=
  let '(mkNode c so po l w _ pi ca) := n in mkNode c so po l w v pi ca.
Definition set_shared_providerID (v : bytes) (n : node) : node :=
  let '(mkNode c so po l w ra _ ca) := n in mkNode c so po l w ra v ca.
Definition set_cached (v : bytes) (n : node) : node :=
  let '(mkNode c so po l w ra pi _) := n in mkNode c so po l w ra pi v.

(** [Server.addCloser] *)
Definition addCloser (c : closer) : M unit := on_srv (λ s, set_closers (closers s ++ [c]) s).

(** What answers from outside the process: the builtin services of the other
    processes of the machine, the listeners of the kernel (each given what the
    process listens on already), the answers of the registries and the proxies *)
Record env := mkEnv {
  foreign_providerInfo : option (bytes + error);
  foreign_registryInfo : option (bytes + error);
  foreign_LANRegistry : bool;
  unix_listen : bytes → option error;
  tcp_listen : gset bytes → bytes → bytes + error;
  packet_listen : bytes → option error;
  regServiceInLAN_answer : bytes → bytes → bytes → option error;
  dial_registry : bytes → gset bytes → option error;
  regServiceInWAN_answer : bytes → bytes → bytes → bytes → bool → option error;
  reverse_proxy : bytes → bytes → bytes → bool;
  interfaceAddrs : list (bool * bool); (* To4() != nil, IsLoopback() *)
  testReverseProxy_answer : bytes → option error;
  interfaces : list netInterface;
  random6 : bytes;
}.

Definition SrvProviderInfo : bytes := str "providerInfo".
Definition SrvRegistryInfo : bytes := str "registryInfo".
Definition SrvLANRegistry : bytes := str "LANRegistry".
Definition SrvReverseProxy : bytes := str "reverseProxy".
Definition SrvServiceLister : bytes := str "serviceLister".
Definition SrvIPObserver : bytes := str "IPObserver".
Definition SrvMessageTracing : bytes := str "messageTracing".

(** A builtin service of this process that [Discover] finds in the process or
    the machine: by its channel, or by its abstract socket *)
Definition own_builtin (name : bytes) (n : node) : bool :=
  bool_decide (is_Some (chans n !! toPublisherServiceName BuiltinPublisher name)) ||
  bool_decide (toUDSAddr BuiltinPublisher name false [] ∈ sockets n).

Section env.
Variable E : env.

(** [GetSelfProviderID] *)
Definition GetSelfProviderID : M (bytes + error) :=
  n ← gets nd;
  if negb (bool_decide (cachedSelfProviderID n = [])) then mret (inl (cachedSelfProviderID n))
  else
    let answer := if own_builtin SrvProviderInfo n then Some (inl (shared_providerID n))
                  else foreign_providerInfo E in
    match answer with
    | None => mret (inr (ErrServiceNotFound BuiltinPublisher SrvProviderInfo))
    | Some (inr e) => mret (inr e)
    | Some (inl id) => on_nd (set_cached id);; mret (inl id)
    end.

(** [discoverRegistryAddr] *)
Definition discoverRegistryAddr (n : node) : bytes + error :=
  if own_builtin SrvRegistryInfo n then inl (shared_registryAddr n)
  else default (inr (ErrServiceNotFound BuiltinPublisher SrvRegistryInfo)) (foreign_registryInfo E).

(** The LAN registry of the machine is found *)
Definition LANRegistry_found (n : node) : bool := own_builtin SrvLANRegistry n || foreign_LANRegistry E.

Definition addr_in_use : error := errorString (str "bind: address already in use").
Definition LANRegistry_not_found : error := errorString (str "LANRegistry not found").

(** [net.Listen("unix", addr)] *)
Definition listen_unix (addr : bytes) : M unit :=
  n ← gets nd;
  if bool_decide (addr ∈ sockets n) then fails addr_in_use
  else match unix_listen E addr with
       | Some e => fails e
       | None => on_nd (on_sockets (λ so, {[addr]} ∪ so))
       end.

(** [net.Listen("tcp", ":"+port)]; the port it listens on *)
Definition listen_tcp (port : bytes) : M bytes :=
  n ← gets nd;
  match tcp_listen E (ports n) port with
  | inr e => fails e
  | inl port => if bool_decide (port ∈ ports n) then fails addr_in_use
                else on_nd (on_ports (λ po, {[port]} ∪ po));; mret port
  end.

(** [service.newChanTransport] *)
Definition newChanTransport (svc : service) : M closer :=
  n ← gets nd;
  match regServiceChan (publisherName svc) (serviceName svc)
          (mkChan (publisherName svc) (serviceName svc)) (chans n) with
  | Panics w => panics w
  | Return t => on_nd (on_chans (λ _, t));; mret (chanTransport_closer svc)
  end.

(** [service.newUDSTransport] *)
Definition newUDSTransport (svc : service) : M closer :=
  let addr := toUDSAddr (publisherName svc) (serviceName svc) (useNamedUDS svc) (svc_providerID svc) in
  listen_unix addr;;
  mret (streamTransport_closer (mkTransport svc (str "unix") addr false)).

(** [service.regServiceLAN], [service.delServiceLAN] *)
Definition regServiceLAN (svc : service) (port : bytes) : M unit :=
  n ← gets nd;
  if LANRegistry_found n then
    match regServiceInLAN_answer E (publisherName svc) (serviceName svc) port with
    | Some e => fails e
    | None => on_nd (on_lan (λ l, {[(publisherName svc, serviceName svc)]} ∪ l))
    end
  else fails LANRegistry_not_found.

Definition delServiceLAN (svc : service) : M unit :=
  n ← gets nd;
  if LANRegistry_found n then on_nd (on_lan (λ l, l ∖ {[(publisherName svc, serviceName svc)]}))
  else fails LANRegistry_not_found.

(** [service.regServiceWAN], [service.delServiceWAN] *)
Definition wan_key (svc : service) : bytes * bytes * bytes :=
  (publisherName svc, serviceName svc, svc_providerID svc).

Definition regServiceWAN (svc : service) (port : bytes) : M unit :=
  s ← gets id;
  match dial_registry E (registryAddr (srv s)) (ports (nd s)) with
  | Some e => fails e
  | None =>
      let proxied := negb (bool_decide (svc_providerID svc = providerID (srv s))) in
      match regServiceInWAN_answer E (publisherName svc) (serviceName svc) (svc_providerID svc) port proxied with
      | Some e => fails e
      | None => on_nd (on_wan (λ w, {[wan_key svc]} ∪ w))
      end
  end.

Definition delServiceWAN (svc : service) : M unit :=
  s ← gets id;
  match dial_registry E (registryAddr (srv s)) (ports (nd s)) with
  | Some e => fails e
  | None => on_nd (on_wan (λ w, w ∖ {[wan_key svc]}))
  end.

(** [connectReverseProxy]: a proxy that accepts registers the service for it *)
Definition connectReverseProxy (svc : service) : M bool :=
  if reverse_proxy E (publisherName svc) (serviceName svc) (svc_providerID svc) then
    on_nd (on_wan (λ w, {[wan_key svc]} ∪ w));; mret true
  else mret false.

(** [streamTransport.close]; errors of the registries are only logged.  It gives the
    services whose [reverseReceiver] it wakes by closing their connection to the proxy. *)
Definition streamTransport_close (st : streamTransport) : M (list service) :=
  let svc := st_svc st in
  let woken := if reverseProxyConn st then [svc] else [] in
  if bool_decide (lnr_network st = str "unix") then
    on_nd (on_sockets (λ so, so ∖ {[lnr_addr st]}));; mret woken
  else
    on_nd (on_ports (λ po, po ∖ {[lnr_addr st]}));;
    when (has_scope (svc_scope svc) ScopeLAN) (try (delServiceLAN svc);; mret tt);;
    when (has_scope (svc_scope svc) ScopeWAN) (try (delServiceWAN svc);; mret tt);;
    mret woken.

(** What [reverseReceiver] does once its connection to the proxy is lost, the one it
    has lost by [streamTransport.close] included: it looks for a proxy again, and goes
    on if it gets one. *)
Definition reverseReceiver_lost (svc : service) : M bool := connectReverseProxy svc.

(** [service.newTCPTransport]; registering tells whether it took a proxy *)
Definition register_WAN (st : streamTransport) (port : bytes) : M bool :=
  r ← try (regServiceWAN (st_svc st) port);
  match r with
  | inl _ => mret false
  | inr e => b ← connectReverseProxy (st_svc st);
             if b : bool then mret true else streamTransport_close st;; fails e
  end.

Definition newTCPTransport (svc : service) (onPort : bytes) : M closer :=
  port ← listen_tcp (if bool_decide (onPort = []) then str "0" else onPort);
  let st := mkTransport svc (str "tcp") port false in
  r ← (if has_scope (svc_scope svc) ScopeLAN then try (regServiceLAN svc port) else mret (inl tt));
  match r with
  | inr e => streamTransport_close st;; fails e
  | inl _ =>
      proxied ← (if has_scope (svc_scope svc) ScopeWAN then register_WAN st port else mret false);
      mret (streamTransport_closer (mkTransport svc (str "tcp") port proxied))
  end.

(** What [Server.publish] opens for a service in its scope *)
Definition open_transports (svc : service) : M unit :=
  when (has_scope (svc_scope svc) ScopeProcess) (newChanTransport svc ≫= addCloser);;
  when (has_scope (svc_scope svc) ScopeOS) (newUDSTransport svc ≫= addCloser);;
  when (has_scope (svc_scope svc) ScopeLAN || has_scope (svc_scope svc) ScopeWAN)
    (newTCPTransport svc [] ≫= addCloser).

(** [Server.publish] of a builtin service, once the server is initialised *)
Definition publish_builtin (sc : Scope) (name : bytes) : M unit :=
  s ← gets srv;
  open_transports (mkService BuiltinPublisher name (providerID s) (Z.land (scope s) sc) false).

(** [Server.publishProviderInfoService], [Server.publishRegistryInfoService] *)
Definition publishProviderInfoService : M unit :=
  s ← gets srv;
  if bool_decide (providerID s = []) then panics (str "provider ID not specified")
  else on_nd (set_shared_providerID (providerID s));;
       publish_builtin (Z.lor ScopeProcess ScopeOS) SrvProviderInfo.

Definition publishRegistryInfoService : M unit :=
  s ← gets srv;
  if bool_decide (registryAddr s = []) then panics (str "registry address not specified")
  else on_nd (set_shared_registryAddr (registryAddr s));;
       publish_builtin (Z.lor ScopeProcess ScopeOS) SrvRegistryInfo.

(** [Server.publishLANRegistryService], with [newLANRegistry] *)
Definition publishLANRegistryService : M unit :=
  s ← gets srv;
  match packet_listen E (broadcastPort (set s)) with
  | Some e => fails e
  | None => addCloser packetConn_closer;; addCloser registryLAN_closer;;
            publish_builtin (Z.lor ScopeProcess ScopeOS) SrvLANRegistry
  end.

(** [Server.initProviderID] *)
Definition provider_mismatch (user discovered : bytes) : error :=
  errorString (str "provider ID mismatch: user specified " ++ user ++ str ", discovered " ++ discovered).

Definition initProviderID : M unit :=
  r ← GetSelfProviderID;
  s ← gets srv;
  match r with
  | inr _ =>
      when (bool_decide (providerID s = [])) (on_srv (set_providerID (genID (interfaces E) (random6 E))));;
      publishProviderInfoService
  | inl id =>
      when (bool_decide (providerID s = [])) (on_srv (set_providerID id));;
      s ← gets srv;
      if bool_decide (providerID s = id) then mret tt else fails (provider_mismatch (providerID s) id)
  end.

(** The parts of [Server.init] *)
Definition init_LAN : M unit :=
  s ← gets id;
  when (has_scope (scope (srv s)) ScopeLAN)
    (if LANRegistry_found (nd s) then mret tt
     else if bool_decide (broadcastPort (set (srv s)) = [])
          then on_srv (set_scope (clear_scope (scope (srv s)) ScopeLAN))
          else publishLANRegistryService).

Definition init_WAN : M unit :=
  s ← gets id;
  when (has_scope (scope (srv s)) ScopeWAN)
    match discoverRegistryAddr (nd s) with
    | inl addr => on_srv (set_registryAddr addr)
    | inr _ => if bool_decide (registryAddr (srv s) = [])
               then on_srv (set_scope (clear_scope (scope (srv s)) ScopeWAN))
               else publishRegistryInfoService
    end.

(** [Server.startRootRegistry], its registry apart *)
Definition startRootRegistry (port : bytes) : M unit :=
  s ← gets srv;
  newTCPTransport (mkService BuiltinPublisher (str "rootRegistry") (providerID s) 0%Z false) port ≫= addCloser.

Definition init_root : M unit :=
  s ← gets srv;
  when (rootRegistry (set s))
    (if bool_decide (registryAddr s = []) then fails (errorString (str "root registry address not configured"))
     else if negb (has_scope (scope s) ScopeWAN) then panics (str "scope error")
     else startRootRegistry (default [] (snd <$> SplitHostPort (registryAddr s)))).

(** [canProxy] *)
Definition canProxy (s : state) : bool :=
  rootRegistry (set (srv s)) ||
  (bool_decide (2 ≤ length (filter (λ a, a.1 && negb a.2) (interfaceAddrs E))) &&
   match tcp_listen E (ports (nd s)) (str "0") with
   | inr _ => false
   | inl port =>
       match dial_registry E (registryAddr (srv s)) (ports (nd s)) with
       | Some _ => false
       | None => bool_decide (testReverseProxy_answer E port = None)
       end
   end).

Definition init_proxy : M unit :=
  s ← gets id;
  when (has_scope (scope (srv s)) ScopeWAN && autoReverseProxy (set (srv s)) && canProxy s)
    (publish_builtin (if rootRegistry (set (srv s)) then Z.lor ScopeLAN ScopeWAN else ScopeLAN) SrvReverseProxy).

Definition init_services : M unit :=
  s ← gets srv;
  when (serviceLister (set s)) (publish_builtin (Z.lor ScopeProcess ScopeOS) SrvServiceLister);;
  when (ipObserver (set s)) (publish_builtin (scope s) SrvIPObserver);;
  when (msgTracer (set s)) (publish_builtin (scope s) SrvMessageTracing).

(** [Server.init] *)
Definition init : M unit :=
  s ← gets srv;
  if initialized s then mret tt else
  on_srv set_initialized;;
  addCloser msgQ_closer;;
  when (has_scope (scope s) ScopeLAN || has_scope (scope s) ScopeWAN) initProviderID;;
  init_LAN;; init_WAN;; init_root;; init_proxy;; init_services.

(** [Server.publish]; the one option that matters here is [UseNamedUDS] *)
Definition publish (sc : Scope) (publisherName serviceName : bytes) (namedUDS : bool) : M unit :=
  init;;
  s ← gets srv;
  let svc_scope := Z.land (scope s) sc in
  when namedUDS initProviderID;;
  s' ← gets srv;
  open_transports (mkService publisherName serviceName (providerID (if namedUDS then s' else s)) svc_scope namedUDS).

(** [Server.Publish], [Server.PublishIn] *)
Definition name_refused : bytes := str "name should not contain _ or / or whitespace".

Definition PublishIn (sc : Scope) (serviceName : bytes) (namedUDS : bool) : M unit :=
  match checkNameConvention serviceName with
  | Some _ => panics name_refused
  | None => s ← gets srv; publish sc (publisher (set s)) serviceName namedUDS
  end.

Definition Publish (serviceName : bytes) (namedUDS : bool) : M unit :=
  s ← gets srv; PublishIn (scope s) serviceName namedUDS.

(** ** Closing *)

(** The [close] of a closer, with the receivers it wakes.  That of the message queue
    returns only when every worker has; ServerLife has the closers run with the workers. *)
Definition close_one (c : closer) : M (list service) :=
  match c with
  | msgQ_closer | packetConn_closer => mret []
  | registryLAN_closer => on_nd (on_lan (λ _, ∅));; mret []
  | chanTransport_closer svc =>
      on_nd (on_chans (delServiceChan (publisherName svc) (serviceName svc)));; mret []
  | streamTransport_closer st => streamTransport_close st
  end.

Fixpoint close_each (l : list closer) : M (list service) :=
  match l with
  | [] => mret []
  | c :: l => w ← close_one c; ws ← close_each l; mret (w ++ ws)
  end.

(** [Server.doClose], when the closers return *)
Definition doClose : M unit :=
  s ← gets srv;
  if bool_decide (length (closers s) = 0) then mret tt
  else close_each (closers s);; on_srv (set_closers []);; on_srv set_closed.

(** [errorRecover]: a value of [noError], [unrecoverableError] or
    [customErrorRecover] with what its function answers *)
Inductive errorRecover :=
| noError
| unrecoverableError (e : error)
| customErrorRecover (e : error) (text : bytes) (recovers : bool).

Definition Recover (e : errorRecover) : bool :=
  match e with customErrorRecover _ _ b => b | _ => false end.
Definition Error (e : errorRecover) : option error :=
  match e with noError => None | unrecoverableError e | customErrorRecover e _ _ => Some e end.

(** The loop of [Server.Serve] over what arrives on [errRecovers]: the error
    returned and what was not read, or nothing while it waits *)
Fixpoint serve_loop (events : list errorRecover) : option (option error * list errorRecover) :=
  match events with
  | [] => None
  | noError :: rest => Some (None, rest)
  | e :: rest => if Recover e then serve_loop rest else Some (Error e, rest)
  end.

(** [Server.Serve], given all that arrives; [None] while it waits *)
Definition Serve (events : list errorRecover) : M (option (option error)) :=
  r ← try init;
  match r with
  | inr e => mret (Some (Some e))
  | inl _ =>
      match serve_loop events with
      | None => mret None
      | Some (e, _) => doClose;; mret (Some e)
      end
  end.

(** [Server.Close] and [Server.close]: what they put on [errRecovers], of
    capacity one; the second component is false when the caller is left waiting *)
Definition send_close (e : errorRecover) (s : Server) (chan : list errorRecover) : list errorRecover * bool :=
  if bool_decide (length (closers s) = 0) then (chan, true)
  else if bool_decide (length chan < 1) then (chan ++ [e], true) else (chan, false).
Definition Close : Server → list errorRecover → list errorRecover * bool := send_close noError.
Definition close : Server → list errorRecover → list errorRecover * bool := send_close (unrecoverableError ErrServerClosed).
End env.

(** A process that publishes nothing yet *)
Definition empty_node : node := mkNode ∅ ∅ ∅ ∅ ∅ [] [] [].

(** An environment with nothing else on the machine and a registry that answers *)
Definition alone : env :=
  mkEnv None None false (λ _, None)
    (λ ports port, inl (if bool_decide (port = str "0") then str "4" ++ utoa (N.of_nat (size ports)) else port))
    (λ _, None) (λ _ _ _, None) (λ _ _, None) (λ _ _ _ _ _, None) (λ _ _ _, false) [] (λ _, None) []
    [ "001"; "002"; "003"; "004"; "005"; "006"]%char.

(** Another process of the machine has the provider ID "bb" and a LAN registry. *)
Definition neighbour : env :=
  mkEnv (Some (inl (str "bb"))) None true (λ _, None)
    (λ ports port, inl (if bool_decide (port = str "0") then str "4" ++ utoa (N.of_nat (size ports)) else port))
    (λ _, None) (λ _ _ _, None) (λ _ _, None) (λ _ _ _ _ _, None) (λ _ _ _, false) [] (λ _, None) [] [].

(** ** Steps that keep a property of the state *)

Definition keeps {A} (P : state → Prop) (m : M A) : Prop := ∀ s, P s → P (m s).2.

Lemma keeps_bind {A B} P (m : M A) (f : A → M B) :
  keeps P m → (∀ a, keeps P (f a)) → keeps P (m ≫= f).
Proof.
  intros Hm Hf s HP. unfold mbind, M_bind. specialize (Hm s HP).
  destruct (m s) as [[a|e|w] s']; simpl in *; [by apply Hf|done|done].
Qed.
Lemma keeps_ret {A} P (a : A) : keeps P (mret a : M A).
Proof. by intros s. Qed.
Lemma keeps_fails {A} P e : keeps P (fails e : M A).
Proof. by intros s. Qed.
Lemma keeps_panics {A} P w : keeps P (panics w : M A).
Proof. by intros s. Qed.
Lemma keeps_gets {A} P (f : state → A) : keeps P (gets f).
Proof. by intros s. Qed.
Lemma keeps_when P b m : keeps P m → keeps P (when b m).
Proof. intros Hm. destruct b; [done|apply keeps_ret]. Qed.
Lemma keeps_try {A} P (m : M A) : keeps P m → keeps P (try m).
Proof. intros Hm s HP. specialize (Hm s HP). unfold try. by destruct (m s) as [[a|e|w] s']. Qed.

Create HintDb keeps discriminated.
#[export] Hint Constants Opaque : keeps.
#[export] Hint Resolve keeps_ret keeps_fails keeps_panics keeps_gets keeps_try : keeps.

(** Follow a computation down to its primitive steps. *)
Ltac keep :=
  repeat first
    [ solve [auto with keeps]
    | apply keeps_bind; [|intros ?]
    | apply keeps_when
    | match goal with |- keeps _ (match ?x with _ => _ end) => destruct x end ].

(** What a property must allow for every operation before the closing to keep it *)
Definition same_tables (n n' : node) : Prop :=
  chans n = chans n' ∧ sockets n = sockets n' ∧ ports n = ports n' ∧ lan n = lan n' ∧ wan n = wan n'.

Class Stable (E : env) (P : state → Prop) := {
  stable_srv f : (∃ sc v, f = set_scope sc ∨ f = set_registryAddr v ∨ f = set_providerID v) → keeps P (on_srv f);
  stable_nd f : (∀ n, same_tables (f n) n) → keeps P (on_nd f);
  stable_own c : c = packetConn_closer ∨ c = registryLAN_closer → keeps P (addCloser c);
  stable_chan svc : keeps P (newChanTransport svc ≫= addCloser);
  stable_uds svc : keeps P (newUDSTransport E svc ≫= addCloser);
  stable_tcp svc port : keeps P (newTCPTransport E svc port ≫= addCloser);
}.

Section stable.
Context (E : env) (P : state → Prop) `{!Stable E P}.

Lemma keeps_set_scope v : keeps P (on_srv (set_scope v)).
Proof. apply (stable_srv (E := E)). exists v, []. by left. Qed.
Lemma keeps_set_registryAddr v : keeps P (on_srv (set_registryAddr v)).
Proof. apply (stable_srv (E := E)). exists 0%Z, v. by right; left. Qed.
Lemma keeps_set_providerID v : keeps P (on_srv (set_providerID v)).
Proof. apply (stable_srv (E := E)). exists 0%Z, v. by right; right. Qed.
Lemma keeps_set_shared_registryAddr v : keeps P (on_nd (set_shared_registryAddr v)).
Proof. apply (stable_nd (E := E)). by intros []. Qed.
Lemma keeps_set_shared_providerID v : keeps P (on_nd (set_shared_providerID v)).
Proof. apply (stable_nd (E := E)). by intros []. Qed.
Lemma keeps_set_cached v : keeps P (on_nd (set_cached v)).
Proof. apply (stable_nd (E := E)). by intros []. Qed.
Lemma keeps_addCloser c : c = packetConn_closer ∨ c = registryLAN_closer → keeps P (addCloser c).
Proof. apply (stable_own (E := E)). Qed.
Lemma keeps_chan svc : keeps P (newChanTransport svc ≫= addCloser).
Proof. apply (stable_chan (E := E)). Qed.
Lemma keeps_uds svc : keeps P (newUDSTransport E svc ≫= addCloser).
Proof. apply (stable_uds (E := E)). Qed.
Lemma keeps_tcp svc port : keeps P (newTCPTransport E svc port ≫= addCloser).
Proof. apply (stable_tcp (E := E)). Qed.
#[local] Hint Resolve keeps_set_scope keeps_set_registryAddr keeps_set_providerID
  keeps_set_shared_registryAddr keeps_set_shared_providerID keeps_set_cached keeps_addCloser
  keeps_chan keeps_uds keeps_tcp : keeps.

Lemma keeps_open_transports svc : keeps P (open_transports E svc).
Proof. unfold open_transports. keep. Qed.
#[local] Hint Resolve keeps_open_transports : keeps.
Lemma keeps_publish_builtin sc name : keeps P (publish_builtin E sc name).
Proof. unfold publish_builtin. keep. Qed.
#[local] Hint Resolve keeps_publish_builtin : keeps.
Lemma keeps_initProviderID : keeps P (initProviderID E).
Proof. unfold initProviderID, GetSelfProviderID, publishProviderInfoService. keep. Qed.
#[local] Hint Resolve keeps_initProviderID : keeps.
Lemma keeps_init_LAN : keeps P (init_LAN E).
Proof. unfold init_LAN, publishLANRegistryService. keep. Qed.
Lemma keeps_init_WAN : keeps P (init_WAN E).
Proof. unfold init_WAN, publishRegistryInfoService. keep. Qed.
Lemma keeps_init_root : keeps P (init_root E).
Proof. unfold init_root, startRootRegistry. keep. Qed.
Lemma keeps_init_services : keeps P (init_services E).
Proof. unfold init_services. keep. Qed.
Lemma keeps_init_proxy : keeps P (init_proxy E).
Proof. unfold init_proxy. keep. Qed.
#[local] Hint Resolve keeps_init_LAN keeps_init_WAN keeps_init_root keeps_init_proxy keeps_init_services : keeps.

(** The part of [init] after the message queue *)
Definition init_rest (sc : Scope) : M unit :=
  when (has_scope sc ScopeLAN || has_scope sc ScopeWAN) (initProviderID E);;
  init_LAN E;; init_WAN E;; init_root E;; init_proxy E;; init_services E.

Lemma keeps_init_rest sc : keeps P (init_rest sc).
Proof. unfold init_rest. keep. Qed.
End stable.

Lemma init_first E s : initialized (srv s) = false →
  init E s = init_rest E (scope (srv s))
    (mkState (set_closers (closers (srv s) ++ [msgQ_closer]) (set_initialized (srv s))) (nd s)).
Proof. intros Hi. unfold init, gets, mbind, M_bind. rewrite Hi. simpl. by destruct (srv s). Qed.

Lemma init_again E s : initialized (srv s) = true → init E s = (Ok tt, s).
Proof. intros Hi. unfold init, gets, mbind, M_bind. by rewrite Hi. Qed.

Lemma try_eq {A} (m : M A) s :
  try m s = match m s with
            | (Ok a, s') => (Ok (inl a), s') | (Fails e, s') => (Ok (inr e), s')
            | (Panicked w, s') => (Panicked w, s') end.
Proof. done. Qed.

(** A result and its state, put apart so that only the result is computed *)
Lemma result_eta {A} (x : result A * state) r : x.1 = r → x = (r, x.2).
Proof. destruct x. simpl. by intros ->. Qed.


(** Opening and closing transports leaves the server itself alone. *)
Lemma keeps_on_nd {v} f : keeps (λ s, srv s = v) (on_nd f).
Proof. by intros s. Qed.
Section grows.
Context (E : env) (v : Server).
#[local] Hint Resolve keeps_on_nd : keeps.
Lemma same_srv_chan svc : keeps (λ s, srv s = v) (newChanTransport svc).
Proof. unfold newChanTransport. keep. Qed.
Lemma same_srv_uds svc : keeps (λ s, srv s = v) (newUDSTransport E svc).
Proof. unfold newUDSTransport, listen_unix. keep. Qed.
Lemma same_srv_close st : keeps (λ s, srv s = v) (streamTransport_close E st).
Proof.
  unfold streamTransport_close, delServiceLAN, delServiceWAN. keep; apply keeps_try; keep.
Qed.
#[local] Hint Resolve same_srv_close : keeps.
Lemma same_srv_tcp svc port : keeps (λ s, srv s = v) (newTCPTransport E svc port).
Proof.
  unfold newTCPTransport, listen_tcp, register_WAN, connectReverseProxy, regServiceLAN, regServiceWAN.
  keep; apply keeps_try; keep.
Qed.
End grows.

(** ** What a successful computation did *)

Lemma bind_Ok {A B} (m : M A) (f : A → M B) s b s' :
  (m ≫= f) s = (Ok b, s') → ∃ a s1, m s = (Ok a, s1) ∧ f a s1 = (Ok b, s').
Proof. unfold mbind, M_bind. destruct (m s) as [[a|e|w] s1]; [eauto|done|done]. Qed.

Lemma when_Ok b m s s' : when b m s = (Ok tt, s') → (b = true ∧ m s = (Ok tt, s')) ∨ (b = false ∧ s' = s).
Proof. destruct b; [by left|]. intros [= <-]. by right. Qed.

Section ok.
Context (E : env).

Lemma newChanTransport_Ok svc s c s' :
  newChanTransport svc s = (Ok c, s') →
  let name := toPublisherServiceName (publisherName svc) (serviceName svc) in
  c = chanTransport_closer svc ∧ chans (nd s) !! name = None ∧
  s' = mkState (srv s) (on_chans (λ t, <[name := mkChan (publisherName svc) (serviceName svc)]> t) (nd s)).
Proof.
  unfold newChanTransport, regServiceChan, gets, mbind, M_bind; simpl.
  destruct (chans (nd s) !! _) eqn:Hn; simpl; [done|]. intros [= <- <-].
  split_and!; [done|done|]. by destruct s as [sv []].
Qed.

Lemma newUDSTransport_Ok svc s c s' :
  newUDSTransport E svc s = (Ok c, s') →
  let addr := toUDSAddr (publisherName svc) (serviceName svc) (useNamedUDS svc) (svc_providerID svc) in
  c = streamTransport_closer (mkTransport svc (str "unix") addr false) ∧ addr ∉ sockets (nd s) ∧
  s' = mkState (srv s) (on_sockets (λ so, {[addr]} ∪ so) (nd s)).
Proof.
  unfold newUDSTransport, listen_unix, gets, mbind, M_bind; simpl.
  set (addr := toUDSAddr _ _ _ _).
  destruct (bool_decide_reflect (addr ∈ sockets (nd s))); simpl; [done|].
  destruct (unix_listen E addr); simpl; [done|]. intros [= <- <-]. done.
Qed.

(** What a network listener registers *)
Definition lan_step (svc : service) (n n' : node) : Prop :=
  if has_scope (svc_scope svc) ScopeLAN
  then LANRegistry_found E n = true ∧ lan n' = {[(publisherName svc, serviceName svc)]} ∪ lan n
  else lan n' = lan n.
Definition wan_step (svc : service) (n n' : node) : Prop :=
  if has_scope (svc_scope svc) ScopeWAN then wan n' = {[wan_key svc]} ∪ wan n else wan n' = wan n.

Lemma register_WAN_Ok st port s b0 s' :
  register_WAN E st port s = (Ok b0, s') → s' = mkState (srv s) (on_wan (λ w, {[wan_key (st_svc st)]} ∪ w) (nd s)).
Proof.
  unfold register_WAN. intros (r & s1 & H1 & H2)%bind_Ok. rewrite try_eq in H1.
  assert (Hr : (r = inl tt ∧ s1 = mkState (srv s) (on_wan (λ w, {[wan_key (st_svc st)]} ∪ w) (nd s)))
             ∨ ∃ e, r = inr e ∧ s1 = s).
  { revert H1. unfold regServiceWAN, gets, mbind, M_bind; simpl.
    destruct (dial_registry E _ _); simpl; [intros [= <- <-]; eauto|].
    destruct (regServiceInWAN_answer E _ _ _ _ _); simpl; intros [= <- <-]; eauto. }
  destruct Hr as [[-> ->]|(e & -> & ->)]; [by injection H2 as _ <-|].
  apply bind_Ok in H2 as (b & s2 & H3 & H4). unfold connectReverseProxy in H3.
  destruct (reverse_proxy E _ _ _).
  - injection H3 as <- <-. by injection H4 as _ <-.
  - injection H3 as <- <-. by apply bind_Ok in H4 as (? & ? & _ & ?).
Qed.

Lemma newTCPTransport_Ok svc onPort s c s' :
  newTCPTransport E svc onPort s = (Ok c, s') →
  ∃ port proxied, c = streamTransport_closer (mkTransport svc (str "tcp") port proxied) ∧ srv s' = srv s ∧
    port ∉ ports (nd s) ∧ ports (nd s') = {[port]} ∪ ports (nd s) ∧
    chans (nd s') = chans (nd s) ∧ sockets (nd s') = sockets (nd s) ∧
    lan_step svc (nd s) (nd s') ∧ wan_step svc (nd s) (nd s').
Proof.
  unfold newTCPTransport. intros (port & s1 & H1 & H2)%bind_Ok.
  unfold listen_tcp, gets in H1. unfold mbind at 1, M_bind at 1 in H1; simpl in H1.
  destruct (tcp_listen E _ _) as [port'|]; [|done].
  destruct (bool_decide_reflect (port' ∈ ports (nd s))) as [|Hport]; [done|]. injection H1 as <- <-.
  apply bind_Ok in H2 as (r & s2 & H3 & H4).
  destruct r as [[]|e]; [|by apply bind_Ok in H4 as (? & ? & _ & ?)].
  apply bind_Ok in H4 as (proxied & s3 & H5 & [= <- <-]). exists port', proxied.
  assert (Hl : srv s2 = srv s ∧ ports (nd s2) = {[port']} ∪ ports (nd s) ∧ chans (nd s2) = chans (nd s) ∧
               sockets (nd s2) = sockets (nd s) ∧ lan_step svc (nd s) (nd s2) ∧ wan (nd s2) = wan (nd s)).
  { revert H3. unfold lan_step. destruct (has_scope (svc_scope svc) ScopeLAN).
    - rewrite try_eq. unfold regServiceLAN, gets, mbind, M_bind; simpl.
      replace (LANRegistry_found E (on_ports _ (nd s))) with (LANRegistry_found E (nd s))
        by (by destruct s as [sv []]).
      destruct (LANRegistry_found E (nd s)); simpl; [|done].
      destruct (regServiceInLAN_answer E _ _ _); simpl; [done|]. intros [= <-].
      by destruct s as [sv []]; simpl.
    - intros [= <-]. by destruct s as [sv []]; simpl. }
  destruct Hl as (E1 & E2 & E3 & E4 & E5 & E6).
  assert (Hn3 : srv s3 = srv s2 ∧ ports (nd s3) = ports (nd s2) ∧ chans (nd s3) = chans (nd s2) ∧
               sockets (nd s3) = sockets (nd s2) ∧ lan (nd s3) = lan (nd s2) ∧ wan_step svc (nd s2) (nd s3)).
  { unfold wan_step. destruct (has_scope (svc_scope svc) ScopeWAN); [apply register_WAN_Ok in H5 as ->|by injection H5 as _ <-].
    by destruct s2 as [sv []]; simpl. }
  destruct Hn3 as (F1 & F2 & F3 & F4 & F5 & F6).
  split_and!; [done|congruence|done|congruence|congruence|congruence| |].
  - unfold lan_step in *. by rewrite F5.
  - unfold wan_step in *. by rewrite <- E6.
Qed.
End ok.
