(* ===== verification/ServerLife.v ===== *)
(** The life of a server: every channel, socket, port and registration it opens
    is answered for by one of its closers, whatever its calls return, so that the
    end of [Serve] leaves the node as it was. *)
From S2P Require Import Prelude GoStrings Wildcard Names RootRegistry Lookup Server.

(** ** What the closers of a server answer for *)

Definition chan_of (c : closer) : option bytes :=
  match c with
  | chanTransport_closer svc => Some (toPublisherServiceName (publisherName svc) (serviceName svc))
  | _ => None
  end.
Definition socket_of (c : closer) : option bytes :=
  match c with
  | streamTransport_closer st => if bool_decide (lnr_network st = str "unix") then Some (lnr_addr st) else None
  | _ => None
  end.
Definition port_of (c : closer) : option bytes :=
  match c with
  | streamTransport_closer st => if bool_decide (lnr_network st = str "unix") then None else Some (lnr_addr st)
  | _ => None
  end.
(** The services its network listeners registered, in the scope [flag] *)
Definition registered_of (flag : Scope) (c : closer) : option service :=
  match c with
  | streamTransport_closer st =>
      if bool_decide (lnr_network st = str "unix") then None
      else if has_scope (svc_scope (st_svc st)) flag then Some (st_svc st) else None
  | _ => None
  end.
Definition lan_of (c : closer) : option (bytes * bytes) :=
  (λ svc, (publisherName svc, serviceName svc)) <$> registered_of ScopeLAN c.
Definition wan_of (c : closer) : option (bytes * bytes * bytes) :=
  wan_key <$> registered_of ScopeWAN c.

Definition covered {K} (f : closer → option K) (l : list closer) (k : K) : Prop :=
  ∃ c, c ∈ l ∧ f c = Some k.

Lemma covered_nil {K} (f : closer → option K) k : ¬ covered f [] k.
Proof. by intros (c & ?%elem_of_nil & _). Qed.
Lemma covered_cons {K} (f : closer → option K) c l k : covered f (c :: l) k ↔ f c = Some k ∨ covered f l k.
Proof. unfold covered. setoid_rewrite elem_of_cons. naive_solver. Qed.
Lemma covered_rcons {K} (f : closer → option K) c l k : covered f (l ++ [c]) k ↔ f c = Some k ∨ covered f l k.
Proof. unfold covered. setoid_rewrite elem_of_app. setoid_rewrite list_elem_of_singleton. naive_solver. Qed.

(** What is now on the node and is not answered for was there at the start. *)
Definition same_but {K} (f : closer → option K) (l : list closer) (now before : K → Prop) : Prop :=
  ∀ k, (covered f l k → ¬ before k) ∧ (¬ covered f l k → (now k ↔ before k)).
Definition no_more_but {K} (f : closer → option K) (l : list closer) (now before : K → Prop) : Prop :=
  ∀ k, now k → covered f l k ∨ before k.

Record accounted (E : env) (n0 : node) (l : list closer) (n : node) : Prop := mkAccounted {
  acc_chans : same_but chan_of l (λ k, is_Some (chans n !! k)) (λ k, is_Some (chans n0 !! k));
  acc_chans_kept : ∀ k, is_Some (chans n0 !! k) → chans n !! k = chans n0 !! k;
  acc_sockets : same_but socket_of l (.∈ sockets n) (.∈ sockets n0);
  acc_ports : same_but port_of l (.∈ ports n) (.∈ ports n0);
  acc_lan : foreign_LANRegistry E = true → no_more_but lan_of l (.∈ lan n) (.∈ lan n0);
  acc_wan : (∀ addr po, dial_registry E addr po = None) → no_more_but wan_of l (.∈ wan n) (.∈ wan n0);
}.

Section same_but.
Context {K : Type} (f : closer → option K) (l : list closer) (before : K → Prop).

Lemma same_but_add (now now' : K → Prop) c k0 :
  same_but f l now before → f c = Some k0 → ¬ now k0 → (∀ k, now' k ↔ k = k0 ∨ now k) →
  same_but f (l ++ [c]) now' before.
Proof.
  intros HI Hc Hk0 Hnow k. rewrite covered_rcons, Hc, Hnow. split.
  - intros [[= <-]|Hcov]; [|by apply HI]. intros Hb. destruct (HI k0) as [H1 H2].
    assert (Hn : ¬ covered f l k0) by (intros H; by apply (H1 H)). by apply Hk0, H2.
  - intros Hn. destruct (HI k) as [_ H2]. rewrite <- H2 by tauto. split; [|tauto].
    intros [->|?]; [|done]. destruct Hn. by left.
Qed.

Lemma same_but_plain (now : K → Prop) c :
  f c = None → same_but f l now before → same_but f (l ++ [c]) now before.
Proof. intros Hc HI k. rewrite covered_rcons, Hc. specialize (HI k). naive_solver. Qed.

Lemma same_but_drop (now now' : K → Prop) c :
  same_but f (c :: l) now before → (∀ k, now' k ↔ now k ∧ f c ≠ Some k) → same_but f l now' before.
Proof.
  intros HI Hnow k. destruct (HI k) as [H1 H2]. rewrite covered_cons in H1, H2. rewrite Hnow.
  split; [naive_solver|]. intros Hn. split.
  - intros [??]. apply H2; [naive_solver|done].
  - intros Hb. split; [apply H2; naive_solver|naive_solver].
Qed.

Lemma no_more_add (now now' : K → Prop) c :
  no_more_but f l now before → (∀ k, now' k → f c = Some k ∨ now k) → no_more_but f (l ++ [c]) now' before.
Proof. intros HI Hnow k Hk. rewrite covered_rcons. destruct (Hnow _ Hk) as [?|?%HI]; tauto. Qed.

Lemma no_more_drop (now now' : K → Prop) c :
  no_more_but f (c :: l) now before → (∀ k, now' k → now k ∧ f c ≠ Some k) → no_more_but f l now' before.
Proof.
  intros HI Hnow k Hk. destruct (Hnow _ Hk) as [[Hc|?]%HI ?]; [|tauto].
  rewrite covered_cons in Hc. tauto.
Qed.

Lemma no_more_sub (now now' : K → Prop) :
  no_more_but f l now before → (∀ k, now' k → now k) → no_more_but f l now' before.
Proof. intros HI Hnow k Hk. by apply HI, Hnow. Qed.
End same_but.

(** ** Everything opened is answered for by a closer *)

Section accounted.
Context (E : env) (n0 : node).
Abbreviation acc := (accounted E n0).

Lemma accounted_init : acc [] n0.
Proof.
  split; try done; try (intros k; split; [by intros ?%covered_nil|done]); intros _ k; by right.
Qed.

Lemma covered_perm {K} (f : closer → option K) l l' k : l ≡ₚ l' → covered f l k ↔ covered f l' k.
Proof. intros Hl. unfold covered. by setoid_rewrite Hl. Qed.

Lemma accounted_perm l l' n : l ≡ₚ l' → acc l n → acc l' n.
Proof.
  intros Hl [H1 H2 H3 H4 H5 H6].
  assert (Hc : ∀ K (f : closer → option K) k, covered f l' k ↔ covered f l k)
    by (intros; symmetry; by apply covered_perm).
  split; [intros k; rewrite Hc; apply H1|exact H2|intros k; rewrite Hc; apply H3|intros k; rewrite Hc; apply H4| |];
    intros HE k Hk; rewrite Hc; [by apply H5|by apply H6].
Qed.

Lemma accounted_tables l n n' : same_tables n' n → acc l n → acc l n'.
Proof. intros (E1 & E2 & E3 & E4 & E5) [H1 H2 H3 H4 H5 H6]. split; rewrite ?E1, ?E2, ?E3, ?E4, ?E5; assumption. Qed.

(** A closer that answers for nothing *)
Lemma accounted_plain l c n :
  chan_of c = None → socket_of c = None → port_of c = None → lan_of c = None → wan_of c = None →
  acc l n → acc (l ++ [c]) n.
Proof.
  intros ????? [H1 H2 H3 H4 H5 H6]. split; try (by apply same_but_plain); try done.
  - intros HE. eapply no_more_add; [by apply H5|]. auto.
  - intros HE. eapply no_more_add; [by apply H6|]. auto.
Qed.

Lemma accounted_chan l svc n t :
  regServiceChan (publisherName svc) (serviceName svc) (mkChan (publisherName svc) (serviceName svc)) (chans n) = Return t →
  acc l n → acc (l ++ [chanTransport_closer svc]) (on_chans (λ _, t) n).
Proof.
  unfold regServiceChan. set (name := toPublisherServiceName _ _).
  destruct (chans n !! name) as [?|] eqn:Hn; [done|]. intros [= <-] [H1 H2 H3 H4 H5 H6].
  destruct n as [c so po la w ra pi ca]; simpl in *. split; simpl.
  - eapply (same_but_add _ _ _ _ _ _ name); [exact H1|done|intros [? Hx]; congruence|]. intros k.
    destruct (decide (k = name)) as [->|Hk]; [rewrite lookup_insert_eq|rewrite lookup_insert_ne by done];
      split; intros; [by left|by eexists|by right|by destruct H as [?|?]].
  - intros k Hk. destruct (decide (k = name)) as [->|Hne]; [|rewrite lookup_insert_ne by done; auto].
    destruct Hk as [x Hk]. assert (Hc : c !! name = Some x) by (rewrite <- Hk; apply H2; by eexists).
    congruence.
  - by apply same_but_plain.
  - by apply same_but_plain.
  - intros HE. eapply no_more_add; [by apply H5|]. auto.
  - intros HE. eapply no_more_add; [by apply H6|]. auto.
Qed.

Lemma accounted_uds l svc addr n :
  addr ∉ sockets n → acc l n →
  acc (l ++ [streamTransport_closer (mkTransport svc (str "unix") addr false)]) (on_sockets (λ so, {[addr]} ∪ so) n).
Proof.
  intros Hn [H1 H2 H3 H4 H5 H6]. destruct n as [c so po la w ra pi ca]; simpl in *. split; simpl.
  - by apply same_but_plain.
  - done.
  - eapply same_but_add; [exact H3|done|exact Hn|]. set_solver.
  - by apply same_but_plain.
  - intros HE. eapply no_more_add; [by apply H5|]. auto.
  - intros HE. eapply no_more_add; [by apply H6|]. auto.
Qed.

Lemma accounted_port l svc port n :
  port ∉ ports n → acc l n →
  acc (l ++ [streamTransport_closer (mkTransport svc (str "tcp") port false)]) (on_ports (λ po, {[port]} ∪ po) n).
Proof.
  intros Hn [H1 H2 H3 H4 H5 H6]. destruct n as [c so po la w ra pi ca]; simpl in *. split; simpl.
  - by apply same_but_plain.
  - done.
  - by apply same_but_plain.
  - eapply same_but_add; [exact H4|done|exact Hn|]. set_solver.
  - intros HE. eapply no_more_add; [by apply H5|]. auto.
  - intros HE. eapply no_more_add; [by apply H6|]. auto.
Qed.

(** What a listener registers for its own service is answered for. *)
Lemma accounted_lan l svc port n :
  has_scope (svc_scope svc) ScopeLAN = true →
  acc (l ++ [streamTransport_closer (mkTransport svc (str "tcp") port false)]) n →
  acc (l ++ [streamTransport_closer (mkTransport svc (str "tcp") port false)])
      (on_lan (λ x, {[(publisherName svc, serviceName svc)]} ∪ x) n).
Proof.
  intros Hs [H1 H2 H3 H4 H5 H6]. destruct n as [c so po la w ra pi ca]; simpl in *. split; try done; simpl.
  intros HE k Hk. apply elem_of_union in Hk as [->%elem_of_singleton|Hk]; [|by apply H5].
  left. apply covered_rcons. left. unfold lan_of; simpl. by rewrite Hs.
Qed.

Lemma accounted_wan l svc port n :
  has_scope (svc_scope svc) ScopeWAN = true →
  acc (l ++ [streamTransport_closer (mkTransport svc (str "tcp") port false)]) n →
  acc (l ++ [streamTransport_closer (mkTransport svc (str "tcp") port false)])
      (on_wan (λ x, {[wan_key svc]} ∪ x) n).
Proof.
  intros Hs [H1 H2 H3 H4 H5 H6]. destruct n as [c so po la w ra pi ca]; simpl in *. split; try done; simpl.
  intros HE k Hk. apply elem_of_union in Hk as [->%elem_of_singleton|Hk]; [|by apply H6].
  left. apply covered_rcons. left. unfold wan_of; simpl. by rewrite Hs.
Qed.
End accounted.

Section closing.
Context (E : env) (n0 : node).
Abbreviation acc := (accounted E n0).

(** Undoing what the first closer of the list answers for *)
Lemma drop_socket l st n :
  lnr_network st = str "unix" → acc (streamTransport_closer st :: l) n →
  acc l (on_sockets (λ so, so ∖ {[lnr_addr st]}) n).
Proof.
  destruct st as [svc net addr b]; simpl. intros -> [H1 H2 H3 H4 H5 H6]. destruct n as [c so po la w ra pi ca]; simpl in *. split; simpl.
  - eapply same_but_drop; [exact H1|]. simpl. naive_solver.
  - done.
  - eapply same_but_drop; [exact H3|]. simpl. set_solver.
  - eapply same_but_drop; [exact H4|]. simpl. naive_solver.
  - intros HE. eapply no_more_drop; [by apply H5|]. simpl. naive_solver.
  - intros HE. eapply no_more_drop; [by apply H6|]. simpl. naive_solver.
Qed.

Lemma drop_chan l svc n :
  acc (chanTransport_closer svc :: l) n →
  acc l (on_chans (delServiceChan (publisherName svc) (serviceName svc)) n).
Proof.
  intros [H1 H2 H3 H4 H5 H6]. unfold delServiceChan. set (name := toPublisherServiceName _ _).
  destruct n as [c so po la w ra pi ca]; simpl in *. split; simpl.
  - eapply same_but_drop; [exact H1|]. intros k; simpl. fold name.
    destruct (decide (k = name)) as [->|Hk].
    + rewrite lookup_delete_eq. split; [by intros [? ?]|naive_solver].
    + rewrite lookup_delete_ne by done. naive_solver.
  - intros k Hk. assert (k ≠ name); [|by rewrite lookup_delete_ne; auto].
    intros ->. apply (H1 name); [|done]. apply covered_cons. by left.
  - eapply same_but_drop; [exact H3|]. simpl. naive_solver.
  - eapply same_but_drop; [exact H4|]. simpl. naive_solver.
  - intros HE. eapply no_more_drop; [by apply H5|]. simpl. naive_solver.
  - intros HE. eapply no_more_drop; [by apply H6|]. simpl. naive_solver.
Qed.

Lemma drop_plain l c n :
  chan_of c = None → socket_of c = None → port_of c = None → lan_of c = None → wan_of c = None →
  acc (c :: l) n → acc l n.
Proof.
  intros E1 E2 E3 E4 E5 [H1 H2 H3 H4 H5 H6]. split.
  - eapply same_but_drop; [exact H1|]. rewrite E1. naive_solver.
  - done.
  - eapply same_but_drop; [exact H3|]. rewrite E2. naive_solver.
  - eapply same_but_drop; [exact H4|]. rewrite E3. naive_solver.
  - intros HE. eapply no_more_drop; [by apply H5|]. rewrite E4. naive_solver.
  - intros HE. eapply no_more_drop; [by apply H6|]. rewrite E5. naive_solver.
Qed.

Lemma accounted_no_lan l n : acc l n → acc l (on_lan (λ _, ∅) n).
Proof.
  intros [H1 H2 H3 H4 H5 H6]. by destruct n; split.
Qed.

(** The node once the LAN registry has forgotten a service *)
Definition unregistered (svc : service) (n : node) : node :=
  if has_scope (svc_scope svc) ScopeLAN && LANRegistry_found E n
  then on_lan (λ l, l ∖ {[(publisherName svc, serviceName svc)]}) n else n.

Lemma streamTransport_close_tcp svc net port b s :
  net ≠ str "unix" →
  streamTransport_close E (mkTransport svc net port b) s =
  let n1 := unregistered svc (on_ports (λ po, po ∖ {[port]}) (nd s)) in
  let n2 := if has_scope (svc_scope svc) ScopeWAN
               && bool_decide (dial_registry E (registryAddr (srv s)) (ports n1) = None)
            then on_wan (λ w, w ∖ {[wan_key svc]}) n1 else n1 in
  (Ok (if b then [svc] else []), mkState (srv s) n2).
Proof.
  intros Hnet. destruct s as [sv n]. unfold streamTransport_close, unregistered; simpl.
  rewrite bool_decide_eq_false_2 by done. unfold mbind, M_bind; simpl.
  unfold when, delServiceLAN, delServiceWAN, try, gets, mbind, M_bind; simpl.
  destruct (has_scope _ ScopeLAN), (has_scope _ ScopeWAN), (LANRegistry_found E _); simpl; try done;
    destruct (dial_registry E _ _) eqn:Hd; simpl; by rewrite ?Hd.
Qed.

Lemma drop_tcp l svc net port b s :
  net ≠ str "unix" → acc (streamTransport_closer (mkTransport svc net port b) :: l) (nd s) →
  acc l (nd (streamTransport_close E (mkTransport svc net port b) s).2).
Proof.
  intros Hnet. rewrite streamTransport_close_tcp by done. destruct s as [sv [c so po la w ra pi ca]]. simpl.
  intros [H1 H2 H3 H4 H5 H6]. unfold unregistered. simpl in *.
  set (n1 := if has_scope _ ScopeLAN && _ then _ else _).
  assert (Hn1 : n1 = mkNode c so (po ∖ {[port]}) (lan n1) w ra pi ca) by (subst n1; by destruct (_ && _)).
  assert (Hl : foreign_LANRegistry E = true → ∀ k, k ∈ lan n1 → k ∈ la ∧
            lan_of (streamTransport_closer (mkTransport svc net port b)) ≠ Some k).
  { intros HE k. subst n1. unfold lan_of, LANRegistry_found; simpl. rewrite (bool_decide_eq_false_2 (net = _)) by done. rewrite HE, orb_true_r, andb_true_r.
    destruct (has_scope _ ScopeLAN); simpl; set_solver. }
  clearbody n1. rewrite Hn1. clear Hn1. set (la' := lan n1) in *. clearbody la'. simpl.
  assert (Hsplit : ∀ w', ((∀ addr po, dial_registry E addr po = None) → ∀ k, k ∈ w' → k ∈ w ∧
            wan_of (streamTransport_closer (mkTransport svc net port b)) ≠ Some k) →
            acc l (mkNode c so (po ∖ {[port]}) la' w' ra pi ca)).
  { intros w' Hw. split; simpl.
    - eapply same_but_drop; [exact H1|]. simpl. naive_solver.
    - done.
    - eapply same_but_drop; [exact H3|]. simpl.
      rewrite (bool_decide_eq_false_2 (net = _)) by done. naive_solver.
    - eapply same_but_drop; [exact H4|]. simpl.
      rewrite (bool_decide_eq_false_2 (net = _)) by done. set_solver.
    - intros HE. eapply no_more_drop; [by apply H5|]. exact (Hl HE).
    - intros HE. eapply no_more_drop; [by apply H6|]. exact (Hw HE). }
  unfold wan_of in Hsplit; simpl in Hsplit. rewrite (bool_decide_eq_false_2 (net = _)) in Hsplit by done.
  destruct (has_scope _ ScopeWAN) eqn:Hs; simpl.
  - destruct (bool_decide_reflect (dial_registry E (registryAddr sv) (po ∖ {[port]}) = None)) as [Hd|Hd].
    + apply Hsplit. set_solver.
    + apply Hsplit. intros HE. by rewrite HE in Hd.
  - apply Hsplit. naive_solver.
Qed.
End closing.

(** ** Opening *)
Section opening.
Context (E : env) (n0 : node).
Definition accounted_state (s : state) : Prop := accounted E n0 (closers (srv s)) (nd s).

Lemma closers_set_closers v s : closers (set_closers v s) = v.
Proof. by destruct s. Qed.

Lemma open_chan svc : keeps accounted_state (newChanTransport svc ≫= addCloser).
Proof.
  intros [sv n] Ha. unfold newChanTransport, gets, mbind, M_bind; simpl.
  destruct (regServiceChan _ _ _ _) as [t|w] eqn:Hr; simpl; [|done].
  unfold accounted_state; simpl. rewrite closers_set_closers. by apply accounted_chan.
Qed.

Lemma open_uds svc : keeps accounted_state (newUDSTransport E svc ≫= addCloser).
Proof.
  intros [sv n] Ha. unfold newUDSTransport, listen_unix, gets, mbind, M_bind; simpl.
  destruct (bool_decide_reflect (toUDSAddr (publisherName svc) (serviceName svc) (useNamedUDS svc) (svc_providerID svc) ∈ sockets n));
    simpl; [done|].
  destruct (unix_listen E _); simpl; [done|].
  unfold accounted_state; simpl. rewrite closers_set_closers. by apply accounted_uds.
Qed.

(** What [newTCPTransport] does after listening, with its closer pending *)
Abbreviation pending svc port s :=
  (accounted E n0 (closers (srv s) ++ [streamTransport_closer (mkTransport svc (str "tcp") port false)]) (nd s)).

Lemma pending_lan svc port s : has_scope (svc_scope svc) ScopeLAN = true → pending svc port s →
  pending svc port (regServiceLAN E svc port s).2.
Proof.
  intros Hs Hp. unfold regServiceLAN, gets, mbind, M_bind; simpl.
  destruct (LANRegistry_found E _); simpl; [|done].
  destruct (regServiceInLAN_answer E _ _ _); simpl; [done|]. by apply accounted_lan.
Qed.

Lemma pending_wan svc port s : has_scope (svc_scope svc) ScopeWAN = true → pending svc port s →
  pending svc port (regServiceWAN E svc port s).2.
Proof.
  intros Hs Hp. unfold regServiceWAN, gets, mbind, M_bind; simpl.
  destruct (dial_registry E _ _); simpl; [done|].
  destruct (regServiceInWAN_answer E _ _ _ _ _); simpl; [done|]. by apply accounted_wan.
Qed.

Lemma pending_proxy svc port s : has_scope (svc_scope svc) ScopeWAN = true → pending svc port s →
  pending svc port (connectReverseProxy E svc s).2.
Proof.
  intros Hs Hp. unfold connectReverseProxy. destruct (reverse_proxy E _ _ _); simpl; [|done].
  unfold mbind, M_bind; simpl. by apply accounted_wan.
Qed.

Lemma pending_close svc port s : pending svc port s →
  accounted_state (streamTransport_close E (mkTransport svc (str "tcp") port false) s).2.
Proof.
  intros Hp. rewrite streamTransport_close_tcp by done. unfold accounted_state.
  assert (Hd := drop_tcp E n0 (closers (srv s)) svc (str "tcp") port false s).
  rewrite streamTransport_close_tcp in Hd by done. apply Hd; [done|].
  eapply accounted_perm; [|exact Hp]. by rewrite Permutation_app_comm.
Qed.

(** What a closer answers for does not depend on its connection to a proxy. *)
Lemma pending_proxied svc port b s : pending svc port s →
  accounted E n0 (closers (srv s) ++ [streamTransport_closer (mkTransport svc (str "tcp") port b)]) (nd s).
Proof.
  assert (Hc : ∀ K (f : closer → option K) k,
    f (streamTransport_closer (mkTransport svc (str "tcp") port b)) = f (streamTransport_closer (mkTransport svc (str "tcp") port false)) →
    covered f (closers (srv s) ++ [streamTransport_closer (mkTransport svc (str "tcp") port b)]) k ↔
    covered f (closers (srv s) ++ [streamTransport_closer (mkTransport svc (str "tcp") port false)]) k).
  { intros K f k Hf. by rewrite !covered_rcons, Hf. }
  intros [H1 H2 H3 H4 H5 H6]. split; [intros k; rewrite Hc by done; apply H1|done|intros k; rewrite Hc by done; apply H3
    |intros k; rewrite Hc by done; apply H4|intros HE k Hk; rewrite Hc by done; by apply H5|intros HE k Hk; rewrite Hc by done; by apply H6].
Qed.

(** A pending closer becomes one of the server, or is closed. *)
Definition settled {A} (svc : service) (port : bytes) (r : result A * state) : Prop :=
  match r with
  | (Ok _, s) => pending svc port s
  | (_, s) => accounted_state s
  end.

Lemma close_settles {A} svc port e s : pending svc port s →
  settled svc port ((streamTransport_close E (mkTransport svc (str "tcp") port false);; @fails A e) s).
Proof.
  intros Hp%pending_close. rewrite streamTransport_close_tcp in Hp by done.
  unfold mbind, M_bind. rewrite streamTransport_close_tcp by done. exact Hp.
Qed.


Lemma regServiceLAN_total svc port s w : (regServiceLAN E svc port s).1 ≠ Panicked w.
Proof.
  unfold regServiceLAN, gets, mbind, M_bind; simpl.
  destruct (LANRegistry_found E _); simpl; [|done]. by destruct (regServiceInLAN_answer E _ _ _).
Qed.
Lemma regServiceWAN_total svc port s w : (regServiceWAN E svc port s).1 ≠ Panicked w.
Proof.
  unfold regServiceWAN, gets, mbind, M_bind; simpl.
  destruct (dial_registry E _ _); simpl; [done|]. by destruct (regServiceInWAN_answer E _ _ _ _ _).
Qed.
Lemma connectReverseProxy_total svc s : ∃ b, (connectReverseProxy E svc s).1 = Ok b.
Proof. unfold connectReverseProxy. destruct (reverse_proxy E _ _ _); by eexists. Qed.

Lemma register_WAN_settles svc port s :
  has_scope (svc_scope svc) ScopeWAN = true → pending svc port s →
  settled svc port (register_WAN E (mkTransport svc (str "tcp") port false) port s).
Proof.
  intros Hs Hp. unfold register_WAN. unfold mbind at 1, M_bind at 1. rewrite try_eq. simpl.
  assert (H1 := pending_wan svc port s Hs Hp). assert (H2 := regServiceWAN_total svc port s).
  destruct (regServiceWAN E svc port s) as [[[]|e|w] s1]; simpl in *; [done| |by destruct (H2 w)].
  unfold mbind at 1, M_bind at 1.
  assert (H3 := pending_proxy svc port s1 Hs H1). destruct (connectReverseProxy_total svc s1) as [b Hb].
  destruct (connectReverseProxy E svc s1) as [r s2]; simpl in *. subst r.
  destruct b; [done|]. by apply close_settles.
Qed.

Lemma open_tcp svc onPort : keeps accounted_state (newTCPTransport E svc onPort ≫= addCloser).
Proof.
  intros s Ha. unfold mbind, M_bind at 1. unfold newTCPTransport.
  unfold mbind at 1, M_bind at 1. unfold listen_tcp. unfold gets, mbind at 1, M_bind at 1; simpl.
  destruct (tcp_listen E _ _) as [port|e]; simpl; [|done].
  destruct (bool_decide_reflect (port ∈ ports (nd s))) as [|Hport]; simpl; [done|].
  unfold mbind at 1, M_bind at 1; simpl.
  set (s1 := mkState (srv s) (on_ports _ (nd s))).
  assert (H1 : pending svc port s1) by by apply accounted_port.
  clearbody s1. clear Ha Hport s.
  set (m := if has_scope (svc_scope svc) ScopeLAN then _ else _).
  assert (Hm : (∀ w, (m s1).1 ≠ Panicked w) ∧ (∀ e, (m s1).1 ≠ Fails e) ∧ pending svc port (m s1).2).
  { subst m. destruct (has_scope (svc_scope svc) ScopeLAN) eqn:Hs; [|done]. rewrite try_eq.
    assert (H2 := pending_lan svc port s1 Hs H1). assert (H3 := regServiceLAN_total svc port s1).
    destruct (regServiceLAN E svc port s1) as [[?|?|w] s2]; simpl in *; [done|done|]. by destruct (H3 w). }
  unfold mbind at 1, M_bind at 1. destruct (m s1) as [[r|e|w] s2]; simpl in *;
    [|by destruct Hm as (_ & Hm & _); destruct (Hm e)|by destruct Hm as (Hm & _); destruct (Hm w)].
  destruct Hm as (_ & _ & Hp). clear m H1 s1. destruct r as [?|e].
  - unfold mbind, M_bind. destruct (has_scope (svc_scope svc) ScopeWAN) eqn:Hs; simpl.
    + assert (H3 := register_WAN_settles svc port s2 Hs Hp). unfold settled in H3.
      destruct (register_WAN _ _ _ _) as [[b|e|w] s3]; simpl; [|done|done].
      unfold accounted_state; simpl. rewrite closers_set_closers. by apply pending_proxied.
    + unfold accounted_state; simpl. rewrite closers_set_closers. by apply pending_proxied.
  - assert (H3 := close_settles (A := closer) svc port e s2 Hp). unfold settled in H3.
    unfold mbind, M_bind in *. rewrite streamTransport_close_tcp in * by done. exact H3.
Qed.
End opening.

#[export] Instance accounted_stable E n0 : Stable E (accounted_state E n0).
Proof.
  split.
  - by intros f (sc & v & [-> | [-> | ->]]) [[] n].
  - intros f Hf [sv n] Ha. eapply accounted_tables; [apply Hf|exact Ha].
  - intros c Hc [sv n] Ha. unfold accounted_state; simpl. rewrite closers_set_closers.
    by destruct Hc as [-> | ->]; apply accounted_plain.
  - intros svc. apply open_chan.
  - intros svc. apply open_uds.
  - intros svc port. apply open_tcp.
Qed.

(** ** The list of closers only grows before the closing, behind that of the queue *)
Definition has_closers (s : state) : Prop := head (closers (srv s)) = Some msgQ_closer.

Lemma keeps_addCloser_has c : keeps has_closers (addCloser c).
Proof. intros [sv n]. unfold has_closers; simpl. rewrite closers_set_closers. by destruct (closers sv). Qed.

Lemma keeps_same_srv {A} (m : M A) : (∀ v, keeps (λ s, srv s = v) m) → keeps has_closers m.
Proof. intros Hm s Hs. unfold has_closers. by rewrite (Hm (srv s) s eq_refl). Qed.

#[export] Instance has_closers_stable E : Stable E has_closers.
Proof.
  split.
  - by intros f (sc & v & [-> | [-> | ->]]) [[] n].
  - by intros f Hf [sv n].
  - intros c _. apply keeps_addCloser_has.
  - intros svc. apply keeps_bind; [|intros; apply keeps_addCloser_has].
    apply keeps_same_srv. intros. apply same_srv_chan.
  - intros svc. apply keeps_bind; [|intros; apply keeps_addCloser_has].
    apply keeps_same_srv. intros. apply same_srv_uds.
  - intros svc port. apply keeps_bind; [|intros; apply keeps_addCloser_has].
    apply keeps_same_srv. intros. apply same_srv_tcp.
Qed.

(** [init] marks the server first and nothing unmarks it. *)
#[export] Instance initialized_stable E : Stable E (λ s, initialized (srv s) = true).
Proof.
  assert (Hadd : ∀ c, keeps (λ s, initialized (srv s) = true) (addCloser c)) by (by intros c [[] n]).
  assert (Hsame : ∀ A (m : M A), (∀ v, keeps (λ s, srv s = v) m) → keeps (λ s, initialized (srv s) = true) m)
    by (intros A m Hm s Hs; by rewrite (Hm (srv s) s eq_refl)).
  split.
  - by intros f (sc & v & [-> | [-> | ->]]) [[] n].
  - by intros f Hf [sv n].
  - intros c _. apply Hadd.
  - intros svc. apply keeps_bind; [apply Hsame; intros; apply same_srv_chan|apply Hadd].
  - intros svc. apply keeps_bind; [apply Hsame; intros; apply same_srv_uds|apply Hadd].
  - intros svc port. apply keeps_bind; [apply Hsame; intros; apply same_srv_tcp|apply Hadd].
Qed.

(** ** The closers as they run *)

(** The services of the transports that have a connection to a proxy *)
Definition proxied_services (l : list closer) : list service :=
  omap (λ c, match c with
             | streamTransport_closer st => if reverseProxyConn st then Some (st_svc st) else None
             | _ => None
             end) l.

Lemma proxied_cons c l : proxied_services (c :: l) = proxied_services [c] ++ proxied_services l.
Proof. exact (omap_app _ [c] l). Qed.

(** [doClose] under way: the closers still to be closed, the [reverseReceiver]s woken,
    the workers of the message queue that have not returned, and the server and node *)
Record closing := mkClosing { to_close : list closer; woken : list service; working : nat; at_state : state }.

(** The closer of the message queue waits for the workers; a receiver that was woken
    registers its service again when it finds a proxy, whatever proxies there are then
    ([E']), and is woken again when it loses that connection, or gives up. *)
Inductive closing_step (E : env) : closing → closing → Prop :=
| worker_returns l w n s : closing_step E (mkClosing l w (S n) s) (mkClosing l w n s)
| closer_closes c l w n s w' s' : (c = msgQ_closer → n = 0) → close_one E c s = (Ok w', s') →
    closing_step E (mkClosing (c :: l) w n s) (mkClosing l (w ++ w') n s')
| receiver_reconnects E' l w svc w' n s b s' : reverseReceiver_lost E' svc s = (Ok b, s') →
    closing_step E (mkClosing l (w ++ svc :: w') n s) (mkClosing l (if b then w ++ svc :: w' else w ++ w') n s').

(** ** A life of a server *)

(** A call of [PublishIn], or of [Publish] *)
Inductive call := call_PublishIn (sc : Scope) (name : bytes) (namedUDS : bool) | call_Publish (name : bytes) (namedUDS : bool).
Definition do_call (E : env) (c : call) : M unit :=
  match c with
  | call_PublishIn sc name named => PublishIn E sc name named
  | call_Publish name named => Publish E name named
  end.

(** The calls of the user of a server, whatever each returns *)
Definition run (E : env) (calls : list call) (s : state) : state := foldl (λ s c, (do_call E c s).2) s calls.

(** A server has its message queue to close first, or is not initialised. *)
Definition ready (s : state) : Prop := has_closers s ∨ (initialized (srv s) = false ∧ closers (srv s) = []).

Section life.
Context (E : env) (n0 : node).

Lemma keeps_init_accounted : keeps (accounted_state E n0) (init E).
Proof.
  intros s Hs. destruct (initialized (srv s)) eqn:Hi; [by rewrite init_again|].
  rewrite init_first by done. apply (keeps_init_rest E); [apply _|].
  destruct s as [sv n]. unfold accounted_state in *; simpl in *. rewrite closers_set_closers.
  by apply accounted_plain.
Qed.

Lemma init_has_closers s : ready s → has_closers (init E s).2.
Proof.
  intros Hs. destruct (initialized (srv s)) eqn:Hi; [rewrite init_again by done; destruct Hs as [?|[??]]; [done|congruence]|].
  rewrite init_first by done. apply (keeps_init_rest E); [apply _|].
  destruct s as [sv n]. unfold ready, has_closers in *; simpl in *. rewrite closers_set_closers.
  destruct Hs as [Hs|[_ ->]]; [by destruct (closers sv)|done].
Qed.

Lemma keeps_publish P `{!Stable E P} (Pinit : state → Prop) sc p name named s :
  (∀ s, Pinit s → P (init E s).2) → Pinit s → P (publish E sc p name named s).2.
Proof.
  intros Hi Hs%Hi. unfold publish. unfold mbind at 1, M_bind at 1.
  destruct (init E s) as [[[]|e|w] s1]; simpl in *; [|done|done].
  revert Hs. generalize s1. change (keeps P (s ← gets srv;
    let svc_scope := Z.land (scope s) sc in
    when named (initProviderID E);;
    s' ← gets srv;
    open_transports E (mkService p name (providerID (if named then s' else s)) svc_scope named))).
  apply keeps_bind; [auto with keeps|intros s']. apply keeps_bind; [apply keeps_when, (keeps_initProviderID E _)|].
  intros _. apply keeps_bind; [auto with keeps|]. intros. apply (keeps_open_transports E _).
Qed.

Lemma keeps_call P `{!Stable E P} (Pinit : state → Prop) c s :
  (∀ s, Pinit s → P (init E s).2) → (∀ s, P s → Pinit s) → Pinit s → Pinit (do_call E c s).2.
Proof.
  intros Hi HP Hs.
  assert (Hin : ∀ sc name named, Pinit (PublishIn E sc name named s).2).
  { intros sc name named. unfold PublishIn. destruct (checkNameConvention name); [done|].
    unfold gets, mbind at 1, M_bind at 1; simpl. apply HP. by eapply keeps_publish. }
  destruct c as [sc name named|name named]; [apply Hin|]. simpl. unfold Publish.
  unfold gets, mbind at 1, M_bind at 1; simpl. apply Hin.
Qed.

Lemma run_accounted calls s : accounted_state E n0 s → accounted_state E n0 (run E calls s).
Proof.
  revert s. induction calls as [|c calls IH]; intros s Hs; simpl; [done|]. apply IH.
  eapply (keeps_call (accounted_state E n0) (accounted_state E n0)); auto. apply keeps_init_accounted.
Qed.

Lemma run_ready calls s : ready s → ready (run E calls s).
Proof.
  revert s. induction calls as [|c calls IH]; intros s Hs; simpl; [done|]. apply IH.
  eapply (keeps_call has_closers ready); [|by left|done]. apply init_has_closers.
Qed.

(** A closer always closes, and wakes the receiver of its connection to a proxy. *)
Lemma close_one_accounted c l s : accounted E n0 (c :: l) (nd s) →
  ∃ s', close_one E c s = (Ok (proxied_services [c]), s') ∧ srv s' = srv s ∧ accounted E n0 l (nd s').
Proof.
  intros Ha. destruct c as [| | |svc|[svc net addr b]]; simpl.
  - eexists. split_and!; [done|done|]. by eapply drop_plain; [..|exact Ha].
  - eexists. split_and!; [done|done|]. by eapply drop_plain; [..|exact Ha].
  - eexists. split_and!; [done|done|]. apply accounted_no_lan. by eapply drop_plain; [..|exact Ha].
  - eexists. split_and!; [done|done|]. by apply drop_chan.
  - destruct (decide (net = str "unix")) as [->|Hnet].
    + eexists. split_and!; [by destruct b|done|]. by apply (drop_socket E n0 l (mkTransport svc (str "unix") addr b)).
    + pose proof (drop_tcp E n0 l svc net addr b s Hnet Ha) as Hd. rewrite streamTransport_close_tcp in * by done.
      eexists. split_and!; [by destruct b|done|done].
Qed.

Lemma close_each_accounted l s :
  accounted E n0 l (nd s) → ∃ s', close_each E l s = (Ok (proxied_services l), s') ∧ srv s' = srv s ∧ accounted E n0 [] (nd s').
Proof.
  revert s. induction l as [|c l IH]; intros s Ha; cbn [close_each]; [by eexists|].
  destruct (close_one_accounted c l s Ha) as (s1 & H1 & H2 & H3).
  destruct (IH s1 H3) as (s2 & H4 & H5 & H6). exists s2. unfold mbind, M_bind. rewrite H1, H4.
  split_and!; [|congruence|done]. rewrite (proxied_cons c l). done.
Qed.
End life.

(** The node is as it was. *)
Record restored (E : env) (n0 n : node) : Prop := mkRestored {
  rest_chans : chans n = chans n0;
  rest_sockets : sockets n = sockets n0;
  rest_ports : ports n = ports n0;
  rest_lan : foreign_LANRegistry E = true → lan n ⊆ lan n0;
  rest_wan : (∀ addr po, dial_registry E addr po = None) → wan n ⊆ wan n0;
}.

Lemma accounted_restored E n0 n : accounted E n0 [] n → restored E n0 n.
Proof.
  intros [H1 H2 H3 H4 H5 H6]. split.
  - apply map_eq. intros k. destruct (chans n0 !! k) as [x|] eqn:Hk.
    + rewrite <- Hk. apply H2. rewrite Hk. by eexists.
    + destruct (chans n !! k) eqn:Hn; [|done]. exfalso. destruct (H1 k) as [_ Hiff].
      assert (is_Some (chans n0 !! k)) as [??]; [|congruence].
      apply Hiff; [apply covered_nil|]. rewrite Hn. by eexists.
  - apply set_eq. intros k. apply H3, covered_nil.
  - apply set_eq. intros k. apply H4, covered_nil.
  - intros HE k Hk. by destruct (H5 HE k Hk) as [?%covered_nil|].
  - intros HE k Hk. by destruct (H6 HE k Hk) as [?%covered_nil|].
Qed.

(** What [init] leaves after any calls *)
Lemma run_init E calls s0 s1 : closers (srv s0) = [] → initialized (srv s0) = false →
  init E (run E calls s0) = (Ok tt, s1) → accounted_state E (nd s0) s1 ∧ has_closers s1.
Proof.
  intros Hc Hi Hinit. split.
  - assert (Ha : accounted_state E (nd s0) (run E calls s0)).
    { apply run_accounted. unfold accounted_state. rewrite Hc. apply accounted_init. }
    apply keeps_init_accounted in Ha. by rewrite Hinit in Ha.
  - assert (H : has_closers (init E (run E calls s0)).2); [|by rewrite Hinit in H].
    apply init_has_closers, run_ready. by right.
Qed.

(** The end of [Serve] *)
Lemma Serve_restores E calls events s0 s1 e rest :
  closers (srv s0) = [] → initialized (srv s0) = false →
  init E (run E calls s0) = (Ok tt, s1) → serve_loop events = Some (e, rest) →
  ∃ s2, Serve E events (run E calls s0) = (Ok (Some e), s2) ∧
        closers (srv s2) = [] ∧ closed (srv s2) = true ∧ restored E (nd s0) (nd s2).
Proof.
  intros Hc Hi Hinit Hloop. destruct (run_init E calls s0 s1 Hc Hi Hinit) as [Ha Hr].
  destruct (close_each_accounted E (nd s0) (closers (srv s1)) s1 Ha) as (s2 & H1 & H2 & H3).
  unfold Serve, doClose. unfold mbind at 1, M_bind at 1. rewrite try_eq, Hinit, Hloop.
  unfold gets, mbind, M_bind; simpl.
  rewrite bool_decide_eq_false_2 by (intros H%nil_length_inv; unfold has_closers in Hr; by rewrite H in Hr). rewrite H1.
  eexists. split_and!; [done| | |].
  - simpl. by destruct (srv s2).
  - simpl. by destruct (srv s2).
  - by apply accounted_restored.
Qed.

(** A node with the registrations at the root registry that the receivers of these
    closers may make again *)
Definition with_proxied (l : list closer) (n : node) : node :=
  on_wan (λ w, list_to_set (wan_key <$> proxied_services l) ∪ w) n.

Lemma accounted_more_wan E n0 f l n : (∀ k, k ∈ wan n0 → k ∈ f (wan n0)) → accounted E n0 l n → accounted E (on_wan f n0) l n.
Proof.
  intros Hf [H1 H2 H3 H4 H5 H6]. destruct n0 as [c so po la w ra pi ca]; simpl in *. split; try done; simpl.
  intros HE k Hk. destruct (H6 HE k Hk) as [?|?]; [by left|right; by apply Hf].
Qed.

(** The state of a closing *)
Record closing_ok (E : env) (n0 : node) (l0 : list closer) (c : closing) : Prop := mkClosingOk {
  co_accounted : accounted E (with_proxied l0 n0) (to_close c) (nd (at_state c));
  co_woken svc : svc ∈ woken c → svc ∈ proxied_services l0;
  co_to_close : to_close c `suffix_of` l0;
  co_working : working c ≠ 0 → to_close c = l0;
}.

Lemma closing_step_ok E n0 l0 c c' : head l0 = Some msgQ_closer → closing_ok E n0 l0 c → closing_step E c c' → closing_ok E n0 l0 c'.
Proof.
  intros Hhead [H1 H2 H3 H4]. destruct 1 as [l w n s|c l w n s w' s' Hq Hc|E' l w svc w' n s b s' Hr]; simpl in *.
  - split; simpl; [done|done|done|]. intros _. by apply H4.
  - destruct (close_one_accounted E _ c l s H1) as (s1 & Hc1 & _ & Ha). rewrite Hc in Hc1. injection Hc1 as -> ->.
    split; simpl; [done| |by eapply suffix_cons_l|].
    + intros svc [?|Hs]%elem_of_app; [by apply H2|]. destruct H3 as [pre ->].
      unfold proxied_services in *. rewrite omap_app. apply elem_of_app. right. cbn [omap list_omap] in *.
      destruct c as [| | | |st]; try (by apply elem_of_nil in Hs). destruct (reverseProxyConn st); [|by apply elem_of_nil in Hs].
      apply list_elem_of_singleton in Hs as ->. left.
    + intros Hn. rewrite <- (H4 Hn) in Hhead. injection Hhead as ->. by destruct (Hn (Hq eq_refl)).
  - assert (Hsvc : svc ∈ proxied_services l0) by (apply H2; set_solver).
    assert (Ha : accounted E (with_proxied l0 n0) l (nd s')).
    { unfold reverseReceiver_lost, connectReverseProxy in Hr. destruct (reverse_proxy E' _ _ _); [|by injection Hr as _ <-].
      injection Hr as _ <-. destruct H1 as [G1 G2 G3 G4 G5 G6]. destruct (nd s) as [c so po la wa ra pi ca]; simpl in *.
      split; try done; simpl. intros HE k [->%elem_of_singleton|Hk]%elem_of_union; [|by apply G6].
      right. unfold with_proxied. destruct n0; simpl. apply elem_of_union. left. apply elem_of_list_to_set, list_elem_of_fmap. by exists svc. }
    split; simpl; [done| |done|done]. intros svc' Hs. apply H2. destruct b; set_solver.
Qed.

(** All closers closed in one go *)
Lemma closing_all E l w s w' s' : close_each E l s = (Ok w', s') →
  rtc (closing_step E) (mkClosing l w 0 s) (mkClosing [] (w ++ w') 0 s').
Proof.
  revert w s w'. induction l as [|c l IH]; intros w s w' Hc; simpl in Hc.
  { injection Hc as <- <-. by rewrite app_nil_r. }
  apply bind_Ok in Hc as (w1 & s1 & H1 & Hc). apply bind_Ok in Hc as (w2 & s2 & H2 & [= <- <-]).
  eapply rtc_l; [by constructor|]. rewrite app_assoc. by apply IH.
Qed.

(** A closing can always go on to its end, once the workers have returned. *)
Lemma closing_can_end E n0 l w n s : accounted E n0 l (nd s) →
  ∃ w' s', rtc (closing_step E) (mkClosing l w n s) (mkClosing [] w' 0 s').
Proof.
  intros Ha. assert (rtc (closing_step E) (mkClosing l w n s) (mkClosing l w 0 s)) as Hret.
  { induction n as [|n IH]; [done|]. eapply rtc_l; [constructor|exact IH]. }
  destruct (close_each_accounted E n0 l s Ha) as (s' & Hc & _). exists (w ++ proxied_services l), s'.
  etrans; [exact Hret|]. by apply closing_all.
Qed.

(** C16. Whatever [Publish] and [PublishIn] calls were made and whatever they
    returned (a failure or a panic half way included), when [Serve] ends it returns what
    ended its loop, every closer has been closed, and the node is as the server found
    it: the same channel table, sockets and ports, and no more services in the LAN
    registry and in the root registry than before where those still answer.  The
    closers do not run alone: however they interleave with the workers of the queue and
    with the receivers of connections to proxies that the closing wakes, nothing is
    closed before the last worker has returned; from there the closing can always
    go on to its end; and when it gets there, and after, the node is as the server
    found it but for the root registry, where a service that was registered through a
    proxy, and no other, may be registered again. *)
Theorem server_leaves_no_trace E calls s0 s1 :
  closers (srv s0) = [] → initialized (srv s0) = false → init E (run E calls s0) = (Ok tt, s1) →
  (∀ events e rest, serve_loop events = Some (e, rest) →
     ∃ s2, Serve E events (run E calls s0) = (Ok (Some e), s2) ∧
           closers (srv s2) = [] ∧ closed (srv s2) = true ∧ restored E (nd s0) (nd s2)) ∧
  ∀ workers c, rtc (closing_step E) (mkClosing (closers (srv s1)) [] workers s1) c →
    (working c ≠ 0 → to_close c = closers (srv s1)) ∧
    (∃ w s', rtc (closing_step E) c (mkClosing [] w 0 s')) ∧
    (to_close c = [] → restored E (with_proxied (closers (srv s1)) (nd s0)) (nd (at_state c))).
Proof.
  intros Hc Hi Hinit. split; [intros events e rest Hloop; by eapply Serve_restores|].
  destruct (run_init E calls s0 s1 Hc Hi Hinit) as [Ha Hhead]. intros workers c Hrun.
  assert (closing_ok E (nd s0) (closers (srv s1)) c) as [H1 H2 H3 H4].
  { revert Hrun. apply rtc_invariant; [intros ? ?; by apply closing_step_ok|].
    split; simpl; [|by intros ? ?%elem_of_nil|done|done]. apply accounted_more_wan; [set_solver|exact Ha]. }
  split; [done|]. split; [destruct c; by eapply closing_can_end|]. intros Hnil. rewrite Hnil in H1. by apply accounted_restored.
Qed.

(** ** Witnesses *)

Definition example_calls : list call :=
  [call_Publish (str "echo") false; call_PublishIn ScopeAll (str "a b") false;
   call_PublishIn ScopeAll (str "echo") false; call_PublishIn ScopeOS (str "db") true].
Definition example_server : state :=
  mkState (NewServer [WithRegistryAddr (str "1.2.3.4:11985"); WithProviderID (str "bb")]) empty_node.

Lemma server_leaves_no_trace_witness :
  let s1 := run neighbour example_calls example_server in
  (∃ s2, Serve neighbour [customErrorRecover EOF [] true; noError] s1 = (Ok (Some None), s2) ∧
         closers (srv s2) = [] ∧ closed (srv s2) = true ∧ restored neighbour (nd example_server) (nd s2)) ∧
  (length (closers (srv s1)), size (chans (nd s1)), size (wan (nd s1))) = (7, 2, 1).
Proof.
  split.
  - apply (server_leaves_no_trace neighbour example_calls example_server
             (init neighbour (run neighbour example_calls example_server)).2) with (rest := []).
    + reflexivity.
    + reflexivity.
    + apply result_eta. vm_compute. reflexivity.
    + reflexivity.
  - vm_compute. reflexivity.
Defined.

(** A registry that answers but does not register, and a proxy that does: the service
    is there again after the server has ended. *)
Definition behind_proxy : env :=
  mkEnv (Some (inl (str "bb"))) None true (λ _, None)
    (λ ports port, inl (if bool_decide (port = str "0") then str "4" ++ utoa (N.of_nat (size ports)) else port))
    (λ _, None) (λ _ _ _, None) (λ _ _, None) (λ _ _ _ _ _, Some EOF) (λ _ _ _, true) [] (λ _, None) [] [].

Example proxied_stays :
  let s1 := (init behind_proxy (run behind_proxy [call_Publish (str "echo") false] example_server)).2 in
  let echo := mkService (str "default.org") (str "echo") (str "bb") ScopeAll false in
  ∃ s', rtc (closing_step behind_proxy) (mkClosing (closers (srv s1)) [] 0 s1) (mkClosing [] [echo] 0 s') ∧
    wan_key echo ∈ wan (nd s') ∧ wan_key echo ∉ wan (nd example_server).
Proof.
  intros s1 echo. assert (H : (close_each behind_proxy (closers (srv s1)) s1).1 = Ok [echo]) by (vm_compute; reflexivity).
  clearbody s1. destruct (close_each _ _ _) as [r s2] eqn:Hc. simpl in H. subst r.
  exists (reverseReceiver_lost behind_proxy echo s2).2. split; [|split].
  - etrans; [exact (closing_all _ _ [] _ _ _ Hc)|]. apply rtc_once. by apply (receiver_reconnects _ behind_proxy [] [] echo [] 0 s2 true).
  - destruct s2 as [sv []]. simpl. set_solver.
  - vm_compute. set_solver.
Qed.
