(* ===== verification/ServerScopes.v ===== *)
(** What publishing adds to a node, and the scopes a server is left with once it is
    initialised. *)
From S2P Require Import Prelude GoStrings Wildcard Names RootRegistry Lookup Server ServerLife.


(** What publishing in a scope adds to a server and its node *)
Record published (E : env) (svc : service) (s s' : state) : Prop := mkPublished {
  pub_chans : let name := toPublisherServiceName (publisherName svc) (serviceName svc) in
    if has_scope (svc_scope svc) ScopeProcess
    then chans (nd s) !! name = None ∧
         chans (nd s') = <[name := mkChan (publisherName svc) (serviceName svc)]> (chans (nd s))
    else chans (nd s') = chans (nd s);
  pub_sockets : let addr := toUDSAddr (publisherName svc) (serviceName svc) (useNamedUDS svc) (svc_providerID svc) in
    if has_scope (svc_scope svc) ScopeOS
    then addr ∉ sockets (nd s) ∧ sockets (nd s') = {[addr]} ∪ sockets (nd s)
    else sockets (nd s') = sockets (nd s);
  pub_ports : if has_scope (svc_scope svc) ScopeLAN || has_scope (svc_scope svc) ScopeWAN
    then ∃ port, port ∉ ports (nd s) ∧ ports (nd s') = {[port]} ∪ ports (nd s)
    else ports (nd s') = ports (nd s);
  pub_lan : if has_scope (svc_scope svc) ScopeLAN
    then LANRegistry_found E (nd s') = true ∧
         lan (nd s') = {[(publisherName svc, serviceName svc)]} ∪ lan (nd s)
    else lan (nd s') = lan (nd s);
  pub_wan : wan_step svc (nd s) (nd s');
  pub_closers : ∃ l, closers (srv s') = closers (srv s) ++ l ∧
    length l = (if has_scope (svc_scope svc) ScopeProcess then 1 else 0) +
               (if has_scope (svc_scope svc) ScopeOS then 1 else 0) +
               (if has_scope (svc_scope svc) ScopeLAN || has_scope (svc_scope svc) ScopeWAN then 1 else 0);
  pub_server : set_closers [] (srv s') = set_closers [] (srv s);
}.

Lemma LANRegistry_found_tables E n n' :
  chans n' = chans n → sockets n' = sockets n → LANRegistry_found E n' = LANRegistry_found E n.
Proof. intros H1 H2. unfold LANRegistry_found, own_builtin. by rewrite H1, H2. Qed.

Lemma addCloser_Ok c s s' : addCloser c s = (Ok tt, s') → s' = mkState (set_closers (closers (srv s) ++ [c]) (srv s)) (nd s).
Proof. by intros [= <-]. Qed.

(** Each transport, opened or not in the scope of the service *)
Definition opened_closers (b : bool) (s s' : state) : Prop :=
  ∃ l, closers (srv s') = closers (srv s) ++ l ∧ length l = (if b then 1 else 0) ∧
       set_closers [] (srv s') = set_closers [] (srv s).

Lemma opened_one c s : opened_closers true s (mkState (set_closers (closers (srv s) ++ [c]) (srv s)) (nd s)).
Proof. exists [c]. simpl. by destruct (srv s). Qed.

Lemma opened_same b s : b = false → opened_closers b s s.
Proof. intros ->. exists []. by rewrite app_nil_r. Qed.

Section published.
Context (E : env) (svc : service).

Lemma open_chan_Ok s s1 :
  when (has_scope (svc_scope svc) ScopeProcess) (newChanTransport svc ≫= addCloser) s = (Ok tt, s1) →
  let name := toPublisherServiceName (publisherName svc) (serviceName svc) in
  (if has_scope (svc_scope svc) ScopeProcess
   then chans (nd s) !! name = None ∧
        nd s1 = on_chans (λ t, <[name := mkChan (publisherName svc) (serviceName svc)]> t) (nd s)
   else nd s1 = nd s) ∧ opened_closers (has_scope (svc_scope svc) ScopeProcess) s s1.
Proof.
  intros [[Hb H]| [Hb ->]]%when_Ok; rewrite Hb; [|split; [done|by apply opened_same]].
  apply bind_Ok in H as (c & s' & (-> & Hn & ->)%newChanTransport_Ok & ->%addCloser_Ok).
  split; [done|]. apply (opened_one _ (mkState (srv s) _)).
Qed.

Lemma open_uds_Ok s s1 :
  when (has_scope (svc_scope svc) ScopeOS) (newUDSTransport E svc ≫= addCloser) s = (Ok tt, s1) →
  let addr := toUDSAddr (publisherName svc) (serviceName svc) (useNamedUDS svc) (svc_providerID svc) in
  (if has_scope (svc_scope svc) ScopeOS
   then addr ∉ sockets (nd s) ∧ nd s1 = on_sockets (λ so, {[addr]} ∪ so) (nd s)
   else nd s1 = nd s) ∧ opened_closers (has_scope (svc_scope svc) ScopeOS) s s1.
Proof.
  intros [[Hb H]| [Hb ->]]%when_Ok; rewrite Hb; [|split; [done|by apply opened_same]].
  apply bind_Ok in H as (c & s' & (-> & Hn & ->)%newUDSTransport_Ok & ->%addCloser_Ok).
  split; [done|]. apply (opened_one _ (mkState (srv s) _)).
Qed.

Lemma open_tcp_Ok s s1 :
  let net := has_scope (svc_scope svc) ScopeLAN || has_scope (svc_scope svc) ScopeWAN in
  when net (newTCPTransport E svc [] ≫= addCloser) s = (Ok tt, s1) →
  chans (nd s1) = chans (nd s) ∧ sockets (nd s1) = sockets (nd s) ∧
  (if net then ∃ port, port ∉ ports (nd s) ∧ ports (nd s1) = {[port]} ∪ ports (nd s) else ports (nd s1) = ports (nd s)) ∧
  lan_step E svc (nd s) (nd s1) ∧ wan_step svc (nd s) (nd s1) ∧ opened_closers net s s1.
Proof.
  intros net. intros [[Hb H]| [Hb ->]]%when_Ok; rewrite Hb.
  - apply bind_Ok in H as (c & s' & (port & b & -> & E1 & E2 & E3 & E4 & E5 & E6 & E7)%newTCPTransport_Ok & ->%addCloser_Ok).
    simpl. split_and!; [done|done|by eexists|done|done|].
    destruct (opened_one (streamTransport_closer (mkTransport svc (str "tcp") port b)) s') as (l & Hl & Hlen & Hs).
    exists l. rewrite E1 in *. done.
  - apply orb_false_iff in Hb as [H1 H2]. unfold lan_step, wan_step. rewrite H1, H2.
    split_and!; try done. by apply opened_same.
Qed.

Lemma open_transports_Ok s s' : open_transports E svc s = (Ok tt, s') → published E svc s s'.
Proof.
  unfold open_transports. intros ([] & s1 & (H1 & l1 & L1 & N1 & S1)%open_chan_Ok & Hs)%bind_Ok.
  apply bind_Ok in Hs as ([] & s2 & (H2 & l2 & L2 & N2 & S2)%open_uds_Ok & (C3 & K3 & P3 & La3 & W3 & l3 & L3 & N3 & S3)%open_tcp_Ok).
  assert (T2 : chans (nd s2) = chans (nd s1) ∧ ports (nd s2) = ports (nd s1) ∧ lan (nd s2) = lan (nd s1) ∧ wan (nd s2) = wan (nd s1)).
  { destruct (has_scope _ ScopeOS); [destruct H2 as [_ H2]|]; rewrite H2; by destruct (nd s1). }
  assert (T1 : sockets (nd s1) = sockets (nd s) ∧ ports (nd s1) = ports (nd s) ∧ lan (nd s1) = lan (nd s) ∧ wan (nd s1) = wan (nd s)).
  { destruct (has_scope _ ScopeProcess); [destruct H1 as [_ H1]|]; rewrite H1; by destruct (nd s). }
  destruct T1 as (K1 & P1 & La1 & W1), T2 as (C2 & P2 & La2 & W2). split.
  - rewrite C3, C2. destruct (has_scope _ ScopeProcess); [destruct H1 as [Hn H1]; split; [done|]|]; rewrite H1; by destruct (nd s).
  - rewrite K3, <- K1. destruct (has_scope _ ScopeOS); [destruct H2 as [Hn H2]; split; [done|]|]; rewrite H2; by destruct (nd s1).
  - rewrite <- P1, <- P2. exact P3.
  - unfold lan_step in La3. rewrite La2, La1 in La3. destruct (has_scope _ ScopeLAN); [|done].
    destruct La3 as [Hf ->]. split; [|done]. by rewrite <- Hf; apply LANRegistry_found_tables.
  - unfold wan_step in *. by rewrite W2, W1 in W3.
  - exists (l1 ++ l2 ++ l3). rewrite L3, L2, L1, <- !app_assoc, !length_app, N1, N2, N3. split; [done|]. lia.
  - congruence.
Qed.
End published.

(** C21. A successful [PublishIn] on an initialised server, in a scope, opens
    and registers the service exactly in the part of the scope that is the
    server's: its channel (whose name was free), its abstract socket (whose
    address was free), a port, the LAN registry (found, then) and the root
    registry; nothing else changes on the node, and the server has one more
    closer for each transport. In the process scope a taken name makes it panic. *)
Theorem publish_registers E sc name s :
  initialized (srv s) = true → checkNameConvention name = None →
  let p := publisher (set (srv s)) in
  let svc := mkService p name (providerID (srv s)) (Z.land (scope (srv s)) sc) false in
  (∀ s', PublishIn E sc name false s = (Ok tt, s') → published E svc s s') ∧
  (has_scope (scope (srv s)) ScopeProcess && has_scope sc ScopeProcess = true →
   is_Some (chans (nd s) !! toPublisherServiceName p name) →
   ∃ w, PublishIn E sc name false s = (Panicked w, s)).
Proof.
  intros Hi Hn p svc.
  assert (Heq : PublishIn E sc name false s = open_transports E svc s).
  { unfold PublishIn. rewrite Hn. unfold publish, gets, mbind, M_bind; simpl.
    rewrite init_again by done. done. }
  rewrite Heq. split; [intros s'; apply open_transports_Ok|].
  rewrite <- has_scope_land. intros Hp [ct Hct]. unfold open_transports. change (svc_scope svc) with (Z.land (scope (srv s)) sc).
  rewrite Hp. unfold when at 1, newChanTransport, regServiceChan, gets, mbind, M_bind.
  change (publisherName svc) with p. change (serviceName svc) with name.
  simpl. fold p. rewrite Hct. simpl. by eexists.
Qed.

(** ** The scopes of an initialised server *)

Lemma has_scope_clear_other sc flag g :
  has_scope (Z.lxor flag (2 ^ 16 - 1)) g = true → has_scope (clear_scope sc flag) g = has_scope sc g.
Proof. intros H. unfold clear_scope. by rewrite has_scope_land, H, andb_true_r. Qed.

(** The scope, the registry address and the settings only change where [init]
    assigns them. *)
Definition frame (v : Scope * bytes * settings) (s : state) : Prop :=
  (scope (srv s), registryAddr (srv s), set (srv s)) = v.

Section frame.
Context (E : env) (v : Scope * bytes * settings).

Lemma frame_on_nd f : keeps (frame v) (on_nd f).
Proof. by intros s. Qed.
Lemma frame_set_providerID x : keeps (frame v) (on_srv (set_providerID x)).
Proof. intros [[] n]. done. Qed.
Lemma frame_addCloser c : keeps (frame v) (addCloser c).
Proof. intros [[] n]. done. Qed.
Lemma frame_same_srv {A} (m : M A) : (∀ v, keeps (λ s, srv s = v) m) → keeps (frame v) m.
Proof. intros Hm s Hs. unfold frame. by rewrite (Hm (srv s) s eq_refl). Qed.
Lemma frame_chan svc : keeps (frame v) (newChanTransport svc).
Proof. apply frame_same_srv. intros. apply same_srv_chan. Qed.
Lemma frame_uds svc : keeps (frame v) (newUDSTransport E svc).
Proof. apply frame_same_srv. intros. apply same_srv_uds. Qed.
Lemma frame_tcp svc port : keeps (frame v) (newTCPTransport E svc port).
Proof. apply frame_same_srv. intros. apply same_srv_tcp. Qed.
#[local] Hint Resolve frame_on_nd frame_set_providerID frame_addCloser frame_chan frame_uds frame_tcp : keeps.

Lemma frame_publish_builtin sc name : keeps (frame v) (publish_builtin E sc name).
Proof. unfold publish_builtin, open_transports. keep. Qed.
#[local] Hint Resolve frame_publish_builtin : keeps.
Lemma frame_initProviderID : keeps (frame v) (initProviderID E).
Proof. unfold initProviderID, GetSelfProviderID, publishProviderInfoService. keep. Qed.
Lemma frame_publishLANRegistryService : keeps (frame v) (publishLANRegistryService E).
Proof. unfold publishLANRegistryService. keep. Qed.
Lemma frame_publishRegistryInfoService : keeps (frame v) (publishRegistryInfoService E).
Proof. unfold publishRegistryInfoService. keep. Qed.
Lemma frame_init_root : keeps (frame v) (init_root E).
Proof. unfold init_root, startRootRegistry. keep. Qed.
Lemma frame_init_proxy : keeps (frame v) (init_proxy E).
Proof. unfold init_proxy. keep. Qed.
Lemma frame_init_services : keeps (frame v) (init_services E).
Proof. unfold init_services. keep. Qed.
End frame.

(** Publishing a builtin service does not change where another one is found. *)
Section found.
Context (E : env) (X : bytes) (b : bool) (addr : bytes).

Definition found (s : state) : Prop := own_builtin X (nd s) = b ∧ shared_registryAddr (nd s) = addr.

Lemma found_on_srv f : keeps found (on_srv f).
Proof. by intros s. Qed.
Lemma found_set_shared_providerID v : keeps found (on_nd (set_shared_providerID v)).
Proof. intros [sv []]. done. Qed.
Lemma found_set_cached v : keeps found (on_nd (set_cached v)).
Proof. intros [sv []]. done. Qed.
Lemma found_addCloser c : keeps found (addCloser c).
Proof. by intros s. Qed.
Lemma found_on_ports f : keeps found (on_nd (on_ports f)).
Proof. intros [sv []]. done. Qed.
Lemma found_on_lan f : keeps found (on_nd (on_lan f)).
Proof. intros [sv []]. done. Qed.
Lemma found_on_wan f : keeps found (on_nd (on_wan f)).
Proof. intros [sv []]. done. Qed.

Lemma builtin_name_inj x y : toPublisherServiceName BuiltinPublisher x = toPublisherServiceName BuiltinPublisher y → x = y.
Proof. unfold toPublisherServiceName. by intros ?%app_inv_head%app_inv_head. Qed.

Lemma builtin_addr_inj x y : toUDSAddr BuiltinPublisher x false [] = toUDSAddr BuiltinPublisher y false [] → x = y.
Proof. unfold toUDSAddr. intros H. apply app_inv_head, app_inv_tail in H. by apply builtin_name_inj. Qed.

Lemma found_chan Y id sc named : Y ≠ X → keeps found (newChanTransport (mkService BuiltinPublisher Y id sc named)).
Proof.
  intros HY s [Hb Ha]. destruct (newChanTransport _ s) as [[c|e|w] s'] eqn:Hc.
  - apply newChanTransport_Ok in Hc as (_ & _ & ->). destruct s as [sv []]; simpl in *.
    unfold found, own_builtin in *; simpl in *. rewrite lookup_insert_ne; [done|]. by intros ?%builtin_name_inj.
  - unfold newChanTransport, gets, mbind, M_bind in Hc; simpl in Hc. by destruct (regServiceChan _ _ _ _).
  - unfold newChanTransport, gets, mbind, M_bind in Hc; simpl in Hc.
    destruct (regServiceChan _ _ _ _); [done|]. by injection Hc as _ <-.
Qed.

Lemma found_uds Y id sc : Y ≠ X → keeps found (newUDSTransport E (mkService BuiltinPublisher Y id sc false)).
Proof.
  intros HY s [Hb Ha]. unfold newUDSTransport, listen_unix, gets, mbind, M_bind; simpl.
  set (ad := toUDSAddr _ _ _ _). destruct (bool_decide (ad ∈ _)); simpl; [done|].
  destruct (unix_listen E ad); simpl; [done|]. destruct s as [sv []]; simpl in *. split; [|done].
  unfold own_builtin in *; simpl in *. rewrite <- Hb. f_equal. apply bool_decide_ext.
  rewrite elem_of_union, elem_of_singleton. split; [|by right]. intros [H|?]; [|done].
  destruct HY. symmetry. by apply builtin_addr_inj.
Qed.

#[local] Hint Resolve found_on_srv found_set_shared_providerID found_set_cached found_addCloser
  found_on_ports found_on_lan found_on_wan : keeps.
Lemma found_close svc port : keeps found (streamTransport_close E (mkTransport svc (str "tcp") port false)).
Proof.
  intros [sv []] H. rewrite streamTransport_close_tcp by done. unfold unregistered; simpl.
  destruct (has_scope _ _ && _); simpl; by destruct (has_scope _ _ && _).
Qed.
#[local] Hint Resolve found_close : keeps.
Lemma found_tcp svc port : keeps found (newTCPTransport E svc port).
Proof.
  unfold newTCPTransport, listen_tcp, register_WAN, connectReverseProxy, regServiceLAN, regServiceWAN.
  keep; apply keeps_try; keep.
Qed.
#[local] Hint Resolve found_chan found_uds found_tcp : keeps.

Lemma found_publish_builtin sc Y : Y ≠ X → keeps found (publish_builtin E sc Y).
Proof. intros HY. unfold publish_builtin, open_transports. keep. Qed.
#[local] Hint Resolve found_publish_builtin : keeps.
Lemma found_initProviderID : SrvProviderInfo ≠ X → keeps found (initProviderID E).
Proof. intros HX. unfold initProviderID, GetSelfProviderID, publishProviderInfoService. keep. Qed.
Lemma found_publishLANRegistryService : SrvLANRegistry ≠ X → keeps found (publishLANRegistryService E).
Proof. intros HX. unfold publishLANRegistryService. keep. Qed.
End found.

(** A builtin service stays found until the closing. *)
#[export] Instance found_stable E X : Stable E (λ s, own_builtin X (nd s) = true).
Proof.
  assert (Hmore : ∀ n n' : node, chans n ⊆ chans n' → sockets n ⊆ sockets n' →
                  own_builtin X n = true → own_builtin X n' = true).
  { intros n n' Hc Hs. unfold own_builtin. rewrite !orb_true_iff, !bool_decide_eq_true.
    intros [[ct Hct]|?]; [left; exists ct; by eapply lookup_weaken|right; set_solver]. }
  split.
  - by intros f Hf [sv n].
  - intros f Hf [sv n]. destruct (Hf n) as (E1 & E2 & _). simpl. unfold own_builtin. by rewrite E1, E2.
  - by intros c _ [sv n].
  - intros svc. apply keeps_bind; [|by intros ? s]. intros s Hs.
    destruct (newChanTransport svc s) as [[c|e|w] s'] eqn:Hc; simpl.
    + apply newChanTransport_Ok in Hc as (_ & Hn & ->). destruct s as [sv []]; simpl in *.
      eapply Hmore; [..|exact Hs]; simpl; [by apply insert_subseteq|done].
    + unfold newChanTransport, gets, mbind, M_bind in Hc; simpl in Hc. by destruct (regServiceChan _ _ _ _).
    + unfold newChanTransport, gets, mbind, M_bind in Hc; simpl in Hc.
      destruct (regServiceChan _ _ _ _); [done|]. by injection Hc as _ <-.
  - intros svc. apply keeps_bind; [|by intros ? s]. intros s Hs.
    unfold newUDSTransport, listen_unix, gets, mbind, M_bind; simpl.
    set (ad := toUDSAddr _ _ _ _). destruct (bool_decide (ad ∈ _)); simpl; [done|].
    destruct (unix_listen E ad); simpl; [done|]. destruct s as [sv []]; simpl in *.
    eapply Hmore; [..|exact Hs]; simpl; [done|set_solver].
  - intros svc port. apply keeps_bind; [|by intros ? s]. intros s Hs.
    by apply (found_tcp E X true (shared_registryAddr (nd s)) svc port s).
Qed.

Section scopes.
Context (E : env).

(** A step that keeps a property, on its result *)
Lemma keeps_Ok {A} P (m : M A) s a s' : keeps P m → P s → m s = (Ok a, s') → P s'.
Proof. intros Hm HP Hs. specialize (Hm s HP). by rewrite Hs in Hm. Qed.

Lemma publish_builtin_found X s s' :
  publish_builtin E (Z.lor ScopeProcess ScopeOS) X s = (Ok tt, s') →
  has_scope (scope (srv s)) ScopeProcess || has_scope (scope (srv s)) ScopeOS = true →
  own_builtin X (nd s') = true.
Proof.
  unfold publish_builtin, gets. unfold mbind, M_bind; simpl. intros [Hc Hs _ _ _ _ _]%open_transports_Ok Hsc.
  cbn [publisherName serviceName svc_scope useNamedUDS svc_providerID] in *.
  rewrite has_scope_land in Hc, Hs. unfold own_builtin. apply orb_true_iff. rewrite !bool_decide_eq_true.
  apply orb_true_iff in Hsc as [Hsc|Hsc].
  - left. rewrite Hsc in Hc. destruct Hc as [_ ->]. rewrite lookup_insert_eq. by eexists.
  - right. rewrite Hsc in Hs. destruct Hs as [_ ->]. set_solver.
Qed.

Lemma discoverRegistryAddr_found b addr n :
  own_builtin SrvRegistryInfo n = b ∧ shared_registryAddr n = addr →
  discoverRegistryAddr E n = if b then inl addr
    else default (inr (ErrServiceNotFound BuiltinPublisher SrvRegistryInfo)) (foreign_registryInfo E).
Proof. intros [Hb Ha]. unfold discoverRegistryAddr. by rewrite Hb, Ha. Qed.

(** A step that leaves the registry info alone does not change what is discovered. *)
Lemma discoverRegistryAddr_kept (m : M unit) s s' :
  (∀ b addr, keeps (found SrvRegistryInfo b addr) m) → m s = (Ok tt, s') →
  discoverRegistryAddr E (nd s') = discoverRegistryAddr E (nd s).
Proof.
  intros Hm Hs.
  assert (Hf := keeps_Ok _ _ _ _ _ (Hm _ _) (conj eq_refl eq_refl) Hs).
  by rewrite (discoverRegistryAddr_found _ _ _ Hf).
Qed.

Lemma LANRegistry_found_kept (m : M unit) s s' :
  (∀ b addr, keeps (found SrvLANRegistry b addr) m) → m s = (Ok tt, s') →
  LANRegistry_found E (nd s') = LANRegistry_found E (nd s).
Proof.
  intros Hm Hs.
  assert (Hf := keeps_Ok _ _ _ _ _ (Hm _ _) (conj eq_refl eq_refl) Hs).
  unfold LANRegistry_found. by destruct Hf as [-> _].
Qed.

Lemma LANRegistry_found_stays (m : M unit) s s' :
  keeps (λ s, own_builtin SrvLANRegistry (nd s) = true) m → m s = (Ok tt, s') →
  LANRegistry_found E (nd s) = true → LANRegistry_found E (nd s') = true.
Proof.
  unfold LANRegistry_found. rewrite !orb_true_iff. intros Hm Hs [Hf|Hf]; [left|by right].
  exact (keeps_Ok _ _ _ _ _ Hm Hf Hs).
Qed.

(** The scope after the LAN, then the WAN part of [init] *)
Definition scope_LAN (s : state) : Scope :=
  if has_scope (scope (srv s)) ScopeLAN && negb (LANRegistry_found E (nd s)) && bool_decide (broadcastPort (set (srv s)) = [])
  then clear_scope (scope (srv s)) ScopeLAN else scope (srv s).
Definition discovered_or (a : bytes) (r : bytes + error) : bytes := match r with inl a => a | inr _ => a end.
Definition is_inl {A B} (r : A + B) : bool := match r with inl _ => true | inr _ => false end.

Lemma init_LAN_Ok s s' :
  init_LAN E s = (Ok tt, s') →
  frame (scope_LAN s, registryAddr (srv s), set (srv s)) s' ∧
  discoverRegistryAddr E (nd s') = discoverRegistryAddr E (nd s) ∧
  (has_scope (scope (srv s)) ScopeProcess || has_scope (scope (srv s)) ScopeOS = true →
   has_scope (scope (srv s')) ScopeLAN = true → LANRegistry_found E (nd s') = true).
Proof.
  unfold init_LAN, gets. unfold mbind at 1, M_bind at 1. unfold scope_LAN. cbn [id srv nd].
  intros [[Hl H]|[Hl ->]]%when_Ok; cbn [id srv nd] in *; rewrite Hl; simpl.
  2: { split_and!; [done|done|]. intros _. congruence. }
  destruct (LANRegistry_found E (nd s)) eqn:Hf; simpl.
  { injection H as <-. done. }
  destruct (bool_decide (broadcastPort (set (srv s)) = [])) eqn:Hb.
  - injection H as <-. destruct s as [[] n]; simpl in *. split_and!; [done|done|].
    by rewrite has_scope_clear.
  - split_and!.
    + by eapply keeps_Ok; [apply frame_publishLANRegistryService| |exact H].
    + eapply discoverRegistryAddr_kept; [|exact H]. intros. by apply found_publishLANRegistryService.
    + intros Hsc _. unfold LANRegistry_found. apply orb_true_iff. left.
      unfold publishLANRegistryService, gets in H. unfold mbind at 1, M_bind at 1 in H.
      destruct (packet_listen E _); [done|].
      apply bind_Ok in H as ([] & s1 & ->%addCloser_Ok & ([] & s2 & ->%addCloser_Ok & H)%bind_Ok).
      eapply publish_builtin_found; [exact H|]. by destruct (srv s).
Qed.

Lemma init_WAN_Ok s s' :
  init_WAN E s = (Ok tt, s') →
  let keep := is_inl (discoverRegistryAddr E (nd s)) || negb (bool_decide (registryAddr (srv s) = [])) in
  let w := has_scope (scope (srv s)) ScopeWAN in
  frame (if w && negb keep then clear_scope (scope (srv s)) ScopeWAN else scope (srv s),
         if w then discovered_or (registryAddr (srv s)) (discoverRegistryAddr E (nd s)) else registryAddr (srv s),
         set (srv s)) s'.
Proof.
  unfold init_WAN, gets. unfold mbind at 1, M_bind at 1. cbn [id srv nd].
  intros [[Hw H]|[Hw ->]]%when_Ok; cbn [id srv nd] in *; rewrite Hw; simpl; [|done].
  destruct (discoverRegistryAddr E (nd s)) as [a|e]; simpl.
  { injection H as <-. by destruct s as [[] n]. }
  destruct (bool_decide (registryAddr (srv s) = [])) eqn:Hr; simpl.
  - injection H as <-. by destruct s as [[] n].
  - by eapply keeps_Ok; [apply frame_publishRegistryInfoService| |exact H].
Qed.

Lemma init_root_Ok s s' : init_root E s = (Ok tt, s') →
  rootRegistry (set (srv s)) = true → registryAddr (srv s) ≠ [] ∧ has_scope (scope (srv s)) ScopeWAN = true.
Proof.
  unfold init_root, gets. unfold mbind at 1, M_bind at 1. intros [[Hb H]|[Hb _]]%when_Ok Hr; [|congruence].
  destruct (bool_decide_reflect (registryAddr (srv s) = [])); [done|].
  destruct (has_scope (scope (srv s)) ScopeWAN); [done|]. done.
Qed.
End scopes.

(** Dropping the LAN and the WAN scope, each where it is there and unserved *)
Lemma scopes_left sc dropLAN dropWAN sc2 sc3 :
  sc2 = (if has_scope sc ScopeLAN && dropLAN then clear_scope sc ScopeLAN else sc) →
  sc3 = (if has_scope sc2 ScopeWAN && dropWAN then clear_scope sc2 ScopeWAN else sc2) →
  has_scope sc3 ScopeProcess = has_scope sc ScopeProcess ∧ has_scope sc3 ScopeOS = has_scope sc ScopeOS ∧
  has_scope sc3 ScopeLAN = has_scope sc ScopeLAN && negb dropLAN ∧
  has_scope sc3 ScopeWAN = has_scope sc ScopeWAN && negb dropWAN ∧
  has_scope sc2 ScopeWAN = has_scope sc ScopeWAN ∧ has_scope sc2 ScopeLAN = has_scope sc3 ScopeLAN.
Proof.
  intros -> ->.
  assert (H1 : ∀ x, has_scope (clear_scope x ScopeLAN) ScopeLAN = false) by (intros; by apply has_scope_clear).
  assert (H2 : ∀ x, has_scope (clear_scope x ScopeWAN) ScopeWAN = false) by (intros; by apply has_scope_clear).
  assert (H3 : ∀ x, has_scope (clear_scope x ScopeWAN) ScopeLAN = has_scope x ScopeLAN) by (intros; by apply has_scope_clear_other).
  assert (H4 : ∀ x, has_scope (clear_scope x ScopeLAN) ScopeWAN = has_scope x ScopeWAN) by (intros; by apply has_scope_clear_other).
  assert (H5 : ∀ x f, f = ScopeLAN ∨ f = ScopeWAN → has_scope (clear_scope x f) ScopeProcess = has_scope x ScopeProcess ∧
                      has_scope (clear_scope x f) ScopeOS = has_scope x ScopeOS)
    by (by intros x f [-> | ->]; split; apply has_scope_clear_other).
  destruct (H5 sc ScopeLAN) as [H6 H7], (H5 sc ScopeWAN) as [H8 H9],
    (H5 (clear_scope sc ScopeLAN) ScopeWAN) as [H10 H11]; [tauto..|].
  destruct (has_scope sc ScopeLAN) eqn:EL, (has_scope sc ScopeWAN) eqn:EW, dropLAN, dropWAN; simpl;
    rewrite ?H4, ?EW; simpl;
    rewrite ?H2, ?H3, ?H4, ?H1, ?H10, ?H11, ?H6, ?H7, ?H8, ?H9, ?EL, ?EW; done.
Qed.

(** What [init] does before and after it looks at the scopes leaves them alone. *)
Lemma init_providerID_Ok E b v s s' : frame v s → when b (initProviderID E) s = (Ok tt, s') →
  frame v s' ∧ discoverRegistryAddr E (nd s') = discoverRegistryAddr E (nd s) ∧
  LANRegistry_found E (nd s') = LANRegistry_found E (nd s).
Proof.
  intros Hf H. split_and!.
  - eapply keeps_Ok; [|exact Hf|exact H]. apply keeps_when, frame_initProviderID.
  - eapply discoverRegistryAddr_kept; [|exact H]. intros. by apply keeps_when, found_initProviderID.
  - eapply LANRegistry_found_kept; [|exact H]. intros. by apply keeps_when, found_initProviderID.
Qed.

Lemma init_tail_Ok E s s' :
  (init_root E;; init_proxy E;; init_services E) s = (Ok tt, s') →
  frame (scope (srv s), registryAddr (srv s), set (srv s)) s' ∧
  (LANRegistry_found E (nd s) = true → LANRegistry_found E (nd s') = true) ∧
  (rootRegistry (set (srv s)) = true → registryAddr (srv s) ≠ [] ∧ has_scope (scope (srv s)) ScopeWAN = true).
Proof.
  intros ([] & s4 & H4 & ([] & s5 & H5 & H6)%bind_Ok)%bind_Ok. split_and!; [| |by eapply init_root_Ok].
  - eapply (keeps_Ok _ _ _ _ _ (frame_init_services _ _)); [|exact H6].
    eapply (keeps_Ok _ _ _ _ _ (frame_init_proxy _ _)); [|exact H5].
    by eapply (keeps_Ok _ _ _ _ _ (frame_init_root _ _)); [|exact H4].
  - intros Hl. eapply LANRegistry_found_stays; [|exact H6|]; [apply (keeps_init_services E _)|].
    eapply LANRegistry_found_stays; [|exact H5|]; [apply (keeps_init_proxy E _)|].
    eapply LANRegistry_found_stays; [|exact H4|]; [apply (keeps_init_root E _)|]. done.
Qed.

(** C19. A successful [init] keeps the process and machine scopes; it keeps the
    LAN scope exactly when a LAN registry was found or a broadcast port was set,
    and the WAN scope exactly when a registry address was discovered or set, and
    then uses the discovered one; a root registry has an address and the WAN
    scope; and if the server is reachable on the machine at all, a LAN registry
    is found from then on in the scope that is left. *)
Theorem init_scopes E s s' :
  initialized (srv s) = false → init E s = (Ok tt, s') →
  let sc := scope (srv s) in
  let sc' := scope (srv s') in
  let discovered := discoverRegistryAddr E (nd s) in
  has_scope sc' ScopeProcess = has_scope sc ScopeProcess ∧
  has_scope sc' ScopeOS = has_scope sc ScopeOS ∧
  has_scope sc' ScopeLAN =
    has_scope sc ScopeLAN && (LANRegistry_found E (nd s) || negb (bool_decide (broadcastPort (set (srv s)) = []))) ∧
  has_scope sc' ScopeWAN =
    has_scope sc ScopeWAN && (is_inl discovered || negb (bool_decide (registryAddr (srv s) = []))) ∧
  registryAddr (srv s') =
    (if has_scope sc ScopeWAN then discovered_or (registryAddr (srv s)) discovered else registryAddr (srv s)) ∧
  (rootRegistry (set (srv s)) = true → registryAddr (srv s') ≠ [] ∧ has_scope sc' ScopeWAN = true) ∧
  (has_scope sc ScopeProcess || has_scope sc ScopeOS = true → has_scope sc' ScopeLAN = true →
   LANRegistry_found E (nd s') = true).
Proof.
  intros Hi. rewrite init_first by done. unfold init_rest.
  set (s0 := mkState _ (nd s)). change (nd s) with (nd s0).
  assert (H0 : frame (scope (srv s), registryAddr (srv s), set (srv s)) s0) by (by destruct s as [[] ?]).
  assert (Hsc0 : scope (srv s) = scope (srv s0)) by (by destruct s as [[] ?]). revert H0 Hsc0.
  generalize (scope (srv s)) (registryAddr (srv s)) (set (srv s)). clearbody s0. clear Hi s.
  intros sc addr st H0 Hsc0.
  intros ([] & s1 & H1 & ([] & s2 & H2 & ([] & s3 & H3 & H4)%bind_Ok)%bind_Ok)%bind_Ok.
  destruct (init_providerID_Ok _ _ _ _ _ H0 H1) as (F1 & D1 & L1).
  injection F1 as S1 A1 T1. rewrite <- D1, <- L1, <- T1, <- S1, <- A1. clear D1 L1 H0 H1 Hsc0.
  destruct (init_LAN_Ok _ _ _ H2) as (F2 & D2 & L2). unfold scope_LAN in F2. injection F2 as S2 A2 T2.
  assert (F3 := init_WAN_Ok _ _ _ H3). rewrite D2, A2, T2 in F3. injection F3 as S3 A3 T3.
  destruct (init_tail_Ok _ _ _ H4) as (F6 & L6 & R3). injection F6 as -> -> T6. rewrite T3 in R3.
  assert (L3 := LANRegistry_found_stays E _ _ _ (keeps_init_WAN E _) H3).
  destruct (scopes_left _ _ _ _ _ (eq_trans S2 (f_equal (λ b : bool, if b then _ else _) (eq_sym (andb_assoc _ _ _)))) S3)
    as (P1 & P2 & P3 & P4 & P5 & P6).
  rewrite P5 in A3. rewrite negb_andb, negb_involutive in P3. rewrite negb_involutive in P4.
  split_and!; [done|done|done|done|done|done|].
  intros Hsc HL. apply L6, L3, L2; [done|]. by rewrite P6.
Qed.

(** An [init] that fails is not tried again: the next [Publish] goes on with what
    the failed one left, here with the provider ID it refused. *)
Lemma failed_init_is_final E s e s' :
  initialized (srv s) = false → init E s = (Fails e, s') → init E s' = (Ok tt, s').
Proof.
  intros Hi H. apply init_again. rewrite init_first in H by done.
  assert (Hk := keeps_init_rest E (λ s, initialized (srv s) = true) (scope (srv s))
    (mkState (set_closers (closers (srv s) ++ [msgQ_closer]) (set_initialized (srv s))) (nd s))).
  rewrite H in Hk. apply Hk. by destruct s as [[] ?].
Qed.

Example mismatch_ignored_on_retry :
  let s0 := mkState (NewServer [WithProviderID (str "aa")]) empty_node in
  let r1 := Publish neighbour (str "echo") false s0 in
  let r2 := Publish neighbour (str "echo") false r1.2 in
  r1.1 = Fails (provider_mismatch (str "aa") (str "bb")) ∧ r2.1 = Ok tt ∧
  providerID (srv r2.2) = str "aa" ∧ elements (lan (nd r2.2)) = [(str "default.org", str "echo")].
Proof. split_and!; vm_compute; reflexivity. Qed.

(** A server for the networks only has its LAN registry where nobody finds it. *)
Example network_only_scope :
  let s0 := mkState (mkServer (mkSettings (str "o") (str "9923") false false false false false 1 128 8 true)
              ScopeNetwork (str "1.2.3.4:5") [] [] false false) empty_node in
  let r := Publish alone (str "echo") false s0 in
  r.1 = Fails LANRegistry_not_found.
Proof. vm_compute. reflexivity. Qed.

(** The cached provider ID outlives the service that answered it: a later server
    of the process does not start one. *)
Example cached_id_outlives_service :
  let s0 := mkState (NewServer [WithRegistryAddr (str "1.2.3.4:5")]) empty_node in
  let s1 := (Publish alone (str "echo") true s0).2 in
  let s2 := (Serve alone [noError] s1).2 in
  let s3 := (Publish alone (str "db") false (mkState (NewServer [WithRegistryAddr (str "1.2.3.4:5")]) (nd s2))).2 in
  own_builtin SrvProviderInfo (nd s1) = true ∧ own_builtin SrvProviderInfo (nd s3) = false.
Proof. split; vm_compute; reflexivity. Qed.

(** A server closed before its first [Publish] is not closed: [Close] does
    nothing, and [Serve] then waits. *)
Example close_before_publish :
  let s := NewServer [WithScope ScopeProcess] in
  Close s [] = ([], true) ∧ (Serve alone (Close s []).1 (mkState s empty_node)).1 = Ok None.
Proof. split; vm_compute; reflexivity. Qed.


(** ** Witnesses *)

(** An initialised server, beside the service "boot" *)
Definition running_server : state :=
  mkState (mkServer (set (srv example_server)) ScopeAll (str "1.2.3.4:11985") (str "bb") [msgQ_closer] true false)
    (on_chans (λ _, {[toPublisherServiceName (str "default.org") (str "boot") := mkChan (str "default.org") (str "boot")]})
      empty_node).

Lemma publish_registers_witness :
  let svc := mkService (str "default.org") (str "echo") (str "bb") (Z.land ScopeAll ScopeAll) false in
  (∃ s', PublishIn neighbour ScopeAll (str "echo") false running_server = (Ok tt, s') ∧
         published neighbour svc running_server s') ∧
  (∃ w, PublishIn neighbour ScopeAll (str "boot") false running_server = (Panicked w, running_server)).
Proof.
  split.
  - exists (PublishIn neighbour ScopeAll (str "echo") false running_server).2.
    assert (H : PublishIn neighbour ScopeAll (str "echo") false running_server =
                (Ok tt, (PublishIn neighbour ScopeAll (str "echo") false running_server).2))
      by (apply result_eta; vm_compute; reflexivity).
    split; [exact H|].
    exact (proj1 (publish_registers neighbour ScopeAll (str "echo") running_server eq_refl eq_refl) _ H).
  - apply (proj2 (publish_registers neighbour ScopeAll (str "boot") running_server eq_refl eq_refl)).
    + vm_compute. reflexivity.
    + vm_compute. eexists. reflexivity.
Defined.

Lemma init_scopes_witness :
  ∃ s', init alone example_server = (Ok tt, s') ∧
  has_scope (scope (srv s')) ScopeLAN = false ∧ has_scope (scope (srv s')) ScopeWAN = true ∧
  registryAddr (srv s') = str "1.2.3.4:11985".
Proof.
  exists (init alone example_server).2.
  assert (H : init alone example_server = (Ok tt, (init alone example_server).2))
    by (apply result_eta; vm_compute; reflexivity).
  split; [exact H|].
  destruct (init_scopes alone example_server _ eq_refl H) as (_ & _ & H3 & H4 & H5 & _).
  rewrite H3, H4, H5. clear. split_and!; vm_compute; reflexivity.
Defined.
