(* ===== verification/MessageTypes.v ===== *)
(** The message types the program registers when it starts (the [init] functions), the
    types the builtin services take (the [publish...Service] functions) and reply, and
    [GetKnownMessageTypes] of adaptiveservice.go. *)
From S2P Require Import Prelude GoStrings Names MessageTracer Tracing Server.

(** ** Types of Go as the registry knows them *)
Definition basic (name : bytes) : gotype := mkType 0 name name [].
Definition slice_of (t : gotype) : gotype := mkType 0 (str "[]" ++ type_String t) (str "slice") [].
Definition struct (pkg name : bytes) (fields : list bytes) : gotype :=
  mkType 0 (pkg ++ str "." ++ name) (str "struct") fields.
Definition pointer_to (t : gotype) : gotype := mkType (S (ptr_depth t)) (base_name t) (base_kind t) (base_fields t).
(** A struct of the program *)
Definition own : bytes → list bytes → gotype := struct (str "adaptiveservice").

(** adaptiveservice.go *)
Definition number_types : list gotype :=
  basic <$> [str "int"; str "int8"; str "int16"; str "int32"; str "int64"; str "uint"; str "uint8";
    str "uint16"; str "uint32"; str "uint64"; str "float32"; str "float64"; str "complex64"; str "complex128"; str "uintptr"].
Definition basic_types : list gotype := number_types ++ (basic <$> [str "bool"; str "string"]).
Definition slice_types : list gotype := slice_of <$> basic_types.
Definition errors_errorString : gotype := pointer_to (struct (str "errors") (str "errorString") [str "s"]).
Definition error_types : list gotype :=
  [errors_errorString; pointer_to (struct (str "fmt") (str "wrapError") [str "msg"; str "err"]);
   own (str "errServiceNotFound") [str "publisher"; str "service"]].

(** The messages of the builtin services *)
Definition ServiceInfo_type : gotype := own (str "ServiceInfo") [str "Publisher"; str "Service"; str "ProviderID"; str "Addr"].
Definition ServiceInfos_type : gotype := slice_of (pointer_to ServiceInfo_type).
Definition four_ServiceInfos_type : gotype := mkType 0 (str "[4]" ++ type_String ServiceInfos_type) (str "array") [].
Definition queryInLAN_type : gotype := pointer_to (own (str "queryInLAN") [str "name"]).
Definition foundInLAN_type : gotype := pointer_to (own (str "foundInLAN") [str "name"; str "providerID"; str "port"]).
Definition regServiceInWAN_type : gotype :=
  pointer_to (own (str "regServiceInWAN") [str "publisher"; str "service"; str "providerID"; str "port"; str "proxied"]).
Definition delServiceInWAN_type : gotype := pointer_to (own (str "delServiceInWAN") [str "publisher"; str "service"; str "providerID"]).
Definition queryServiceInWAN_type : gotype := pointer_to (own (str "queryServiceInWAN") [str "publisher"; str "service"]).
Definition testReverseProxy_type : gotype := pointer_to (own (str "testReverseProxy") [str "port"]).
Definition GetObservedIP_type : gotype := own (str "GetObservedIP") [].
Definition queryServiceInLAN_type : gotype := pointer_to (own (str "queryServiceInLAN") [str "publisher"; str "service"]).
Definition regServiceInLAN_type : gotype := pointer_to (own (str "regServiceInLAN") [str "publisher"; str "service"; str "port"]).
Definition delServiceInLAN_type : gotype := pointer_to (own (str "delServiceInLAN") [str "publisher"; str "service"]).
Definition uuidInfoPtr_type : gotype := pointer_to (own (str "uuidInfo") [str "id"; str "seqNum"]).
Definition tracedMessageRecord_type : gotype :=
  pointer_to (own (str "tracedMessageRecord") [str "timeStamp"; str "msg"; str "tracingID"; str "tag"; str "connInfo"]).
Definition readTracedMsg_type : gotype := pointer_to (own (str "readTracedMsg") [str "tracingID"]).
Definition ReqProviderInfo_type : gotype := pointer_to (own (str "ReqProviderInfo") []).
Definition reqRegistryInfo_type : gotype := pointer_to (own (str "reqRegistryInfo") []).
Definition proxyRegServiceInWAN_type : gotype := pointer_to (own (str "proxyRegServiceInWAN") [str "publisher"; str "service"; str "providerID"]).
Definition QueryMsgQInfo_type : gotype := own (str "QueryMsgQInfo") [].
Definition MsgQInfo_type : gotype :=
  own (str "MsgQInfo") [str "NumCPU"; str "ResidentWorkers"; str "QueueWeight"; str "QueueLen"; str "QueueSize"; str "BusyWorkerNum"; str "IdleWorkerNum"].
Definition ListService_type : gotype := pointer_to (own (str "ListService") [str "TargetScope"; str "Publisher"; str "Service"]).
Definition streamCloseMsg_type : gotype := own (str "streamCloseMsg") [].

(** ** The [init] functions *)
Definition init_adaptiveservice : list gotype := basic_types ++ slice_types ++ error_types.
Definition init_ipobserver : list gotype := [GetObservedIP_type].
Definition init_lanregistry : list gotype := [queryServiceInLAN_type; regServiceInLAN_type; delServiceInLAN_type].
Definition init_message : list gotype := [uuidInfoPtr_type].
Definition init_messagetracing : list gotype := [tracedMessageRecord_type; readTracedMsg_type; slice_of tracedMessageRecord_type].
Definition init_providerinfo : list gotype := [ReqProviderInfo_type].
Definition init_registry : list gotype := [ServiceInfos_type; queryInLAN_type; foundInLAN_type].
Definition init_rootregistry : list gotype := [regServiceInWAN_type; delServiceInWAN_type; queryServiceInWAN_type; testReverseProxy_type].
Definition init_registryinfo : list gotype := [reqRegistryInfo_type].
Definition init_reverseproxy : list gotype := [proxyRegServiceInWAN_type].
Definition init_scalamsgq : list gotype := [QueryMsgQInfo_type; MsgQInfo_type].
Definition init_servicelister : list gotype := [ListService_type; four_ServiceInfos_type].
Definition init_stream : list gotype := [streamCloseMsg_type].

(** All of them, in the order of their files *)
Definition inits : list (list gotype) :=
  [init_adaptiveservice; init_ipobserver; init_lanregistry; init_message; init_messagetracing; init_providerinfo;
   init_registry; init_rootregistry; init_registryinfo; init_reverseproxy; init_scalamsgq; init_servicelister; init_stream].

(** Registering, with an encoder that may refuse, depending on what it has *)
Definition register_all (refuses : registry → bytes → gotype → bool) : registry → list gotype → outcome registry :=
  foldOutcome (λ reg t, RegisterType (refuses reg) t reg).

(** [GetKnownMessageTypes]; [Handle] is how reflection prints the method of that name *)
Definition is_known (Handle : gotype → option bytes) (rt : gotype) : bool :=
  match Handle rt with Some m => Contains m (str "adaptiveservice.ContextStream") | None => false end.
Definition GetKnownMessageTypes `{GoRange} (Handle : gotype → option bytes) (name2Type : registry) : list bytes :=
  (filter (λ p, is_known Handle p.2) (range name2Type)).*1.

(** ** The builtin services *)
Inductive builtin := LANRegistrySvc | ProviderInfoSvc | RegistryInfoSvc | ReverseProxySvc | ServiceListerSvc
  | IPObserverSvc | MessageTracingSvc.

(** What each is published with *)
Definition knownMsgs (s : builtin) : list gotype :=
  match s with
  | LANRegistrySvc => [queryServiceInLAN_type; regServiceInLAN_type; delServiceInLAN_type]
  | ProviderInfoSvc => [ReqProviderInfo_type]
  | RegistryInfoSvc => [reqRegistryInfo_type]
  | ReverseProxySvc => [proxyRegServiceInWAN_type]
  | ServiceListerSvc => [ListService_type]
  | IPObserverSvc => [GetObservedIP_type]
  | MessageTracingSvc => [tracedMessageRecord_type; readTracedMsg_type]
  end.

(** What the root registry takes *)
Definition root_knownMsgTypes : list gotype :=
  [regServiceInWAN_type; delServiceInWAN_type; queryServiceInWAN_type; testReverseProxy_type].

(** The types of what their handlers reply when they reply no error *)
Definition replies (s : builtin) : list gotype :=
  match s with
  | LANRegistrySvc => [ServiceInfos_type; basic (str "int")]
  | ProviderInfoSvc | RegistryInfoSvc | IPObserverSvc => [basic (str "string")]
  | ReverseProxySvc => [basic (str "string"); basic (str "int")]
  | ServiceListerSvc => [four_ServiceInfos_type]
  | MessageTracingSvc => [slice_of tracedMessageRecord_type]
  end.

(** ** What registering gives *)

(** What the program relies on: the encoder refuses nothing but an empty name, a name it has
    and a type it has. *)
Definition refuses_duplicates (refuses : registry → bytes → gotype → bool) : Prop :=
  ∀ reg name t, refuses reg name t = true → name = [] ∨ is_Some (reg !! name) ∨ ∃ n, reg !! n = Some t.

Lemma RegisterType_new refuses t reg : reg !! type_String t = None → refuses (type_String t) t = false →
  RegisterType refuses t reg = Return (<[type_String t := t]> reg).
Proof. intros Hn Hf. unfold RegisterType. rewrite Hn, Hf. by rewrite bool_decide_eq_false_2 by (by intros [? [=]]). Qed.

Lemma register_all_distinct refuses reg l :
  refuses_duplicates refuses → NoDup (type_String <$> l) →
  (∀ n t, reg !! n = Some t → n = type_String t) →
  (∀ t, t ∈ l → type_String t ≠ [] ∧ reg !! type_String t = None) →
  register_all refuses reg l = Return (list_to_map ((λ t, (type_String t, t)) <$> l) ∪ reg).
Proof.
  intros Hr. revert reg. induction l as [|t l IH]; intros reg Hnd Hreg Hnew; [simpl; by rewrite map_empty_union|].
  apply NoDup_cons in Hnd as [Hnot Hnd]. destruct (Hnew t (list_elem_of_here _ _)) as [Hne Hnone].
  unfold register_all. cbn [foldOutcome]. rewrite RegisterType_new; [|done|].
  2:{ apply not_true_is_false. intros E. destruct (Hr _ _ _ E) as [?|[[? ?]|[n Hn]]]; [done|congruence|].
      pose proof (Hreg _ _ Hn). congruence. }
  simpl. fold (register_all refuses). etrans; [apply (IH (<[type_String t := t]> reg))|].
  - done.
  - intros n u. rewrite lookup_insert_Some. intros [[<- <-]|[_ ?]]; [done|by apply Hreg].
  - intros u Hu. destruct (Hnew u) as [? ?]; [by right|]. split; [done|]. rewrite lookup_insert_ne; [done|].
    intros Heq. apply Hnot. rewrite Heq. by apply list_elem_of_fmap_2.
  - f_equal. simpl. rewrite <- insert_union_l, <- insert_union_r; [done|].
    apply not_elem_of_list_to_map_1. rewrite <- list_fmap_compose. done.
Qed.

(** Types that the registry tells apart are found by their names, and nothing else is;
    the known ones are those with the method. *)
Lemma registered_spec `{GoRange} refuses l Handle : refuses_duplicates refuses →
  NoDup (type_String <$> l) → (∀ t, t ∈ l → type_String t ≠ []) →
  ∃ reg, register_all refuses ∅ l = Return reg ∧
    (∀ n t, GetRegisteredTypeByName n reg = Some t ↔ t ∈ l ∧ n = type_String t) ∧
    GetAllMessageTypes reg ≡ₚ type_String <$> l ∧
    (∀ n, n ∈ GetKnownMessageTypes Handle reg ↔ ∃ t, t ∈ l ∧ n = type_String t ∧ is_known Handle t).
Proof.
  intros Hr Hnd Hne. set (reg := list_to_map ((λ t, (type_String t, t)) <$> l) : registry).
  assert (NoDup ((λ t, (type_String t, t)) <$> l).*1) as Hnd' by (rewrite <- list_fmap_compose; done).
  assert (∀ n t, reg !! n = Some t ↔ t ∈ l ∧ n = type_String t) as Hl.
  { intros n t. unfold reg. rewrite <- elem_of_list_to_map by done. rewrite list_elem_of_fmap. naive_solver. }
  exists reg. split_and!; [|done| |].
  - rewrite (register_all_distinct refuses ∅ l); [by rewrite map_union_empty|done|done|done|].
    intros t Ht. split; [by apply Hne|done].
  - unfold GetAllMessageTypes. rewrite range_perm. unfold reg. rewrite map_to_list_to_map by done.
    by rewrite <- list_fmap_compose.
  - intros n. unfold GetKnownMessageTypes. rewrite list_elem_of_fmap. split.
    + intros ([n' t] & -> & [Hk Hin]%list_elem_of_filter). apply elem_of_range in Hin.
      apply Hl in Hin as [? ->]. by exists t.
    + intros (t & Ht & -> & Hk). exists (type_String t, t). split; [done|]. apply list_elem_of_filter.
      split; [done|]. apply elem_of_range. by apply Hl.
Qed.

(** ** The program's types *)
Lemma inits_distinct : NoDup (type_String <$> mjoin inits).
Proof. refine (bool_decide_unpack _ _). vm_compute. exact I. Qed.

Lemma inits_named t : t ∈ mjoin inits → type_String t ≠ [].
Proof.
  assert (forallb (λ t, negb (bool_decide (type_String t = []))) (mjoin inits) = true) as Hall by (vm_compute; reflexivity).
  rewrite forallb_forall in Hall. intros Ht%list_elem_of_In%Hall. by case_bool_decide.
Qed.



(** With the check of message types on, a builtin service takes its own messages and the
    query about the queue, and the root registry does not take the latter. *)
Theorem builtin_takes c s m : msgTypeCheck c = true →
  canHandle c (type_String <$> knownMsgs s) true (type_String m) =
  bool_decide (type_String m ∈ type_String <$> (knownMsgs s ++ [QueryMsgQInfo_type])).
Proof. intros Hc. unfold canHandle. rewrite Hc. cbn [negb]. by rewrite fmap_app. Qed.

Example root_takes_no_query : QueryMsgQInfo_type ∉ root_knownMsgTypes.
Proof. refine (bool_decide_unpack _ _). vm_compute. exact I. Qed.

(** The errors of the standard library's package net, which the handlers of the reverse
    proxy and of the IP observer reply as they are, are not registered. *)
Definition net_errors : list gotype :=
  [pointer_to (struct (str "net") (str "OpError") [str "Op"; str "Net"; str "Source"; str "Addr"; str "Err"]);
   pointer_to (struct (str "net") (str "AddrError") [str "Err"; str "Addr"])].

Example net_errors_not_registered : forallb (λ t, bool_decide (t ∉ mjoin inits)) net_errors = true.
Proof. vm_compute. reflexivity. Qed.
