(* ===== verification/Shutdown.v ===== *)
(** The servers of a process and the signal that ends them (adaptiveservice.go,
    server.go): each server waits in [Serve] on a channel of capacity one; the
    first SIGINT or SIGTERM starts one goroutine that closes the servers in the
    order they were initialised, under a lock.  (Before the first server is
    initialised a signal ends the process.)  The initialisation of a server is one
    step here, in which it waits for the lock; the closers it runs at its end are
    those of Server, of which the first, the message queue's, waits for every worker
    to return: a handler that blocks keeps it waiting, and with it [Serve] and the
    calls of [CloseWait]. *)
From S2P Require Import Prelude Names Server.

(** Where a server's [Serve] is; [Closing] is in [Server.doClose], waiting for the workers
    of the queue *)
Inductive phase := NotServed | Serving | Closing (e : option error) | Returned (e : option error).
#[export] Instance phase_eq_dec : EqDecision phase.
Proof. solve_decision. Defined.

(** What a server has of [Server] here: [initialized], whether [closers] is not nil,
    [errRecovers], the calls of [Close] past their test of [closers], whether
    the channel [closed] was closed, and how many workers of its queue have not
    returned *)
Record running := mkRunning {
  r_init : bool;
  r_closers : bool;
  r_chan : list errorRecover;
  r_senders : nat;
  r_run : phase;
  r_closed : bool;
  r_workers : nat;
}.

(** [sigCleaner.closers] names the servers by number.  While the goroutine of
    [initSigCleaner] is in its loop it holds the lock: the closers it has left, and
    whether [close] of the first of them is past its test of [closers]. *)
Record process := mkProcess {
  servers : list running;
  sigClosers : list nat;
  cleaner : option (list nat * bool);
  signalled : bool;
}.

Definition newRunning : running := mkRunning false false [] 0 NotServed false 0.

Inductive op :=
| Created                        (* NewServer *)
| Init (i : nat)                 (* init, in the first Publish or Serve *)
| Publish (i : nat) (opens : bool) (* a further Publish, which may open a transport *)
| ServeCall (i : nat)            (* Serve enters its loop *)
| Round (i : nat)                (* a round of the loop *)
| CloseCall (i : nat)            (* Close tests closers *)
| CloseSend (i : nat)            (* and sends *)
| WorkerStarts (i : nat)         (* addWorker *)
| WorkerReturns (i : nat)        (* wg.Done *)
| QueueClosed (i : nat)          (* wg.Wait returns: the rest of doClose *)
| Signal                         (* the goroutine has the signal and the lock *)
| Clean.                         (* a step of its loop *)

(** [Server.init]: [s.initialized] and its first closer, the message queue *)
Definition initialise (r : running) : running :=
  let '(mkRunning _ _ c n u d k) := r in mkRunning true true c n u d k.
Definition serves (r : running) : running :=
  let '(mkRunning a b c n _ d k) := r in mkRunning a b c n Serving d k.
Definition senders (n : nat) (r : running) : running :=
  let '(mkRunning a b c _ u d k) := r in mkRunning a b c n u d k.
Definition workers (k : nat) (r : running) : running :=
  let '(mkRunning a b c n u d _) := r in mkRunning a b c n u d k.

(** [s.errRecovers <- e]; [None] while the channel, of capacity one, is full *)
Definition push (e : errorRecover) (r : running) : option running :=
  let '(mkRunning a b c n u d k) := r in
  if bool_decide (length c < 1) then Some (mkRunning a b (c ++ [e]) n u d k) else None.

(** [Server.Serve] leaves its loop, with [Server.doClose] deferred: without closers it
    returns, with them it closes the queue first.  A server that was closed before has
    no queue among its closers any more, and panics at the end of them. *)
Definition ends (e : option error) (r : running) : outcome running :=
  let '(mkRunning a b c n _ d k) := r in
  if b then if d then Panics (str "close of closed channel")
            else Return (mkRunning a b c n (Closing e) d k)
  else Return (mkRunning a b c n (Returned e) d k).

(** The workers have returned: the other closers run, [closers] becomes nil and
    [closed] is closed. *)
Definition queue_closed (r : running) : option (outcome running) :=
  match r with
  | mkRunning a b c n (Closing e) d 0 =>
      Some (if d then Panics (str "close of closed channel") else Return (mkRunning a false c n (Returned e) true 0))
  | _ => None
  end.

(** A round of the loop of [Server.Serve]; [None] while nothing is on [errRecovers] *)
Definition serve_round (r : running) : option (outcome running) :=
  match r with
  | mkRunning a b (e :: c) n Serving d k =>
      let r' := mkRunning a b c n Serving d k in
      Some (if Recover e then Return r' else ends (Error e) r')
  | _ => None
  end.

(** The goroutine of [initSigCleaner] in its loop over the closers: [Server.close]
    of the first, then the unlock *)
Definition clean (p : process) : option process :=
  match cleaner p with
  | None => None
  | Some ([], _) => Some (mkProcess (servers p) (sigClosers p) None (signalled p))
  | Some (i :: l, false) =>
      match servers p !! i with
      | None => None
      | Some r => Some (mkProcess (servers p) (sigClosers p)
                          (Some (if r_closers r then (i :: l, true) else (l, false))) (signalled p))
      end
  | Some (i :: l, true) =>
      match servers p !! i with
      | None => None
      | Some r =>
          match push (unrecoverableError ErrServerClosed) r with
          | None => None
          | Some r' => Some (mkProcess (<[i := r']> (servers p)) (sigClosers p) (Some (l, false)) (signalled p))
          end
      end
  end.

(** A step of one server *)
Definition on_server (i : nat) (f : running → option (outcome running)) (p : process) : option (outcome process) :=
  match servers p !! i with
  | None => None
  | Some r =>
      match f r with
      | None => None
      | Some (Panics w) => Some (Panics w)
      | Some (Return r') => Some (Return (mkProcess (<[i := r']> (servers p)) (sigClosers p) (cleaner p) (signalled p)))
      end
  end.

Definition exec (o : op) (p : process) : option (outcome process) :=
  match o with
  | Created => Some (Return (mkProcess (servers p ++ [newRunning]) (sigClosers p) (cleaner p) (signalled p)))
  | Init i =>
      match cleaner p, servers p !! i with
      | None, Some r =>
          if r_init r then None
          else Some (Return (mkProcess (<[i := initialise r]> (servers p)) (sigClosers p ++ [i]) None (signalled p)))
      | _, _ => None
      end
  | Publish i opens => on_server i (λ r,
      if r_init r then Some (Return (if opens then initialise r else r)) else None) p
  | ServeCall i => on_server i (λ r,
      if r_init r && match r_run r with NotServed | Returned _ => true | _ => false end
      then Some (Return (serves r)) else None) p
  | Round i => on_server i serve_round p
  | CloseCall i => on_server i (λ r,
      Some (Return (if r_closers r then senders (S (r_senders r)) r else r))) p
  | CloseSend i => on_server i (λ r,
      match r_senders r, push noError r with
      | S n, Some r' => Some (Return (senders n r'))
      | _, _ => None
      end) p
  | WorkerStarts i => on_server i (λ r,
      if r_init r then Some (Return (workers (S (r_workers r)) r)) else None) p
  | WorkerReturns i => on_server i (λ r,
      match r_workers r with S k => Some (Return (workers k r)) | 0 => None end) p
  | QueueClosed i => on_server i queue_closed p
  | Signal =>
      if signalled p || bool_decide (sigClosers p = []) then None
      else Some (Return (mkProcess (servers p) (sigClosers p) (Some (sigClosers p, false)) true))
  | Clean => match clean p with Some p' => Some (Return p') | None => None end
  end.

Fixpoint exec_all (os : list op) (p : process) : option (outcome process) :=
  match os with
  | [] => Some (Return p)
  | o :: os =>
      match exec o p with
      | Some (Return p') => exec_all os p'
      | r => r
      end
  end.

Definition step (p p' : process) : Prop := ∃ o, exec o p = Some (Return p').
Definition start : process := mkProcess [] [] None false.

(** What goes on after a signal if nobody calls anything: the cleaner, the loops of
    [Serve] with what follows them, and the calls of [Close] that wait.  Workers start
    and return as they please next to that. *)
Definition on_its_own (o : op) : bool :=
  match o with Clean | Round _ | CloseSend _ | QueueClosed _ => true | _ => false end.
Definition shutdown_op (o : op) : bool :=
  on_its_own o || match o with WorkerStarts _ | WorkerReturns _ => true | _ => false end.
Definition at_rest (p : process) : Prop := ∀ o, on_its_own o → exec o p = None.

(** ** Steps of one server *)

Lemma on_server_inv i f p p' : on_server i f p = Some (Return p') →
  ∃ r r', servers p !! i = Some r ∧ f r = Some (Return r') ∧
    p' = mkProcess (<[i := r']> (servers p)) (sigClosers p) (cleaner p) (signalled p).
Proof.
  unfold on_server. destruct (servers p !! i) as [r|]; [|done].
  destruct (f r) as [[r'|w]|] eqn:Hf; [|done|done]. intros [= <-]. by exists r, r'.
Qed.

Lemma servers_insert (P : nat → running → Prop) (l : list running) i r :
  (∀ j s, l !! j = Some s → P j s) → P i r → ∀ j s, <[i := r]> l !! j = Some s → P j s.
Proof. intros Hl Hi j s [(<- & <- & Hlt)|[_ Hj]]%list_lookup_insert_Some; auto. Qed.

Lemma push_inv e r r' : push e r = Some r' →
  r_chan r = [] ∧ r' = mkRunning (r_init r) (r_closers r) [e] (r_senders r) (r_run r) (r_closed r) (r_workers r).
Proof.
  destruct r as [a b c n u d k]. unfold push. case_bool_decide as Hc; [|done]. intros [= <-].
  destruct c; [done|simpl in Hc; lia].
Qed.

Lemma serve_round_inv r r' : serve_round r = Some (Return r') →
  ∃ e c, r_chan r = e :: c ∧ r_run r = Serving ∧ ∃ u,
    r' = mkRunning (r_init r) (r_closers r) c (r_senders r) u (r_closed r) (r_workers r) ∧
    (Recover e = true ∧ u = Serving ∨
     Recover e = false ∧ r_closers r = false ∧ u = Returned (Error e) ∨
     Recover e = false ∧ r_closers r = true ∧ r_closed r = false ∧ u = Closing (Error e)).
Proof.
  destruct r as [a b [|e c] n [] d k]; try done. simpl. intros H. exists e, c. split; [done|]. split; [done|].
  destruct (Recover e) eqn:He; [injection H as <-; exists Serving; auto|].
  destruct b; [destruct d; [done|]|]; injection H as <-; eexists; (split; [done|]); right; [right|left]; by split_and!.
Qed.

Lemma queue_closed_inv r r' : queue_closed r = Some (Return r') →
  ∃ e, r_run r = Closing e ∧ r_closed r = false ∧ r_workers r = 0 ∧
    r' = mkRunning (r_init r) false (r_chan r) (r_senders r) (Returned e) true 0.
Proof. destruct r as [a b c n [] [] []]; simpl; try done. intros [= <-]. by eexists. Qed.

(** ** What holds on every process *)

(** A server with closers is initialised, the initialised ones are on the cleaner's
    list, only [Close] and [close] send on [errRecovers], and a server that is being
    closed has closers and was not closed before. *)
Record server_ok (l : list nat) (i : nat) (r : running) : Prop := mkServerOk {
  so_chan : length (r_chan r) ≤ 1;
  so_final : Forall (λ e, Recover e = false) (r_chan r);
  so_listed : i ∈ l ↔ r_init r = true;
  so_init : r_closers r = true → r_init r = true;
  so_closing e : r_run r = Closing e → r_closers r = true ∧ r_closed r = false;
}.

Record process_ok (p : process) : Prop := mkProcessOk {
  po_servers : ∀ i r, servers p !! i = Some r → server_ok (sigClosers p) i r;
  po_known : Forall (λ i, i < length (servers p)) (sigClosers p);
  po_once : NoDup (sigClosers p);
  po_cleaner : ∀ l b, cleaner p = Some (l, b) → Forall (λ i, i < length (servers p)) l ∧ NoDup l;
}.

Lemma push_ok l i e r r' : Recover e = false → server_ok l i r → push e r = Some r' → server_ok l i r'.
Proof.
  intros He [H1 H2 H3 H4 H5] [_ ->]%push_inv. split; simpl; [done| |done..]. by repeat constructor.
Qed.

Lemma round_ok l i r r' : server_ok l i r → serve_round r = Some (Return r') → server_ok l i r'.
Proof.
  intros [H1 H2 H3 H4 H5] (e & c & Hc & _ & u & -> & Hor)%serve_round_inv.
  rewrite Hc in H1, H2. apply Forall_cons in H2 as [He H2]. simpl in H1.
  split; simpl; [lia|done|done|done|]. destruct Hor as [[_ ->]|[(_ & _ & ->)|(_ & Hb & Hd & ->)]]; done.
Qed.

Lemma queue_closed_ok l i r r' : server_ok l i r → queue_closed r = Some (Return r') → server_ok l i r'.
Proof. intros [H1 H2 H3 H4 H5] (e & _ & _ & _ & ->)%queue_closed_inv. by split; simpl. Qed.

(** A step of one server that keeps the server right keeps the process right. *)
Lemma on_server_ok i f p p' : process_ok p → on_server i f p = Some (Return p') →
  (∀ r r', server_ok (sigClosers p) i r → f r = Some (Return r') → server_ok (sigClosers p) i r') → process_ok p'.
Proof.
  intros [H1 H2 H3 H4] (r & r' & Hr & Hf & ->)%on_server_inv Hok.
  split; simpl; rewrite ?length_insert; [|done..]. apply servers_insert; eauto.
Qed.

Lemma clean_ok p p' : process_ok p → clean p = Some p' → process_ok p'.
Proof.
  intros [H1 H2 H0 H3]. unfold clean. destruct (cleaner p) as [[[|i l] b]|] eqn:Hc; [|destruct b|done].
  - intros [= <-]. by split.
  - destruct (servers p !! i) as [r|] eqn:Hr; [|done]. destruct (push _ r) as [r'|] eqn:Hp; [|done]. intros [= <-].
    destruct (H3 _ _ eq_refl) as [[_ Hl]%Forall_cons [_ Hn]%NoDup_cons].
    split; simpl; rewrite ?length_insert; [|done|done|by intros ? ? [= <- <-]].
    apply servers_insert; [done|]. eapply push_ok; [|by apply H1|done]. done.
  - destruct (servers p !! i) as [r|] eqn:Hr; [|done]. intros [= <-]. destruct (H3 _ _ eq_refl) as [Hl Hn].
    split; simpl; [done..|]. intros l' b'. destruct (r_closers r); intros [= <- <-]; [done|].
    by apply Forall_cons in Hl as [_ ?]; apply NoDup_cons in Hn as [_ ?].
Qed.

Lemma process_exec_ok o p p' : process_ok p → exec o p = Some (Return p') → process_ok p'.
Proof.
  intros Hp. destruct o as [|i|i opens|i|i|i|i|i|i|i| |]; simpl.
  - intros [= <-]. destruct Hp as [H1 H2 H0 H3]. split; simpl; [|..|done|].
    + intros i r [Hr|[Hle Hr]]%lookup_app_Some; [by apply H1|]. destruct (i - length (servers p)) as [|k] eqn:Hk; [|done].
      injection Hr as <-. split; simpl; try done; [lia|]. split; [|done]. intros Hi. rewrite Forall_forall in H2.
      apply H2 in Hi. lia.
    + eapply Forall_impl; [exact H2|]. intros i Hi. rewrite length_app. simpl in *. lia.
    + intros l b Hl. destruct (H3 l b Hl) as [Hlt ?]. split; [|done]. eapply Forall_impl; [exact Hlt|].
      intros i Hi. rewrite length_app. simpl in *. lia.
  - destruct (cleaner p) eqn:Hc; [done|]. destruct (servers p !! i) as [r|] eqn:Hr; [|done].
    destruct (r_init r) eqn:Hi; [done|]. intros [= <-]. destruct Hp as [H1 H2 H0 H3]. split; simpl; rewrite ?length_insert.
    + intros j s [(<- & <- & _)|[Hne Hs]]%list_lookup_insert_Some.
      * destruct (H1 i r Hr) as [? ? ? ? Hcl]. destruct r as [a b c n u d k]; simpl in *. subst a. split; simpl; try done.
        { split; [done|]. intros _. apply elem_of_app. right. by apply list_elem_of_singleton. }
        intros e He. by destruct (Hcl e He).
      * destruct (H1 j s Hs) as [? ? Hli ? ?]. split; try done. rewrite <- Hli, elem_of_app, list_elem_of_singleton. naive_solver.
    + apply Forall_app. split; [done|]. constructor; [by eapply lookup_lt_Some|done].
    + apply NoDup_app. split; [done|]. split; [|by apply NoDup_singleton].
      intros j Hj ->%list_elem_of_singleton. destruct (H1 i r Hr) as [_ _ Hli _ _]. apply Hli in Hj. congruence.
    + done.
  - intros H. eapply on_server_ok; [done..|]. intros [a b c n u d k] r' [? ? ? ? Hcl] Hf. simpl in *. destruct a; [|done].
    injection Hf as <-. destruct opens; split; simpl; try done. intros e He. by destruct (Hcl e He).
  - intros H. eapply on_server_ok; [done..|]. intros [a b c n u d k] r' [? ? ? ? ?] Hf. simpl in *. destruct a; [|done].
    destruct u; try done; injection Hf as <-; by split.
  - intros H. eapply on_server_ok; [done..|]. intros. by eapply round_ok.
  - intros H. eapply on_server_ok; [done..|]. intros [a b c n u d k] r' Hok [= <-]. simpl. destruct b; [|done].
    by destruct Hok; split.
  - intros H. eapply on_server_ok; [done..|]. intros r r' Hok Hf. cbv beta in Hf. destruct (r_senders r); [done|].
    destruct (push noError r) as [r1|] eqn:Hpu; [|done]. injection Hf as <-.
    apply (push_ok (sigClosers p) i) in Hpu; [|done|done]. destruct r1, Hpu; by split.
  - intros H. eapply on_server_ok; [done..|]. intros [a b c n u d k] r' Hok Hf. simpl in Hf. destruct a; [|done].
    injection Hf as <-. by destruct Hok; split.
  - intros H. eapply on_server_ok; [done..|]. intros [a b c n u d [|k]] r' Hok Hf; simpl in Hf; [done|].
    injection Hf as <-. by destruct Hok; split.
  - intros H. eapply on_server_ok; [done..|]. intros. by eapply queue_closed_ok.
  - destruct (_ || _); [done|]. intros [= <-]. destruct Hp as [H1 H2 H0 H3]. split; simpl; [done..|].
    by intros ? ? [= <- <-].
  - destruct (clean p) as [q|] eqn:Hq; [|done]. intros [= <-]. by eapply clean_ok.
Qed.

Lemma reachable_process p : rtc step start p → process_ok p.
Proof.
  apply (rtc_invariant step process_ok); [intros q q' Hq [o Ho]; by eapply process_exec_ok|].
  split; simpl; [done|done|by apply NoDup_nil|done].
Qed.

(** ** Shutting down *)

(** The closers the cleaner has left *)
Definition left_over (p : process) : list nat := match cleaner p with Some (l, _) => l | None => [] end.

(** What becomes of a server, [was] saying that it had closers at the signal: it
    serves with a reason to end on its channel or to come, or it is being closed, its
    channel free for the cleaner if that has not been there, or it has ended. *)
Definition fate (was : nat → Prop) (l : list nat) (i : nat) (r : running) : Prop :=
  (r_closers r = true → r_closed r = false ∧
     (r_run r = Serving ∧ (i ∈ l ∨ r_chan r ≠ []) ∨ (∃ e, r_run r = Closing e) ∧ (i ∈ l → r_chan r = []))) ∧
  (r_closers r = false → was i → r_closed r = true ∧ ∃ e, r_run r = Returned e).

Record closing (was : nat → Prop) (p : process) : Prop := mkClosing {
  cl_ok : process_ok p;
  cl_fate : ∀ i r, servers p !! i = Some r → fate was (left_over p) i r;
  cl_alone : ∀ i r, servers p !! i = Some r → r_senders r = 0;
  cl_head : ∀ i l r, cleaner p = Some (i :: l, true) → servers p !! i = Some r → r_closers r = true ∨ r_chan r = [];
}.

(** What a step leaves to do: four steps a closer, two for a message, one for a queue to
    close *)
Definition to_send (c : option (list nat * bool)) : nat :=
  match c with
  | None => 0
  | Some (l, b) => if b then match l with [] => 1 | _ :: l => 4 + 4 * length l end else 1 + 4 * length l
  end.
Definition server_to_do (r : running) : nat :=
  2 * length (r_chan r) + match r_run r with Closing _ => 1 | _ => 0 end.
Definition to_do (p : process) : nat := to_send (cleaner p) + sum_list_with server_to_do (servers p).

Lemma fate_push was l i e r r' : push e r = Some r' → i ∉ l → fate was (i :: l) i r → fate was l i r'.
Proof.
  intros [_ ->]%push_inv Hi [H1 H2]. split; simpl; [|done]. intros Hb. destruct (H1 Hb) as [? [[? _]|[? _]]]; split; [done| |done|].
  - left. split; [done|by right].
  - right. by split.
Qed.

Lemma fate_skip was l i j r : (i = j → r_closers r = false) → fate was (i :: l) j r → fate was l j r.
Proof.
  intros Hi [H1 H2]. split; [|done]. intros Hb. assert (i ≠ j) as Hne by (intros ?; specialize (Hi ltac:(done)); congruence).
  destruct (H1 Hb) as [? [[? Hor]|[? Hc]]]; (split; [done|]); [left|right]; (split; [done|]).
  - destruct Hor as [[->|Hj]%elem_of_cons|?]; [done|auto..].
  - intros Hj. apply Hc. by right.
Qed.

Lemma fate_round was l i r r' : server_ok l i r → serve_round r = Some (Return r') → ∀ l', fate was l' i r → fate was l' i r'.
Proof.
  intros [Hl Hf _ _ _] (e & c & Hc & Hs & u & -> & Hor)%serve_round_inv l' [H1 H2].
  rewrite Hc in Hf, Hl. apply Forall_cons in Hf as [He _].
  destruct Hor as [[Ht _]|[(_ & Hb & ->)|(_ & Hb & Hd & ->)]]; [congruence|..]; split; simpl; try congruence.
  - intros _ Hw. destruct (H2 Hb Hw). split; [done|by eexists].
  - intros _. split; [done|]. right. split; [by eexists|]. intros _. destruct c; [done|simpl in Hl; lia].
Qed.

(** A step of one server that keeps its fate and lessens what it has to do *)
Lemma server_closing was i f o p p' : closing was p → on_server i f p = Some (Return p') → exec o p = Some (Return p') →
  (∀ r r', server_ok (sigClosers p) i r → fate was (left_over p) i r → f r = Some (Return r') →
     fate was (left_over p) i r' ∧ r_senders r' = r_senders r ∧ 
     (i ∈ left_over p → r_closers r = true ∨ r_chan r = [] → r_closers r' = true ∨ r_chan r' = [])) →
  closing was p'.
Proof.
  intros [Hok Hfate Halone Hhead] Hst Ho Hall. pose proof (process_exec_ok o p p' Hok Ho) as Hok'.
  apply on_server_inv in Hst as (r & r' & Hr & Hf & ->).
  destruct (Hall r r' (po_servers _ Hok i r Hr) (Hfate i r Hr) Hf) as (Hf' & Hs & Hh). split; [done|..].
  - simpl. by apply servers_insert.
  - simpl. apply servers_insert; [exact Halone|]. rewrite Hs. by eapply Halone.
  - simpl. intros j l s Hc [(<- & <- & _)|[_ Hj]]%list_lookup_insert_Some; [|by eapply Hhead].
    apply Hh; [unfold left_over; rewrite Hc; left|by eapply Hhead].
Qed.

Lemma clean_closing was p p' : closing was p → clean p = Some p' → closing was p' ∧ to_do p' < to_do p.
Proof.
  intros [Hok Hfate Halone Hhead] Hcl. pose proof (clean_ok p p' Hok Hcl) as Hok'. pose proof (po_cleaner _ Hok) as Hcn.
  revert Hcl Hhead Hfate Hok' Hcn.
  unfold clean, left_over, to_do. destruct (cleaner p) as [[[|i l] [|]]|] eqn:Hc; [| | | |done].
  - intros [= <-] _ Hf Hok' _. split; [by split|simpl; lia].
  - intros [= <-] _ Hf Hok' _. split; [by split|simpl; lia].
  - destruct (servers p !! i) as [r|] eqn:Hr; [|done]. destruct (push _ r) as [r'|] eqn:Hp; [|done].
    intros [= <-] Hh Hf Hok' Hcn. destruct (Hcn _ _ eq_refl) as [_ [Hni _]%NoDup_cons]. split; [split; [done| | |done]|].
    + unfold left_over. simpl. intros j s [(<- & <- & _)|[Hne Hj]]%list_lookup_insert_Some; [eapply fate_push; eauto|].
      eapply fate_skip; [done|by apply Hf].
    + apply push_inv in Hp as [_ ->]. simpl. apply servers_insert; [exact Halone|exact (Halone i r Hr)].
    + simpl. pose proof (sum_list_with_insert server_to_do _ i r r' Hr) as Hsum. 
      assert (server_to_do r' = 2 + server_to_do r) as He by (apply push_inv in Hp as [Hn ->]; unfold server_to_do; rewrite Hn; simpl; lia).
      rewrite He in Hsum. cbn [to_send length]. lia.
  - destruct (servers p !! i) as [r|] eqn:Hr; [|done]. intros [= <-] _ Hf Hok' _.
    unfold left_over. destruct (r_closers r) eqn:Hb; (split; [split; [done| |done|]|]); simpl; try lia; try done.
    + intros j l' s [= <- <-] Hs. left. congruence.
    + intros j s Hs. eapply fate_skip; [|by apply Hf]. intros ->. congruence.
Qed.

(** A round, the end of a queue, a worker *)
Lemma round_closing was i p p' : closing was p → exec (Round i) p = Some (Return p') → closing was p' ∧ to_do p' < to_do p.
Proof.
  intros Hcl Ho. split.
  - eapply (server_closing was i serve_round (Round i)); [done|exact Ho|exact Ho|]. intros r r' Hs Hf Hr.
    split; [by eapply fate_round|]. apply serve_round_inv in Hr as (e & c & Hc & _ & u & -> & _). split; [done|].
    intros _ _. right. simpl. destruct Hs as [Hl _ _ _ _]. rewrite Hc in Hl. destruct c; [done|simpl in Hl; lia].
  - simpl in Ho. apply on_server_inv in Ho as (r & r' & Hr & Hro & ->). unfold to_do. simpl.
    pose proof (sum_list_with_insert server_to_do _ i r r' Hr) as Hsum.
    apply serve_round_inv in Hro as (e & c & He & Hs & u & -> & _). unfold server_to_do at 2 4 in Hsum. rewrite He, Hs in Hsum.
    simpl in Hsum. destruct u; lia.
Qed.

Lemma queue_closing was i p p' : closing was p → exec (QueueClosed i) p = Some (Return p') →
  closing was p' ∧ to_do p' < to_do p.
Proof.
  intros Hcl Ho. split.
  - eapply (server_closing was i queue_closed (QueueClosed i)); [done|exact Ho|exact Ho|].
    intros r r' Hs [H1 H2] (e & Hr & Hd & Hk & ->)%queue_closed_inv.
    destruct (so_closing _ _ _ Hs e Hr) as [Hb _]. split; [|split; [done|]]; simpl.
    + split; simpl; [done|]. intros _ _. split; [done|by eexists].
    + intros Hi _. right. destruct (H1 Hb) as [_ [[? _]|[_ Hc]]]; [congruence|auto].
  - simpl in Ho. apply on_server_inv in Ho as (r & r' & Hr & Hro & ->). unfold to_do. simpl.
    pose proof (sum_list_with_insert server_to_do _ i r r' Hr) as Hsum.
    apply queue_closed_inv in Hro as (e & He & _ & _ & ->). unfold server_to_do at 2 4 in Hsum. rewrite He in Hsum. simpl in Hsum. lia.
Qed.

Lemma worker_closing was k i p p' o : closing was p → exec o p = Some (Return p') →
  on_server i (λ r, Some (Return (workers (k r) r))) p = Some (Return p') → closing was p' ∧ to_do p' = to_do p.
Proof.
  intros Hcl Ho Hst. split.
  - eapply server_closing; [done|exact Hst|exact Ho|]. intros [a b c n u d k0] r' Hs Hf [= <-]. by split.
  - apply on_server_inv in Hst as (r & r' & Hr & [= <-] & ->). unfold to_do. simpl.
    pose proof (sum_list_with_insert server_to_do _ i r (workers (k r) r) Hr) as Hsum.
    assert (server_to_do (workers (k r) r) = server_to_do r) as He by (by destruct r). lia.
Qed.

(** Nobody waits in [Close]. *)
Lemma alone_no_send was i p : closing was p → exec (CloseSend i) p = None.
Proof.
  intros Hcl. simpl. unfold on_server. destruct (servers p !! i) as [r|] eqn:Hr; [|done].
  by rewrite (cl_alone _ _ Hcl i r Hr).
Qed.

Lemma closing_step was o p p' : closing was p → shutdown_op o → exec o p = Some (Return p') →
  closing was p' ∧ to_do p' + (if on_its_own o then 1 else 0) ≤ to_do p.
Proof.
  intros Hcl Hop Ho. destruct o as [|i|i opens|i|i|i|i|i|i|i| |]; try done; simpl.
  - destruct (round_closing was i p p' Hcl Ho). split; [done|lia].
  - by rewrite (alone_no_send was) in Ho.
  - destruct (worker_closing was (λ r, S (r_workers r)) i p p' (WorkerStarts i) Hcl Ho) as [? ->]; [|split; [done|lia]].
    simpl in Ho. apply on_server_inv in Ho as (r & r' & Hr & Hf & ->). unfold on_server. rewrite Hr.
    by destruct (r_init r); simplify_eq.
  - destruct (worker_closing was (λ r, pred (r_workers r)) i p p' (WorkerReturns i) Hcl Ho) as [? ->]; [|split; [done|lia]].
    simpl in Ho. apply on_server_inv in Ho as (r & r' & Hr & Hf & ->). unfold on_server. rewrite Hr.
    by destruct (r_workers r); simplify_eq.
  - destruct (queue_closing was i p p' Hcl Ho). split; [done|lia].
  - simpl in Ho. destruct (clean p) eqn:Hc; [|done]. injection Ho as <-.
    destruct (clean_closing was p _ Hcl Hc). split; [done|lia].
Qed.

Lemma closing_steps was os p p' : closing was p → Forall shutdown_op os → exec_all os p = Some (Return p') →
  closing was p' ∧ to_do p' + length (filter on_its_own os) ≤ to_do p.
Proof.
  intros Hcl Hos. revert p Hcl. induction Hos as [|o os Ho _ IH]; intros p Hcl Hr; simpl in Hr; [injection Hr as <-; simpl; split; [done|lia]|].
  destruct (exec o p) as [[q|]|] eqn:Hq; [|done|done]. destruct (closing_step was o p q Hcl Ho Hq) as [Hcl' Hle].
  destruct (IH q Hcl' Hr) as [? Hle']. split; [done|]. rewrite filter_cons. destruct (on_its_own o); simpl in *; lia.
Qed.

(** A server that ends has its channel [closed] open. *)
Lemma closing_no_panic was p o w : closing was p → shutdown_op o → exec o p ≠ Some (Panics w).
Proof.
  intros Hcl Hop. destruct o as [|i|i opens|i|i|i|i|i|i|i| |]; try done; simpl.
  - unfold on_server. destruct (servers p !! i) as [[a b [|e c] n u d k]|] eqn:Hr; [done| |done].
    destruct (cl_fate _ _ Hcl i _ Hr) as [Hb _]. simpl in *. destruct u; try done.
    destruct (Recover e); [done|]. destruct b; [|done]. by destruct (Hb eq_refl) as (-> & _).
  - pose proof (alone_no_send was i p Hcl) as Hn. simpl in Hn. by rewrite Hn.
  - unfold on_server. destruct (servers p !! i) as [r|]; [|done]. by destruct (r_init r).
  - unfold on_server. destruct (servers p !! i) as [r|]; [|done]. by destruct (r_workers r).
  - unfold on_server. destruct (servers p !! i) as [[a b c n u d k]|] eqn:Hr; [|done].
    destruct (po_servers _ (cl_ok _ _ Hcl) i _ Hr) as [_ _ _ _ Hd]. simpl in *. destruct u; try done. destruct k; [|done].
    by destruct (Hd e eq_refl) as [_ ->].
  - by destruct (clean p).
Qed.

Lemma round_ready was i r p : closing was p → servers p !! i = Some r → r_run r = Serving → r_chan r ≠ [] →
  exec (Round i) p ≠ None.
Proof.
  intros Hcl Hr Hs Hc. simpl. unfold on_server. rewrite Hr. destruct r as [a b [|e c] n u d k]; [done|]. simpl in *. subst u.
  destruct (Recover e); [done|]. by destruct b, d.
Qed.

(** While the cleaner is in its loop something can be done. *)
Lemma closing_rest was p : closing was p → at_rest p → cleaner p = None.
Proof.
  intros Hcl Hrest. destruct (cleaner p) as [[l b]|] eqn:Hc; [exfalso|done].
  pose proof (Hrest Clean I) as Hclean. simpl in Hclean. unfold clean in Hclean. rewrite Hc in Hclean.
  destruct l as [|i l]; [done|].
  destruct (po_cleaner _ (cl_ok _ _ Hcl) _ _ Hc) as [[[r Hr]%lookup_lt_is_Some _]%Forall_cons _].
  rewrite Hr in Hclean. destruct b; [|done]. destruct (r_chan r) as [|e c] eqn:He.
  - destruct r; simpl in *. subst. done.
  - destruct (cl_head _ _ Hcl i l r Hc Hr) as [Hb|Hn]; [|congruence].
    destruct (cl_fate _ _ Hcl i r Hr) as [Hf _]. destruct (Hf Hb) as [_ [[Hs _]|[_ Hn]]].
    + eapply (round_ready was i); [done..|by rewrite He|]. by apply Hrest.
    + unfold left_over in Hn. rewrite Hc in Hn. rewrite Hn in He by left. done.
Qed.

(** A server that still has closers waits for its workers. *)
Lemma closing_ended was p i r : closing was p → at_rest p → servers p !! i = Some r → r_closers r = true →
  (∃ e, r_run r = Closing e) ∧ r_workers r ≠ 0.
Proof.
  intros Hcl Hrest Hr Hb. destruct (cl_fate _ _ Hcl i r Hr) as [Hf _]. destruct (Hf Hb) as [Hd [[Hs Hor]|[[e Hs] _]]].
  - exfalso. unfold left_over in Hor. rewrite (closing_rest was p Hcl Hrest) in Hor. destruct Hor as [?%not_elem_of_nil|Hc]; [done|].
    eapply (round_ready was i); [done..|]. by apply Hrest.
  - split; [by eexists|]. intros Hk. pose proof (Hrest (QueueClosed i) I) as Hq. simpl in Hq. unfold on_server in Hq.
    rewrite Hr in Hq. destruct r as [a b c n u d k]. simpl in *. by subst.
Qed.

(** What the cleaner and the servers have to do at the signal *)
Lemma sum_list_with_bound {A} (f : A → nat) m l : (∀ i x, l !! i = Some x → f x ≤ m) → sum_list_with f l ≤ m * length l.
Proof.
  induction l as [|x l IH]; intros H; simpl; [lia|]. pose proof (H 0 x eq_refl).
  assert (sum_list_with f l ≤ m * length l) by (apply IH; intros i y Hi; by apply (H (S i))). lia.
Qed.

Lemma to_do_signal was p : closing was p → cleaner p = Some (sigClosers p, false) →
  to_do p ≤ 1 + 4 * length (sigClosers p) + 3 * length (servers p).
Proof.
  intros Hcl Hc. unfold to_do. rewrite Hc. cbn [to_send].
  pose proof (sum_list_with_bound server_to_do 3 (servers p)) as H. enough (∀ i r, servers p !! i = Some r → server_to_do r ≤ 3) by (specialize (H ltac:(done)); lia).
  intros i r Hr. destruct (po_servers _ (cl_ok _ _ Hcl) i r Hr) as [Hl _ _ _ _]. unfold server_to_do. destruct (r_run r); lia.
Qed.

Lemma exec_all_rtc os p p' : exec_all os p = Some (Return p') → rtc step p p'.
Proof.
  revert p. induction os as [|o os IH]; intros p H; simpl in H; [injection H as ->; apply rtc_refl|].
  destruct (exec o p) as [[q|w]|] eqn:Ho; [|done|done]. eapply rtc_l; [by exists o|by apply IH].
Qed.

(** A server that serves, or that is being closed with its channel free *)
Definition can_be_closed (r : running) : Prop :=
  r_closed r = false ∧ (r_run r = Serving ∨ (∃ e, r_run r = Closing e) ∧ r_chan r = []).

Lemma signal_closing p : rtc step start p → cleaner p = Some (sigClosers p, false) →
  (∀ i r, servers p !! i = Some r → r_senders r = 0 ∧ (r_closers r = true → can_be_closed r)) →
  closing (λ i, ∃ r, servers p !! i = Some r ∧ r_closers r = true) p.
Proof.
  intros Hok%reachable_process Hc H. split; [done| | |by rewrite Hc].
  - intros i r Hr. destruct (H i r Hr) as [_ Hs]. split; [|intros Hb (r' & Hr' & Hb'); congruence].
    intros Hb. destruct (Hs Hb) as [? [?|[??]]]; (split; [done|]); [left|by right]. split; [done|]. left. unfold left_over. rewrite Hc.
    destruct (po_servers _ Hok i r Hr) as [_ _ Hl Hi _]. by apply Hl, Hi.
  - intros i r Hr. by destruct (H i r Hr).
Qed.

(** C18. When the signal arrives, every server that was published serves (or is being
    closed already) and no call of [Close] waits, then whatever the workers of the
    queues do, nothing that follows panics, and the cleaner and the servers themselves
    go on for at most four steps a closer and three a server.  They can only come to rest
    with the lock given back and each of those servers either closed, its [Serve]
    returned, or in its closing, waiting for a worker that has not returned. *)
Theorem signal_closes_all p : rtc step start p → cleaner p = Some (sigClosers p, false) →
  (∀ i r, servers p !! i = Some r → r_senders r = 0 ∧ (r_closers r = true → can_be_closed r)) →
  ∀ os p', Forall shutdown_op os → exec_all os p = Some (Return p') →
    length (filter on_its_own os) ≤ 1 + 4 * length (sigClosers p) + 3 * length (servers p) ∧
    (∀ o w, shutdown_op o → exec o p' ≠ Some (Panics w)) ∧
    (at_rest p' → cleaner p' = None ∧
       ∀ i r r', servers p !! i = Some r → servers p' !! i = Some r' → r_closers r = true →
         r_closers r' = false ∧ r_closed r' = true ∧ (∃ e, r_run r' = Returned e) ∨
         (∃ e, r_run r' = Closing e) ∧ r_workers r' ≠ 0).
Proof.
  intros Hrun Hc H os p' Hos Hr. pose proof (signal_closing p Hrun Hc H) as Hcl.
  pose proof (to_do_signal _ p Hcl Hc). destruct (closing_steps _ os p p' Hcl Hos Hr) as [Hcl' Hle].
  split_and!; [lia|intros o w Ho; exact (closing_no_panic _ p' o w Hcl' Ho)|].
  intros Hrest. split; [by eapply closing_rest|]. intros i r r' Hi Hi' Hb.
  destruct (r_closers r') eqn:Hb'; [right; by eapply closing_ended|left].
  destruct (cl_fate _ _ Hcl' i r' Hi') as [_ Hd]. split; [done|]. apply Hd; [done|]. by exists r.
Qed.

(** Two servers, the first being closed, when the signal arrives; the second has a worker. *)
Definition two_servers : process :=
  match exec_all [Created; Init 0; ServeCall 0; Created; Init 1; WorkerStarts 1; Publish 1 true; ServeCall 1;
                  CloseCall 0; CloseSend 0; Signal] start with
  | Some (Return p) => p
  | _ => start
  end.
Lemma signal_closes_all_witness : sigClosers two_servers = [0; 1] ∧
  ∀ os p', Forall shutdown_op os → exec_all os two_servers = Some (Return p') →
    length (filter on_its_own os) ≤ 15 ∧ (∀ o w, shutdown_op o → exec o p' ≠ Some (Panics w)) ∧
    (at_rest p' → cleaner p' = None ∧
       ∀ i r r', servers two_servers !! i = Some r → servers p' !! i = Some r' → r_closers r = true →
         r_closers r' = false ∧ r_closed r' = true ∧ (∃ e, r_run r' = Returned e) ∨
         (∃ e, r_run r' = Closing e) ∧ r_workers r' ≠ 0).
Proof.
  split; [reflexivity|]. apply signal_closes_all.
  - apply (exec_all_rtc [Created; Init 0; ServeCall 0; Created; Init 1; WorkerStarts 1; Publish 1 true; ServeCall 1;
                         CloseCall 0; CloseSend 0; Signal]). reflexivity.
  - reflexivity.
  - intros [|[|i]] r Hr; vm_compute in Hr; [injection Hr as <-..|destruct i; discriminate]; split; try done; by split; [|left].
Defined.

(** The first server's own close makes the cleaner wait.  Each [Serve] returns, the second
    when its worker has. *)
Example two_servers_end :
  exec_all [Clean; Clean] two_servers = None ∧
  (λ p, match p with Some (Return p) => (r_run <$> servers p, cleaner p) | _ => ([], None) end) <$>
    [exec_all [Clean; Round 0; QueueClosed 0; Clean; Clean; Clean; Round 1; Clean] two_servers;
     exec_all [Clean; Round 0; Clean; Clean; Clean; Round 1; Clean; WorkerReturns 1; QueueClosed 1; QueueClosed 0] two_servers] =
    [([Returned None; Closing (Some ErrServerClosed)], None); ([Returned None; Returned (Some ErrServerClosed)], None)].
Proof. split; vm_compute; reflexivity. Qed.

(** ** What the hypotheses of [signal_closes_all] leave out *)

(** A server that was published, told to close and is not served has its channel
    full: whatever else the process does, the cleaner waits at it with the lock, so
    the servers after it are not closed and no server can be initialised. *)
Definition waits_at (i : nat) (p : process) : Prop :=
  signalled p = true ∧
  ∃ l r, cleaner p = Some (i :: l, true) ∧ servers p !! i = Some r ∧ r_chan r ≠ [] ∧ r_run r ≠ Serving.

(** The steps of one server leave the cleaner where it waits. *)
Lemma on_server_waits i j f p p' : waits_at i p → on_server j f p = Some (Return p') →
  (∀ r r', r_chan r ≠ [] ∧ r_run r ≠ Serving → j = i → f r = Some (Return r') → r_chan r' ≠ [] ∧ r_run r' ≠ Serving) →
  waits_at i p' ∧ sigClosers p' = sigClosers p.
Proof.
  intros (Hsig & l & r & Hc & Hr & Hw) (s & s' & Hj & Hf & ->)%on_server_inv Hok. split; [|done]. split; [done|].
  destruct (decide (j = i)) as [->|Hji].
  - rewrite Hr in Hj. injection Hj as <-. exists l, s'. simpl. split; [done|]. split; [|by eapply Hok].
    apply list_lookup_insert_eq. by eapply lookup_lt_Some.
  - exists l, r. simpl. split; [done|]. by rewrite list_lookup_insert_ne.
Qed.

Lemma unserved_blocks_cleaner i o p p' : waits_at i p → exec o p = Some (Return p') → o ≠ ServeCall i →
  waits_at i p' ∧ sigClosers p' = sigClosers p.
Proof.
  intros Hw Ho Hne. destruct o as [|j|j opens|j|j|j|j|j|j|j| |]; simpl in Ho;
    try (eapply on_server_waits; [exact Hw|exact Ho|]; intros [a b c n u d k] r' [Hch Hs] -> Hf; simpl in *).
  - injection Ho as <-. destruct Hw as (Hsig & l & r & Hc & Hr & Hw). split; [|done]. split; [done|].
    exists l, r. simpl. split; [done|]. rewrite lookup_app_l; [done|by eapply lookup_lt_Some].
  - destruct Hw as (Hsig & l & r & Hc & _). by rewrite Hc in Ho.
  - destruct a; [|done]. injection Hf as <-. by destruct opens.
  - done.
  - by destruct c, u.
  - injection Hf as <-. by destruct b.
  - destruct n; [done|]. by destruct c; [|case_bool_decide; [simpl in *; lia|]].
  - destruct a; [|done]. by injection Hf as <-.
  - destruct k; [done|]. by injection Hf as <-.
  - destruct u, k, d; try done. by injection Hf as <-.
  - destruct Hw as [Hsig _]. by rewrite Hsig in Ho.
  - destruct Hw as (_ & l & r & Hc & Hr & Hch & _). unfold clean in Ho. rewrite Hc, Hr in Ho.
    destruct (push _ r) eqn:Hp; [|done]. by apply push_inv in Hp as [? _].
Qed.

Example unserved_server_blocks : ∃ p,
  exec_all [Created; Init 0; Created; Init 1; ServeCall 1; Created; CloseCall 0; CloseSend 0; Signal; Clean] start =
    Some (Return p) ∧
  waits_at 0 p ∧ servers p !! 2 = Some newRunning ∧ exec (Init 2) p = None.
Proof.
  eexists. split; [vm_compute; reflexivity|]. split; [|by split].
  split; [done|]. eexists _, _. split; [reflexivity|]. split; [reflexivity|]. by split.
Qed.

(** A server that publishes and serves again after its end panics when it ends. *)
Example closed_twice_panics : exec_all [Created; Init 0; ServeCall 0; CloseCall 0; CloseSend 0; Round 0; QueueClosed 0; Publish 0 true;
    ServeCall 0; CloseCall 0; CloseSend 0; Round 0] start = Some (Panics (str "close of closed channel")).
Proof. reflexivity. Qed.
