(* ===== verification/CloseWait.v ===== *)
(** The calls of [CloseWait] (server.go) among the servers of a process: each is a
    call of [Close], then a wait for the channel [closed] of its server.  The process
    is that of Shutdown. *)
From S2P Require Import Prelude Names Server Shutdown.

(** Where a call is: in [Close] past its test of [closers], before [<-s.closed], or
    back *)
Inductive wait_phase := Sending | Waiting | Back.
#[export] Instance wait_phase_eq_dec : EqDecision wait_phase.
Proof. solve_decision. Defined.

Record wait_call := mkWait { w_server : nat; w_phase : wait_phase }.
#[export] Instance wait_call_eq_dec : EqDecision wait_call.
Proof. solve_decision. Defined.

Record world := mkWorld { proc : process; calls : list wait_call }.

(** The calls of [CloseWait] that are in [Close] of server [i] *)
Definition sending_on (i : nat) (c : wait_call) : nat :=
  if bool_decide (c = mkWait i Sending) then 1 else 0.
Definition sendings (i : nat) (cs : list wait_call) : nat := sum_list_with (sending_on i) cs.

Inductive wait_op :=
| Other (o : op)         (* anything but the calls of CloseWait *)
| WaitCall (i : nat)     (* CloseWait: Close tests closers *)
| WaitSend (k : nat)     (* Close sends *)
| WaitOver (k : nat).    (* closed was closed *)

Definition on_proc (f : process → option (outcome process)) (cs : list wait_call) (w : world) : option (outcome world) :=
  match f (proc w) with
  | Some (Return p) => Some (Return (mkWorld p cs))
  | Some (Panics m) => Some (Panics m)
  | None => None
  end.

(** A call of [Close] sends what is not a call of [CloseWait]'s to send. *)
Definition wait_exec (o : wait_op) (w : world) : option (outcome world) :=
  match o with
  | Other (CloseSend i) =>
      match servers (proc w) !! i with
      | Some r => if bool_decide (sendings i (calls w) < r_senders r)
                  then on_proc (exec (CloseSend i)) (calls w) w else None
      | None => None
      end
  | Other o => on_proc (exec o) (calls w) w
  | WaitCall i =>
      match servers (proc w) !! i with
      | Some r => on_proc (exec (CloseCall i)) (calls w ++ [mkWait i (if r_closers r then Sending else Waiting)]) w
      | None => None
      end
  | WaitSend k =>
      match calls w !! k with
      | Some (mkWait i Sending) => on_proc (exec (CloseSend i)) (<[k := mkWait i Waiting]> (calls w)) w
      | _ => None
      end
  | WaitOver k =>
      match calls w !! k with
      | Some (mkWait i Waiting) =>
          match servers (proc w) !! i with
          | Some r => if r_closed r then Some (Return (mkWorld (proc w) (<[k := mkWait i Back]> (calls w)))) else None
          | None => None
          end
      | _ => None
      end
  end.

Definition wait_step (w w' : world) : Prop := ∃ o, wait_exec o w = Some (Return w').
Definition wait_start : world := mkWorld start [].

(** What goes on if nothing is called: the loops of [Serve] with what follows them, the
    cleaner, the calls in [Close] and [CloseWait]; next to that workers start and return *)
Definition goes_on (o : wait_op) : bool :=
  match o with
  | Other o => on_its_own o
  | WaitSend _ | WaitOver _ => true
  | WaitCall _ => false
  end.
Definition going_op (o : wait_op) : bool :=
  match o with Other o => shutdown_op o | _ => goes_on o end.
Definition settled (w : world) : Prop := ∀ o, goes_on o → wait_exec o w = None.

Fixpoint wait_exec_all (os : list wait_op) (w : world) : option (outcome world) :=
  match os with
  | [] => Some (Return w)
  | o :: os => match wait_exec o w with Some (Return w') => wait_exec_all os w' | r => r end
  end.

(** Four for a call in [Close], two for a message, one for a queue to close or a call
    that waits *)
Definition server_work (r : running) : nat :=
  4 * r_senders r + 2 * length (r_chan r) + match r_run r with Closing _ => 1 | _ => 0 end.
Definition call_work (c : wait_call) : nat := if bool_decide (w_phase c = Waiting) then 1 else 0.
Definition work_left (w : world) : nat :=
  sum_list_with server_work (servers (proc w)) + sum_list_with call_work (calls w).

(** ** Steps *)

#[export] Instance op_eq_dec : EqDecision op.
Proof. solve_decision. Defined.

(** What the steps of the world are *)
Inductive moves (w : world) : wait_op → world → Prop :=
| moves_other o p : (∀ i, o ≠ CloseSend i) → exec o (proc w) = Some (Return p) →
    moves w (Other o) (mkWorld p (calls w))
| moves_close_send i r p : servers (proc w) !! i = Some r → sendings i (calls w) < r_senders r →
    exec (CloseSend i) (proc w) = Some (Return p) → moves w (Other (CloseSend i)) (mkWorld p (calls w))
| moves_wait_call i r p : servers (proc w) !! i = Some r → exec (CloseCall i) (proc w) = Some (Return p) →
    moves w (WaitCall i) (mkWorld p (calls w ++ [mkWait i (if r_closers r then Sending else Waiting)]))
| moves_wait_send i k p : calls w !! k = Some (mkWait i Sending) → exec (CloseSend i) (proc w) = Some (Return p) →
    moves w (WaitSend k) (mkWorld p (<[k := mkWait i Waiting]> (calls w)))
| moves_wait_over i r k : calls w !! k = Some (mkWait i Waiting) → servers (proc w) !! i = Some r → r_closed r = true →
    moves w (WaitOver k) (mkWorld (proc w) (<[k := mkWait i Back]> (calls w))).

Lemma on_proc_Return f cs w w' : on_proc f cs w = Some (Return w') → ∃ p, f (proc w) = Some (Return p) ∧ w' = mkWorld p cs.
Proof. unfold on_proc. destruct (f (proc w)) as [[p|]|]; [|done|done]. intros [= <-]. by exists p. Qed.

Lemma wait_exec_moves o w w' : wait_exec o w = Some (Return w') → moves w o w'.
Proof.
  destruct o as [o|i|k|k]; cbn -[exec].
  - assert ((∃ i, o = CloseSend i) ∨ ∀ i, o ≠ CloseSend i) as [[i ->]|Hne] by (destruct o; (by right) || (left; eauto)).
    + destruct (servers (proc w) !! i) as [r|] eqn:Hr; [|done]. case_bool_decide; [|done].
      intros (p & Ho & ->)%on_proc_Return. by eapply moves_close_send.
    + intros Ho. assert (on_proc (exec o) (calls w) w = Some (Return w')) as (p & Ho' & ->)%on_proc_Return
        by (destruct o; try done; by destruct (Hne i)).
      by apply moves_other.
  - destruct (servers (proc w) !! i) as [r|] eqn:Hr; [|done]. intros (p & Ho & ->)%on_proc_Return. by apply moves_wait_call.
  - destruct (calls w !! k) as [[i []]|] eqn:Hk; try done. intros (p & Ho & ->)%on_proc_Return. by apply moves_wait_send.
  - destruct (calls w !! k) as [[i []]|] eqn:Hk; try done. destruct (servers (proc w) !! i) as [r|] eqn:Hr; [|done].
    destruct (r_closed r) eqn:Hc; [|done]. intros [= <-]. by eapply moves_wait_over.
Qed.

Lemma sum_pos {A} (f : A → nat) l : sum_list_with f l ≠ 0 → ∃ k x, l !! k = Some x ∧ f x ≠ 0.
Proof.
  induction l as [|x l IH]; simpl; [done|]. intros H. destruct (decide (f x = 0)) as [Hx|Hx].
  - destruct IH as (k & y & Hk & Hy); [lia|]. by exists (S k), y.
  - by exists 0, x.
Qed.

Lemma closeSend_inv i p p' : exec (CloseSend i) p = Some (Return p') →
  ∃ r n, servers p !! i = Some r ∧ r_senders r = S n ∧ r_chan r = [] ∧
    p' = mkProcess (<[i := mkRunning (r_init r) (r_closers r) [noError] n (r_run r) (r_closed r) (r_workers r)]> (servers p))
           (sigClosers p) (cleaner p) (signalled p).
Proof.
  simpl. intros (r & r' & Hr & Hf & ->)%on_server_inv. destruct (r_senders r) as [|n] eqn:Hn; [done|].
  destruct (push noError r) as [r1|] eqn:Hp; [|done]. injection Hf as <-. apply push_inv in Hp as [Hc ->].
  by exists r, n.
Qed.

Lemma closeSend_ready i p r : servers p !! i = Some r → r_senders r ≠ 0 → r_chan r = [] → exec (CloseSend i) p ≠ None.
Proof. simpl. unfold on_server. intros ->. destruct r as [a b c [|n] u d m]; [done|]. simpl. intros _ ->. done. Qed.

(** No step takes a server away, opens its channel [closed] again, or makes a call of
    [Close] go but by its send. *)
Lemma exec_still o p p' i r : exec o p = Some (Return p') → servers p !! i = Some r →
  ∃ r', servers p' !! i = Some r' ∧ (r_closed r = true → r_closed r' = true) ∧
    (o ≠ CloseSend i → r_senders r ≤ r_senders r').
Proof.
  intros Ho Hr.
  assert (∀ j f, on_server j f p = Some (Return p') →
    (∀ s s', f s = Some (Return s') → (r_closed s = true → r_closed s' = true) ∧ (o ≠ CloseSend j → r_senders s ≤ r_senders s')) →
    ∃ r', servers p' !! i = Some r' ∧ (r_closed r = true → r_closed r' = true) ∧ (o ≠ CloseSend i → r_senders r ≤ r_senders r')) as Hone.
  { intros j f (s & s' & Hs & Hf & ->)%on_server_inv Hall. destruct (decide (j = i)) as [->|Hne]; simpl.
    - exists s'. rewrite list_lookup_insert_eq by (by eapply lookup_lt_Some).
      rewrite Hr in Hs. injection Hs as <-. split; [done|]. by apply Hall.
    - exists r. by rewrite list_lookup_insert_ne. }
  destruct o as [|j|j opens|j|j|j|j|j|j|j| |]; simpl in Ho; try (eapply Hone; [exact Ho|]; intros s s' Hf; cbv beta in Hf).
  - injection Ho as <-. exists r. simpl. by rewrite lookup_app_l by (by eapply lookup_lt_Some).
  - destruct (cleaner p); [done|]. destruct (servers p !! j) as [s|] eqn:Hs; [|done]. destruct (r_init s); [done|].
    injection Ho as <-. simpl. destruct (decide (j = i)) as [->|Hne]; [|exists r; by rewrite list_lookup_insert_ne].
    rewrite list_lookup_insert_eq by (by eapply lookup_lt_Some). rewrite Hr in Hs. injection Hs as <-.
    eexists. split; [done|]. by destruct r.
  - destruct (r_init s); [|done]. injection Hf as <-. by destruct opens, s.
  - destruct (_ && _); [|done]. injection Hf as <-. by destruct s.
  - by apply serve_round_inv in Hf as (e & q & _ & _ & u & -> & _).
  - injection Hf as <-. destruct s as [a [] c n u d m]; simpl; split; auto; lia.
  - destruct (r_senders s) eqn:Hn; [done|]. destruct (push noError s) as [s1|] eqn:Hp; [|done]. injection Hf as <-.
    apply push_inv in Hp as [_ ->]. simpl. split; [done|congruence].
  - destruct (r_init s); [|done]. injection Hf as <-. by destruct s.
  - destruct (r_workers s); [done|]. injection Hf as <-. by destruct s.
  - by apply queue_closed_inv in Hf as (e & _ & _ & _ & ->).
  - destruct (_ || _); [done|]. injection Ho as <-. by exists r.
  - unfold clean in Ho. destruct (cleaner p) as [[[|j l] []]|]; try (injection Ho as <-; by exists r); [| |done];
      (destruct (servers p !! j) as [s|] eqn:Hs; [|done]).
    + destruct (push _ s) as [s'|] eqn:Hp; [|done]. injection Ho as <-. apply push_inv in Hp as [_ ->]. simpl.
      destruct (decide (j = i)) as [->|Hne]; [|exists r; by rewrite list_lookup_insert_ne].
      rewrite list_lookup_insert_eq by (by eapply lookup_lt_Some). rewrite Hr in Hs. injection Hs as <-. by eexists.
    + injection Ho as <-. by exists r.
Qed.

(** ** Invariant *)

Definition call_ok (p : process) (c : wait_call) : Prop :=
  ∃ r, servers p !! w_server c = Some r ∧ (w_phase c = Back → r_closed r = true).

Record world_ok (w : world) : Prop := mkWorldOk {
  wo_proc : process_ok (proc w);
  wo_sending : ∀ i r, servers (proc w) !! i = Some r → sendings i (calls w) ≤ r_senders r;
  wo_calls : ∀ k c, calls w !! k = Some c → call_ok (proc w) c;
}.

Lemma sending_on_no i j x : x ≠ Sending → sending_on i (mkWait j x) = 0.
Proof. intros Hx. unfold sending_on. case_bool_decide; congruence. Qed.
Lemma sending_on_other i j x : i ≠ j → sending_on i (mkWait j x) = 0.
Proof. intros Hx. unfold sending_on. case_bool_decide; congruence. Qed.
Lemma sending_on_this i : sending_on i (mkWait i Sending) = 1.
Proof. unfold sending_on. by case_bool_decide. Qed.

Lemma sendings_snoc i cs c : sendings i (cs ++ [c]) = sendings i cs + sending_on i c.
Proof. unfold sendings. rewrite sum_list_with_app. simpl. lia. Qed.

Lemma call_ok_still o p p' c : exec o p = Some (Return p') → call_ok p c → call_ok p' c.
Proof. intros Ho (r & Hr & Hb). destruct (exec_still o p p' _ r Ho Hr) as (r' & Hr' & Hcl & _). exists r'. auto. Qed.

(** The servers after a step were there before, or are new. *)
Lemma exec_back o p p' i r' : exec o p = Some (Return p') → servers p' !! i = Some r' →
  (∃ r, servers p !! i = Some r) ∨ o = Created.
Proof.
  intros Ho Hr'. destruct (decide (o = Created)) as [|Hne]; [by right|left].
  assert (length (servers p') = length (servers p)) as Hl.
  { destruct o as [|j|j opens|j|j|j|j|j|j|j| |]; simpl in Ho; try done;
      try (apply on_server_inv in Ho as (? & ? & _ & _ & ->); simpl; apply length_insert).
    - destruct (cleaner p); [done|]. destruct (servers p !! j); [|done]. destruct (r_init _); [done|].
      injection Ho as <-. apply length_insert.
    - destruct (_ || _); [done|]. by injection Ho as <-.
    - unfold clean in Ho. destruct (cleaner p) as [[[|j l] []]|]; try (by injection Ho as <-); [| |done];
        (destruct (servers p !! j); [|done]); [destruct (push _ _); [|done]|]; injection Ho as <-; [apply length_insert|done]. }
  apply lookup_lt_is_Some. rewrite <- Hl. by eapply lookup_lt_Some.
Qed.

(** A step that leaves the calls of [CloseWait] alone *)
Lemma other_ok o w p : world_ok w → exec o (proc w) = Some (Return p) →
  (∀ i r r', o = CloseSend i → servers (proc w) !! i = Some r → servers p !! i = Some r' → sendings i (calls w) ≤ r_senders r') →
  world_ok (mkWorld p (calls w)).
Proof.
  intros [H1 H2 H3] Ho Hsend. split; simpl; [by eapply process_exec_ok| |intros k c Hk; eapply call_ok_still; eauto].
  intros i r' Hr'. destruct (exec_back _ _ _ _ _ Ho Hr') as [[r Hr]| ->].
  - destruct (exec_still _ _ _ _ _ Ho Hr) as (r1 & Hr1 & _ & Hs). rewrite Hr' in Hr1. injection Hr1 as <-.
    destruct (decide (o = CloseSend i)) as [He|He]; [by eapply Hsend|]. specialize (H2 i r Hr). specialize (Hs He). lia.
  - assert (∀ r, servers (proc w) !! i = Some r → sendings i (calls w) ≤ r_senders r') as Hold.
    { intros r Hr. destruct (exec_still _ _ _ _ _ Ho Hr) as (r1 & Hr1 & _ & Hs). rewrite Hr' in Hr1. injection Hr1 as <-.
      specialize (H2 i r Hr). specialize (Hs ltac:(done)). lia. }
    destruct (servers (proc w) !! i) as [r|] eqn:Hr; [by eapply Hold|].
    assert (sendings i (calls w) = 0) as ->; [|lia].
    destruct (decide (sendings i (calls w) = 0)) as [|Hne]; [done|]. apply sum_pos in Hne as (k & c & Hk & Hc).
    destruct (H3 k c Hk) as (r & Hr1 & _). unfold sending_on in Hc. case_bool_decide; [subst; simpl in *; congruence|done].
Qed.

(** A send of [Close] that is not [CloseWait]'s leaves enough calls in [Close]. *)
Lemma close_send_ok w i r p : world_ok w → servers (proc w) !! i = Some r → sendings i (calls w) < r_senders r →
  exec (CloseSend i) (proc w) = Some (Return p) → world_ok (mkWorld p (calls w)).
Proof.
  intros Hok Hr Hlt Ho. eapply other_ok; [done|exact Ho|]. intros ? r1 r' [= <-] Hr1 Hr'.
  rewrite Hr in Hr1. injection Hr1 as <-. apply closeSend_inv in Ho as (r1 & n & Hr1 & Hn & _ & ->).
  rewrite Hr in Hr1. injection Hr1 as <-. simpl in Hr'.
  rewrite list_lookup_insert_eq in Hr' by (by eapply lookup_lt_Some). injection Hr' as <-. simpl. lia.
Qed.

Lemma wait_call_ok w i r p : world_ok w → servers (proc w) !! i = Some r → exec (CloseCall i) (proc w) = Some (Return p) →
  world_ok (mkWorld p (calls w ++ [mkWait i (if r_closers r then Sending else Waiting)])).
Proof.
  intros Hok Hr Ho. assert (world_ok (mkWorld p (calls w))) as [G1 G2 G3] by (eapply other_ok; [done|exact Ho|done]).
  destruct Hok as [_ H2 _]. split; simpl; [done| |].
  - intros j r' Hr'. rewrite sendings_snoc. destruct (decide (j = i)) as [->|Hne].
    + simpl in Ho. apply on_server_inv in Ho as (r1 & r2 & Hr1 & Hf & ->). rewrite Hr in Hr1. injection Hr1 as <-.
      injection Hf as <-. simpl in Hr'. rewrite list_lookup_insert_eq in Hr' by (by eapply lookup_lt_Some). injection Hr' as <-.
      specialize (H2 i r Hr). destruct r as [a [] c n u d m]; simpl in *;
        [rewrite sending_on_this|rewrite sending_on_no by done]; lia.
    + rewrite sending_on_other by done. specialize (G2 j r' Hr'). simpl in G2. lia.
  - intros k c [Hk|[_ Hk]]%lookup_app_Some; [by eapply G3|].
    apply list_lookup_singleton_Some in Hk as [_ <-]. destruct (exec_still _ _ _ _ _ Ho Hr) as (r' & Hr' & _).
    exists r'. split; [done|]. simpl. by destruct (r_closers r).
Qed.

Lemma wait_send_ok w i k p : world_ok w → calls w !! k = Some (mkWait i Sending) →
  exec (CloseSend i) (proc w) = Some (Return p) → world_ok (mkWorld p (<[k := mkWait i Waiting]> (calls w))).
Proof.
  intros [H1 H2 H3] Hk Ho.
  pose proof (λ j, sum_list_with_insert (sending_on j) (calls w) k _ (mkWait i Waiting) Hk) as Hsum.
  split; simpl; [by eapply process_exec_ok| |].
  - intros j r' Hr'. specialize (Hsum j). rewrite (sending_on_no j i Waiting) in Hsum by done. unfold sendings in *.
    destruct (exec_back _ _ _ _ _ Ho Hr') as [[r Hr]|?]; [|done]. specialize (H2 j r Hr).
    destruct (exec_still _ _ _ _ _ Ho Hr) as (r1 & Hr1 & _ & Hs). rewrite Hr' in Hr1. injection Hr1 as <-.
    destruct (decide (j = i)) as [->|Hne]; [|specialize (Hs ltac:(congruence)); lia].
    rewrite sending_on_this in Hsum. apply closeSend_inv in Ho as (r1 & n & Hr1 & Hn & _ & ->).
    rewrite Hr in Hr1. injection Hr1 as <-. simpl in Hr'.
    rewrite list_lookup_insert_eq in Hr' by (by eapply lookup_lt_Some). injection Hr' as <-. simpl. lia.
  - intros k' c [(<- & <- & _)|[_ Hk']]%list_lookup_insert_Some; [|by eapply call_ok_still; eauto].
    destruct (call_ok_still _ _ _ _ Ho (H3 _ _ Hk)) as (r & Hr & _). by exists r.
Qed.

Lemma wait_over_ok w i r k : world_ok w → calls w !! k = Some (mkWait i Waiting) →
  servers (proc w) !! i = Some r → r_closed r = true → world_ok (mkWorld (proc w) (<[k := mkWait i Back]> (calls w))).
Proof.
  intros [H1 H2 H3] Hk Hr Hc.
  pose proof (λ j, sum_list_with_insert (sending_on j) (calls w) k _ (mkWait i Back) Hk) as Hsum.
  split; simpl; [done| |].
  - intros j r' Hr'. specialize (Hsum j). rewrite !sending_on_no in Hsum by done. specialize (H2 j r' Hr').
    unfold sendings in *. lia.
  - intros k' c [(<- & <- & _)|[_ Hk']]%list_lookup_insert_Some; [by exists r|by eapply H3].
Qed.

Lemma moves_ok w o w' : world_ok w → moves w o w' → world_ok w'.
Proof.
  intros Hok Hm. destruct Hm as [o p Hne Ho|i r p Hr Hlt Ho|i r p Hr Ho|i k p Hk Ho|i r k Hk Hr Hc].
  - eapply other_ok; [done|exact Ho|]. intros i ? ? ->. by destruct (Hne i).
  - by eapply close_send_ok.
  - by apply wait_call_ok.
  - by apply wait_send_ok.
  - by eapply wait_over_ok.
Qed.

Lemma world_reachable w : rtc wait_step wait_start w → world_ok w.
Proof.
  apply (rtc_invariant wait_step world_ok); [intros w1 w2 Hok [o Ho]; by eapply moves_ok, wait_exec_moves|].
  split; simpl; [split; simpl; (done || by apply NoDup_nil)|done|done].
Qed.

(** ** Closing *)

(** A server that serves with [n] reasons to end on its channel or to come, and what
    is left of them when it is being closed and when it has ended *)
Definition will_end (n : nat) (r : running) : Prop :=
  r_run r = Serving ∧ r_closers r = true ∧ r_closed r = false ∧ r_senders r + length (r_chan r) = n ∨
  (∃ e, r_run r = Closing e) ∧ r_closers r = true ∧ r_closed r = false ∧ S (r_senders r + length (r_chan r)) = n ∨
  (∃ e, r_run r = Returned e) ∧ r_closers r = false ∧ r_closed r = true ∧ S (r_senders r + length (r_chan r)) = n.

Lemma round_will_end l i n r r' : server_ok l i r → will_end n r → serve_round r = Some (Return r') → will_end n r'.
Proof.
  intros [_ Hf _ _ _] Hw (e & c & Hc & Hs & u & -> & Hor)%serve_round_inv.
  destruct Hw as [(_ & Hb & Hd & Hsum)|[([e' Hr] & _)|([e' Hr] & _)]]; [|congruence..].
  rewrite Hc in Hf. apply Forall_cons in Hf as [He _]. destruct Hor as [[He' _]|[(_ & Hb' & _)|(_ & _ & _ & ->)]]; [congruence..|].
  right. left. simpl. rewrite Hc in Hsum. simpl in Hsum. split_and!; [by eexists|done|done|lia].
Qed.

Lemma queue_will_end n r r' : will_end n r → queue_closed r = Some (Return r') → will_end n r'.
Proof.
  intros Hw (e & Hr & Hd & Hk & ->)%queue_closed_inv. right. right. simpl.
  destruct Hw as [(Hr' & _)|[(_ & _ & _ & Hsum)|([e' Hr'] & _)]]; [congruence| |congruence]. split_and!; [by eexists|done..].
Qed.

Lemma send_will_end n r k : will_end n r → r_senders r = S k → r_chan r = [] →
  will_end n (mkRunning (r_init r) (r_closers r) [noError] k (r_run r) (r_closed r) (r_workers r)).
Proof.
  unfold will_end. intros Hw Hk Hc. rewrite Hk, Hc in Hw. simpl in *.
  destruct Hw as [(?&?&?&?)|[(?&?&?&?)|(?&?&?&?)]]; [left|right; left|right; right]; split_and!; (done || lia).
Qed.

Lemma workers_will_end n r k : will_end n r → will_end n (workers k r).
Proof. by destruct r. Qed.

(** A step of the process by itself when the cleaner does not run *)
Lemma proc_will_end o p p' i n r : process_ok p → cleaner p = None → shutdown_op o →
  exec o p = Some (Return p') → servers p !! i = Some r → will_end n r →
  cleaner p' = None ∧ ∃ r', servers p' !! i = Some r' ∧ will_end n r'.
Proof.
  intros Hok Hcl Hop Ho Hr Hw.
  assert (∀ j f, on_server j f p = Some (Return p') →
    (∀ s s', server_ok (sigClosers p) j s → will_end n s → f s = Some (Return s') → will_end n s') →
    cleaner p' = None ∧ ∃ r', servers p' !! i = Some r' ∧ will_end n r') as Hone.
  { intros j f (s & s' & Hs & Hf & ->)%on_server_inv Hall. split; [done|]. simpl.
    destruct (decide (j = i)) as [->|Hne]; [|exists r; by rewrite list_lookup_insert_ne].
    rewrite list_lookup_insert_eq by (by eapply lookup_lt_Some). rewrite Hr in Hs. injection Hs as <-.
    exists s'. split; [done|]. eapply Hall; [by apply (po_servers _ Hok i)|done..]. }
  destruct o as [|j|j opens|j|j|j|j|j|j|j| |]; try done.
  - eapply Hone; [exact Ho|]. intros. by eapply round_will_end.
  - eapply Hone; [exact Ho|]. intros s s' _ Hs Hf. cbv beta in Hf. destruct (r_senders s) as [|k] eqn:Hk; [done|].
    destruct (push noError s) as [s1|] eqn:Hp; [|done]. injection Hf as <-. apply push_inv in Hp as [Hc ->].
    by apply send_will_end.
  - eapply Hone; [exact Ho|]. intros s s' _ Hs Hf. cbv beta in Hf. destruct (r_init s); [|done]. injection Hf as <-. by apply workers_will_end.
  - eapply Hone; [exact Ho|]. intros s s' _ Hs Hf. cbv beta in Hf. destruct (r_workers s); [done|]. injection Hf as <-. by apply workers_will_end.
  - eapply Hone; [exact Ho|]. intros. by eapply queue_will_end.
  - simpl in Ho. unfold clean in Ho. by rewrite Hcl in Ho.
Qed.

Lemma call_work_sending i : call_work (mkWait i Sending) = 0. Proof. done. Qed.
Lemma call_work_waiting i : call_work (mkWait i Waiting) = 1. Proof. done. Qed.
Lemma call_work_back i : call_work (mkWait i Back) = 0. Proof. done. Qed.

(** The work of the process goes down by two with a send, by one at least with a round or
    the end of a queue. *)
Lemma send_work i p p' : exec (CloseSend i) p = Some (Return p') →
  2 + sum_list_with server_work (servers p') = sum_list_with server_work (servers p).
Proof.
  intros (r & n & Hr & Hn & Hc & ->)%closeSend_inv. simpl.
  match goal with |- context [<[i := ?r']> _] => pose proof (sum_list_with_insert server_work _ i r r' Hr) as Hs;
    assert (2 + server_work r' = server_work r) by (unfold server_work; rewrite Hn, Hc; simpl; lia) end.
  lia.
Qed.

Lemma alone_work o p p' : cleaner p = None → shutdown_op o → (∀ i, o ≠ CloseSend i) → exec o p = Some (Return p') →
  (if on_its_own o then 1 else 0) + sum_list_with server_work (servers p') ≤ sum_list_with server_work (servers p).
Proof.
  intros Hcl Hop Hne Ho.
  assert (∀ i f d, on_server i f p = Some (Return p') →
    (∀ r r', f r = Some (Return r') → d + server_work r' ≤ server_work r) →
    d + sum_list_with server_work (servers p') ≤ sum_list_with server_work (servers p)) as Hone.
  { intros i f d (r & r' & Hr & Hf & ->)%on_server_inv Hall. simpl. specialize (Hall r r' Hf).
    pose proof (sum_list_with_insert server_work _ i r r' Hr). lia. }
  destruct o as [|j|j opens|j|j|j|j|j|j|j| |]; try done; [|by destruct (Hne j)|..]; cbn [on_its_own].
  - eapply Hone; [exact Ho|]. intros r r' (e & c & Hc & Hs & u & -> & _)%serve_round_inv. unfold server_work. rewrite Hc, Hs.
    simpl. destruct u; lia.
  - eapply Hone; [exact Ho|]. intros r r' Hf. cbv beta in Hf. destruct (r_init r); [|done]. injection Hf as <-. by destruct r.
  - eapply Hone; [exact Ho|]. intros r r' Hf. cbv beta in Hf. destruct (r_workers r); [done|]. injection Hf as <-. by destruct r.
  - eapply Hone; [exact Ho|]. intros r r' (e & Hr & _ & _ & ->)%queue_closed_inv. unfold server_work. rewrite Hr. simpl. lia.
  - simpl in Ho. unfold clean in Ho. by rewrite Hcl in Ho.
Qed.

Lemma going_will_end o w w' i n r : world_ok w → cleaner (proc w) = None → going_op o → wait_exec o w = Some (Return w') →
  servers (proc w) !! i = Some r → will_end n r →
  work_left w' + (if goes_on o then 1 else 0) ≤ work_left w ∧ cleaner (proc w') = None ∧
  ∃ r', servers (proc w') !! i = Some r' ∧ will_end n r'.
Proof.
  intros Hok Hcl Hg Hm%wait_exec_moves Hr Hw. pose proof (wo_proc _ Hok) as Hp. unfold work_left.
  destruct Hm as [o p Hne Ho|j s p Hs Hlt Ho|j s p Hs Ho|j k p Hk Ho|j s k Hk Hs Hc]; simpl.
  - split; [|by eapply (proc_will_end o)]. pose proof (alone_work o _ p Hcl Hg Hne Ho). lia.
  - split; [apply send_work in Ho; lia|]. by eapply (proc_will_end (CloseSend j)).
  - done.
  - split; [|by eapply (proc_will_end (CloseSend j))]. apply send_work in Ho.
    pose proof (sum_list_with_insert call_work _ k _ (mkWait j Waiting) Hk) as Hsum.
    rewrite call_work_sending, call_work_waiting in Hsum. lia.
  - split; [|by split; [|exists r]]. pose proof (sum_list_with_insert call_work _ k _ (mkWait j Back) Hk) as Hsum.
    rewrite call_work_waiting, call_work_back in Hsum. lia.
Qed.

Lemma going_steps n os w w' i r : world_ok w → cleaner (proc w) = None → Forall going_op os → wait_exec_all os w = Some (Return w') →
  servers (proc w) !! i = Some r → will_end n r →
  world_ok w' ∧ work_left w' + length (filter goes_on os) ≤ work_left w ∧ ∃ r', servers (proc w') !! i = Some r' ∧ will_end n r'.
Proof.
  intros Hok Hcl Hos. revert w r Hok Hcl. induction Hos as [|o os Ho _ IH]; intros w r Hok Hcl Hrun Hr Hw; simpl in Hrun.
  - injection Hrun as <-. split; [done|]. split; [simpl; lia|by exists r].
  - destruct (wait_exec o w) as [[u|]|] eqn:Hu; [|done|done].
    destruct (going_will_end o w u i n r Hok Hcl Ho Hu Hr Hw) as (Hlt & Hcl' & r' & Hr' & Hw').
    assert (world_ok u) as Huok by (by eapply moves_ok, wait_exec_moves).
    destruct (IH u r' Huok Hcl' Hrun Hr' Hw') as (? & ? & ?). split; [done|]. split; [|done].
    rewrite filter_cons. destruct (goes_on o); simpl in *; lia.
Qed.

(** Nobody stays in [Close] before an empty channel. *)
Lemma settled_senders w i r : world_ok w → settled w → servers (proc w) !! i = Some r → r_chan r = [] → r_senders r = 0.
Proof.
  intros Hok Hset Hr Hc. destruct (decide (r_senders r = 0)) as [|Hne]; [done|exfalso].
  pose proof (closeSend_ready i (proc w) r Hr Hne Hc) as Hready.
  destruct (decide (sendings i (calls w) < r_senders r)) as [Hlt|Hge].
  - pose proof (Hset (Other (CloseSend i)) I) as Hno. cbn -[exec] in Hno. rewrite Hr, bool_decide_eq_true_2 in Hno by done.
    unfold on_proc in Hno. by destruct (exec _ _) as [[]|].
  - assert (sendings i (calls w) ≠ 0) as (k & c & Hk & Hc')%sum_pos by lia.
    unfold sending_on in Hc'. case_bool_decide; [subst c|done].
    pose proof (Hset (WaitSend k) I) as Hno. cbn -[exec] in Hno. rewrite Hk in Hno.
    unfold on_proc in Hno. by destruct (exec _ _) as [[]|].
Qed.

Lemma settled_exec w o : settled w → on_its_own o → (∀ i, o ≠ CloseSend i) → exec o (proc w) = None.
Proof.
  intros Hset Ho Hne. pose proof (Hset (Other o) Ho) as Hno. destruct o; try done; [| by destruct (Hne i)|..];
    cbn -[exec] in Hno; unfold on_proc in Hno; by destruct (exec _ _) as [[]|].
Qed.

Lemma settled_ended w i n r : world_ok w → settled w → servers (proc w) !! i = Some r → will_end n r → n ≠ 0 →
  r_senders r = n - 2 ∧
  (r_closed r = true ∧ (∃ e, r_run r = Returned e) ∨ r_closed r = false ∧ (∃ e, r_run r = Closing e) ∧ r_workers r ≠ 0).
Proof.
  intros Hok Hset Hr Hw Hn. pose proof (settled_senders w i r Hok Hset Hr) as Hs.
  destruct (po_servers _ (wo_proc _ Hok) i r Hr) as [Hlen _ _ _ _].
  assert (r_senders r + S (length (r_chan r)) = n → r_senders r = n - 2) as Hleft.
  { intros <-. destruct (r_chan r) as [|e c]; [specialize (Hs eq_refl)|]; simpl in *; lia. }
  destruct Hw as [(Hrun & Hb & Hd & Hsum)|[([e Hrun] & Hb & Hd & Hsum)|(He & Hb & Hd & Hsum)]].
  - exfalso. destruct (r_chan r) as [|e c] eqn:Hc; [specialize (Hs eq_refl); simpl in *; lia|].
    pose proof (settled_exec w (Round i) Hset I ltac:(done)) as Hno. simpl in Hno. unfold on_server in Hno. rewrite Hr in Hno.
    destruct r as [a b c' s u d k]. simpl in *. subst. simpl in Hno. by destruct (Recover e).
  - split; [apply Hleft; lia|]. right. split; [done|]. split; [by eexists|]. intros Hk.
    pose proof (settled_exec w (QueueClosed i) Hset I ltac:(done)) as Hno. simpl in Hno. unfold on_server in Hno. rewrite Hr in Hno.
    destruct r as [a b c' s u d k]. simpl in *. by subst.
  - split; [apply Hleft; lia|]. by left.
Qed.

Lemma will_end_no_panic w i n r m : servers (proc w) !! i = Some r → will_end n r →
  wait_exec (Other (Round i)) w ≠ Some (Panics m) ∧ wait_exec (Other (QueueClosed i)) w ≠ Some (Panics m).
Proof.
  intros Hr Hw.
  assert (∀ o, (∀ i, o ≠ CloseSend i) → wait_exec (Other o) w = Some (Panics m) → exec o (proc w) = Some (Panics m)) as Hexec.
  { intros o Hne Hm. destruct o; try (by destruct (Hne i0)); cbn -[exec] in Hm; unfold on_proc in Hm;
      destruct (exec _ _) as [[]|]; congruence. }
  split; intros Ho%Hexec; try done; simpl in Ho; unfold on_server in Ho; rewrite Hr in Ho;
    destruct Hw as [(Hs & _ & Hc & _)|[([e He] & _ & Hc & _)|([e He] & _)]]; destruct r as [a b c s u d k]; simpl in *; subst; try done.
  - destruct c as [|x c]; [done|]. destruct (Recover x); [done|by destruct b].
  - by destruct c.
  - by destruct c.
  - by destruct k.
Qed.

Lemma settled_calls w i r c : world_ok w → settled w → servers (proc w) !! i = Some r → r_closed r = true →
  c ∈ calls w → w_server c = i → w_phase c = Back ∨ w_phase c = Sending ∧ r_senders r ≠ 0.
Proof.
  intros Hok Hset Hr Hd [k Hk]%list_elem_of_lookup Hi. destruct c as [j []]; simpl in *; subst j; [right| |by left].
  - split; [done|]. pose proof (wo_sending _ Hok i r Hr) as Hle.
    pose proof (sum_list_with_insert (sending_on i) _ k _ (mkWait i Back) Hk) as Hsum.
    rewrite sending_on_this, sending_on_no in Hsum by done. unfold sendings in Hle. lia.
  - exfalso. pose proof (Hset (WaitOver k) I) as Hno. simpl in Hno. rewrite Hk in Hno. simpl in Hno. by rewrite Hr, Hd in Hno.
Qed.

(** C20. A server that serves and was told to close, or is being told: with no signal and
    no new calls, whatever its workers do, what goes on by itself is bounded, its loop
    and its closing do not panic, and it can only come to rest in two ways.  Either the
    server is closed, its [Serve] returned and every call of [CloseWait] for it back, but
    for those beyond the second to close it, which stay in [Close]; or a worker of its
    queue has not returned, [Serve] waits for it, and no call of [CloseWait] for it is
    back.  Of all the calls of [Close] and [CloseWait] exactly those beyond two are left
    either way, and a call of [CloseWait] comes back only when its server's closers have
    run. *)
Theorem close_wait_returns w i r : rtc wait_step wait_start w → cleaner (proc w) = None →
  servers (proc w) !! i = Some r → r_run r = Serving → r_closers r = true → r_closed r = false →
  r_senders r + length (r_chan r) ≠ 0 →
  ∀ os w', Forall going_op os → wait_exec_all os w = Some (Return w') →
    length (filter goes_on os) ≤ work_left w ∧
    (∀ m, wait_exec (Other (Round i)) w' ≠ Some (Panics m) ∧ wait_exec (Other (QueueClosed i)) w' ≠ Some (Panics m)) ∧
    (∀ c, c ∈ calls w' → w_phase c = Back → ∃ r', servers (proc w') !! w_server c = Some r' ∧ r_closed r' = true) ∧
    (settled w' → ∃ r', servers (proc w') !! i = Some r' ∧ r_senders r' = r_senders r + length (r_chan r) - 2 ∧
       (r_closed r' = true ∧ (∃ e, r_run r' = Returned e) ∧
          (∀ c, c ∈ calls w' → w_server c = i → w_phase c = Back ∨ w_phase c = Sending ∧ r_senders r' ≠ 0) ∨
        (∃ e, r_run r' = Closing e) ∧ r_workers r' ≠ 0 ∧ ∀ c, c ∈ calls w' → w_server c = i → w_phase c ≠ Back)).
Proof.
  intros Hok%world_reachable Hcl Hr Hrun Hb Hd Hn os w' Hos Hst.
  assert (will_end (r_senders r + length (r_chan r)) r) as Hw by (by left).
  destruct (going_steps _ os w w' i r Hok Hcl Hos Hst Hr Hw) as (Hok' & Hle & r' & Hr' & Hw').
  assert (∀ c, c ∈ calls w' → w_phase c = Back → ∃ r', servers (proc w') !! w_server c = Some r' ∧ r_closed r' = true) as Hback.
  { intros c [k Hk]%list_elem_of_lookup Hback. destruct (wo_calls _ Hok' k c Hk) as (s & Hs & Hsb). exists s. auto. }
  split_and!; [lia|intros m; by eapply will_end_no_panic|done|].
  intros Hset. exists r'. destruct (settled_ended w' i _ r' Hok' Hset Hr' Hw' Hn) as (Hs & [[Hd' He]|(Hd' & He & Hk)]).
  - split_and!; [done..|]. left. split_and!; [done..|]. intros c Hc Hci. by eapply settled_calls.
  - split_and!; [done..|]. right. split_and!; [done..|]. intros c Hc <- Hbk. destruct (Hback c Hc Hbk) as (s & ? & ?). congruence.
Qed.

Lemma wait_exec_all_rtc os w w' : wait_exec_all os w = Some (Return w') → rtc wait_step w w'.
Proof.
  revert w. induction os as [|o os IH]; intros w H; simpl in H; [injection H as ->; apply rtc_refl|].
  destruct (wait_exec o w) as [[q|m]|] eqn:Ho; [|done|done]. eapply rtc_l; [by exists o|by apply IH].
Qed.

(** Three calls of [CloseWait] of a server that serves, one of whose workers is running *)
Definition three_waits : world :=
  match wait_exec_all [Other Created; Other (Init 0); Other (WorkerStarts 0); Other (ServeCall 0); WaitCall 0; WaitCall 0; WaitCall 0] wait_start with
  | Some (Return w) => w
  | _ => wait_start
  end.

Lemma close_wait_returns_witness : ∃ r, servers (proc three_waits) !! 0 = Some r ∧ r_senders r = 3 ∧
  ∀ os w', Forall going_op os → wait_exec_all os three_waits = Some (Return w') →
    length (filter goes_on os) ≤ 12 ∧
    (∀ m, wait_exec (Other (Round 0)) w' ≠ Some (Panics m) ∧ wait_exec (Other (QueueClosed 0)) w' ≠ Some (Panics m)) ∧
    (∀ c, c ∈ calls w' → w_phase c = Back → ∃ r', servers (proc w') !! w_server c = Some r' ∧ r_closed r' = true) ∧
    (settled w' → ∃ r', servers (proc w') !! 0 = Some r' ∧ r_senders r' = 1 ∧
       (r_closed r' = true ∧ (∃ e, r_run r' = Returned e) ∧
          (∀ c, c ∈ calls w' → w_server c = 0 → w_phase c = Back ∨ w_phase c = Sending ∧ r_senders r' ≠ 0) ∨
        (∃ e, r_run r' = Closing e) ∧ r_workers r' ≠ 0 ∧ ∀ c, c ∈ calls w' → w_server c = 0 → w_phase c ≠ Back)).
Proof.
  exists (mkRunning true true [] 3 Serving false 1). split; [reflexivity|]. split; [reflexivity|].
  apply (close_wait_returns three_waits 0 (mkRunning true true [] 3 Serving false 1)); try reflexivity; [|simpl; lia].
  apply (wait_exec_all_rtc [Other Created; Other (Init 0); Other (WorkerStarts 0); Other (ServeCall 0); WaitCall 0; WaitCall 0; WaitCall 0]).
  reflexivity.
Defined.

(** Two come back, once the worker has, and the third stays in [Close]. *)
Example third_wait_stays :
  match wait_exec_all [WaitSend 0; Other (Round 0); WaitSend 1; Other (WorkerReturns 0); Other (QueueClosed 0); WaitOver 0; WaitOver 1] three_waits with
  | Some (Return w) => w_phase <$> calls w = [Back; Back; Sending] ∧ wait_exec (WaitSend 2) w = None
  | _ => False
  end.
Proof. vm_compute. split; reflexivity. Qed.

(** A handler that does not return keeps them all. *)
Example blocked_handler_blocks_close :
  match wait_exec_all [WaitSend 0; Other (Round 0); WaitSend 1] three_waits with
  | Some (Return w) => w_phase <$> calls w = [Waiting; Waiting; Sending] ∧ wait_exec (Other (QueueClosed 0)) w = None ∧
      wait_exec (Other (Round 0)) w = None ∧ wait_exec (WaitOver 0) w = None
  | _ => False
  end.
Proof. vm_compute. repeat split; reflexivity. Qed.

(** A call before the server is published waits until somebody else closes it. *)
Example wait_before_publish :
  match wait_exec_all [Other Created; WaitCall 0] wait_start with
  | Some (Return w) => calls w = [mkWait 0 Waiting] ∧ wait_exec (WaitOver 0) w = None
  | _ => False
  end.
Proof. vm_compute. split; reflexivity. Qed.

(** A server published and served a second time is closed already for [CloseWait]. *)
Example second_life_not_waited :
  match wait_exec_all [Other Created; Other (Init 0); Other (ServeCall 0); WaitCall 0; WaitSend 0; Other (Round 0); Other (QueueClosed 0);
                       Other (Publish 0 true); Other (ServeCall 0); WaitCall 0; WaitSend 1; WaitOver 1] wait_start with
  | Some (Return w) => w_phase <$> calls w = [Waiting; Back] ∧ r_run <$> servers (proc w) = [Serving]
  | _ => False
  end.
Proof. vm_compute. split; reflexivity. Qed.
