(* ===== verification/Node.v ===== *)
(** Servers, registries and clients together (server.go, registry.go, client.go): a
    service is found by the clients from its publishing to the end of its server, in
    the process, and from its registration to its withdrawal, across the root
    registry. *)
From S2P Require Import Prelude GoStrings Wildcard Names RootRegistry Lookup Client Server ServerLife ServerScopes.

(** ** The channels of a node while its servers run *)

Section channels.
Context (E : env) (m : chanRegistry).

(** The table has at least these channels. *)
Definition has_chans (s : state) : Prop := m ⊆ chans (nd s).

Lemma chans_on_ports f : keeps has_chans (on_nd (on_ports f)).
Proof. by intros [sv []]. Qed.
Lemma chans_on_lan f : keeps has_chans (on_nd (on_lan f)).
Proof. by intros [sv []]. Qed.
Lemma chans_on_wan f : keeps has_chans (on_nd (on_wan f)).
Proof. by intros [sv []]. Qed.
Lemma chans_on_sockets f : keeps has_chans (on_nd (on_sockets f)).
Proof. by intros [sv []]. Qed.
#[local] Hint Resolve chans_on_ports chans_on_lan chans_on_wan chans_on_sockets : keeps.

Lemma chans_close st : keeps has_chans (streamTransport_close E st).
Proof. unfold streamTransport_close, delServiceLAN, delServiceWAN. keep; apply keeps_try; keep. Qed.
#[local] Hint Resolve chans_close : keeps.

#[export] Instance chans_stable : Stable E has_chans.
Proof.
  split.
  - by intros f Hf [sv n].
  - intros f Hf [sv n]. destruct (Hf n) as (E1 & _). unfold has_chans; simpl. by rewrite E1.
  - by intros c _ [sv n].
  - intros svc s Hs. destruct ((newChanTransport svc ≫= addCloser) s) as [[c|e|w] s'] eqn:Hc; simpl.
    + apply bind_Ok in Hc as (c' & s1 & (_ & Hn & ->)%newChanTransport_Ok & [= _ <-]). destruct s as [sv []].
      unfold has_chans in *; simpl in *. transitivity chans; [done|by apply insert_subseteq].
    + unfold newChanTransport, gets, mbind, M_bind in Hc; simpl in Hc. by destruct (regServiceChan _ _ _ _).
    + unfold newChanTransport, gets, mbind, M_bind in Hc; simpl in Hc.
      destruct (regServiceChan _ _ _ _); [done|]. by injection Hc as _ <-.
  - intros svc. apply keeps_bind; [|by intros ? s]. unfold newUDSTransport, listen_unix. keep.
  - intros svc port. apply keeps_bind; [|by intros ? s].
    unfold newTCPTransport, listen_tcp, register_WAN, connectReverseProxy, regServiceLAN, regServiceWAN.
    keep; apply keeps_try; keep.
Qed.

Lemma chans_init s : has_chans s → has_chans (init E s).2.
Proof.
  intros Hs. destruct (initialized (srv s)) eqn:Hi; [by rewrite init_again|].
  rewrite init_first by done. by apply (keeps_init_rest E has_chans).
Qed.

Lemma chans_run calls s : has_chans s → has_chans (run E calls s).
Proof.
  revert s. induction calls as [|c calls IH]; intros s Hs; simpl; [done|]. apply IH.
  eapply (keeps_call E has_chans has_chans); auto. apply chans_init.
Qed.
End channels.

(** A successful [PublishIn] initialises the server, finds its provider's identity
    when the socket is to be named by it, and opens the service's transports. *)
Lemma PublishIn_transports E sc name named s s1 : PublishIn E sc name named s = (Ok tt, s1) →
  checkNameConvention name = None ∧
  ∃ s0 s', init E s = (Ok tt, s0) ∧ when named (initProviderID E) s0 = (Ok tt, s') ∧
    published E (mkService (publisher (set (srv s))) name (providerID (srv s')) (Z.land (scope (srv s0)) sc) named) s' s1.
Proof.
  unfold PublishIn. destruct (checkNameConvention name); [done|]. intros H. split; [done|]. revert H.
  intros (sv & sa & [= <- <-] & ([] & s0 & Hi & Ho)%bind_Ok)%bind_Ok. exists s0.
  apply bind_Ok in Ho as (sv & sa & [= <- <-] & Ho). apply bind_Ok in Ho as ([] & s' & Hp & Ho).
  exists s'. split; [done|]. split; [done|]. apply bind_Ok in Ho as (sv & sa & [= <- <-] & Ho).
  apply open_transports_Ok. destruct named; [done|]. injection Hp as <-. done.
Qed.

Lemma PublishIn_opens E sc name s s1 : PublishIn E sc name false s = (Ok tt, s1) →
  ∃ s', init E s = (Ok tt, s') ∧
    published E (mkService (publisher (set (srv s))) name (providerID (srv s')) (Z.land (scope (srv s')) sc) false) s' s1.
Proof. intros (_ & s0 & s' & Hi & [= <-] & Hp)%PublishIn_transports. by exists s0. Qed.

Lemma init_initialized E s r s' : init E s = (r, s') → initialized (srv s') = true.
Proof.
  intros Hi. destruct (initialized (srv s)) eqn:Hs; [rewrite init_again in Hi by done; by injection Hi as _ <-|].
  rewrite init_first in Hi by done.
  assert (H : initialized (srv (init_rest E (scope (srv s))
    (mkState (set_closers (closers (srv s) ++ [msgQ_closer]) (set_initialized (srv s))) (nd s))).2) = true);
    [|by rewrite Hi in H].
  apply (keeps_init_rest E (λ s, initialized (srv s) = true)). by destruct (srv s).
Qed.

Lemma run_initialized E calls s : initialized (srv s) = true → initialized (srv (run E calls s)) = true.
Proof.
  revert s. induction calls as [|c calls IH]; intros s Hs; simpl; [done|]. apply IH.
  eapply (keeps_call E (λ s, initialized (srv s) = true) (λ s, initialized (srv s) = true)); auto.
  clear s Hs. intros s Hs. by rewrite init_again.
Qed.

Lemma run_app E l k s : run E (l ++ k) s = run E k (run E l s).
Proof. unfold run. by rewrite foldl_app. Qed.

Lemma PublishIn_initialized E sc name named s s1 :
  PublishIn E sc name named s = (Ok tt, s1) → initialized (srv s1) = true.
Proof.
  unfold PublishIn. destruct (checkNameConvention name); [done|]. unfold gets, mbind at 1, M_bind at 1; simpl. intros Hp.
  assert (H : initialized (srv (publish E sc (publisher (set (srv s))) name named s).2) = true); [|by rewrite Hp in H].
  apply (keeps_publish E (λ s, initialized (srv s) = true) (λ _, True)); [|done].
  intros s' _. destruct (init E s') eqn:Hi. by eapply init_initialized.
Qed.

(** The end of a server that has published a service among other calls *)
Lemma served_and_over E calls1 calls2 events e rest sc name named s0 s1 :
  closers (srv s0) = [] → initialized (srv s0) = false →
  PublishIn E sc name named (run E calls1 s0) = (Ok tt, s1) → serve_loop events = Some (e, rest) →
  ∃ s3, Serve E events (run E calls2 s1) = (Ok (Some e), s3) ∧ restored E (nd s0) (nd s3).
Proof.
  intros Hc Hi Hpub Hloop.
  assert (Hrun : run E calls2 s1 = run E (calls1 ++ call_PublishIn sc name named :: calls2) s0).
  { rewrite run_app. simpl. by rewrite Hpub. }
  rewrite Hrun. edestruct (Serve_restores E) as (s3 & Hserve & _ & _ & Hrest); [exact Hc|exact Hi| |exact Hloop|by exists s3].
  rewrite <- Hrun. apply init_again, run_initialized. by eapply PublishIn_initialized.
Qed.

(** Each channel is in the table under its own name. *)
Definition chans_named (t : chanRegistry) : Prop :=
  ∀ n ct, t !! n = Some ct → n = toPublisherServiceName (ct_publisher ct) (ct_service ct).

(** C1. From publishing to closing.  A service published in the process scope, by
    a server that has made any calls before and makes any calls after, is the one
    connection a client of the process is given when it looks for it by name; and
    once the server's [Serve] has ended, no [Discover] whatever gives a connection to
    it any more. *)
Theorem found_while_served `{GoRange} E calls1 calls2 events e rest sc name s0 s1 :
  closers (srv s0) = [] → initialized (srv s0) = false → chans_named (chans (nd s0)) →
  let s := run E calls1 s0 in
  let p := publisher (set (srv s)) in
  PublishIn E sc name false s = (Ok tt, s1) →
  has_scope (scope (srv s1)) ScopeProcess && has_scope sc ScopeProcess = true →
  let s2 := run E calls2 s1 in
  (∀ fuel ws c, Contains (p ++ name) (str "*") = false → has_scope (Client.scope c) ScopeProcess = true →
     w_chan (ws 0) = chans (nd s2) →
     Discover p name [] (S fuel) ws c = Return (Some [ChanConn (mkChan p name)])) ∧
  (serve_loop events = Some (e, rest) →
   ∃ s3, Serve E events s2 = (Ok (Some e), s3) ∧
     ∀ publisher service providerIDs fuel ws c conns,
       (∀ i, fair (ws i) ∧ w_chan (ws i) = chans (nd s3)) →
       Discover publisher service providerIDs fuel ws c = Return (Some conns) →
       ChanConn (mkChan p name) ∉ conns).
Proof.
  intros Hc Hi Hnamed s p Hpub Hsc s2. destruct (PublishIn_opens _ _ _ _ _ Hpub) as (s' & Hinit & Hp).
  assert (Hscope : scope (srv s1) = scope (srv s')).
  { pose proof (pub_server _ _ _ _ Hp) as Hs. destruct (srv s1), (srv s'). by injection Hs. }
  pose proof (pub_chans _ _ _ _ Hp) as Hch. cbn [svc_scope Server.publisherName Server.serviceName] in Hch.
  rewrite has_scope_land, <- Hscope, Hsc in Hch. destruct Hch as [Hfree Hch]. fold p in Hfree, Hch.
  assert (Hs1 : has_chans {[toPublisherServiceName p name := mkChan p name]} s1).
  { unfold has_chans. rewrite Hch. apply map_singleton_subseteq_l. by rewrite lookup_insert_eq. }
  split.
  - intros fuel ws c Hw Hcs Hws. apply process_first; [done|done|]. rewrite Hws.
    apply map_singleton_subseteq_l. by apply chans_run.
  - intros Hloop.
    destruct (served_and_over E calls1 calls2 events e rest sc name false s0 s1 Hc Hi Hpub Hloop) as (s3 & Hserve & Hrest).
    exists s3. split; [done|].
    intros publisher service providerIDs fuel ws c conns Hws Hd Hin.
    apply discover_looked_up in Hd as (j & Ho & _); [|intros j; by destruct (Hws j)].
    rewrite Forall_forall in Ho. destruct (Ho _ Hin) as (_ & n & Hn & _).
    rewrite (proj2 (Hws j)), (rest_chans _ _ _ Hrest) in Hn.
    pose proof (Hnamed _ _ Hn) as ->. simpl in Hn.
    assert (Hs' : has_chans {[toPublisherServiceName p name := mkChan p name]} s').
    { replace s' with (init E s).2 by (by rewrite Hinit). apply chans_init, chans_run. by apply map_singleton_subseteq_l. }
    apply map_singleton_subseteq_l in Hs'. congruence.
Qed.

(** A server publishes two services, the second in the process only; a client finds
    the second until the server is closed. *)
Definition shop : state := mkState (NewServer [WithScope (Z.lor ScopeProcess ScopeOS)]) empty_node.
Definition shop_calls : list call := [call_Publish (str "db") false].
Definition shop_open : state := (PublishIn alone ScopeProcess (str "echo") false (run alone shop_calls shop)).2.
Definition shop_world (t : chanRegistry) : world :=
  mkWorld t None no_dir None (λ _ _, None) None (λ _ _ _, None) (λ _, false) (λ _, None) (λ l, l) (λ l, l).

Lemma found_while_served_witness :
  Discover (str "default.org") (str "echo") [] 1 (λ _, shop_world (chans (nd shop_open))) (NewClient []) =
    Return (Some [ChanConn (mkChan (str "default.org") (str "echo"))]) ∧
  ∃ s3, Serve alone [noError] shop_open = (Ok (Some None), s3) ∧
    ∀ conns, Discover (str "default.org") (str "e*") [] 5 (λ _, shop_world (chans (nd s3))) (NewClient []) = Return (Some conns) →
      ChanConn (mkChan (str "default.org") (str "echo")) ∉ conns.
Proof.
  destruct (found_while_served alone shop_calls [] [noError] None [] ScopeProcess (str "echo") shop shop_open)
    as [Hbefore Hafter].
  - reflexivity.
  - reflexivity.
  - intros n ct Hn. change (chans (nd shop)) with (∅ : chanRegistry) in Hn. by rewrite lookup_empty in Hn.
  - apply result_eta. vm_compute. reflexivity.
  - vm_compute. reflexivity.
  - assert (Hp : publisher (set (srv (run alone shop_calls shop))) = str "default.org") by (vm_compute; reflexivity).
    rewrite Hp in Hbefore, Hafter. split.
    + apply (Hbefore 0 (λ _, shop_world (chans (nd shop_open))) (NewClient [])); [vm_compute; reflexivity..|reflexivity].
    + destruct (Hafter eq_refl) as (s3 & Hs3 & Hno). exists s3. split; [exact Hs3|]. intros conns Hd.
      refine (Hno _ _ _ _ (λ _, shop_world (chans (nd s3))) _ _ _ Hd).
      intros i. split; [split; intros l; reflexivity|reflexivity].
Defined.

(** ** Across the root registry *)

(** What the sender of a registration makes of the reply *)
Definition reg_answer (rep : reply) : option error := match rep with ReplyError e => Some e | _ => None end.

(** A client whose only scope is the wide area network, and knows a registry *)
Definition wan_client (c : Client) : Prop :=
  Client.scope c = ScopeWAN ∧ Client.registryAddr c ≠ [] ∧ Client.registryAddr c ≠ str "NA" ∧ providerSelectionMethods c = [].

(** The registry at the address the client knows is in this state. *)
Definition asks `{GoRange} (publisher service : bytes) (c : Client) (rr : RootRegistry.rootRegistry) (w : world) : Prop :=
  ∃ infos, queryServiceInWAN_Handle (mkQuery publisher service) rr = Return (rr, ReplyInfos infos) ∧
           w_wan w (Client.registryAddr c) publisher service = Some infos.

Lemma lookup_all infos : lookupServiceWAN [] (Some infos) = infos.
Proof. unfold lookupServiceWAN. simpl. induction infos as [|si infos IH]; [done|]. by rewrite filter_cons_True, IH. Qed.

Lemma getAddrs_first self si infos : ∃ tried addrs, getAddrs self (si :: infos) ∅ = (tried, Addr si :: addrs).
Proof.
  cbn [getAddrs]. rewrite (bool_decide_eq_false_2 (_ ∈ ∅)) by apply not_elem_of_empty.
  destruct (getAddrs self infos _) as [tried addrs]. eauto.
Qed.

Lemma connect_enough w addrs conns : connect w 1 addrs 1 conns = (1%Z, conns).
Proof. by destruct addrs. Qed.

(** The first round of such a client is one selection among the registry's answers. *)
Lemma wan_first `{GoRange} p s infos ws c fuel found sr :
  Contains (p ++ s) (str "*") = false → wan_client c → w_wan (ws 0) (Client.registryAddr c) p s = Some infos →
  selectAndConnect c (ws 0) 1 infos 0 (mkSearch ∅ []) = (found, sr) →
  found = 1%Z ∨ discoverTimeout c = 0%Z → Discover p s [] (S fuel) ws c = Return (Some (connections sr)).
Proof.
  intros Hw (Hsc & Hne & HNA & _) Hwan Hsel Hend. unfold Discover, prologue. cbn [length].
  rewrite bool_decide_eq_true_2 by done. cbn [discover_loop]. rewrite bool_decide_eq_true_2 by done.
  unfold round, expected. rewrite Hw. cbn [Join orb]. change (Contains [] (str "*")) with false. cbn [length].
  rewrite (bool_decide_eq_true_2 (0 = 0)) by done. unfold findWithinOS. rewrite Hsc.
  change (has_scope ScopeWAN ScopeProcess) with false. change (has_scope ScopeWAN ScopeOS) with false.
  cbn [andb orb negb mbind outcome_bind]. rewrite (bool_decide_eq_false_2 (0 + 0 = 1)%Z) by done.
  unfold findNetwork. rewrite Hsc. change (has_scope ScopeWAN ScopeLAN) with false. change (has_scope ScopeWAN ScopeWAN) with true.
  rewrite andb_false_r, (bool_decide_eq_false_2 (0%Z = _)) by done. cbn [negb andb].
  unfold asked_registry. rewrite (bool_decide_eq_false_2 (length (Client.registryAddr c) = 0)) by (by destruct (Client.registryAddr c)).
  rewrite (bool_decide_eq_false_2 (Client.registryAddr c = _)) by done. cbn [negb].
  rewrite Hwan, lookup_all. destruct c as [ra pid sc q m d i dc].
  cbn [Client.registryAddr discoverTimeout checkIntervalMS] in *. change (1 - (0 + 0))%Z with 1%Z. rewrite Hsel.
  change (0 + 0 + found)%Z with found.
  destruct Hend as [->| ->]; [done|]. change (Z.quot (0 * 1000) i) with 0%Z. rewrite (bool_decide_eq_true_2 (0 = 0)%Z) by done.
  by destruct (bool_decide (found = _)).
Qed.

(** It connects to one of the addresses it is given, *)
Lemma wan_round `{GoRange} p s infos ws c fuel :
  Contains (p ++ s) (str "*") = false → wan_client c → fair (ws 0) → infos ≠ [] →
  w_wan (ws 0) (Client.registryAddr c) p s = Some infos → (∀ si, si ∈ infos → w_dial (ws 0) (Addr si) = true) →
  ∃ si, si ∈ infos ∧ Discover p s [] (S fuel) ws c = Return (Some [TCPConn (Addr si)]).
Proof.
  intros Hw Hc Hfair Hinfos Hwan Hdial.
  enough (∃ si tried, si ∈ infos ∧
    selectAndConnect c (ws 0) 1 infos 0 (mkSearch ∅ []) = (1%Z, mkSearch tried [TCPConn (Addr si)])) as (si & tried & Hsi & Hsel).
  { exists si. split; [done|]. by rewrite (wan_first p s infos ws c fuel _ _ Hw Hc Hwan Hsel (or_introl eq_refl)). }
  unfold selectAndConnect. destruct infos as [|si0 infos]; [done|]. cbn [serviceList connections].
  destruct (getAddrs_first (Client.providerID c) si0 infos) as (tried & addrs & Hg). rewrite Hg.
  pose proof (getAddrs_infos _ _ _ _ _ Hg) as [_ Hin]. destruct Hc as (_ & _ & _ & Hm). unfold order_addrs. rewrite Hm.
  pose proof (proj1 Hfair (Addr si0 :: addrs)) as Hperm.
  destruct (w_shuffle (ws 0) (Addr si0 :: addrs)) as [|a l]; [by apply Permutation_nil_cons in Hperm|].
  destruct (Hin a) as (si & Hsi & <-); [rewrite <- Hperm; left|]. exists si, tried. split; [done|].
  cbn [connect]. rewrite (bool_decide_eq_false_2 (0%Z = _)), Hdial by done. by rewrite connect_enough.
Qed.

(** or gives nothing when the registry knows none and there is no time to wait. *)
Lemma wan_round_none `{GoRange} p s ws c fuel :
  Contains (p ++ s) (str "*") = false → wan_client c → fair (ws 0) → discoverTimeout c = 0%Z →
  w_wan (ws 0) (Client.registryAddr c) p s = Some [] → Discover p s [] (S fuel) ws c = Return (Some []).
Proof.
  intros Hw Hc Hfair Ht Hwan. rewrite (wan_first p s [] ws c fuel 0%Z (mkSearch ∅ []) Hw Hc Hwan); [done| |by right].
  unfold selectAndConnect. cbn [getAddrs serviceList connections]. by rewrite order_addrs_nil.
Qed.

Section across.
Context `{GoRange} (publisher service : bytes).
Abbreviation name := (toPublisherServiceName publisher service).

Lemma registered_entry dial now remote msg rr pID :
  reg_publisher msg = publisher → reg_service msg = service → (regServiceInWAN_Handle dial now remote msg rr).2 = ReplyOK →
  entry (regServiceInWAN_Handle dial now remote msg rr).1 name pID =
  if decide (pID = reg_providerID msg) then Some (mkProviderInfo now (reg_addr remote msg) (reg_proxied msg)) else entry rr name pID.
Proof.
  intros Hp Hs. unfold regServiceInWAN_Handle. destruct (pingService _ _); [done|]. intros _. destruct rr as [m].
  cbn [fst]. rewrite Hp, Hs, entry_insert, decide_True by done. case_decide as Hi; subst; [by rewrite lookup_insert_eq|].
  rewrite lookup_insert_ne by done. unfold entry; simpl. by destruct (m !! _); simplify_map_eq.
Qed.

Lemma withdrawn_entry msg rr pID : del_publisher msg = publisher → del_service msg = service →
  entry (delServiceInWAN_Handle msg rr).1 name pID =
  if decide (pID = del_providerID msg) then None else entry rr name pID.
Proof.
  intros Hp Hs. unfold delServiceInWAN_Handle. rewrite Hp, Hs. destruct rr as [m]. simpl.
  destruct (m !! name) as [pm|] eqn:E; simpl.
  - rewrite entry_insert, decide_True by done. case_decide; subst; [by rewrite lookup_delete_eq|].
    rewrite lookup_delete_ne by done. unfold entry; simpl. by rewrite E.
  - unfold entry; simpl. rewrite E. simpl. by case_decide.
Qed.

Lemma withdrawn_wf msg rr : del_publisher msg = publisher → del_service msg = service → wf_names rr →
  wf_names (delServiceInWAN_Handle msg rr).1.
Proof.
  intros Hp Hs Hwf. unfold delServiceInWAN_Handle. rewrite Hp, Hs. destruct rr as [m]. simpl.
  destruct (m !! name) eqn:E; [|done]. apply wf_names_insert; [done|]. by eapply Hwf.
Qed.
(** Names as [checkNameConvention] has them, without wildcards *)
Hypothesis Hplain : Contains (publisher ++ service) (str "*") = false.
Hypothesis Hpub : underscore ∉ publisher.
Hypothesis Hsvc : underscore ∉ service.

Lemma registered_wf dial now remote msg rr :
  reg_publisher msg = publisher → reg_service msg = service → wf_names rr →
  wf_names (regServiceInWAN_Handle dial now remote msg rr).1.
Proof.
  intros Hp Hs Hwf. unfold regServiceInWAN_Handle. destruct (pingService _ _); [done|]. destruct rr.
  apply wf_names_insert; [done|]. rewrite Hp, Hs. eexists _, _. by apply from_to_ok.
Qed.

(** What a registry answers about one service *)
Lemma asked rr c w : wf_names rr → asks publisher service c rr w →
  ∃ infos, w_wan w (Client.registryAddr c) publisher service = Some infos ∧
    NoDup (info_key <$> infos) ∧
    ∀ si, si ∈ infos ↔ ∃ pID pInfo, entry rr name pID = Some pInfo ∧ si = mkServiceInfo publisher service pID (published_addr pInfo).
Proof.
  intros Hwf (infos & Hq & Hw). exists infos. split; [done|].
  destruct (query_handle (mkQuery publisher service) rr Hwf) as (infos' & Hq' & Hnd & Hd). rewrite Hq in Hq'. injection Hq' as <-.
  split; [done|]. intros si. rewrite Hd. simpl. unfold selects. rewrite (plain_name _ _ Hplain).
  assert (∀ pID pInfo, info_of (name, pID, pInfo) = mkServiceInfo publisher service pID (published_addr pInfo)) as Hi
    by (intros; unfold info_of; by rewrite from_to_ok).
  split.
  - intros (n & pID & pInfo & ->%bool_decide_unpack & He & ->). exists pID, pInfo. split; [done|apply Hi].
  - intros (pID & pInfo & He & ->). exists name, pID, pInfo. split; [by apply bool_decide_pack|]. split; [done|]. symmetry. apply Hi.
Qed.
End across.

(** A registration that succeeds was accepted by the registry. *)
Lemma regServiceWAN_accepted E svc port s s' : regServiceWAN E svc port s = (Ok tt, s') →
  regServiceInWAN_answer E (Server.publisherName svc) (Server.serviceName svc) (svc_providerID svc) port
    (negb (bool_decide (svc_providerID svc = Server.providerID (srv s)))) = None.
Proof.
  unfold regServiceWAN, gets, mbind, M_bind. simpl. destruct (dial_registry _ _ _); [done|]. simpl.
  by destruct (regServiceInWAN_answer _ _ _ _ _ _).
Qed.

Lemma reg_reply dial now remote msg rr :
  reg_answer (regServiceInWAN_Handle dial now remote msg rr).2 = None →
  (regServiceInWAN_Handle dial now remote msg rr).2 = ReplyOK.
Proof. unfold regServiceInWAN_Handle. by destruct (pingService _ _). Qed.

(** C5. Across the root registry.  When a server's registration of a service has
    succeeded at a root registry, a client of the wide area network that asks this
    registry by name is given exactly one connection, to the address of a provider
    registered for the service; if there is no other provider, to the host the
    registration came from, at the port registered, marked when it is proxied.
    When the registration has been withdrawn and there is no other provider, it is
    given none. *)
Theorem found_across_registry `{GoRange} E svc port s s' rdial now remote rr :
  let p := Server.publisherName svc in let n := Server.serviceName svc in
  let name := toPublisherServiceName p n in
  let proxied := negb (bool_decide (svc_providerID svc = Server.providerID (srv s))) in
  let registered := regServiceInWAN_Handle rdial now remote (mkReg p n (svc_providerID svc) port proxied) rr in
  let withdrawn := (delServiceInWAN_Handle (mkDel p n (svc_providerID svc)) registered.1).1 in
  let alone := ∀ pID, pID ≠ svc_providerID svc → entry rr name pID = None in
  Contains (p ++ n) (str "*") = false → underscore ∉ p → underscore ∉ n → wf_names rr →
  regServiceInWAN_answer E p n (svc_providerID svc) port proxied = reg_answer registered.2 →
  regServiceWAN E svc port s = (Ok tt, s') →
  ∀ ws c fuel, wan_client c → fair (ws 0) →
  (asks p n c registered.1 (ws 0) →
   (∀ pID pInfo, entry registered.1 name pID = Some pInfo → w_dial (ws 0) (published_addr pInfo) = true) →
   ∃ pID pInfo, entry registered.1 name pID = Some pInfo ∧
     Discover p n [] (S fuel) ws c = Return (Some [TCPConn (published_addr pInfo)]) ∧
     (alone → published_addr pInfo = host_of remote ++ str ":" ++ port ++ (if proxied then str "P" else []))) ∧
  (asks p n c withdrawn (ws 0) → alone → discoverTimeout c = 0%Z → Discover p n [] (S fuel) ws c = Return (Some [])).
Proof.
  intros p n name proxied registered withdrawn alone Hw Hp Hn Hwf Hans Hreg ws c fuel Hc Hfair.
  apply regServiceWAN_accepted in Hreg. fold p n proxied in Hreg. rewrite Hans in Hreg. apply reg_reply in Hreg.
  pose proof (λ pID, registered_entry p n rdial now remote (mkReg p n (svc_providerID svc) port proxied) rr pID eq_refl eq_refl Hreg) as He.
  cbn [reg_providerID reg_proxied] in He. fold registered name in He.
  assert (Hwf1 : wf_names registered.1) by (by apply (registered_wf p n)).
  split.
  - intros Ha Hdial. destruct (asked p n Hw Hp Hn _ c (ws 0) Hwf1 Ha) as (infos & Hwan & _ & Hi).
    destruct (wan_round p n infos ws c fuel Hw Hc Hfair) as (si & Hsi & Hd); [|done|..].
    + intros ->. apply (elem_of_nil (mkServiceInfo p n (svc_providerID svc) (published_addr (mkProviderInfo now (reg_addr remote (mkReg p n (svc_providerID svc) port proxied)) proxied)))).
      apply Hi. eexists _, _. split; [|done]. fold name. by rewrite He, decide_True.
    + intros si (pID & pInfo & Hent & ->)%Hi. by eapply Hdial.
    + apply Hi in Hsi as (pID & pInfo & Hent & ->). exists pID, pInfo. split; [done|]. split; [done|].
      intros Halone. fold name in Hent. rewrite He in Hent. destruct (decide (pID = svc_providerID svc)) as [->|Hne].
      * injection Hent as <-. unfold published_addr, reg_addr; simpl. destruct proxied; rewrite <- ?app_assoc; [done|]. by rewrite app_nil_r.
      * by rewrite Halone in Hent.
  - intros Ha Halone Ht. assert (Hwf2 : wf_names withdrawn) by (by apply (withdrawn_wf p n)).
    destruct (asked p n Hw Hp Hn _ c (ws 0) Hwf2 Ha) as (infos & Hwan & _ & Hi).
    assert (infos = []) as ->; [|by apply wan_round_none].
    destruct infos as [|si infos]; [done|]. destruct (proj1 (Hi si)) as (pID & pInfo & Hent & _); [left|].
    unfold withdrawn in Hent. rewrite (withdrawn_entry p n) in Hent by done. cbn [del_providerID] in Hent.
    case_decide as Hne; [done|]. fold name in Hent. rewrite He, decide_False in Hent by done. by rewrite Halone in Hent.
Qed.

(** A service behind a proxy is registered in an empty registry, found, and
    withdrawn. *)
Definition far_svc : service := mkService (str "org") (str "echo") (str "cc") ScopeWAN false.
Definition far_server : state := mkState (NewServer [WithProviderID (str "bb"); WithRegistryAddr (str "1.2.3.4:11985")]) empty_node.
Definition far_registered : RootRegistry.rootRegistry * reply :=
  regServiceInWAN_Handle (λ _, true) 0 (str "10.0.0.5:3999") (mkReg (str "org") (str "echo") (str "cc") (str "4000") true) emptyRegistry.
Definition far_withdrawn : RootRegistry.rootRegistry :=
  (delServiceInWAN_Handle (mkDel (str "org") (str "echo") (str "cc")) far_registered.1).1.
Definition far_world (rr : RootRegistry.rootRegistry) : world :=
  mkWorld ∅ None no_dir None (λ _ _, None) None
    (λ _ p s, match queryServiceInWAN_Handle (mkQuery p s) rr with
          | Return (_, ReplyInfos l) => Some l | _ => None end)
    (λ _, true) (λ _, None) reverse (λ l, l).
Definition far_client : Client :=
  SetDiscoverTimeout 0 (Client.NewClient [Client.WithScope ScopeWAN; Client.WithRegistryAddr (str "1.2.3.4:11985")]).

Lemma far_asks rr c : wf_names rr → asks (str "org") (str "echo") c rr (far_world rr).
Proof.
  intros Hwf. destruct (query_handle (mkQuery (str "org") (str "echo")) rr Hwf) as (infos & Hq & _).
  exists infos. split; [done|]. unfold far_world. cbn [w_wan]. by rewrite Hq.
Qed.

Lemma found_across_registry_witness :
  Discover (str "org") (str "echo") [] 1 (λ _, far_world far_registered.1) far_client =
    Return (Some [TCPConn (str "10.0.0.5:4000P")]) ∧
  Discover (str "org") (str "echo") [] 1 (λ _, far_world far_withdrawn) far_client = Return (Some []).
Proof.
  assert (Hp : underscore ∉ str "org") by by_decide. assert (Hn : underscore ∉ str "echo") by by_decide.
  assert (Hwf : wf_names far_registered.1) by (apply (registered_wf (str "org") (str "echo") Hp Hn); [reflexivity..|apply emptyRegistry_wf]).
  assert (Hc : wan_client far_client) by (split; [reflexivity|]; split; [discriminate|]; split; [discriminate|reflexivity]).
  assert (Hfair : ∀ rr, fair (far_world rr)) by (intros rr; split; intros l; [apply reverse_Permutation|reflexivity]).
  assert (Hsole : ∀ pID, pID ≠ str "cc" → entry emptyRegistry (toPublisherServiceName (str "org") (str "echo")) pID = None) by done.
  assert (Hw : Contains (str "org" ++ str "echo") (str "*") = false) by (vm_compute; reflexivity).
  pose proof (found_across_registry alone far_svc (str "4000") far_server _ (λ _, true) 0 (str "10.0.0.5:3999") emptyRegistry
    Hw Hp Hn emptyRegistry_wf eq_refl eq_refl) as Hall.
  split.
  - destruct (proj1 (Hall (λ _, far_world far_registered.1) far_client 0 Hc (Hfair _)) (far_asks _ _ Hwf)) as (pID & pInfo & _ & Hd & Ha).
    + reflexivity.
    + specialize (Ha Hsole). etransitivity; [exact Hd|]. rewrite Ha. vm_compute. reflexivity.
  - apply (proj2 (Hall (λ _, far_world far_withdrawn) far_client 0 Hc (Hfair _))); [|exact Hsole|reflexivity].
    apply far_asks. apply (withdrawn_wf (str "org") (str "echo")); [reflexivity..|exact Hwf].
Defined.
