(* ===== verification/Machine.v ===== *)
(** Servers and clients of one machine (registry.go, client.go, server.go): a service
    published in the scope of the machine is found by the clients of its other
    processes, by the listing of the abstract sockets or by its socket file, until its
    server has ended. *)
From S2P Require Import Prelude GoStrings Wildcard Names RootRegistry Lookup Client Server ServerLife ServerScopes Node.

(** ** What a process sees of the sockets of its machine *)

(** "/proc/net/unix" lists the abstract sockets of the framework. *)
Definition lists (content : bytes) (so : gset bytes) : Prop :=
  ∀ addr, (∃ line, line ∈ tail (complete_lines content) ∧ anon_entry line = Some addr) ↔
          addr ∈ so ∧ Contains addr udsRegistryAnon.

(** The registry directory has the files of the others. *)
Record shows (d : udsDir) (so : gset bytes) : Prop := mkShows {
  sh_stat addr : HasPrefix addr udsRegistryDir → stat d addr ≠ StatNotExist ↔ addr ∈ so;
  sh_entries : entries d = None ∨ entries d = Some [] → ∀ addr, addr ∈ so → HasPrefix addr udsRegistryDir = false;
  sh_files id f : f ∈ files_of d id → HasSuffix f sock → udsRegistryDir ++ id ++ str "/" ++ f ∈ so;
  sh_top es f : entries d = Some es → (f, false) ∈ es → HasSuffix f sock → udsRegistryDir ++ f ∈ so;
}.

Definition sees (w : world) (so : gset bytes) : Prop :=
  (∃ content, w_unix w = Some content ∧ lists content so) ∧ shows (w_dir w) so.

(** The address of a socket of the framework *)
Definition framework_socket (addr : bytes) : Prop := ∃ p s named id, addr = toUDSAddr p s named id.
Definition framework_sockets (so : gset bytes) : Prop := set_Forall framework_socket so.

(** ** Addresses *)

Lemma named_prefix p s id : HasPrefix (toUDSAddr p s true id) udsRegistryDir = true.
Proof. unfold toUDSAddr. by destruct (negb _); rewrite <- ?app_assoc, HasPrefix_app. Qed.

Lemma named_there d so p s id : shows d so →
  stat d (toUDSAddr p s true id) ≠ StatNotExist ↔ toUDSAddr p s true id ∈ so.
Proof. intros Hd. apply Hd. by rewrite named_prefix. Qed.

Lemma anon_contains p s id : Contains (toUDSAddr p s false id) udsRegistryAnon.
Proof. apply Contains_spec. exists [], (toPublisherServiceName p s ++ sock). done. Qed.

Lemma anon_socket_name p s id : socket_name (toUDSAddr p s false id) = toPublisherServiceName p s.
Proof. unfold socket_name, toUDSAddr. by rewrite TrimPrefix_app, TrimSuffix_app. Qed.

(** The name a named socket is listed under has a slash, if ever it is listed. *)
Lemma named_socket_name p s id : "/"%char ∈ socket_name (toUDSAddr p s true id).
Proof.
  destruct (HasPrefix_spec (toUDSAddr p s true id) udsRegistryDir) as [Hp _].
  destruct Hp as [k Hk]; [by rewrite named_prefix|]. unfold socket_name.
  assert (TrimPrefix (toUDSAddr p s true id) udsRegistryAnon = toUDSAddr p s true id) as -> by (by rewrite Hk).
  destruct (toUDSAddr_dir p s true id) as [dir ->].
  rewrite app_comm_cons, app_assoc, TrimSuffix_app. set_solver.
Qed.

Lemma framework_named addr p s : framework_socket addr → "/"%char ∉ toPublisherServiceName p s →
  socket_name addr = toPublisherServiceName p s → addr = toUDSAddr p s false [].
Proof.
  intros (p' & s' & [] & id & ->) Hs Hn.
  - destruct Hs. rewrite <- Hn. apply named_socket_name.
  - rewrite anon_socket_name in Hn. unfold toUDSAddr. by rewrite Hn.
Qed.

(** The sockets found for a service are its one abstract socket, when it is there. *)
Lemma anon_found content so p s : lists content so → framework_sockets so →
  Contains (p ++ s) (str "*") = false → "/"%char ∉ toPublisherServiceName p s →
  lookupServiceUDSAnon p s (Some content) =
  if bool_decide (toUDSAddr p s false [] ∈ so) then [toUDSAddr p s false []] else [].
Proof.
  intros Hl Hfw Hw Hs. destruct (anon_lookup_spec p s content) as (Hsound & Hnd & Hcomplete).
  assert (Hstar : star ∉ toPublisherServiceName p s).
  { intros Hin%Contains_char. by rewrite plain_name in Hin. }
  assert (Hall : ∀ a, a ∈ lookupServiceUDSAnon p s (Some content) → a = toUDSAddr p s false [] ∧ a ∈ so).
  { intros a (Hg & He)%Hsound. apply Hl in He as [Ha _]. split; [|done].
    apply (framework_named a p s); [by apply Hfw|done|]. by apply WildcardMatch_glob, WildcardMatch_plain in Hg. }
  case_bool_decide as Hin.
  - destruct (proj2 (Hl _) (conj Hin (anon_contains p s []))) as (line & Hline & He).
    destruct (Hcomplete line _ Hline He) as (a & Ha & _).
    { rewrite anon_socket_name. by apply WildcardMatch_glob, WildcardMatch_plain. }
    destruct (lookupServiceUDSAnon p s (Some content)) as [|x [|y l]]; [by apply elem_of_nil in Ha| |].
    + by destruct (Hall x) as [-> _]; [left|].
    + destruct (Hall x) as [-> _]; [left|]. destruct (Hall y) as [-> _]; [right; left|].
      apply NoDup_cons in Hnd as [Hn _]. destruct Hn. left.
  - destruct (lookupServiceUDSAnon p s (Some content)) as [|x l]; [done|].
    by destruct (Hall x) as [-> ?]; [left|].
Qed.

(** Every socket file found is there. *)
Lemma mapOutcome_elem {A B} (f : A → outcome B) l r y :
  mapOutcome f l = Return r → y ∈ r → ∃ x, x ∈ l ∧ f x = Return y.
Proof.
  revert r. induction l as [|x l IH]; intros r; simpl; [intros [= <-] ?%elem_of_nil; done|].
  destruct (f x) as [b|] eqn:Hf; [|done]. simpl. destruct (mapOutcome f l) as [r'|]; [|done].
  intros [= <-] [->|Hy]%elem_of_cons; [exists x; split; [left|done]|].
  destruct (IH r' eq_refl Hy) as (x' & ? & ?). exists x'. split; [by right|done].
Qed.

Lemma elem_of_concat {A} (ls : list (list A)) x : x ∈ concat ls ↔ ∃ l, x ∈ l ∧ l ∈ ls.
Proof.
  induction ls as [|l ls IH]; simpl; [split; [by intros ?%elem_of_nil|by intros (? & _ & ?%elem_of_nil)]|].
  rewrite elem_of_app, IH. setoid_rewrite elem_of_cons. naive_solver.
Qed.

Lemma uds_entry_there d so p s ids es entry infos si : shows d so → entries d = Some es → entry ∈ es →
  uds_entry p s ids d entry = Return infos → si ∈ infos → Addr si ∈ so.
Proof.
  intros Hd Hes Hin. pose proof Hd as [_ _ Hfiles Htop]. destruct entry as [f isDir]. unfold uds_entry. destruct isDir.
  - destruct (negb (matchProvider ids f)); [intros [= <-] ?%elem_of_nil; done|].
    destruct (negb (Contains _ _)).
    + intros [= <-]. destruct (bool_decide_reflect (stat d (toUDSAddr p s true f) = StatOK)) as [Hok|]; [|by intros ?%elem_of_nil].
      intros ->%list_elem_of_singleton. apply (named_there d); [done|congruence].
    + intros Hm Hsi. destruct (mapOutcome _ _) as [ls|] eqn:Hls; [|done]. injection Hm as <-.
      apply elem_of_concat in Hsi as (l & Hsi & Hl). destruct (mapOutcome_elem _ _ _ _ Hls Hl) as (a & Ha & Hu).
      unfold glob_sockets in Ha. apply list_elem_of_fmap in Ha as (g & -> & [Hsuf Hg]%list_elem_of_filter).
      unfold uds_socket in Hu. destruct (WildcardMatch _ _); [|injection Hu as <-; by apply elem_of_nil in Hsi].
      destruct (fromPublisherServiceName _) as [[pn sn]|]; [|done]. injection Hu as <-.
      apply list_elem_of_singleton in Hsi as ->. by apply Hfiles.
  - destruct (HasSuffix f sock) eqn:Hsuf; [|intros [= <-] ?%elem_of_nil; done].
    destruct (fromUDSAddr f) as [[pn sn]|]; [|done]. intros [= <-]. destruct (WildcardMatch _ _); [|by intros ?%elem_of_nil].
    intros ->%list_elem_of_singleton. apply (Htop es); [done|done|by rewrite Hsuf].
Qed.

Lemma dir_there d so self p s ids infos si : shows d so →
  lookupServiceUDSDir self p s ids d = Return infos → si ∈ infos → Addr si ∈ so.
Proof.
  intros Hd. unfold lookupServiceUDSDir. destruct (entries d) as [[|e es]|] eqn:He;
    [intros [= <-] ?%elem_of_nil; done| |intros [= <-] ?%elem_of_nil; done].
  destruct (_ && _).
  - case_bool_decide as Hst; [intros [= <-] ?%elem_of_nil; done|]. intros [= <-] ->%list_elem_of_singleton.
    by apply (named_there d).
  - intros Hm Hsi. destruct (mapOutcome _ _) as [ls|] eqn:Hls; [|done]. injection Hm as <-.
    apply elem_of_concat in Hsi as (l & Hsi & Hl). destruct (mapOutcome_elem _ _ _ _ Hls Hl) as (a & Ha & Hu).
    by eapply uds_entry_there.
Qed.

(** The socket file of a service of this node *)
Lemma dir_self d so p s id : shows d so → Contains (p ++ s) (str "*") = false → toUDSAddr p s true id ∈ so →
  lookupServiceUDSDir (Some id) p s [] d = Return [mkServiceInfo p s (str "self") (toUDSAddr p s true id)].
Proof.
  intros Hd Hw Hin. pose proof Hd as [_ Hent _ _].
  pose proof (proj2 (named_there d so p s id Hd) Hin) as Hst. unfold lookupServiceUDSDir. pose proof (named_prefix p s id) as Hp.
  destruct (entries d) as [[|e es]|].
  - rewrite (Hent (or_intror eq_refl) _ Hin) in Hp. done.
  - rewrite (plain_name p s Hw). cbn [negb andb length]. rewrite (bool_decide_eq_true_2 (0 = 0)) by done. cbn [default].
    by rewrite bool_decide_eq_false_2.
  - rewrite (Hent (or_introl eq_refl) _ Hin) in Hp. done.
Qed.

(** ** The sockets of a process while its servers run *)

Section sockets.
Context (E : env) (P : gset bytes → Prop) (HP : ∀ p s named id so, P so → P ({[toUDSAddr p s named id]} ∪ so)).

Definition sockets_are (s : state) : Prop := P (sockets (nd s)).

Lemma sockets_on_chans f : keeps sockets_are (on_nd (on_chans f)).
Proof. by intros [sv []]. Qed.
Lemma sockets_on_ports f : keeps sockets_are (on_nd (on_ports f)).
Proof. by intros [sv []]. Qed.
Lemma sockets_on_lan f : keeps sockets_are (on_nd (on_lan f)).
Proof. by intros [sv []]. Qed.
Lemma sockets_on_wan f : keeps sockets_are (on_nd (on_wan f)).
Proof. by intros [sv []]. Qed.
Lemma sockets_addCloser c : keeps sockets_are (addCloser c).
Proof. by intros [sv n]. Qed.
#[local] Hint Resolve sockets_on_chans sockets_on_ports sockets_on_lan sockets_on_wan sockets_addCloser : keeps.

(** Closing a network listener leaves them. *)
Lemma sockets_close svc port : keeps sockets_are (streamTransport_close E (mkTransport svc (str "tcp") port false)).
Proof.
  unfold streamTransport_close, delServiceLAN, delServiceWAN. cbn [lnr_network].
  rewrite bool_decide_eq_false_2 by done. keep; apply keeps_try; keep.
Qed.
#[local] Hint Resolve sockets_close : keeps.

#[export] Instance sockets_stable : Stable E sockets_are.
Proof.
  split.
  - by intros f Hf [sv n].
  - intros f Hf [sv n]. destruct (Hf n) as (_ & E2 & _). unfold sockets_are; simpl. by rewrite E2.
  - intros c _. apply sockets_addCloser.
  - intros svc. unfold newChanTransport. keep.
  - intros svc. apply keeps_bind; [|intros; apply sockets_addCloser]. unfold newUDSTransport, listen_unix.
    apply keeps_bind; [|intros; apply keeps_ret]. apply keeps_bind; [apply keeps_gets|intros n].
    destruct (bool_decide _); [apply keeps_fails|]. destruct (unix_listen E _); [apply keeps_fails|].
    intros [sv []]. unfold sockets_are; simpl. apply HP.
  - intros svc port. apply keeps_bind; [|intros; apply sockets_addCloser].
    unfold newTCPTransport, listen_tcp, register_WAN, connectReverseProxy, regServiceLAN, regServiceWAN.
    keep; apply keeps_try; keep.
Qed.

Lemma sockets_init s : sockets_are s → sockets_are (init E s).2.
Proof.
  intros Hs. destruct (initialized (srv s)) eqn:Hi; [by rewrite init_again|].
  rewrite init_first by done. by apply (keeps_init_rest E sockets_are).
Qed.

Lemma sockets_run calls s : sockets_are s → sockets_are (run E calls s).
Proof.
  revert s. induction calls as [|c calls IH]; intros s Hs; simpl; [done|]. apply IH.
  eapply (keeps_call E sockets_are sockets_are); auto. apply sockets_init.
Qed.

Lemma sockets_initProviderID named s : sockets_are s → sockets_are (when named (initProviderID E) s).2.
Proof. apply keeps_when, (keeps_initProviderID E sockets_are). Qed.
End sockets.

(** A property of sets of sockets that the listeners of servers keep *)
Definition grows (P : gset bytes → Prop) : Prop := ∀ p s named id so, P so → P ({[toUDSAddr p s named id]} ∪ so).

Lemma grows_elem addr : grows (addr ∈.).
Proof. intros p s named id so. set_solver. Qed.

Lemma grows_framework : grows framework_sockets.
Proof.
  intros p s named id so Hso a [->%elem_of_singleton|Ha]%elem_of_union; [by eexists _, _, _, _|by apply Hso].
Qed.

(** Publishing in the scope of the machine adds one socket to those there then. *)
Lemma PublishIn_socket E sc name named s s1 : PublishIn E sc name named s = (Ok tt, s1) →
  has_scope (scope (srv (init E s).2)) ScopeOS && has_scope sc ScopeOS = true →
  let addr := toUDSAddr (publisher (set (srv s))) name named (providerID (srv s1)) in
  ∃ so, addr ∉ so ∧ sockets (nd s1) = {[addr]} ∪ so ∧ ∀ P, grows P → P (sockets (nd s)) → P so.
Proof.
  intros (_ & si & s' & Hinit & Hid & Hp)%PublishIn_transports. intros Hsc addr. rewrite Hinit in Hsc. simpl in Hsc.
  assert (Hprov : providerID (srv s1) = providerID (srv s')).
  { pose proof (pub_server _ _ _ _ Hp) as Hs. destruct (srv s1), (srv s'). by injection Hs. }
  pose proof (pub_sockets _ _ _ _ Hp) as Hso. cbn [svc_scope Server.publisherName Server.serviceName Server.useNamedUDS svc_providerID] in Hso.
  rewrite has_scope_land, Hsc, <- Hprov in Hso. destruct Hso as [Hfree Hso]. exists (sockets (nd s')). split; [done|]. split; [done|].
  intros P HP Hold. replace s' with (when named (initProviderID E) (init E s).2).2 by (by rewrite Hinit; simpl; rewrite Hid).
  by apply (sockets_initProviderID E P HP), (sockets_init E P HP).
Qed.

(** ** A search of the machine *)

(** The one socket of a service, abstract or else a file, is connected to in the first
    round when this process has no such service itself. *)
Lemma machine_first `{GoRange} p s fuel ws c addr :
  Contains (p ++ s) (str "*") = false → has_scope (Client.scope c) ScopeOS = true →
  w_chan (ws 0) !! toPublisherServiceName p s = None → w_dial (ws 0) addr = true →
  (lookupServiceUDSAnon p s (w_unix (ws 0)) = [addr] ∧ fromUDSAddr addr = Return (p, s) ∨
   lookupServiceUDSAnon p s (w_unix (ws 0)) = [] ∧
   lookupServiceUDSDir (w_self (ws 0)) p s [] (w_dir (ws 0)) = Return [mkServiceInfo p s (str "self") addr]) →
  Discover p s [] (S fuel) ws c = Return (Some [UDSConn addr]).
Proof.
  intros Hw Hsc Hc Hdial Hfound. unfold Discover, prologue. cbn [length]. rewrite bool_decide_eq_true_2 by done.
  cbn [discover_loop]. rewrite bool_decide_eq_true_2 by done. unfold round, expected.
  rewrite Hw. cbn [Join orb]. change (Contains [] (str "*")) with false. cbn [length].
  rewrite (bool_decide_eq_true_2 (0 = 0)) by done. unfold findWithinOS. rewrite Hsc. cbn [andb].
  assert (chan_candidates p s (ws 0) = []) as ->.
  { unfold chan_candidates, lookupServiceChan, serviceNamesInProcess. by rewrite (plain_name p s Hw), Hc. }
  change (1 - 0)%Z with 1%Z. cbn [try_each].
  assert (∀ b : bool, (if b then Return (false, 0%Z, mkSearch ∅ []) else Return (false, 0%Z, mkSearch ∅ [])) =
    Return (false, 0%Z, mkSearch ∅ [])) as -> by (by intros []).
  cbn [mbind outcome_bind negb orb]. unfold anon_candidates, dial_uds. destruct Hfound as [[-> Hfrom]|[-> ->]].
  - cbn [fmap list_fmap try_each cand_key cand_conn]. rewrite Hfrom, Hdial. cbn [mbind outcome_bind serviceList connections].
    by rewrite (bool_decide_eq_false_2 (_ ∈ _)) by apply not_elem_of_empty.
  - cbn [fmap list_fmap try_each mbind outcome_bind]. unfold dir_candidates, dial_uds.
    cbn [fmap list_fmap try_each cand_key cand_conn mbind outcome_bind serviceList connections Addr Publisher Service].
    rewrite Hdial, (bool_decide_eq_false_2 (_ ∈ _)) by apply not_elem_of_empty. done.
Qed.

(** No connection is given to a socket that is not there. *)
Lemma absent_not_given `{GoRange} addr publisher service ids fuel ws c conns :
  (∀ i, fair (ws i) ∧ ∃ so, sees (ws i) so ∧ addr ∉ so) →
  Discover publisher service ids fuel ws c = Return (Some conns) → UDSConn addr ∉ conns.
Proof.
  intros Hws Hd Hin. apply discover_looked_up in Hd as (j & Ho & _); [|intros j; by destruct (Hws j)].
  rewrite Forall_forall in Ho. destruct (Ho _ Hin) as (_ & _ & Hwhere).
  destruct (Hws j) as (_ & so & ((content & Hu & Hl) & Hdir) & Hno). apply Hno. destruct Hwhere as [Ha|(infos & si & Hq & Hsi & <-)].
  - rewrite Hu in Ha. destruct (proj1 (anon_lookup_spec publisher service content) _ Ha) as [_ He]. exact (proj1 (proj1 (Hl addr) He)).
  - by eapply dir_there.
Qed.

(** C2. The scope of the machine, from publishing to closing.  A service published in
    the scope of the machine, with an abstract or a named socket, by a server that has
    made any calls before and makes any calls after, is the one connection given to a
    client of another process that looks for it by name, whatever other sockets of the
    framework the machine has (for a named socket, unless one of them is the abstract
    socket of a service of the same name); and once the server's [Serve] has ended, no
    [Discover] whatever gives a connection to that socket any more. *)
Theorem found_on_machine `{GoRange} E calls1 calls2 events e rest sc name named s0 s1 :
  closers (srv s0) = [] → initialized (srv s0) = false → framework_sockets (sockets (nd s0)) →
  let s := run E calls1 s0 in
  let p := publisher (set (srv s)) in
  PublishIn E sc name named s = (Ok tt, s1) →
  has_scope (scope (srv (init E s).2)) ScopeOS && has_scope sc ScopeOS = true →
  let addr := toUDSAddr p name named (providerID (srv s1)) in
  let s2 := run E calls2 s1 in
  (∀ others fuel ws c,
     Contains (p ++ name) (str "*") = false → checkNameConvention p = None → framework_sockets others →
     has_scope (Client.scope c) ScopeOS = true → w_chan (ws 0) !! toPublisherServiceName p name = None →
     sees (ws 0) (sockets (nd s2) ∪ others) → w_dial (ws 0) addr = true →
     (named = true → w_self (ws 0) = Some (providerID (srv s1)) ∧ toUDSAddr p name false [] ∉ sockets (nd s2) ∪ others) →
     Discover p name [] (S fuel) ws c = Return (Some [UDSConn addr])) ∧
  (serve_loop events = Some (e, rest) →
   ∃ s3, Serve E events s2 = (Ok (Some e), s3) ∧
     ∀ others publisher service ids fuel ws c conns, addr ∉ others →
       (∀ i, fair (ws i) ∧ sees (ws i) (sockets (nd s3) ∪ others)) →
       Discover publisher service ids fuel ws c = Return (Some conns) → UDSConn addr ∉ conns).
Proof.
  intros Hc Hi Hfw s p Hpub Hsc addr s2. destruct (PublishIn_socket _ _ _ _ _ _ Hpub Hsc) as (so & Hfree & Hso & Hgrows).
  fold p addr in Hfree, Hso. assert (Hs2 : ∀ P, grows P → P (sockets (nd s0)) → P so).
  { intros P HP Hold. apply Hgrows; [done|]. by apply (sockets_run E P HP). }
  split.
  - intros others fuel ws c Hw Hpok Hof Hcs Hchan ((content & Hu & Hl) & Hdir) Hdial Hnamed.
    assert (Hin : addr ∈ sockets (nd s2) ∪ others).
    { apply elem_of_union_l, (sockets_run E (addr ∈.) (grows_elem addr)). unfold sockets_are. rewrite Hso. set_solver. }
    assert (Hall : framework_sockets (sockets (nd s2) ∪ others)).
    { apply set_Forall_union; [|done]. apply (sockets_run E _ grows_framework). unfold sockets_are. rewrite Hso.
      by apply grows_framework, (Hs2 _ grows_framework). }
    destruct (PublishIn_transports _ _ _ _ _ _ Hpub) as (Hname & _).
    apply checkNameConvention_ok in Hpok as [Hp1 Hp2], Hname as [Hn1 Hn2].
    assert (Hslash : "/"%char ∉ toPublisherServiceName p name).
    { pose proof (service_file_no_slash p name Hp2 Hn2) as Hf. rewrite elem_of_app in Hf. tauto. }
    apply machine_first; [done..|]. rewrite Hu, (anon_found content _ p name Hl Hall Hw Hslash).
    subst addr. destruct named.
    + right. destruct (Hnamed eq_refl) as [-> Hno]. rewrite bool_decide_eq_false_2 by done. split; [done|]. by eapply dir_self.
    + left. rewrite bool_decide_eq_true_2 by done. split; [done|].
      change (toUDSAddr p name false (providerID (srv s1))) with (toUDSAddr p name false []).
      destruct (toUDSAddr_dir p name false []) as [dir ->]. rewrite fromUDSAddr_file by done. by apply from_to_ok.
  - intros Hloop.
    destruct (served_and_over E calls1 calls2 events e rest sc name named s0 s1 Hc Hi Hpub Hloop) as (s3 & Hserve & Hrest).
    exists s3. split; [done|]. intros others publisher service ids fuel ws c conns Hno Hws. apply absent_not_given.
    intros i. destruct (Hws i) as [? Hsees]. split; [done|]. eexists. split; [exact Hsees|].
    rewrite (rest_sockets _ _ _ Hrest). intros [Hold|?]%elem_of_union; [|done].
    by apply Hfree, (Hs2 _ (grows_elem addr)).
Qed.

(** ** Witness *)

(** What [lists] says of a listing whose sockets are these *)
Lemma lists_these content so : omap anon_entry (tail (complete_lines content)) ≡ₚ elements so → lists content so.
Proof.
  intros Hl addr. transitivity (addr ∈ so); [rewrite <- elem_of_elements, <- Hl, list_elem_of_omap; done|].
  split; [|tauto]. intros Ha. split; [done|]. rewrite <- elem_of_elements, <- Hl, list_elem_of_omap in Ha.
  destruct Ha as (line & _ & He). unfold anon_entry in He. destruct (bool_decide _); [|done].
  destruct (Contains _ _) eqn:Hc; [|done]. injection He as <-. by rewrite Hc.
Qed.

Lemma no_dir_shows so : set_Forall (λ addr, HasPrefix addr udsRegistryDir = false) so → shows no_dir so.
Proof.
  intros Hso. split; [|intros _ addr; apply Hso|by intros id f ?%elem_of_nil|done].
  intros addr Hp. split; [done|]. intros Hin%Hso. by rewrite Hin in Hp.
Qed.

(** A process that publishes two services on a machine with a third one, as another
    process of the machine sees it *)
Definition near : state := mkState (NewServer [Server.WithScope ScopeOS]) empty_node.
Definition near_open : state := (PublishIn alone ScopeAll (str "echo") false (run alone [call_Publish (str "db") false] near)).2.
Definition near_closed : state := (Serve alone [noError] near_open).2.
Definition near_others : gset bytes := {[str "@adaptiveservice/com_time.sock"]}.
Definition listing (addrs : list bytes) : bytes :=
  str "Num RefCount Protocol Flags Type St Inode Path" ++ ["010"%char] ++
  concat ((λ addr, str "0000: 00000002 00000000 00010000 0001 01 101 " ++ addr ++ ["010"%char]) <$> addrs).
Definition near_world (so : gset bytes) : world :=
  mkWorld ∅ (Some (listing (elements so))) no_dir None (λ _ _, None) None (λ _ _ _, None) (λ _, true) (λ _, None) (λ l, l) (λ l, l).

Lemma near_sees so : omap anon_entry (tail (complete_lines (listing (elements so)))) = elements so →
  forallb (λ addr, negb (HasPrefix addr udsRegistryDir)) (elements so) = true → sees (near_world so) so.
Proof.
  intros Hl Hd. split; [eexists; split; [reflexivity|by apply lists_these; rewrite Hl]|].
  apply no_dir_shows. intros addr Ha. apply Is_true_true, forallb_True in Hd. rewrite Forall_forall in Hd.
  by apply negb_true_iff, Is_true_true, Hd, elem_of_elements.
Qed.

Lemma found_on_machine_witness :
  Discover (str "default.org") (str "echo") [] 1 (λ _, near_world (sockets (nd near_open) ∪ near_others)) (NewClient []) =
    Return (Some [UDSConn (str "@adaptiveservice/default.org_echo.sock")]) ∧
  ∀ conns, Discover (str "default.org") (str "e*") [] 5 (λ _, near_world (sockets (nd near_closed) ∪ near_others)) (NewClient []) =
    Return (Some conns) → UDSConn (str "@adaptiveservice/default.org_echo.sock") ∉ conns.
Proof.
  destruct (found_on_machine alone [call_Publish (str "db") false] [] [noError] None [] ScopeAll (str "echo") false near near_open)
    as [Hbefore Hafter].
  - reflexivity.
  - reflexivity.
  - intros addr Ha. change (sockets (nd near)) with (∅ : gset bytes) in Ha. by apply not_elem_of_empty in Ha.
  - apply result_eta. vm_compute. reflexivity.
  - vm_compute. reflexivity.
  - assert (Hp : publisher (set (srv (run alone [call_Publish (str "db") false] near))) = str "default.org") by (vm_compute; reflexivity).
    rewrite Hp in Hbefore, Hafter. split.
    + apply (Hbefore near_others 0 (λ _, near_world (sockets (nd near_open) ∪ near_others))).
      * vm_compute; reflexivity.
      * vm_compute; reflexivity.
      * intros addr ->%elem_of_singleton. exists (str "com"), (str "time"), false, []. vm_compute; reflexivity.
      * vm_compute; reflexivity.
      * reflexivity.
      * apply near_sees; vm_compute; reflexivity.
      * reflexivity.
      * discriminate.
    + destruct (Hafter eq_refl) as (s3 & Hs3 & Hno). intros conns.
      assert (near_closed = s3) as -> by (unfold near_closed; exact (f_equal snd Hs3)).
      apply (Hno near_others).
      * intros Hin%elem_of_singleton. vm_compute in Hin. discriminate Hin.
      * intros i. split; [split; intros l; reflexivity|].
        assert (near_closed = s3) as <- by (unfold near_closed; exact (f_equal snd Hs3)).
        apply near_sees; vm_compute; reflexivity.
Defined.
